(* ===== verification/_CoqProject ===== *)
-Q . S2P
Prelude.v
JsMap.v
Value.v
Env.v
Kwin.v
RefEnv.v
Dbus.v
State.v
Spec.v
Windows.v
Tokens.v
Workspace.v
JsonRpc.v
RefRpc.v
Events.v
Methods.v
Traverse.v
Clients.v
System.v
TokenInv.v
Refine.v
ListenerInv.v
WspaceInv.v
Invariant.v
Transitions.v
Operations.v
Handlers.v
Loading.v
SystemInv.v
Scenario.v
TokenProps.v
RequestProps.v
KwinProps.v
WindowProps.v
LoadProps.v
WatchProps.v
WorkspaceProps.v
RpcProps.v
ClientProps.v
Bytes.v
Frames.v
RxBuffer.v
TxBuffer.v
ProtoClient.v
ClientInv.v
PollQueue.v
Session.v
SessionInv.v
ConnInv.v
Starvation.v
RefMachine.v
Server.v
ServerInv.v
TransportProps.v
ServerProps.v
Listen.v
Registry.v
Access.v
RefJson.v
EndToEnd.v
Config.v
ConfigProps.v
Dispatch.v
RefArray.v
StreamProps.v
Responses.v
Notices.v
RoundTrip.v
NativeHost.v
NativeProps.v
FileUtil.v
Daemon.v
DaemonProps.v
LineServer.v
LineSocket.v
Launcher.v
