(* ===== verification/Prelude.v ===== *)
(** * kwin-api-server: the KWin script and the daemon

    kwin-api-server lets programs control the windows they own on a KDE
    desktop.  A daemon (src/daemon, C++) accepts clients on a socket and offers
    their messages on D-Bus; a script that runs inside KWin
    (src/kwinscript/src, TypeScript) polls the daemon, keeps the registries of
    clients, tokens and listeners, and answers the clients' JSON-RPC requests.
    A browser extension reaches the daemon through a native messaging host
    (src/native, Python).  This library models the script, all seven files of
    it, the daemon from its configuration to its transport between the socket and
    D-Bus, and the host, and proves them against the protocols of doc/RPC.md and
    doc/PROTOCOL.md, each alone and the three together.  It also models the older
    line protocol of the daemon and the launcher run.py.

    ** The script and its model

    The files of the script share one JavaScript heap.  [State.state] is that
    heap: a record per source file, and the list [out] of the calls that left
    the script (D-Bus calls, prints, sleeps), in order.  Objects that are
    mutated through several references keep their identity: the registries
    [byToken] and [byWindow] of tokens.ts hold positions in the heap of
    [TokenEntry] objects, a connection is its identity with its readonly id,
    and a listener closure is its identity with the variables it captured.

    - Kwin.v: what kwin-ts/index.d.ts declares of KWin's windows and workspace,
      as tables of properties and signals.
    - Dbus.v: dbus.ts.  [callDBusAsync] as a machine that a timeout and a reply
      drive; the wrappers, split at their [await].
    - State.v: the heap, the state-and-exception monad [M] of the functions
      that can throw, [sendLog], [pushToClient] and [notifyClient].
    - Windows.v: windows.ts, the catalogs and the listeners ([setWatch],
      [dropClientWatches]).  A signal that KWin does not declare is undefined,
      and connecting to it throws.
    - Tokens.v: tokens.ts, the whole file.
    - Workspace.v: workspace.ts, the values and the listeners.
    - JsonRpc.v: jsonrpc.ts ([registerMethod], [dispatchMessage]).
    - Events.v: what KWin runs when it emits a signal or when the script
      assigns a property; the script's slots, in connection order.
    - Methods.v: the six methods of windows.ts and workspace.ts, and the table
      of all seven with their zod schemas.
    - Clients.v: clients.ts and index.ts.  A coroutine is a constructor per
      [await] ([loop], [control_loop]) and a function per resumption.
    - System.v: [step], everything that can happen to the loaded script, in any
      interleaving; [perform], the same as a function; [reachable].

    What is not in the repository is a parameter, the class [Env] of Env.v:
    KWin's windows and workspace, Qt's timers and signal connections,
    [Math.random], [JSON], zod and json-rpc-2.0.  Its field [kwin_load_error]
    says which of KWin's objects throw while the script loads.  Law classes state the
    documented behaviour the theorems use ([QTimerLaws], [SignalLaws],
    [RandomLaws], [ZodLaws], [WindowIdLaws], [JsonRpcLaws]).  RefEnv.v and
    RefRpc.v are a concrete environment and server that satisfy all of them,
    and Scenario.v a run of the script in them, on which the theorems are
    evaluated.  Value.v has JavaScript values, JsMap.v its [Map] and [Set] with
    their insertion order.

    ** The daemon and its model

    A client's bytes come out of read(2) into a decoder, which queues the
    payloads of legal frames in a buffer that is always the start of a JSON
    array; a [poll] over D-Bus takes the whole array, or waits.  A [push] frames
    a message into a ring, which send(2) empties when the socket is writable.
    A full read buffer pauses the reads until a [poll] drains it.

    - Bytes.v: bytes, words with their wrap-around and byte order, arrays whose
      out-of-bounds access is undefined behaviour, and [cpp], the four ways a
      piece of C++ ends (it returns, throws, is undefined, or did not finish
      within its fuel).
    - Frames.v: the frames, and a reference decoder that takes a byte at a time.
    - RxBuffer.v, TxBuffer.v: proto/rx_buffer.cpp and proto/tx_buffer.cpp, with
      what each array holds ([rx_queue], [tx_queue]).
    - ProtoClient.v: proto/client.cpp, the decoder's state machine, against any
      answers of the kernel; ClientInv.v: it follows the reference decoder.
    - PollQueue.v: poll_waiter.cpp and dbus_util.cpp over the interface
      [PollObject], with the laws [PollObjectLaws]; /daemon and /cli{id} are its
      two instances.
    - Session.v: client_session.cpp and client_dbus_object.cpp; [session_step]
      is everything that can happen to a connection.  SessionInv.v and
      ConnInv.v: what every handler, and every run, keeps.  Starvation.v:
      connections whose reads are paused for good.
    - Server.v: server.cpp and daemon_dbus_object.cpp; [server_step] is
      everything that can happen to the daemon.  ServerInv.v: its invariant.
      Listen.v: from socket(2) to the server that listens, and back.
    - Config.v: config.cpp ([load_config]), with [std::stol] and the casts, and
      the loop of main.cpp that loads the script.
    - FileUtil.v: file_util.cpp, the staging of the script over the answers of
      the file system, of which reading may throw, and its theorem.
    - LineServer.v, LineSocket.v: socket_server.cpp, the line protocol that the
      frames have superseded: one connection, then the server.
    - Daemon.v: main.cpp, dbus_service.cpp, kwin_client.cpp and log.cpp.
      [daemon_main] is the life of the process, as the trace of what it does,
      for any answers of D-Bus, the kernel, the file system and KWin; its event
      loop runs [server_step].

    The platform is the class [Machine] (byte order, contents of fresh memory,
    error texts), with one law; the kernel, the event loop and the bus answer
    through lists and arguments of the operations, unconstrained but for what
    the manual pages promise: at most the bytes asked for, in order.
    RefMachine.v is a concrete machine with a run on it.

    ** The native messaging host and its model

    - NativeHost.v: native/kwin-api-host.py.  [bridge] is its main loop over the
      events of [select]; [forward] the loop over the complete frames of what
      was read; a Python exception is a value.

    ** The launcher and its model

    - Launcher.v: run.py in a monad of code that may raise.  Its commands are
      actions with their answers, an exit code, a missing program or a signal;
      [try_finally] is the statement around them.

    ** The contract and the invariant of the script

    Spec.v is the contract of the token registry without timers, registries or
    D-Bus: a finite map from tokens to claims and the five things that happen
    to it, each with what its owner is told.  Refine.v maps the registry to it
    ([abs]).  The invariant [inv] of a reachable state is built in TokenInv.v
    (the registry), ListenerInv.v and WspaceInv.v (the listeners), and
    Invariant.v, which joins them with the client registry, and defines
    [good]: a piece of code preserves [inv], and what it did is a run of the
    contract whose notes were pushed.  [good] is a preorder, so Transitions.v,
    Operations.v, Handlers.v and SystemInv.v cover the code function by
    function, up to every [step].  Loading.v says what a load leaves, whichever
    accesses of KWin throw ([loaded]); the invariant then holds of the catalogs
    and the connections that were made.  Traverse.v has what such a walk through the
    methods needs for any relation on states; Registry.v (only an answer of
    /daemon changes the registry of clients), Access.v and Notices.v are others.

    ** The theorems

    - TokenProps.v: the script refines the contract over any run, a window has
      one token, a client hears of every token it gains or loses, and each
      handler does exactly what the contract's function says.
    - Access.v: the script writes to KWin only within a client's call, and to a
      window only if that client holds a token bound to it.
    - RequestProps.v: the generator (format, freshness, termination),
      [token.request], the access check of [resolveTokenWindow], and the
      clean-up when a client disconnects.
    - KwinProps.v: the script's property catalogs against KWin's declarations.
    - WindowProps.v: the catalogs, updates (checked as a whole before anything
      is assigned; a refusal changes nothing; ids resolve to desktops) and
      [windows.query].
    - WatchProps.v, WorkspaceProps.v: what the watch methods leave registered,
      the property that cannot be watched, and the delivery of changes, each to
      exactly its watchers.
    - RpcProps.v: a D-Bus call settles once; parameter validation; requests
      are answered under their id, replies with a null id are not sent.
    - ClientProps.v: every connected client is served and the control loop
      never ends, the registry follows the daemon's events, failed polls back
      off, batches are served in order, and the deadline timers.
    - LoadProps.v: a load in which KWin throws is logged and does not keep the
      script from serving its clients.
    - TransportProps.v: a connection of the daemon never leaves its buffers and
      always returns; the script gets the peer's messages (a reply to [poll] ends
      at a NUL byte in its text, see [array_replies]) and the peer the script's,
      whatever the kernel cuts; a request is answered once; paused
      reads resume, unless the buffer is smaller than the frame.
    - ServerProps.v: the daemon as a whole is safe and keeps its limit, and the
      script hears of every client.
    - ConfigProps.v: the bus names that are accepted, the object path made from
      one, the numbers that are read; every configuration that is accepted
      makes the daemon safe; how often the script is loaded.
    - EndToEnd.v: the two models joined by the texts that /daemon answers.
      Once the script has them, it serves exactly the daemon's sessions, up to
      the changes still queued.  [ControlJsonLaws] says what [JSON.parse] makes
      of those texts; RefJson.v proves it of the reader of RefEnv.v.
    - StreamProps.v: the same for a client's messages: what it writes to its
      socket is handed to JSON-RPC, once and in order.  Dispatch.v follows the
      batches through the script's message loop, and RefArray.v proves the law
      on arrays, [MessageJsonLaws], of the reader of RefEnv.v.
    - Notices.v: what the script pushes is its responses, in order, and the four
      notifications in their documented shape, and nothing else.
    - RoundTrip.v: the whole way round: the outcomes of a client's messages are
      looked at in order, and the responses are among the frames that it reads,
      in order.  Responses.v follows the outcomes through the message loop.
    - NativeProps.v: the host forwards verbatim, whole frames at a time; it
      stops at a frame that is too long; the browser's messages reach the
      script, and the script's pushes the browser.
    - DaemonProps.v: a ledger of what the process holds and of what it knows of
      its script.  Every way out of [main] gives back what was taken, in an order
      that works, but for the sources of the signals, which stay; a script that
      was loaded is unloaded if KWin can be told, and one that a failed call may
      have loaded is not ([left_behind]); while it serves, its server is a run of
      Server.v with the configured limits; what becomes of it when it loses its
      bus name.
    - LineServer.v, LineSocket.v: a line-protocol connection answers every line,
      in order and once, until a quit or an error closes it; the server keeps
      its limit and leaks no descriptor.
    - Launcher.v: the launcher stops the service on every path, unless it is
      told to leave it running.

    ** Bounds and fuel

    The resampling loop of [generateToken] takes the number of candidates it
    may try, and [OutOfFuel] says it tried them all; more candidates than
    registered tokens are enough when the draws give distinct candidates.  The
    loops of the daemon take fuel from their input ([write_ring] the bytes to
    copy, [client_read] and [read_loop] the answers of the kernel, which is
    taken to answer EAGAIN when there are no more, [replace_all] and [forward]
    the length of the text, [load_attempts] the number of retries), and the
    theorems show that it never runs out.  A read buffer has at most 8 GB, so that the 32-bit count
    of its messages does not wrap; fewer than 2^64 connections are
    accepted, and fewer than 2^53 where their ids go through [JSON.parse].

    ** Not modelled

    - Strings of the script are lists of 8-bit characters, where JavaScript has
      16-bit units.
    - The connections of a window that KWin deletes after [windowRemoved]: by
      then they are its caption slot only.
    - A server that runs a method asynchronously: the handlers are synchronous,
      so [receive] is one transition, with its answer awaited.
    - The order of the log calls among the microtasks of one turn.
    - In the daemon: the unlinking of the socket file, a failing [new] (the daemon
      terminates), what sd-bus does with a reply after it was handed over,
      [method_status], [copy_file_overwrite] (which nothing calls) and the
      colours of the log.
    - In the launcher: the parsing of its flags, a signal while it is not waiting
      for a command, and the traceback of a program that is missing.
    - The declarations of KWin that the script does not use, tests and build
      files. *)
From stdpp Require Export base tactics list strings gmap pretty.
From stdpp Require Export relations.
From Stdlib Require Export ZArith Lia.

Set Default Goal Selector "!".

(** ** Tactics of the development *)

Create HintDb jsmap discriminated.
Create Rewrite HintDb jsmap_rw.
Create HintDb script discriminated.
Create Rewrite HintDb script_rw.

(** Split conjunctions and existentials of the context. *)
Ltac unpack :=
  repeat match goal with
  | H : _ ∧ _ |- _ => destruct H
  | H : ∃ _, _ |- _ => destruct H
  | H : Some _ = Some _ |- _ => injection H as H; subst
  | H : (_, _) = (_, _) |- _ => injection H as ? ?; subst
  end.

(** Case analysis on the innermost [match]/[if] of the goal, by equation. *)
Ltac case_goal :=
  match goal with
  | |- context [match ?x with _ => _ end] =>
    lazymatch x with
    | context [match _ with _ => _ end] => fail
    | _ => destruct x eqn:?
    end
  end.

(** An equation between closed terms, by evaluation. *)
Ltac evaluate := match goal with |- _ = ?y => vm_cast_no_check (eq_refl y) end.

Lemma fst_pair {A B} (p : A * B) (a : A) : fst p = a → p = (a, snd p).
Proof. by intros <-; destruct p. Qed.

(** ** Lists *)

Lemma filter_ne_notin {A} `{EqDecision A} (x : A) (l : list A) :
  x ∉ l → filter (λ y, y ≠ x) l = l.
Proof.
  induction l as [|y l IH]; [done|].
  rewrite not_elem_of_cons, filter_cons. intros [Hne Hl].
  rewrite decide_True by done. by rewrite IH.
Qed.

Lemma filter_all {A} (P : A → Prop) `{∀ x, Decision (P x)} (l : list A) :
  (∀ x, x ∈ l → P x) → filter P l = l.
Proof.
  induction l as [|x l IH]; intros Hall; [done|].
  rewrite filter_cons, decide_True by (apply Hall; left).
  rewrite IH; [done|]. intros y Hy. apply Hall. by right.
Qed.

(** An invariant of a loop over a list. *)
Lemma foldl_ind {A S} (P : S → Prop) (f : S → A → S) (l : list A) (s : S) :
  P s → (∀ s x, x ∈ l → P s → P (f s x)) → P (foldl f s l).
Proof.
  revert s. induction l as [|x l IH]; intros s Hs Hf; [done|].
  apply IH; [apply Hf; [left|done]|]. intros s' y Hy. apply Hf. by right.
Qed.

Lemma sublist_filter_mono {A} (P : A → Prop) `{∀ x, Decision (P x)} (l1 l2 : list A) :
  l1 `sublist_of` l2 → filter P l1 `sublist_of` filter P l2.
Proof.
  induction 1; rewrite ?filter_cons; [done| |]; case_decide;
    (done || by constructor).
Qed.

(** ** Strings *)

Lemma string_length_app (x y : string) :
  String.length (x +:+ y) = (String.length x + String.length y)%nat.
Proof. induction x as [|c x IH]; simpl; [done|]. by rewrite IH. Qed.

(** A common suffix can be cancelled. *)
Lemma string_app_cancel (x y z : string) : x +:+ z = y +:+ z → x = y.
Proof.
  revert y. induction x as [|c x IH]; intros [|d y] Heq; [done|..|injection Heq as <- Heq;
    f_equal; by apply IH].
  all: apply (f_equal String.length) in Heq; rewrite !string_length_app in Heq;
    cbn [String.length] in Heq; lia.
Qed.
