(* ===== verification/JsMap.v ===== *)
(** * JavaScript's [Map] and [Set]

    The script keeps its registries in ES6 [Map]s and [Set]s
    ([byToken], [byWindow], [watchesByToken], [watchesByClient],
    [desktopsById], [connections], [activitiesById], ...).  They iterate in
    insertion order: [set] on a present key keeps its place, on an absent key
    appends.  A map is here the list of its entries in that order.

    [to_gmap] is the abstraction to an unordered finite map, and the
    [to_gmap_*] lemmas say that every operation implements the finite-map
    operation of the same name. *)
From S2P Require Export Prelude.

Section JsMap.
Context {K V : Type} `{EqDecision K}.

Definition jsmap : Type := list (K * V).

Definition jm_empty : jsmap := [].

(** [m.get(k)]: [undefined] is [None]. *)
Fixpoint jm_get (k : K) (m : jsmap) : option V :=
  match m with
  | [] => None
  | (k', v) :: m => if decide (k' = k) then Some v else jm_get k m
  end.

Definition jm_has (k : K) (m : jsmap) : bool :=
  match jm_get k m with Some _ => true | None => false end.

(** [m.set(k, v)] *)
Fixpoint jm_set (k : K) (v : V) (m : jsmap) : jsmap :=
  match m with
  | [] => [(k, v)]
  | (k', v') :: m =>
    if decide (k' = k) then (k', v) :: m else (k', v') :: jm_set k v m
  end.

(** [m.delete(k)] *)
Fixpoint jm_delete (k : K) (m : jsmap) : jsmap :=
  match m with
  | [] => []
  | (k', v') :: m =>
    if decide (k' = k) then jm_delete k m else (k', v') :: jm_delete k m
  end.

Definition jm_size (m : jsmap) : nat := length m.
Definition jm_keys (m : jsmap) : list K := map fst m.
Definition jm_values (m : jsmap) : list V := map snd m.

(** A [Map] holds each key once. *)
Definition jm_wf (m : jsmap) : Prop := NoDup (jm_keys m).

Lemma jm_get_empty k : jm_get k jm_empty = None.
Proof. done. Qed.

Lemma jm_get_set k k' v m :
  jm_get k (jm_set k' v m) = if decide (k' = k) then Some v else jm_get k m.
Proof.
  induction m as [|[k0 v0] m IH]; simpl; [by repeat case_decide|].
  destruct (decide (k0 = k')) as [->|]; simpl; repeat case_decide; congruence.
Qed.

Lemma jm_get_set_eq k v m : jm_get k (jm_set k v m) = Some v.
Proof. rewrite jm_get_set. by case_decide. Qed.

Lemma jm_get_set_ne k k' v m : k' ≠ k → jm_get k (jm_set k' v m) = jm_get k m.
Proof. intros. rewrite jm_get_set. by case_decide. Qed.

Lemma jm_get_delete k k' m :
  jm_get k (jm_delete k' m) = if decide (k' = k) then None else jm_get k m.
Proof.
  induction m as [|[k0 v0] m IH]; simpl; [by case_decide|].
  repeat (case_decide; simpl); subst; congruence || done.
Qed.

Lemma jm_get_delete_eq k m : jm_get k (jm_delete k m) = None.
Proof. rewrite jm_get_delete. by case_decide. Qed.

Lemma jm_get_delete_ne k k' m : k' ≠ k → jm_get k (jm_delete k' m) = jm_get k m.
Proof. intros. rewrite jm_get_delete. by case_decide. Qed.

(** An entry survives a deletion exactly when it is not the deleted one. *)
Lemma jm_get_delete_Some k k' m v :
  jm_get k (jm_delete k' m) = Some v ↔ k' ≠ k ∧ jm_get k m = Some v.
Proof. rewrite jm_get_delete. case_decide; naive_solver. Qed.

Lemma jm_has_spec k m : jm_has k m = true ↔ is_Some (jm_get k m).
Proof. unfold jm_has. destruct (jm_get k m); naive_solver. Qed.

Lemma jm_has_false k m : jm_has k m = false ↔ jm_get k m = None.
Proof. unfold jm_has. destruct (jm_get k m); naive_solver. Qed.

Lemma jm_get_elem k v m : jm_get k m = Some v → (k, v) ∈ m.
Proof.
  induction m as [|[k0 v0] m IH]; simpl; [done|].
  case_decide; set_solver.
Qed.

Lemma jm_keys_elem k m : k ∈ jm_keys m ↔ is_Some (jm_get k m).
Proof.
  unfold jm_keys. induction m as [|[k0 v0] m IH]; simpl.
  - split; [set_solver|]. intros [? ?]; done.
  - rewrite elem_of_cons, IH. case_decide; naive_solver.
Qed.

Lemma jm_elem_get k v m : jm_wf m → (k, v) ∈ m ↔ jm_get k m = Some v.
Proof.
  intros Hwf. split; [|apply jm_get_elem].
  induction m as [|[k0 v0] m IH]; simpl; [set_solver|].
  unfold jm_wf in *; simpl in Hwf. apply NoDup_cons in Hwf as [Hnin Hwf].
  intros [[= -> ->]|Hin]%elem_of_cons; [by case_decide|].
  case_decide as Hd; [|auto]. subst. destruct Hnin.
  apply list_elem_of_In, in_map_iff. exists (k, v). by rewrite <- list_elem_of_In.
Qed.

Lemma jm_keys_set k v m :
  jm_keys (jm_set k v m) = if jm_has k m then jm_keys m else jm_keys m ++ [k].
Proof.
  unfold jm_keys, jm_has. induction m as [|[k0 v0] m IH]; simpl; [done|].
  destruct (decide (k0 = k)) as [->|]; [done|].
  simpl. rewrite IH. by destruct (jm_get k m).
Qed.

Lemma jm_keys_delete k m : jm_keys (jm_delete k m) = filter (λ k', k' ≠ k) (jm_keys m).
Proof.
  unfold jm_keys. induction m as [|[k0 v0] m IH]; simpl; [done|].
  rewrite filter_cons. repeat case_decide; simpl; congruence.
Qed.

Lemma jm_wf_empty : jm_wf jm_empty.
Proof. constructor. Qed.

Lemma jm_wf_set k v m : jm_wf m → jm_wf (jm_set k v m).
Proof.
  unfold jm_wf. intros Hwf. rewrite jm_keys_set.
  destruct (jm_has k m) eqn:Hh; [done|].
  apply NoDup_app. split; [done|]. split; [|apply NoDup_singleton].
  intros k' Hin ->%list_elem_of_singleton. apply jm_has_false in Hh.
  apply jm_keys_elem in Hin as [? ?]. congruence.
Qed.

Lemma jm_wf_delete k m : jm_wf m → jm_wf (jm_delete k m).
Proof. unfold jm_wf. rewrite jm_keys_delete. apply NoDup_filter. Qed.

(** [forEach] hands every entry that [get] finds, in order. *)
Lemma jm_values_elem v m : jm_wf m → v ∈ jm_values m ↔ ∃ k, jm_get k m = Some v.
Proof.
  intros Hwf. unfold jm_values. rewrite list_elem_of_In, in_map_iff. split.
  - intros [[k v'] [<- Hin]]. exists k. apply jm_elem_get; [done|].
    by apply list_elem_of_In.
  - intros [k Hk]. exists (k, v). split; [done|].
    by apply list_elem_of_In, jm_get_elem.
Qed.

Lemma jm_size_0 m : jm_size m = 0 → m = jm_empty.
Proof. by destruct m. Qed.

(** ** Abstraction to unordered finite maps *)
Context `{!Countable K}.

Definition to_gmap (m : jsmap) : gmap K V := list_to_map m.

Lemma to_gmap_lookup k m : to_gmap m !! k = jm_get k m.
Proof.
  unfold to_gmap. induction m as [|[k0 v0] m IH]; simpl; [apply lookup_empty|].
  rewrite lookup_insert. repeat case_decide; congruence.
Qed.

Lemma to_gmap_set k v m : to_gmap (jm_set k v m) = <[k := v]> (to_gmap m).
Proof.
  apply map_eq. intros i. rewrite lookup_insert, !to_gmap_lookup, jm_get_set.
  repeat case_decide; congruence.
Qed.

Lemma to_gmap_delete k m : to_gmap (jm_delete k m) = delete k (to_gmap m).
Proof.
  apply map_eq. intros i. rewrite lookup_delete, !to_gmap_lookup, jm_get_delete.
  repeat case_decide; congruence.
Qed.

Lemma to_gmap_size m : jm_wf m → size (to_gmap m) = jm_size m.
Proof.
  intros Hwf. unfold to_gmap, jm_size.
  rewrite map_size_list_to_map by done. done.
Qed.
End JsMap.

Arguments jsmap : clear implicits.
Arguments jm_empty {K V} : assert.

#[export] Hint Rewrite @jm_get_set_eq @jm_get_delete_eq @jm_get_empty : jsmap_rw.
#[export] Hint Resolve jm_wf_empty jm_wf_set jm_wf_delete : jsmap.

(** ** [Set]: the elements in insertion order. *)
Section JsSet.
Context {A : Type} `{EqDecision A}.

Definition js_has (x : A) (s : list A) : bool := bool_decide (x ∈ s).
Definition js_add (x : A) (s : list A) : list A :=
  if js_has x s then s else s ++ [x].
Definition js_remove (x : A) (s : list A) : list A := filter (λ y, y ≠ x) s.

(** [new Set(xs)], and the rescans that [clear] and then [add] in a loop. *)
Definition js_of_list (xs : list A) : list A := foldl (λ s x, js_add x s) [] xs.

Lemma js_has_spec x s : js_has x s = true ↔ x ∈ s.
Proof. apply bool_decide_eq_true. Qed.

Lemma js_add_elem x y s : x ∈ js_add y s ↔ x = y ∨ x ∈ s.
Proof.
  unfold js_add. destruct (js_has y s) eqn:Hh.
  - apply js_has_spec in Hh. naive_solver.
  - rewrite elem_of_app, list_elem_of_singleton. naive_solver.
Qed.

Lemma js_remove_elem x y s : x ∈ js_remove y s ↔ x ≠ y ∧ x ∈ s.
Proof. unfold js_remove. by rewrite list_elem_of_filter. Qed.

Lemma js_add_nodup x s : NoDup s → NoDup (js_add x s).
Proof.
  unfold js_add. intros Hs. destruct (js_has x s) eqn:Hh; [done|].
  apply NoDup_app. split; [done|]. split; [|apply NoDup_singleton].
  intros y Hy ->%list_elem_of_singleton. apply js_has_spec in Hy. congruence.
Qed.

Lemma js_remove_nodup x s : NoDup s → NoDup (js_remove x s).
Proof. apply NoDup_filter. Qed.

Lemma js_of_list_from x s0 xs :
  x ∈ foldl (λ s x, js_add x s) s0 xs ↔ x ∈ s0 ∨ x ∈ xs.
Proof.
  revert s0. induction xs as [|y xs IH]; intros s0; simpl.
  - rewrite elem_of_nil. naive_solver.
  - rewrite IH, js_add_elem, elem_of_cons. naive_solver.
Qed.

Lemma js_of_list_elem x xs : x ∈ js_of_list xs ↔ x ∈ xs.
Proof. unfold js_of_list. rewrite js_of_list_from, elem_of_nil. naive_solver. Qed.

Lemma js_of_list_nodup xs : NoDup (js_of_list xs).
Proof.
  unfold js_of_list. cut (NoDup (@nil A)); [|constructor]. generalize (@nil A).
  induction xs as [|y xs IH]; intros s0 Hs; simpl; [done|].
  apply IH. by apply js_add_nodup.
Qed.
End JsSet.
