(* ===== verification/Value.v ===== *)
(** * JavaScript values, exceptions and outcomes

    The values that cross the script's boundaries: what [JSON.parse] returns,
    what a property read of a KWin object gives, and what is serialised into a
    JSON-RPC message.  A [string] is a sequence of UTF-16 code units, one per
    [ascii], so captions are those of the Latin-1 range. *)
From S2P Require Export JsMap.

(** A JavaScript number, up to [SameValueZero] (the equality of [Map] keys):
    [NInt z] is the number whose [String()] is the decimal numeral of [z];
    any other number (a fraction, an infinity, an integer printed with an
    exponent) is [NOther r], with [r] its [String()]. *)
Inductive number :=
| NInt (z : Z)
| NOther (repr : string).

#[export] Instance number_eq_dec : EqDecision number.
Proof. solve_decision. Defined.

#[export] Instance number_countable : Countable number.
Proof.
  refine (inj_countable'
    (λ n, match n with NInt z => inl z | NOther r => inr r end)
    (λ x, match x with inl z => NInt z | inr r => NOther r end) _).
  by intros [].
Defined.

(** [String(n)] *)
Definition number_to_string (n : number) : string :=
  match n with NInt z => pretty z | NOther r => r end.

Inductive value :=
| Undefined
| Null
| Bool (b : bool)
| Num (n : number)
| Str (s : string)
| Arr (l : list value)
| Obj (l : list (string * value)).

Definition is_array (v : value) : bool :=
  match v with Arr _ => true | _ => false end.

(** [typeof v], the result as a string. *)
Definition typeof (v : value) : string :=
  match v with
  | Undefined => "undefined"
  | Null | Arr _ | Obj _ => "object"
  | Bool _ => "boolean"
  | Num _ => "number"
  | Str _ => "string"
  end.

Definition is_null (v : value) : bool :=
  match v with Null => true | _ => false end.

Definition is_undefined (v : value) : bool :=
  match v with Undefined => true | _ => false end.

(** [v.k] for a data property: [undefined] when [v] has none called [k]. *)
Definition prop_get (k : string) (v : value) : value :=
  match v with
  | Obj l => match jm_get k l with Some x => x | None => Undefined end
  | _ => Undefined
  end.

(** [s1, s2, ...].join(sep) *)
Fixpoint join (sep : string) (l : list string) : string :=
  match l with
  | [] => ""
  | [x] => x
  | x :: l => x +:+ sep +:+ join sep l
  end.

(** [String(v)], as template literals apply it. *)
Fixpoint value_to_string (v : value) : string :=
  match v with
  | Undefined => "undefined"
  | Null => "null"
  | Bool true => "true"
  | Bool false => "false"
  | Num n => number_to_string n
  | Str s => s
  | Arr l =>
    join "," (map (λ x, match x with
                        | Undefined | Null => ""
                        | _ => value_to_string x
                        end) l)
  | Obj _ => "[object Object]"
  end.

(** ** Exceptions *)

(** [RpcError] is json-rpc-2.0's [JSONRPCErrorException]; [HostError] is any
    other exception, by what [String] makes of it. *)
Inductive exn :=
| RpcError (message : string) (code : Z) (data : value)
| HostError (text : string).

(** [String(error)] *)
Definition exn_to_string (e : exn) : string :=
  match e with RpcError m _ _ => "Error: " +:+ m | HostError text => text end.

(** What a call ends with.  [OutOfFuel] marks an unbounded loop of the source
    cut short; the termination theorems show when it does not occur. *)
Inductive outcome (A : Type) :=
| Ret (a : A)
| Throw (e : exn)
| OutOfFuel.
Arguments Ret {A} a.
Arguments Throw {A} e.
Arguments OutOfFuel {A}.
