(* ===== verification/Env.v ===== *)
(** * What surrounds the script

    The script runs inside KWin's QJSEngine against objects it does not
    define: KWin's [workspace] and windows, Qt's timers and signals,
    [Math.random], [JSON], and the packages zod and json-rpc-2.0.  None of
    that code is in the repository, so it is a parameter here: [Env] holds the
    operations the script calls, and each law class states the documented
    behaviour that some of the theorems rely on.  A theorem names the laws it
    needs; [RefEnv.v] has an environment that satisfies all of them.

    The objects that the script only refers to are given by their identity:
    [window], [desktop] and [conn] are compared as JavaScript compares
    objects. *)
From S2P Require Export Value.
From Stdlib Require Export QArith Qround.
#[global] Open Scope Z_scope.
#[global] Close Scope Q_scope.

(** A [KWin.Window] object. *)
Record window := Win { win_ref : positive }.
(** A [KWin.VirtualDesktop] object. *)
Record desktop := Desk { desk_ref : positive }.
(** A [ClientConnection] object (clients.ts) seen as an [RpcConnection]
    (jsonrpc.ts): its identity and its readonly [id].  The mutable [alive] is
    in the script's state. *)
Record conn := Conn { conn_ref : positive; conn_id : number }.

#[export] Instance window_eq_dec : EqDecision window.
Proof. solve_decision. Defined.
#[export] Instance desktop_eq_dec : EqDecision desktop.
Proof. solve_decision. Defined.
#[export] Instance conn_eq_dec : EqDecision conn.
Proof. solve_decision. Defined.

#[export] Instance conn_countable : Countable conn.
Proof.
  refine (inj_countable' (λ c, (conn_ref c, conn_id c)) (λ x, Conn (fst x) (snd x)) _).
  by intros [].
Defined.

(** A signal of a KWin object: [window.name] or [workspace.name]. *)
Inductive signal :=
| SigWindow (w : window) (name : string)
| SigWorkspace (name : string).

#[export] Instance signal_eq_dec : EqDecision signal.
Proof. solve_decision. Defined.

(** The closure [handler] of windows.ts [setWatch], with the variables it
    captures; [wh_id] is the identity of the function object. *)
Record win_handler := WinHandler {
  wh_id : positive;
  wh_conn : conn;
  wh_token : string;
  wh_window : window;
  wh_prop : string;
}.

(** The closure [handler] of workspace.ts [setWatch]. *)
Record ws_handler := WsHandler {
  sh_id : positive;
  sh_conn : conn;
  sh_prop : string;
}.

(** The functions the script connects to signals. *)
Inductive slot :=
| SlotDesktopsChanged                  (* rescanDesktops *)
| SlotActivityAdded                    (* (id) => activitiesById.add(id) *)
| SlotActivityRemoved                  (* (id) => activitiesById.delete(id) *)
| SlotWindowAdded                      (* onWindowAdded *)
| SlotWindowRemoved                    (* onWindowRemoved *)
| SlotCaption (w : window)             (* () => checkCaption(window) *)
| SlotWindowProp (h : win_handler)
| SlotWorkspaceProp (h : ws_handler).

#[export] Instance win_handler_eq_dec : EqDecision win_handler.
Proof. solve_decision. Defined.
#[export] Instance ws_handler_eq_dec : EqDecision ws_handler.
Proof. solve_decision. Defined.
#[export] Instance slot_eq_dec : EqDecision slot.
Proof. solve_decision. Defined.

(** An emission of a signal, with the argument the script's slots read. *)
Inductive emission :=
| EmWindow (w : window) (name : string)
| EmWorkspace (name : string)
| EmWindowAdded (w : window)
| EmWindowRemoved (w : window)
| EmActivityAdded (id : string)
| EmActivityRemoved (id : string).

Definition emission_signal (em : emission) : signal :=
  match em with
  | EmWindow w name => SigWindow w name
  | EmWorkspace name => SigWorkspace name
  | EmWindowAdded _ => SigWorkspace "windowAdded"
  | EmWindowRemoved _ => SigWorkspace "windowRemoved"
  | EmActivityAdded _ => SigWorkspace "activityAdded"
  | EmActivityRemoved _ => SigWorkspace "activityRemoved"
  end.

(** An assignment of the script to a KWin property.  A desktop read from a
    [Map] and cast may be [undefined]: [None]. *)
Inductive assignment :=
| AsgnDesktops (w : window) (ds : list (option desktop))
| AsgnActivities (w : window) (ids : list string)
| AsgnProp (w : window) (prop : string) (v : value)
| AsgnCurrentDesktop (d : option desktop)
| AsgnCurrentActivity (id : string).

(** What the script does with KWin's objects while it loads, each of which may
    throw. *)
Inductive load_access :=
| ReadDesktops                                  (* workspace.desktops *)
| ReadDesktopId (d : desktop)                   (* desktop.id *)
| ReadActivities                                (* workspace.activities *)
| ReadWindowList                                (* workspace.windowList() *)
| ConnectSignal (sg : signal).                  (* signal.connect(...) *)

(** A zod issue: its path, its message, and the object itself. *)
Record issue := Issue {
  issue_path : list string;
  issue_message : string;
  issue_value : value;
}.

(** The zod schemas the script builds, with the type of the parsed value. *)
Inductive schema : Type → Type :=
| ZString : schema string                                (* z.string() *)
| ZUnknown : schema value                                (* z.unknown() *)
| ZBoolean : schema bool                                 (* z.boolean() *)
| ZIntRange (lo hi : Z) : schema Z   (* z.number().int().min(lo).max(hi) *)
| ZArray {A} (s : schema A) : schema (list A)            (* z.array(s) *)
| ZRecord {A} (s : schema A) : schema (list (string * A))
                                                  (* z.record(z.string(), s) *)
| ZTuple1 {A} (s : schema A) : schema A                  (* z.tuple([s]) *)
| ZTuple2 {A B} (s1 : schema A) (s2 : schema B) : schema (A * B)
                                                      (* z.tuple([s1, s2]) *)
| ZObject1 {A} (key : string) (s : schema A) : schema A. (* z.object({key: s}) *)

(** The values a schema accepts and what it returns for them, from zod's
    documentation. *)
Fixpoint zod_accepts {A} (s : schema A) (v : value) : option A :=
  match s in schema A return option A with
  | ZString => match v with Str x => Some x | _ => None end
  | ZUnknown => Some v
  | ZBoolean => match v with Bool b => Some b | _ => None end
  | ZIntRange lo hi =>
    match v with
    | Num (NInt z) => if (lo <=? z) && (z <=? hi) then Some z else None
    | _ => None
    end
  | ZArray s => match v with Arr l => mapM (zod_accepts s) l | _ => None end
  | ZRecord s =>
    match v with
    | Obj l =>
      mapM (λ kv : string * value,
        match zod_accepts s (snd kv) with Some x => Some (fst kv, x) | None => None end) l
    | _ => None
    end
  | ZTuple1 s => match v with Arr [x] => zod_accepts s x | _ => None end
  | ZTuple2 s1 s2 =>
    match v with
    | Arr [x; y] =>
      match zod_accepts s1 x, zod_accepts s2 y with
      | Some a, Some b => Some (a, b)
      | _, _ => None
      end
    | _ => None
    end
  | ZObject1 key s =>
    match v with Obj l => zod_accepts s (prop_get key v) | _ => None end
  end.

Class Env := {
  (** KWin's windows and workspace, as the script can read them *)
  World : Type;
  internalId : window → string;                  (* String(window.internalId) *)
  captionNormal : World → window → string;
  window_desktops : World → window → list desktop;
  window_activities : World → window → list string;
  window_prop : World → window → string → value; (* any other property *)
  desktop_id : desktop → string;                 (* String(desktop.id) *)
  workspace_desktops : World → list desktop;
  workspace_activities : World → list string;
  workspace_currentDesktop : World → desktop;
  workspace_currentActivity : World → string;
  workspace_windowList : World → list window;
  (** An assignment: the signals KWin emits before it returns, each with the
      state read at that moment, and the state it leaves; or the text of
      the exception the engine throws. *)
  assign : World → assignment → (list (World * emission) * World) + string;

  (** The text of the exception that an access throws while the script loads,
      if it does. *)
  kwin_load_error : load_access → option string;

  (** Qt's [QTimer] *)
  QTimer : Type;
  timer_new : QTimer;
  timer_set_singleShot : bool → QTimer → QTimer;
  timer_set_timerType : Z → QTimer → QTimer;
  timer_set_interval : Z → QTimer → QTimer;
  timer_start : QTimer → QTimer;
  timer_stop : QTimer → QTimer;
  timer_singleShot : QTimer → bool;
  timer_interval : QTimer → Z;
  timer_active : QTimer → bool;
  timer_timeout : QTimer → QTimer;   (* its state when [timeout] is emitted *)

  (** Qt's signal connections *)
  Signals : Type;
  sig_connect : signal → slot → Signals → Signals;
  sig_disconnect : signal → slot → Signals → Signals + string;
  sig_slots : Signals → signal → list slot;

  (** The engine's exception for a call of a method of [undefined] (the
      text it has as a string), its [Math.random] (the n-th draw) and its
      [JSON] *)
  undefined_call : string → string;
  Math_random : nat → Q;
  JSON_stringify : value → string;
  JSON_parse : value → value + string;

  (** zod and json-rpc-2.0 *)
  safeParse : ∀ {A}, schema A → value → A + list issue;
  createJSONRPCNotification : string → value → value;
}.

(** ** Documented behaviour *)

(** A started timer is active until it is stopped; a single-shot timer is
    inactive when its slots run. *)
Class QTimerLaws (E : Env) : Prop := {
  timer_start_active t : timer_active (timer_start t) = true;
  timer_start_singleShot t : timer_singleShot (timer_start t) = timer_singleShot t;
  timer_stop_inactive t : timer_active (timer_stop t) = false;
  timer_timeout_inactive t :
    timer_singleShot t = true → timer_active (timer_timeout t) = false;
  timer_stop_singleShot t : timer_singleShot (timer_stop t) = timer_singleShot t;
  timer_timeout_singleShot t : timer_singleShot (timer_timeout t) = timer_singleShot t;
  timer_set_singleShot_get b t : timer_singleShot (timer_set_singleShot b t) = b;
  timer_set_timerType_singleShot k t :
    timer_singleShot (timer_set_timerType k t) = timer_singleShot t;
  timer_set_interval_singleShot n t :
    timer_singleShot (timer_set_interval n t) = timer_singleShot t;
}.

(** [connect] appends a slot, [disconnect] removes it; it can only throw for a
    slot that is not connected (any more). *)
Class SignalLaws (E : Env) : Prop := {
  sig_connect_eq s x t : sig_slots (sig_connect s x t) s = sig_slots t s ++ [x];
  sig_connect_ne s s' x t :
    s' ≠ s → sig_slots (sig_connect s x t) s' = sig_slots t s';
  sig_disconnect_eq s x t t' :
    sig_disconnect s x t = inl t' →
    sig_slots t' s = filter (λ y, y ≠ x) (sig_slots t s);
  sig_disconnect_ne s s' x t t' :
    sig_disconnect s x t = inl t' → s' ≠ s → sig_slots t' s' = sig_slots t s';
  sig_disconnect_throws s x t m :
    sig_disconnect s x t = inr m → x ∉ sig_slots t s;
}.

(** [Math.random] draws from [[0, 1)]. *)
Class RandomLaws (E : Env) : Prop := {
  Math_random_range n : (0 <= Math_random n)%Q ∧ (Math_random n < 1)%Q;
}.

(** [safeParse] succeeds on the values its schema describes, and only there. *)
Class ZodLaws (E : Env) : Prop := {
  safeParse_accepts {A} (s : schema A) v a :
    safeParse s v = inl a ↔ zod_accepts s v = Some a;
}.
