(* ===== verification/Kwin.v ===== *)
(** * The KWin scripting API

    What kwin-ts/index.d.ts declares of the two classes whose properties the
    clients name: the properties of [KWin.Window] and of
    [KWin.WorkspaceWrapper], with their types and whether they are read-only,
    and the names of their signals.  The script reads a signal by a computed
    name, through a cast that the type checker cannot see through, so whether
    there is one is a question to these tables ([signal_named]). *)
From S2P Require Export Env.

(** The types the declarations use. *)
Inductive ts_type :=
| TBoolean
| TNumber
| TString
| TArray (t : ts_type)
| TNamed (name : string).

#[export] Instance ts_type_eq_dec : EqDecision ts_type.
Proof. solve_decision. Defined.

Record property := Property {
  property_name : string;
  property_readonly : bool;
  property_type : ts_type;
}.

#[local] Notation ro name t := (Property name true t) (only parsing).
#[local] Notation rw name t := (Property name false t) (only parsing).

(** ** [KWin.Window] *)

Definition Window_properties : list property := [
  ro "bufferGeometry" (TNamed "KWin.RectF"); ro "clientGeometry" (TNamed "KWin.RectF");
  ro "pos" (TNamed "QPointF"); ro "size" (TNamed "QSizeF"); ro "x" TNumber;
  ro "y" TNumber; ro "width" TNumber; ro "height" TNumber; rw "opacity" TNumber;
  ro "output" (TNamed "KWin.LogicalOutput"); ro "rect" (TNamed "KWin.RectF");
  ro "resourceName" TString; ro "resourceClass" TString; ro "windowRole" TString;
  ro "desktopWindow" TBoolean; ro "dock" TBoolean; ro "toolbar" TBoolean;
  ro "menu" TBoolean; ro "normalWindow" TBoolean; ro "dialog" TBoolean;
  ro "splash" TBoolean; ro "utility" TBoolean; ro "dropdownMenu" TBoolean;
  ro "popupMenu" TBoolean; ro "tooltip" TBoolean; ro "notification" TBoolean;
  ro "criticalNotification" TBoolean; ro "appletPopup" TBoolean;
  ro "onScreenDisplay" TBoolean; ro "comboBox" TBoolean; ro "dndIcon" TBoolean;
  ro "windowType" (TNamed "WindowType"); ro "managed" TBoolean; ro "deleted" TBoolean;
  rw "skipsCloseAnimation" TBoolean; ro "popupWindow" TBoolean; ro "outline" TBoolean;
  ro "internalId" (TNamed "QUuid"); ro "pid" TNumber; ro "stackingOrder" TNumber;
  rw "fullScreen" TBoolean; ro "fullScreenable" TBoolean; ro "active" TBoolean;
  rw "desktops" (TArray (TNamed "KWin.VirtualDesktop")); rw "onAllDesktops" TBoolean;
  rw "activities" (TArray TString); rw "skipTaskbar" TBoolean; rw "skipPager" TBoolean;
  rw "skipSwitcher" TBoolean; ro "closeable" TBoolean; ro "icon" (TNamed "QIcon");
  rw "keepAbove" TBoolean; rw "keepBelow" TBoolean; ro "minimizable" TBoolean;
  rw "minimized" TBoolean; ro "iconGeometry" (TNamed "KWin.RectF");
  ro "specialWindow" TBoolean; rw "demandsAttention" TBoolean; ro "caption" TString;
  ro "captionNormal" TString; ro "minSize" (TNamed "QSizeF");
  ro "maxSize" (TNamed "QSizeF"); ro "wantsInput" TBoolean; ro "transient" TBoolean;
  ro "transientFor" (TNamed "KWin.Window"); ro "modal" TBoolean;
  rw "frameGeometry" (TNamed "KWin.RectF"); ro "move" TBoolean; ro "resize" TBoolean;
  ro "decorationHasAlpha" TBoolean; rw "noBorder" TBoolean;
  ro "providesContextHelp" TBoolean; ro "maximizable" TBoolean;
  ro "maximizeMode" (TNamed "KWin.MaximizeMode"); ro "moveable" TBoolean;
  ro "moveableAcrossScreens" TBoolean; ro "resizeable" TBoolean;
  ro "desktopFileName" TString; ro "hasApplicationMenu" TBoolean;
  ro "applicationMenuActive" TBoolean; ro "unresponsive" TBoolean;
  ro "colorScheme" TString; ro "layer" (TNamed "KWin.Layer"); ro "hidden" TBoolean;
  rw "tile" (TNamed "KWin.Tile"); ro "inputMethod" TBoolean; ro "tag" TString;
  ro "description" TString; rw "excludeFromCapture" TBoolean].

Definition Window_signals : list string := [
  "stackingOrderChanged"; "opacityChanged"; "damaged"; "inputTransformationChanged";
  "closed"; "outputChanged"; "skipCloseAnimationChanged"; "windowRoleChanged";
  "windowClassChanged"; "surfaceChanged"; "shadowChanged"; "bufferGeometryChanged";
  "frameGeometryChanged"; "clientGeometryChanged"; "frameGeometryAboutToChange";
  "visibleGeometryChanged"; "tileChanged"; "requestedTileChanged"; "fullScreenChanged";
  "skipTaskbarChanged"; "skipPagerChanged"; "skipSwitcherChanged"; "iconChanged";
  "activeChanged"; "keepAboveChanged"; "keepBelowChanged"; "demandsAttentionChanged";
  "desktopsChanged"; "activitiesChanged"; "minimizedChanged"; "paletteChanged";
  "colorSchemeChanged"; "captionChanged"; "captionNormalChanged";
  "maximizedAboutToChange"; "maximizedChanged"; "transientChanged"; "modalChanged";
  "quickTileModeChanged"; "moveResizedChanged"; "moveResizeCursorChanged";
  "interactiveMoveResizeStarted"; "interactiveMoveResizeStepped";
  "interactiveMoveResizeFinished"; "closeableChanged"; "minimizeableChanged";
  "maximizeableChanged"; "desktopFileNameChanged"; "applicationMenuChanged";
  "hasApplicationMenuChanged"; "applicationMenuActiveChanged"; "unresponsiveChanged";
  "decorationChanged"; "hiddenChanged"; "hiddenByShowDesktopChanged";
  "lockScreenOverlayChanged"; "readyForPaintingChanged";
  "maximizeGeometryRestoreChanged"; "fullscreenGeometryRestoreChanged";
  "offscreenRenderingChanged"; "targetScaleChanged"; "nextTargetScaleChanged";
  "tagChanged"; "descriptionChanged"; "borderRadiusChanged";
  "excludeFromCaptureChanged"; "decorationPolicyChanged"].

(** ** [KWin.WorkspaceWrapper] *)

Definition WorkspaceWrapper_properties : list property := [
  ro "desktops" (TArray (TNamed "KWin.VirtualDesktop"));
  rw "currentDesktop" (TNamed "KWin.VirtualDesktop");
  rw "activeWindow" (TNamed "KWin.Window"); ro "desktopGridSize" (TNamed "QSize");
  ro "desktopGridWidth" TNumber; rw "desktopGridHeight" TNumber;
  ro "workspaceWidth" TNumber; ro "workspaceHeight" TNumber;
  ro "workspaceSize" (TNamed "QSize"); ro "activeScreen" (TNamed "KWin.LogicalOutput");
  ro "screens" (TArray (TNamed "KWin.LogicalOutput"));
  ro "screenOrder" (TArray (TNamed "KWin.LogicalOutput"));
  rw "currentActivity" TString; ro "activities" (TArray TString);
  ro "virtualScreenSize" (TNamed "QSize"); ro "virtualScreenGeometry" (TNamed "QRect");
  ro "stackingOrder" (TArray (TNamed "KWin.Window"));
  ro "cursorPos" (TNamed "QPoint")].

Definition WorkspaceWrapper_signals : list string := [
  "windowAdded"; "windowRemoved"; "windowActivated"; "desktopsChanged";
  "desktopLayoutChanged"; "screensChanged"; "screenOrderChanged";
  "currentActivityChanged"; "activitiesChanged"; "activityAdded"; "activityRemoved";
  "virtualScreenSizeChanged"; "virtualScreenGeometryChanged"; "currentDesktopChanged";
  "cursorPosChanged"].

(** ** Reading the tables *)

(** [object[name]] for a computed name, where [declared] are the signals of
    the object's class: [undefined] when there is no such signal. *)
Definition signal_named (declared : list string) (signal_of : string → signal)
    (name : string) : option signal :=
  if js_has name declared then Some (signal_of name) else None.

Lemma signal_named_Some declared f name sg :
  signal_named declared f name = Some sg ↔ name ∈ declared ∧ sg = f name.
Proof.
  unfold signal_named. destruct (js_has name declared) eqn:Hn.
  - apply js_has_spec in Hn. naive_solver.
  - split; [done|]. intros [Hin%js_has_spec _]. congruence.
Qed.

Definition is_primitive (t : ts_type) : bool :=
  match t with TBoolean | TNumber | TString => true | TArray _ | TNamed _ => false end.

(** The names of the properties that satisfy [P], in the declared order. *)
Definition properties_that (P : property → bool) (ps : list property) : list string :=
  map property_name (filter P ps).

Definition has_changed_signal (declared : list string) (p : property) : bool :=
  js_has (property_name p +:+ "Changed") declared.
