(* ===== verification/RefEnv.v ===== *)
(** * A reference environment

    A concrete [Env] that satisfies every law class: windows and workspace
    held in a table, timers and connections as plain data, a fixed sequence of
    random draws, a small JSON reader and printer, and a [safeParse] that
    follows [zod_accepts].  It shows that the laws can hold together, and the
    witnesses of the theorems run the script in it. *)
From S2P Require Export Env.
From Stdlib Require Import Ascii String.
#[local] Open Scope string_scope.
#[local] Open Scope list_scope.

Record ref_window := RefWindow {
  rf_caption : string;
  rf_desktops : list desktop;
  rf_activities : list string;
  rf_props : jsmap string value;
}.

Record ref_world := RefWorld {
  rw_windows : jsmap window ref_window;
  rw_desktops : list desktop;
  rw_activities : list string;
  rw_currentDesktop : desktop;
  rw_currentActivity : string;
}.

Definition ref_no_window : ref_window := RefWindow "" [] [] [].
Definition ref_window_of (W : ref_world) (w : window) : ref_window :=
  match jm_get w (rw_windows W) with Some r => r | None => ref_no_window end.
Definition ref_set_window (w : window) (r : ref_window) (W : ref_world) : ref_world :=
  RefWorld (jm_set w r (rw_windows W)) (rw_desktops W) (rw_activities W)
    (rw_currentDesktop W) (rw_currentActivity W).

Fixpoint repeat_char (n : nat) (c : Ascii.ascii) : string :=
  match n with O => "" | S n => String c (repeat_char n c) end.

(** Braces around a numeral in unary, like the braces of a QUuid. *)
Definition ref_internalId (w : window) : string :=
  "{" +:+ repeat_char (Pos.to_nat (win_ref w)) "i"%char +:+ "}".
Definition ref_desktop_id (d : desktop) : string :=
  "desk-" +:+ pretty (Z.pos (desk_ref d)).

(** Assignments change the table and emit [<prop>Changed]; a value of the
    wrong kind is a [TypeError]. *)
Definition ref_assign (W : ref_world) (a : assignment) :
    (list (ref_world * emission) * ref_world) + string :=
  match a with
  | AsgnDesktops w ds =>
    match mapM id ds with
    | None => inr "TypeError: Cannot convert undefined to VirtualDesktop"
    | Some ds =>
      let r := ref_window_of W w in
      let W' := ref_set_window w
        (RefWindow (rf_caption r) ds (rf_activities r) (rf_props r)) W in
      inl ([(W', EmWindow w "desktopsChanged")], W')
    end
  | AsgnActivities w ids =>
    let r := ref_window_of W w in
    let W' := ref_set_window w
      (RefWindow (rf_caption r) (rf_desktops r) ids (rf_props r)) W in
    inl ([(W', EmWindow w "activitiesChanged")], W')
  | AsgnProp w prop v =>
    match v with
    | Obj _ => inr "TypeError: Cannot assign object"
    | _ =>
      let r := ref_window_of W w in
      let W' := ref_set_window w
        (RefWindow (rf_caption r) (rf_desktops r) (rf_activities r)
           (jm_set prop v (rf_props r))) W in
      inl ([(W', EmWindow w (prop +:+ "Changed"))], W')
    end
  | AsgnCurrentDesktop None => inr "TypeError: Cannot convert undefined to VirtualDesktop"
  | AsgnCurrentDesktop (Some d) =>
    let W' := RefWorld (rw_windows W) (rw_desktops W) (rw_activities W) d
                (rw_currentActivity W) in
    inl ([(W', EmWorkspace "currentDesktopChanged")], W')
  | AsgnCurrentActivity id =>
    let W' := RefWorld (rw_windows W) (rw_desktops W) (rw_activities W)
                (rw_currentDesktop W) id in
    inl ([(W', EmWorkspace "currentActivityChanged")], W')
  end.

Record ref_timer := RefTimer {
  rt_singleShot : bool;
  rt_type : Z;
  rt_interval : Z;
  rt_active : bool;
}.

(** ** A JSON printer and reader without white space or escapes *)

Definition quote_char : Ascii.ascii := Ascii.Ascii false true false false false true false false.
Definition quote : string := String quote_char EmptyString.

Fixpoint ref_stringify (v : value) : string :=
  match v with
  | Undefined | Null => "null"
  | Bool true => "true"
  | Bool false => "false"
  | Num n => number_to_string n
  | Str s => quote +:+ s +:+ quote
  | Arr l => "[" +:+ join "," (map ref_stringify l) +:+ "]"
  | Obj l =>
    "{" +:+ join "," (map (λ kv : string * value,
      quote +:+ fst kv +:+ quote +:+ ":" +:+ ref_stringify (snd kv)) l) +:+ "}"
  end.

Definition is_digit (c : Ascii.ascii) : bool :=
  (48 <=? Ascii.nat_of_ascii c)%nat && (Ascii.nat_of_ascii c <=? 57)%nat.

Fixpoint ref_digits (acc : Z) (s : string) : Z * string :=
  match s with
  | String c s' =>
    if is_digit c then ref_digits (10 * acc + Z.of_nat (Ascii.nat_of_ascii c) - 48) s'
    else (acc, s)
  | EmptyString => (acc, s)
  end.

(** The characters up to the closing quote. *)
Fixpoint ref_chars (s : string) : option (string * string) :=
  match s with
  | EmptyString => None
  | String c s =>
    if decide (c = quote_char) then Some (EmptyString, s)
    else match ref_chars s with Some (a, b) => Some (String c a, b) | None => None end
  end.

(** What follows the word [w], if the text starts with it. *)
Fixpoint strip_prefix (w s : string) : option string :=
  match w, s with
  | EmptyString, _ => Some s
  | String a w, String b s => if decide (a = b) then strip_prefix w s else None
  | String _ _, EmptyString => None
  end.

Fixpoint ref_read (fuel : nat) (s : string) : option (value * string) :=
  match fuel with
  | O => None
  | S fuel =>
    match strip_prefix "null" s, strip_prefix "true" s, strip_prefix "false" s with
    | Some s, _, _ => Some (Null, s)
    | _, Some s, _ => Some (Bool true, s)
    | _, _, Some s => Some (Bool false, s)
    | _, _, _ =>
      match s with
      | String c s' =>
        if decide (c = quote_char) then
          match ref_chars s' with Some (a, b) => Some (Str a, b) | None => None end
        else if decide (c = "["%char) then
          match strip_prefix "]" s' with
          | Some s => Some (Arr [], s)
          | None => match ref_items fuel s' with Some (l, s) => Some (Arr l, s) | None => None end
          end
        else if decide (c = "{"%char) then
          match strip_prefix "}" s' with
          | Some s => Some (Obj [], s)
          | None => match ref_fields fuel s' with Some (l, s) => Some (Obj l, s) | None => None end
          end
        else if is_digit c then
          let (z, s) := ref_digits 0 s in Some (Num (NInt z), s)
        else None
      | EmptyString => None
      end
    end
  end
with ref_items (fuel : nat) (s : string) : option (list value * string) :=
  match fuel with
  | O => None
  | S fuel =>
    match ref_read fuel s with
    | Some (v, String "," s) =>
      match ref_items fuel s with Some (l, s) => Some (v :: l, s) | None => None end
    | Some (v, String "]" s) => Some ([v], s)
    | _ => None
    end
  end
with ref_fields (fuel : nat) (s : string) : option (list (string * value) * string) :=
  match fuel with
  | O => None
  | S fuel =>
    match ref_read fuel s with
    | Some (Str k, String ":" s) =>
      match ref_read fuel s with
      | Some (v, String "," s) =>
        match ref_fields fuel s with
        | Some (l, s) => Some ((k, v) :: l, s)
        | None => None
        end
      | Some (v, String "}" s) => Some ([(k, v)], s)
      | _ => None
      end
    | _ => None
    end
  end.

Definition ref_parse (v : value) : value + string :=
  match v with
  | Str s =>
    match ref_read (S (2 * String.length s)) s with
    | Some (v, EmptyString) => inl v
    | _ => inr "SyntaxError: JSON.parse: Parse error"
    end
  | _ => inr "SyntaxError: JSON.parse: Parse error"
  end.

(** ** The environment *)

Definition ref_random (n : nat) : Q := (Z.of_nat n * 7919 mod 65536) # 65536.

(** KWin throws as [load_error] says while the script loads. *)
Definition ref_env_with (load_error : load_access → option string) : Env := {|
  kwin_load_error := load_error;
  World := ref_world;
  internalId := ref_internalId;
  captionNormal W w := rf_caption (ref_window_of W w);
  window_desktops W w := rf_desktops (ref_window_of W w);
  window_activities W w := rf_activities (ref_window_of W w);
  window_prop W w p :=
    match jm_get p (rf_props (ref_window_of W w)) with
    | Some v => v
    | None => Undefined
    end;
  desktop_id := ref_desktop_id;
  workspace_desktops := rw_desktops;
  workspace_activities := rw_activities;
  workspace_currentDesktop := rw_currentDesktop;
  workspace_currentActivity := rw_currentActivity;
  workspace_windowList W := jm_keys (rw_windows W);
  assign := ref_assign;
  QTimer := ref_timer;
  timer_new := RefTimer false 0 0 false;
  timer_set_singleShot b t := RefTimer b (rt_type t) (rt_interval t) (rt_active t);
  timer_set_timerType k t := RefTimer (rt_singleShot t) k (rt_interval t) (rt_active t);
  timer_set_interval n t := RefTimer (rt_singleShot t) (rt_type t) n (rt_active t);
  timer_start t := RefTimer (rt_singleShot t) (rt_type t) (rt_interval t) true;
  timer_stop t := RefTimer (rt_singleShot t) (rt_type t) (rt_interval t) false;
  timer_singleShot := rt_singleShot;
  timer_interval := rt_interval;
  timer_active := rt_active;
  timer_timeout t :=
    if rt_singleShot t
    then RefTimer true (rt_type t) (rt_interval t) false else t;
  Signals := list (signal * slot);
  sig_connect s x t := t ++ [(s, x)];
  sig_disconnect s x t :=
    if bool_decide ((s, x) ∈ t) then inl (filter (λ y, y ≠ (s, x)) t)
    else inr "Error: disconnect: not connected";
  sig_slots t s := map snd (filter (λ y, fst y = s) t);
  Math_random := ref_random;
  JSON_stringify := ref_stringify;
  JSON_parse := ref_parse;
  safeParse A s v :=
    match zod_accepts s v with
    | Some a => inl a
    | None => inr [Issue [] "Invalid input" Null]
    end;
  undefined_call m := "TypeError: Cannot call method '" +:+ m +:+ "' of undefined";
  createJSONRPCNotification m p :=
    Obj [("jsonrpc", Str "2.0"); ("method", Str m); ("params", p)];
|}.

(** It does not. *)
#[export] Instance RefEnv : Env := ref_env_with (λ _, None).

#[export] Instance RefEnv_timer : QTimerLaws RefEnv.
Proof.
  split; try done; simpl; intros t; [by intros ->|]. by destruct (rt_singleShot t) eqn:Ht.
Qed.

Definition ref_slots (t : list (signal * slot)) (s : signal) : list slot :=
  map snd (filter (λ y, fst y = s) t).

Lemma ref_slots_cons s' y t s :
  ref_slots ((s', y) :: t) s = if decide (s' = s) then y :: ref_slots t s else ref_slots t s.
Proof. unfold ref_slots. rewrite filter_cons. simpl. by case_decide. Qed.

Lemma ref_slots_elem s x t : x ∈ ref_slots t s ↔ (s, x) ∈ t.
Proof.
  induction t as [|[s' y] t IH]; [by rewrite !elem_of_nil|].
  rewrite ref_slots_cons, elem_of_cons, <- IH.
  case_decide; [rewrite elem_of_cons|]; naive_solver.
Qed.

Lemma ref_slots_removed s s' x t :
  ref_slots (filter (λ y, y ≠ (s, x)) t) s' =
  if decide (s' = s) then filter (λ y, y ≠ x) (ref_slots t s') else ref_slots t s'.
Proof.
  induction t as [|[s0 y] t IH]; [by case_decide|].
  rewrite filter_cons, ref_slots_cons.
  destruct (decide ((s0, y) ≠ (s, x))) as [Hne|Heq];
    rewrite ?ref_slots_cons, IH; repeat (case_decide; rewrite ?filter_cons);
    simplify_eq; done || naive_solver.
Qed.

Lemma ref_env_signal load_error : SignalLaws (ref_env_with load_error).
Proof.
  split; simpl.
  - intros s x t. rewrite filter_app, filter_cons_True by done. by rewrite map_app.
  - intros s s' x t Hne. rewrite filter_app, filter_cons_False by done.
    by rewrite filter_nil, app_nil_r.
  - intros s x t t'. case_bool_decide; [|done]. intros [= <-].
    pose proof (ref_slots_removed s s x t) as Hr. by rewrite decide_True in Hr.
  - intros s s' x t t'. case_bool_decide; [|done]. intros [= <-] Hne.
    pose proof (ref_slots_removed s s' x t) as Hr. by rewrite decide_False in Hr.
  - intros s x t m. case_bool_decide as Hd; [done|]. intros _ Hin.
    by apply Hd, ref_slots_elem.
Qed.

#[export] Instance RefEnv_signal : SignalLaws RefEnv := ref_env_signal _.

#[export] Instance RefEnv_random : RandomLaws RefEnv.
Proof.
  split. intros n. simpl. unfold ref_random, Qle, Qlt. simpl.
  pose proof (Z.mod_pos_bound (Z.of_nat n * 7919) 65536). lia.
Qed.

#[export] Instance RefEnv_zod : ZodLaws RefEnv.
Proof. split. intros A s v a. simpl. destruct (zod_accepts s v); naive_solver. Qed.

Example ref_parse_control :
  ref_parse (Str ("[{" +:+ quote +:+ "event" +:+ quote +:+ ":" +:+ quote +:+
                  "client_connected" +:+ quote +:+ "," +:+ quote +:+ "id" +:+ quote +:+ ":3}]"))
  = inl (Arr [Obj [("event", Str "client_connected"); ("id", Num (NInt 3))]]).
Proof. reflexivity. Qed.
