(* ===== verification/Dbus.v ===== *)
(** * dbus.ts: asynchronous D-Bus calls

    [callDBusAsync] turns KWin's callback-based [callDBus] into a promise and
    races it against a single-shot timer.  A [pending_call] is the call in
    flight: the arguments given to [callDBus], the timer, and the promise's
    outcome once it has one.  [call_step] is what can happen to it: the timer
    fires while it is active, or the reply callback runs (KWin may run it
    late, even after the timeout).

    The constants and the wrappers [sendLog], [pollDaemon], [pollClient] and
    [pushToClient] are split at their [await]: the call they make
    ([log_call], [poll_daemon_call], ...) and what they do with its outcome
    ([poll_outcome], and in State.v [sendLog_settled], [push_settled]). *)
From S2P Require Export RefEnv.

Definition DAEMON_DBUS_SERVICE : string := "@DAEMON_DBUS_SERVICE@".
Definition DAEMON_DBUS_INTERFACE : string := DAEMON_DBUS_SERVICE.
Definition DAEMON_DBUS_PATH : string := "/daemon".
Definition DAEMON_CLIENT_INTERFACE : string := "org.example.KwinApiClient".

Definition DAEMON_DBUS_TIMEOUT_MS : Z := 5000.
Definition POLL_TIMEOUT_MS : Z := 20000.
Definition POLL_CALL_TIMEOUT_MS : Z := POLL_TIMEOUT_MS + 5000.
Definition DBUS_RETRY_DELAY_MS : Z := 500.
Definition DBUS_RETRY_DELAY : Z := DBUS_RETRY_DELAY_MS.

(** The arguments of one [callDBusAsync]. *)
Record dbus_call := DbusCall {
  dc_service : string;
  dc_path : string;
  dc_interface : string;
  dc_method : string;
  dc_timeoutMs : Z;
  dc_args : list value;
}.

Definition log_call (level message : string) : dbus_call :=
  DbusCall DAEMON_DBUS_SERVICE DAEMON_DBUS_PATH DAEMON_DBUS_INTERFACE "log"
    DAEMON_DBUS_TIMEOUT_MS [Str level; Str message].

Definition poll_daemon_call : dbus_call :=
  DbusCall DAEMON_DBUS_SERVICE DAEMON_DBUS_PATH DAEMON_DBUS_INTERFACE "poll"
    POLL_CALL_TIMEOUT_MS [Num (NInt POLL_TIMEOUT_MS)].

Definition client_path (clientId : number) : string :=
  "/cli" +:+ number_to_string clientId.

Definition poll_client_call (clientId : number) : dbus_call :=
  DbusCall DAEMON_DBUS_SERVICE (client_path clientId) DAEMON_CLIENT_INTERFACE "poll"
    POLL_CALL_TIMEOUT_MS [Num (NInt POLL_TIMEOUT_MS)].

Definition push_call (clientId : number) (payload : string) : dbus_call :=
  DbusCall DAEMON_DBUS_SERVICE (client_path clientId) DAEMON_CLIENT_INTERFACE "push"
    DAEMON_DBUS_TIMEOUT_MS [Str payload].

(** How a promise settles. *)
Inductive settled :=
| Fulfilled (v : value)
| Rejected (e : exn).

Section Dbus.
Context {E : Env}.

Record pending_call := PendingCall {
  pc_call : dbus_call;
  pc_timer : QTimer;
  pc_result : option settled;
}.

(** The executor of the promise: arm the timer, make the call. *)
Definition callDBusAsync (c : dbus_call) : pending_call :=
  let timer := timer_new in
  let timer := timer_set_singleShot true timer in
  let timer := timer_set_interval (dc_timeoutMs c) timer in
  PendingCall c (timer_start timer) None.

(** [resolve] and [reject]: only the first call has an effect. *)
Definition settle (r : settled) (p : pending_call) : pending_call :=
  match pc_result p with
  | None => PendingCall (pc_call p) (pc_timer p) (Some r)
  | Some _ => p
  end.

Definition stop_timer (p : pending_call) : pending_call :=
  PendingCall (pc_call p) (timer_stop (pc_timer p)) (pc_result p).

Definition timeout_error (c : dbus_call) : exn :=
  HostError ("Error: D-Bus call timed out after " +:+ pretty (dc_timeoutMs c) +:+ " ms: " +:+
    dc_service c +:+ " " +:+ dc_path c +:+ " " +:+ dc_interface c +:+ "." +:+ dc_method c).

(** The slot of [timer.timeout]. *)
Definition call_on_timeout (p : pending_call) : pending_call :=
  settle (Rejected (timeout_error (pc_call p))) (stop_timer p).

(** The callback of [callDBus]. *)
Definition call_on_reply (reply : value) (p : pending_call) : pending_call :=
  settle (Fulfilled reply) (stop_timer p).

Inductive call_event := CallTimeout | CallReply (reply : value).

Inductive call_step : pending_call → call_event → pending_call → Prop :=
| call_step_timeout p :
  timer_active (pc_timer p) = true →
  call_step p CallTimeout
    (call_on_timeout (PendingCall (pc_call p) (timer_timeout (pc_timer p)) (pc_result p)))
| call_step_reply p reply :
  call_step p (CallReply reply) (call_on_reply reply p).

Inductive call_run : pending_call → list call_event → pending_call → Prop :=
| call_run_nil p : call_run p [] p
| call_run_cons p p' p'' ev evs :
  call_step p ev p' → call_run p' evs p'' → call_run p (ev :: evs) p''.

Definition event_outcome (c : dbus_call) (ev : call_event) : settled :=
  match ev with
  | CallTimeout => Rejected (timeout_error c)
  | CallReply reply => Fulfilled reply
  end.

(** [sleep(ms)]: a promise that the timer resolves. *)
Definition sleep (ms : Z) : QTimer :=
  let timer := timer_new in
  let timer := timer_set_singleShot true timer in
  let timer := timer_set_interval ms timer in
  timer_start timer.

(** What [pollDaemon] and [pollClient] make of the reply: [JSON.parse]. *)
Definition poll_outcome (r : settled) : outcome value :=
  match r with
  | Fulfilled raw =>
    match JSON_parse raw with
    | inl v => Ret v
    | inr m => Throw (HostError m)
    end
  | Rejected e => Throw e
  end.

(** ** Properties *)

Lemma settle_Some r r' p : pc_result p = Some r → settle r' p = p.
Proof. unfold settle. by intros ->. Qed.

Lemma call_step_call p ev p' : call_step p ev p' → pc_call p' = pc_call p.
Proof.
  destruct 1 as [q Hq|q reply]; unfold call_on_timeout, call_on_reply, settle, stop_timer; simpl;
    by destruct (pc_result q).
Qed.

Lemma call_step_result p ev p' :
  call_step p ev p' →
  pc_result p' =
  match pc_result p with
  | Some r => Some r
  | None => Some (event_outcome (pc_call p) ev)
  end.
Proof.
  destruct 1 as [q Hq|q reply]; unfold call_on_timeout, call_on_reply, settle, stop_timer; simpl;
    by destruct (pc_result q).
Qed.

Lemma call_run_settled p evs p' r :
  call_run p evs p' → pc_result p = Some r → pc_result p' = Some r.
Proof.
  induction 1 as [|p p1 p2 ev evs Hs _ IH]; [done|]. intros Hr.
  apply IH. by rewrite (call_step_result _ _ _ Hs), Hr.
Qed.

Lemma call_step_stops `{!QTimerLaws E} p ev p' :
  call_step p ev p' → timer_active (pc_timer p') = false.
Proof.
  destruct 1 as [q Hq|q reply]; unfold call_on_timeout, call_on_reply, settle, stop_timer; simpl;
    destruct (pc_result q); simpl; apply timer_stop_inactive.
Qed.

(** The timer of a call runs exactly while the promise is unsettled. *)
Lemma call_run_timer `{!QTimerLaws E} p evs p' :
  call_run p evs p' →
  (timer_active (pc_timer p) = true ↔ pc_result p = None) →
  (timer_active (pc_timer p') = true ↔ pc_result p' = None).
Proof.
  induction 1 as [|p p1 p2 ev evs Hs _ IH]; [done|]. intros _. apply IH.
  rewrite (call_step_stops _ _ _ Hs), (call_step_result _ _ _ Hs).
  destruct (pc_result p); naive_solver.
Qed.

End Dbus.
