(* ===== verification/State.v ===== *)
(** * The state of the script

    All modules of the bundle share one JavaScript heap.  [state] is that
    heap: the module-level registries, the mutable objects they refer to (the
    [TokenEntry] objects and the [alive] flags, by identity, so that two
    registries alias the same entry as in the source), the suspended
    coroutines, and, as the script's output, the list of the calls it made.

    Functions that cannot throw are [state → state]; those that can are in the
    state-and-exception monad [M], which keeps the state changes made before a
    [throw]. *)
From S2P Require Export Dbus.

(** ** Data of the modules *)

(** tokens.ts *)
Inductive TokenState := pending | active.
Inductive TokenReason := timeout | window_closed | ambiguous | superseded.

#[export] Instance TokenState_eq_dec : EqDecision TokenState.
Proof. solve_decision. Defined.
#[export] Instance TokenReason_eq_dec : EqDecision TokenReason.
Proof. solve_decision. Defined.

Definition TokenReason_string (r : TokenReason) : string :=
  match r with
  | timeout => "timeout"
  | window_closed => "window_closed"
  | ambiguous => "ambiguous"
  | superseded => "superseded"
  end.

Record TokenEntry {E : Env} := MkTokenEntry {
  te_token : string;
  te_conn : conn;
  te_state : TokenState;
  te_window : option window;
  te_deadlineTimer : QTimer;
}.

(** windows.ts *)
Record WatchState := MkWatchState {
  ws_window : window;
  ws_handlers : jsmap string win_handler;
}.

(** clients.ts: the points where [ClientConnection.run] is suspended, with
    the messages of the batch still to dispatch. *)
Inductive loop :=
| LPoll                                       (* await pollClient(this.id) *)
| LRespond (r : outcome (option value)) (batch : list value)
                                              (* await rpcServer.receive(...) *)
| LSleep                                      (* await sleep(...) *)
| LDone.                                      (* returned *)

(** The points where [startControlLoop] is suspended. *)
Inductive control_loop :=
| CNotStarted
| CPoll                                       (* await pollDaemon() *)
| CSleep.                                     (* await sleep(...) *)

(** The calls that leave the script. *)
Inductive effect :=
| ECall (c : dbus_call)                       (* callDBus *)
| EPrint (message : string)                   (* print *)
| ESleep (ms : Z).                            (* a timer of sleep(ms) *)

(** What the script sees of KWin and Qt. *)
Record HostState {E : Env} := MkHost {
  world : World;   (* KWin as it is now *)
  signals : Signals;   (* the connected slots *)
  fresh : positive;   (* the identity of the next object *)
  draws : nat;   (* the calls of [Math.random] so far *)
}.

(** Tokens.ts; the registries hold references into [entries]. *)
Record TokensState {E : Env} := MkTokens {
  entries : gmap positive TokenEntry;   (* the [TokenEntry] objects *)
  byToken : jsmap string positive;   (* [byToken] *)
  byWindow : jsmap string positive;   (* [byWindow] *)
}.

(** Windows.ts. *)
Record WindowsState := MkWindows {
  desktopsById : jsmap string desktop;   (* [desktopsById] *)
  activitiesById : list string;   (* [activitiesById] *)
  watchesByToken : jsmap string WatchState;   (* [watchesByToken] *)
}.

(** Workspace.ts. *)
Record WorkspaceState := MkWspace {
  watchesByClient : jsmap number (jsmap string ws_handler);   (* [watchesByClient] *)
}.

(** Clients.ts. *)
Record ClientsState := MkClients {
  alive : gmap conn bool;   (* [alive] of each [ClientConnection] *)
  connections : jsmap number conn;   (* [connections] *)
  loops : gmap conn loop;   (* where each [run()] is suspended *)
  control : control_loop;   (* where [startControlLoop()] is suspended *)
}.

(** The whole heap, and the calls made so far. *)
Record state {E : Env} := MkState {
  host : HostState;
  tokens : TokensState;
  windows : WindowsState;
  wspace : WorkspaceState;
  clients : ClientsState;
  out : list effect;   (* in order *)
}.

(** ** Updates of one field, by a function of its value *)
Section Updates.
Context {E : Env}.

Definition upd_world (f : World → World) (h : HostState) : HostState :=
  MkHost _ (f (world h)) (signals h) (fresh h) (draws h).
Definition upd_signals (f : Signals → Signals) (h : HostState) : HostState :=
  MkHost _ (world h) (f (signals h)) (fresh h) (draws h).
Definition upd_fresh (f : positive → positive) (h : HostState) : HostState :=
  MkHost _ (world h) (signals h) (f (fresh h)) (draws h).
Definition upd_draws (f : nat → nat) (h : HostState) : HostState :=
  MkHost _ (world h) (signals h) (fresh h) (f (draws h)).

Definition upd_entries (f : gmap positive TokenEntry → gmap positive TokenEntry) (t : TokensState) : TokensState :=
  MkTokens _ (f (entries t)) (byToken t) (byWindow t).
Definition upd_byToken (f : jsmap string positive → jsmap string positive) (t : TokensState) : TokensState :=
  MkTokens _ (entries t) (f (byToken t)) (byWindow t).
Definition upd_byWindow (f : jsmap string positive → jsmap string positive) (t : TokensState) : TokensState :=
  MkTokens _ (entries t) (byToken t) (f (byWindow t)).

Definition upd_desktopsById (f : jsmap string desktop → jsmap string desktop) (w : WindowsState) : WindowsState :=
  MkWindows (f (desktopsById w)) (activitiesById w) (watchesByToken w).
Definition upd_activitiesById (f : list string → list string) (w : WindowsState) : WindowsState :=
  MkWindows (desktopsById w) (f (activitiesById w)) (watchesByToken w).
Definition upd_watchesByToken (f : jsmap string WatchState → jsmap string WatchState) (w : WindowsState) : WindowsState :=
  MkWindows (desktopsById w) (activitiesById w) (f (watchesByToken w)).

Definition upd_watchesByClient (f : jsmap number (jsmap string ws_handler) → jsmap number (jsmap string ws_handler)) (p : WorkspaceState) : WorkspaceState :=
  MkWspace (f (watchesByClient p)).

Definition upd_alive (f : gmap conn bool → gmap conn bool) (c : ClientsState) : ClientsState :=
  MkClients (f (alive c)) (connections c) (loops c) (control c).
Definition upd_connections (f : jsmap number conn → jsmap number conn) (c : ClientsState) : ClientsState :=
  MkClients (alive c) (f (connections c)) (loops c) (control c).
Definition upd_loops (f : gmap conn loop → gmap conn loop) (c : ClientsState) : ClientsState :=
  MkClients (alive c) (connections c) (f (loops c)) (control c).
Definition upd_control (f : control_loop → control_loop) (c : ClientsState) : ClientsState :=
  MkClients (alive c) (connections c) (loops c) (f (control c)).

Definition upd_host (f : HostState → HostState) (s : state) : state :=
  MkState _ (f (host s)) (tokens s) (windows s) (wspace s) (clients s) (out s).
Definition upd_tokens (f : TokensState → TokensState) (s : state) : state :=
  MkState _ (host s) (f (tokens s)) (windows s) (wspace s) (clients s) (out s).
Definition upd_windows (f : WindowsState → WindowsState) (s : state) : state :=
  MkState _ (host s) (tokens s) (f (windows s)) (wspace s) (clients s) (out s).
Definition upd_wspace (f : WorkspaceState → WorkspaceState) (s : state) : state :=
  MkState _ (host s) (tokens s) (windows s) (f (wspace s)) (clients s) (out s).
Definition upd_clients (f : ClientsState → ClientsState) (s : state) : state :=
  MkState _ (host s) (tokens s) (windows s) (wspace s) (f (clients s)) (out s).
Definition upd_out (f : list effect → list effect) (s : state) : state :=
  MkState _ (host s) (tokens s) (windows s) (wspace s) (clients s) (f (out s)).

End Updates.

(** ** The monad of the functions that can throw *)
Definition M {E : Env} (A : Type) : Type := state → outcome A * state.

Section Monad.
Context {E : Env}.

Definition ret {A} (a : A) : M A := λ s, (Ret a, s).
Definition throw {A} (e : exn) : M A := λ s, (Throw e, s).
Definition bind {A B} (m : M A) (f : A → M B) : M B := λ s,
  match m s with
  | (Ret a, s) => f a s
  | (Throw e, s) => (Throw e, s)
  | (OutOfFuel, s) => (OutOfFuel, s)
  end.
Definition get : M state := λ s, (Ret s, s).
Definition modify (f : state → state) : M unit := λ s, (Ret tt, f s).

(** [try { m } catch (error) { handler }] *)
Definition try_catch (m : M unit) (handler : exn → state → state) (s : state) : state :=
  match m s with
  | (Throw error, s) => handler error s
  | (_, s) => s
  end.

(** An access to KWin while the script loads. *)
Definition kwin_access (a : load_access) : M unit :=
  match kwin_load_error a with
  | None => ret tt
  | Some error => throw (HostError error)
  end.

(** [for (const x of xs) f(x)] *)
Fixpoint mfor {A} (xs : list A) (f : A → M unit) : M unit :=
  match xs with
  | [] => ret tt
  | x :: xs => bind (f x) (λ _, mfor xs f)
  end.
End Monad.

Declare Scope script_scope.
Delimit Scope script_scope with script.
Notation "x ← m ; k" := (bind m (λ x, k))
  (at level 20, m at level 100, k at level 200, right associativity) : script_scope.
Notation "m ;; k" := (bind m (λ _, k))
  (at level 100, k at level 200, right associativity) : script_scope.

(** A computation that leaves the state alone, whatever it returns. *)
Definition pure_in {E : Env} {A} (m : M A) : Prop := ∀ s, snd (m s) = s.

Section Output.
Context {E : Env}.

Definition emit (e : effect) (s : state) : state :=
  upd_out (λ o, o ++ [e]) s.

(** dbus.ts [sendLog]: the call, and its [catch]. *)
Definition sendLog (level message : string) (s : state) : state :=
  emit (ECall (log_call level message)) s.

Definition sendLog_settled (r : settled) (s : state) : state :=
  match r with
  | Fulfilled _ => s
  | Rejected error =>
    emit (EPrint ("[kwinscript] cannot send log to daemon (" +:+ DAEMON_DBUS_SERVICE
      +:+ "): " +:+ exn_to_string error)) s
  end.

(** dbus.ts [pushToClient]: the call, and what follows its [await] (the
    returned boolean first). *)
Definition pushToClient (clientId : number) (payload : string) (s : state) : state :=
  emit (ECall (push_call clientId payload)) s.

Definition push_settled (clientId : number) (r : settled) (s : state) : bool * state :=
  match r with
  | Fulfilled reply =>
    match reply with
    | Str "" => (true, s)
    | _ =>
      (false, sendLog "warn" ("push to client " +:+ number_to_string clientId +:+
         " rejected by daemon: " +:+ value_to_string reply) s)
    end
  | Rejected error =>
    (false, emit (EPrint ("[kwinscript] push to client " +:+ number_to_string clientId +:+
       " failed: " +:+ exn_to_string error)) s)
  end.

(** [conn.alive] *)
Definition is_alive (c : conn) (s : state) : bool :=
  match alive (clients s) !! c with Some b => b | None => false end.

(** clients.ts [ClientConnection.send] *)
Definition send (c : conn) (message : value) (s : state) : state :=
  pushToClient (conn_id c) (JSON_stringify message) s.

(** jsonrpc.ts [notifyClient] *)
Definition notifyClient (c : conn) (method : string) (params : value) (s : state) : state :=
  if negb (is_alive c s) then s
  else send c (createJSONRPCNotification method params) s.

(** The message a notification puts on the wire, for the statements. *)
Definition notification (c : conn) (method : string) (params : value) : effect :=
  ECall (push_call (conn_id c) (JSON_stringify (createJSONRPCNotification method params))).

(** The messages among the calls: [push] calls, the others being logs,
    polls, prints and sleeps. *)
Definition is_push (e : effect) : bool :=
  match e with ECall c => bool_decide (dc_method c = "push") | _ => false end.

Definition pushes (l : list effect) : list effect := filter is_push l.

Lemma pushes_app l1 l2 : pushes (l1 ++ l2) = pushes l1 ++ pushes l2.
Proof. apply filter_app. Qed.

(** ** Frames

    The functions above extend the output and change nothing else. *)

Record same_heap (s s' : state) : Prop := SameHeap {
  sh_host : host s' = host s;
  sh_tokens : tokens s' = tokens s;
  sh_windows : windows s' = windows s;
  sh_wspace : wspace s' = wspace s;
  sh_clients : clients s' = clients s;
}.

#[export] Instance same_heap_preorder : PreOrder same_heap.
Proof. split; [done|]. intros s1 s2 s3 [] []. split; congruence. Qed.

Lemma emit_same_heap e s : same_heap s (emit e s).
Proof. done. Qed.

Lemma sendLog_same_heap l m s : same_heap s (sendLog l m s).
Proof. done. Qed.

Lemma notifyClient_same_heap c m p s : same_heap s (notifyClient c m p s).
Proof. unfold notifyClient. by destruct (negb _). Qed.

Lemma sendLog_out l m s : out (sendLog l m s) = out s ++ [ECall (log_call l m)].
Proof. done. Qed.

Lemma sendLog_pushes l m s : pushes (out (sendLog l m s)) = pushes (out s).
Proof. rewrite sendLog_out, pushes_app. apply app_nil_r. Qed.

Lemma notifyClient_out c m p s :
  out (notifyClient c m p s) =
  out s ++ if is_alive c s then [notification c m p] else [].
Proof. unfold notifyClient. destruct (is_alive c s); simpl; [done|]. by rewrite app_nil_r. Qed.

Lemma notifyClient_pushes c m p s :
  pushes (out (notifyClient c m p s)) =
  pushes (out s) ++ if is_alive c s then [notification c m p] else [].
Proof. rewrite notifyClient_out, pushes_app. by destruct (is_alive c s). Qed.

(** Reading [alive] through the functions that leave the clients alone. *)
Lemma is_alive_clients c s s' : clients s' = clients s → is_alive c s' = is_alive c s.
Proof. unfold is_alive. by intros ->. Qed.
End Output.

#[export] Hint Resolve emit_same_heap sendLog_same_heap notifyClient_same_heap : script.
#[export] Hint Rewrite @sendLog_pushes @notifyClient_pushes : script_rw.
