(* ===== verification/Spec.v ===== *)
(** * The contract of the token registry

    What doc/RPC.md promises of tokens, without timers, registries or D-Bus:
    a finite map from the valid tokens to their claims, and the steps it can
    take, each with what its owner is told.  Refine.v maps the registry of
    tokens.ts to this machine; Invariant.v carries the simulation through
    every piece of the script's code. *)
From S2P Require Export State.

(** A valid token: its owner, the window it is bound to, and whether its
    validate window is still open. *)
Record claim := Claim {
  cl_owner : conn;
  cl_window : option window;
  cl_open : bool;
}.

Notation claims := (gmap string claim).

(** What happens to a claim, as its owner sees it. *)
Inductive note :=
| Validated (c : conn) (token : string) (w : window)
| Invalidated (c : conn) (token : string) (reason : TokenReason) (w : option window)
| Gone (id : number).   (* the client is gone, with all it owns *)

Definition drop_owner (id : number) (G : claims) : claims :=
  filter (λ tc : string * claim, conn_id (cl_owner (snd tc)) ≠ id) G.

(** The reasons a claim can be withdrawn for: a token times out exactly while
    it is not bound, and is ambiguous only while its window is open. *)
Definition may_leave (cl : claim) (reason : TokenReason) : Prop :=
  (reason = timeout ↔ cl_window cl = None) ∧ (reason = ambiguous → cl_open cl = true).

Inductive spec_step : claims → list note → claims → Prop :=
| sp_request t c G :
  G !! t = None → spec_step G [] (<[t := Claim c None true]> G)
| sp_bind t c w G :
  G !! t = Some (Claim c None true) →
  (∀ t' cl, G !! t' = Some cl → cl_window cl ≠ Some w) →
  spec_step G [Validated c t w] (<[t := Claim c (Some w) true]> G)
| sp_leave t cl reason G :
  G !! t = Some cl → may_leave cl reason →
  spec_step G [Invalidated (cl_owner cl) t reason (cl_window cl)] (delete t G)
| sp_close t c w G :
  G !! t = Some (Claim c (Some w) true) →
  spec_step G [] (<[t := Claim c (Some w) false]> G)
| sp_drop id G :
  spec_step G [Gone id] (drop_owner id G).

Inductive spec_run : claims → list note → claims → Prop :=
| sp_done G : spec_run G [] G
| sp_step G1 ns1 G2 ns2 G3 :
  spec_step G1 ns1 G2 → spec_run G2 ns2 G3 → spec_run G1 (ns1 ++ ns2) G3.

Lemma spec_run_app G1 ns1 G2 ns2 G3 :
  spec_run G1 ns1 G2 → spec_run G2 ns2 G3 → spec_run G1 (ns1 ++ ns2) G3.
Proof.
  induction 1 as [|G1 ns G2 ns' G3' Hs _ IH]; intros Hr; simpl; [done|].
  rewrite <- app_assoc. econstructor; eauto.
Qed.

Lemma spec_run_one G ns G' : spec_step G ns G' → spec_run G ns G'.
Proof. intros Hs. rewrite <- (app_nil_r ns). econstructor; [done|constructor]. Qed.

(** ** What the contract means *)

(** A window has at most one token. *)
Definition exclusive (G : claims) : Prop :=
  ∀ t1 t2 cl1 cl2 w, G !! t1 = Some cl1 → G !! t2 = Some cl2 →
    cl_window cl1 = Some w → cl_window cl2 = Some w → t1 = t2.

Lemma drop_owner_Some id G t cl :
  drop_owner id G !! t = Some cl ↔ G !! t = Some cl ∧ conn_id (cl_owner cl) ≠ id.
Proof. exact (map_lookup_filter_Some _ G t cl). Qed.

Lemma spec_step_exclusive G ns G' : spec_step G ns G' → exclusive G → exclusive G'.
Proof.
  intros Hs Hx. destruct Hs as [t c G Hn|t c w G Ht Hfree|t cl r G Ht _|t c w G Ht|id G];
    intros t1 t2 cl1 cl2 w'.
  - rewrite !lookup_insert. repeat case_decide; [congruence|naive_solver..|apply Hx].
  - rewrite !lookup_insert. repeat case_decide; subst; [done| | |apply Hx].
    + intros [= <-] Ht2 [= <-] Hw2. by destruct (Hfree _ _ Ht2).
    + intros Ht1 [= <-] Hw1 [= <-]. by destruct (Hfree _ _ Ht1).
  - rewrite !lookup_delete_Some. intros [_ H1] [_ H2]. by apply (Hx _ _ cl1 cl2).
  - rewrite !lookup_insert. repeat case_decide; subst; [done| | |apply Hx].
    + intros [= <-] Ht2 [= <-] Hw2. by eapply (Hx _ _ (Claim c (Some w) true) cl2).
    + intros Ht1 [= <-] Hw1 [= <-]. by eapply (Hx _ _ cl1 (Claim c (Some w) true)).
  - rewrite !drop_owner_Some. intros [H1 _] [H2 _]. by apply (Hx _ _ cl1 cl2).
Qed.

(** The notes that tell the owner of [t] that it is over. *)
Definition is_farewell (c : conn) (t : string) (n : note) : Prop :=
  match n with
  | Validated _ _ _ => False
  | Invalidated c' t' _ _ => c' = c ∧ t' = t
  | Gone id => id = conn_id c
  end.

Lemma spec_step_leave G ns G' t cl :
  spec_step G ns G' → G !! t = Some cl →
  (∃ cl', G' !! t = Some cl' ∧ cl_owner cl' = cl_owner cl ∧
     (cl_window cl ≠ None → cl_window cl' = cl_window cl)) ∨
  Exists (is_farewell (cl_owner cl) t) ns.
Proof.
  intros Hs Ht.
  destruct Hs as [t0 c G Hn|t0 c w G Ht0 Hfree|t0 cl0 r G Ht0 _|t0 c w G Ht0|id G].
  - left. exists cl. rewrite lookup_insert_ne; [done|]. congruence.
  - left. rewrite lookup_insert. case_decide; [|by eauto]. subst.
    assert (cl = Claim c None true) as -> by congruence. by eexists.
  - destruct (decide (t0 = t)) as [->|Hne].
    + assert (cl0 = cl) as -> by congruence. right. by constructor.
    + left. exists cl. by rewrite lookup_delete_ne.
  - left. rewrite lookup_insert. case_decide; [|by eauto]. subst.
    assert (cl = Claim c (Some w) true) as -> by congruence. by eexists.
  - destruct (decide (conn_id (cl_owner cl) = id)) as [Hid|Hid].
    + right. by constructor.
    + left. exists cl. by rewrite drop_owner_Some.
Qed.

(** A claim ends only with a farewell, and until then keeps its owner and
    window. *)
Lemma spec_run_leave G ns G' t cl :
  spec_run G ns G' → G !! t = Some cl →
  (∃ cl', G' !! t = Some cl' ∧ cl_owner cl' = cl_owner cl ∧
     (cl_window cl ≠ None → cl_window cl' = cl_window cl)) ∨
  Exists (is_farewell (cl_owner cl) t) ns.
Proof.
  intros Hr. revert cl. induction Hr as [G|G1 ns1 G2 ns2 G3 Hs _ IH]; intros cl Ht.
  - left. by exists cl.
  - destruct (spec_step_leave _ _ _ _ _ Hs Ht) as [(cl2 & Ht2 & Hc2 & Hw2)|Hf];
      [|right; rewrite Exists_app; by left].
    destruct (IH _ Ht2) as [(cl3 & Ht3 & Hc3 & Hw3)|Hf]; [left|right].
    + exists cl3. split; [done|]. split; [congruence|]. intros Hw.
      rewrite Hw3, Hw2; [done..|]. by rewrite Hw2.
    + rewrite Exists_app. right. by rewrite Hc2 in Hf.
Qed.

(** A claim that gets its window had its owner told. *)
Lemma spec_run_bound G ns G' t cl cl' w :
  spec_run G ns G' → G !! t = Some cl → G' !! t = Some cl' →
  cl_window cl = None → cl_window cl' = Some w → cl_owner cl' = cl_owner cl →
  Validated (cl_owner cl) t w ∈ ns ∨ Exists (is_farewell (cl_owner cl) t) ns.
Proof.
  intros Hr. revert cl. induction Hr as [G|G1 ns1 G2 ns2 G3 Hs Hr IH];
    intros cl Ht Ht' Hw Hw' Hc; [congruence|].
  destruct (spec_step_leave _ _ _ _ _ Hs Ht) as [(cl2 & Ht2 & Hc2 & _)|Hf];
    [|right; rewrite Exists_app; by left].
  destruct (cl_window cl2) as [w2|] eqn:Hw2.
  - destruct (spec_run_leave _ _ _ _ _ Hr Ht2) as [(cl3 & Ht3 & Hc3 & Hw3)|Hf];
      [left|right; rewrite Exists_app, <- Hc2; by right].
    assert (cl3 = cl') as -> by congruence.
    rewrite Hw2 in Hw3. rewrite Hw3 in Hw' by done. injection Hw' as ->.
    rewrite elem_of_app. left. clear - Hs Ht Ht2 Hw Hw2 Hc2.
    destruct Hs as [t0 c G Hn|t0 c w' G Ht0 Hfree|t0 cl0 r G Ht0 _|t0 c w' G Ht0|id G].
    + rewrite lookup_insert_ne in Ht2 by congruence. congruence.
    + rewrite lookup_insert in Ht2. case_decide as Heq; [|congruence]. subst.
      injection Ht2 as <-. simpl in *. injection Hw2 as ->. rewrite <- Hc2. by left.
    + rewrite lookup_delete_Some in Ht2. destruct Ht2 as [_ ?]. congruence.
    + rewrite lookup_insert in Ht2. case_decide as Heq; [|congruence]. subst.
      assert (cl = Claim c (Some w') true) as -> by congruence. done.
    + rewrite drop_owner_Some in Ht2. destruct Ht2 as [? _]. congruence.
  - destruct (IH _ Ht2 Ht' Hw2 Hw' ltac:(congruence)) as [Hv|Hf]; rewrite <- Hc2;
      [left; rewrite elem_of_app; by right|right; rewrite Exists_app; by right].
Qed.

(** ** The contract as functions

    What each event does to the claims, and whom it tells. *)

(** The claim on a window. *)
Definition holder (w : window) (G : claims) : option (string * claim) :=
  head (filter (λ tc : string * claim, cl_window (snd tc) = Some w) (map_to_list G)).

(** Whoever holds the window loses it. *)
Definition evict (reason : TokenReason) (w : window) (G : claims) : claims * list note :=
  match holder w G with
  | Some (t, cl) => (delete t G, [Invalidated (cl_owner cl) t reason (Some w)])
  | None => (G, [])
  end.

(** The caption of [w] begins with [t]. *)
Definition caption_match (w : window) (t : string) (G : claims) : claims * list note :=
  match G !! t with
  | Some (Claim c None true) =>
    let '(G, ns) := evict superseded w G in
    (<[t := Claim c (Some w) true]> G, ns ++ [Validated c t w])
  | Some (Claim c (Some w') true) =>
    if decide (w' = w) then (G, [])
    else (delete t G, [Invalidated c t ambiguous (Some w')])
  | _ => (G, [])
  end.

(** The validate window of [t] ends. *)
Definition deadline (t : string) (G : claims) : claims * list note :=
  match G !! t with
  | Some (Claim c None true) => (delete t G, [Invalidated c t timeout None])
  | Some (Claim c (Some w) true) => (<[t := Claim c (Some w) false]> G, [])
  | _ => (G, [])
  end.

Lemma holder_Some w G t cl :
  exclusive G → G !! t = Some cl → cl_window cl = Some w → holder w G = Some (t, cl).
Proof.
  intros Hx Ht Hw. unfold holder.
  set (l := filter _ _).
  assert (Hin : ∀ tc, tc ∈ l ↔ G !! (fst tc) = Some (snd tc) ∧ cl_window (snd tc) = Some w).
  { intros [t' cl']. unfold l. rewrite list_elem_of_filter, elem_of_map_to_list. tauto. }
  destruct l as [|[t' cl'] l'] eqn:Hl.
  - pose proof (proj2 (Hin (t, cl)) (conj Ht Hw)) as Habs. by apply elem_of_nil in Habs.
  - destruct (proj1 (Hin (t', cl')) ltac:(left)) as [Ht' Hw']. simpl in *.
    assert (t' = t) as -> by (by eapply Hx). congruence.
Qed.

Lemma holder_None w G :
  (∀ t cl, G !! t = Some cl → cl_window cl ≠ Some w) → holder w G = None.
Proof.
  intros Hn. unfold holder.
  match goal with |- head ?l = None => assert (l = []) as ->; [|done] end.
  apply elem_of_nil_inv. intros [t cl] [Hw Hin%elem_of_map_to_list]%list_elem_of_filter.
  by eapply Hn.
Qed.
