(* ===== verification/Windows.v ===== *)
(** * windows.ts: workspace catalogs and property listeners

    The catalogs [desktopsById] and [activitiesById], kept in step with KWin's
    workspace signals, and the registry of [window.watch] listeners: each
    token has a [WatchState] with one connected [handler] per watched
    property.  [setWatch] adds or removes one listener; [dropClientWatches] is
    what tokens.ts calls when tokens leave its registry.  The JSON-RPC methods
    of the file are in Methods.v. *)
From S2P Require Export Kwin State.

Section Windows.
Context {E : Env}.
Implicit Types (s : state) (w : window).

(** [signal.connect(slot)] *)
Definition connect (sg : signal) (x : slot) (s : state) : state :=
  upd_host (upd_signals (sig_connect sg x)) s.

(** ** Workspace catalogs *)

Definition rescanDesktops (s : state) : state :=
  upd_windows (upd_desktopsById (λ _,
    foldl (λ m d, jm_set (desktop_id d) d m) jm_empty
      (workspace_desktops (world (host s))))) s.

Definition rescanActivities (s : state) : state :=
  upd_windows (upd_activitiesById (λ _,
    js_of_list (workspace_activities (world (host s))))) s.

(** The same at load, where KWin may throw in between. *)
Definition load_rescanDesktops : M unit :=
  (modify (upd_windows (upd_desktopsById (λ _, jm_empty)));;
   kwin_access ReadDesktops;;
   s ← get;
   mfor (workspace_desktops (world (host s))) (λ d,
     kwin_access (ReadDesktopId d);;
     modify (upd_windows (upd_desktopsById (jm_set (desktop_id d) d)))))%script.

Definition load_rescanActivities : M unit :=
  (modify (upd_windows (upd_activitiesById (λ _, [])));;
   kwin_access ReadActivities;;
   modify rescanActivities)%script.

Definition load_connect (sg : signal) (x : slot) : M unit :=
  (kwin_access (ConnectSignal sg);; modify (connect sg x))%script.

Definition wireWorkspaceEvents : M unit :=
  (load_rescanDesktops;;
   load_rescanActivities;;
   load_connect (SigWorkspace "desktopsChanged") SlotDesktopsChanged;;
   load_connect (SigWorkspace "activityAdded") SlotActivityAdded;;
   load_connect (SigWorkspace "activityRemoved") SlotActivityRemoved)%script.

(** The slots of [activityAdded] and [activityRemoved]. *)
Definition onActivityAdded (id : string) (s : state) : state :=
  upd_windows (upd_activitiesById (js_add id)) s.

Definition onActivityRemoved (id : string) (s : state) : state :=
  upd_windows (upd_activitiesById (js_remove id)) s.

(** The module's code at script load. *)
Definition load_windows (s : state) : state :=
  try_catch
    (wireWorkspaceEvents;;
     modify (λ s, sendLog "info" ("windows: workspace catalogs: "
       +:+ pretty (jm_size (desktopsById (windows s))) +:+ " desktop(s), "
       +:+ pretty (length (activitiesById (windows s))) +:+ " activity(ies)") s))%script
    (λ error, sendLog "error" ("windows: cannot wire workspace events: " +:+ exn_to_string error)) s.

Definition lookupDesktop (id : string) (s : state) : option desktop :=
  jm_get id (desktopsById (windows s)).

Definition hasActivity (id : string) (s : state) : bool :=
  js_has id (activitiesById (windows s)).

(** ** Supported properties *)

Definition UPDATE_PROPS : list string := [
  "opacity"; "skipsCloseAnimation"; "fullScreen"; "onAllDesktops";
  "skipTaskbar"; "skipPager"; "skipSwitcher"; "keepAbove"; "keepBelow";
  "minimized"; "demandsAttention"; "noBorder"; "excludeFromCapture";
  "desktops"; "activities"].

Definition QUERY_PROPS : list string := js_of_list UPDATE_PROPS.

Definition WATCH_PROPS : list string := [
  "skipsCloseAnimation"; "fullScreen"; "skipTaskbar"; "skipPager";
  "skipSwitcher"; "keepAbove"; "keepBelow"; "minimized";
  "demandsAttention"; "excludeFromCapture"; "desktops"; "activities"].

(** ** Reading a property *)

(** [window[prop + "Changed"]], cast to a signal: [None] is [undefined]. *)
Definition propSignal (w : window) (prop : string) : option signal :=
  signal_named Window_signals (SigWindow w) (prop +:+ "Changed").

Definition propValue (w : window) (prop : string) (s : state) : value :=
  let W := world (host s) in
  if decide (prop = "desktops") then
    Arr (map (λ d, Str (desktop_id d)) (window_desktops W w))
  else if decide (prop = "activities") then
    Arr (map Str (window_activities W w))
  else window_prop W w prop.

(** ** Listeners *)

(** The body of a [handler] closure. *)
Definition run_win_handler (h : win_handler) (s : state) : state :=
  notifyClient (wh_conn h) "window.changed"
    (Obj [("token", Str (wh_token h));
          ("property", Str (wh_prop h));
          ("value", propValue (wh_window h) (wh_prop h) s)]) s.

(** [signal.disconnect(slot)], where [signal] may be [undefined]: the
    connections it leaves, or the text of its exception. *)
Definition disconnect_from (sg : option signal) (x : slot) (s : state) : Signals + string :=
  match sg with
  | Some sg => sig_disconnect sg x (signals (host s))
  | None => inr (undefined_call "disconnect")
  end.

(** [try { propSignal(w, prop).disconnect(handler) } catch ...] *)
Definition try_disconnect (w : window) (prop token : string) (h : win_handler)
    (s : state) : state :=
  match disconnect_from (propSignal w prop) (SlotWindowProp h) s with
  | inl t => upd_host (upd_signals (λ _, t)) s
  | inr error =>
    sendLog "warn" ("window.watch: cannot disconnect " +:+ prop +:+ " for token "
      +:+ token +:+ ": " +:+ error) s
  end.

Definition setWatch (token : string) (c : conn) (w : window) (prop : string)
    (enable : bool) : M bool := λ s,
  let st := jm_get token (watchesByToken (windows s)) in
  if enable then
    (* if (!state) watchesByToken.set(token, state) *)
    let state' := match st with Some st => st | None => MkWatchState w jm_empty end in
    let s := match st with
      | Some _ => s
      | None => upd_windows (upd_watchesByToken (jm_set token state')) s
      end in
    if negb (jm_has prop (ws_handlers state')) then
      let handler := WinHandler (fresh (host s)) c token w prop in
      let s := upd_host (upd_fresh Pos.succ) s in
      match propSignal w prop with
      | None => throw (HostError (undefined_call "connect")) s
      | Some sg =>
        let s := connect sg (SlotWindowProp handler) s in
        let s := upd_windows (upd_watchesByToken (jm_set token
          (MkWatchState (ws_window state') (jm_set prop handler (ws_handlers state'))))) s in
        ret true (sendLog "info" ("window.watch: client " +:+ number_to_string (conn_id c)
          +:+ " watches " +:+ prop +:+ " on token " +:+ token) s)
      end
    else ret true s
  else
    match st with
    | None => ret false s
    | Some state' =>
      match jm_get prop (ws_handlers state') with
      | None => ret false s
      | Some handler =>
        let s := try_disconnect (ws_window state') prop token handler s in
        let handlers := jm_delete prop (ws_handlers state') in
        let s := upd_windows (upd_watchesByToken (
          if decide (jm_size handlers = 0%nat) then jm_delete token
          else jm_set token (MkWatchState (ws_window state') handlers))) s in
        ret false (sendLog "info" ("window.watch: client " +:+ number_to_string (conn_id c)
          +:+ " no longer watches " +:+ prop +:+ " on token " +:+ token) s)
      end
    end.

(** The body of the loop over the tokens. *)
Definition dropTokenWatches (token : string) (s : state) : state :=
  match jm_get token (watchesByToken (windows s)) with
  | None => s
  | Some state' =>
    let s := foldl (λ s ph, try_disconnect (ws_window state') (fst ph) token (snd ph) s)
               s (ws_handlers state') in
    upd_windows (upd_watchesByToken (jm_delete token)) s
  end.

Definition dropClientWatches (toks : list string) (s : state) : state :=
  foldl (λ s token, dropTokenWatches token s) s toks.

(** ** The catalogs are maps from ids *)

Definition catalogs_ok (ws : WindowsState) : Prop :=
  jm_wf (desktopsById ws) ∧ (∀ id d, jm_get id (desktopsById ws) = Some d → desktop_id d = id) ∧
  NoDup (activitiesById ws).

Lemma desktops_fold_ok (ds : list desktop) m :
  jm_wf m → (∀ id d, jm_get id m = Some d → desktop_id d = id) →
  let m' := foldl (λ m d, jm_set (desktop_id d) d m) m ds in
  jm_wf m' ∧ ∀ id d, jm_get id m' = Some d → desktop_id d = id.
Proof.
  intros Hwf Hid.
  apply (foldl_ind (λ m, jm_wf m ∧ ∀ id d, jm_get id m = Some d → desktop_id d = id)); [done|].
  intros m' d _ [Hwf' Hid']. split; [by apply jm_wf_set|].
  intros id d'. rewrite jm_get_set. case_decide; [naive_solver|apply Hid'].
Qed.

Lemma rescanDesktops_ok s : catalogs_ok (windows s) → catalogs_ok (windows (rescanDesktops s)).
Proof.
  intros (_ & _ & Hact).
  destruct (desktops_fold_ok (workspace_desktops (world (host s))) jm_empty) as [Hwf Hid];
    [apply jm_wf_empty|done|by split].
Qed.

Lemma rescanActivities_ok s : catalogs_ok (windows s) → catalogs_ok (windows (rescanActivities s)).
Proof. intros (Hwf & Hid & _). split; [done|]. split; [done|]. apply js_of_list_nodup. Qed.

Lemma onActivityAdded_ok id s : catalogs_ok (windows s) → catalogs_ok (windows (onActivityAdded id s)).
Proof. intros (Hwf & Hid & Hact). split; [done|]. split; [done|]. by apply js_add_nodup. Qed.

Lemma onActivityRemoved_ok id s :
  catalogs_ok (windows s) → catalogs_ok (windows (onActivityRemoved id s)).
Proof. intros (Hwf & Hid & Hact). split; [done|]. split; [done|]. by apply js_remove_nodup. Qed.

(** ** Connections *)

Definition slots (s : state) (sg : signal) : list slot := sig_slots (signals (host s)) sg.

Lemma connect_slots `{!SignalLaws E} sg x s sg' :
  slots (connect sg x s) sg' = slots s sg' ++ if decide (sg' = sg) then [x] else [].
Proof.
  unfold slots. simpl. case_decide as Hd; subst; [apply sig_connect_eq|].
  rewrite app_nil_r. by apply sig_connect_ne.
Qed.

Lemma connect_elem `{!SignalLaws E} sg x s sg' y :
  y ∈ slots (connect sg x s) sg' ↔ y ∈ slots s sg' ∨ (sg' = sg ∧ y = x).
Proof.
  rewrite connect_slots, elem_of_app.
  case_decide; rewrite ?list_elem_of_singleton, ?elem_of_nil; naive_solver.
Qed.

(** Whatever [disconnect] answers, afterwards the slot is not connected and
    the others are as before. *)
Lemma disconnect_from_slots `{!SignalLaws E} o x s sg :
  sig_slots (match disconnect_from o x s with inl t => t | inr _ => signals (host s) end) sg =
  if decide (o = Some sg) then filter (λ y, y ≠ x) (slots s sg) else slots s sg.
Proof.
  unfold disconnect_from, slots. destruct o as [sg0|]; [|by rewrite decide_False].
  destruct (sig_disconnect sg0 x _) as [t|m] eqn:Hd; case_decide as Ho; try done.
  - injection Ho as ->. by eapply sig_disconnect_eq.
  - eapply sig_disconnect_ne; [done|congruence].
  - injection Ho as ->. symmetry. apply filter_ne_notin. by eapply sig_disconnect_throws.
Qed.

Lemma try_disconnect_slots `{!SignalLaws E} w p t h s sg :
  slots (try_disconnect w p t h s) sg =
  if decide (propSignal w p = Some sg)
  then filter (λ y, y ≠ SlotWindowProp h) (slots s sg) else slots s sg.
Proof.
  rewrite <- (disconnect_from_slots (propSignal w p)). unfold try_disconnect, slots.
  by destruct (disconnect_from _ _ _).
Qed.

Lemma try_disconnect_elem `{!SignalLaws E} w p t h s sg y :
  y ∈ slots (try_disconnect w p t h s) sg ↔
  y ∈ slots s sg ∧ ¬ (propSignal w p = Some sg ∧ y = SlotWindowProp h).
Proof.
  rewrite try_disconnect_slots. case_decide; [rewrite list_elem_of_filter|]; naive_solver.
Qed.

(** Disconnecting only shortens the lists of slots. *)
Definition shrinks (s s' : state) : Prop := ∀ sg, slots s' sg `sublist_of` slots s sg.

#[export] Instance shrinks_preorder : PreOrder shrinks.
Proof. split; [by intros s sg|]. intros s1 s2 s3 H12 H23 sg. etrans; [apply H23|apply H12]. Qed.

Lemma try_disconnect_shrinks `{!SignalLaws E} w p t h s : shrinks s (try_disconnect w p t h s).
Proof.
  intros sg. rewrite try_disconnect_slots. case_decide; [apply sublist_filter|done].
Qed.

(** ** What dropping listeners leaves alone *)

Record watch_frame (s s' : state) : Prop := WatchFrame {
  wf_world : world (host s') = world (host s);
  wf_fresh : fresh (host s') = fresh (host s);
  wf_draws : draws (host s') = draws (host s);
  wf_tokens : tokens s' = tokens s;
  wf_desktops : desktopsById (windows s') = desktopsById (windows s);
  wf_activities : activitiesById (windows s') = activitiesById (windows s);
  wf_wspace : wspace s' = wspace s;
  wf_clients : clients s' = clients s;
  wf_pushes : pushes (out s') = pushes (out s);
  wf_out : out s `prefix_of` out s';
}.

#[export] Instance watch_frame_preorder : PreOrder watch_frame.
Proof.
  split; [done|]. intros s1 s2 s3 [] []. split; try congruence. by etrans.
Qed.

Lemma sendLog_watch_frame l m s : watch_frame s (sendLog l m s).
Proof. split; try done; [apply sendLog_pushes|]. by eexists. Qed.

Lemma try_disconnect_frame w p t h s : watch_frame s (try_disconnect w p t h s).
Proof.
  unfold try_disconnect. destruct (disconnect_from _ _ _); [done|].
  apply sendLog_watch_frame.
Qed.

Lemma try_disconnect_watches w p t h s :
  watchesByToken (windows (try_disconnect w p t h s)) = watchesByToken (windows s).
Proof. unfold try_disconnect. by destruct (disconnect_from _ _ _). Qed.

(** The loop over the handlers of one token. *)
Definition disconnect_all (w : window) (t : string) (hs : jsmap string win_handler)
    (s : state) : state :=
  foldl (λ s ph, try_disconnect w (fst ph) t (snd ph) s) s hs.

Lemma disconnect_all_frame w t hs s :
  watch_frame s (disconnect_all w t hs s) ∧
  watchesByToken (windows (disconnect_all w t hs s)) = watchesByToken (windows s).
Proof.
  apply (foldl_ind (λ s', watch_frame s s' ∧
    watchesByToken (windows s') = watchesByToken (windows s))); [done|].
  intros s' ph _ [Hf Hw]. split.
  - etrans; [done|apply try_disconnect_frame].
  - by rewrite try_disconnect_watches.
Qed.

Lemma disconnect_all_elem `{!SignalLaws E} w t hs s sg y :
  y ∈ slots (disconnect_all w t hs s) sg ↔
  y ∈ slots s sg ∧
  ¬ ∃ p h, (p, h) ∈ hs ∧ propSignal w p = Some sg ∧ y = SlotWindowProp h.
Proof.
  unfold disconnect_all. revert s. induction hs as [|[p h] hs IH]; intros s; simpl.
  - split; [|naive_solver]. intros Hy. split; [done|].
    by intros (p & h & Hin%elem_of_nil & _).
  - rewrite IH, try_disconnect_elem. setoid_rewrite elem_of_cons. naive_solver.
Qed.

Lemma dropTokenWatches_frame t s : watch_frame s (dropTokenWatches t s).
Proof.
  unfold dropTokenWatches. case_goal; [|done].
  etrans; [apply disconnect_all_frame|]. done.
Qed.

Lemma dropTokenWatches_get t t' s :
  jm_get t' (watchesByToken (windows (dropTokenWatches t s))) =
  if decide (t = t') then None else jm_get t' (watchesByToken (windows s)).
Proof.
  unfold dropTokenWatches. destruct (jm_get t _) as [st|] eqn:Ht; simpl.
  - rewrite jm_get_delete. case_decide; [done|]. f_equal.
    apply (proj2 (disconnect_all_frame (ws_window st) t (ws_handlers st) s)).
  - case_decide; congruence.
Qed.

Lemma dropTokenWatches_elem `{!SignalLaws E} t s sg y :
  y ∈ slots (dropTokenWatches t s) sg ↔
  y ∈ slots s sg ∧
  ¬ ∃ st p h, jm_get t (watchesByToken (windows s)) = Some st ∧
      (p, h) ∈ ws_handlers st ∧ propSignal (ws_window st) p = Some sg ∧ y = SlotWindowProp h.
Proof.
  unfold dropTokenWatches. destruct (jm_get t _) as [st|] eqn:Ht; simpl.
  - pose proof (disconnect_all_elem (ws_window st) t (ws_handlers st) s sg y) as Hd.
    unfold slots in *. simpl in *. rewrite Hd. naive_solver.
  - naive_solver.
Qed.

Lemma dropClientWatches_frame toks s : watch_frame s (dropClientWatches toks s).
Proof.
  apply (foldl_ind (watch_frame s)); [done|]. intros s' t _ Hf.
  etrans; [done|apply dropTokenWatches_frame].
Qed.

Lemma dropClientWatches_get toks t s :
  jm_get t (watchesByToken (windows (dropClientWatches toks s))) =
  if decide (t ∈ toks) then None else jm_get t (watchesByToken (windows s)).
Proof.
  unfold dropClientWatches. revert s. induction toks as [|t0 toks IH]; intros s; cbn [foldl].
  - case_decide as Hin; [by apply elem_of_nil in Hin|done].
  - rewrite IH, dropTokenWatches_get.
    destruct (decide (t ∈ toks)); destruct (decide (t ∈ t0 :: toks)) as [Hin|Hin];
      destruct (decide (t0 = t)); try done; rewrite elem_of_cons in Hin; naive_solver.
Qed.

Lemma dropClientWatches_elem `{!SignalLaws E} toks s sg y :
  y ∈ slots (dropClientWatches toks s) sg ↔
  y ∈ slots s sg ∧
  ¬ ∃ t st p h, t ∈ toks ∧ jm_get t (watchesByToken (windows s)) = Some st ∧
      (p, h) ∈ ws_handlers st ∧ propSignal (ws_window st) p = Some sg ∧ y = SlotWindowProp h.
Proof.
  unfold dropClientWatches. revert s. induction toks as [|t0 toks IH]; intros s; simpl.
  - split; [|naive_solver]. intros Hy. split; [done|].
    by intros (t & st & p & h & Hin%elem_of_nil & _).
  - rewrite IH, dropTokenWatches_elem. setoid_rewrite dropTokenWatches_get.
    setoid_rewrite elem_of_cons. split.
    + intros [[Hy Hn0] Hn]. split; [done|].
      intros (t & st & p & h & [->|Ht] & Hst & Hrest); [apply Hn0; eauto|].
      destruct (decide (t0 = t)) as [->|Hne]; [apply Hn0; eauto|].
      apply Hn. exists t, st, p, h. by rewrite decide_False.
    + intros [Hy Hn]. split; [split; [done|]|].
      * intros (st & p & h & ?). apply Hn. exists t0, st, p, h. naive_solver.
      * intros (t & st & p & h & Ht & Hst & ?). apply Hn.
        exists t, st, p, h. case_decide; naive_solver.
Qed.

Lemma dropClientWatches_shrinks `{!SignalLaws E} toks s :
  shrinks s (dropClientWatches toks s).
Proof.
  apply (foldl_ind (shrinks s)); [done|]. intros s1 t _ H1. etrans; [exact H1|].
  unfold dropTokenWatches. case_goal; [|done].
  apply (foldl_ind (shrinks s1)); [done|]. intros s2 ph _ H2.
  etrans; [exact H2|apply try_disconnect_shrinks].
Qed.

(** ** Which watchable properties have a signal *)

Lemma propSignal_Some w prop sg :
  propSignal w prop = Some sg ↔
  prop +:+ "Changed" ∈ Window_signals ∧ sg = SigWindow w (prop +:+ "Changed").
Proof. apply signal_named_Some. Qed.

(** All but one: the declared signal is called [skipCloseAnimationChanged]. *)
Lemma propSignal_skipsCloseAnimation w : propSignal w "skipsCloseAnimation" = None.
Proof. done. Qed.

Lemma propSignal_watchable w prop :
  prop ∈ WATCH_PROPS → prop ≠ "skipsCloseAnimation" →
  propSignal w prop = Some (SigWindow w (prop +:+ "Changed")).
Proof.
  intros Hp Hne. apply propSignal_Some. split; [|done]. apply js_has_spec.
  unfold WATCH_PROPS in Hp. rewrite !elem_of_cons, elem_of_nil in Hp.
  by repeat destruct Hp as [->|Hp].
Qed.
End Windows.

#[export] Hint Resolve sendLog_watch_frame try_disconnect_frame dropTokenWatches_frame
  dropClientWatches_frame : script.
