(* ===== verification/Tokens.v ===== *)
(** * tokens.ts: claiming windows with tokens

    A token is requested by a client, validated by the first window whose
    caption starts with it, and leaves the registry when it times out, its
    window closes, a second window matches it in time, or another token is
    validated on its window.  [byToken] and [byWindow] hold references to the
    shared [TokenEntry] objects, whose [deadlineTimer] decides whether the
    validate window is still open. *)
From S2P Require Export Windows.
From Stdlib Require Import Ascii.

(** [String(internalId).replace(/[{}]/g, "")] *)
Fixpoint strip_braces (x : string) : string :=
  match x with
  | EmptyString => EmptyString
  | String c x =>
    if (Ascii.eqb c "{" || Ascii.eqb c "}")%char then strip_braces x
    else String c (strip_braces x)
  end.

Definition TOKEN_LENGTH : nat := 20.
Definition TOKEN_ALPHABET : string :=
  "ABCDEFGHIJKLMNOPQRSTUVWXYZabcdefghijklmnopqrstuvwxyz0123456789+/".
Definition MAX_VALIDATE_TIMEOUT_MS : Z := 3600000.
Definition COARSE_TIMER : Z := 1.

Section Tokens.
Context {E : Env}.
Implicit Types (s : state) (w : window) (e : positive).

Definition TokenRequestSchema : schema Z :=
  ZObject1 "timeout" (ZIntRange 1 MAX_VALIDATE_TIMEOUT_MS).

Definition windowKey (w : window) : string := strip_braces (internalId w).

Definition windowInfo (w : window) (s : state) : value :=
  Obj [("caption", Str (captionNormal (world (host s)) w))].

(** [TOKEN_ALPHABET[Math.floor(Math.random() * TOKEN_ALPHABET.length)]];
    adding an absent character appends "undefined". *)
Definition random_char (n : nat) : string :=
  let i := Qfloor (Math_random n * inject_Z (Z.of_nat (String.length TOKEN_ALPHABET))) in
  match String.get (Z.to_nat i) TOKEN_ALPHABET with
  | Some c => if 0 <=? i then String c EmptyString else "undefined"
  | None => "undefined"
  end.

(** The inner loop, from the n-th draw on: [k] characters. *)
Fixpoint random_token (k n : nat) : string :=
  match k with
  | O => ""
  | S k => random_char n +:+ random_token k (S n)
  end.

(** The outer loop resamples on a duplicate, [gas] times at most. *)
Fixpoint generateToken (gas : nat) : M string := λ s,
  match gas with
  | O => (OutOfFuel, s)
  | S gas =>
    let token := random_token TOKEN_LENGTH (draws (host s)) in
    let s := upd_host (upd_draws (λ n, (n + TOKEN_LENGTH)%nat)) s in
    if negb (jm_has token (byToken (tokens s))) then (Ret token, s)
    else generateToken gas s
  end.

(** ** The objects *)

Definition entry_at (e : positive) (s : state) : option TokenEntry :=
  entries (tokens s) !! e.

Definition upd_entry (e : positive) (f : TokenEntry → TokenEntry) (s : state) : state :=
  upd_tokens (upd_entries (alter f e)) s.

Definition bind_entry (w : window) (en : TokenEntry) : TokenEntry :=
  MkTokenEntry _ (te_token en) (te_conn en) active (Some w) (te_deadlineTimer en).

Definition upd_timer (f : QTimer → QTimer) (en : TokenEntry) : TokenEntry :=
  MkTokenEntry _ (te_token en) (te_conn en) (te_state en) (te_window en)
    (f (te_deadlineTimer en)).

(** [if (entry.state === "active" && entry.window)
       byWindow.delete(windowKey(entry.window))] *)
Definition forget_window (en : TokenEntry) (s : state) : state :=
  match te_state en, te_window en with
  | active, Some w => upd_tokens (upd_byWindow (jm_delete (windowKey w))) s
  | _, _ => s
  end.

(** ** The state machine *)

Definition invalidated_params (en : TokenEntry) (reason : TokenReason) (s : state) : value :=
  Obj [("token", Str (te_token en));
       ("reason", Str (TokenReason_string reason));
       ("window", match te_window en with Some w => windowInfo w s | None => Null end)].

Definition validated_params (en : TokenEntry) (w : window) (s : state) : value :=
  Obj [("token", Str (te_token en)); ("window", windowInfo w s)].

(** Remove a token from the registry and notify its owner. *)
Definition invalidate (e : positive) (reason : TokenReason) (s : state) : state :=
  match entry_at e s with
  | None => s
  | Some en =>
    let s := upd_entry e (upd_timer timer_stop) s in
    let s := forget_window en s in
    let s := upd_tokens (upd_byToken (jm_delete (te_token en))) s in
    let s := dropClientWatches [te_token en] s in
    let s := notifyClient (te_conn en) "token.invalidated"
               (invalidated_params en reason s) s in
    sendLog "info" ("token " +:+ te_token en +:+ " invalidated ("
      +:+ TokenReason_string reason +:+ ") for client "
      +:+ number_to_string (conn_id (te_conn en))) s
  end.

(** Bind a token to its window and notify the owner. *)
Definition validate (e : positive) (w : window) (s : state) : state :=
  match entry_at e s with
  | None => s
  | Some en =>
    let key := windowKey w in
    let s := match jm_get key (byWindow (tokens s)) with
      | Some existing =>
        if decide (existing = e) then s else invalidate existing superseded s
      | None => s
      end in
    let s := upd_entry e (bind_entry w) s in
    let s := upd_tokens (upd_byWindow (jm_set key e)) s in
    let s := notifyClient (te_conn en) "token.validated" (validated_params en w s) s in
    sendLog "info" ("token " +:+ te_token en +:+ " validated for client "
      +:+ number_to_string (conn_id (te_conn en)) +:+ " on " +:+ key) s
  end.

(** On every caption change and on window creation. *)
Definition checkCaption (w : window) (s : state) : state :=
  let caption := captionNormal (world (host s)) w in
  if (String.length caption <? TOKEN_LENGTH)%nat then s else
  let prefix := String.substring 0 TOKEN_LENGTH caption in
  match jm_get prefix (byToken (tokens s)) with
  | None => s
  | Some e =>
    match entry_at e s with
    | None => s
    | Some en =>
      if negb (timer_active (te_deadlineTimer en)) then s else
      match te_window en with
      | None => validate e w s
      | Some w' => if decide (w' = w) then s else invalidate e ambiguous s
      end
    end
  end.

(** The slot of a token's [deadlineTimer.timeout]. *)
Definition onTokenDeadline (e : positive) (s : state) : state :=
  match entry_at e s with
  | None => s
  | Some en =>
    match te_state en with
    | pending => invalidate e timeout s
    | active => s
    end
  end.

Definition onWindowAdded (w : window) (s : state) : state :=
  let s := connect (SigWindow w "captionNormalChanged") (SlotCaption w) s in
  checkCaption w s.

Definition onWindowRemoved (w : window) (s : state) : state :=
  match jm_get (windowKey w) (byWindow (tokens s)) with
  | Some e => invalidate e window_closed s
  | None => s
  end.

(** ** A client is gone *)

(** The entries [byToken.forEach] collects, in the map's order. *)
Definition client_entries (clientId : number) (s : state) : list (positive * TokenEntry) :=
  omap (λ te : string * positive,
    match entry_at (snd te) s with
    | Some en =>
      if decide (conn_id (te_conn en) = clientId) then Some (snd te, en) else None
    | None => None
    end) (byToken (tokens s)).

Definition drop_entry (een : positive * TokenEntry) (s : state) : state :=
  let '(e, en) := een in
  let s := upd_entry e (upd_timer timer_stop) s in
  let s := forget_window en s in
  upd_tokens (upd_byToken (jm_delete (te_token en))) s.

Definition dropClientTokens (clientId : number) (s : state) : state :=
  let removed := client_entries clientId s in
  let s := foldl (λ s een, drop_entry een s) s removed in
  let s := dropClientWatches (map (λ een, te_token (snd een)) removed) s in
  if (0 <? length removed)%nat then
    sendLog "info" ("client " +:+ number_to_string clientId +:+ " disconnected: dropped "
      +:+ pretty (length removed) +:+ " token(s)") s
  else s.

(** ** Using a token *)

Definition InvalidParams : Z := -32602.

Definition resolveTokenWindow (token : string) (c : conn) : M window := λ s,
  let quoted := quote +:+ token +:+ quote in
  match jm_get token (byToken (tokens s)) ≫= λ e, entry_at e s with
  | None =>
    throw (RpcError ("invalid params: unknown token " +:+ quoted) InvalidParams Undefined) s
  | Some en =>
    if decide (te_conn en ≠ c) then
      throw (RpcError ("invalid params: token " +:+ quoted +:+ " belongs to another client")
        InvalidParams Undefined) s
    else
      match te_state en, te_window en with
      | active, Some w => ret w s
      | _, _ =>
        throw (RpcError ("invalid params: token " +:+ quoted +:+ " is not bound to a window")
          InvalidParams Undefined) s
      end
  end.

(** The handler of [token.request]. *)
Definition token_request (gas : nat) (params : Z) (c : conn) : M value :=
  (token ← generateToken gas;
   λ s,
    let deadlineTimer := timer_new in
    let deadlineTimer := timer_set_singleShot true deadlineTimer in
    let deadlineTimer := timer_set_timerType COARSE_TIMER deadlineTimer in
    let deadlineTimer := timer_set_interval params deadlineTimer in
    let deadlineTimer := timer_start deadlineTimer in
    let e := fresh (host s) in
    let entry := MkTokenEntry _ token c pending None deadlineTimer in
    let s := upd_host (upd_fresh Pos.succ) s in
    let s := upd_tokens (upd_entries (<[e := entry]>)) s in
    let s := upd_tokens (upd_byToken (jm_set token e)) s in
    let s := sendLog "info" ("token.request from client "
      +:+ number_to_string (conn_id c) +:+ ": token=" +:+ token
      +:+ " timeout=" +:+ pretty params +:+ "ms") s in
    ret (Obj [("token", Str token)]) s)%script.

(** ** Script load *)

Definition wireWindowEvents : M unit :=
  (load_connect (SigWorkspace "windowAdded") SlotWindowAdded;;
   load_connect (SigWorkspace "windowRemoved") SlotWindowRemoved;;
   kwin_access ReadWindowList;;
   s ← get;
   mfor (workspace_windowList (world (host s))) (λ w,
     load_connect (SigWindow w "captionNormalChanged") (SlotCaption w)))%script.

Definition load_tokens (s : state) : state :=
  try_catch (wireWindowEvents;; modify (sendLog "info" "tokens: window events wired"))%script
    (λ error, sendLog "error" ("tokens: cannot wire window events: " +:+ exn_to_string error)) s.
End Tokens.

(** The [internalId] of a window, less the braces, identifies it. *)
Class WindowIdLaws (E : Env) : Prop := {
  windowKey_inj w w' : windowKey w = windowKey w' → w = w';
}.

Lemma strip_braces_repeat n x :
  strip_braces (repeat_char n "i"%char +:+ x) = repeat_char n "i"%char +:+ strip_braces x.
Proof. induction n as [|n IH]; simpl; [done|]. by rewrite IH. Qed.

#[export] Instance RefEnv_windowId : WindowIdLaws RefEnv.
Proof.
  assert (Hk : ∀ w, windowKey w = repeat_char (Pos.to_nat (win_ref w)) "i"%char +:+ "").
  { intros w. exact (strip_braces_repeat (Pos.to_nat (win_ref w)) "}"). }
  split. intros [p] [q]. rewrite !Hk. cbn [win_ref]. intros Heq. f_equal. apply Pos2Nat.inj.
  revert Heq. generalize (Pos.to_nat p) (Pos.to_nat q). clear.
  intros m. induction m as [|m IH]; intros [|n]; try done. simpl. intros [= Heq].
  f_equal. by apply IH.
Qed.
