(* ===== verification/Workspace.v ===== *)
(** * workspace.ts: workspace properties and their listeners

    The values of the four workspace properties, the validation of an update,
    and the registry of [workspace.watch] listeners, which is per client.  The
    JSON-RPC methods of the file are in Methods.v. *)
From S2P Require Export Tokens.

Section Workspace.
Context {E : Env}.
Implicit Types (s : state).

Definition WORKSPACE_UPDATE_PROPS : list string :=
  ["currentDesktop"; "currentActivity"].

Definition WORKSPACE_QUERY_PROPS : list string :=
  ["currentDesktop"; "currentActivity"; "desktops"; "activities"].

Definition WORKSPACE_WATCH_PROPS : list string :=
  ["currentDesktop"; "currentActivity"; "desktops"; "activities"].

Definition workspaceValue (prop : string) (s : state) : value :=
  let W := world (host s) in
  if decide (prop = "currentDesktop") then Str (desktop_id (workspace_currentDesktop W))
  else if decide (prop = "currentActivity") then Str (workspace_currentActivity W)
  else if decide (prop = "desktops") then
    Arr (map (λ d, Str (desktop_id d)) (workspace_desktops W))
  else Arr (map Str (workspace_activities W)).

(** [invalidParams], of windows.ts and of workspace.ts. *)
Definition invalidParams {A} (message : string) : M A :=
  throw (RpcError ("invalid params: " +:+ message) InvalidParams Undefined).

Definition validateId (prop : string) (v : value) : M string := λ s,
  match v with
  | Str id =>
    if bool_decide (prop = "currentDesktop") && negb (bool_decide (is_Some (lookupDesktop id s)))
    then invalidParams ("unknown desktop ID " +:+ quote +:+ id +:+ quote) s
    else if bool_decide (prop = "currentActivity") && negb (hasActivity id s)
    then invalidParams ("unknown activity ID " +:+ quote +:+ id +:+ quote) s
    else ret id s
  | _ => invalidParams ("property " +:+ quote +:+ prop +:+ quote +:+ " expects an ID (string)") s
  end.

(** [workspace[prop + "Changed"]], cast to a signal. *)
Definition workspaceSignal (prop : string) : option signal :=
  signal_named WorkspaceWrapper_signals SigWorkspace (prop +:+ "Changed").

(** The body of a [handler] closure. *)
Definition run_ws_handler (h : ws_handler) (s : state) : state :=
  notifyClient (sh_conn h) "workspace.changed"
    (Obj [("property", Str (sh_prop h)); ("value", workspaceValue (sh_prop h) s)]) s.

(** Here the [disconnect] is not in a [try]: its exception propagates and
    leaves the registry unchanged. *)
Definition ws_setWatch (c : conn) (prop : string) (enable : bool) : M bool := λ s,
  let hs := jm_get (conn_id c) (watchesByClient (wspace s)) in
  if enable then
    let handlers := match hs with Some handlers => handlers | None => jm_empty end in
    let s := match hs with
      | Some _ => s
      | None => upd_wspace (upd_watchesByClient (jm_set (conn_id c) handlers)) s
      end in
    if negb (jm_has prop handlers) then
      let handler := WsHandler (fresh (host s)) c prop in
      let s := upd_host (upd_fresh Pos.succ) s in
      match workspaceSignal prop with
      | None => throw (HostError (undefined_call "connect")) s
      | Some sg =>
        let s := connect sg (SlotWorkspaceProp handler) s in
        let s := upd_wspace (upd_watchesByClient
          (jm_set (conn_id c) (jm_set prop handler handlers))) s in
        ret true (sendLog "info" ("workspace.watch: client " +:+ number_to_string (conn_id c)
          +:+ " watches " +:+ prop) s)
      end
    else ret true s
  else
    match hs with
    | None => ret false s
    | Some handlers =>
      match jm_get prop handlers with
      | None => ret false s
      | Some handler =>
        match disconnect_from (workspaceSignal prop) (SlotWorkspaceProp handler) s with
        | inr error => throw (HostError error) s
        | inl t =>
          let s := upd_host (upd_signals (λ _, t)) s in
          let handlers := jm_delete prop handlers in
          let s := upd_wspace (upd_watchesByClient (
            if decide (jm_size handlers = 0%nat) then jm_delete (conn_id c)
            else jm_set (conn_id c) handlers)) s in
          ret false (sendLog "info" ("workspace.watch: client "
            +:+ number_to_string (conn_id c) +:+ " no longer watches " +:+ prop) s)
        end
      end
    end.

(** [try { workspaceSignal(prop).disconnect(handler) } catch ...] *)
Definition ws_try_disconnect (clientId : number) (prop : string) (h : ws_handler)
    (s : state) : state :=
  match disconnect_from (workspaceSignal prop) (SlotWorkspaceProp h) s with
  | inl t => upd_host (upd_signals (λ _, t)) s
  | inr error =>
    sendLog "warn" ("workspace.watch: cannot disconnect " +:+ prop +:+ " for client "
      +:+ number_to_string clientId +:+ ": " +:+ error) s
  end.

Definition dropClientWorkspaceWatches (clientId : number) (s : state) : state :=
  match jm_get clientId (watchesByClient (wspace s)) with
  | None => s
  | Some handlers =>
    let s := foldl (λ s ph, ws_try_disconnect clientId (fst ph) (snd ph) s) s handlers in
    upd_wspace (upd_watchesByClient (jm_delete clientId)) s
  end.

(** The watchable properties have the signal that [workspaceSignal] reads. *)
Lemma workspaceSignal_watchable prop :
  prop ∈ WORKSPACE_WATCH_PROPS → workspaceSignal prop = Some (SigWorkspace (prop +:+ "Changed")).
Proof.
  intros Hp. apply signal_named_Some. split; [|done]. apply js_has_spec.
  unfold WORKSPACE_WATCH_PROPS in Hp. rewrite !elem_of_cons, elem_of_nil in Hp.
  by repeat destruct Hp as [->|Hp].
Qed.
End Workspace.
