(* ===== verification/JsonRpc.v ===== *)
(** * jsonrpc.ts: the shared JSON-RPC layer

    [registerMethod] wraps a handler with the zod validation of its params;
    [dispatchMessage] hands a client's message to json-rpc-2.0's server and
    sends the response, if any, back.  The server itself ([receive]) is the
    package's: [JsonRpcApi] is its type over a table of methods, and
    [JsonRpcLaws] what the package documents of it. *)
From S2P Require Export Workspace.

Section JsonRpc.
Context {E : Env}.
Implicit Types (s : state).

(** A registered method: the raw params and the calling connection. *)
Definition method : Type := value → conn → M value.

(** The detail of an Invalid params error. *)
Definition issue_detail (i : issue) : string :=
  (if decide (issue_path i = []) then "(root)" else join "." (issue_path i))
  +:+ ": " +:+ issue_message i.

Definition invalid_params_error (issues : list issue) : exn :=
  RpcError ("invalid params: " +:+ join "; " (map issue_detail issues))
    InvalidParams (Arr (map issue_value issues)).

(** The function [registerMethod] gives to [addMethod]. *)
Definition registerMethod {Params} (sch : schema Params)
    (handler : Params → conn → M value) : method := λ rawParams c,
  match safeParse sch rawParams with
  | inr issues => throw (invalid_params_error issues)
  | inl data => handler data c
  end.

(** The server's [errorListener]. *)
Definition errorListener (message : string) (error : exn) (s : state) : state :=
  match error with
  | RpcError _ _ _ => s
  | HostError _ =>
    sendLog "warn" ("jsonrpc: unexpected error: " +:+ message +:+ " "
      +:+ exn_to_string error) s
  end.

(** One step of the script's code that [receive] can take for [c]. *)
Inductive method_call (methods : jsmap string method) (c : conn) : state → state → Prop :=
| call_method name f params s :
  jm_get name methods = Some f →
  method_call methods c s (snd (f params c s))
| call_listener message error s :
  method_call methods c s (errorListener message error s).

(** A single request, as a client sends it. *)
Definition request (id : option value) (name : string) (params : value) : value :=
  Obj ([("jsonrpc", Str "2.0")] ++
       match id with Some i => [("id", i)] | None => [] end ++
       [("method", Str name); ("params", params)]).

Definition success_response (id result : value) : value :=
  Obj [("jsonrpc", Str "2.0"); ("id", id); ("result", result)].

Definition error_response (id : value) (code : Z) (message : string) (data : value) : value :=
  Obj [("jsonrpc", Str "2.0"); ("id", id);
       ("error", Obj ([("code", Num (NInt code)); ("message", Str message)] ++
          match data with Undefined => [] | _ => [("data", data)] end))].
End JsonRpc.

(** json-rpc-2.0's [JSONRPCServer.receive] on a method table. *)
Class JsonRpcApi (E : Env) := {
  receive : jsmap string method → value → conn → M (option value);
}.

(** The server touches the script only by calling a registered method, or the
    error listener, on behalf of the given connection; a request with an id is
    answered with that id: by the method's result, or by the code, message and
    data of the [JSONRPCErrorException] it threw. *)
Class JsonRpcLaws (E : Env) (J : JsonRpcApi E) : Prop := {
  receive_calls methods m c s :
    rtc (method_call methods c) s (snd (receive methods m c s));
  receive_result methods id name f params c s v s' :
    id ≠ Undefined → jm_get name methods = Some f → f params c s = (Ret v, s') →
    receive methods (request (Some id) name params) c s =
      (Ret (Some (success_response id v)), s');
  receive_error methods id name f params c s msg code data s' :
    id ≠ Undefined → jm_get name methods = Some f →
    f params c s = (Throw (RpcError msg code data), s') →
    receive methods (request (Some id) name params) c s =
      (Ret (Some (error_response id code msg data)), s');
  receive_notification methods name f params c s v s' :
    jm_get name methods = Some f → f params c s = (Ret v, s') →
    receive methods (request None name params) c s = (Ret None, s');
}.

Section Dispatch.
Context {E : Env}.

(** What [dispatchMessage] does with the awaited response. *)
Definition respond (c : conn) (response : option value) (s : state) : state :=
  match response with
  | None | Some Null | Some Undefined => s
  | Some (Arr entries) =>
    let kept := filter (λ entry, is_null (prop_get "id" entry) = false) entries in
    match kept with
    | [] => s
    | [r] => send c r s
    | _ => send c (Arr kept) s
    end
  | Some response =>
    if is_null (prop_get "id" response) then s else send c response s
  end.

(** The whole of [dispatchMessage], when nothing runs at its [await]. *)
Definition dispatchMessage {J : JsonRpcApi E} (methods : jsmap string method)
    (c : conn) (message : value) : M unit :=
  (response ← receive methods message c; modify (respond c response))%script.
End Dispatch.
