(* ===== verification/RefRpc.v ===== *)
(** * A reference JSON-RPC server

    A concrete [receive] in the manner of json-rpc-2.0: single requests and
    batches, unknown methods, invalid requests, and exceptions mapped to error
    responses.  It satisfies [JsonRpcLaws], which shows that the laws can hold
    together; the witnesses run the script on top of it. *)
From S2P Require Export JsonRpc.

Section RefRpc.
Context {E : Env}.
Implicit Types (s : state) (c : conn).

(** The [message] the server gives its error listener. *)
Definition ref_listener_message (m : value) : string :=
  "An unexpected error occurred while executing " +:+ value_to_string (prop_get "method" m).

Definition ref_single (methods : jsmap string method) (m : value) (c : conn)
    : M (option value) := λ s,
  let id := prop_get "id" m in
  let answer (r : value) := if is_undefined id then None else Some r in
  match prop_get "method" m with
  | Str name =>
    match jm_get name methods with
    | None => ret (answer (error_response id (-32601) "Method not found" Undefined)) s
    | Some f =>
      match f (prop_get "params" m) c s with
      | (Ret v, s) => ret (answer (success_response id v)) s
      | (Throw e, s) =>
        let s := errorListener (ref_listener_message m) e s in
        match e with
        | RpcError msg code data => ret (answer (error_response id code msg data)) s
        | HostError msg => ret (answer (error_response id 0 msg Undefined)) s
        end
      | (OutOfFuel, s) => (OutOfFuel, s)
      end
    end
  | _ => ret (Some (error_response Null (-32600) "Invalid Request" Undefined)) s
  end.

Fixpoint ref_batch (methods : jsmap string method) (ms : list value) (c : conn)
    : M (list value) := λ s,
  match ms with
  | [] => ret [] s
  | m :: ms =>
    (r ← ref_single methods m c;
     rs ← ref_batch methods ms c;
     ret (match r with Some r => r :: rs | None => rs end))%script s
  end.

Definition ref_receive (methods : jsmap string method) (m : value) (c : conn)
    : M (option value) :=
  match m with
  | Arr ms =>
    (rs ← ref_batch methods ms c;
     ret (match rs with [] => None | [r] => Some r | _ => Some (Arr rs) end))%script
  | _ => ref_single methods m c
  end.

Lemma ref_single_calls methods m c s :
  rtc (method_call methods c) s (snd (ref_single methods m c s)).
Proof.
  unfold ref_single. destruct (prop_get "method" m) as [| | | |name| |]; try done.
  destruct (jm_get name methods) as [f|] eqn:Hf; [|done].
  pose proof (call_method methods c name f (prop_get "params" m) s Hf) as Hcall.
  destruct (f (prop_get "params" m) c s) as [[v|e|] s']; simpl in Hcall; simpl.
  - by apply rtc_once.
  - eapply rtc_l; [exact Hcall|]. apply rtc_once.
    destruct e; apply call_listener.
  - by apply rtc_once.
Qed.

Lemma ref_batch_calls methods ms c s :
  rtc (method_call methods c) s (snd (ref_batch methods ms c s)).
Proof.
  revert s. induction ms as [|m ms IH]; intros s; simpl; [done|].
  unfold bind. pose proof (ref_single_calls methods m c s) as Hm.
  destruct (ref_single methods m c s) as [[r|e|] s1]; simpl in *; [|done|done].
  pose proof (IH s1) as Hms. destruct (ref_batch methods ms c s1) as [[rs|e|] s2];
    simpl in *; by etrans.
Qed.

#[export] Instance RefRpc : JsonRpcApi E := {| receive := ref_receive |}.

Lemma request_fields id name params :
  prop_get "id" (request id name params) = default Undefined id ∧
  prop_get "method" (request id name params) = Str name ∧
  prop_get "params" (request id name params) = params.
Proof. by destruct id. Qed.

Lemma ref_single_request methods id name f params c s :
  jm_get name methods = Some f →
  ref_receive methods (request id name params) c s =
  match f params c s with
  | (Ret v, s) =>
    (Ret (if is_undefined (default Undefined id) then None
          else Some (success_response (default Undefined id) v)), s)
  | (Throw (RpcError msg code data), s) =>
    (Ret (if is_undefined (default Undefined id) then None
          else Some (error_response (default Undefined id) code msg data)), s)
  | (Throw (HostError msg), s) =>
    (Ret (if is_undefined (default Undefined id) then None
          else Some (error_response (default Undefined id) 0 msg Undefined)),
     errorListener (ref_listener_message (request id name params)) (HostError msg) s)
  | (OutOfFuel, s) => (OutOfFuel, s)
  end.
Proof.
  intros Hf. destruct (request_fields id name params) as (Hid & Hm & Hp).
  change (ref_receive methods (request id name params) c s)
    with (ref_single methods (request id name params) c s).
  unfold ref_single. rewrite Hid, Hm, Hp, Hf.
  by destruct (f params c s) as [[v|[]|] s'].
Qed.

#[export] Instance RefRpc_laws : JsonRpcLaws E RefRpc.
Proof.
  split.
  - intros methods m c s. change (receive methods m c s) with (ref_receive methods m c s).
    destruct m as [| | | | |ms|fields]; try exact (ref_single_calls methods _ c s).
    cbn [ref_receive].
    unfold bind. pose proof (ref_batch_calls methods ms c s) as Hb.
    by destruct (ref_batch methods ms c s) as [[rs|e|] s'].
  - intros methods id name f params c s v s' Hid Hf Hr. cbn [receive RefRpc].
    rewrite (ref_single_request _ _ _ f) by done. rewrite Hr. simpl. by destruct id.
  - intros methods id name f params c s msg code data s' Hid Hf Hr. cbn [receive RefRpc].
    rewrite (ref_single_request _ _ _ f) by done. rewrite Hr. simpl. by destruct id.
  - intros methods name f params c s v s' Hf Hr. cbn [receive RefRpc].
    rewrite (ref_single_request _ _ _ f) by done. by rewrite Hr.
Qed.
End RefRpc.
