(* ===== verification/Events.v ===== *)
(** * Signals: what the script does when KWin emits one

    [run_slot] is the code behind each connected function; [fire] runs the
    slots of an emission in connection order, skipping those disconnected
    meanwhile, as Qt does.  An assignment to a KWin property makes KWin emit
    signals before it returns, so the script's slots run inside it
    ([assign_property]). *)
From S2P Require Export JsonRpc.

Section Events.
Context {E : Env}.
Implicit Types (s : state).

Definition run_slot (x : slot) (em : emission) (s : state) : state :=
  match x, em with
  | SlotDesktopsChanged, _ => rescanDesktops s
  | SlotActivityAdded, EmActivityAdded id => onActivityAdded id s
  | SlotActivityRemoved, EmActivityRemoved id => onActivityRemoved id s
  | SlotWindowAdded, EmWindowAdded w => onWindowAdded w s
  | SlotWindowRemoved, EmWindowRemoved w => onWindowRemoved w s
  | SlotCaption w, _ => checkCaption w s
  | SlotWindowProp h, _ => run_win_handler h s
  | SlotWorkspaceProp h, _ => run_ws_handler h s
  | _, _ => s
  end.

Definition is_connected (sg : signal) (x : slot) (s : state) : bool :=
  bool_decide (x ∈ sig_slots (signals (host s)) sg).

Definition fire (em : emission) (s : state) : state :=
  foldl (λ s x, if is_connected (emission_signal em) x s then run_slot x em s else s) s
    (sig_slots (signals (host s)) (emission_signal em)).

(** KWin's state becomes [W] and [em] is emitted. *)
Definition deliver (W : World) (em : emission) (s : state) : state :=
  fire em (upd_host (upd_world (λ _, W)) s).

Definition assign_property (a : assignment) : M unit := λ s,
  match assign (world (host s)) a with
  | inl (ems, W) =>
    let s := foldl (λ s (We : World * emission), deliver (fst We) (snd We) s) s ems in
    ret tt (upd_host (upd_world (λ _, W)) s)
  | inr error => throw (HostError error) s
  end.
End Events.
