(* ===== verification/Methods.v ===== *)
(** * The JSON-RPC methods

    The handlers of windows.ts ([windows.update], [windows.query],
    [window.watch]) and of workspace.ts ([workspace.update],
    [workspace.query], [workspace.watch]), their zod schemas, and the table of
    all registered methods ([token.request] is in Tokens.v). *)
From S2P Require Export Events.

Section Methods.
Context {E : Env}.
Implicit Types (s : state) (w : window).

(** ** windows.ts *)

Definition UpdateParamsSchema : schema (string * list (string * value)) :=
  ZTuple2 ZString (ZRecord ZUnknown).
Definition QueryParamsSchema : schema (string * list string) :=
  ZTuple2 ZString (ZArray ZString).
Definition WatchParamsSchema : schema (string * list (string * bool)) :=
  ZTuple2 ZString (ZRecord ZBoolean).

(** [value as string[]] *)
Definition as_strings (v : value) : list string :=
  match v with
  | Arr l => omap (λ x, match x with Str x => Some x | _ => None end) l
  | _ => []
  end.

Definition is_string (v : value) : bool :=
  match v with Str _ => true | _ => false end.

Definition validate_one_id (prop : string) (id : string) : M unit := λ s,
  if bool_decide (prop = "desktops") && negb (jm_has id (desktopsById (windows s)))
  then invalidParams ("unknown desktop ID " +:+ quote +:+ id +:+ quote) s
  else if bool_decide (prop = "activities") && negb (js_has id (activitiesById (windows s)))
  then invalidParams ("unknown activity ID " +:+ quote +:+ id +:+ quote) s
  else ret tt s.

Definition validateIdList (prop : string) (v : value) : M (list string) :=
  match v with
  | Arr l =>
    if forallb is_string l then
      (mfor (as_strings v) (validate_one_id prop);; ret (as_strings v))%script
    else invalidParams ("property " +:+ quote +:+ prop +:+ quote
           +:+ " expects an array of IDs (string[])")
  | _ => invalidParams ("property " +:+ quote +:+ prop +:+ quote
           +:+ " expects an array of IDs (string[])")
  end.

Definition applyUpdate (w : window) (prop : string) (v : value) : M unit := λ s,
  if decide (prop = "desktops") then
    assign_property (AsgnDesktops w
      (map (λ id, jm_get id (desktopsById (windows s))) (as_strings v))) s
  else if decide (prop = "activities") then
    assign_property (AsgnActivities w (as_strings v)) s
  else assign_property (AsgnProp w prop v) s.

(** The body of the first loop of [windows.update]. *)
Definition validate_update (pv : string * value) : M unit :=
  let '(prop, v) := pv in
  if negb (js_has prop UPDATE_PROPS) then
    invalidParams ("unsupported property " +:+ quote +:+ prop +:+ quote
      +:+ " in windows.update")
  else if bool_decide (prop = "desktops") || bool_decide (prop = "activities") then
    (validateIdList prop v;; ret tt)%script
  else ret tt.

Definition windows_update (params : string * list (string * value)) (c : conn) : M value :=
  let '(token, updateInfo) := params in
  (w ← resolveTokenWindow token c;
   mfor updateInfo validate_update;;
   mfor updateInfo (λ pv, applyUpdate w (fst pv) (snd pv));;
   modify (λ s,
     if (0 <? length (map fst updateInfo))%nat then
       sendLog "info" ("windows.update from client " +:+ number_to_string (conn_id c)
         +:+ ": token=" +:+ token +:+ " props=" +:+ join "," (map fst updateInfo)) s
     else s);;
   ret Null)%script.

(** The loop of [windows.query] and [workspace.query], over the names still
    to read, with [seen] and [result]. *)
Fixpoint query_loop (supported : list string) (method_name : string)
    (read : string → state → value) (names seen : list string)
    (result : list (string * value)) : M value := λ s,
  match names with
  | [] => ret (Obj result) s
  | prop :: names =>
    if negb (js_has prop supported) then
      invalidParams ("unsupported property " +:+ quote +:+ prop +:+ quote
        +:+ " in " +:+ method_name) s
    else if js_has prop seen then
      query_loop supported method_name read names seen result s
    else
      query_loop supported method_name read names (js_add prop seen)
        (jm_set prop (read prop s) result) s
  end.

Definition windows_query (params : string * list string) (c : conn) : M value :=
  let '(token, queryInfo) := params in
  (w ← resolveTokenWindow token c;
   query_loop QUERY_PROPS "windows.query" (propValue w) queryInfo [] [])%script.

(** The second loop of the watch methods, with [result] so far. *)
Fixpoint watch_loop (set : string → bool → M bool) (info : list (string * bool))
    (result : list (string * value)) : M value :=
  match info with
  | [] => ret (Obj result)
  | (prop, enable) :: info =>
    (b ← set prop enable;
     watch_loop set info (jm_set prop (Bool b) result))%script
  end.

Definition validate_watch (supported : list string) (suffix : string → string)
    (prop : string) : M unit :=
  if negb (js_has prop supported) then
    invalidParams ("unsupported property " +:+ quote +:+ prop +:+ quote +:+ suffix prop)
  else ret tt.

Definition window_watch (params : string * list (string * bool)) (c : conn) : M value :=
  let '(token, watchInfo) := params in
  (w ← resolveTokenWindow token c;
   mfor (map fst watchInfo) (validate_watch WATCH_PROPS (λ prop,
     " in window.watch (not a boolean property or no " +:+ prop +:+ "Changed signal)"));;
   watch_loop (setWatch token c w) watchInfo [])%script.

(** ** workspace.ts *)

Definition ws_UpdateParamsSchema : schema (list (string * value)) :=
  ZTuple1 (ZRecord ZUnknown).
Definition ws_QueryParamsSchema : schema (list string) := ZTuple1 (ZArray ZString).
Definition ws_WatchParamsSchema : schema (list (string * bool)) :=
  ZTuple1 (ZRecord ZBoolean).

Definition ws_validate_update (pv : string * value) : M unit :=
  let '(prop, v) := pv in
  if negb (js_has prop WORKSPACE_UPDATE_PROPS) then
    invalidParams ("unsupported property " +:+ quote +:+ prop +:+ quote
      +:+ " in workspace.update")
  else (validateId prop v;; ret tt)%script.

(** [value as string] *)
Definition as_string (v : value) : string :=
  match v with Str x => x | _ => "" end.

Definition ws_applyUpdate (prop : string) (v : value) : M unit := λ s,
  if decide (prop = "currentDesktop") then
    assign_property (AsgnCurrentDesktop (lookupDesktop (as_string v) s)) s
  else assign_property (AsgnCurrentActivity (as_string v)) s.

Definition workspace_update (updateInfo : list (string * value)) (c : conn) : M value :=
  (mfor updateInfo ws_validate_update;;
   mfor updateInfo (λ pv, ws_applyUpdate (fst pv) (snd pv));;
   modify (λ s,
     if (0 <? length (map fst updateInfo))%nat then
       sendLog "info" ("workspace.update from client " +:+ number_to_string (conn_id c)
         +:+ ": props=" +:+ join "," (map fst updateInfo)) s
     else s);;
   ret Null)%script.

Definition workspace_query (queryInfo : list string) (c : conn) : M value :=
  query_loop WORKSPACE_QUERY_PROPS "workspace.query" workspaceValue queryInfo [] [].

Definition workspace_watch (watchInfo : list (string * bool)) (c : conn) : M value :=
  (mfor (map fst watchInfo) (validate_watch WORKSPACE_WATCH_PROPS (λ prop,
     " in workspace.watch (no " +:+ prop +:+ "Changed signal)"));;
   watch_loop (ws_setWatch c) watchInfo [])%script.

(** ** The methods registered at script load *)
Definition methods (gas : nat) : jsmap string method := [
  ("windows.update", registerMethod UpdateParamsSchema windows_update);
  ("windows.query", registerMethod QueryParamsSchema windows_query);
  ("window.watch", registerMethod WatchParamsSchema window_watch);
  ("token.request", registerMethod TokenRequestSchema (token_request gas));
  ("workspace.update", registerMethod ws_UpdateParamsSchema workspace_update);
  ("workspace.query", registerMethod ws_QueryParamsSchema workspace_query);
  ("workspace.watch", registerMethod ws_WatchParamsSchema workspace_watch)].
End Methods.
