(* ===== verification/Traverse.v ===== *)
(** * Going through the code of a method

    What a relation on states needs to be kept by the loops, the checks and the
    seven methods: that the few functions that change the heap keep it.  The
    proofs that go through the code (Handlers.v, Registry.v, Access.v,
    Notices.v) share these lemmas. *)
From S2P Require Export Methods.

Section Combinators.
Context {E : Env}.
Implicit Types (s : state).

(** A relation that every piece of a handler keeps, the handler keeps. *)
Section Relation.
Context (R : relation state) `{!PreOrder R}.

Lemma foldl_rel {A} (f : state → A → state) (xs : list A) s :
  (∀ s x, R s (f s x)) → R s (foldl f s xs).
Proof.
  intros Hf. apply (foldl_ind (R s)); [reflexivity|].
  intros s' x _ H. etrans; [exact H|apply Hf].
Qed.

Lemma bind_rel {A B} (m : M A) (f : A → M B) s :
  R s (snd (m s)) →
  (∀ a s', m s = (Ret a, s') → R s' (snd (f a s'))) →
  R s (snd (bind m f s)).
Proof.
  intros Hm Hf. unfold bind. destruct (m s) as [[a|e|] s'] eqn:Hms; simpl in *; [|done|done].
  etrans; [exact Hm|]. by apply Hf.
Qed.

Lemma mfor_rel {A} (xs : list A) (f : A → M unit) s :
  (∀ x s, x ∈ xs → R s (snd (f x s))) → R s (snd (mfor xs f s)).
Proof.
  revert s. induction xs as [|x xs IH]; intros s Hf; simpl; [reflexivity|].
  apply bind_rel; [apply Hf; by left|]. intros _ s' _. apply IH.
  intros y s'' Hy. apply Hf. by right.
Qed.

Lemma pure_rel {A} (m : M A) s : pure_in m → R s (snd (m s)).
Proof. intros ->. reflexivity. Qed.
End Relation.

Lemma pure_bind {A B} (m : M A) (f : A → M B) :
  pure_in m → (∀ a, pure_in (f a)) → pure_in (bind m f).
Proof.
  intros Hm Hf s. unfold bind. specialize (Hm s).
  destruct (m s) as [[a|e|] s']; simpl in *; subst; [apply Hf|done|done].
Qed.

Lemma pure_mfor {A} (xs : list A) (f : A → M unit) :
  (∀ x, pure_in (f x)) → pure_in (mfor xs f).
Proof. intros Hf. induction xs as [|x xs IH]; simpl; [done|]. by apply pure_bind. Qed.

Lemma pure_result {A} (m : M A) s r s' : pure_in m → m s = (r, s') → s' = s.
Proof. intros Hm Hr. specialize (Hm s). by rewrite Hr in Hm. Qed.
End Combinators.

Section Checks.
Context {E : Env}.
Implicit Types (s : state) (c : conn) (w : window).

(** ** Validation has no effect *)

Lemma invalidParams_pure {A} m : pure_in (invalidParams (A := A) m).
Proof. done. Qed.

Lemma resolveTokenWindow_pure t c : pure_in (resolveTokenWindow t c).
Proof.
  intros s. unfold resolveTokenWindow. 
  destruct (_ ≫= _) as [en|]; [|done]. case_decide; [done|].
  by destruct (te_state en), (te_window en).
Qed.

Lemma validateId_pure p v : pure_in (validateId p v).
Proof. intros s. unfold validateId. destruct v; try done. by repeat case_goal. Qed.

Lemma validateIdList_pure p v : pure_in (validateIdList p v).
Proof.
  unfold validateIdList. destruct v; try done. case_goal; [|done].
  apply pure_bind; [|done]. apply pure_mfor. intros x s. unfold validate_one_id.
  by repeat case_goal.
Qed.

Lemma validate_update_pure pv : pure_in (validate_update pv).
Proof.
  destruct pv as [p v]. unfold validate_update. case_goal; [done|]. case_goal; [|done].
  apply pure_bind; [apply validateIdList_pure|done].
Qed.

Lemma ws_validate_update_pure pv : pure_in (ws_validate_update pv).
Proof.
  destruct pv as [p v]. unfold ws_validate_update. case_goal; [done|].
  apply pure_bind; [apply validateId_pure|done].
Qed.

Lemma validate_watch_pure supported suffix p : pure_in (validate_watch supported suffix p).
Proof. unfold validate_watch. by case_goal. Qed.

Lemma query_loop_pure supported name read ps seen r :
  pure_in (query_loop supported name read ps seen r).
Proof.
  revert seen r. induction ps as [|p ps IH]; intros seen r s; simpl; [done|].
  repeat case_goal; try done; apply IH.
Qed.

Lemma windows_query_pure params c : pure_in (windows_query params c).
Proof.
  destruct params as [t ps]. apply pure_bind; [apply resolveTokenWindow_pure|].
  intros w. apply query_loop_pure.
Qed.

Lemma workspace_query_pure params c : pure_in (workspace_query params c).
Proof. apply query_loop_pure. Qed.

(** ** What passes is supported *)

Lemma mfor_checked {A} (check : A → M unit) (P : A → Prop) (xs : list A) s s' :
  (∀ x s s', check x s = (Ret tt, s') → P x) →
  mfor xs check s = (Ret tt, s') → ∀ x, x ∈ xs → P x.
Proof.
  intros Hc. revert s. induction xs as [|x xs IH]; intros s; [by intros _ y ?%elem_of_nil|].
  cbn [mfor]. unfold bind at 1. destruct (check x s) as [[[]|e|] s1] eqn:Hx; [|by intros ?..].
  intros Hr y [->|Hy]%elem_of_cons; [by eapply Hc|by eapply IH].
Qed.

Lemma validate_update_supported pv s s' :
  validate_update pv s = (Ret tt, s') → fst pv ∈ UPDATE_PROPS.
Proof.
  destruct pv as [p v]. rewrite <- js_has_spec. unfold validate_update. cbn [fst].
  by destruct (js_has p UPDATE_PROPS).
Qed.

Lemma validate_watch_supported supported suffix p s s' :
  validate_watch supported suffix p s = (Ret tt, s') → p ∈ supported.
Proof. rewrite <- js_has_spec. unfold validate_watch. by destruct (js_has p supported). Qed.
End Checks.

(** ** The methods *)

Section Traverse.
Context {E : Env} (R : relation state) `{!PreOrder R}.
Implicit Types (s : state) (c : conn) (w : window).

(** A computation without effect, then [k] of what it returned. *)
Lemma checked_rel {A B} (m : M A) (k : A → M B) s :
  pure_in m → (∀ a, m s = (Ret a, s) → R s (snd (k a s))) → R s (snd (bind m k s)).
Proof.
  intros Hm Hk. apply (bind_rel R); [by apply (pure_rel R)|]. intros a s' Ha.
  assert (s' = s) as -> by (by eapply pure_result). by apply Hk.
Qed.

(** The loop of assignments, and the log that follows it. *)
Lemma update_loop_rel (apply_one : string → value → M unit)
    (info : list (string * value)) (b : bool) l m s :
  (∀ pv s, pv ∈ info → R s (snd (apply_one (fst pv) (snd pv) s))) →
  (∀ s, R s (sendLog l m s)) →
  R s (snd (bind (mfor info (λ pv, apply_one (fst pv) (snd pv))) (λ _,
    bind (modify (λ s, if b then sendLog l m s else s)) (λ _, ret Null)) s)).
Proof.
  intros Ha Hl. apply (bind_rel R); [by apply (mfor_rel R)|]. intros _ s1 _.
  destruct b; [apply Hl|reflexivity].
Qed.

Lemma windows_update_rel t info c s :
  (∀ w pv s', resolveTokenWindow t c s = (Ret w, s) → fst pv ∈ UPDATE_PROPS →
     R s' (snd (applyUpdate w (fst pv) (snd pv) s'))) →
  (∀ l m s', R s' (sendLog l m s')) →
  R s (snd (windows_update (t, info) c s)).
Proof.
  intros Ha Hl. apply checked_rel; [apply resolveTokenWindow_pure|]. intros w Hw.
  apply checked_rel; [apply pure_mfor, validate_update_pure|]. intros [] Hval.
  apply update_loop_rel; [|apply Hl]. intros pv s' Hpv. apply Ha; [done|].
  exact (mfor_checked validate_update (λ pv, fst pv ∈ UPDATE_PROPS) info s s
    validate_update_supported Hval pv Hpv).
Qed.

Lemma workspace_update_rel info c s :
  (∀ pv s', R s' (snd (ws_applyUpdate (fst pv) (snd pv) s'))) →
  (∀ l m s', R s' (sendLog l m s')) →
  R s (snd (workspace_update info c s)).
Proof.
  intros Ha Hl. apply checked_rel; [apply pure_mfor, ws_validate_update_pure|]. intros [] _.
  by apply update_loop_rel.
Qed.

(** The loop of the watch methods, for a [set] that keeps [P]. *)
Lemma watch_loop_rel (P : state → Prop) set info r s :
  (∀ p b s, p ∈ map fst info → P s → R s (snd (set p b s)) ∧ P (snd (set p b s))) →
  P s → R s (snd (watch_loop set info r s)).
Proof.
  revert r s. induction info as [|[p b] info IH]; intros r s Hset HP; [reflexivity|].
  cbn [watch_loop]. destruct (Hset p b s ltac:(by left) HP) as [Hg HP'].
  apply (bind_rel R); [exact Hg|]. intros b' s' Hs'. rewrite Hs' in HP'.
  apply IH; [|exact HP']. intros p' b'' s'' Hp'. apply Hset. by right.
Qed.

Lemma window_watch_rel t info c s :
  (∀ w p b s', resolveTokenWindow t c s = (Ret w, s) → p ∈ WATCH_PROPS → tokens s' = tokens s →
     R s' (snd (setWatch t c w p b s')) ∧ tokens (snd (setWatch t c w p b s')) = tokens s') →
  R s (snd (window_watch (t, info) c s)).
Proof.
  intros Hset. apply checked_rel; [apply resolveTokenWindow_pure|]. intros w Hw.
  apply checked_rel; [apply pure_mfor; intros ?; apply validate_watch_pure|]. intros [] Hval.
  apply (watch_loop_rel (λ s', tokens s' = tokens s)); [|done]. intros p b s' Hp Ht.
  destruct (Hset w p b s' Hw) as [HR Hs']; [|done|split; [done|congruence]].
  exact (mfor_checked _ (λ p, p ∈ WATCH_PROPS) _ s s
    (validate_watch_supported WATCH_PROPS _) Hval p Hp).
Qed.

Lemma workspace_watch_rel info c s :
  (∀ p b s', p ∈ WORKSPACE_WATCH_PROPS → R s' (snd (ws_setWatch c p b s'))) →
  R s (snd (workspace_watch info c s)).
Proof.
  intros Hset. apply checked_rel; [apply pure_mfor; intros ?; apply validate_watch_pure|].
  intros [] Hval. apply (watch_loop_rel (λ _, True)); [|done]. intros p b s' Hp _.
  split; [|done]. apply Hset.
  exact (mfor_checked _ (λ p, p ∈ WORKSPACE_WATCH_PROPS) _ s s
    (validate_watch_supported WORKSPACE_WATCH_PROPS _) Hval p Hp).
Qed.
End Traverse.

(** What a call of a registered method for [c] can come to. *)
Inductive method_effect {E : Env} (gas : nat) (c : conn) (s : state) : state → Prop :=
| me_nothing : method_effect gas c s s
| me_windows_update t info : method_effect gas c s (snd (windows_update (t, info) c s))
| me_window_watch t info : method_effect gas c s (snd (window_watch (t, info) c s))
| me_token_request timeout : method_effect gas c s (snd (token_request gas timeout c s))
| me_workspace_update info : method_effect gas c s (snd (workspace_update info c s))
| me_workspace_watch info : method_effect gas c s (snd (workspace_watch info c s)).

Lemma methods_effect {E : Env} gas name f params c (s : state) :
  jm_get name (methods gas) = Some f → method_effect gas c s (snd (f params c s)).
Proof.
  intros Hf%jm_get_elem. unfold methods in Hf. rewrite !elem_of_cons, elem_of_nil in Hf.
  repeat destruct Hf as [[= -> ->]|Hf]; [..|done];
    unfold registerMethod; destruct (safeParse _ params) as [x|]; try constructor;
    try (destruct x; constructor).
  - rewrite (windows_query_pure x c s). constructor.
  - rewrite (workspace_query_pure x c s). constructor.
Qed.
