(* ===== verification/Clients.v ===== *)
(** * clients.ts and index.ts: the client registry and the message loops

    The script has one coroutine that polls [/daemon] for connect and
    disconnect events, and one per client that polls [/cli{id}] and dispatches
    the client's messages.  A coroutine is a state ([control_loop], [loop])
    and one function per resumption: [control_polled] continues
    [startControlLoop] after its [await pollDaemon()], [run_responded]
    continues [run] after [await rpcServer.receive(...)], and so on.  Each
    runs to the next [await]. *)
From S2P Require Export Methods.

Section Clients.
Context {E : Env} {J : JsonRpcApi E} (gas : nat).
Implicit Types (s : state) (c : conn).

(** ** [ClientConnection.run] *)

Definition set_loop (c : conn) (l : loop) (s : state) : state :=
  upd_clients (upd_loops (<[c := l]>)) s.

Definition client_log (level : string) (id : number) (message : string) (s : state) : state :=
  sendLog level ("rpc: client " +:+ number_to_string id +:+ message) s.

(** [while (this.alive)], and the call of [pollClient]. *)
Definition run_head (c : conn) (s : state) : state :=
  if is_alive c s
  then set_loop c LPoll (emit (ECall (poll_client_call (conn_id c))) s)
  else set_loop c LDone s.

Definition run_sleep (ms : Z) (c : conn) (s : state) : state :=
  set_loop c LSleep (emit (ESleep ms) s).

(** [for (const message of value)]: dispatch the next message, up to its
    [await]; at the end of the batch, yield. *)
Definition run_batch (c : conn) (batch : list value) (s : state) : state :=
  match batch with
  | [] => run_sleep 0 c s
  | message :: batch =>
    let '(r, s) := receive (methods gas) message c s in
    set_loop c (LRespond r batch) s
  end.

(** After [await pollClient(this.id)]. *)
Definition run_polled (c : conn) (r : settled) (s : state) : state :=
  match poll_outcome r with
  | Throw error =>
    if negb (is_alive c s) then set_loop c LDone s
    else run_sleep DBUS_RETRY_DELAY c
           (client_log "warn" (conn_id c) (" poll failed (" +:+ exn_to_string error
              +:+ "); retrying") s)
  | Ret v =>
    if negb (is_alive c s) then set_loop c LDone s
    else match v with
    | Arr batch => run_batch c batch s
    | Str error =>
      run_sleep DBUS_RETRY_DELAY c
        (client_log "warn" (conn_id c) (" poll() error: " +:+ error) s)
    | _ =>
      run_sleep DBUS_RETRY_DELAY c
        (client_log "warn" (conn_id c) ": unexpected poll() payload" s)
    end
  | OutOfFuel => s
  end.

(** After [await rpcServer.receive(...)]: the rest of [dispatchMessage], and
    the next message. *)
Definition run_responded (c : conn) (r : outcome (option value)) (batch : list value)
    (s : state) : state :=
  match r with
  | Ret response => run_batch c batch (respond c response s)
  | Throw error =>
    run_batch c batch
      (client_log "warn" (conn_id c) (" dispatch error: " +:+ exn_to_string error) s)
  | OutOfFuel => s
  end.

(** [stop()] *)
Definition stop (c : conn) (s : state) : state :=
  upd_clients (upd_alive (<[c := false]>)) s.

(** ** The registry *)

Definition onClientConnected (id : number) (s : state) : state :=
  if jm_has id (connections (clients s)) then s
  else
    let c := Conn (fresh (host s)) id in
    let s := upd_host (upd_fresh Pos.succ) s in
    let s := upd_clients (upd_alive (<[c := true]>)) s in
    let s := upd_clients (upd_connections (jm_set id c)) s in
    let s := client_log "info" id " connected" s in
    run_head c s.

Definition onClientDisconnected (id : number) (s : state) : state :=
  match jm_get id (connections (clients s)) with
  | None => s
  | Some c =>
    let s := stop c s in
    let s := upd_clients (upd_connections (jm_delete id)) s in
    let s := dropClientTokens id s in
    let s := dropClientWorkspaceWatches id s in
    client_log "info" id " disconnected" s
  end.

(** ** [startControlLoop] *)

Definition set_control (l : control_loop) (s : state) : state :=
  upd_clients (upd_control (λ _, l)) s.

Definition control_head (s : state) : state :=
  set_control CPoll (emit (ECall poll_daemon_call) s).

Definition control_sleep (ms : Z) (s : state) : state :=
  set_control CSleep (emit (ESleep ms) s).

(** The body of [for (const event of value)]. *)
Definition process_event (event : value) (s : state) : state :=
  if negb (bool_decide (typeof event = "object")) || is_null event then s
  else
    match prop_get "event" event, prop_get "id" event with
    | Str kind, Num id =>
      if decide (kind = "client_connected") then onClientConnected id s
      else if decide (kind = "client_disconnected") then onClientDisconnected id s
      else s
    | _, _ => s
    end.

(** After [await pollDaemon()]. *)
Definition control_polled (r : settled) (s : state) : state :=
  match poll_outcome r with
  | Throw error =>
    control_sleep DBUS_RETRY_DELAY
      (sendLog "warn" ("rpc: daemon control poll failed (" +:+ exn_to_string error
         +:+ "); retrying") s)
  | Ret (Arr events) =>
    control_sleep 0 (foldl (λ s event, process_event event s) s events)
  | Ret (Str error) =>
    control_sleep DBUS_RETRY_DELAY
      (sendLog "warn" ("rpc: daemon poll() error: " +:+ error) s)
  | Ret _ => control_head s
  | OutOfFuel => s
  end.

Definition startControlLoop (s : state) : state :=
  control_head (sendLog "info" "rpc: control loop started" s).

(** ** index.ts: what the bundle runs when KWin loads it. *)

Definition load_index (s : state) : state :=
  let s := sendLog "info" "kwinscript loaded" s in
  let s := emit (EPrint "[kwinscript] loaded by kwin-api-server") s in
  startControlLoop s.

(** The modules in the order of their imports; workspace.ts and clients.ts
    only define and register. *)
Definition load_script (s : state) : state :=
  load_index (load_tokens (load_windows s)).
End Clients.
