(* ===== verification/System.v ===== *)
(** * The running script

    [step] is everything that can happen to a loaded script: KWin changes
    state or emits a signal, a token's deadline timer fires, an awaited D-Bus
    call settles, a sleep ends.  Each runs one piece of the script's code to
    completion, as a JavaScript engine does; the pieces interleave freely.
    The invariants of the other files hold in every [reachable] state. *)
From S2P Require Export Clients.

Section System.
Context {E : Env} {J : JsonRpcApi E} (gas : nat).
Implicit Types (s : state) (c : conn).

(** The heap before the bundle runs. *)
Definition init_state (W : World) (sg : Signals) : state :=
  MkState _ (MkHost _ W sg 1 0) (MkTokens _ ∅ jm_empty jm_empty)
    (MkWindows jm_empty [] jm_empty) (MkWspace jm_empty)
    (MkClients ∅ jm_empty ∅ CNotStarted) [].

(** The deadline timer of an entry: Qt updates the timer, then runs its slot. *)
Definition deadline_fires (e : positive) (s : state) : state :=
  onTokenDeadline e (upd_entry e (upd_timer timer_timeout) s).

Inductive step : state → state → Prop :=
| step_world W s : step s (upd_host (upd_world (λ _, W)) s)
| step_signal W em s : step s (deliver W em s)
| step_deadline e en s :
  entry_at e s = Some en → timer_active (te_deadlineTimer en) = true →
  step s (deadline_fires e s)
| step_control_polled r s :
  control (clients s) = CPoll → step s (control_polled r s)
| step_control_wakes s :
  control (clients s) = CSleep → step s (control_head s)
| step_client_polled c r s :
  loops (clients s) !! c = Some LPoll → step s (run_polled gas c r s)
| step_client_responds c r batch s :
  loops (clients s) !! c = Some (LRespond r batch) →
  step s (run_responded gas c r batch s)
| step_client_wakes c s :
  loops (clients s) !! c = Some LSleep → step s (run_head c s)
| step_log_settles r s : step s (sendLog_settled r s)
| step_push_settles id r s : step s (snd (push_settled id r s)).

(** ** The same, as a function

    A [move] names what happens; [perform] is [None] when it cannot happen. *)
Inductive move :=
| MvWorld (W : World)
| MvSignal (W : World) (em : emission)
| MvDeadline (e : positive)
| MvControlPolled (r : settled)
| MvControlWakes
| MvClientPolled (c : conn) (r : settled)
| MvClientResponds (c : conn)
| MvClientWakes (c : conn)
| MvLogSettles (r : settled)
| MvPushSettles (id : number) (r : settled).

Definition perform (m : move) (s : state) : option state :=
  match m with
  | MvWorld W => Some (upd_host (upd_world (λ _, W)) s)
  | MvSignal W em => Some (deliver W em s)
  | MvDeadline e =>
    match entry_at e s with
    | Some en =>
      if timer_active (te_deadlineTimer en) then Some (deadline_fires e s) else None
    | None => None
    end
  | MvControlPolled r =>
    match control (clients s) with CPoll => Some (control_polled r s) | _ => None end
  | MvControlWakes =>
    match control (clients s) with CSleep => Some (control_head s) | _ => None end
  | MvClientPolled c r =>
    match loops (clients s) !! c with
    | Some LPoll => Some (run_polled gas c r s)
    | _ => None
    end
  | MvClientResponds c =>
    match loops (clients s) !! c with
    | Some (LRespond r batch) => Some (run_responded gas c r batch s)
    | _ => None
    end
  | MvClientWakes c =>
    match loops (clients s) !! c with
    | Some LSleep => Some (run_head c s)
    | _ => None
    end
  | MvLogSettles r => Some (sendLog_settled r s)
  | MvPushSettles id r => Some (snd (push_settled id r s))
  end.

Fixpoint perform_all (ms : list move) (s : state) : option state :=
  match ms with
  | [] => Some s
  | m :: ms => perform m s ≫= perform_all ms
  end.

Lemma perform_step m s s' : perform m s = Some s' → step s s'.
Proof.
  destruct m; simpl; repeat case_goal; try done; intros [= <-]; by econstructor.
Qed.

Lemma step_perform s s' : step s s' → ∃ m, perform m s = Some s'.
Proof.
  intros [W|W em|e en s0 He Ha|r s0 Hc|s0 Hc|c r s0 Hl|c r batch s0 Hl|c s0 Hl|r s0|id r s0].
  - by exists (MvWorld W).
  - by exists (MvSignal W em).
  - exists (MvDeadline e). simpl. by rewrite He, Ha.
  - exists (MvControlPolled r). simpl. by rewrite Hc.
  - exists MvControlWakes. simpl. by rewrite Hc.
  - exists (MvClientPolled c r). simpl. by rewrite Hl.
  - exists (MvClientResponds c). simpl. by rewrite Hl.
  - exists (MvClientWakes c). simpl. by rewrite Hl.
  - by exists (MvLogSettles r).
  - by exists (MvPushSettles id r).
Qed.

Lemma perform_all_steps ms s s' : perform_all ms s = Some s' → rtc step s s'.
Proof.
  revert s. induction ms as [|m ms IH]; intros s; simpl; [by intros [= <-]|].
  destruct (perform m s) as [s1|] eqn:Hm; simpl; [|done].
  intros Hms. eapply rtc_l; [by eapply perform_step|by apply IH].
Qed.

Lemma perform_all_app ms1 ms2 s :
  perform_all (ms1 ++ ms2) s = perform_all ms1 s ≫= perform_all ms2.
Proof.
  revert s. induction ms1 as [|m ms1 IH]; intros s; simpl; [done|].
  destruct (perform m s); simpl; [apply IH|done].
Qed.

Definition reachable (s : state) : Prop :=
  ∃ W sg, (∀ x, sig_slots sg x = []) ∧ rtc step (load_script (init_state W sg)) s.

Lemma perform_all_reachable W sg ms s :
  (∀ x, sig_slots sg x = []) → perform_all ms (load_script (init_state W sg)) = Some s →
  reachable s.
Proof. intros Hsg Hms. exists W, sg. split; [done|]. by eapply perform_all_steps. Qed.
End System.
