(* ===== verification/TokenInv.v ===== *)
(** * The invariant of the token registry

    [tokens_inv] relates the two registries of tokens.ts, the entries they
    refer to and their timers: both registries name live entries under their
    own key, an entry in [byWindow] is exactly an active registered one, a
    pending entry's timer runs, and an entry that left [byToken] has a stopped
    timer, so that its deadline cannot fire any more.  The changes that
    tokens.ts makes to the registry ([tk_remove], [tk_bind], [tk_create],
    [tk_tick]) preserve it. *)
From S2P Require Export Tokens.

Section TokenInv.
Context {E : Env}.
Implicit Types (tk : TokensState) (e n : positive) (en : TokenEntry) (t k : string).

Definition registered_in (tk : TokensState) (t : string) (e : positive) : Prop :=
  jm_get t (byToken tk) = Some e.

Record tokens_inv (n : positive) (tk : TokensState) : Prop := TokensInv {
  ti_wf_token : jm_wf (byToken tk);
  ti_wf_window : jm_wf (byWindow tk);
  ti_token t e : registered_in tk t e → ∃ en, entries tk !! e = Some en ∧ te_token en = t;
  ti_window k e : jm_get k (byWindow tk) = Some e →
    ∃ en w, entries tk !! e = Some en ∧ te_state en = active ∧ te_window en = Some w ∧
      windowKey w = k ∧ registered_in tk (te_token en) e;
  ti_active e en : entries tk !! e = Some en → registered_in tk (te_token en) e →
    te_state en = active →
    ∃ w, te_window en = Some w ∧ jm_get (windowKey w) (byWindow tk) = Some e;
  ti_pending e en : entries tk !! e = Some en → te_state en = pending → te_window en = None;
  ti_timer e en : entries tk !! e = Some en → registered_in tk (te_token en) e →
    te_state en = pending → timer_active (te_deadlineTimer en) = true;
  ti_dead e en : entries tk !! e = Some en → ¬ registered_in tk (te_token en) e →
    timer_active (te_deadlineTimer en) = false;
  ti_single e en : entries tk !! e = Some en → timer_singleShot (te_deadlineTimer en) = true;
  ti_fresh e en : entries tk !! e = Some en → (e < n)%positive ∧ (conn_ref (te_conn en) < n)%positive;
}.

(** ** The changes tokens.ts makes *)

Definition tk_forget (en : TokenEntry) (tk : TokensState) : TokensState :=
  match te_state en, te_window en with
  | active, Some w => upd_byWindow (jm_delete (windowKey w)) tk
  | _, _ => tk
  end.

(** An entry leaves the registry, its timer updated by [f]. *)
Definition tk_remove (f : QTimer → QTimer) (e : positive) (en : TokenEntry)
    (tk : TokensState) : TokensState :=
  upd_byToken (jm_delete (te_token en))
    (tk_forget en (upd_entries (alter (upd_timer f) e) tk)).

Definition tk_bind (e : positive) (w : window) (tk : TokensState) : TokensState :=
  upd_byWindow (jm_set (windowKey w) e) (upd_entries (alter (bind_entry w) e) tk).

Definition tk_create (e : positive) (en : TokenEntry) (tk : TokensState) : TokensState :=
  upd_byToken (jm_set (te_token en) e) (upd_entries (<[e := en]>) tk).

Definition tk_tick (e : positive) (tk : TokensState) : TokensState :=
  upd_entries (alter (upd_timer timer_timeout) e) tk.

Lemma forget_window_tokens en s :
  forget_window en s = upd_tokens (tk_forget en) s.
Proof.
  unfold forget_window, tk_forget.
  destruct (te_state en), (te_window en); by destruct s.
Qed.

Lemma tk_remove_entries f e en tk e' :
  entries (tk_remove f e en tk) !! e' =
  if decide (e = e') then upd_timer f <$> entries tk !! e' else entries tk !! e'.
Proof.
  unfold tk_remove, tk_forget. simpl.
  assert (∀ b, entries (match te_state en, te_window en with
    | active, Some w => upd_byWindow (jm_delete (windowKey w)) b
    | _, _ => b end) = entries b) as Hb by (intros b; by destruct (te_state en), (te_window en)).
  rewrite Hb. simpl. rewrite lookup_alter. case_decide; by subst.
Qed.

Lemma tk_remove_byToken f e en tk :
  byToken (tk_remove f e en tk) = jm_delete (te_token en) (byToken tk).
Proof.
  unfold tk_remove, tk_forget. simpl. by destruct (te_state en), (te_window en).
Qed.

Lemma tk_remove_registered f e en tk t e' :
  registered_in (tk_remove f e en tk) t e' ↔ te_token en ≠ t ∧ registered_in tk t e'.
Proof. unfold registered_in. by rewrite tk_remove_byToken, jm_get_delete_Some. Qed.

Lemma tk_remove_byWindow f e en tk :
  byWindow (tk_remove f e en tk) =
  match te_state en, te_window en with
  | active, Some w => jm_delete (windowKey w) (byWindow tk)
  | _, _ => byWindow tk
  end.
Proof. unfold tk_remove, tk_forget. simpl. by destruct (te_state en), (te_window en). Qed.

(** Two entries registered under the same token are the same. *)
Lemma registered_inj tk t e e' : registered_in tk t e → registered_in tk t e' → e = e'.
Proof. unfold registered_in. congruence. Qed.

(** An entry with another token is another entry. *)
Lemma registered_token n tk t e en :
  tokens_inv n tk → registered_in tk t e → entries tk !! e = Some en → te_token en = t.
Proof. intros Hi Hr He. destruct (ti_token _ _ Hi _ _ Hr) as (en' & He' & <-). naive_solver. Qed.

(** The part of [tk_remove]'s window registry that survives. *)
Lemma tk_remove_window n f e en tk k e' :
  tokens_inv n tk → entries tk !! e = Some en → registered_in tk (te_token en) e →
  jm_get k (byWindow (tk_remove f e en tk)) = Some e' ↔
  e' ≠ e ∧ jm_get k (byWindow tk) = Some e'.
Proof.
  intros Hi He Hr. rewrite tk_remove_byWindow.
  destruct (te_state en) eqn:Hst.
  - split; [|naive_solver]. intros Hk. split; [|done]. intros ->.
    destruct (ti_window _ _ Hi _ _ Hk) as (en' & w & He' & ? & _). congruence.
  - destruct (ti_active _ _ Hi _ _ He Hr Hst) as (w & Hw & Hk0). rewrite Hw.
    rewrite jm_get_delete_Some. split.
    + intros [Hne Hk]. split; [|done]. intros ->.
      destruct (ti_window _ _ Hi _ _ Hk) as (en' & w' & He' & _ & Hw' & <- & _).
      assert (en' = en) as -> by congruence. rewrite Hw in Hw'. by injection Hw' as ->.
    + intros [Hne Hk]. split; [|done]. congruence.
Qed.

Lemma tk_remove_inv n f e en tk :
  (∀ x, timer_active (f x) = false) → (∀ x, timer_singleShot (f x) = timer_singleShot x) →
  tokens_inv n tk → entries tk !! e = Some en → registered_in tk (te_token en) e →
  tokens_inv n (tk_remove f e en tk).
Proof.
  intros Hf1 Hf2 Hi He Hr.
  assert (Hlook : ∀ e' en', entries (tk_remove f e en tk) !! e' = Some en' →
    (e' = e ∧ en' = upd_timer f en) ∨ (e' ≠ e ∧ entries tk !! e' = Some en')).
  { intros e' en'. rewrite tk_remove_entries. case_decide; subst; [|by right].
    rewrite He. naive_solver. }
  assert (Hother : ∀ e' en', e' ≠ e → entries tk !! e' = Some en' →
    registered_in tk (te_token en') e' → te_token en ≠ te_token en').
  { intros e' en' Hne _ Hr' Heq. rewrite Heq in Hr. by eapply Hne, registered_inj. }
  split.
  - rewrite tk_remove_byToken. apply jm_wf_delete, Hi.
  - rewrite tk_remove_byWindow. pose proof (ti_wf_window _ _ Hi).
    destruct (te_state en), (te_window en); auto with jsmap.
  - intros t e' [Hne Hr']%tk_remove_registered.
    destruct (ti_token _ _ Hi _ _ Hr') as (en' & He' & <-).
    exists en'. rewrite tk_remove_entries, decide_False; [done|]. naive_solver.
  - intros k e' [Hne Hk]%(tk_remove_window n); [|done..].
    destruct (ti_window _ _ Hi _ _ Hk) as (en' & w & He' & ? & ? & ? & Hr').
    exists en', w. rewrite tk_remove_entries, decide_False by done.
    rewrite tk_remove_registered. eauto 10.
  - intros e' en' [[-> ->]|[Hne He']]%Hlook; simpl; [by intros [? _]%tk_remove_registered|].
    intros [Hne' Hr']%tk_remove_registered Hst.
    destruct (ti_active _ _ Hi _ _ He' Hr' Hst) as (w & ? & Hk).
    exists w. split; [done|]. by apply (tk_remove_window n).
  - intros e' en' [[-> ->]|[Hne He']]%Hlook; simpl; by eapply ti_pending.
  - intros e' en' [[-> ->]|[Hne He']]%Hlook; simpl; [by intros [? _]%tk_remove_registered|].
    intros [_ Hr']%tk_remove_registered. by eapply ti_timer.
  - intros e' en' [[-> ->]|[Hne He']]%Hlook; simpl; [done|].
    intros Hn. eapply ti_dead; [done..|]. intros Hr'. apply Hn, tk_remove_registered. eauto.
  - intros e' en' [[-> ->]|[Hne He']]%Hlook; simpl; [rewrite Hf2|]; by eapply ti_single.
  - intros e' en' [[-> ->]|[Hne He']]%Hlook; simpl; by eapply ti_fresh.
Qed.

Lemma tk_bind_entries e w tk e' :
  entries (tk_bind e w tk) !! e' =
  if decide (e = e') then bind_entry w <$> entries tk !! e' else entries tk !! e'.
Proof. unfold tk_bind. simpl. rewrite lookup_alter. case_decide; by subst. Qed.

Lemma tk_bind_inv n e en w tk :
  tokens_inv n tk → entries tk !! e = Some en → registered_in tk (te_token en) e →
  te_state en = pending → jm_get (windowKey w) (byWindow tk) = None →
  tokens_inv n (tk_bind e w tk).
Proof.
  intros Hi He Hr Hst Hfree.
  assert (Hlook : ∀ e' en', entries (tk_bind e w tk) !! e' = Some en' →
    (e' = e ∧ en' = bind_entry w en) ∨ (e' ≠ e ∧ entries tk !! e' = Some en')).
  { intros e' en'. rewrite tk_bind_entries. case_decide; subst; [|by right].
    rewrite He. naive_solver. }
  split.
  - apply Hi.
  - apply jm_wf_set, Hi.
  - intros t e' Hr'. destruct (ti_token _ _ Hi t e' Hr') as (en' & He' & <-).
    rewrite tk_bind_entries, He'. case_decide; subst; eauto.
  - intros k e'. change (byWindow (tk_bind e w tk)) with (jm_set (windowKey w) e (byWindow tk)).
    rewrite jm_get_set. case_decide as Hk.
    + intros [= <-]. exists (bind_entry w en), w.
      by rewrite tk_bind_entries, decide_True, He.
    + intros Hk'. destruct (ti_window _ _ Hi _ _ Hk') as (en' & w' & He' & ? & ? & ? & ?).
      exists en', w'. rewrite tk_bind_entries, decide_False; [done|]. congruence.
  - intros e' en' [[-> ->]|[Hne He']]%Hlook Hr' Hst'; simpl.
    + exists w. by rewrite jm_get_set_eq.
    + destruct (ti_active _ _ Hi _ _ He' Hr' Hst') as (w' & ? & Hk).
      exists w'. split; [done|]. rewrite jm_get_set_ne; [done|]. congruence.
  - intros e' en' [[-> ->]|[Hne He']]%Hlook; simpl; [done|by eapply ti_pending].
  - intros e' en' [[-> ->]|[Hne He']]%Hlook; simpl; [done|]. exact (ti_timer _ _ Hi _ _ He').
  - intros e' en' [[-> ->]|[Hne He']]%Hlook Hn; simpl.
    + destruct Hn. exact Hr.
    + exact (ti_dead _ _ Hi _ _ He' Hn).
  - intros e' en' [[-> ->]|[Hne He']]%Hlook; simpl; by eapply ti_single.
  - intros e' en' [[-> ->]|[Hne He']]%Hlook; simpl; by eapply ti_fresh.
Qed.

Lemma tk_create_inv n en tk :
  tokens_inv n tk → jm_get (te_token en) (byToken tk) = None →
  te_state en = pending → te_window en = None →
  timer_active (te_deadlineTimer en) = true → timer_singleShot (te_deadlineTimer en) = true →
  (conn_ref (te_conn en) < n)%positive →
  tokens_inv (Pos.succ n) (tk_create n en tk).
Proof.
  intros Hi Hnew Hst Hw Ht Hs Hc.
  assert (Hnone : entries tk !! n = None).
  { destruct (entries tk !! n) as [en'|] eqn:Hn; [|done].
    destruct (ti_fresh _ _ Hi _ _ Hn). lia. }
  assert (Hlook : ∀ e' en', entries (tk_create n en tk) !! e' = Some en' →
    (e' = n ∧ en' = en) ∨ (e' ≠ n ∧ entries tk !! e' = Some en')).
  { intros e' en'. simpl. rewrite lookup_insert. case_decide; naive_solver. }
  assert (Hreg : ∀ t e', registered_in (tk_create n en tk) t e' ↔
    (t = te_token en ∧ e' = n) ∨ (t ≠ te_token en ∧ registered_in tk t e')).
  { intros t e'. unfold registered_in. simpl. rewrite jm_get_set. case_decide; naive_solver. }
  assert (Hold : ∀ e' en', e' ≠ n → entries tk !! e' = Some en' →
    registered_in (tk_create n en tk) (te_token en') e' ↔ registered_in tk (te_token en') e').
  { intros e' en' Hne He'. rewrite Hreg. split; [naive_solver|]. intros Hr. right.
    split; [|done]. intros Heq. unfold registered_in in Hr. congruence. }
  split.
  - apply jm_wf_set, Hi.
  - apply Hi.
  - intros t e' [[-> ->]|[Hne Hr]]%Hreg; simpl.
    + exists en. by rewrite lookup_insert_eq.
    + destruct (ti_token _ _ Hi _ _ Hr) as (en' & He' & <-). exists en'.
      rewrite lookup_insert_ne; naive_solver.
  - intros k e' Hk. destruct (ti_window _ _ Hi _ _ Hk) as (en' & w & He' & ? & ? & ? & ?).
    assert (e' ≠ n) by naive_solver. exists en', w. rewrite Hold by done. simpl.
    by rewrite lookup_insert_ne.
  - intros e' en' [[-> ->]|[Hne He']]%Hlook; [congruence|]. rewrite Hold by done.
    exact (ti_active _ _ Hi _ _ He').
  - intros e' en' [[-> ->]|[Hne He']]%Hlook; [done|by eapply ti_pending].
  - intros e' en' [[-> ->]|[Hne He']]%Hlook; [done|]. rewrite Hold by done.
    exact (ti_timer _ _ Hi _ _ He').
  - intros e' en' [[-> ->]|[Hne He']]%Hlook Hn.
    + destruct Hn. apply Hreg. by left.
    + rewrite Hold in Hn by done. by eapply ti_dead.
  - intros e' en' [[-> ->]|[Hne He']]%Hlook; [done|by eapply ti_single].
  - intros e' en' [[-> ->]|[Hne He']]%Hlook; [lia|].
    destruct (ti_fresh _ _ Hi _ _ He'). lia.
Qed.

(** The deadline of an active token: only its timer changes. *)
Lemma tk_tick_inv `{!QTimerLaws E} n e en tk :
  tokens_inv n tk → entries tk !! e = Some en → te_state en = active →
  tokens_inv n (tk_tick e tk).
Proof.
  intros Hi He Hst.
  assert (Hlook : ∀ e' en', entries (tk_tick e tk) !! e' = Some en' →
    ∃ en0, entries tk !! e' = Some en0 ∧
      ((e' = e ∧ en0 = en ∧ en' = upd_timer timer_timeout en) ∨ (e' ≠ e ∧ en' = en0))).
  { intros e' en'. simpl. rewrite lookup_alter. case_decide; subst; [|naive_solver].
    rewrite He. simpl. naive_solver. }
  split; simpl.
  - apply Hi.
  - apply Hi.
  - intros t e' Hr. destruct (ti_token _ _ Hi _ _ Hr) as (en' & He' & <-).
    rewrite lookup_alter. case_decide; subst; rewrite He'; simpl; eexists; (split; [reflexivity|done]).
  - intros k e' Hk. destruct (ti_window _ _ Hi _ _ Hk) as (en' & w & He' & ?).
    rewrite lookup_alter. case_decide; subst; rewrite He'; simpl; [|by eauto].
    exists (upd_timer timer_timeout en'), w. naive_solver.
  - intros e' en' (en0 & He0 & [(-> & -> & ->)|[Hne ->]])%Hlook; exact (ti_active _ _ Hi _ _ He0).
  - intros e' en' (en0 & He0 & [(-> & -> & ->)|[Hne ->]])%Hlook; exact (ti_pending _ _ Hi _ _ He0).
  - intros e' en' (en0 & He0 & [(-> & -> & ->)|[Hne ->]])%Hlook; [simpl; congruence|].
    exact (ti_timer _ _ Hi _ _ He0).
  - intros e' en' (en0 & He0 & [(-> & -> & ->)|[Hne ->]])%Hlook Hn.
    + apply timer_timeout_inactive. exact (ti_single _ _ Hi _ _ He0).
    + exact (ti_dead _ _ Hi _ _ He0 Hn).
  - intros e' en' (en0 & He0 & [(-> & -> & ->)|[Hne ->]])%Hlook; simpl;
      rewrite ?timer_timeout_singleShot; exact (ti_single _ _ Hi _ _ He0).
  - intros e' en' (en0 & He0 & [(-> & -> & ->)|[Hne ->]])%Hlook; exact (ti_fresh _ _ Hi _ _ He0).
Qed.
End TokenInv.

(** * The life of an entry

    [tk_evolves]: entries are never deleted and keep their token and owner, an
    active entry stays active and bound to its window, and an entry that left
    [byToken] never comes back. *)
Section TokenEvolution.
Context {E : Env}.
Implicit Types (tk : TokensState) (e n : positive) (en : TokenEntry) (t : string).

Record tk_evolves (tk tk' : TokensState) : Prop := TkEvolves {
  tv_entries e en : entries tk !! e = Some en →
    ∃ en', entries tk' !! e = Some en' ∧ te_token en' = te_token en ∧
      te_conn en' = te_conn en ∧
      (te_state en = active → te_state en' = active ∧ te_window en' = te_window en);
  tv_gone e en : entries tk !! e = Some en →
    ¬ registered_in tk (te_token en) e → ¬ registered_in tk' (te_token en) e;
}.

#[export] Instance tk_evolves_preorder : PreOrder tk_evolves.
Proof.
  split; [by split; eauto 10|]. intros tk1 tk2 tk3 H12 H23. split.
  - intros e en He. destruct (tv_entries _ _ H12 _ _ He) as (en2 & He2 & Ht & Hc & Ha).
    destruct (tv_entries _ _ H23 _ _ He2) as (en3 & He3 & Ht' & Hc' & Ha').
    exists en3. split; [done|]. split; [congruence|]. split; [congruence|].
    intros [Hs Hw]%Ha. destruct (Ha' Hs). split; congruence.
  - intros e en He Hn. destruct (tv_entries _ _ H12 _ _ He) as (en2 & He2 & Ht & _).
    rewrite <- Ht. apply (tv_gone _ _ H23 e en2 He2). rewrite Ht.
    by apply (tv_gone _ _ H12).
Qed.

Lemma tk_remove_evolves f e en tk : tk_evolves tk (tk_remove f e en tk).
Proof.
  split.
  - intros e' en' He'. rewrite tk_remove_entries, He'. case_decide; simpl; eauto 10.
  - intros e' en' _ Hn [_ Hr]%tk_remove_registered. done.
Qed.

Lemma tk_bind_evolves e en w tk :
  entries tk !! e = Some en → te_state en = pending → tk_evolves tk (tk_bind e w tk).
Proof.
  intros He Hst. split; [|done].
  intros e' en' He'. rewrite tk_bind_entries, He'. case_decide as Heq; [|eauto 10].
  subst. simpl. eexists; split; [done|]. simpl. split; [done|]. split; [done|]. congruence.
Qed.

Lemma tk_create_evolves n en tk : tokens_inv n tk → tk_evolves tk (tk_create n en tk).
Proof.
  intros Hi. split.
  - intros e' en' He'. destruct (ti_fresh _ _ Hi _ _ He'). exists en'. simpl.
    rewrite lookup_insert_ne by lia. eauto.
  - intros e' en' He' Hn. destruct (ti_fresh _ _ Hi _ _ He').
    unfold registered_in in *. simpl. rewrite jm_get_set. case_decide; [|done].
    intros [= ->]. lia.
Qed.

Lemma tk_tick_evolves e tk : tk_evolves tk (tk_tick e tk).
Proof.
  split; [|done]. intros e' en' He'. simpl. rewrite lookup_alter.
  case_decide; subst; rewrite He'; simpl; eauto 10.
Qed.

(** ** Several entries leave at once *)

Definition tk_remove_all (removed : list (positive * TokenEntry)) (tk : TokensState)
    : TokensState :=
  foldl (λ tk een, tk_remove timer_stop (fst een) (snd een) tk) tk removed.

Definition removed_tokens (removed : list (positive * TokenEntry)) : list string :=
  map (λ een, te_token (snd een)) removed.

Definition removable (tk : TokensState) (removed : list (positive * TokenEntry)) : Prop :=
  NoDup (removed_tokens removed) ∧
  ∀ e en, (e, en) ∈ removed → entries tk !! e = Some en ∧ registered_in tk (te_token en) e.

Lemma removable_cons tk e en removed :
  removable tk ((e, en) :: removed) →
  entries tk !! e = Some en ∧ registered_in tk (te_token en) e ∧
  removable (tk_remove timer_stop e en tk) removed.
Proof.
  intros [[Hn Hnd]%NoDup_cons Hall].
  destruct (Hall e en ltac:(left)) as [He Hr]. split; [done|]. split; [done|].
  split; [done|]. intros e' en' Hin.
  destruct (Hall e' en' ltac:(by right)) as [He' Hr'].
  assert (te_token en ≠ te_token en').
  { intros Heq. apply Hn. simpl. rewrite Heq.
    apply list_elem_of_In, in_map_iff. exists (e', en'). by rewrite <- list_elem_of_In. }
  rewrite tk_remove_entries, tk_remove_registered, decide_False; [done|].
  intros ->. congruence.
Qed.

Lemma tk_remove_all_spec `{!QTimerLaws E} n tk removed :
  tokens_inv n tk → removable tk removed →
  tokens_inv n (tk_remove_all removed tk) ∧
  tk_evolves tk (tk_remove_all removed tk) ∧
  (∀ t e, registered_in (tk_remove_all removed tk) t e ↔
     registered_in tk t e ∧ t ∉ removed_tokens removed) ∧
  (∀ t e en, t ∉ removed_tokens removed → registered_in tk t e → entries tk !! e = Some en →
     entries (tk_remove_all removed tk) !! e = Some en).
Proof.
  unfold tk_remove_all. revert tk. induction removed as [|[e en] removed IH]; intros tk Hi Hrm.
  - cbn [foldl removed_tokens map]. split; [done|]. split; [done|]. split; [|done].
    intros t e. split; [intros ?; split; [done|apply not_elem_of_nil]|by intros [? _]].
  - destruct (removable_cons _ _ _ _ Hrm) as (He & Hr & Hrm').
    assert (Hi' : tokens_inv n (tk_remove timer_stop e en tk)).
    { apply tk_remove_inv; auto using timer_stop_inactive, timer_stop_singleShot. }
    destruct (IH _ Hi' Hrm') as (Hinv & Hev & Hreg & Hent). cbn [foldl fst snd] in *.
    assert (Hcons : ∀ t, t ∉ removed_tokens ((e, en) :: removed) ↔
      te_token en ≠ t ∧ t ∉ removed_tokens removed).
    { intros t. unfold removed_tokens. simpl. rewrite not_elem_of_cons. naive_solver. }
    split; [done|]. split; [etrans; [apply tk_remove_evolves|done]|]. split.
    + intros t e'. rewrite Hreg, Hcons, tk_remove_registered. tauto.
    + intros t e' en' [Hne Hnt]%Hcons Hr' He'. apply (Hent t); [done| |].
      * by apply tk_remove_registered.
      * rewrite tk_remove_entries, decide_False; [done|]. intros ->.
        apply Hne. assert (en' = en) as -> by congruence.
        exact (registered_token n tk t e' en Hi Hr' He').
Qed.
End TokenEvolution.
