(* ===== verification/Refine.v ===== *)
(** * The token registry as a map of claims

    [abs] forgets what the contract of Spec.v does not speak of: the order of
    the registry, the identity of the entries, [byWindow], and of a timer all
    but whether it runs.  Each change that tokens.ts makes to its registry is
    a step of the contract. *)
From S2P Require Export Spec TokenInv.

Section Refine.
Context {E : Env} `{!QTimerLaws E}.
Implicit Types (tk : TokensState) (e n : positive) (en : TokenEntry) (t : string).

Definition abs_entry (en : TokenEntry) : claim :=
  Claim (te_conn en) (te_window en) (timer_active (te_deadlineTimer en)).

Definition abs (tk : TokensState) : claims :=
  omap (λ e, abs_entry <$> entries tk !! e) (to_gmap (byToken tk)).

Lemma abs_lookup tk t :
  abs tk !! t = jm_get t (byToken tk) ≫= λ e, abs_entry <$> entries tk !! e.
Proof. unfold abs. by rewrite lookup_omap, to_gmap_lookup. Qed.

Lemma abs_registered tk t e en :
  registered_in tk t e → entries tk !! e = Some en → abs tk !! t = Some (abs_entry en).
Proof. intros Hr He. rewrite abs_lookup, Hr. simpl. by rewrite He. Qed.

Lemma abs_None n tk t : tokens_inv n tk → abs tk !! t = None ↔ jm_get t (byToken tk) = None.
Proof.
  intros Hi. rewrite abs_lookup. destruct (jm_get t (byToken tk)) as [e|] eqn:Hr; [|done].
  destruct (ti_token _ _ Hi _ _ Hr) as (en & He & _). simpl. by rewrite He.
Qed.

Lemma abs_Some n tk t cl :
  tokens_inv n tk → abs tk !! t = Some cl ↔
  ∃ e en, registered_in tk t e ∧ entries tk !! e = Some en ∧ te_token en = t ∧ cl = abs_entry en.
Proof.
  intros Hi. rewrite abs_lookup. unfold registered_in. split.
  - destruct (jm_get t (byToken tk)) as [e|] eqn:Hr; simpl; [|done].
    destruct (ti_token _ _ Hi _ _ Hr) as (en & He & Ht). rewrite He. intros [= <-]. eauto 10.
  - intros (e & en & -> & He & _ & ->). simpl. by rewrite He.
Qed.

(** The windows of the claims are the keys of [byWindow]. *)
Lemma abs_window n tk t cl w :
  tokens_inv n tk → abs tk !! t = Some cl → cl_window cl = Some w →
  ∃ e en, registered_in tk t e ∧ entries tk !! e = Some en ∧ te_token en = t ∧
    te_state en = active ∧ te_window en = Some w ∧ jm_get (windowKey w) (byWindow tk) = Some e.
Proof.
  intros Hi (e & en & Hr & He & Ht & ->)%(abs_Some n) Hw; [|done]. simpl in Hw.
  exists e, en. split; [done|]. split; [done|]. split; [done|].
  destruct (te_state en) eqn:Hst; [by rewrite (ti_pending _ _ Hi _ _ He Hst) in Hw|].
  split; [done|]. split; [done|]. rewrite <- Ht in Hr.
  destruct (ti_active _ _ Hi _ _ He Hr Hst) as (w' & Hw' & Hk). congruence.
Qed.

Lemma abs_pending n tk e en :
  tokens_inv n tk → entries tk !! e = Some en → registered_in tk (te_token en) e →
  te_state en = pending → abs_entry en = Claim (te_conn en) None true.
Proof.
  intros Hi He Hr Hst. unfold abs_entry.
  by rewrite (ti_pending _ _ Hi _ _ He Hst), (ti_timer _ _ Hi _ _ He Hr Hst).
Qed.

Lemma abs_exclusive n tk : tokens_inv n tk → exclusive (abs tk).
Proof.
  intros Hi t1 t2 cl1 cl2 w H1 H2 Hw1 Hw2.
  destruct (abs_window _ _ _ _ _ Hi H1 Hw1) as (e1 & en1 & _ & He1 & <- & _ & _ & Hk1).
  destruct (abs_window _ _ _ _ _ Hi H2 Hw2) as (e2 & en2 & _ & He2 & <- & _ & _ & Hk2).
  congruence.
Qed.

(** ** The changes *)

Lemma abs_remove n f e en tk :
  tokens_inv n tk → entries tk !! e = Some en → registered_in tk (te_token en) e →
  abs (tk_remove f e en tk) = delete (te_token en) (abs tk).
Proof.
  intros Hi He Hr. apply map_eq. intros t.
  rewrite lookup_delete, !abs_lookup, tk_remove_byToken, jm_get_delete.
  case_decide as Ht; [done|].
  destruct (jm_get t (byToken tk)) as [e'|] eqn:Hr'; [|done].
  cbn [mbind option_bind]. rewrite tk_remove_entries, decide_False; [done|]. intros ->.
  apply Ht. by apply (registered_token n tk t e' en).
Qed.

Lemma abs_bind n e en w tk :
  tokens_inv n tk → entries tk !! e = Some en → registered_in tk (te_token en) e →
  te_state en = pending →
  abs (tk_bind e w tk) = <[te_token en := Claim (te_conn en) (Some w) true]> (abs tk).
Proof.
  intros Hi He Hr Hst. apply map_eq. intros t.
  rewrite lookup_insert, !abs_lookup. change (byToken (tk_bind e w tk)) with (byToken tk).
  destruct (jm_get t (byToken tk)) as [e'|] eqn:Hr'; cbn [mbind option_bind].
  - rewrite tk_bind_entries. case_decide as Hee; subst.
    + assert (te_token en = t) by (by apply (registered_token n tk t e' en)).
      rewrite decide_True by done. rewrite He. simpl. unfold abs_entry. simpl.
      by rewrite (ti_timer _ _ Hi _ _ He Hr Hst).
    + rewrite decide_False; [done|]. intros <-. apply Hee. by eapply registered_inj.
  - rewrite decide_False; [done|]. intros <-. unfold registered_in in Hr. congruence.
Qed.

Lemma abs_create n en tk :
  tokens_inv n tk → jm_get (te_token en) (byToken tk) = None →
  abs (tk_create n en tk) = <[te_token en := abs_entry en]> (abs tk).
Proof.
  intros Hi Hnew. apply map_eq. intros t.
  rewrite lookup_insert, !abs_lookup. unfold tk_create. simpl. rewrite jm_get_set.
  case_decide; simpl; [by rewrite lookup_insert_eq|].
  destruct (jm_get t (byToken tk)) as [e|] eqn:Hr; [|done]. simpl.
  destruct (ti_token _ _ Hi _ _ Hr) as (en' & He & _).
  rewrite lookup_insert_ne; [done|]. destruct (ti_fresh _ _ Hi _ _ He). lia.
Qed.

Lemma abs_tick n e en w tk :
  tokens_inv n tk → entries tk !! e = Some en → registered_in tk (te_token en) e →
  te_window en = Some w →
  abs (tk_tick e tk) = <[te_token en := Claim (te_conn en) (Some w) false]> (abs tk).
Proof.
  intros Hi He Hr Hw. apply map_eq. intros t.
  rewrite lookup_insert, !abs_lookup. change (byToken (tk_tick e tk)) with (byToken tk).
  destruct (jm_get t (byToken tk)) as [e'|] eqn:Hr'; simpl.
  - rewrite lookup_alter. case_decide as Hee; subst.
    + assert (te_token en = t) by (by apply (registered_token n tk t e' en)).
      rewrite decide_True by done. rewrite He. simpl. unfold abs_entry. simpl.
      rewrite Hw, timer_timeout_inactive; [done|]. exact (ti_single _ _ Hi _ _ He).
    + rewrite decide_False; [done|]. intros <-. apply Hee. by eapply registered_inj.
  - rewrite decide_False; [done|]. intros <-. unfold registered_in in Hr. congruence.
Qed.

Lemma abs_remove_all n removed tk :
  tokens_inv n tk → removable tk removed →
  ∀ t cl, abs (tk_remove_all removed tk) !! t = Some cl ↔
    abs tk !! t = Some cl ∧ t ∉ removed_tokens removed.
Proof.
  intros Hi Hrm t cl.
  destruct (tk_remove_all_spec n tk removed Hi Hrm) as (Hi' & _ & Hreg & Hent).
  rewrite (abs_Some n _ t cl Hi'), (abs_Some n _ t cl Hi). split.
  - intros (e & en & [Hr Hn]%Hreg & He & Ht & ->). split; [|done].
    destruct (ti_token _ _ Hi _ _ Hr) as (en0 & He0 & Ht0).
    rewrite (Hent t e en0 Hn Hr He0) in He. injection He as <-. eauto 10.
  - intros [(e & en & Hr & He & Ht & ->) Hn]. exists e, en.
    rewrite Hreg. split; [done|]. split; [by apply (Hent t)|done].
Qed.
End Refine.
