(* ===== verification/ListenerInv.v ===== *)
(** * The invariants of the property listeners

    [watch_inv]: the [WatchState] of a token belongs to a registered token
    that is bound to the watched window, its handlers notify the token's owner,
    and the [SlotWindowProp] slots connected to KWin's signals are exactly the
    handlers in the registry.  [wspace_inv] says the same of the per-client
    registry of workspace.ts, and [once_inv] that no listener is connected
    twice.  [setWatch], [dropClientWatches] and their workspace counterparts
    preserve them. *)
From S2P Require Export TokenInv Workspace.

Section ListenerInv.
Context {E : Env} `{!SignalLaws E}.
Implicit Types (s : state) (t p : string) (e : positive) (en : TokenEntry).

Record watch_inv (s : state) : Prop := WatchInv {
  wi_state t st : jm_get t (watchesByToken (windows s)) = Some st →
    ∃ e en, registered_in (tokens s) t e ∧ entry_at e s = Some en ∧
      te_window en = Some (ws_window st) ∧ jm_wf (ws_handlers st) ∧
      ∀ p h, jm_get p (ws_handlers st) = Some h →
        wh_conn h = te_conn en ∧ wh_token h = t ∧ wh_window h = ws_window st ∧
        wh_prop h = p ∧ (p ∈ WATCH_PROPS ∧ is_Some (propSignal (ws_window st) p)) ∧
        (wh_id h < fresh (host s))%positive;
  wi_slot sg h : SlotWindowProp h ∈ slots s sg ↔
    propSignal (wh_window h) (wh_prop h) = Some sg ∧
    ∃ st, jm_get (wh_token h) (watchesByToken (windows s)) = Some st ∧
      jm_get (wh_prop h) (ws_handlers st) = Some h;
}.

Record wspace_inv (s : state) : Prop := WspaceInv {
  si_state id hs : jm_get id (watchesByClient (wspace s)) = Some hs →
    hs ≠ [] ∧ jm_wf hs ∧
    ∀ p h, jm_get p hs = Some h →
      conn_id (sh_conn h) = id ∧ sh_prop h = p ∧ p ∈ WORKSPACE_WATCH_PROPS ∧
      (sh_id h < fresh (host s))%positive;
  si_slot sg h : SlotWorkspaceProp h ∈ slots s sg ↔
    workspaceSignal (sh_prop h) = Some sg ∧
    ∃ hs, jm_get (conn_id (sh_conn h)) (watchesByClient (wspace s)) = Some hs ∧
      jm_get (sh_prop h) hs = Some h;
}.

Definition is_listener (x : slot) : bool :=
  match x with SlotWindowProp _ | SlotWorkspaceProp _ => true | _ => false end.

Definition is_window_listener (x : slot) : bool :=
  match x with SlotWindowProp _ => true | _ => false end.

Definition is_workspace_listener (x : slot) : bool :=
  match x with SlotWorkspaceProp _ => true | _ => false end.

Definition listeners (s : state) (sg : signal) : list slot := filter is_listener (slots s sg).

Definition once_inv (s : state) : Prop := ∀ sg, NoDup (listeners s sg).

Lemma once_inv_shrinks s s' : once_inv s → shrinks s s' → once_inv s'.
Proof.
  intros Hi Hs sg. eapply sublist_NoDup; [apply Hi|]. by apply sublist_filter_mono.
Qed.

(** Connecting a listener that is not connected. *)
Lemma once_inv_connect s s' sg0 x :
  once_inv s → (∀ sg, slots s' sg = slots s sg ++ if decide (sg = sg0) then [x] else []) →
  x ∉ slots s sg0 → once_inv s'.
Proof.
  intros Hi Hsl Hx sg. unfold listeners. rewrite Hsl, filter_app.
  destruct (decide (sg = sg0)) as [->|]; [|rewrite filter_nil, app_nil_r; apply Hi].
  apply NoDup_app. split; [apply Hi|]. split.
  - intros y [_ Hy]%list_elem_of_filter [_ Hy']%list_elem_of_filter.
    apply list_elem_of_singleton in Hy' as ->. done.
  - apply NoDup_filter, NoDup_singleton.
Qed.

(** The slots of one kind are the same in two states. *)
Definition same_slots (P : slot → Prop) (s s' : state) : Prop :=
  ∀ sg x, P x → x ∈ slots s' sg ↔ x ∈ slots s sg.

(** Registered tokens other than [toks] keep their entry, owner and window. *)
Definition keeps (toks : list string) (tk tk' : TokensState) : Prop :=
  ∀ t e en, t ∉ toks → registered_in tk t e → entries tk !! e = Some en →
    registered_in tk' t e ∧ ∃ en', entries tk' !! e = Some en' ∧
      te_conn en' = te_conn en ∧ (te_window en ≠ None → te_window en' = te_window en).

Lemma keeps_refl toks tk : keeps toks tk tk.
Proof. intros t e en _ Hr He. eauto. Qed.

Lemma watch_inv_change toks s s' :
  watch_inv s → keeps toks (tokens s) (tokens s') →
  (fresh (host s) ≤ fresh (host s'))%positive →
  (∀ t, jm_get t (watchesByToken (windows s')) =
     if decide (t ∈ toks) then None else jm_get t (watchesByToken (windows s))) →
  (∀ sg h, SlotWindowProp h ∈ slots s' sg ↔
     SlotWindowProp h ∈ slots s sg ∧ wh_token h ∉ toks) →
  watch_inv s'.
Proof.
  intros Hw Hk Hf Hget Hsl. split.
  - intros t st. rewrite Hget. case_decide as Ht; [done|]. intros Hst.
    destruct (wi_state _ Hw _ _ Hst) as (e & en & Hr & He & Hwin & Hwf & Hh).
    destruct (Hk t e en Ht Hr He) as (Hr' & en' & He' & Hc & Hw').
    exists e, en'. split; [done|]. split; [done|].
    split; [rewrite Hw'; congruence|]. split; [done|].
    intros p h Hp. destruct (Hh p h Hp) as (? & ? & ? & ? & [? ?] & ?).
    repeat (split; [congruence|]). split; [done|lia].
  - intros sg h. rewrite Hsl, (wi_slot _ Hw), Hget. case_decide; naive_solver.
Qed.

Lemma wspace_inv_same s s' :
  wspace_inv s → wspace s' = wspace s → (fresh (host s) ≤ fresh (host s'))%positive →
  same_slots is_workspace_listener s s' → wspace_inv s'.
Proof.
  intros Hi Hw Hf Hsl. split.
  - intros id hs. rewrite Hw. intros Hid.
    destruct (si_state _ Hi _ _ Hid) as (? & ? & Hh). split; [done|]. split; [done|].
    intros p h Hp. destruct (Hh p h Hp) as (? & ? & ? & ?). repeat split; try done. lia.
  - intros sg h. rewrite (Hsl sg (SlotWorkspaceProp h) I), Hw. apply Hi.
Qed.

(** ** [dropClientWatches] *)

Lemma drop_slots toks s sg h :
  watch_inv s →
  SlotWindowProp h ∈ slots (dropClientWatches toks s) sg ↔
  SlotWindowProp h ∈ slots s sg ∧ wh_token h ∉ toks.
Proof.
  intros Hw. rewrite dropClientWatches_elem.
  split; intros [Hin Hn]; (split; [done|]).
  - intros Ht. apply Hn.
    destruct (proj1 (wi_slot _ Hw _ _) Hin) as [Hsg (st & Hst & Hh)].
    destruct (wi_state _ Hw _ _ Hst) as (e & en & _ & _ & _ & _ & Hall).
    destruct (Hall _ _ Hh) as (_ & _ & Hwin & _).
    exists (wh_token h), st, (wh_prop h), h. rewrite <- Hwin.
    by apply jm_get_elem in Hh.
  - intros (t & st & p & h' & Ht & Hst & Hp & _ & [= ->]).
    destruct (wi_state _ Hw _ _ Hst) as (e & en & _ & _ & _ & Hwf & Hall).
    apply jm_elem_get in Hp; [|done]. destruct (Hall _ _ Hp) as (_ & Htok & _). by rewrite Htok in Hn.
Qed.

Lemma drop_same_slots toks s :
  same_slots (λ x, negb (is_window_listener x)) s (dropClientWatches toks s).
Proof.
  intros sg x Hx. rewrite dropClientWatches_elem. split; [by intros [? _]|].
  intros Hin. split; [done|]. intros (? & ? & ? & ? & _ & _ & _ & _ & ->). done.
Qed.

(** ** [setWatch] *)

(** What [setWatch] leaves alone. *)
Record set_frame (s s' : state) : Prop := SetFrame {
  sf_world : world (host s') = world (host s);
  sf_tokens : tokens s' = tokens s;
  sf_desktops : desktopsById (windows s') = desktopsById (windows s);
  sf_activities : activitiesById (windows s') = activitiesById (windows s);
  sf_clients : clients s' = clients s;
  sf_pushes : pushes (out s') = pushes (out s);
  sf_out : out s `prefix_of` out s';
  sf_fresh : (fresh (host s) ≤ fresh (host s'))%positive;
}.

#[export] Instance set_frame_preorder : PreOrder set_frame.
Proof.
  split; [by intros s; split|]. intros s1 s2 s3 [] []. split; try congruence; [by etrans|lia].
Qed.

(** [p] is not watched on [t]. *)
Definition unwatched (t p : string) (s : state) : Prop :=
  jm_get t (watchesByToken (windows s)) = None ∨
  ∃ st, jm_get t (watchesByToken (windows s)) = Some st ∧ jm_get p (ws_handlers st) = None.

(** The [WatchState] that [setWatch] finds or creates. *)
Definition old_watches (t : string) (w : window) (s : state) : WatchState :=
  match jm_get t (watchesByToken (windows s)) with
  | Some st => st
  | None => MkWatchState w jm_empty
  end.

Lemma unwatched_has t p w s : unwatched t p s → jm_has p (ws_handlers (old_watches t w s)) = false.
Proof.
  unfold old_watches. intros H. apply jm_has_false. destruct H as [->|(st & -> & ?)]; done.
Qed.

(** Enabling a property connects a new listener, when it has a signal. *)
Lemma setWatch_on t c w p s sg0 :
  unwatched t p s → propSignal w p = Some sg0 →
  let old := old_watches t w s in
  let h := WinHandler (fresh (host s)) c t w p in
  let s' := snd (setWatch t c w p true s) in
  fst (setWatch t c w p true s) = Ret true ∧
  fresh (host s') = Pos.succ (fresh (host s)) ∧
  (∀ t', jm_get t' (watchesByToken (windows s')) =
     if decide (t = t') then
       Some (MkWatchState (ws_window old) (jm_set p h (ws_handlers old)))
     else jm_get t' (watchesByToken (windows s))) ∧
  (∀ sg, slots s' sg =
     slots s sg ++ if decide (sg = sg0) then [SlotWindowProp h] else []) ∧
  set_frame s s' ∧ wspace s' = wspace s.
Proof.
  intros Hnew Hsg. pose proof (unwatched_has t p w s Hnew) as Hhas.
  unfold setWatch, old_watches in *. rewrite Hhas, Hsg. simpl. split; [done|].
  destruct (jm_get t (watchesByToken (windows s))) as [st|] eqn:Ht; simpl.
  all: split; [done|]; split; [intros t'; rewrite !jm_get_set; by case_decide|].
  all: split; [intros sg; exact (connect_slots _ _ (upd_host (upd_fresh Pos.succ) s) sg)|].
  all: split; [|done]; split; simpl; try done; try lia.
  all: try apply sendLog_pushes; by eexists.
Qed.

(** Without a signal it throws, leaving the [WatchState] it may have created. *)
Lemma setWatch_fail t c w p s :
  unwatched t p s → propSignal w p = None →
  let s' := snd (setWatch t c w p true s) in
  fst (setWatch t c w p true s) = Throw (HostError (undefined_call "connect")) ∧
  fresh (host s') = Pos.succ (fresh (host s)) ∧
  (∀ t', jm_get t' (watchesByToken (windows s')) =
     if decide (t = t') then Some (old_watches t w s)
     else jm_get t' (watchesByToken (windows s))) ∧
  (∀ sg, slots s' sg = slots s sg) ∧
  set_frame s s' ∧ wspace s' = wspace s.
Proof.
  intros Hnew Hsg. pose proof (unwatched_has t p w s Hnew) as Hhas.
  unfold setWatch, old_watches in *. rewrite Hhas, Hsg. simpl. split; [done|].
  destruct (jm_get t (watchesByToken (windows s))) as [st|] eqn:Ht; simpl.
  all: split; [done|]; split.
  1: { intros t'. case_decide; [by subst|done]. }
  2: { intros t'. by rewrite jm_get_set. }
  all: split; [done|]; split; [|done]; split; simpl; try done; lia.
Qed.

Lemma setWatch_on_again t c w p s st h :
  jm_get t (watchesByToken (windows s)) = Some st → jm_get p (ws_handlers st) = Some h →
  setWatch t c w p true s = (Ret true, s).
Proof.
  intros Hst Hh. unfold setWatch. rewrite Hst. unfold jm_has. by rewrite Hh.
Qed.

Lemma setWatch_off_again t c w p s :
  (∀ st, jm_get t (watchesByToken (windows s)) = Some st → jm_get p (ws_handlers st) = None) →
  setWatch t c w p false s = (Ret false, s).
Proof.
  intros Hn. unfold setWatch. destruct (jm_get t _) as [st|] eqn:Ht; [|done].
  by rewrite (Hn st).
Qed.

Lemma setWatch_off t c w p s st h :
  jm_get t (watchesByToken (windows s)) = Some st → jm_get p (ws_handlers st) = Some h →
  let hs := jm_delete p (ws_handlers st) in
  let s' := snd (setWatch t c w p false s) in
  fst (setWatch t c w p false s) = Ret false ∧
  fresh (host s') = fresh (host s) ∧
  (∀ t', jm_get t' (watchesByToken (windows s')) =
     if decide (t = t') then
       if decide (jm_size hs = 0%nat) then None else Some (MkWatchState (ws_window st) hs)
     else jm_get t' (watchesByToken (windows s))) ∧
  (∀ sg, slots s' sg =
     if decide (propSignal (ws_window st) p = Some sg)
     then filter (λ y, y ≠ SlotWindowProp h) (slots s sg) else slots s sg) ∧
  set_frame s s' ∧ wspace s' = wspace s.
Proof.
  intros Hst Hh. unfold setWatch. rewrite Hst, Hh. simpl.
  pose proof (try_disconnect_frame (ws_window st) p t h s) as [? Hfr].
  pose proof (try_disconnect_watches (ws_window st) p t h s) as Hwt.
  split; [done|]. split; [done|]. split.
  { intros t'. rewrite Hwt. case_decide; [|by rewrite jm_get_set].
    rewrite jm_get_delete. by case_decide. }
  split; [intros sg; exact (try_disconnect_slots (ws_window st) p t h s sg)|].
  split; [|done]. split; simpl; try done.
  - rewrite pushes_app. simpl. by rewrite app_nil_r.
  - etrans; [done|]. by eexists.
  - rewrite Hfr. lia.
Qed.

(** The token [t] of client [c] is bound to [w]. *)
Definition claimed (s : state) (t : string) (c : conn) (w : window) : Prop :=
  ∃ e en, registered_in (tokens s) t e ∧ entry_at e s = Some en ∧
    te_window en = Some w ∧ te_conn en = c.

(** The four ways [setWatch] can go. *)
Inductive set_case (t : string) (c : conn) (w : window) (p : string) (s : state) : bool → Prop :=
| sc_same b : setWatch t c w p b s = (Ret b, s) → set_case t c w p s b
| sc_on sg : unwatched t p s → propSignal w p = Some sg → set_case t c w p s true
| sc_fail : unwatched t p s → propSignal w p = None → set_case t c w p s true
| sc_off st h :
  jm_get t (watchesByToken (windows s)) = Some st → jm_get p (ws_handlers st) = Some h →
  set_case t c w p s false.

Lemma setWatch_cases t c w p b s : set_case t c w p s b.
Proof.
  assert (Hun : unwatched t p s → set_case t c w p s true).
  { intros Hu. destruct (propSignal w p) as [sg|] eqn:Hsg; [by eapply sc_on|by apply sc_fail]. }
  destruct (jm_get t (watchesByToken (windows s))) as [st|] eqn:Ht;
    [destruct (jm_get p (ws_handlers st)) as [h|] eqn:Hp|]; destruct b.
  - apply sc_same. by eapply setWatch_on_again.
  - by eapply sc_off.
  - apply Hun. right. eauto.
  - apply sc_same. apply setWatch_off_again. rewrite Ht. by intros ? [= <-].
  - apply Hun. by left.
  - apply sc_same. apply setWatch_off_again. by rewrite Ht.
Qed.

Lemma setWatch_frame t c w p b s :
  set_frame s (snd (setWatch t c w p b s)) ∧ wspace (snd (setWatch t c w p b s)) = wspace s.
Proof.
  destruct (setWatch_cases t c w p b s) as [b ->|sg Hu Hsg|Hu Hsg|st h H1 H2]; [done|..].
  - by apply (setWatch_on t c w p s sg).
  - by apply setWatch_fail.
  - by eapply setWatch_off.
Qed.

Lemma setWatch_same_slots t c w p b s :
  same_slots (λ x, negb (is_window_listener x)) s (snd (setWatch t c w p b s)).
Proof.
  intros sg x Hx.
  destruct (setWatch_cases t c w p b s) as [b ->|sg0 Hu Hsg|Hu Hsg|st h H1 H2]; [done|..].
  - destruct (setWatch_on t c w p s sg0 Hu Hsg) as (_ & _ & _ & -> & _).
    rewrite elem_of_app. case_decide; rewrite ?list_elem_of_singleton, ?elem_of_nil;
      [|tauto]. split; [|by left]. intros [?| ->]; done.
  - by destruct (setWatch_fail t c w p s Hu Hsg) as (_ & _ & _ & -> & _).
  - destruct (setWatch_off t c w p s st h H1 H2) as (_ & _ & _ & -> & _).
    case_decide; [|done]. rewrite list_elem_of_filter. split; [by intros [_ ?]|].
    intros Hin. split; [|done]. by intros ->.
Qed.

(** The handlers of a claimed token before [setWatch], if any. *)
Lemma watch_old t c w s :
  watch_inv s → claimed s t c w →
  ws_window (old_watches t w s) = w ∧ jm_wf (ws_handlers (old_watches t w s)) ∧
  ∀ p h, jm_get p (ws_handlers (old_watches t w s)) = Some h →
    wh_conn h = c ∧ wh_token h = t ∧ wh_window h = w ∧ wh_prop h = p ∧
    (p ∈ WATCH_PROPS ∧ is_Some (propSignal w p)) ∧ (wh_id h < fresh (host s))%positive.
Proof.
  intros Hi (e & en & Hr & He & Hwin & <-). unfold old_watches.
  destruct (jm_get t (watchesByToken (windows s))) as [st|] eqn:Ht; simpl.
  - destruct (wi_state _ Hi _ _ Ht) as (e' & en' & Hr' & He' & Hwin' & Hwf & Hall).
    assert (e' = e) as -> by (by eapply registered_inj).
    assert (en' = en) as -> by (unfold entry_at in *; congruence).
    assert (ws_window st = w) as <- by congruence. done.
  - split; [done|]. split; [constructor|done].
Qed.

Lemma old_get t w p h s :
  jm_get p (ws_handlers (old_watches t w s)) = Some h ↔
  ∃ st, jm_get t (watchesByToken (windows s)) = Some st ∧ jm_get p (ws_handlers st) = Some h.
Proof. unfold old_watches. destruct (jm_get t _) as [st|]; simpl; naive_solver. Qed.

Lemma jm_set_not_nil {K V} `{EqDecision K} (k : K) (v : V) m : jm_set k v m ≠ [].
Proof. destruct m as [|[k' v'] m]; simpl; [done|]. by case_decide. Qed.

(** The registry of [s'] is that of [s] except at [t], where the handlers
    are [hs]: what is left to show for [watch_inv] to be preserved. *)
Lemma watch_inv_update s s' t c w hs :
  watch_inv s → claimed s t c w → tokens s' = tokens s →
  (fresh (host s) ≤ fresh (host s'))%positive →
  (∀ t', t ≠ t' →
     jm_get t' (watchesByToken (windows s')) = jm_get t' (watchesByToken (windows s))) →
  jm_get t (watchesByToken (windows s')) = Some (MkWatchState w hs) ∨
    (jm_get t (watchesByToken (windows s')) = None ∧ hs = []) →
  jm_wf hs →
  (∀ p h, jm_get p hs = Some h →
     wh_conn h = c ∧ wh_token h = t ∧ wh_window h = w ∧ wh_prop h = p ∧
     (p ∈ WATCH_PROPS ∧ is_Some (propSignal w p)) ∧ (wh_id h < fresh (host s'))%positive) →
  (∀ sg h, SlotWindowProp h ∈ slots s' sg ↔
     propSignal (wh_window h) (wh_prop h) = Some sg ∧
     if decide (t = wh_token h) then jm_get (wh_prop h) hs = Some h
     else SlotWindowProp h ∈ slots s sg) →
  watch_inv s'.
Proof.
  intros Hi (e & en & Hr & He & Hwin & Hc) Htk Hf Hne Ht Hwf Hall Hsl. split.
  - intros t' st'. unfold entry_at. rewrite Htk. destruct (decide (t = t')) as [<-|Htt].
    + destruct Ht as [-> | [-> _]]; [|done]. intros [= <-]. exists e, en. simpl.
      split; [done|]. split; [done|]. split; [done|]. split; [done|].
      intros p h. rewrite Hc. apply Hall.
    + rewrite Hne by done. intros Hst'.
      destruct (wi_state _ Hi _ _ Hst') as (e' & en' & ? & ? & ? & ? & Hall').
      exists e', en'. repeat (split; [done|]). intros p' h' Hh'.
      destruct (Hall' _ _ Hh') as (? & ? & ? & ? & ? & ?). repeat (split; [done|]). lia.
  - intros sg h. rewrite Hsl. destruct (decide (t = wh_token h)) as [<-|Hth].
    + destruct Ht as [->|[-> ->]]; simpl; naive_solver.
    + rewrite Hne by done. rewrite (wi_slot _ Hi). naive_solver.
Qed.

Lemma setWatch_inv_on t c w p s sg0 :
  watch_inv s → claimed s t c w → p ∈ WATCH_PROPS →
  unwatched t p s → propSignal w p = Some sg0 →
  watch_inv (snd (setWatch t c w p true s)).
Proof.
  intros Hi Hcl Hp Hnew Hsg.
  destruct (setWatch_on t c w p s sg0 Hnew Hsg) as (_ & Hf & Hget & Hsl & Hframe & _).
  destruct (watch_old t c w s Hi Hcl) as (Hw0 & Hwf0 & Hall0).
  pose proof (unwatched_has t p w s Hnew) as Holdp%jm_has_false.
  set (h0 := WinHandler (fresh (host s)) c t w p) in *.
  apply (watch_inv_update s _ t c w (jm_set p h0 (ws_handlers (old_watches t w s))));
    [done|done|by destruct Hframe|rewrite Hf; lia|..].
  - intros t' Ht. rewrite Hget. by rewrite decide_False.
  - left. rewrite Hget, decide_True by done. by rewrite Hw0.
  - by apply jm_wf_set.
  - intros p' h'. rewrite jm_get_set, Hf. case_decide as Hpp.
    + intros [= <-]. subst p'. simpl. do 4 (split; [done|]).
      split; [split; [done|by exists sg0]|lia].
    + intros Hh'. destruct (Hall0 _ _ Hh') as (? & ? & ? & ? & ? & ?).
      repeat (split; [done|]). lia.
  - intros sg h. rewrite Hsl, elem_of_app, (wi_slot _ Hi), jm_get_set.
    assert (Hnew' : SlotWindowProp h ∈ (if decide (sg = sg0)
      then [SlotWindowProp h0] else []) ↔ sg = sg0 ∧ h = h0).
    { case_decide; rewrite ?list_elem_of_singleton, ?elem_of_nil; naive_solver. }
    rewrite Hnew'. clear Hnew'. destruct (decide (t = wh_token h)) as [Ht|Ht].
    + rewrite <- Ht, <- (old_get t w).
      destruct (decide (p = wh_prop h)) as [Hpp|Hpp].
      * split; [|intros [? [= <-]]; right; simpl in *; split; [congruence|done]].
        intros [[? Hh]|[-> ->]]; [|done]. rewrite <- Hpp in Hh. congruence.
      * split; [intros [?|[-> ->]]; done|by left].
    + split; [intros [[? ?]|[-> ->]]; [|done]|intros [? ?]; left; by rewrite (wi_slot _ Hi) in *].
      split; [done|]. by apply (wi_slot _ Hi).
Qed.

Lemma setWatch_inv_fail t c w p s :
  watch_inv s → claimed s t c w → unwatched t p s → propSignal w p = None →
  watch_inv (snd (setWatch t c w p true s)).
Proof.
  intros Hi Hcl Hnew Hsg.
  destruct (setWatch_fail t c w p s Hnew Hsg) as (_ & Hf & Hget & Hsl & Hframe & _).
  destruct (watch_old t c w s Hi Hcl) as (Hw0 & Hwf0 & Hall0).
  apply (watch_inv_update s _ t c w (ws_handlers (old_watches t w s)));
    [done|done|by destruct Hframe|rewrite Hf; lia|..].
  - intros t' Ht. rewrite Hget. by rewrite decide_False.
  - left. rewrite Hget, decide_True by done. rewrite <- Hw0 at 2.
    by destruct (old_watches t w s).
  - done.
  - intros p' h' Hh'. destruct (Hall0 _ _ Hh') as (? & ? & ? & ? & ? & ?).
    repeat (split; [done|]). lia.
  - intros sg h. rewrite Hsl. case_decide as Ht.
    + rewrite (wi_slot _ Hi), Ht. by rewrite <- (old_get _ w).
    + rewrite (wi_slot _ Hi). naive_solver.
Qed.

Lemma setWatch_inv_off t c w p s st h :
  watch_inv s → claimed s t c w →
  jm_get t (watchesByToken (windows s)) = Some st → jm_get p (ws_handlers st) = Some h →
  watch_inv (snd (setWatch t c w p false s)).
Proof.
  intros Hi Hcl H1 H2.
  destruct (setWatch_off t c w p s st h H1 H2) as (_ & Hf & Hget & Hsl & Hframe & _).
  destruct (watch_old t c w s Hi Hcl) as (Hw0 & Hwf & Hall). unfold old_watches in *.
  rewrite H1 in Hw0, Hwf, Hall. destruct (Hall _ _ H2) as (_ & Htok & Hwh & Hprop & _).
  apply (watch_inv_update s _ t c w (jm_delete p (ws_handlers st)));
    [done|done|by destruct Hframe|rewrite Hf; lia|..].
  - intros t' Ht. rewrite Hget. by rewrite decide_False.
  - rewrite Hget, decide_True by done. case_decide as Hsz; [right|left; by rewrite Hw0].
    split; [done|]. by apply jm_size_0.
  - by apply jm_wf_delete.
  - intros p' h' [_ Hh']%jm_get_delete_Some. rewrite Hf. by apply Hall.
  - intros sg h'. rewrite Hsl.
    assert (Hin : SlotWindowProp h' ∈ (if decide (propSignal (ws_window st) p = Some sg)
      then filter (λ y, y ≠ SlotWindowProp h) (slots s sg) else slots s sg) ↔
      SlotWindowProp h' ∈ slots s sg ∧ h' ≠ h).
    { destruct (decide (propSignal (ws_window st) p = Some sg)) as [Hsg|Hsg].
      - rewrite list_elem_of_filter. split; [intros [Hne ?]|intros [? Hne]]; split; congruence.
      - split; [|by intros [? _]]. intros Hin. split; [done|]. intros ->. apply Hsg.
        apply (wi_slot _ Hi) in Hin as [Hsg' _]. by rewrite Hw0, <- Hwh, <- Hprop. }
    rewrite Hin, (wi_slot _ Hi). clear Hin.
    destruct (decide (t = wh_token h')) as [Ht|Ht]; [|rewrite (wi_slot _ Hi); naive_solver].
    rewrite <- Ht, jm_get_delete. split.
    + intros [[Hsg (st0 & Hst0 & Hh0)] Hne]. split; [done|].
      assert (st0 = st) as -> by congruence.
      destruct (decide (p = wh_prop h')) as [Hp|Hp]; [congruence|done].
    + intros [Hsg Hh0]. destruct (decide (p = wh_prop h')) as [Hp|Hp]; [done|].
      split; [eauto|]. congruence.
Qed.

Lemma setWatch_inv t c w p b s :
  watch_inv s → claimed s t c w → p ∈ WATCH_PROPS →
  watch_inv (snd (setWatch t c w p b s)).
Proof.
  intros Hi Hcl Hp.
  destruct (setWatch_cases t c w p b s) as [b ->|sg Hu Hsg|Hu Hsg|st h H1 H2]; [done|..].
  - by eapply setWatch_inv_on.
  - by eapply setWatch_inv_fail.
  - by eapply setWatch_inv_off.
Qed.
End ListenerInv.
