(* ===== verification/WspaceInv.v ===== *)
(** * The invariant of the workspace listeners

    The functions of workspace.ts that connect and disconnect listeners
    preserve [wspace_inv], and no listener is ever connected twice
    ([once_inv]). *)
From S2P Require Export ListenerInv.

Section WspaceInv.
Context {E : Env} `{!SignalLaws E}.
Implicit Types (s : state) (p : string) (id : number) (c : conn).

(** ** [dropClientWorkspaceWatches] *)

Record ws_frame (s s' : state) : Prop := WsFrame {
  wsf_world : world (host s') = world (host s);
  wsf_fresh : fresh (host s') = fresh (host s);
  wsf_tokens : tokens s' = tokens s;
  wsf_windows : windows s' = windows s;
  wsf_clients : clients s' = clients s;
  wsf_pushes : pushes (out s') = pushes (out s);
  wsf_out : out s `prefix_of` out s';
}.

#[export] Instance ws_frame_preorder : PreOrder ws_frame.
Proof. split; [done|]. intros s1 s2 s3 [] []. split; try congruence. by etrans. Qed.

Lemma sendLog_ws_frame l m s : ws_frame s (sendLog l m s).
Proof. split; try done; [apply sendLog_pushes|]. by eexists. Qed.

Lemma ws_try_disconnect_frame id p h s :
  ws_frame s (ws_try_disconnect id p h s) ∧ wspace (ws_try_disconnect id p h s) = wspace s.
Proof.
  unfold ws_try_disconnect. destruct (disconnect_from _ _ _); [done|].
  split; [apply sendLog_ws_frame|done].
Qed.

Lemma ws_try_disconnect_slots id p h s sg :
  slots (ws_try_disconnect id p h s) sg =
  if decide (workspaceSignal p = Some sg)
  then filter (λ y, y ≠ SlotWorkspaceProp h) (slots s sg) else slots s sg.
Proof.
  rewrite <- (disconnect_from_slots (workspaceSignal p)). unfold ws_try_disconnect, slots.
  by destruct (disconnect_from _ _ _).
Qed.

Lemma ws_try_disconnect_elem id p h s sg y :
  y ∈ slots (ws_try_disconnect id p h s) sg ↔
  y ∈ slots s sg ∧ ¬ (workspaceSignal p = Some sg ∧ y = SlotWorkspaceProp h).
Proof.
  rewrite ws_try_disconnect_slots.
  case_decide; [rewrite list_elem_of_filter|]; naive_solver.
Qed.

Definition ws_disconnect_all (id : number) (hs : jsmap string ws_handler) (s : state) : state :=
  foldl (λ s ph, ws_try_disconnect id (fst ph) (snd ph) s) s hs.

Lemma ws_disconnect_all_frame id hs s :
  ws_frame s (ws_disconnect_all id hs s) ∧ wspace (ws_disconnect_all id hs s) = wspace s.
Proof.
  apply (foldl_ind (λ s', ws_frame s s' ∧ wspace s' = wspace s)); [done|].
  intros s' ph _ [Hf Hw].
  destruct (ws_try_disconnect_frame id (fst ph) (snd ph) s') as [Hf' Hw'].
  split; [by etrans|congruence].
Qed.

Lemma ws_disconnect_all_elem id hs s sg y :
  y ∈ slots (ws_disconnect_all id hs s) sg ↔
  y ∈ slots s sg ∧
  ¬ ∃ p h, (p, h) ∈ hs ∧ workspaceSignal p = Some sg ∧ y = SlotWorkspaceProp h.
Proof.
  unfold ws_disconnect_all. revert s. induction hs as [|[p h] hs IH]; intros s; cbn [foldl].
  - split; [|naive_solver]. intros Hy. split; [done|].
    by intros (p & h & Hin%elem_of_nil & _).
  - rewrite IH, ws_try_disconnect_elem. setoid_rewrite elem_of_cons. simpl. naive_solver.
Qed.

Lemma ws_drop_frame id s : ws_frame s (dropClientWorkspaceWatches id s).
Proof.
  unfold dropClientWorkspaceWatches. case_goal; [|done].
  etrans; [apply ws_disconnect_all_frame|]. done.
Qed.

Lemma ws_drop_get id id' s :
  jm_get id' (watchesByClient (wspace (dropClientWorkspaceWatches id s))) =
  if decide (id = id') then None else jm_get id' (watchesByClient (wspace s)).
Proof.
  unfold dropClientWorkspaceWatches. destruct (jm_get id _) as [hs|] eqn:Ht; simpl.
  - rewrite jm_get_delete. case_decide; [done|].
    pose proof (proj2 (ws_disconnect_all_frame id hs s)) as Hw.
    unfold ws_disconnect_all in Hw. by rewrite Hw.
  - case_decide; congruence.
Qed.

Lemma ws_drop_elem id s sg y :
  y ∈ slots (dropClientWorkspaceWatches id s) sg ↔
  y ∈ slots s sg ∧
  ¬ ∃ hs p h, jm_get id (watchesByClient (wspace s)) = Some hs ∧ (p, h) ∈ hs ∧
      workspaceSignal p = Some sg ∧ y = SlotWorkspaceProp h.
Proof.
  unfold dropClientWorkspaceWatches. destruct (jm_get id _) as [hs|] eqn:Ht; simpl.
  - pose proof (ws_disconnect_all_elem id hs s sg y) as Hd.
    unfold slots in *. simpl in *. rewrite Hd. naive_solver.
  - naive_solver.
Qed.

Lemma ws_drop_same_slots id s :
  same_slots (λ x, negb (is_workspace_listener x)) s (dropClientWorkspaceWatches id s).
Proof.
  intros sg x Hx. rewrite ws_drop_elem. split; [by intros [? _]|].
  intros Hin. split; [done|]. intros (? & ? & ? & _ & _ & _ & ->). done.
Qed.

Lemma ws_drop_shrinks id s : shrinks s (dropClientWorkspaceWatches id s).
Proof.
  unfold dropClientWorkspaceWatches. case_goal; [|done].
  apply (foldl_ind (shrinks s)); [done|]. intros s' ph _ H. etrans; [exact H|].
  intros sg. rewrite ws_try_disconnect_slots. case_decide; [apply sublist_filter|done].
Qed.

Lemma ws_drop_inv id s : wspace_inv s → wspace_inv (dropClientWorkspaceWatches id s).
Proof.
  intros Hi. pose proof (ws_drop_frame id s) as [_ Hf _ _ _ _ _]. split.
  - intros id' hs. rewrite ws_drop_get, Hf. case_decide; [done|]. apply (si_state _ Hi).
  - intros sg h. rewrite ws_drop_elem, (si_slot _ Hi), ws_drop_get. split.
    + intros [[Hsg (hs & Hhs & Hh)] Hn]. split; [done|]. exists hs. split; [|done].
      case_decide as Hid; [|done]. subst. destruct Hn.
      exists hs, (sh_prop h), h. split; [done|]. by apply jm_get_elem in Hh.
    + intros [Hsg (hs & Hhs & Hh)]. case_decide as Hid; [done|]. split; [eauto|].
      intros (hs' & p & h' & Hhs' & Hp & _ & [= <-]).
      destruct (si_state _ Hi _ _ Hhs') as (_ & Hwf & Hall).
      apply jm_elem_get in Hp; [|done]. destruct (Hall _ _ Hp) as [? _]. done.
Qed.

(** ** [setWatch] *)

Lemma ws_set_state id hs s :
  watchesByClient (wspace (upd_wspace (upd_watchesByClient (jm_set id hs)) s)) =
  jm_set id hs (watchesByClient (wspace s)).
Proof. done. Qed.

(** The three ways [setWatch] can end: nothing to do, a new listener, or the
    removal of one (which may throw without any effect). *)
Inductive ws_set_result (c : conn) (p : string) (b : bool) (s : state) :
    outcome bool → state → Prop :=
| wsr_same : ws_set_result c p b s (Ret b) s
| wsr_throw e : b = false → ws_set_result c p b s (Throw (HostError e)) s
| wsr_fail e s' :
  b = true → workspaceSignal p = None → set_frame s s' → windows s' = windows s →
  (∀ sg, slots s' sg = slots s sg) →
  ws_set_result c p b s (Throw (HostError e)) s'
| wsr_on hs sg0 s' :
  b = true → workspaceSignal p = Some sg0 →
  hs = match jm_get (conn_id c) (watchesByClient (wspace s)) with
       | Some hs => hs | None => jm_empty end →
  jm_get p hs = None →
  fresh (host s') = Pos.succ (fresh (host s)) →
  (∀ id, jm_get id (watchesByClient (wspace s')) =
     if decide (conn_id c = id)
     then Some (jm_set p (WsHandler (fresh (host s)) c p) hs)
     else jm_get id (watchesByClient (wspace s))) →
  (∀ sg, slots s' sg = slots s sg ++
     if decide (sg = sg0)
     then [SlotWorkspaceProp (WsHandler (fresh (host s)) c p)] else []) →
  set_frame s s' → windows s' = windows s →
  ws_set_result c p b s (Ret true) s'
| wsr_off hs h s' :
  b = false →
  jm_get (conn_id c) (watchesByClient (wspace s)) = Some hs → jm_get p hs = Some h →
  fresh (host s') = fresh (host s) →
  (∀ id, jm_get id (watchesByClient (wspace s')) =
     if decide (conn_id c = id) then
       if decide (jm_size (jm_delete p hs) = 0%nat) then None else Some (jm_delete p hs)
     else jm_get id (watchesByClient (wspace s))) →
  (∀ sg, slots s' sg =
     if decide (workspaceSignal p = Some sg)
     then filter (λ y, y ≠ SlotWorkspaceProp h) (slots s sg) else slots s sg) →
  set_frame s s' → windows s' = windows s →
  ws_set_result c p b s (Ret false) s'.

Lemma ws_setWatch_spec c p b s :
  ws_set_result c p b s (fst (ws_setWatch c p b s)) (snd (ws_setWatch c p b s)).
Proof.
  unfold ws_setWatch.
  destruct (jm_get (conn_id c) (watchesByClient (wspace s))) as [hs|] eqn:Hhs; destruct b.
  - destruct (jm_has p hs) eqn:Hp; simpl; [constructor|]. apply jm_has_false in Hp.
    destruct (workspaceSignal p) as [sg0|] eqn:Hsg; [|by apply wsr_fail; try split; simpl; try lia].
    eapply wsr_on with (hs := hs) (sg0 := sg0); simpl; try done.
    + by rewrite Hhs.
    + intros id. by rewrite jm_get_set.
    + intros sg. exact (connect_slots _ _ (upd_host (upd_fresh Pos.succ) s) sg).
    + split; simpl; try done; try lia; [apply sendLog_pushes|by eexists].
  - destruct (jm_get p hs) as [h|] eqn:Hp; [|constructor].
    destruct (disconnect_from _ _ _) as [t|e] eqn:Hd; [|by constructor].
    eapply wsr_off; simpl; try done.
    + intros id. case_decide; [rewrite jm_get_delete|rewrite jm_get_set]; by case_decide.
    + intros sg. pose proof (disconnect_from_slots (workspaceSignal p)
        (SlotWorkspaceProp h) s sg) as Hsl. by rewrite Hd in Hsl.
    + split; simpl; try done; [|by eexists]. rewrite pushes_app. apply app_nil_r.
  - simpl. destruct (workspaceSignal p) as [sg0|] eqn:Hsg;
      [|by apply wsr_fail; try split; simpl; try lia].
    eapply wsr_on with (hs := jm_empty) (sg0 := sg0); simpl; try done.
    + by rewrite Hhs.
    + intros id. rewrite !jm_get_set. by case_decide.
    + intros sg. exact (connect_slots _ _ (upd_host (upd_fresh Pos.succ) s) sg).
    + split; simpl; try done; try lia; [apply sendLog_pushes|by eexists].
  - constructor.
Qed.

Lemma ws_setWatch_frame c p b s :
  set_frame s (snd (ws_setWatch c p b s)) ∧ windows (snd (ws_setWatch c p b s)) = windows s.
Proof. by destruct (ws_setWatch_spec c p b s). Qed.

Lemma ws_setWatch_same_slots c p b s :
  same_slots (λ x, negb (is_workspace_listener x)) s (snd (ws_setWatch c p b s)).
Proof.
  intros sg x Hx.
  destruct (ws_setWatch_spec c p b s)
    as [|e He|e s' _ _ _ _ Hsl|hs sg0 s' -> _ _ Hp _ _ Hsl _ _|hs h s' -> _ _ _ _ Hsl _ _];
    [done..| | |]; rewrite Hsl; [done| |].
  - rewrite elem_of_app. case_decide; rewrite ?list_elem_of_singleton, ?elem_of_nil;
      [|tauto]. split; [|by left]. intros [?| ->]; done.
  - case_decide; [|done]. rewrite list_elem_of_filter. split; [by intros [_ ?]|].
    intros Hin. split; [|done]. by intros ->.
Qed.

Lemma ws_old_handlers c s hs :
  wspace_inv s →
  hs = match jm_get (conn_id c) (watchesByClient (wspace s)) with
       | Some hs => hs | None => jm_empty end →
  jm_wf hs ∧ ∀ p h, jm_get p hs = Some h →
    conn_id (sh_conn h) = conn_id c ∧ sh_prop h = p ∧ p ∈ WORKSPACE_WATCH_PROPS ∧
    (sh_id h < fresh (host s))%positive.
Proof.
  intros Hi ->. destruct (jm_get (conn_id c) _) as [hs|] eqn:Hhs; [|split; [constructor|done]].
  by destruct (si_state _ Hi _ _ Hhs) as (_ & ? & ?).
Qed.

(** The registry of [s'] is that of [s] except for the client [id], whose
    handlers are [hs]: what is left to show for [wspace_inv]. *)
Lemma wspace_inv_update s s' id hs :
  wspace_inv s → (fresh (host s) ≤ fresh (host s'))%positive →
  (∀ id', id ≠ id' →
     jm_get id' (watchesByClient (wspace s')) = jm_get id' (watchesByClient (wspace s))) →
  (jm_get id (watchesByClient (wspace s')) = Some hs ∧ hs ≠ []) ∨
    (jm_get id (watchesByClient (wspace s')) = None ∧ hs = []) →
  jm_wf hs →
  (∀ p h, jm_get p hs = Some h →
     conn_id (sh_conn h) = id ∧ sh_prop h = p ∧ p ∈ WORKSPACE_WATCH_PROPS ∧
     (sh_id h < fresh (host s'))%positive) →
  (∀ sg h, SlotWorkspaceProp h ∈ slots s' sg ↔
     workspaceSignal (sh_prop h) = Some sg ∧
     if decide (id = conn_id (sh_conn h)) then jm_get (sh_prop h) hs = Some h
     else SlotWorkspaceProp h ∈ slots s sg) →
  wspace_inv s'.
Proof.
  intros Hi Hf Hne Hid Hwf Hall Hsl. split.
  - intros id' hs'. destruct (decide (id = id')) as [<-|Hii].
    + destruct Hid as [[-> Hnil]|[-> _]]; [|done]. by intros [= <-].
    + rewrite Hne by done. intros Hhs'.
      destruct (si_state _ Hi _ _ Hhs') as (? & ? & Hall'). split; [done|]. split; [done|].
      intros p' h' Hh'. destruct (Hall' _ _ Hh') as (? & ? & ? & ?).
      repeat (split; [done|]). lia.
  - intros sg h. rewrite Hsl. destruct (decide (id = conn_id (sh_conn h))) as [<-|Hii].
    + destruct Hid as [[-> _]|[-> ->]]; simpl; naive_solver.
    + rewrite Hne by done. rewrite (si_slot _ Hi). naive_solver.
Qed.

(** Registering a listener under its client. *)
Lemma ws_register_inv c p s s' hs sg0 :
  wspace_inv s → p ∈ WORKSPACE_WATCH_PROPS → workspaceSignal p = Some sg0 →
  hs = match jm_get (conn_id c) (watchesByClient (wspace s)) with
       | Some hs => hs | None => jm_empty end →
  jm_get p hs = None → fresh (host s') = Pos.succ (fresh (host s)) →
  (∀ id, jm_get id (watchesByClient (wspace s')) =
     if decide (conn_id c = id) then Some (jm_set p (WsHandler (fresh (host s)) c p) hs)
     else jm_get id (watchesByClient (wspace s))) →
  (∀ sg, slots s' sg = slots s sg ++
     if decide (sg = sg0) then [SlotWorkspaceProp (WsHandler (fresh (host s)) c p)] else []) →
  wspace_inv s'.
Proof.
  intros Hi Hpp Hsg0 Hhs Hp Hf Hget Hsl.
  destruct (ws_old_handlers c s hs Hi Hhs) as [Hwf Hall].
  set (h0 := WsHandler (fresh (host s)) c p) in *.
  apply (wspace_inv_update s _ (conn_id c) (jm_set p h0 hs)); [done|rewrite Hf; lia|..].
  + intros id Hid. by rewrite Hget, decide_False.
  + left. split; [by rewrite Hget, decide_True|apply jm_set_not_nil].
  + by apply jm_wf_set.
  + intros p' h'. rewrite jm_get_set, Hf. case_decide as Hpp'; [intros [= <-]; subst|].
    * simpl. repeat (split; [done|]). lia.
    * intros Hh'. destruct (Hall _ _ Hh') as (? & ? & ? & ?). repeat (split; [done|]). lia.
  + intros sg h. rewrite Hsl, elem_of_app, (si_slot _ Hi), jm_get_set.
    assert (Hn : SlotWorkspaceProp h ∈ (if decide (sg = sg0)
      then [SlotWorkspaceProp h0] else []) ↔ sg = sg0 ∧ h = h0).
    { case_decide; rewrite ?list_elem_of_singleton, ?elem_of_nil; naive_solver. }
    rewrite Hn. clear Hn. destruct (decide (conn_id c = conn_id (sh_conn h))) as [Hid|Hid].
    2: { rewrite (si_slot _ Hi). split; [|tauto]. intros [?|[-> ->]]; [tauto|done]. }
    assert (Hold : (∃ hs', jm_get (conn_id c) (watchesByClient (wspace s)) = Some hs' ∧
      jm_get (sh_prop h) hs' = Some h) ↔ jm_get (sh_prop h) hs = Some h).
    { rewrite Hhs. destruct (jm_get (conn_id c) _); naive_solver. }
    rewrite <- Hid, Hold. destruct (decide (p = sh_prop h)) as [Heq|Heq].
    * split; [|intros [? [= <-]]; right; simpl in *; split; [congruence|done]].
      intros [[? Hh]|[-> ->]]; [congruence|done].
    * split; [intros [?|[-> ->]]; done|by left].
Qed.

(** Taking one out of the registry of its client. *)
Lemma ws_unregister_inv c p s s' hs h :
  wspace_inv s →
  jm_get (conn_id c) (watchesByClient (wspace s)) = Some hs → jm_get p hs = Some h →
  fresh (host s') = fresh (host s) →
  (∀ id, jm_get id (watchesByClient (wspace s')) =
     if decide (conn_id c = id) then
       if decide (jm_size (jm_delete p hs) = 0%nat) then None else Some (jm_delete p hs)
     else jm_get id (watchesByClient (wspace s))) →
  (∀ sg, slots s' sg =
     if decide (workspaceSignal p = Some sg)
     then filter (λ y, y ≠ SlotWorkspaceProp h) (slots s sg) else slots s sg) →
  wspace_inv s'.
Proof.
  intros Hi Hhs Hp Hf Hget Hsl.
  destruct (si_state _ Hi _ _ Hhs) as (_ & Hwf & Hall).
  destruct (Hall _ _ Hp) as (Hhc & Hhp & _).
  apply (wspace_inv_update s _ (conn_id c) (jm_delete p hs)); [done|rewrite Hf; lia|..].
  + intros id Hid. by rewrite Hget, decide_False.
  + rewrite Hget, decide_True by done. case_decide as Hsz; [right|left].
    * split; [done|]. by apply jm_size_0.
    * split; [done|]. by intros Hnil; apply Hsz; rewrite Hnil.
  + by apply jm_wf_delete.
  + intros p' h' [_ Hh']%jm_get_delete_Some. rewrite Hf. by apply Hall.
  + intros sg h'. rewrite Hsl.
    assert (Hin : SlotWorkspaceProp h' ∈ (if decide (workspaceSignal p = Some sg)
      then filter (λ y, y ≠ SlotWorkspaceProp h) (slots s sg) else slots s sg) ↔
      SlotWorkspaceProp h' ∈ slots s sg ∧ h' ≠ h).
    { destruct (decide (workspaceSignal p = Some sg)) as [Hsg|Hsg].
      - rewrite list_elem_of_filter. split; [intros [Hne ?]|intros [? Hne]]; split; congruence.
      - split; [|by intros [? _]]. intros Hin. split; [done|]. intros ->. apply Hsg.
        apply (si_slot _ Hi) in Hin as [Hsg' _]. by rewrite <- Hhp. }
    rewrite Hin, (si_slot _ Hi). clear Hin.
    destruct (decide (conn_id c = conn_id (sh_conn h'))) as [Hid|Hid].
    2: { rewrite (si_slot _ Hi). split; [tauto|]. intros [? ?].
      split; [done|]. intros ->. congruence. }
    rewrite <- Hid, jm_get_delete. destruct (decide (p = sh_prop h')) as [Heq|Heq].
    * split; [|by intros [_ ?]]. intros [[? (hs0 & Hhs0 & Hh0)] Hne]. congruence.
    * split; [intros [[? (hs0 & Hhs0 & Hh0)] _]; split; congruence|].
      intros [? Hh']. split; [eauto|]. intros ->. congruence.
Qed.

Lemma ws_setWatch_inv c p b s :
  wspace_inv s → p ∈ WORKSPACE_WATCH_PROPS → wspace_inv (snd (ws_setWatch c p b s)).
Proof.
  intros Hi Hpp.
  destruct (ws_setWatch_spec c p b s)
    as [|e He|e s' _ Hno|hs sg0 s' -> Hsg0 Hhs Hp Hf Hget Hsl _ _|hs h s' -> Hhs Hp Hf Hget Hsl _ _];
    [done..|by rewrite workspaceSignal_watchable in Hno|by eapply ws_register_inv|
     by eapply ws_unregister_inv].
Qed.
End WspaceInv.
