(* ===== verification/Invariant.v ===== *)
(** * The invariant of the running script

    [inv] joins the invariants of the components: the token registry, the two
    listener registries with the slots connected to KWin, the slots the script
    connects at load, and the client registry.  [evolves] is what any piece of
    the script's code may do over time: an entry keeps its owner and its
    binding, a token that left the registry stays out, and its leaving is
    notified to an owner that is still connected.  [good s s'] says both of a
    transition; it is a preorder, so the code of an operation is covered piece
    by piece. *)
From S2P Require Export Refine WspaceInv System.

Section Invariant.
Context {E : Env} `{!QTimerLaws E, !SignalLaws E}.
Implicit Types (s : state) (c : conn) (e : positive) (en : TokenEntry).

Record clients_inv (n : positive) (cs : ClientsState) : Prop := ClientsInv {
  ci_conn id c : jm_get id (connections cs) = Some c →
    conn_id c = id ∧ alive cs !! c = Some true ∧ ∃ l, loops cs !! c = Some l ∧ l ≠ LDone;
  ci_alive c : alive cs !! c = Some true → jm_get (conn_id c) (connections cs) = Some c;
  ci_fresh c : is_Some (alive cs !! c) ∨ is_Some (loops cs !! c) → (conn_ref c < n)%positive;
}.

(** The signal a slot of the script's own belongs to. *)
Definition slot_home (x : slot) (sg : signal) : Prop :=
  match x with
  | SlotDesktopsChanged => sg = SigWorkspace "desktopsChanged"
  | SlotActivityAdded => sg = SigWorkspace "activityAdded"
  | SlotActivityRemoved => sg = SigWorkspace "activityRemoved"
  | SlotWindowAdded => sg = SigWorkspace "windowAdded"
  | SlotWindowRemoved => sg = SigWorkspace "windowRemoved"
  | SlotCaption w => sg = SigWindow w "captionNormalChanged"
  | _ => True
  end.

(** The slots that the script connects to the workspace when it loads. *)
Definition own_slots : list (signal * slot) := [
  (SigWorkspace "desktopsChanged", SlotDesktopsChanged);
  (SigWorkspace "activityAdded", SlotActivityAdded);
  (SigWorkspace "activityRemoved", SlotActivityRemoved);
  (SigWorkspace "windowAdded", SlotWindowAdded);
  (SigWorkspace "windowRemoved", SlotWindowRemoved)].

(** KWin does not throw while the script loads. *)
Definition kwin_loads : Prop := ∀ a, kwin_load_error a = None.

(** The slots connected at load, all of them unless KWin threw, stay connected;
    those of the script's own are connected to their signal only. *)
Record base_inv (s : state) : Prop := BaseInv {
  bi_wired : kwin_loads → ∀ sg x, (sg, x) ∈ own_slots → x ∈ slots s sg;
  bi_home sg x : x ∈ slots s sg → slot_home x sg;
  bi_catalogs : catalogs_ok (windows s);
}.

Lemma own_slot_no_listener sg x : (sg, x) ∈ own_slots → is_listener x = false.
Proof. unfold own_slots. rewrite !elem_of_cons, elem_of_nil. naive_solver. Qed.

Record inv (s : state) : Prop := Inv {
  inv_tokens : tokens_inv (fresh (host s)) (tokens s);
  inv_watch : watch_inv s;
  inv_wspace : wspace_inv s;
  inv_once : once_inv s;
  inv_base : base_inv s;
  inv_clients : clients_inv (fresh (host s)) (clients s);
}.

(** [eff] was emitted between [s] and [s']. *)
Definition emitted (s s' : state) (eff : effect) : Prop :=
  ∃ l, out s' = out s ++ l ∧ eff ∈ l.

(** The [window] member of a token notification, read in the world [W]. *)
Definition window_member (W : World) (w : option window) : value :=
  match w with Some w => Obj [("caption", Str (captionNormal W w))] | None => Null end.

Definition validation (t : string) (win : value) : value :=
  Obj [("token", Str t); ("window", win)].

Definition invalidation (t : string) (reason : TokenReason) (win : value) : value :=
  Obj [("token", Str t); ("reason", Str (TokenReason_string reason)); ("window", win)].

(** A connection object that exists. *)
Definition known (c : conn) (s : state) : Prop := (conn_ref c < fresh (host s))%positive.

(** The owner was told between [s] and [s'], unless it disconnected by then. *)
Definition told (c : conn) (method : string) (params : World → value) (s s' : state) : Prop :=
  known c s' ∧ (is_alive c s' = true → ∃ W, emitted s s' (notification c method (params W))).

Definition note_done (s s' : state) (n : note) : Prop :=
  match n with
  | Validated c t w =>
    told c "token.validated" (λ W, validation t (window_member W (Some w))) s s'
  | Invalidated c t reason w =>
    told c "token.invalidated" (λ W, invalidation t reason (window_member W w)) s s'
  | Gone id => ∀ c, known c s → conn_id c = id → is_alive c s' = false
  end.

Record evolves (s s' : state) : Prop := Evolves {
  ev_tokens : tk_evolves (tokens s) (tokens s');
  ev_fresh : (fresh (host s) ≤ fresh (host s'))%positive;
  ev_out : out s `prefix_of` out s';
  ev_alive c : is_alive c s' = true → is_alive c s = true ∨ (fresh (host s) ≤ conn_ref c)%positive;
  ev_control : control (clients s) ≠ CNotStarted → control (clients s') ≠ CNotStarted;
  ev_spec : ∃ ns, spec_run (abs (tokens s)) ns (abs (tokens s')) ∧ Forall (note_done s s') ns;
}.

Definition good (s s' : state) : Prop := inv s → inv s' ∧ evolves s s'.

Lemma emitted_l s1 s2 s3 eff : emitted s1 s2 eff → out s2 `prefix_of` out s3 → emitted s1 s3 eff.
Proof.
  intros (l & Hl & Hin) [l' Hl']. exists (l ++ l'). rewrite Hl', Hl, app_assoc.
  split; [done|]. rewrite elem_of_app. by left.
Qed.

Lemma emitted_r s1 s2 s3 eff : out s1 `prefix_of` out s2 → emitted s2 s3 eff → emitted s1 s3 eff.
Proof.
  intros [l' Hl'] (l & Hl & Hin). exists (l' ++ l). rewrite Hl, Hl', app_assoc.
  split; [done|]. rewrite elem_of_app. by right.
Qed.

Lemma evolves_refl s : evolves s s.
Proof.
  split; [done|lia|done|by left|done|]. exists []. split; [constructor|done].
Qed.

Lemma known_evolves c s s' : evolves s s' → known c s → known c s'.
Proof. intros Hev. pose proof (ev_fresh _ _ Hev). unfold known. lia. Qed.

(** A connection that existed can only be alive if it was. *)
Lemma alive_evolves c s s' :
  evolves s s' → known c s → is_alive c s' = true → is_alive c s = true.
Proof.
  intros Hev Hk Ha. destruct (ev_alive _ _ Hev _ Ha) as [|Hle]; [done|].
  unfold known in Hk. lia.
Qed.

Lemma told_l c m f s1 s2 s3 : told c m f s1 s2 → evolves s2 s3 → told c m f s1 s3.
Proof.
  intros [Hk Ht] Hev. split; [by eapply known_evolves|].
  intros Ha%(alive_evolves _ _ _ Hev Hk). destruct (Ht Ha) as [W Hem].
  exists W. eapply emitted_l; [done|apply Hev].
Qed.

Lemma told_r c m f s1 s2 s3 : evolves s1 s2 → told c m f s2 s3 → told c m f s1 s3.
Proof.
  intros Hev [Hk Ht]. split; [done|]. intros Ha. destruct (Ht Ha) as [W Hem].
  exists W. eapply emitted_r; [apply Hev|done].
Qed.

Lemma note_done_l n s1 s2 s3 : note_done s1 s2 n → evolves s2 s3 → evolves s1 s2 → note_done s1 s3 n.
Proof.
  destruct n as [c t w|c t r w|id]; simpl; [by eauto using told_l..|].
  intros Hg H23 H12 c Hk Hid. destruct (is_alive c s3) eqn:Ha; [|done].
  rewrite <- (Hg c Hk Hid). symmetry.
  exact (alive_evolves _ _ _ H23 (known_evolves _ _ _ H12 Hk) Ha).
Qed.

Lemma note_done_r n s1 s2 s3 : evolves s1 s2 → note_done s2 s3 n → note_done s1 s3 n.
Proof.
  destruct n as [c t w|c t r w|id]; simpl; [by eauto using told_r..|].
  intros H12 Hg c Hk. apply Hg. by eapply known_evolves.
Qed.

Lemma evolves_trans s1 s2 s3 : evolves s1 s2 → evolves s2 s3 → evolves s1 s3.
Proof.
  intros H12 H23. split.
  - etrans; [apply H12|apply H23].
  - pose proof (ev_fresh _ _ H12). pose proof (ev_fresh _ _ H23). lia.
  - etrans; [apply H12|apply H23].
  - intros c Hc. pose proof (ev_fresh _ _ H12).
    destruct (ev_alive _ _ H23 c Hc) as [Hc2|]; [|right; lia]. by apply (ev_alive _ _ H12).
  - intros Hc. by apply (ev_control _ _ H23), (ev_control _ _ H12).
  - destruct (ev_spec _ _ H12) as (ns1 & Hr1 & Hn1), (ev_spec _ _ H23) as (ns2 & Hr2 & Hn2).
    exists (ns1 ++ ns2). split; [by eapply spec_run_app|].
    apply Forall_app. split.
    + eapply Forall_impl; [exact Hn1|]. intros n Hn. by eapply note_done_l.
    + eapply Forall_impl; [exact Hn2|]. intros n Hn. by eapply note_done_r.
Qed.

#[export] Instance good_preorder : PreOrder good.
Proof.
  split.
  - intros s Hi. split; [done|apply evolves_refl].
  - intros s1 s2 s3 H12 H23 Hi. destruct (H12 Hi) as [Hi2 He12].
    destruct (H23 Hi2) as [Hi3 He23]. split; [done|]. by eapply evolves_trans.
Qed.

(** The invariant of the first state may be used to cover the code. *)
Lemma good_assuming s s' : (inv s → good s s') → good s s'.
Proof. intros H Hi. by apply H. Qed.

(** Transitions that leave the registry of tokens alone. *)
Lemma evolves_same_tokens s s' :
  tokens s' = tokens s → (fresh (host s) ≤ fresh (host s'))%positive →
  out s `prefix_of` out s' →
  (∀ c, is_alive c s' = true → is_alive c s = true ∨ (fresh (host s) ≤ conn_ref c)%positive) →
  (control (clients s) ≠ CNotStarted → control (clients s') ≠ CNotStarted) →
  evolves s s'.
Proof.
  intros Ht Hf Ho Ha Hctl. split; try done; [by rewrite Ht|].
  exists []. rewrite Ht. split; [constructor|done].
Qed.

Lemma clients_inv_mono n n' cs : (n ≤ n')%positive → clients_inv n cs → clients_inv n' cs.
Proof.
  intros Hn Hi. split; [apply Hi..|]. intros c Hc. pose proof (ci_fresh _ _ Hi c Hc). lia.
Qed.

Lemma base_inv_same s s' :
  base_inv s → (catalogs_ok (windows s) → catalogs_ok (windows s')) →
  same_slots (λ x, negb (is_listener x)) s s' → base_inv s'.
Proof.
  intros [Hw Hh Hcat] Hok Hsl. split; [| |by apply Hok].
  { intros Hk sg x Hx. apply Hsl; [|by apply Hw]. by rewrite (own_slot_no_listener _ _ Hx). }
  intros sg x Hx. destruct (is_listener x) eqn:Hl; [by destruct x|].
  apply Hh, Hsl; [by rewrite Hl|done].
Qed.

Lemma tokens_inv_mono n n' tk : (n ≤ n')%positive → tokens_inv n tk → tokens_inv n' tk.
Proof.
  intros Hn Hi. split; try apply Hi. intros e en He.
  destruct (ti_fresh _ _ Hi _ _ He). lia.
Qed.

(** ** Quiet transitions: outputs, KWin's own changes, the catalogs *)

Record quiet (s s' : state) : Prop := Quiet {
  qu_signals : signals (host s') = signals (host s);
  qu_fresh : fresh (host s') = fresh (host s);
  qu_tokens : tokens s' = tokens s;
  qu_watches : watchesByToken (windows s') = watchesByToken (windows s);
  qu_catalogs : catalogs_ok (windows s) → catalogs_ok (windows s');
  qu_wspace : wspace s' = wspace s;
  qu_clients : clients s' = clients s;
  qu_out : out s `prefix_of` out s';
}.

Lemma quiet_good s s' : quiet s s' → good s s'.
Proof.
  intros [Hsg Hf Ht Hw Hcat Hp Hc Ho] [Hit Hiw Hip Hio Hib Hic].
  assert (Hsl : ∀ sg, slots s' sg = slots s sg) by (intros; unfold slots; by rewrite Hsg).
  assert (Hle : (fresh (host s) ≤ fresh (host s'))%positive) by (rewrite Hf; lia).
  split.
  - split.
    + by rewrite Hf, Ht.
    + apply (watch_inv_change [] s); [done|rewrite Ht; apply keeps_refl|done| |].
      * intros t. by rewrite Hw.
      * intros sg h. rewrite Hsl. split; [|by intros [? _]].
        intros ?. split; [done|apply not_elem_of_nil].
    + eapply wspace_inv_same; [done..|]. intros sg x _. by rewrite Hsl.
    + intros sg. unfold listeners. rewrite Hsl. apply Hio.
    + eapply base_inv_same; [done..|]. intros sg x _. by rewrite Hsl.
    + by rewrite Hf, Hc.
  - apply evolves_same_tokens; [done..| |by rewrite Hc]. intros c Ha. left.
    by rewrite <- (is_alive_clients c s s').
Qed.

Lemma same_heap_quiet s s' : same_heap s s' → out s `prefix_of` out s' → quiet s s'.
Proof. intros [Hh ? Hw ? ?] Ho. split; rewrite ?Hh, ?Hw; done. Qed.

Lemma emit_quiet eff s : quiet s (emit eff s).
Proof. split; try done. by eexists. Qed.

Lemma sendLog_quiet l m s : quiet s (sendLog l m s).
Proof. apply emit_quiet. Qed.

Lemma notifyClient_quiet c m p s : quiet s (notifyClient c m p s).
Proof. apply same_heap_quiet; [auto with script|]. rewrite notifyClient_out. by eexists. Qed.

Lemma world_quiet W s : quiet s (upd_host (upd_world (λ _, W)) s).
Proof. done. Qed.

(** ** Tokens leave the registry *)

(** The registry loses the tokens [toks], and their listeners with them. *)
Lemma inv_drop toks tk' s :
  inv s → tokens_inv (fresh (host s)) tk' → keeps toks (tokens s) tk' →
  inv (dropClientWatches toks (upd_tokens (λ _, tk') s)).
Proof.
  intros [Hit Hiw Hip Hio Hib Hic] Htk Hk.
  set (s1 := upd_tokens (λ _, tk') s).
  pose proof (dropClientWatches_frame toks s1) as [_ Hf _ Ht Hcd Hca Hp Hc _ _].
  assert (Hdrop : ∀ sg h, SlotWindowProp h ∈ slots (dropClientWatches toks s1) sg ↔
    SlotWindowProp h ∈ slots s sg ∧ wh_token h ∉ toks).
  { intros sg h. rewrite <- (drop_slots toks s sg h Hiw), !dropClientWatches_elem. done. }
  assert (Hsame : same_slots (λ x, negb (is_window_listener x)) s (dropClientWatches toks s1)).
  { exact (drop_same_slots toks s1). }
  split.
  - by rewrite Hf, Ht.
  - apply (watch_inv_change toks s); [done|by rewrite Ht|by rewrite Hf| |done].
    intros t. apply (dropClientWatches_get toks t s1).
  - eapply wspace_inv_same; [done..|by rewrite Hf|].
    intros sg x Hx. apply Hsame. by destruct x.
  - apply (once_inv_shrinks s1); [exact Hio|apply dropClientWatches_shrinks].
  - eapply base_inv_same; [done| |intros sg x Hx; apply Hsame; by destruct x].
    unfold catalogs_ok. by rewrite Hcd, Hca.
  - by rewrite Hf, Hc.
Qed.
End Invariant.

#[export] Hint Resolve emit_quiet sendLog_quiet notifyClient_quiet world_quiet quiet_good : script.
