(* ===== verification/Transitions.v ===== *)
(** * Every operation preserves the invariant

    For each piece of the script's code, from the token state machine to the
    coroutines of clients.ts: run in a state that satisfies [inv], it leaves
    one that does, and what it did is an evolution in the sense of
    Invariant.v. *)
From S2P Require Export Invariant.

Section Tokens.
Context {E : Env} `{!QTimerLaws E, !SignalLaws E}.
Implicit Types (s : state) (c : conn) (e : positive) (en : TokenEntry) (w : window).

Definition registered (t : string) (e : positive) (s : state) : Prop :=
  registered_in (tokens s) t e.

Lemma entry_unique s t e en :
  inv s → registered t e s → entry_at e s = Some en → te_token en = t.
Proof. intros Hi. apply (registered_token _ _ t e en (inv_tokens _ Hi)). Qed.

(** ** [invalidate] *)

(** The state after an entry and its listeners left, its timer updated by [f]. *)
Definition without (f : QTimer → QTimer) (e : positive) (en : TokenEntry) (s : state) : state :=
  dropClientWatches [te_token en]
    (upd_tokens (λ _, tk_remove f e en (tokens s)) s).

Definition invalidation_message (en : TokenEntry) (reason : TokenReason) : string :=
  "token " +:+ te_token en +:+ " invalidated (" +:+ TokenReason_string reason
    +:+ ") for client " +:+ number_to_string (conn_id (te_conn en)).

(** [without], and the owner told. *)
Definition left_with (f : QTimer → QTimer) (e : positive) (en : TokenEntry)
    (reason : TokenReason) (s : state) : state :=
  sendLog "info" (invalidation_message en reason)
    (notifyClient (te_conn en) "token.invalidated"
      (invalidated_params en reason s) (without f e en s)).

Lemma invalidate_unfold e en reason s :
  entry_at e s = Some en → invalidate e reason s = left_with timer_stop e en reason s.
Proof.
  intros He. unfold invalidate, left_with. rewrite He, forget_window_tokens.
  assert (Hp : ∀ s', world (host s') = world (host s) →
    invalidated_params en reason s' = invalidated_params en reason s).
  { intros s' Hw. unfold invalidated_params, windowInfo. by rewrite Hw. }
  rewrite Hp; [reflexivity|].
  exact (wf_world _ _ (dropClientWatches_frame [te_token en] _)).
Qed.

Lemma without_frame f e en s :
  tokens (without f e en s) = tk_remove f e en (tokens s) ∧
  wspace (without f e en s) = wspace s ∧ clients (without f e en s) = clients s ∧
  fresh (host (without f e en s)) = fresh (host s) ∧
  world (host (without f e en s)) = world (host s) ∧
  pushes (out (without f e en s)) = pushes (out s) ∧
  out s `prefix_of` out (without f e en s).
Proof.
  pose proof (dropClientWatches_frame [te_token en]
    (upd_tokens (λ _, tk_remove f e en (tokens s)) s)) as [].
  unfold without. done.
Qed.

Lemma tk_remove_keeps n f e en tk :
  tokens_inv n tk → entries tk !! e = Some en → registered_in tk (te_token en) e →
  keeps [te_token en] tk (tk_remove f e en tk).
Proof.
  intros Hi He Hr t e' en' Ht Hr' He'.
  assert (Hne : te_token en ≠ t) by (intros Heq; apply Ht; rewrite Heq; by left).
  rewrite tk_remove_registered. split; [done|]. exists en'.
  rewrite tk_remove_entries, decide_False; [done|].
  intros ->. apply Hne. assert (en' = en) as -> by congruence.
  exact (registered_token n tk t e' en Hi Hr' He').
Qed.

Lemma left_with_quiet f e en reason s :
  quiet (without f e en s) (left_with f e en reason s) ∧
  out s `prefix_of` out (left_with f e en reason s).
Proof.
  destruct (without_frame f e en s) as (_ & _ & _ & _ & _ & _ & Ho).
  assert (Hq : quiet (without f e en s) (left_with f e en reason s)).
  { apply same_heap_quiet; [etrans; [apply notifyClient_same_heap|done]|].
    unfold left_with. rewrite sendLog_out, notifyClient_out, <- app_assoc. by eexists. }
  split; [done|]. etrans; [exact Ho|apply Hq].
Qed.

(** Whatever [f] does to the timer, as long as it ends up stopped. *)
Lemma left_with_good f e en reason s :
  (∀ x, timer_active (f x) = false) → (∀ x, timer_singleShot (f x) = timer_singleShot x) →
  entry_at e s = Some en → registered (te_token en) e s → may_leave (abs_entry en) reason →
  good s (left_with f e en reason s).
Proof.
  intros Hf1 Hf2 He Hr Hleave Hi.
  destruct (without_frame f e en s) as (Ht & _ & Hc & Hf & _ & _ & Ho).
  destruct (left_with_quiet f e en reason s) as [Hq Hout].
  assert (Hinv : inv (without f e en s)).
  { apply inv_drop; [done|by apply tk_remove_inv; [..|apply Hi| |]|].
    eapply tk_remove_keeps; [apply Hi|done..]. }
  split; [by apply (quiet_good _ _ Hq)|]. split.
  - rewrite (qu_tokens _ _ Hq), Ht. apply tk_remove_evolves.
  - rewrite (qu_fresh _ _ Hq), Hf. lia.
  - done.
  - intros c Ha. left. rewrite <- Ha. symmetry. apply is_alive_clients.
    by rewrite (qu_clients _ _ Hq).
  - by rewrite (qu_clients _ _ Hq), Hc.
  - exists [Invalidated (te_conn en) (te_token en) reason (te_window en)]. split.
    + apply spec_run_one. rewrite (qu_tokens _ _ Hq), Ht.
      rewrite (abs_remove _ _ _ _ _ (inv_tokens _ Hi) He Hr).
      apply (sp_leave (te_token en) (abs_entry en)); [|done].
      exact (abs_registered _ _ _ _ Hr He).
    + apply Forall_singleton. split.
      { destruct (ti_fresh _ _ (inv_tokens _ Hi) _ _ He) as [_ Hlt].
        unfold known. by rewrite (qu_fresh _ _ Hq), Hf. }
      intros Ha. exists (world (host s)).
      assert (Ha2 : is_alive (te_conn en) (without f e en s) = true).
      { rewrite <- Ha. symmetry. apply is_alive_clients, Hq. }
      apply emitted_r with (without f e en s); [exact Ho|].
      unfold emitted, left_with. rewrite sendLog_out, notifyClient_out, Ha2, <- app_assoc.
      eexists; split; [reflexivity|]. by left.
Qed.

Lemma invalidate_good e en reason s :
  entry_at e s = Some en → registered (te_token en) e s → may_leave (abs_entry en) reason →
  good s (invalidate e reason s).
Proof.
  intros He Hr Hl. rewrite (invalidate_unfold e en reason s He).
  by apply left_with_good; auto using timer_stop_inactive, timer_stop_singleShot.
Qed.

(** ** [validate] *)

(** The entry bound to [w], and its owner told. *)
Definition bound_with (msg : string) (e : positive) (en : TokenEntry) (w : window) (s : state) : state :=
  sendLog "info" msg (notifyClient (te_conn en) "token.validated" (validated_params en w s)
    (upd_tokens (tk_bind e w) s)).

Lemma bound_with_quiet msg e en w s :
  quiet (upd_tokens (tk_bind e w) s) (bound_with msg e en w s).
Proof.
  apply same_heap_quiet; [etrans; [apply notifyClient_same_heap|done]|].
  unfold bound_with. rewrite sendLog_out, notifyClient_out, <- app_assoc. by eexists.
Qed.

Lemma bind_inv e en w s :
  inv s → entry_at e s = Some en → registered (te_token en) e s → te_state en = pending →
  jm_get (windowKey w) (byWindow (tokens s)) = None →
  inv (upd_tokens (tk_bind e w) s).
Proof.
  intros [Hit Hiw Hip Hio Hib Hic] He Hr Hst Hfree.
  split; [by eapply tk_bind_inv| |by eapply wspace_inv_same|done|by destruct Hib|done].
  apply (watch_inv_change [] s); [done| |simpl; lia|done|].
  - intros t e' en' _ Hr' He'. split; [done|]. simpl. rewrite lookup_alter.
    case_decide as Heq; [subst; rewrite He'|by eauto]. eexists; split; [done|].
    simpl. split; [done|]. intros Hwn. destruct Hwn.
    assert (en' = en) as -> by (unfold entry_at in He; congruence).
    by eapply ti_pending.
  - intros sg h. split; [|by intros [? _]]. intros ?. split; [done|apply not_elem_of_nil].
Qed.

Lemma bound_with_good msg e en w s :
  entry_at e s = Some en → registered (te_token en) e s → te_state en = pending →
  jm_get (windowKey w) (byWindow (tokens s)) = None →
  good s (bound_with msg e en w s).
Proof.
  intros He Hr Hst Hfree Hi. pose proof (bound_with_quiet msg e en w s) as Hq.
  pose proof (inv_tokens _ Hi) as Hit. split.
  - apply (quiet_good _ _ Hq). by eapply bind_inv.
  - split.
    + rewrite (qu_tokens _ _ Hq). by eapply tk_bind_evolves.
    + rewrite (qu_fresh _ _ Hq). simpl. lia.
    + apply Hq.
    + intros c Ha. left. rewrite <- Ha. symmetry. apply is_alive_clients, Hq.
    + by rewrite (qu_clients _ _ Hq).
    + exists [Validated (te_conn en) (te_token en) w]. split.
      * apply spec_run_one. rewrite (qu_tokens _ _ Hq). simpl.
        rewrite (abs_bind _ _ _ _ _ Hit He Hr Hst). apply sp_bind.
        -- rewrite (abs_registered _ _ _ _ Hr He). f_equal. by eapply abs_pending.
        -- intros t' cl Ht' Hw.
           destruct (abs_window _ _ _ _ _ Hit Ht' Hw) as (e' & en' & _ & _ & _ & _ & _ & Hk).
           congruence.
      * apply Forall_singleton. split.
        { destruct (ti_fresh _ _ Hit _ _ He) as [_ Hlt].
          unfold known. by rewrite (qu_fresh _ _ Hq). }
        intros Ha. exists (world (host s)).
        assert (Ha2 : is_alive (te_conn en) (upd_tokens (tk_bind e w) s) = true).
        { rewrite <- Ha. symmetry. apply is_alive_clients, Hq. }
        unfold emitted, bound_with. rewrite sendLog_out, notifyClient_out, Ha2, <- app_assoc.
        eexists; split; [reflexivity|]. by left.
Qed.

(** The state in which [validate] binds the entry. *)
Definition superseded_state (e : positive) (w : window) (s : state) : state :=
  match jm_get (windowKey w) (byWindow (tokens s)) with
  | Some existing => if decide (existing = e) then s else invalidate existing superseded s
  | None => s
  end.

Lemma validate_unfold e en w s :
  entry_at e s = Some en →
  ∃ msg, validate e w s = bound_with msg e en w (superseded_state e w s).
Proof. intros He. unfold validate. rewrite He. eexists. reflexivity. Qed.

Lemma window_owner s k e :
  inv s → jm_get k (byWindow (tokens s)) = Some e →
  ∃ en w, entry_at e s = Some en ∧ te_state en = active ∧ te_window en = Some w ∧
    windowKey w = k ∧ registered (te_token en) e s.
Proof. intros Hi. apply (ti_window _ _ (inv_tokens _ Hi)). Qed.

Lemma invalidate_tokens e en reason s :
  entry_at e s = Some en →
  tokens (invalidate e reason s) = tk_remove timer_stop e en (tokens s).
Proof.
  intros He. rewrite (invalidate_unfold e en reason s He). unfold left_with.
  simpl. rewrite (sh_tokens _ _ (notifyClient_same_heap _ _ _ _)). apply without_frame.
Qed.

(** After superseding, the window is free and the entry is as before. *)
Lemma superseded_spec e en w s :
  inv s → entry_at e s = Some en → registered (te_token en) e s → te_state en = pending →
  let s1 := superseded_state e w s in
  good s s1 ∧ entry_at e s1 = Some en ∧ registered (te_token en) e s1 ∧
  jm_get (windowKey w) (byWindow (tokens s1)) = None.
Proof.
  intros Hi He Hr Hst. unfold superseded_state.
  destruct (jm_get (windowKey w) (byWindow (tokens s))) as [e'|] eqn:Hk; [|done].
  destruct (window_owner _ _ _ Hi Hk) as (en' & w' & He' & Hst' & Hw' & Hkey & Hr').
  assert (Hne : e' ≠ e) by (intros ->; congruence).
  rewrite decide_False by done. simpl.
  unfold entry_at, registered. rewrite (invalidate_tokens e' en' _ _ He').
  rewrite tk_remove_entries, tk_remove_registered, decide_False by done.
  split; [eapply invalidate_good; [done..|]|]; [|split; [done|]; split].
  - split; [|done]. simpl. rewrite Hw'. done.
  - split; [|done]. intros Heq. apply Hne. rewrite Heq in Hr'. by eapply registered_inj.
  - rewrite tk_remove_byWindow, Hst', Hw', Hkey. apply jm_get_delete_eq.
Qed.

Lemma validate_good e en w s :
  entry_at e s = Some en → registered (te_token en) e s → te_state en = pending →
  good s (validate e w s).
Proof.
  intros He Hr Hst. apply good_assuming. intros Hi.
  destruct (superseded_spec e en w s Hi He Hr Hst) as (Hg & He1 & Hr1 & Hk1).
  destruct (validate_unfold e en w s He) as [msg ->].
  etrans; [exact Hg|]. by eapply bound_with_good.
Qed.

(** ** The event handlers *)

Lemma registered_entry s t e :
  inv s → registered t e s → ∃ en, entry_at e s = Some en ∧ te_token en = t.
Proof. intros Hi. apply (ti_token _ _ (inv_tokens _ Hi)). Qed.

Lemma checkCaption_good w s : good s (checkCaption w s).
Proof.
  apply good_assuming. intros Hi. unfold checkCaption. case_goal; [reflexivity|].
  destruct (jm_get _ (byToken (tokens s))) as [e|] eqn:Hr; [|reflexivity].
  destruct (entry_at e s) as [en|] eqn:He; [|reflexivity].
  case_goal; [reflexivity|].
  assert (Hr' : registered (te_token en) e s).
  { destruct (registered_entry _ _ _ Hi Hr) as (en' & He' & Ht).
    assert (en' = en) as -> by congruence. by rewrite Ht. }
  destruct (te_window en) as [w'|] eqn:Hw.
  - case_decide; [reflexivity|]. eapply invalidate_good; [done..|].
    split; simpl; [by rewrite Hw|]. intros _. by apply negb_false_iff.
  - apply (validate_good e en w s He Hr').
    destruct (te_state en) eqn:Hst; [done|].
    destruct (ti_active _ _ (inv_tokens _ Hi) _ _ He Hr' Hst) as (w' & ? & _). congruence.
Qed.

Lemma onWindowRemoved_good w s : good s (onWindowRemoved w s).
Proof.
  apply good_assuming. intros Hi. unfold onWindowRemoved.
  destruct (jm_get _ (byWindow (tokens s))) as [e|] eqn:Hk; [|reflexivity].
  destruct (window_owner _ _ _ Hi Hk) as (en & w' & He & _ & Hw & _ & Hr).
  eapply invalidate_good; [done..|]. split; [|done]. simpl. by rewrite Hw.
Qed.

Lemma listener_tail (sg' sg : signal) x :
  is_listener x = false → filter is_listener (if decide (sg' = sg) then [x] else []) = [].
Proof.
  intros Hx. case_decide; [|done]. rewrite filter_cons, decide_False; [done|].
  rewrite Hx. by intros [].
Qed.

(** Connecting a slot that is no listener. *)
Lemma connect_good sg x s : is_listener x = false → slot_home x sg → good s (connect sg x s).
Proof.
  intros Hx Hhome [Hit Hiw Hip Hio Hib Hic].
  assert (Hsame : same_slots is_listener s (connect sg x s)).
  { intros sg' y Hy. rewrite connect_elem. split; [|by left].
    intros [?|[-> ->]]; [done|]. rewrite Hx in Hy. done. }
  assert (Hgrow : ∀ sg' y, y ∈ slots s sg' → y ∈ slots (connect sg x s) sg').
  { intros sg' y Hy. rewrite connect_elem. by left. }
  split; [|apply evolves_same_tokens; [done|simpl; lia|done|by left|done]].
  split; [exact Hit| | | | |exact Hic].
  - apply (watch_inv_change [] s); [done|apply keeps_refl|done|done|].
    intros sg' h. rewrite (Hsame sg' (SlotWindowProp h)) by done.
    split; [|by intros [? _]]. intros ?. split; [done|apply not_elem_of_nil].
  - eapply wspace_inv_same; [done..|]. intros sg' y Hy. apply Hsame. by destruct y.
  - intros sg'. unfold listeners. rewrite connect_slots, filter_app.
    rewrite (listener_tail sg' sg x Hx), app_nil_r. apply Hio.
  - destruct Hib as [Hw Hh Hcat]. split; [| |exact Hcat].
    { intros Hk sg' y Hy. by apply Hgrow, Hw. }
    intros sg' y [Hy|[-> ->]]%connect_elem; [by apply Hh|done].
Qed.

Lemma onWindowAdded_good w s : good s (onWindowAdded w s).
Proof.
  unfold onWindowAdded. etrans; [|apply checkCaption_good]. by apply connect_good.
Qed.

(** ** Deadlines *)

(** A running deadline timer belongs to a registered entry. *)
Lemma running_registered s e en :
  inv s → entry_at e s = Some en → timer_active (te_deadlineTimer en) = true →
  registered (te_token en) e s.
Proof.
  intros Hi He Ha. unfold registered, registered_in.
  destruct (decide (jm_get (te_token en) (byToken (tokens s)) = Some e)) as [|Hn]; [done|].
  pose proof (ti_dead _ _ (inv_tokens _ Hi) _ _ He Hn). congruence.
Qed.

(** The deadline of an active token: only the ambiguity window closes. *)
Lemma tick_good e en s :
  entry_at e s = Some en → registered (te_token en) e s →
  te_state en = active → timer_active (te_deadlineTimer en) = true →
  good s (upd_tokens (tk_tick e) s).
Proof.
  intros He Hr Hst Hact [Hit Hiw Hip Hio Hib Hic].
  destruct (ti_active _ _ Hit _ _ He Hr Hst) as (w & Hw & _). split.
  - split; [by eapply tk_tick_inv| |by eapply wspace_inv_same|done|by destruct Hib|done].
    apply (watch_inv_change [] s); [done| |simpl; lia|done|].
    + intros t e' en' _ Hr' He'. split; [done|]. simpl. rewrite lookup_alter.
      case_decide; subst; rewrite He'; eexists; (split; [reflexivity|]); done.
    + intros sg h. split; [|by intros [? _]]. intros ?. split; [done|apply not_elem_of_nil].
  - split; try done; [apply tk_tick_evolves|by left|]. exists []. split; [|done].
    apply spec_run_one. simpl. rewrite (abs_tick _ _ _ w _ Hit He Hr Hw). apply sp_close.
    rewrite (abs_registered _ _ _ _ Hr He). unfold abs_entry. by rewrite Hw, Hact.
Qed.

Lemma tick_remove f e en tk :
  entries tk !! e = Some en →
  tk_remove f e (upd_timer timer_timeout en) (tk_tick e tk) =
  tk_remove (f ∘ timer_timeout) e en tk.
Proof.
  intros He. unfold tk_remove, tk_forget, tk_tick. simpl.
  assert (Ha : upd_entries (alter (upd_timer f) e) (upd_entries (alter (upd_timer timer_timeout) e) tk)
    = upd_entries (alter (upd_timer (f ∘ timer_timeout)) e) tk).
  { unfold upd_entries. simpl. by rewrite alter_alter_eq. }
  by rewrite Ha.
Qed.

(** The deadline of a pending token is [invalidate] with a timer that ran out. *)
Lemma deadline_pending e en s :
  entry_at e s = Some en → te_state en = pending →
  deadline_fires e s = left_with (timer_stop ∘ timer_timeout) e en timeout s.
Proof.
  intros He Hst.
  assert (He1 : entry_at e (upd_entry e (upd_timer timer_timeout) s)
                = Some (upd_timer timer_timeout en)).
  { unfold entry_at. simpl. rewrite lookup_alter_eq. unfold entry_at in He. by rewrite He. }
  unfold deadline_fires, onTokenDeadline. rewrite He1. simpl. rewrite Hst.
  rewrite (invalidate_unfold e _ timeout _ He1). unfold left_with, without. simpl.
  pose proof (tick_remove timer_stop e en (tokens s) He) as Ht. unfold tk_tick in Ht.
  rewrite Ht. reflexivity.
Qed.

Lemma deadline_fires_good e en s :
  entry_at e s = Some en → timer_active (te_deadlineTimer en) = true →
  good s (deadline_fires e s).
Proof.
  intros He Ha. apply good_assuming. intros Hi.
  pose proof (running_registered _ _ _ Hi He Ha) as Hr.
  destruct (te_state en) eqn:Hst.
  - rewrite (deadline_pending e en s He Hst). apply left_with_good; try done.
    + intros x. apply timer_stop_inactive.
    + intros x. simpl. by rewrite timer_stop_singleShot, timer_timeout_singleShot.
    + split; [|done]. simpl. by rewrite (ti_pending _ _ (inv_tokens _ Hi) _ _ He Hst).
  - unfold deadline_fires, onTokenDeadline, entry_at. simpl. rewrite lookup_alter_eq.
    unfold entry_at in He. rewrite He. simpl. rewrite Hst. by eapply tick_good.
Qed.
End Tokens.
