(* ===== verification/Operations.v ===== *)
(** * Every operation preserves the invariant, continued

    The listeners, KWin's signals, the JSON-RPC methods and the message
    loops: with Transitions.v this covers every step of System.v, so that
    [inv] holds in all reachable states. *)
From S2P Require Export Transitions.

Section Listeners.
Context {E : Env} `{!QTimerLaws E, !SignalLaws E}.
Implicit Types (s : state) (c : conn) (w : window).

(** A listener with a fresh identity is not connected yet. *)
Lemma fresh_win_handler c t w p s sg :
  watch_inv s → SlotWindowProp (WinHandler (fresh (host s)) c t w p) ∉ slots s sg.
Proof.
  intros Hi Hin. destruct (proj1 (wi_slot _ Hi _ _) Hin) as (_ & st & Hst & Hh).
  destruct (wi_state _ Hi _ _ Hst) as (e & en & _ & _ & _ & _ & Hall).
  destruct (Hall _ _ Hh) as (_ & _ & _ & _ & _ & Hlt). simpl in Hlt. lia.
Qed.

Lemma fresh_ws_handler c p s sg :
  wspace_inv s → SlotWorkspaceProp (WsHandler (fresh (host s)) c p) ∉ slots s sg.
Proof.
  intros Hi Hin. destruct (proj1 (si_slot _ Hi _ _) Hin) as (_ & hs & Hst & Hh).
  destruct (si_state _ Hi _ _ Hst) as (_ & _ & Hall).
  destruct (Hall _ _ Hh) as (_ & _ & _ & Hlt). simpl in Hlt. lia.
Qed.

Lemma filtered_shrinks s s' o x :
  (∀ sg, slots s' sg = if decide (o = Some sg) then filter (λ y, y ≠ x) (slots s sg) else slots s sg) →
  shrinks s s'.
Proof. intros Hsl sg. rewrite Hsl. case_decide; [apply sublist_filter|done]. Qed.

Lemma setWatch_once t c w p b s :
  watch_inv s → once_inv s → once_inv (snd (setWatch t c w p b s)).
Proof.
  intros Hi Ho.
  destruct (setWatch_cases t c w p b s) as [b ->|sg Hu Hsg|Hu Hsg|st h Hst Hh]; [done|..].
  - destruct (setWatch_on t c w p s sg Hu Hsg) as (_ & _ & _ & Hsl & _).
    eapply once_inv_connect; [exact Ho|exact Hsl|by apply fresh_win_handler].
  - destruct (setWatch_fail t c w p s Hu Hsg) as (_ & _ & _ & Hsl & _).
    eapply once_inv_shrinks; [exact Ho|]. intros sg. by rewrite Hsl.
  - destruct (setWatch_off t c w p s st h Hst Hh) as (_ & _ & _ & Hsl & _).
    eapply once_inv_shrinks; [exact Ho|]. by eapply filtered_shrinks.
Qed.

Lemma ws_setWatch_once c p b s :
  wspace_inv s → once_inv s → once_inv (snd (ws_setWatch c p b s)).
Proof.
  intros Hi Ho. destruct (ws_setWatch_spec c p b s)
    as [|e _|e s' _ _ _ _ Hsl|hs sg0 s' _ _ _ _ _ _ Hsl _ _|hs h s' _ _ _ _ _ Hsl _ _]; [done|done|..].
  - eapply once_inv_shrinks; [exact Ho|]. intros sg. by rewrite Hsl.
  - eapply once_inv_connect; [exact Ho|exact Hsl|by apply fresh_ws_handler].
  - eapply once_inv_shrinks; [exact Ho|]. by eapply filtered_shrinks.
Qed.

(** [set_frame] takes care of what a [setWatch] does not touch. *)
Lemma set_frame_good s s' :
  set_frame s s' →
  (inv s → watch_inv s' ∧ wspace_inv s' ∧ once_inv s') →
  same_slots (λ x, negb (is_listener x)) s s' → good s s'.
Proof.
  intros [_ Ht Hcd Hca Hc _ Ho Hf] Hlis Hsl Hi.
  destruct (Hlis Hi) as (Hw & Hp & Hn). split.
  - split; [..|exact Hn|eapply base_inv_same; [apply Hi| |done]|].
    + rewrite Ht. eapply tokens_inv_mono; [done|apply Hi].
    + exact Hw.
    + exact Hp.
    + unfold catalogs_ok. by rewrite Hcd, Hca.
    + rewrite Hc. eapply clients_inv_mono; [done|apply Hi].
  - apply evolves_same_tokens; [done..| |by rewrite Hc]. intros c Ha. left.
    by rewrite <- (is_alive_clients c s s').
Qed.

Lemma setWatch_good t c w p b s :
  claimed s t c w → p ∈ WATCH_PROPS → good s (snd (setWatch t c w p b s)).
Proof.
  intros Hcl Hp. destruct (setWatch_frame t c w p b s) as [Hf Hws].
  pose proof (setWatch_same_slots t c w p b s) as Hsl.
  apply set_frame_good; [done| |].
  - intros Hi. split; [by apply setWatch_inv; [apply Hi|..]|]. split.
    + eapply wspace_inv_same; [apply Hi|done|apply Hf|].
      intros sg x Hx. apply Hsl. by destruct x.
    + by apply setWatch_once; apply Hi.
  - intros sg x Hx. apply Hsl. by destruct x.
Qed.

Lemma ws_setWatch_good c p b s :
  p ∈ WORKSPACE_WATCH_PROPS → good s (snd (ws_setWatch c p b s)).
Proof.
  intros Hp. destruct (ws_setWatch_frame c p b s) as [Hf Hwin].
  pose proof (ws_setWatch_same_slots c p b s) as Hsl.
  apply set_frame_good; [done| |].
  - intros Hi. split; [|split].
    + apply (watch_inv_change [] s); [apply Hi|rewrite (sf_tokens _ _ Hf); apply keeps_refl
        |apply Hf|by rewrite Hwin|].
      intros sg h. rewrite (Hsl sg (SlotWindowProp h)) by done.
      split; [|by intros [? _]]. intros ?. split; [done|apply not_elem_of_nil].
    + by apply ws_setWatch_inv; [apply Hi|].
    + by apply ws_setWatch_once; apply Hi.
  - intros sg x Hx. apply Hsl. by destruct x.
Qed.

(** A [set] never disturbs the claims. *)
Lemma claimed_tokens s s' t c w :
  tokens s' = tokens s → claimed s t c w → claimed s' t c w.
Proof. intros Ht (e & en & Hr & He & ?). exists e, en. unfold entry_at. by rewrite Ht. Qed.

(** ** A client is gone *)

Lemma client_entries_spec id s e en :
  (e, en) ∈ client_entries id s ↔
  ∃ t, (t, e) ∈ byToken (tokens s) ∧ entry_at e s = Some en ∧ conn_id (te_conn en) = id.
Proof.
  unfold client_entries. rewrite list_elem_of_omap. split.
  - intros ([t e'] & Hin & Hm). simpl in Hm.
    destruct (entry_at e' s) as [en'|] eqn:He; [|done].
    case_decide as Hc; [|done]. injection Hm as -> ->. eauto.
  - intros (t & Hin & He & Hc). exists (t, e). split; [done|]. simpl.
    by rewrite He, decide_True.
Qed.

Lemma client_entries_tokens id s :
  (∀ t e, (t, e) ∈ byToken (tokens s) → ∃ en, entry_at e s = Some en ∧ te_token en = t) →
  removed_tokens (client_entries id s) `sublist_of` map fst (byToken (tokens s)).
Proof.
  unfold client_entries, removed_tokens. induction (byToken (tokens s)) as [|[t e] l IH]; [done|].
  intros Hall. simpl.
  assert (Hl : map (λ een : positive * TokenEntry, te_token (snd een))
    (omap (λ te : string * positive,
      match entry_at (snd te) s with
      | Some en => if decide (conn_id (te_conn en) = id) then Some (snd te, en) else None
      | None => None
      end) l) `sublist_of` map fst l).
  { apply IH. intros. apply Hall. by right. }
  destruct (Hall t e ltac:(left)) as (en & He & Ht). rewrite He.
  case_decide; simpl; [rewrite Ht; by constructor|by constructor].
Qed.

Lemma client_entries_removable id s : inv s → removable (tokens s) (client_entries id s).
Proof.
  intros Hi. pose proof (inv_tokens _ Hi) as Ht.
  assert (Hent : ∀ t e, (t, e) ∈ byToken (tokens s) →
    registered t e s ∧ ∃ en, entry_at e s = Some en ∧ te_token en = t).
  { intros t e Hin. assert (Hr : registered t e s) by (by apply jm_elem_get; [apply Ht|]).
    split; [done|]. exact (registered_entry _ _ _ Hi Hr). }
  split.
  - eapply sublist_NoDup; [|apply client_entries_tokens].
    + apply Ht.
    + intros t e Hin. by apply Hent.
  - intros e en (t & Hin & He & _)%client_entries_spec.
    destruct (Hent _ _ Hin) as (Hr & en' & He' & Het).
    assert (en' = en) as -> by congruence. split; [done|]. by rewrite Het.
Qed.

Lemma drop_entries_tokens removed s :
  foldl (λ s een, drop_entry een s) s removed =
  upd_tokens (λ _, tk_remove_all removed (tokens s)) s.
Proof.
  revert s. induction removed as [|[e en] removed IH]; intros s; [by destruct s|].
  cbn [foldl]. rewrite IH. unfold drop_entry. by rewrite forget_window_tokens.
Qed.

(** The registry after [dropClientTokens], before its log. *)
Definition dropped (id : number) (s : state) : state :=
  let removed := client_entries id s in
  dropClientWatches (removed_tokens removed)
    (upd_tokens (λ _, tk_remove_all removed (tokens s)) s).

Lemma dropClientTokens_unfold id s :
  dropClientTokens id s = dropped id s ∨ ∃ l m, dropClientTokens id s = sendLog l m (dropped id s).
Proof.
  unfold dropClientTokens, dropped. rewrite drop_entries_tokens.
  destruct (0 <? length (client_entries id s))%nat; [right; by eexists _, _|by left].
Qed.

Lemma dropClientTokens_quiet id s : quiet (dropped id s) (dropClientTokens id s).
Proof.
  destruct (dropClientTokens_unfold id s) as [->|(l & m & ->)]; [done|apply sendLog_quiet].
Qed.

Lemma dropped_frame id s :
  tokens (dropped id s) = tk_remove_all (client_entries id s) (tokens s) ∧
  wspace (dropped id s) = wspace s ∧ clients (dropped id s) = clients s ∧
  fresh (host (dropped id s)) = fresh (host s) ∧ out s `prefix_of` out (dropped id s).
Proof.
  pose proof (dropClientWatches_frame (removed_tokens (client_entries id s))
    (upd_tokens (λ _, tk_remove_all (client_entries id s) (tokens s)) s)) as [].
  unfold dropped. done.
Qed.

Lemma dropped_registered id s t e :
  inv s → registered t e (dropped id s) ↔
    registered t e s ∧ ∀ en, entry_at e s = Some en → conn_id (te_conn en) ≠ id.
Proof.
  intros Hi. destruct (dropped_frame id s) as (Ht & _).
  destruct (tk_remove_all_spec _ _ _ (inv_tokens _ Hi) (client_entries_removable id s Hi))
    as (_ & _ & Hreg & _).
  unfold registered. rewrite Ht, Hreg. split.
  - intros [Hr Hn]. split; [done|]. intros en He Hc. apply Hn.
    destruct (registered_entry _ _ _ Hi Hr) as (en' & He' & Het).
    assert (en' = en) as -> by congruence. unfold removed_tokens.
    apply list_elem_of_In, in_map_iff. exists (e, en). split; [done|].
    apply list_elem_of_In, client_entries_spec. exists t.
    split; [by apply jm_get_elem|done].
  - intros [Hr Hown]. split; [done|]. unfold removed_tokens.
    intros ([e' en'] & Het & Hin%list_elem_of_In)%list_elem_of_In%in_map_iff.
    destruct (proj1 (client_entries_spec id s e' en') Hin) as (t' & Hin' & He' & Hc).
    destruct (proj2 (client_entries_removable id s Hi) _ _ Hin) as [_ Hr']. simpl in Het.
    rewrite Het in Hr'. assert (e' = e) as -> by (by eapply registered_inj).
    by eapply Hown.
Qed.

(** The claims of the client are gone, and only those. *)
Lemma dropped_abs id s : inv s → abs (tokens (dropped id s)) = drop_owner id (abs (tokens s)).
Proof.
  intros Hi. destruct (dropped_frame id s) as (Ht & _).
  pose proof (inv_tokens _ Hi) as Hit. apply map_eq. intros t. apply option_eq. intros cl.
  rewrite drop_owner_Some. rewrite Ht.
  rewrite (abs_remove_all _ _ _ Hit (client_entries_removable id s Hi)).
  rewrite (abs_Some _ _ _ _ Hit).
  assert (Hin : ∀ e en, registered t e s → entry_at e s = Some en → te_token en = t →
    t ∈ removed_tokens (client_entries id s) ↔ conn_id (te_conn en) = id).
  { intros e en Hr He Het. pose proof (dropped_registered id s t e Hi) as Hd.
    unfold registered in Hd. rewrite Ht in Hd.
    destruct (tk_remove_all_spec _ _ _ Hit (client_entries_removable id s Hi)) as (_ & _ & Hreg & _).
    rewrite Hreg in Hd. split.
    - intros Hm. destruct (decide (conn_id (te_conn en) = id)) as [|Hne]; [done|].
      destruct (proj2 Hd) as [_ Hn]; [|by destruct Hn]. split; [done|].
      intros en' He'. by assert (en' = en) as -> by congruence.
    - intros Hid. destruct (decide (t ∈ removed_tokens (client_entries id s))) as [|Hn]; [done|].
      destruct (proj1 Hd) as [_ Hall]; [by split|]. by destruct (Hall _ He). }
  split; intros [(e & en & Hr & He & Het & ->) Hx]; (split; [by eauto 10|]);
    simpl in *; by rewrite (Hin e en) in *.
Qed.

Lemma dropClientTokens_good id s :
  (∀ c, conn_id c = id → is_alive c s = false) → good s (dropClientTokens id s).
Proof.
  intros Hdead. etrans; [|apply quiet_good, dropClientTokens_quiet]. intros Hi.
  destruct (dropped_frame id s) as (Ht & _ & Hc & Hf & Ho).
  destruct (tk_remove_all_spec _ _ _ (inv_tokens _ Hi) (client_entries_removable id s Hi))
    as (Htk & Hev & Hreg & Hent).
  split.
  - apply inv_drop; [done..|]. intros t e en Hn Hr He. split; [by apply Hreg|].
    exists en. split; [by eapply Hent|done].
  - assert (Ha : ∀ c, is_alive c (dropped id s) = is_alive c s)
      by (intros c; by apply is_alive_clients).
    split; [by rewrite Ht|rewrite Hf; lia|done|intros c; rewrite Ha; by left|by rewrite Hc|].
    exists [Gone id]. split; [|apply Forall_singleton; intros c _ Hid; rewrite Ha; auto].
    apply spec_run_one. rewrite dropped_abs by done. constructor.
Qed.

Lemma dropClientWorkspaceWatches_good id s : good s (dropClientWorkspaceWatches id s).
Proof.
  intros [Hit Hiw Hip Hio Hib Hic].
  destruct (ws_drop_frame id s) as [Hw Hf Ht Hwin Hc Hp Ho].
  pose proof (ws_drop_same_slots id s) as Hsl. split.
  - split.
    + by rewrite Hf, Ht.
    + apply (watch_inv_change [] s); [done|rewrite Ht; apply keeps_refl|by rewrite Hf
        |by rewrite Hwin|].
      intros sg h. rewrite (Hsl sg (SlotWindowProp h)) by done.
      split; [|by intros [? _]]. intros ?. split; [done|apply not_elem_of_nil].
    + by apply ws_drop_inv.
    + eapply once_inv_shrinks; [done|]. apply ws_drop_shrinks.
    + eapply base_inv_same; [done|by rewrite Hwin|]. intros sg x Hx. apply Hsl. by destruct x.
    + by rewrite Hf, Hc.
  - apply evolves_same_tokens; [done|by rewrite Hf|done| |by rewrite Hc]. intros c.
    rewrite (is_alive_clients c s) by done. by left.
Qed.
End Listeners.
