(* ===== verification/Handlers.v ===== *)
(** * The handlers preserve the invariant

    Slots run by KWin's signals and by assignments, then the seven JSON-RPC
    methods and the server that calls them. *)
From S2P Require Export Operations Traverse.

Abbreviation foldl_good := (foldl_rel good).
Abbreviation bind_good_m := (bind_rel good).
Abbreviation mfor_good := (mfor_rel good).
Abbreviation pure_good := (pure_rel good).

Section Events.
Context {E : Env} `{!QTimerLaws E, !SignalLaws E}.
Implicit Types (s : state) (c : conn).

Lemma run_slot_good x em s : good s (run_slot x em s).
Proof.
  destruct x, em; simpl; try reflexivity;
    first [apply onWindowAdded_good | apply onWindowRemoved_good | apply checkCaption_good
          | apply quiet_good, notifyClient_quiet
          | by apply quiet_good; split; auto using rescanDesktops_ok, onActivityAdded_ok,
              onActivityRemoved_ok].
Qed.

Lemma fire_good em s : good s (fire em s).
Proof.
  apply foldl_good. intros s' x. case_goal; [apply run_slot_good|reflexivity].
Qed.

Lemma deliver_good W em s : good s (deliver W em s).
Proof. etrans; [|apply fire_good]. apply quiet_good, world_quiet. Qed.

Lemma assign_property_good a s : good s (snd (assign_property a s)).
Proof.
  unfold assign_property. destruct (assign _ a) as [[ems W]|error]; simpl; [|reflexivity].
  etrans; [|apply quiet_good, world_quiet].
  apply foldl_good. intros. apply deliver_good.
Qed.
End Events.

Section Methods.
Context {E : Env} `{!QTimerLaws E, !SignalLaws E}.
Implicit Types (s : state) (c : conn) (w : window).

(** ** Looking a token up *)

(** [resolveTokenWindow] answers exactly for a claimed window. *)
Lemma resolveTokenWindow_ret t c w s :
  inv s → fst (resolveTokenWindow t c s) = Ret w ↔ claimed s t c w.
Proof.
  intros Hi. unfold resolveTokenWindow, claimed, registered_in. split.
  - destruct (jm_get t (byToken (tokens s))) as [e|] eqn:Hr; simpl; [|done].
    destruct (entry_at e s) as [en|] eqn:He; simpl; [|done].
    destruct (decide (te_conn en ≠ c)) as [|Hc]; [done|].
    destruct (te_state en), (te_window en) as [w'|] eqn:Hw; simpl; try done.
    intros [= ->]. exists e, en. split; [done|]. split; [done|]. split; [done|].
    by apply dec_stable.
  - intros (e & en & Hr & He & Hw & Hc). rewrite Hr. simpl. rewrite He.
    rewrite decide_False by (intros Hn; by apply Hn).
    destruct (te_state en) eqn:Hst; [|by rewrite Hw].
    rewrite (ti_pending _ _ (inv_tokens _ Hi) _ _ He Hst) in Hw. done.
Qed.

Lemma resolve_claimed t c w s s' :
  inv s → resolveTokenWindow t c s = (Ret w, s') → s' = s ∧ claimed s t c w.
Proof.
  intros Hi Hr. split; [by eapply pure_result; [apply resolveTokenWindow_pure|]|].
  apply resolveTokenWindow_ret; [done|]. by rewrite Hr.
Qed.

(** ** The updates *)

Lemma applyUpdate_good w p v s : good s (snd (applyUpdate w p v s)).
Proof. unfold applyUpdate. repeat case_decide; apply assign_property_good. Qed.

Lemma ws_applyUpdate_good p v s : good s (snd (ws_applyUpdate p v s)).
Proof. unfold ws_applyUpdate. case_decide; apply assign_property_good. Qed.

Lemma windows_update_good params c s : good s (snd (windows_update params c s)).
Proof.
  destruct params as [t info]. apply (windows_update_rel good).
  - intros. apply applyUpdate_good.
  - intros. apply quiet_good, sendLog_quiet.
Qed.

Lemma workspace_update_good params c s : good s (snd (workspace_update params c s)).
Proof.
  apply (workspace_update_rel good).
  - intros. apply ws_applyUpdate_good.
  - intros. apply quiet_good, sendLog_quiet.
Qed.

(** ** The watches *)

Lemma window_watch_good params c s : good s (snd (window_watch params c s)).
Proof.
  apply good_assuming. intros Hi. destruct params as [t info]. apply (window_watch_rel good).
  intros w p b s' Hr Hp Ht. split; [|apply setWatch_frame]. apply setWatch_good; [|done].
  apply (claimed_tokens s); [done|]. by destruct (resolve_claimed t c w s s Hi Hr).
Qed.

Lemma workspace_watch_good params c s : good s (snd (workspace_watch params c s)).
Proof. apply (workspace_watch_rel good). intros. by apply ws_setWatch_good. Qed.

(** ** [token.request] *)

Lemma generateToken_spec gas s :
  quiet s (snd (generateToken gas s)) ∧ host (snd (generateToken gas s)) =
    upd_draws (λ _, draws (host (snd (generateToken gas s)))) (host s) ∧
  ∀ t, fst (generateToken gas s) = Ret t → jm_get t (byToken (tokens s)) = None.
Proof.
  revert s. induction gas as [|gas IH]; intros s; [by destruct s as [[] ? ? ? ? ?]|].
  cbn [generateToken].
  set (s1 := upd_host (upd_draws (λ n, (n + TOKEN_LENGTH)%nat)) s).
  set (t := random_token _ _).
  destruct (jm_has t (byToken (tokens s1))) eqn:Hh; simpl.
  - destruct (IH s1) as ([? ? ? ? ? ? ?] & Hh1 & Hf). split; [done|]. split; [|done].
    rewrite Hh1 at 1. done.
  - split; [done|]. split; [done|]. intros t' [= <-]. by apply jm_has_false in Hh.
Qed.

(** The timer that [token.request] starts. *)
Definition deadline_timer (timeout : Z) : QTimer :=
  timer_start (timer_set_interval timeout (timer_set_timerType COARSE_TIMER
    (timer_set_singleShot true timer_new))).

Lemma deadline_timer_spec n :
  timer_active (deadline_timer n) = true ∧ timer_singleShot (deadline_timer n) = true.
Proof.
  unfold deadline_timer. split; [apply timer_start_active|].
  by rewrite timer_start_singleShot, timer_set_interval_singleShot,
    timer_set_timerType_singleShot, timer_set_singleShot_get.
Qed.

Definition new_entry (token : string) (c : conn) (timeout : Z) : TokenEntry :=
  MkTokenEntry _ token c pending None (deadline_timer timeout).

(** The state with the new token, before the log. *)
Definition with_token (token : string) (c : conn) (timeout : Z) (s : state) : state :=
  upd_tokens (tk_create (fresh (host s)) (new_entry token c timeout))
    (upd_host (upd_fresh Pos.succ) s).

Lemma with_token_good token c timeout s :
  known c s → jm_get token (byToken (tokens s)) = None → good s (with_token token c timeout s).
Proof.
  intros Hk Hnew [Hit Hiw Hip Hio Hib Hic].
  destruct (deadline_timer_spec timeout) as [Hact Hsingle]. split.
  - split; [by apply tk_create_inv| | |done|by destruct Hib|].
    + apply (watch_inv_change [] s); [done| |simpl; lia|done|].
      * intros t' e en _ Hr He. destruct (ti_fresh _ _ Hit _ _ He). simpl.
        unfold registered_in. simpl. rewrite jm_get_set_ne by (unfold registered_in in *; congruence).
        split; [done|]. exists en. rewrite lookup_insert_ne by lia. done.
      * intros sg h. split; [|by intros [? _]]. intros ?. split; [done|apply not_elem_of_nil].
    + eapply wspace_inv_same; [done..|simpl; lia|done].
    + eapply clients_inv_mono; [|done]. simpl. lia.
  - split; [by apply (tk_create_evolves (fresh (host s)))|simpl; lia|done|by left|done|].
    exists []. split; [|done]. apply spec_run_one. simpl.
    rewrite abs_create by done. unfold abs_entry. simpl. rewrite Hact. apply sp_request.
    by eapply abs_None.
Qed.

Lemma token_request_ret gas timeout c s token s1 :
  generateToken gas s = (Ret token, s1) →
  ∃ msg, token_request gas timeout c s =
    (Ret (Obj [("token", Str token)]),
     sendLog "info" msg (with_token token c timeout s1)).
Proof. intros Hg. unfold token_request, bind. rewrite Hg. by eexists. Qed.

Lemma token_request_good gas timeout c s :
  known c s → good s (snd (token_request gas timeout c s)).
Proof.
  intros Hk. destruct (generateToken_spec gas s) as (Hq & _ & Hnew).
  destruct (generateToken gas s) as [[token|e|] s1] eqn:Hg; simpl in *.
  - destruct (token_request_ret gas timeout c s token s1 Hg) as [msg ->]. simpl.
    etrans; [apply quiet_good, Hq|]. etrans; [|apply quiet_good, sendLog_quiet].
    apply with_token_good; [unfold known; by rewrite (qu_fresh _ _ Hq)|].
    rewrite (qu_tokens _ _ Hq). by apply Hnew.
  - unfold token_request, bind. rewrite Hg. by apply quiet_good.
  - unfold token_request, bind. rewrite Hg. by apply quiet_good.
Qed.

(** ** The server *)

Lemma methods_good gas name f params c s :
  known c s → jm_get name (methods gas) = Some f → good s (snd (f params c s)).
Proof.
  intros Hk Hf. destruct (methods_effect gas name f params c s Hf).
  - reflexivity.
  - apply windows_update_good.
  - apply window_watch_good.
  - by apply token_request_good.
  - apply workspace_update_good.
  - apply workspace_watch_good.
Qed.

Lemma errorListener_good message error s : good s (errorListener message error s).
Proof. destruct error; [reflexivity|]. apply quiet_good, sendLog_quiet. Qed.

Lemma known_good c s s' : known c s → inv s → good s s' → known c s'.
Proof. intros Hk Hi Hg. destruct (Hg Hi) as [_ Hev]. pose proof (ev_fresh _ _ Hev). unfold known in *. lia. Qed.

Lemma receive_good `{!JsonRpcApi E, !JsonRpcLaws E _} gas message c s :
  known c s → good s (snd (receive (methods gas) message c s)).
Proof.
  intros Hk. pose proof (receive_calls (methods gas) message c s) as Hrtc.
  induction Hrtc as [s|s1 s2 s3 Hstep _ IH]; [reflexivity|].
  apply good_assuming. intros Hi.
  assert (Hg : good s1 s2).
  { destruct Hstep; [by eapply methods_good|apply errorListener_good]. }
  etrans; [exact Hg|]. apply IH. by eapply known_good.
Qed.
End Methods.
