(* ===== verification/Loading.v ===== *)
(** * What loading the script does, whatever KWin throws

    The two modules that touch KWin when they load, windows.ts and tokens.ts,
    do it in a [try]: an exception ends the block, is logged, and the script
    goes on.  The blocks are sequences of accesses and effects ([load_step]);
    [run_steps] runs such a sequence up to the first access that throws. *)
From S2P Require Export Handlers.

Section Loading.
Context {E : Env}.
Implicit Types (s : state).

Inductive load_step :=
| LAccess (a : load_access)
| LCatalogs (f : WindowsState → WindowsState)
| LConnect (sg : signal) (x : slot).

Fixpoint run_steps (l : list load_step) : M unit :=
  match l with
  | [] => ret tt
  | LAccess a :: l => (kwin_access a;; run_steps l)%script
  | LCatalogs f :: l => (modify (upd_windows f);; run_steps l)%script
  | LConnect sg x :: l => (modify (connect sg x);; run_steps l)%script
  end.

(** The steps up to the first access that throws. *)
Fixpoint passed (l : list load_step) : list load_step :=
  match l with
  | [] => []
  | LAccess a :: l => match kwin_load_error a with None => LAccess a :: passed l | Some _ => [] end
  | x :: l => x :: passed l
  end.

(** The text that it throws. *)
Definition first_error (l : list load_step) : option string :=
  head (omap (λ x, match x with LAccess a => kwin_load_error a | _ => None end) l).

(** What the steps connect. *)
Definition connections_of (l : list load_step) : list (signal * slot) :=
  omap (λ x, match x with LConnect sg x => Some (sg, x) | _ => None end) l.

Definition connect_step (sg : signal) (x : slot) : list load_step :=
  [LAccess (ConnectSignal sg); LConnect sg x].

(** The block of windows.ts. *)
Definition workspace_steps (W : World) : list load_step :=
  [LCatalogs (upd_desktopsById (λ _, jm_empty)); LAccess ReadDesktops] ++
  (workspace_desktops W ≫= λ d,
     [LAccess (ReadDesktopId d); LCatalogs (upd_desktopsById (jm_set (desktop_id d) d))]) ++
  [LCatalogs (upd_activitiesById (λ _, [])); LAccess ReadActivities;
   LCatalogs (upd_activitiesById (λ _, js_of_list (workspace_activities W)))] ++
  connect_step (SigWorkspace "desktopsChanged") SlotDesktopsChanged ++
  connect_step (SigWorkspace "activityAdded") SlotActivityAdded ++
  connect_step (SigWorkspace "activityRemoved") SlotActivityRemoved.

(** The block of tokens.ts. *)
Definition window_steps (W : World) : list load_step :=
  connect_step (SigWorkspace "windowAdded") SlotWindowAdded ++
  connect_step (SigWorkspace "windowRemoved") SlotWindowRemoved ++
  [LAccess ReadWindowList] ++
  (workspace_windowList W ≫= λ w,
     connect_step (SigWindow w "captionNormalChanged") (SlotCaption w)).

(** ** The blocks are their steps *)

Lemma run_steps_app l k s : run_steps (l ++ k) s = bind (run_steps l) (λ _, run_steps k) s.
Proof.
  revert s. induction l as [|[a|f|sg x] l IH]; intros s; [done|..]; cbn [app run_steps]; unfold bind at 1 3.
  - unfold kwin_access. destruct (kwin_load_error a); [done|]. apply IH.
  - apply (IH (upd_windows f s)).
  - apply (IH (connect sg x s)).
Qed.

(** The steps leave KWin alone. *)
Lemma run_steps_world l s : world (host (snd (run_steps l s))) = world (host s).
Proof.
  revert s. induction l as [|[a|f|sg x] l IH]; intros s; [done|..]; cbn [run_steps]; unfold bind at 1.
  - unfold kwin_access. destruct (kwin_load_error a); [done|apply IH].
  - exact (IH (upd_windows f s)).
  - exact (IH (connect sg x s)).
Qed.

(** While KWin is in the state [W], [m] is the steps [l]. *)
Definition is_steps (W : World) (m : M unit) (l : list load_step) : Prop :=
  ∀ s, world (host s) = W → m s = run_steps l s.

Lemma is_steps_bind W m k l l' :
  is_steps W m l → is_steps W k l' → is_steps W (m;; k)%script (l ++ l').
Proof.
  intros Hm Hk s HW. rewrite run_steps_app. unfold bind. rewrite (Hm s HW).
  pose proof (run_steps_world l s) as Hs. destruct (run_steps l s) as [[[]|e|] s']; [|done..].
  apply Hk. cbn [snd] in Hs. congruence.
Qed.

Lemma is_steps_get W (k : state → M unit) l :
  (∀ s, world (host s) = W → is_steps W (k s) l) → is_steps W (bind get k) l.
Proof. intros Hk s HW. by apply Hk. Qed.

Lemma is_steps_access W a : is_steps W (kwin_access a) [LAccess a].
Proof. intros s _. unfold run_steps, bind, kwin_access. by destruct (kwin_load_error a). Qed.

Lemma is_steps_connect W sg x : is_steps W (load_connect sg x) (connect_step sg x).
Proof. apply (is_steps_bind W _ _ [_] [_]); [apply is_steps_access|done]. Qed.

Lemma is_steps_mfor {A} W (xs : list A) f g :
  (∀ x, is_steps W (f x) (g x)) → is_steps W (mfor xs f) (xs ≫= g).
Proof.
  intros Hf. induction xs as [|x xs IH]; [done|]. cbn [mfor mbind list_bind]. by apply is_steps_bind.
Qed.

Lemma wireWorkspaceEvents_steps W : is_steps W wireWorkspaceEvents (workspace_steps W).
Proof.
  unfold wireWorkspaceEvents, workspace_steps.
  rewrite (app_assoc [_; _] (_ ≫= _) _).
  apply is_steps_bind.
  - apply (is_steps_bind W _ _ [_] (_ :: _)); [done|].
    apply (is_steps_bind W _ _ [_] _); [apply is_steps_access|].
    apply is_steps_get. intros s ->. apply is_steps_mfor. intros d.
    apply (is_steps_bind W _ _ [_] [_]); [apply is_steps_access|done].
  - apply is_steps_bind.
    { apply (is_steps_bind W _ _ [_] [_; _]); [done|].
      apply (is_steps_bind W _ _ [_] [_]); [apply is_steps_access|]. by intros s <-. }
    repeat (apply is_steps_bind; [apply is_steps_connect|]). apply is_steps_connect.
Qed.

Lemma wireWindowEvents_steps W : is_steps W wireWindowEvents (window_steps W).
Proof.
  do 2 (apply is_steps_bind; [apply is_steps_connect|]).
  apply is_steps_bind; [apply is_steps_access|].
  apply is_steps_get. intros s ->. apply is_steps_mfor. intros w. apply is_steps_connect.
Qed.

(** ** What the steps come to *)

(** The state after the steps that pass. *)
Lemma run_steps_result l s :
  fst (run_steps l s) = match first_error l with None => Ret tt | Some e => Throw (HostError e) end.
Proof.
  revert s. induction l as [|[a|f|sg x] l IH]; intros s; [done|..]; cbn [run_steps]; unfold bind at 1.
  - unfold kwin_access, first_error. cbn [omap list_omap].
    destruct (kwin_load_error a); [done|]. apply IH.
  - exact (IH (upd_windows f s)).
  - exact (IH (connect sg x s)).
Qed.

(** What they never touch. *)
Record load_frame (s s' : state) : Prop := LoadFrame {
  lf_world : world (host s') = world (host s);
  lf_fresh : fresh (host s') = fresh (host s);
  lf_tokens : tokens s' = tokens s;
  lf_wspace : wspace s' = wspace s;
  lf_clients : clients s' = clients s;
  lf_out : out s' = out s;
}.

#[export] Instance load_frame_preorder : PreOrder load_frame.
Proof. split; [done|]. intros s1 s2 s3 [] []. split; congruence. Qed.

Lemma run_steps_frame l s : load_frame s (snd (run_steps l s)).
Proof.
  revert s. induction l as [|[a|f|sg x] l IH]; intros s; [done|..]; cbn [run_steps]; unfold bind at 1.
  - unfold kwin_access. destruct (kwin_load_error a); [done|apply IH].
  - etrans; [|apply (IH (upd_windows f s))]. done.
  - etrans; [|apply (IH (connect sg x s))]. done.
Qed.

Lemma run_steps_windows l s :
  windows (snd (run_steps l s)) =
  foldl (λ ws x, match x with LCatalogs f => f ws | _ => ws end) (windows s) (passed l).
Proof.
  revert s. induction l as [|[a|f|sg x] l IH]; intros s; [done|..]; cbn [run_steps passed]; unfold bind at 1.
  - unfold kwin_access. destruct (kwin_load_error a); [done|apply IH].
  - exact (IH (upd_windows f s)).
  - exact (IH (connect sg x s)).
Qed.

Lemma run_steps_slots `{!SignalLaws E} l s sg x :
  x ∈ slots (snd (run_steps l s)) sg ↔ x ∈ slots s sg ∨ (sg, x) ∈ connections_of (passed l).
Proof.
  revert s. induction l as [|[a|f|sg' x'] l IH]; intros s; cbn [run_steps passed];
    [|unfold bind at 1..].
  - unfold connections_of. cbn. rewrite elem_of_nil. tauto.
  - unfold kwin_access. destruct (kwin_load_error a); [|apply IH].
    unfold connections_of. cbn. rewrite elem_of_nil. tauto.
  - exact (IH (upd_windows f s)).
  - etrans; [exact (IH (connect sg' x' s))|]. rewrite connect_elem.
    unfold connections_of. cbn [omap list_omap]. rewrite elem_of_cons. naive_solver.
Qed.

(** ** The steps of the two blocks *)

Lemma passed_incl l y : y ∈ passed l → y ∈ l.
Proof.
  induction l as [|[a|f|sg x] l IH]; [done|..]; cbn [passed].
  1: destruct (kwin_load_error a); [by intros ?%elem_of_nil|].
  all: rewrite !elem_of_cons; tauto.
Qed.

Lemma passed_all l : kwin_loads → passed l = l.
Proof.
  intros Hk. induction l as [|[a|f|sg x] l IH]; [done|..]; cbn [passed]; rewrite ?Hk; by f_equal.
Qed.

Lemma first_error_none l : kwin_loads → first_error l = None.
Proof.
  intros Hk. unfold first_error. induction l as [|[a|f|sg x] l IH]; [done|..]; cbn [omap list_omap];
    rewrite ?Hk; done.
Qed.

Lemma connections_of_elem l sg x : (sg, x) ∈ connections_of l ↔ LConnect sg x ∈ l.
Proof.
  unfold connections_of. rewrite list_elem_of_omap. split.
  - intros ([a|f|sg' x'] & Hin & He); by simplify_eq.
  - intros Hin. by exists (LConnect sg x).
Qed.

Lemma workspace_connections W sg x : LConnect sg x ∈ workspace_steps W ↔
  (sg, x) ∈ [(SigWorkspace "desktopsChanged", SlotDesktopsChanged);
             (SigWorkspace "activityAdded", SlotActivityAdded);
             (SigWorkspace "activityRemoved", SlotActivityRemoved)].
Proof.
  assert (LConnect sg x ∉ workspace_desktops W ≫= λ d,
    [LAccess (ReadDesktopId d); LCatalogs (upd_desktopsById (jm_set (desktop_id d) d))]) as Hd.
  { rewrite list_elem_of_bind. intros (d & Hin & _).
    rewrite !elem_of_cons, elem_of_nil in Hin. naive_solver. }
  unfold workspace_steps, connect_step.
  rewrite !elem_of_app, !elem_of_cons, !elem_of_nil. naive_solver.
Qed.

Lemma window_connections W sg x : LConnect sg x ∈ window_steps W ↔
  (sg, x) ∈ [(SigWorkspace "windowAdded", SlotWindowAdded);
             (SigWorkspace "windowRemoved", SlotWindowRemoved)] ∨
  ∃ w, w ∈ workspace_windowList W ∧ sg = SigWindow w "captionNormalChanged" ∧ x = SlotCaption w.
Proof.
  assert ((LConnect sg x ∈ workspace_windowList W ≫= λ w,
      connect_step (SigWindow w "captionNormalChanged") (SlotCaption w)) ↔
    ∃ w, w ∈ workspace_windowList W ∧ sg = SigWindow w "captionNormalChanged" ∧ x = SlotCaption w) as Hw.
  { rewrite list_elem_of_bind. unfold connect_step.
    setoid_rewrite elem_of_cons. setoid_rewrite elem_of_cons. setoid_rewrite elem_of_nil. naive_solver. }
  unfold window_steps. rewrite !elem_of_app, Hw. unfold connect_step.
  rewrite !elem_of_cons, !elem_of_nil. naive_solver.
Qed.

(** What the script connects when it loads. *)
Definition load_connections (W : World) : list (signal * slot) :=
  connections_of (passed (workspace_steps W)) ++ connections_of (passed (window_steps W)).

Lemma load_connections_home W sg x :
  (sg, x) ∈ load_connections W → slot_home x sg ∧ is_listener x = false.
Proof.
  unfold load_connections. rewrite elem_of_app, !connections_of_elem.
  intros [Hx%passed_incl%workspace_connections|Hx%passed_incl%window_connections].
  - rewrite !elem_of_cons, elem_of_nil in Hx. naive_solver.
  - rewrite !elem_of_cons, elem_of_nil in Hx. naive_solver.
Qed.

Lemma load_connections_own W sg x : kwin_loads → (sg, x) ∈ own_slots → (sg, x) ∈ load_connections W.
Proof.
  intros Hk. unfold load_connections. rewrite !passed_all by done.
  rewrite elem_of_app, !connections_of_elem, workspace_connections, window_connections.
  unfold own_slots. rewrite !elem_of_cons, !elem_of_nil. tauto.
Qed.

(** The catalogs stay maps from ids, however far the steps get. *)
Lemma workspace_catalogs W f : LCatalogs f ∈ workspace_steps W →
  f = upd_desktopsById (λ _, jm_empty) ∨ (∃ d, f = upd_desktopsById (jm_set (desktop_id d) d)) ∨
  f = upd_activitiesById (λ _, []) ∨
  f = upd_activitiesById (λ _, js_of_list (workspace_activities W)).
Proof.
  assert (LCatalogs f ∈ workspace_desktops W ≫= (λ d,
      [LAccess (ReadDesktopId d); LCatalogs (upd_desktopsById (jm_set (desktop_id d) d))]) →
    ∃ d, f = upd_desktopsById (jm_set (desktop_id d) d)) as Hd.
  { rewrite list_elem_of_bind. intros (d & Hin & _). exists d.
    rewrite !elem_of_cons, elem_of_nil in Hin. naive_solver. }
  unfold workspace_steps, connect_step. rewrite !elem_of_app, !elem_of_cons, !elem_of_nil. naive_solver.
Qed.

Lemma workspace_catalogs_ok W f ws :
  LCatalogs f ∈ workspace_steps W → catalogs_ok ws → catalogs_ok (f ws).
Proof.
  intros [->|[[d ->]|[->| ->]]]%workspace_catalogs (Hwf & Hid & Hact).
  - by split; [apply jm_wf_empty|].
  - split; [by apply jm_wf_set|]. split; [|done]. intros id d'. cbn. rewrite jm_get_set.
    case_decide; [naive_solver|apply Hid].
  - by split; [|split; [|apply NoDup_nil_2]].
  - by split; [|split; [|apply js_of_list_nodup]].
Qed.

(** ** The loaded script *)

(** The line that a block ends with. *)
Definition block_log (good bad : string) (l : list load_step) : effect :=
  match first_error l with
  | None => ECall (log_call "info" good)
  | Some error => ECall (log_call "error" (bad +:+ error))
  end.

Lemma block_run W (m : M unit) l (good : state → string) (bad : string) s :
  is_steps W m l → world (host s) = W →
  try_catch (m;; modify (λ s, sendLog "info" (good s) s))%script
    (λ error, sendLog "error" (bad +:+ exn_to_string error)) s =
  emit (block_log (good (snd (run_steps l s))) bad l) (snd (run_steps l s)).
Proof.
  intros Hm HW. unfold try_catch, bind, block_log. rewrite (Hm s HW).
  pose proof (run_steps_result l s) as Hr. destruct (run_steps l s) as [r s']. cbn [fst snd] in *.
  subst r. by destruct (first_error l).
Qed.

Definition catalogs_line (ws : WindowsState) : string :=
  "windows: workspace catalogs: " +:+ pretty (jm_size (desktopsById ws)) +:+ " desktop(s), "
    +:+ pretty (length (activitiesById ws)) +:+ " activity(ies)".

(** The catalogs once the block of windows.ts is through. *)
Definition loaded_catalogs (W : World) (ws : WindowsState) : WindowsState :=
  foldl (λ ws x, match x with LCatalogs f => f ws | _ => ws end) ws (passed (workspace_steps W)).

Lemma loaded_catalogs_ok W ws : catalogs_ok ws → catalogs_ok (loaded_catalogs W ws).
Proof.
  intros Hws. unfold loaded_catalogs. apply foldl_ind; [done|]. intros ws' [a|f|sg x] Hin Hok; [done| |done].
  apply (workspace_catalogs_ok W f ws'); [by apply passed_incl|done].
Qed.

(** All the steps: what the two rescans do. *)
Lemma loaded_catalogs_rescans W ws : kwin_loads →
  loaded_catalogs W ws =
  MkWindows (foldl (λ m d, jm_set (desktop_id d) d m) jm_empty (workspace_desktops W))
    (js_of_list (workspace_activities W)) (watchesByToken ws).
Proof.
  intros Hk. unfold loaded_catalogs. rewrite passed_all by done. unfold workspace_steps. rewrite !foldl_app.
  cbn [foldl connect_step]. unfold upd_activitiesById. cbn [desktopsById watchesByToken].
  set (ws0 := upd_desktopsById _ ws). change (watchesByToken ws) with (watchesByToken ws0).
  assert (jm_empty = desktopsById ws0) as Hnil by done. rewrite Hnil. clear Hnil. generalize ws0.
  induction (workspace_desktops W) as [|d ds IH]; intros ws1; [done|].
  cbn [mbind list_bind]. rewrite foldl_app. cbn [foldl]. by rewrite IH.
Qed.

(** What index.ts does. *)
Definition index_output : list effect := [
  ECall (log_call "info" "kwinscript loaded");
  EPrint "[kwinscript] loaded by kwin-api-server";
  ECall (log_call "info" "rpc: control loop started");
  ECall poll_daemon_call].

Lemma load_index_out s : out (load_index s) = out s ++ index_output.
Proof. unfold index_output. cbn. by rewrite <- !app_assoc. Qed.

(** Everything that leaves the script while it loads. *)
Definition load_output (W : World) (ws : WindowsState) : list effect := [
  block_log (catalogs_line (loaded_catalogs W ws)) "windows: cannot wire workspace events: "
    (workspace_steps W);
  block_log "tokens: window events wired" "tokens: cannot wire window events: " (window_steps W)]
  ++ index_output.

Record loaded (W : World) (s s' : state) : Prop := Loaded {
  ld_world : world (host s') = world (host s);
  ld_fresh : fresh (host s') = fresh (host s);
  ld_tokens : tokens s' = tokens s;
  ld_watches : watchesByToken (windows s') = watchesByToken (windows s);
  ld_catalogs : windows s' = loaded_catalogs W (windows s);
  ld_wspace : wspace s' = wspace s;
  ld_clients : clients s' = upd_control (λ _, CPoll) (clients s);
  ld_out : out s' = out s ++ load_output W (windows s);
  ld_slots `{!SignalLaws E} sg x : x ∈ slots s' sg ↔ x ∈ slots s sg ∨ (sg, x) ∈ load_connections W;
}.

Lemma loaded_catalogs_watches W ws :
  watchesByToken (loaded_catalogs W ws) = watchesByToken ws.
Proof.
  unfold loaded_catalogs. apply (foldl_ind (λ ws', watchesByToken ws' = watchesByToken ws)); [done|].
  intros ws' [a|f|sg x] Hin Hw; [done| |done].
  apply passed_incl, workspace_catalogs in Hin as [->|[[d ->]|[->| ->]]]; exact Hw.
Qed.

Lemma window_steps_windows W s : windows (snd (run_steps (window_steps W) s)) = windows s.
Proof.
  rewrite run_steps_windows.
  apply (foldl_ind (λ ws, ws = windows s)); [done|]. intros ws [a|f|sg x] Hin Hws; [done| |done].
  exfalso. apply passed_incl in Hin. revert Hin. unfold window_steps, connect_step.
  rewrite !elem_of_app, list_elem_of_bind, !elem_of_cons, !elem_of_nil.
  setoid_rewrite elem_of_cons. setoid_rewrite elem_of_cons. setoid_rewrite elem_of_nil. naive_solver.
Qed.

Lemma load_script_loaded s : loaded (world (host s)) s (load_script s).
Proof.
  set (W := world (host s)).
  set (s1 := snd (run_steps (workspace_steps W) s)).
  set (e1 := block_log (catalogs_line (windows s1)) "windows: cannot wire workspace events: " (workspace_steps W)).
  set (s2 := snd (run_steps (window_steps W) (emit e1 s1))).
  pose proof (run_steps_frame (workspace_steps W) s) as [Hw1 Hf1 Ht1 Hp1 Hc1 Ho1].
  pose proof (run_steps_frame (window_steps W) (emit e1 s1)) as [Hw2 Hf2 Ht2 Hp2 Hc2 Ho2].
  fold s1 in Hw1, Hf1, Ht1, Hp1, Hc1, Ho1. fold s2 in Hw2, Hf2, Ht2, Hp2, Hc2, Ho2.
  assert (load_windows s = emit e1 s1) as Hload1
    by (exact (block_run W _ _ (λ s, catalogs_line (windows s)) _ s (wireWorkspaceEvents_steps W) eq_refl)).
  assert (load_tokens (emit e1 s1) = emit (block_log "tokens: window events wired"
      "tokens: cannot wire window events: " (window_steps W)) s2) as Hload2
    by (exact (block_run W _ _ (λ _, "tokens: window events wired") "tokens: cannot wire window events: "
      (emit e1 s1) (wireWindowEvents_steps W) Hw1)).
  unfold load_script. rewrite Hload1, Hload2. clear Hload1 Hload2.
  assert (windows s1 = loaded_catalogs W (windows s)) as Hwin1 by apply run_steps_windows.
  assert (windows s2 = loaded_catalogs W (windows s)) as Hwin2.
  { unfold s2. by rewrite window_steps_windows. }
  split.
  - exact (eq_trans Hw2 Hw1).
  - exact (eq_trans Hf2 Hf1).
  - exact (eq_trans Ht2 Ht1).
  - change (watchesByToken (windows s2) = watchesByToken (windows s)).
    by rewrite Hwin2, loaded_catalogs_watches.
  - exact Hwin2.
  - exact (eq_trans Hp2 Hp1).
  - exact (f_equal (upd_control (λ _, CPoll)) (eq_trans Hc2 Hc1)).
  - rewrite load_index_out. unfold load_output. rewrite <- Hwin1. fold e1.
    set (e2 := block_log "tokens: window events wired" _ _).
    change ((out s2 ++ [e2]) ++ index_output = out s ++ [e1; e2] ++ index_output).
    rewrite Ho2. change (out (emit e1 s1)) with (out s1 ++ [e1]). by rewrite Ho1, <- !app_assoc.
  - intros ? sg x. etrans; [apply (run_steps_slots (window_steps W) (emit e1 s1))|].
    etrans; [apply or_iff_compat_r, (run_steps_slots (workspace_steps W) s)|].
    unfold load_connections. rewrite elem_of_app. tauto.
Qed.
End Loading.
