(* ===== verification/SystemInv.v ===== *)
(** * The invariant holds in every reachable state

    The message loops and the control loop of clients.ts, the script's load,
    and with them every [step]. *)
From S2P Require Export Loading.

Section ClientsInv.
Context {E : Env} {J : JsonRpcApi E} `{!QTimerLaws E, !SignalLaws E, !JsonRpcLaws E J}.
Context (gas : nat).
Implicit Types (s : state) (c : conn).

(** A change of the client registry only. *)
Lemma upd_clients_good f s :
  (clients_inv (fresh (host s)) (clients s) → clients_inv (fresh (host s)) (f (clients s))) →
  (∀ c, alive (f (clients s)) !! c = Some true → alive (clients s) !! c = Some true) →
  (control (clients s) ≠ CNotStarted → control (f (clients s)) ≠ CNotStarted) →
  good s (upd_clients f s).
Proof.
  intros Hcl Hal Hctl [Hit Hiw Hip Hio Hib Hic]. split.
  - split; [done| |by eapply wspace_inv_same|done|by destruct Hib|by apply Hcl].
    apply (watch_inv_change [] s); [done|apply keeps_refl|done|done|].
    intros sg h. split; [|by intros [? _]]. intros ?. split; [done|apply not_elem_of_nil].
  - apply evolves_same_tokens; [done..| |done]. intros c Ha. left. unfold is_alive in *.
    destruct (alive (clients (upd_clients f s)) !! c) as [[]|] eqn:Hc; try done.
    by rewrite (Hal c Hc).
Qed.

Lemma set_loop_good c l s :
  known c s → (is_alive c s = true → l ≠ LDone) → good s (set_loop c l s).
Proof.
  intros Hk Hl. apply upd_clients_good; [|done|done]. intros Hic. split; simpl.
  - intros id c' Hc'. destruct (ci_conn _ _ Hic _ _ Hc') as (Hid & Ha & l' & Hl' & Hne).
    split; [done|]. split; [done|]. rewrite lookup_insert. case_decide; [|by eauto].
    subst c'. exists l. split; [done|]. apply Hl. unfold is_alive. by rewrite Ha.
  - intros c' Ha. by apply (ci_alive _ _ Hic).
  - intros c'. rewrite lookup_insert. case_decide; [subst; done|].
    intros Hc'. by apply (ci_fresh _ _ Hic).
Qed.

Lemma set_control_good l s : l ≠ CNotStarted → good s (set_control l s).
Proof. intros Hl. apply upd_clients_good; [by intros []|done|done]. Qed.

(** ** [run] *)

Lemma known_quiet c s s' : quiet s s' → known c s → known c s'.
Proof. intros Hq. unfold known. by rewrite (qu_fresh _ _ Hq). Qed.

(** The loop of [c] goes to a suspension point. *)
Lemma suspend_good c l s s' :
  quiet s s' → known c s → l ≠ LDone → good s (set_loop c l s').
Proof.
  intros Hq Hk Hl. etrans; [by apply quiet_good|].
  apply set_loop_good; [by eapply known_quiet|done].
Qed.

Lemma finish_good c s : known c s → is_alive c s = false → good s (set_loop c LDone s).
Proof. intros Hk Ha. apply set_loop_good; [done|]. by rewrite Ha. Qed.

Lemma run_head_good c s : known c s → good s (run_head c s).
Proof.
  intros Hk. unfold run_head. destruct (is_alive c s) eqn:Ha; [|by apply finish_good].
  by apply suspend_good; [apply emit_quiet|..].
Qed.

Lemma run_sleep_good ms c s : known c s → good s (run_sleep ms c s).
Proof. intros Hk. by apply suspend_good; [apply emit_quiet|..]. Qed.

Lemma log_sleep_good ms c l m s : known c s → good s (run_sleep ms c (client_log l (conn_id c) m s)).
Proof.
  intros Hk. etrans; [apply quiet_good, sendLog_quiet|]. by apply run_sleep_good.
Qed.

Lemma run_batch_good c batch s : known c s → good s (run_batch gas c batch s).
Proof.
  intros Hk. destruct batch as [|message batch]; [by apply run_sleep_good|].
  apply good_assuming. intros Hi.
  pose proof (receive_good gas message c s Hk) as Hg. unfold run_batch.
  destruct (receive _ _ _ _) as [r s']. simpl in Hg. etrans; [exact Hg|].
  apply set_loop_good; [by eapply known_good|done].
Qed.

Lemma run_polled_good c r s : known c s → good s (run_polled gas c r s).
Proof.
  intros Hk. unfold run_polled. destruct (poll_outcome r) as [v|e|]; [..|reflexivity].
  - destruct (is_alive c s) eqn:Ha; simpl; [|by apply finish_good].
    destruct v; try (by apply log_sleep_good). by apply run_batch_good.
  - destruct (is_alive c s) eqn:Ha; simpl; [|by apply finish_good].
    by apply log_sleep_good.
Qed.

Lemma respond_quiet c response s : quiet s (respond c response s).
Proof.
  unfold respond. destruct response as [[]|]; repeat case_goal; try done; apply emit_quiet.
Qed.

Lemma run_responded_good c r batch s : known c s → good s (run_responded gas c r batch s).
Proof.
  intros Hk. unfold run_responded. destruct r as [v|e|]; [..|reflexivity].
  - pose proof (respond_quiet c v s) as Hq. etrans; [by apply quiet_good|].
    apply run_batch_good. by eapply known_quiet.
  - etrans; [apply quiet_good, sendLog_quiet|]. by apply run_batch_good.
Qed.

(** ** The registry *)

Lemma not_connected_fresh n cs id :
  clients_inv n cs → is_Some (jm_get id (connections cs)) →
  ∀ c, jm_get id (connections cs) = Some c → (conn_ref c < n)%positive.
Proof.
  intros Hi _ c Hc. destruct (ci_conn _ _ Hi _ _ Hc) as (_ & Ha & _).
  apply (ci_fresh _ _ Hi). left. by rewrite Ha.
Qed.

(** The registry with a new connection whose loop is at its first poll. *)
Lemma connected_inv n id cs :
  clients_inv n cs → jm_get id (connections cs) = None →
  let c := Conn n id in
  clients_inv (Pos.succ n)
    (upd_loops (<[c := LPoll]>) (upd_connections (jm_set id c) (upd_alive (<[c := true]>) cs))).
Proof.
  intros Hi Hnew c.
  assert (Hfresh : ∀ c', (conn_ref c' < n)%positive → c ≠ c').
  { intros c' Hlt <-. simpl in Hlt. lia. }
  split; simpl.
  - intros id' c'. rewrite jm_get_set. case_decide as Hid.
    + intros [= <-]. rewrite !lookup_insert_eq. split; [done|]. split; [done|]. by exists LPoll.
    + intros Hc'. destruct (ci_conn _ _ Hi _ _ Hc') as (Hid' & Ha & l & Hl & Hne).
      assert (c ≠ c') by (intros <-; done).
      rewrite !lookup_insert_ne by done. eauto.
  - intros c'. rewrite lookup_insert. case_decide as Hc; [subst; intros _; apply jm_get_set_eq|].
    intros Ha. pose proof (ci_alive _ _ Hi _ Ha). rewrite jm_get_set_ne; [done|]. congruence.
  - intros c'. rewrite !lookup_insert. case_decide as Hc; [subst; simpl; lia|].
    intros Hc'. pose proof (ci_fresh _ _ Hi _ Hc'). lia.
Qed.

Lemma onClientConnected_good id s : good s (onClientConnected id s).
Proof.
  unfold onClientConnected. destruct (jm_has id (connections (clients s))) eqn:Hh; [reflexivity|].
  apply jm_has_false in Hh. intros [Hit Hiw Hip Hio Hib Hic].
  set (c := Conn (fresh (host s)) id). cbv zeta. unfold run_head, is_alive. simpl.
  rewrite lookup_insert_eq. split.
  - split; simpl; [|..|by apply connected_inv].
    + eapply tokens_inv_mono; [|done]. lia.
    + apply (watch_inv_change [] s); [done|apply keeps_refl|simpl; lia|done|].
      intros sg h. split; [|by intros [? _]]. intros ?. split; [done|apply not_elem_of_nil].
    + eapply wspace_inv_same; [done..|simpl; lia|done].
    + done.
    + by destruct Hib.
  - apply evolves_same_tokens; simpl; [done|lia| | |done].
    + by rewrite <- app_assoc; eexists.
    + intros c'. unfold is_alive. simpl. rewrite lookup_insert. case_decide; [|by left].
      subst. right. simpl. lia.
Qed.

(** The registry once [conn.stop()] and [connections.delete(id)] are done. *)
Definition disconnected (id : number) (c : conn) (s : state) : state :=
  upd_clients (upd_connections (jm_delete id)) (stop c s).

Lemma disconnected_good id c s :
  jm_get id (connections (clients s)) = Some c → good s (disconnected id c s).
Proof.
  intros Hc.
  change (disconnected id c s) with
    (upd_clients (upd_connections (jm_delete id) ∘ upd_alive (<[c := false]>)) s).
  apply upd_clients_good.
  - intros Hi. destruct (ci_conn _ _ Hi _ _ Hc) as (Hid & Ha & l & Hl & _). split; simpl.
    + intros id' c' [Hne Hc']%jm_get_delete_Some.
      destruct (ci_conn _ _ Hi _ _ Hc') as (Hid' & Ha' & ?).
      split; [done|]. rewrite lookup_insert_ne; [done|]. congruence.
    + intros c'. rewrite lookup_insert. case_decide; [done|]. intros Ha'.
      rewrite jm_get_delete_Some. pose proof (ci_alive _ _ Hi _ Ha') as Hc'.
      split; [|done]. congruence.
    + intros c'. rewrite lookup_insert. case_decide; [subst c'|by apply (ci_fresh _ _ Hi)].
      intros _. apply (ci_fresh _ _ Hi). left. by rewrite Ha.
  - intros c'. simpl. rewrite lookup_insert. by case_decide.
  - done.
Qed.

Lemma disconnected_dead id c s :
  inv s → jm_get id (connections (clients s)) = Some c →
  ∀ c', conn_id c' = id → is_alive c' (disconnected id c s) = false.
Proof.
  intros Hi Hc c' Hid. unfold is_alive. simpl. rewrite lookup_insert. case_decide; [done|].
  destruct (alive (clients s) !! c') as [[]|] eqn:Ha; try done.
  pose proof (ci_alive _ _ (inv_clients _ Hi) _ Ha). congruence.
Qed.

Lemma onClientDisconnected_good id s : good s (onClientDisconnected id s).
Proof.
  unfold onClientDisconnected.
  destruct (jm_get id (connections (clients s))) as [c|] eqn:Hc; [|reflexivity].
  apply good_assuming. intros Hi. cbv zeta.
  etrans; [|apply quiet_good, sendLog_quiet].
  etrans; [|apply dropClientWorkspaceWatches_good].
  etrans; [by eapply disconnected_good|]. apply dropClientTokens_good.
  by apply disconnected_dead.
Qed.

(** ** [startControlLoop] *)

Lemma process_event_good event s : good s (process_event event s).
Proof.
  unfold process_event. case_goal; [reflexivity|].
  destruct (prop_get "event" event); try reflexivity.
  destruct (prop_get "id" event); try reflexivity.
  destruct (decide (_ = _)); [apply onClientConnected_good|].
  destruct (decide (_ = _)); [apply onClientDisconnected_good|reflexivity].
Qed.

Lemma control_head_good s : good s (control_head s).
Proof. etrans; [|by apply set_control_good]. apply quiet_good, emit_quiet. Qed.

Lemma control_sleep_good ms s : good s (control_sleep ms s).
Proof. etrans; [|by apply set_control_good]. apply quiet_good, emit_quiet. Qed.

Lemma control_polled_good r s : good s (control_polled r s).
Proof.
  unfold control_polled. destruct (poll_outcome r) as [v|e|]; [destruct v|..|reflexivity];
    try apply control_head_good;
    try (etrans; [apply quiet_good, sendLog_quiet|apply control_sleep_good]).
  etrans; [|apply control_sleep_good]. apply foldl_good. intros. apply process_event_good.
Qed.

(** ** Every step *)

Lemma sendLog_settled_quiet r s : quiet s (sendLog_settled r s).
Proof. destruct r; [done|apply emit_quiet]. Qed.

Lemma push_settled_quiet id r s : quiet s (snd (push_settled id r s)).
Proof.
  destruct r as [v|e]; simpl; [|apply emit_quiet].
  destruct v as [| | | |x| |]; try apply sendLog_quiet.
  destruct x; [done|apply sendLog_quiet].
Qed.

Lemma running_known c l s : inv s → loops (clients s) !! c = Some l → known c s.
Proof. intros Hi Hl. apply (ci_fresh _ _ (inv_clients _ Hi)). right. by rewrite Hl. Qed.

Lemma step_good s s' : step gas s s' → good s s'.
Proof.
  intros Hstep. apply good_assuming. intros Hi.
  destruct Hstep; eauto using deliver_good, deadline_fires_good, control_polled_good,
    control_head_good, run_polled_good, run_responded_good, run_head_good, running_known,
    quiet_good, world_quiet, sendLog_settled_quiet, push_settled_quiet.
Qed.

(** ** Script load *)

(** Nothing is claimed, watched or connected yet, and the slots are the
    script's own. *)
Lemma load_script_inv W sg :
  (∀ x, sig_slots sg x = []) → inv (load_script (init_state W sg)).
Proof.
  intros Hsg. set (s0 := init_state W sg).
  pose proof (load_script_loaded s0) as [_ Hf Ht Hw Hcat Hp Hc _ Hsl].
  set (s := load_script s0) in *. clearbody s.
  assert (∀ sg' x, x ∈ slots s sg' ↔ (sg', x) ∈ load_connections W) as Hslots.
  { intros sg' x. etrans; [exact (Hsl _ sg' x)|]. change (slots s0 sg') with (sig_slots sg sg').
    change (world (host s0)) with W. rewrite Hsg, elem_of_nil. tauto. }
  assert (∀ sg' x, x ∈ slots s sg' → is_listener x = false) as Hnone.
  { intros sg' x [_ Hx]%Hslots%load_connections_home. exact Hx. }
  split.
  - rewrite Ht, Hf. split; simpl; try done; try apply NoDup_nil_2; intros; by rewrite ?lookup_empty in *.
  - split; [by rewrite Hw|]. intros sg' h. rewrite Hw. split; [by intros Hx%Hnone|].
    by intros (_ & st & Hst & _).
  - split; [by rewrite Hp|]. intros sg' h. rewrite Hp. split; [by intros Hx%Hnone|].
    by intros (_ & st & Hst & _).
  - intros sg'. unfold listeners.
    assert (filter is_listener (slots s sg') = []) as ->; [|apply NoDup_nil_2].
    apply elem_of_nil_inv. intros x [Hl Hx%Hnone]%list_elem_of_filter. by rewrite Hx in Hl.
  - split.
    + intros Hk sg' x Hx. apply Hslots. by apply load_connections_own.
    + intros sg' x [Hx _]%Hslots%load_connections_home. exact Hx.
    + rewrite Hcat. apply loaded_catalogs_ok. by split; [apply jm_wf_empty|split; [|apply NoDup_nil_2]].
  - rewrite Hc, Hf. split; simpl; [done| |]; intros c; rewrite ?lookup_empty; [done|]. by intros [[]|[]].
Qed.

Lemma steps_good s s' : rtc (step gas) s s' → good s s'.
Proof.
  induction 1; [reflexivity|]. etrans; [by apply step_good|done].
Qed.

Lemma reachable_invariant s : reachable gas s → inv s.
Proof.
  intros (W & sg & Hsg & Hsteps). apply (steps_good _ _ Hsteps). by apply load_script_inv.
Qed.
End ClientsInv.
