(* ===== verification/Scenario.v ===== *)
(** * A run of the script

    The script in the reference environment: two clients connect, each
    requests a token, the first token appears in a caption, and its owner
    watches the window.  The states along this run are where the witnesses
    evaluate the theorems' hypotheses. *)
From S2P Require Export RefRpc SystemInv.

(** Requests are handled with room for four candidate tokens. *)
Definition sc_gas : nat := 4.

Definition sc_win : window := Win 1.
Definition sc_other : window := Win 2.
Definition sc_desk1 : desktop := Desk 1.
Definition sc_desk2 : desktop := Desk 2.

Definition sc_world (caption : string) : ref_world := {|
  rw_windows := [
    (sc_win, RefWindow caption [sc_desk1] ["work"] [("minimized", Bool false)]);
    (sc_other, RefWindow "editor" [sc_desk1] [] [])];
  rw_desktops := [sc_desk1; sc_desk2];
  rw_activities := ["work"; "play"];
  rw_currentDesktop := sc_desk1;
  rw_currentActivity := "work";
|}.

(** A batch as the daemon returns it. *)
Definition sc_batch (l : list value) : settled := Fulfilled (Str (ref_stringify (Arr l))).

Definition sc_event (kind : string) (id : Z) : value :=
  Obj [("event", Str kind); ("id", Num (NInt id))].

(** The identities the run hands out. *)
Definition sc_conn1 : conn := Conn 1 (NInt 3).
Definition sc_conn2 : conn := Conn 2 (NInt 4).
Definition sc_entry1 : positive := 3.
Definition sc_entry2 : positive := 4.
Definition sc_token1 : string := random_token TOKEN_LENGTH 0.
Definition sc_token2 : string := random_token TOKEN_LENGTH 20.

Definition sc_request (name : string) (params : value) : value :=
  request (Some (Num (NInt 1))) name params.

(** A client polls a batch of one request, which is answered. *)
Definition sc_call (c : conn) (name : string) (params : value) : list move :=
  [MvClientPolled c (sc_batch [sc_request name params]); MvClientResponds c; MvClientWakes c].

Definition sc_connect : list move :=
  [MvControlPolled (sc_batch [sc_event "client_connected" 3; sc_event "client_connected" 4]);
   MvControlWakes].

Definition sc_tokens : list move :=
  sc_call sc_conn1 "token.request" (Obj [("timeout", Num (NInt 5000))]) ++
  sc_call sc_conn2 "token.request" (Obj [("timeout", Num (NInt 5000))]).

Definition sc_caption (token : string) : move :=
  MvSignal (sc_world (token +:+ " - terminal")) (EmWindow sc_win "captionNormalChanged").

Definition sc_watch : list move :=
  sc_call sc_conn1 "window.watch"
    (Arr [Str sc_token1; Obj [("minimized", Bool true); ("desktops", Bool true)]]) ++
  sc_call sc_conn2 "workspace.watch" (Arr [Obj [("currentDesktop", Bool true)]]).

Definition scenario (ms : list move) : state :=
  default (init_state (sc_world "terminal") [])
    (perform_all sc_gas ms (load_script (init_state (sc_world "terminal") []))).

Definition performed (ms : list move) : bool :=
  bool_decide (is_Some (perform_all sc_gas ms (load_script (init_state (sc_world "terminal") [])))).

Lemma scenario_reachable ms : performed ms = true → reachable sc_gas (scenario ms).
Proof.
  unfold performed, scenario. intros [s Hs]%bool_decide_eq_true. rewrite Hs.
  by eapply perform_all_reachable; [|exact Hs].
Qed.

Lemma scenario_steps ms ms' :
  performed ms = true → performed (ms ++ ms') = true →
  rtc (step sc_gas) (scenario ms) (scenario (ms ++ ms')).
Proof.
  unfold performed, scenario. intros [s Hs]%bool_decide_eq_true [s' Hs']%bool_decide_eq_true.
  rewrite Hs, Hs'. simpl. rewrite perform_all_app, Hs in Hs'. by eapply perform_all_steps.
Qed.

(** The states of the run. *)
Definition sc_requesting : list move := sc_connect ++ sc_tokens.
Definition sc_binding : list move := sc_requesting ++ [sc_caption sc_token1].
Definition sc_listening : list move := sc_binding ++ sc_watch.

Definition sc_requested : state := scenario sc_requesting.
Definition sc_bound : state := scenario sc_binding.
Definition sc_watching : state := scenario sc_listening.

Lemma sc_requested_reachable : reachable sc_gas sc_requested.
Proof. apply scenario_reachable. evaluate. Qed.

Lemma sc_bound_reachable : reachable sc_gas sc_bound.
Proof. apply scenario_reachable. evaluate. Qed.

Lemma sc_watching_reachable : reachable sc_gas sc_watching.
Proof. apply scenario_reachable. evaluate. Qed.

Lemma sc_requested_bound : rtc (step sc_gas) sc_requested sc_bound.
Proof. apply scenario_steps; evaluate. Qed.

Example sc_bound_claims :
  entry_at sc_entry1 sc_bound =
    Some (MkTokenEntry _ sc_token1 sc_conn1 active (Some sc_win) (RefTimer true 1 5000 true)) ∧
  entry_at sc_entry2 sc_bound =
    Some (MkTokenEntry _ sc_token2 sc_conn2 pending None (RefTimer true 1 5000 true)).
Proof. split; evaluate. Qed.

(** What has been pushed to the two clients by the end. *)
Example sc_pushes : pushes (out sc_watching) =
  map (λ cm : conn * value, ECall (push_call (conn_id (fst cm)) (ref_stringify (snd cm))))
  [(sc_conn1, success_response (Num (NInt 1)) (Obj [("token", Str sc_token1)]));
   (sc_conn2, success_response (Num (NInt 1)) (Obj [("token", Str sc_token2)]));
   (sc_conn1, createJSONRPCNotification "token.validated"
      (Obj [("token", Str sc_token1);
            ("window", Obj [("caption", Str (sc_token1 +:+ " - terminal"))])]));
   (sc_conn1, success_response (Num (NInt 1))
      (Obj [("minimized", Bool true); ("desktops", Bool true)]));
   (sc_conn2, success_response (Num (NInt 1)) (Obj [("currentDesktop", Bool true)]))].
Proof. evaluate. Qed.
