(* ===== verification/TokenProps.v ===== *)
(** * Properties of the token registry

    The registry of tokens.ts against its contract (Spec.v): over any run the
    claims only take the contract's steps, and every handler does exactly what
    the contract's function says, with exactly the notifications it names. *)
From S2P Require Export Scenario.

Section Wire.
Context {E : Env}.
Implicit Types (s : state).

(** What the owner of a note finds on its socket: nothing once it is gone. *)
Definition wire (s : state) (n : note) : list effect :=
  let W := world (host s) in
  match n with
  | Validated c t w =>
    if is_alive c s
    then [notification c "token.validated" (validation t (window_member W (Some w)))] else []
  | Invalidated c t reason w =>
    if is_alive c s
    then [notification c "token.invalidated" (invalidation t reason (window_member W w))] else []
  | Gone _ => []
  end.

(** The operation from [s] to [s'] is the contract's [r]. *)
Definition implements (s s' : state) (r : claims * list note) : Prop :=
  abs (tokens s') = fst r ∧
  pushes (out s') = pushes (out s) ++ concat (map (wire s) (snd r)).

Lemma implements_nothing s : implements s s (abs (tokens s), []).
Proof. split; [done|]. simpl. by rewrite app_nil_r. Qed.
End Wire.

Section TokenSteps.
Context {E : Env} `{!QTimerLaws E, !SignalLaws E}.
Implicit Types (s : state) (w : window).

Lemma left_with_implements f e en reason s :
  inv s → entry_at e s = Some en → registered (te_token en) e s →
  implements s (left_with f e en reason s)
    (delete (te_token en) (abs (tokens s)),
     [Invalidated (te_conn en) (te_token en) reason (te_window en)]).
Proof.
  intros Hi He Hr.
  destruct (without_frame f e en s) as (Ht & _ & Hc & _ & _ & Hp & _).
  destruct (left_with_quiet f e en reason s) as [Hq _]. split.
  - rewrite (qu_tokens _ _ Hq), Ht. simpl. by eapply abs_remove; [apply Hi|..].
  - unfold left_with. rewrite sendLog_pushes, notifyClient_pushes, Hp.
    rewrite (is_alive_clients _ s) by done. simpl. by rewrite app_nil_r.
Qed.

Lemma bound_with_implements msg e en w s :
  inv s → entry_at e s = Some en → registered (te_token en) e s → te_state en = pending →
  implements s (bound_with msg e en w s)
    (<[te_token en := Claim (te_conn en) (Some w) true]> (abs (tokens s)),
     [Validated (te_conn en) (te_token en) w]).
Proof.
  intros Hi He Hr Hst. pose proof (bound_with_quiet msg e en w s) as Hq. split.
  - rewrite (qu_tokens _ _ Hq). by eapply abs_bind; [apply Hi|..].
  - unfold bound_with. rewrite sendLog_pushes, notifyClient_pushes. simpl.
    by rewrite app_nil_r.
Qed.

(** The holder of a window is the entry [byWindow] has for it. *)
Lemma holder_byWindow `{!WindowIdLaws E} w s :
  inv s →
  match jm_get (windowKey w) (byWindow (tokens s)) with
  | Some e => ∃ en, entry_at e s = Some en ∧ registered (te_token en) e s ∧
      te_window en = Some w ∧ holder w (abs (tokens s)) = Some (te_token en, abs_entry en)
  | None => holder w (abs (tokens s)) = None
  end.
Proof.
  intros Hi. pose proof (inv_tokens _ Hi) as Hit.
  destruct (jm_get _ _) as [e|] eqn:Hk.
  - destruct (window_owner _ _ _ Hi Hk) as (en & w' & He & _ & Hw & Hkey & Hr).
    apply windowKey_inj in Hkey as ->. exists en. split; [done|]. split; [done|].
    split; [done|]. apply holder_Some; [by eapply abs_exclusive| |done].
    exact (abs_registered _ _ _ _ Hr He).
  - apply holder_None. intros t cl Ht Hw.
    destruct (abs_window _ _ _ _ _ Hit Ht Hw) as (e & en & _ & _ & _ & _ & _ & Hk'). congruence.
Qed.

Lemma evict_implements `{!WindowIdLaws E} w reason s :
  inv s →
  implements s
    match jm_get (windowKey w) (byWindow (tokens s)) with
    | Some e => invalidate e reason s
    | None => s
    end (evict reason w (abs (tokens s))).
Proof.
  intros Hi. pose proof (holder_byWindow w s Hi) as Hh. unfold evict.
  destruct (jm_get _ _) as [e|]; [|rewrite Hh; apply implements_nothing].
  destruct Hh as (en & He & Hr & Hw & ->). rewrite (invalidate_unfold e en reason s He).
  pose proof (left_with_implements timer_stop e en reason s Hi He Hr) as Him.
  by rewrite Hw in Him.
Qed.

Lemma wire_quiet s s' n :
  clients s' = clients s → world (host s') = world (host s) → wire s' n = wire s n.
Proof.
  intros Hc Hw. unfold wire. rewrite Hw.
  by destruct n; rewrite ?(is_alive_clients _ s s') by done.
Qed.

Lemma implements_seq s1 s2 s3 G ns1 G' ns2 :
  clients s2 = clients s1 → world (host s2) = world (host s1) →
  implements s1 s2 (G, ns1) → implements s2 s3 (G', ns2) →
  implements s1 s3 (G', ns1 ++ ns2).
Proof.
  intros Hc Hw [_ Hp1] [Ha2 Hp2]. split; [done|]. simpl in *.
  rewrite Hp2, Hp1, map_app, concat_app, app_assoc. f_equal. f_equal.
  apply map_ext. intros n. by apply wire_quiet.
Qed.

Lemma superseded_frame e en w s :
  inv s → entry_at e s = Some en → te_state en = pending →
  clients (superseded_state e w s) = clients s ∧
  world (host (superseded_state e w s)) = world (host s).
Proof.
  intros Hi He Hst. unfold superseded_state.
  destruct (jm_get _ _) as [e'|] eqn:Hk; [|done]. case_decide; [done|].
  destruct (window_owner _ _ _ Hi Hk) as (en' & w' & He' & _).
  rewrite (invalidate_unfold e' en' superseded s He').
  destruct (without_frame timer_stop e' en' s) as (_ & _ & Hc & _ & Hw & _).
  unfold left_with. simpl.
  pose proof (notifyClient_same_heap (te_conn en') "token.invalidated"
    (invalidated_params en' superseded s) (without timer_stop e' en' s)) as [Hh _ _ _ Hcl].
  by rewrite Hh, Hcl.
Qed.

Lemma validate_implements `{!WindowIdLaws E} e en w s :
  inv s → entry_at e s = Some en → registered (te_token en) e s → te_state en = pending →
  implements s (validate e w s) (caption_match w (te_token en) (abs (tokens s))).
Proof.
  intros Hi He Hr Hst.
  destruct (superseded_spec e en w s Hi He Hr Hst) as (Hg & He1 & Hr1 & Hk1).
  destruct (validate_unfold e en w s He) as [msg ->].
  destruct (superseded_frame e en w s Hi He Hst) as [Hc Hw].
  assert (Hcl : abs (tokens s) !! te_token en = Some (Claim (te_conn en) None true)).
  { rewrite (abs_registered _ _ _ _ Hr He). f_equal. by eapply abs_pending; [apply Hi|..]. }
  unfold caption_match. rewrite Hcl.
  pose proof (evict_implements w superseded s Hi) as Hev.
  destruct (evict superseded w (abs (tokens s))) as [G ns].
  assert (Hs1 : superseded_state e w s =
    match jm_get (windowKey w) (byWindow (tokens s)) with
    | Some e' => invalidate e' superseded s | None => s end).
  { unfold superseded_state.
    destruct (jm_get (windowKey w) (byWindow (tokens s))) as [e'|] eqn:Hk; [|done].
    rewrite decide_False; [done|]. intros ->.
    destruct (window_owner _ _ _ Hi Hk) as (en' & w' & He' & Hst' & _). congruence. }
  rewrite <- Hs1 in Hev.
  apply (implements_seq s (superseded_state e w s) _ G); [done..|].
  destruct Hev as [Ha _]. simpl in Ha. rewrite <- Ha.
  apply bound_with_implements; [by apply Hg|done..].
Qed.
End TokenSteps.

Section TokenProps.
Context {E : Env} {J : JsonRpcApi E} `{!QTimerLaws E, !SignalLaws E, !WindowIdLaws E}.
Context `{!JsonRpcLaws E J} (gas : nat).
Implicit Types (s : state) (w : window) (t : string).

Lemma checkCaption_implements w s :
  inv s →
  implements s (checkCaption w s)
    (let caption := captionNormal (world (host s)) w in
     if (String.length caption <? TOKEN_LENGTH)%nat then (abs (tokens s), [])
     else caption_match w (String.substring 0 TOKEN_LENGTH caption) (abs (tokens s))).
Proof.
  intros Hi. unfold checkCaption. cbv zeta. case_goal; [apply implements_nothing|].
  set (t := String.substring _ _ _). pose proof (inv_tokens _ Hi) as Hit.
  destruct (jm_get t (byToken (tokens s))) as [e|] eqn:Hr.
  2: { unfold caption_match. rewrite (proj2 (abs_None _ _ t Hit) Hr). apply implements_nothing. }
  destruct (registered_entry _ _ _ Hi Hr) as (en & He & Ht). rewrite He.
  assert (Hcl : abs (tokens s) !! t = Some (abs_entry en))
    by exact (abs_registered (tokens s) t e en Hr He).
  rewrite <- Ht in Hr. destruct (timer_active (te_deadlineTimer en)) eqn:Hact; simpl.
  2: { unfold caption_match. rewrite Hcl. unfold abs_entry. rewrite Hact.
       destruct (te_window en); apply implements_nothing. }
  destruct (te_window en) as [w'|] eqn:Hw.
  - unfold caption_match. rewrite Hcl. unfold abs_entry. rewrite Hw, Hact.
    destruct (decide (w' = w)) as [->|Hne]; [apply implements_nothing|].
    rewrite (invalidate_unfold e en ambiguous s He).
    pose proof (left_with_implements timer_stop e en ambiguous s Hi He Hr) as Him.
    by rewrite Hw, Ht in Him.
  - rewrite <- Ht. apply validate_implements; [done..|].
    destruct (te_state en) eqn:Hst; [done|].
    destruct (ti_active _ _ Hit _ _ He Hr Hst) as (w' & ? & _). congruence.
Qed.

Lemma deadline_implements e en s :
  inv s → entry_at e s = Some en → timer_active (te_deadlineTimer en) = true →
  implements s (deadline_fires e s) (deadline (te_token en) (abs (tokens s))).
Proof.
  intros Hi He Hact. pose proof (running_registered _ _ _ Hi He Hact) as Hr.
  pose proof (inv_tokens _ Hi) as Hit.
  unfold deadline. rewrite (abs_registered _ _ _ _ Hr He). unfold abs_entry. rewrite Hact.
  destruct (te_state en) eqn:Hst.
  - rewrite (deadline_pending e en s He Hst).
    pose proof (left_with_implements (timer_stop ∘ timer_timeout) e en timeout s Hi He Hr) as Him.
    by rewrite (ti_pending _ _ Hit _ _ He Hst) in Him |- *.
  - destruct (ti_active _ _ Hit _ _ He Hr Hst) as (w & Hw & _). rewrite Hw.
    assert (Heq : deadline_fires e s = upd_tokens (tk_tick e) s).
    { unfold deadline_fires, onTokenDeadline, entry_at. simpl. rewrite lookup_alter_eq.
      unfold entry_at in He. rewrite He. simpl. by rewrite Hst. }
    rewrite Heq. split; simpl; [by eapply abs_tick|by rewrite app_nil_r].
Qed.

Lemma steps_evolve s s' : inv s → rtc (step gas) s s' → evolves s s'.
Proof. intros Hi Hs. exact (proj2 (steps_good gas s s' Hs Hi)). Qed.

Lemma claim_known s t cl : inv s → abs (tokens s) !! t = Some cl → known (cl_owner cl) s.
Proof.
  intros Hi (e & en & _ & He & _ & ->)%(abs_Some (fresh (host s))); [|apply Hi].
  apply (ti_fresh _ _ (inv_tokens _ Hi) _ _ He).
Qed.

(** A farewell among the notes of a run reached an owner that is alive. *)
Lemma farewell_told s s' c t ns :
  known c s → is_alive c s' = true → Forall (note_done s s') ns →
  Exists (is_farewell c t) ns →
  ∃ reason (wo : option window) W, emitted s s'
    (notification c "token.invalidated" (invalidation t reason (window_member W wo))).
Proof.
  intros Hk Ha Hns (n & Hin & Hf)%Exists_exists.
  rewrite Forall_forall in Hns. specialize (Hns n Hin).
  destruct n as [c' t' w|c' t' r w|id]; simpl in *; [done| |].
  - destruct Hf as [-> ->], Hns as [_ Htold]. destruct (Htold Ha) as [W Hem]. eauto.
  - by rewrite (Hns c Hk) in Ha.
Qed.

(** C1: over any run of the script, whatever KWin, Qt and the daemon do in
    between, the registry of tokens.ts only takes the steps of the token
    contract of Spec.v, and every note the contract calls for has been
    pushed to its owner unless the owner disconnected. *)
Theorem script_refines_claims s s' :
  reachable gas s → rtc (step gas) s s' →
  ∃ ns, spec_run (abs (tokens s)) ns (abs (tokens s')) ∧ Forall (note_done s s') ns.
Proof.
  intros Hi%reachable_invariant Hs; [|done..]. by apply (ev_spec _ _ (steps_evolve _ _ Hi Hs)).
Qed.

(** C2: in every reachable state a window is bound to at most one token, and
    [byWindow] has an entry for a window exactly when some token is bound
    to it. *)
Theorem window_claimed_once s :
  reachable gas s →
  exclusive (abs (tokens s)) ∧
  ∀ w, is_Some (jm_get (windowKey w) (byWindow (tokens s))) ↔
    ∃ t cl, abs (tokens s) !! t = Some cl ∧ cl_window cl = Some w.
Proof.
  intros Hi%reachable_invariant; [|done..]. pose proof (inv_tokens _ Hi) as Hit.
  split; [by eapply abs_exclusive|]. intros w. split.
  - intros [e Hk]. destruct (window_owner _ _ _ Hi Hk) as (en & w' & He & _ & Hw & Hkey & Hr).
    apply windowKey_inj in Hkey as ->. exists (te_token en), (abs_entry en).
    split; [exact (abs_registered _ _ _ _ Hr He)|done].
  - intros (t & cl & Ht & Hw).
    destruct (abs_window _ _ _ _ _ Hit Ht Hw) as (e & en & _ & _ & _ & _ & _ & ->). done.
Qed.

(** C3: a valid token whose owner stays connected either is still valid,
    with the same owner and, once bound, the same window, or its owner was
    pushed a [token.invalidated] for it. *)
Theorem token_loss_is_announced s s' t cl :
  reachable gas s → rtc (step gas) s s' →
  abs (tokens s) !! t = Some cl → is_alive (cl_owner cl) s' = true →
  (∃ cl', abs (tokens s') !! t = Some cl' ∧ cl_owner cl' = cl_owner cl ∧
     (cl_window cl ≠ None → cl_window cl' = cl_window cl)) ∨
  ∃ reason (wo : option window) W, emitted s s' (notification (cl_owner cl) "token.invalidated"
    (invalidation t reason (window_member W wo))).
Proof.
  intros Hi%reachable_invariant Hs Ht Ha; [|done..].
  destruct (ev_spec _ _ (steps_evolve _ _ Hi Hs)) as (ns & Hrun & Hns).
  destruct (spec_run_leave _ _ _ _ _ Hrun Ht) as [?|Hf]; [by left|right].
  eapply farewell_told; [by eapply claim_known|done..].
Qed.

(** C4: when a pending token of a connected client has become bound to a
    window, its owner was pushed a [token.validated] with a caption of that
    window, or the token had been invalidated in between. *)
Theorem token_binding_is_announced s s' t cl cl' w :
  reachable gas s → rtc (step gas) s s' →
  abs (tokens s) !! t = Some cl → cl_window cl = None →
  abs (tokens s') !! t = Some cl' → cl_window cl' = Some w → cl_owner cl' = cl_owner cl →
  is_alive (cl_owner cl) s' = true →
  (∃ W, emitted s s' (notification (cl_owner cl) "token.validated"
     (validation t (window_member W (Some w))))) ∨
  ∃ reason (wo : option window) W, emitted s s' (notification (cl_owner cl) "token.invalidated"
    (invalidation t reason (window_member W wo))).
Proof.
  intros Hi%reachable_invariant Hs Ht Hw Ht' Hw' Hc Ha; [|done..].
  destruct (ev_spec _ _ (steps_evolve _ _ Hi Hs)) as (ns & Hrun & Hns).
  destruct (spec_run_bound _ _ _ _ _ _ _ Hrun Ht Ht' Hw Hw' Hc) as [Hv|Hf].
  - left. rewrite Forall_forall in Hns. destruct (Hns _ Hv) as [_ Htold]. by apply Htold.
  - right. eapply farewell_told; [by eapply claim_known|done..].
Qed.

(** a caption shorter than a token changes nothing; any other caption
    does to the claims, and pushes to the clients, what the contract says of
    its first twenty characters: binding a pending token (superseding the
    window's previous one), withdrawing an open bound token as ambiguous. *)
Theorem checkCaption_refines w s :
  reachable gas s →
  implements s (checkCaption w s)
    (let caption := captionNormal (world (host s)) w in
     if (String.length caption <? TOKEN_LENGTH)%nat then (abs (tokens s), [])
     else caption_match w (String.substring 0 TOKEN_LENGTH caption) (abs (tokens s))).
Proof. intros Hi%reachable_invariant; [|done..]. by apply checkCaption_implements. Qed.

(** a deadline that fires withdraws a pending token with the reason
    [timeout] and tells its owner; a bound token stays, its validate window
    closed, and nobody is told. *)
Theorem deadline_refines e en s :
  reachable gas s → entry_at e s = Some en → timer_active (te_deadlineTimer en) = true →
  implements s (deadline_fires e s) (deadline (te_token en) (abs (tokens s))).
Proof. intros Hi%reachable_invariant; [|done..]. by apply deadline_implements. Qed.

(** closing a window withdraws the token bound to it, if any, with the
    reason [window_closed], and tells its owner; no other claim changes. *)
Theorem onWindowRemoved_refines w s :
  reachable gas s →
  implements s (onWindowRemoved w s) (evict window_closed w (abs (tokens s))).
Proof.
  intros Hi%reachable_invariant; [|done..]. unfold onWindowRemoved.
  exact (evict_implements w window_closed s Hi).
Qed.
End TokenProps.

(** * Witnesses *)

Definition sc_claim1 : claim := Claim sc_conn1 None true.
Definition sc_claim1_bound : claim := Claim sc_conn1 (Some sc_win) true.

Lemma script_refines_claims_witness :
  ∃ ns, spec_run (abs (tokens sc_requested)) ns (abs (tokens sc_bound)) ∧
    Forall (note_done sc_requested sc_bound) ns.
Proof.
  exact (script_refines_claims sc_gas _ _ sc_requested_reachable sc_requested_bound).
Defined.

Lemma window_claimed_once_witness :
  exclusive (abs (tokens sc_bound)) ∧
  ∀ w, is_Some (jm_get (windowKey w) (byWindow (tokens sc_bound))) ↔
    ∃ t cl, abs (tokens sc_bound) !! t = Some cl ∧ cl_window cl = Some w.
Proof. exact (window_claimed_once sc_gas sc_bound sc_bound_reachable). Defined.

Lemma token_loss_is_announced_witness :
  (∃ cl', abs (tokens sc_bound) !! sc_token1 = Some cl' ∧ cl_owner cl' = sc_conn1 ∧
     (cl_window sc_claim1 ≠ None → cl_window cl' = cl_window sc_claim1)) ∨
  ∃ reason (wo : option window) W, emitted sc_requested sc_bound
    (notification sc_conn1 "token.invalidated"
      (invalidation sc_token1 reason (window_member W wo))).
Proof.
  apply (token_loss_is_announced sc_gas sc_requested sc_bound sc_token1 sc_claim1
    sc_requested_reachable sc_requested_bound); evaluate.
Defined.

Lemma token_binding_is_announced_witness :
  (∃ W, emitted sc_requested sc_bound (notification sc_conn1 "token.validated"
     (validation sc_token1 (window_member W (Some sc_win))))) ∨
  ∃ reason (wo : option window) W, emitted sc_requested sc_bound
    (notification sc_conn1 "token.invalidated"
      (invalidation sc_token1 reason (window_member W wo))).
Proof.
  apply (token_binding_is_announced sc_gas sc_requested sc_bound sc_token1 sc_claim1
    sc_claim1_bound sc_win sc_requested_reachable sc_requested_bound); evaluate.
Defined.

(** The caption has changed, the slot has not run yet. *)
Definition sc_renamed : state :=
  scenario (sc_requesting ++ [MvWorld (sc_world (sc_token1 +:+ " - terminal"))]).

Lemma checkCaption_refines_witness :
  implements sc_renamed (checkCaption sc_win sc_renamed)
    (caption_match sc_win sc_token1 (abs (tokens sc_renamed))).
Proof.
  assert (Hr : reachable sc_gas sc_renamed) by (apply scenario_reachable; evaluate).
  pose proof (checkCaption_refines sc_gas sc_win sc_renamed Hr) as Hc.
  assert (Hcap : captionNormal (world (host sc_renamed)) sc_win = sc_token1 +:+ " - terminal")
    by evaluate.
  assert (Hlen : (String.length (sc_token1 +:+ " - terminal") <? TOKEN_LENGTH)%nat = false)
    by evaluate.
  assert (Hpre : String.substring 0 TOKEN_LENGTH (sc_token1 +:+ " - terminal") = sc_token1)
    by evaluate.
  cbv zeta in Hc. rewrite Hcap, Hlen, Hpre in Hc. exact Hc.
Defined.

Lemma deadline_refines_witness :
  implements sc_requested (deadline_fires sc_entry1 sc_requested)
    (deadline sc_token1 (abs (tokens sc_requested))).
Proof.
  apply (deadline_refines sc_gas sc_entry1 (new_entry sc_token1 sc_conn1 5000) sc_requested
    sc_requested_reachable); evaluate.
Defined.

Lemma onWindowRemoved_refines_witness :
  implements sc_bound (onWindowRemoved sc_win sc_bound)
    (evict window_closed sc_win (abs (tokens sc_bound))).
Proof. exact (onWindowRemoved_refines sc_gas sc_win sc_bound sc_bound_reachable). Defined.
