(* ===== verification/RequestProps.v ===== *)
(** * Requesting, using and losing tokens

    [token.request] and the generator behind it, the access check of every
    method that takes a token, and the end of a client. *)
From S2P Require Export TokenProps.
From Stdlib Require Import Ascii.

(** ** The generator *)
Section Generator.
Context {E : Env}.
Implicit Types (s : state) (t : string).

Fixpoint all_chars (P : ascii → Prop) (x : string) : Prop :=
  match x with EmptyString => True | String c x => P c ∧ all_chars P x end.

(** A character of the alphabet. *)
Definition in_alphabet (c : ascii) : Prop :=
  ∃ i, (i < 64)%nat ∧ String.get i TOKEN_ALPHABET = Some c.

Lemma alphabet_get i : (i < 64)%nat → is_Some (String.get i TOKEN_ALPHABET).
Proof.
  intros Hi. assert (Hall : forallb (λ i, bool_decide (is_Some (String.get i TOKEN_ALPHABET)))
    (seq 0 64) = true) by (vm_compute; reflexivity).
  rewrite forallb_forall in Hall. specialize (Hall i ltac:(apply in_seq; lia)).
  by apply bool_decide_eq_true in Hall.
Qed.

Lemma draw_index `{!RandomLaws E} n :
  0 <= Qfloor (Math_random n * inject_Z (Z.of_nat (String.length TOKEN_ALPHABET))) < 64.
Proof.
  destruct (Math_random_range n) as [H0 H1].
  change (Z.of_nat (String.length TOKEN_ALPHABET)) with 64. split.
  - change 0 with (Qfloor 0). apply Qfloor_resp_le.
    rewrite <- (Qmult_0_l (inject_Z 64)). apply Qmult_le_compat_r; [done|]. by compute.
  - rewrite Zlt_Qlt. eapply Qle_lt_trans; [apply Qfloor_le|].
    rewrite <- (Qmult_1_l (inject_Z 64)) at 2. apply Qmult_lt_compat_r; [by compute|done].
Qed.

Lemma random_char_spec `{!RandomLaws E} n :
  ∃ c, random_char n = String c EmptyString ∧ in_alphabet c.
Proof.
  pose proof (draw_index n) as Hi. unfold random_char.
  set (i := Qfloor _) in *.
  destruct (alphabet_get (Z.to_nat i) ltac:(lia)) as [c Hc]. rewrite Hc.
  rewrite (proj2 (Z.leb_le 0 i)) by lia. exists c. split; [done|].
  exists (Z.to_nat i). split; [lia|done].
Qed.

Lemma random_token_spec `{!RandomLaws E} k n :
  String.length (random_token k n) = k ∧ all_chars in_alphabet (random_token k n).
Proof.
  revert n. induction k as [|k IH]; intros n; [done|]. cbn [random_token].
  destruct (random_char_spec n) as (c & -> & Hc), (IH (S n)) as [Hl Ha].
  change (String c "" +:+ random_token k (S n)) with (String c (random_token k (S n))).
  split; [cbn [String.length]; by rewrite Hl|done].
Qed.

(** The candidates of the loop, from a given draw on. *)
Definition candidate (d k : nat) : string := random_token TOKEN_LENGTH (d + k * TOKEN_LENGTH).

Lemma generateToken_cases gas s :
  (∃ k, (k < gas)%nat ∧ fst (generateToken gas s) = Ret (candidate (draws (host s)) k) ∧
    jm_has (candidate (draws (host s)) k) (byToken (tokens s)) = false ∧
    ∀ j, (j < k)%nat → jm_has (candidate (draws (host s)) j) (byToken (tokens s)) = true) ∨
  (fst (generateToken gas s) = OutOfFuel ∧
    ∀ j, (j < gas)%nat → jm_has (candidate (draws (host s)) j) (byToken (tokens s)) = true).
Proof.
  revert s. induction gas as [|gas IH]; intros s; [right; split; [done|lia]|].
  cbn [generateToken]. set (s1 := upd_host _ s).
  assert (Hshift : ∀ j, candidate (draws (host s1)) j = candidate (draws (host s)) (S j)).
  { intros j. unfold candidate, s1. cbn [host draws upd_host upd_draws]. f_equal. lia. }
  assert (H0 : random_token TOKEN_LENGTH (draws (host s)) = candidate (draws (host s)) 0).
  { unfold candidate. by rewrite Nat.mul_0_l, Nat.add_0_r. }
  rewrite H0. change (byToken (tokens s1)) with (byToken (tokens s)).
  destruct (jm_has (candidate (draws (host s)) 0) (byToken (tokens s))) eqn:Hh; simpl.
  - destruct (IH s1) as [(k & Hk & Hr & Hfree & Hall)|[Hr Hall]].
    + left. exists (S k). rewrite <- Hshift. split; [lia|]. split; [done|]. split; [done|].
      intros [|j] Hj; [done|]. rewrite <- Hshift. apply Hall. lia.
    + right. split; [done|]. intros [|j] Hj; [done|]. rewrite <- Hshift. apply Hall. lia.
  - left. exists 0%nat. split; [lia|]. split; [done|]. split; [done|lia].
Qed.

(** Distinct candidates cannot all be taken. *)
Lemma candidates_pigeonhole (f : nat → string) gas (m : jsmap string positive) :
  NoDup (map f (seq 0 gas)) → (∀ j, (j < gas)%nat → jm_has (f j) m = true) →
  (gas ≤ jm_size m)%nat.
Proof.
  intros Hnd Hall. assert (Hsub : map f (seq 0 gas) ⊆ jm_keys m).
  { intros x (j & <- & Hj%in_seq)%list_elem_of_In%in_map_iff.
    apply jm_keys_elem, jm_has_spec, Hall. lia. }
  pose proof (submseteq_length _ _ (NoDup_submseteq _ _ Hnd Hsub)) as Hlen.
  unfold jm_keys in Hlen. rewrite !length_map, length_seq in Hlen. done.
Qed.
End Generator.

Section RequestProps.
Context {E : Env} {J : JsonRpcApi E} `{!QTimerLaws E, !SignalLaws E, !WindowIdLaws E}.
Context `{!RandomLaws E, !JsonRpcLaws E J} (gas : nat).
Implicit Types (s : state) (c : conn) (w : window) (t : string).

(** a generated token is not a valid token yet, and has exactly twenty
    characters of the base64 alphabet. *)
Theorem generateToken_format n t s s' :
  generateToken n s = (Ret t, s') →
  jm_has t (byToken (tokens s)) = false ∧
  String.length t = TOKEN_LENGTH ∧ all_chars in_alphabet t.
Proof.
  intros Hg. destruct (generateToken_cases n s) as [(k & _ & Hr & Hfree & _)|[Hr _]];
    rewrite Hg in Hr; [|done].
  injection Hr as ->. split; [done|]. apply random_token_spec.
Qed.

(** C21: The resampling loop ends: when the candidates that it may draw are
    pairwise distinct and more than the tokens that are registered, one of them
    is returned. *)
Theorem generateToken_terminates n s :
  (jm_size (byToken (tokens s)) < n)%nat →
  NoDup (map (candidate (draws (host s))) (seq 0 n)) →
  ∃ k, (k < n)%nat ∧ fst (generateToken n s) = Ret (candidate (draws (host s)) k).
Proof.
  intros Hlt Hnd. destruct (generateToken_cases n s) as [(k & Hk & Hr & _)|[_ Hall]]; [by eauto|].
  pose proof (candidates_pigeonhole _ _ _ Hnd Hall). lia.
Qed.

(** C22: [token.request] answers a token that was not valid, now claimed by
    the caller, pending, with a single-shot timer started for the requested
    time; no other claim changes and nothing is pushed but the answer. *)
Theorem token_request_refines n timeout c s v s' :
  reachable gas s → known c s →
  token_request n timeout c s = (Ret v, s') →
  ∃ t, v = Obj [("token", Str t)] ∧ abs (tokens s) !! t = None ∧
    implements s s' (<[t := Claim c None true]> (abs (tokens s)), []) ∧
    registered t (fresh (host s)) s' ∧
    entry_at (fresh (host s)) s' = Some (new_entry t c timeout).
Proof.
  intros Hi%reachable_invariant Hk Hreq; [|done..].
  destruct (generateToken_spec n s) as (Hq & Hh & Hnew).
  destruct (generateToken n s) as [[t|e|] s1] eqn:Hg; simpl in *;
    [|by unfold token_request, bind in Hreq; rewrite Hg in Hreq..].
  destruct (token_request_ret n timeout c s t s1 Hg) as [msg Hr].
  rewrite Hr in Hreq. injection Hreq as <- <-. exists t.
  pose proof (inv_tokens _ Hi) as Hit. specialize (Hnew t eq_refl).
  assert (Hfr : fresh (host s1) = fresh (host s)) by (by rewrite Hh).
  split; [done|]. split; [by eapply abs_None|].
  assert (Hsame : tokens s1 = tokens s) by apply Hq.
  split; [split|split].
  - simpl. rewrite Hsame, abs_create by (rewrite ?Hfr; done).
    unfold abs_entry. simpl. by rewrite (proj1 (deadline_timer_spec timeout)).
  - rewrite sendLog_pushes. simpl. rewrite app_nil_r.
    assert (Hout : ∀ gas s, out (snd (generateToken gas s)) = out s).
    { clear. intros gas. induction gas as [|gas IH]; intros s; [done|]. cbn [generateToken].
      case_goal; [done|]. by rewrite IH. }
    pose proof (Hout n s) as Ho. rewrite Hg in Ho. simpl in Ho. by rewrite Ho.
  - unfold registered, registered_in. simpl. by rewrite Hfr, jm_get_set_eq.
  - unfold entry_at. simpl. by rewrite Hfr, lookup_insert_eq.
Qed.

(** The three refusals of [resolveTokenWindow]. *)
Definition refusal (reason t : string) : exn :=
  RpcError ("invalid params: " +:+ (if decide (reason = "unknown")
     then "unknown token " +:+ (quote +:+ t +:+ quote)
     else "token " +:+ (quote +:+ t +:+ quote) +:+ " " +:+ reason)) InvalidParams Undefined.

(** C23: a token gives access to a window exactly to the client that owns
    it, while it is bound; every other use is refused with -32602, saying
    why, and nothing changes. *)
Theorem resolveTokenWindow_access t c s :
  reachable gas s →
  resolveTokenWindow t c s =
  (match abs (tokens s) !! t with
   | None => Throw (refusal "unknown" t)
   | Some cl =>
     if decide (cl_owner cl ≠ c) then Throw (refusal "belongs to another client" t) else
     match cl_window cl with
     | Some w => Ret w
     | None => Throw (refusal "is not bound to a window" t)
     end
   end, s).
Proof.
  intros Hi%reachable_invariant; [|done..]. pose proof (inv_tokens _ Hi) as Hit.
  unfold resolveTokenWindow, entry_at. rewrite abs_lookup.
  destruct (jm_get t (byToken (tokens s))) as [e|] eqn:Hr; [|done].
  destruct (ti_token _ _ Hit _ _ Hr) as (en & He & Ht).
  cbn [mbind option_bind]. rewrite He. cbn [fmap option_fmap option_map abs_entry cl_owner cl_window].
  destruct (decide (te_conn en ≠ c)); [done|].
  destruct (te_state en) eqn:Hst; [by rewrite (ti_pending _ _ Hit _ _ He Hst)|].
  rewrite <- Ht in Hr. by destruct (ti_active _ _ Hit _ _ He Hr Hst) as (w & -> & _).
Qed.

Lemma dropped_listeners id s sg h :
  inv s →
  SlotWindowProp h ∈ slots (dropped id s) sg ↔
  SlotWindowProp h ∈ slots s sg ∧ conn_id (wh_conn h) ≠ id.
Proof.
  intros Hi. unfold dropped.
  assert (Hs : SlotWindowProp h ∈ slots (dropClientWatches (removed_tokens (client_entries id s))
      (upd_tokens (λ _, tk_remove_all (client_entries id s) (tokens s)) s)) sg ↔
    SlotWindowProp h ∈ slots s sg ∧ wh_token h ∉ removed_tokens (client_entries id s)).
  { rewrite <- (drop_slots _ s sg h (inv_watch _ Hi)), !dropClientWatches_elem. done. }
  rewrite Hs. split; intros [Hin Hn]; (split; [done|]).
  all: destruct (proj1 (wi_slot _ (inv_watch _ Hi) _ _) Hin) as (_ & st & Hst & Hh).
  all: destruct (wi_state _ (inv_watch _ Hi) _ _ Hst) as (e & en & Hr & He & _ & _ & Hall).
  all: destruct (Hall _ _ Hh) as (Hc & _).
  all: assert (Ht : te_token en = wh_token h) by (by eapply entry_unique).
  - intros Hid. apply Hn. unfold removed_tokens. apply list_elem_of_In, in_map_iff.
    exists (e, en). split; [done|]. apply list_elem_of_In, client_entries_spec.
    exists (wh_token h). split; [by apply jm_get_elem|]. split; [done|]. by rewrite <- Hc.
  - unfold removed_tokens.
    intros ([e' en'] & Ht' & Hin'%list_elem_of_In)%list_elem_of_In%in_map_iff. simpl in Ht'.
    destruct (proj1 (client_entries_spec id s e' en') Hin') as (t' & _ & He' & Hid).
    destruct (proj2 (client_entries_removable id s Hi) _ _ Hin') as [_ Hr'].
    rewrite Ht' in Hr'. assert (e' = e) as -> by (by eapply registered_inj).
    assert (en' = en) as -> by congruence. apply Hn. by rewrite Hc.
Qed.

Lemma dropped_ws_listeners id s sg h :
  inv s →
  SlotWorkspaceProp h ∈ slots (dropClientWorkspaceWatches id s) sg ↔
  SlotWorkspaceProp h ∈ slots s sg ∧ conn_id (sh_conn h) ≠ id.
Proof.
  intros Hi. rewrite ws_drop_elem. split; intros [Hin Hn]; (split; [done|]).
  - intros Hid. apply Hn.
    destruct (proj1 (si_slot _ (inv_wspace _ Hi) _ _) Hin) as (Hsg & hs & Hhs & Hh).
    exists hs, (sh_prop h), h. rewrite <- Hid. split; [done|]. split; [by apply jm_get_elem|done].
  - intros (hs & p & h' & Hhs & Hin' & _ & [= <-]). apply Hn.
    destruct (si_state _ (inv_wspace _ Hi) _ _ Hhs) as (_ & Hwf & Hall).
    apply jm_elem_get in Hin'; [|done]. by destruct (Hall _ _ Hin') as [? _].
Qed.

Lemma disconnected_alive id c s c' :
  inv s → jm_get id (connections (clients s)) = Some c →
  is_alive c' (disconnected id c s) = true ↔ is_alive c' s = true ∧ conn_id c' ≠ id.
Proof.
  intros Hi Hc. destruct (ci_conn _ _ (inv_clients _ Hi) _ _ Hc) as (Hid & _). split.
  - intros Ha. split.
    + unfold is_alive in *. simpl in Ha. rewrite lookup_insert in Ha. by case_decide.
    + intros Hid'. pose proof (disconnected_dead id c s Hi Hc c' Hid'). congruence.
  - intros [Ha Hne]. unfold is_alive in *. simpl. rewrite lookup_insert_ne; [done|]. congruence.
Qed.

(** C24: when a connected client disconnects, all its tokens leave the
    registry, every listener it had is disconnected from KWin, its
    connection is forgotten and flagged dead; the claims and listeners of
    the other clients stay, and nothing is pushed. *)
Theorem onClientDisconnected_cleans id s s' :
  reachable gas s → is_Some (jm_get id (connections (clients s))) →
  s' = onClientDisconnected id s →
  implements s s' (drop_owner id (abs (tokens s)), []) ∧
  (∀ sg h, SlotWindowProp h ∈ slots s' sg ↔
     SlotWindowProp h ∈ slots s sg ∧ conn_id (wh_conn h) ≠ id) ∧
  (∀ sg h, SlotWorkspaceProp h ∈ slots s' sg ↔
     SlotWorkspaceProp h ∈ slots s sg ∧ conn_id (sh_conn h) ≠ id) ∧
  connections (clients s') = jm_delete id (connections (clients s)) ∧
  ∀ c, is_alive c s' = true ↔ is_alive c s = true ∧ conn_id c ≠ id.
Proof.
  intros Hi%reachable_invariant [c Hc] ->; [|done..].
  unfold onClientDisconnected. rewrite Hc. cbv zeta.
  change (upd_clients (upd_connections (jm_delete id)) (stop c s)) with (disconnected id c s).
  set (s1 := disconnected id c s).
  assert (Hi1 : inv s1) by (by apply (disconnected_good id c s Hc)).
  destruct (dropped_frame id s1) as (_ & _ & Hcl & _ & _).
  pose proof (dropClientTokens_quiet id s1) as Hq.
  set (s2 := dropClientTokens id s1) in *.
  assert (Hi2 : inv s2).
  { apply (dropClientTokens_good id s1); [by apply disconnected_dead|done]. }
  destruct (ws_drop_frame id s2) as [_ _ Ht _ Hc3 Hp _].
  set (s3 := dropClientWorkspaceWatches id s2) in *.
  assert (Hcl3 : clients s3 = clients s1) by (rewrite Hc3, (qu_clients _ _ Hq); exact Hcl).
  assert (Hpush : pushes (out s2) = pushes (out s1)).
  { unfold s2. destruct (dropClientTokens_unfold id s1) as [->|(l & m & ->)];
      rewrite ?sendLog_pushes; exact (wf_pushes _ _ (dropClientWatches_frame _ _)). }
  assert (Hsl2 : ∀ sg, slots s2 sg = slots (dropped id s1) sg).
  { intros sg. unfold slots. by rewrite (qu_signals _ _ Hq). }
  split; [split|split; [|split; [|split]]].
  - change (tokens (client_log _ _ _ s3)) with (tokens s3).
    rewrite Ht, (qu_tokens _ _ Hq). by apply (dropped_abs id s1).
  - unfold client_log. rewrite sendLog_pushes. simpl. by rewrite app_nil_r, Hp, Hpush.
  - intros sg h. change (slots (client_log _ _ _ s3) sg) with (slots s3 sg).
    unfold s3. rewrite (ws_drop_same_slots id s2 sg (SlotWindowProp h) I), Hsl2.
    by rewrite dropped_listeners.
  - intros sg h. change (slots (client_log _ _ _ s3) sg) with (slots s3 sg).
    unfold s3. rewrite dropped_ws_listeners by done. rewrite Hsl2.
    by rewrite (drop_same_slots (removed_tokens (client_entries id s1))
      (upd_tokens (λ _, tk_remove_all (client_entries id s1) (tokens s1)) s1) sg
      (SlotWorkspaceProp h) I).
  - change (clients (client_log _ _ _ s3)) with (clients s3). by rewrite Hcl3.
  - intros c'. rewrite (is_alive_clients c' s1) by (change (clients s3 = clients s1); done).
    by apply disconnected_alive.
Qed.
End RequestProps.

(** * Witnesses *)

Lemma generateToken_format_witness :
  jm_has (random_token TOKEN_LENGTH 40) (byToken (tokens sc_requested)) = false ∧
  String.length (random_token TOKEN_LENGTH 40) = TOKEN_LENGTH ∧
  all_chars in_alphabet (random_token TOKEN_LENGTH 40).
Proof.
  apply (generateToken_format sc_gas _ sc_requested (snd (generateToken sc_gas sc_requested))).
  apply fst_pair. evaluate.
Defined.

Lemma generateToken_terminates_witness :
  ∃ k, (k < 4)%nat ∧
    fst (generateToken 4 sc_requested) = Ret (candidate (draws (host sc_requested)) k).
Proof.
  apply (generateToken_terminates 4 sc_requested).
  - apply Nat.ltb_lt. evaluate.
  - eapply bool_decide_eq_true_1. evaluate.
Defined.

Lemma token_request_refines_witness :
  ∃ t, Obj [("token", Str (random_token TOKEN_LENGTH 40))] = Obj [("token", Str t)] ∧
    abs (tokens sc_requested) !! t = None ∧
    implements sc_requested (snd (token_request sc_gas 1000 sc_conn1 sc_requested))
      (<[t := Claim sc_conn1 None true]> (abs (tokens sc_requested)), []) ∧
    registered t (fresh (host sc_requested)) (snd (token_request sc_gas 1000 sc_conn1 sc_requested)) ∧
    entry_at (fresh (host sc_requested)) (snd (token_request sc_gas 1000 sc_conn1 sc_requested)) =
      Some (new_entry t sc_conn1 1000).
Proof.
  apply (token_request_refines sc_gas sc_gas 1000 sc_conn1 sc_requested _ _ sc_requested_reachable).
  - unfold known, Pos.lt. evaluate.
  - apply fst_pair. evaluate.
Defined.

Lemma resolveTokenWindow_access_witness :
  resolveTokenWindow sc_token1 sc_conn2 sc_bound =
  (Throw (refusal "belongs to another client" sc_token1), sc_bound).
Proof.
  rewrite (resolveTokenWindow_access sc_gas sc_token1 sc_conn2 sc_bound sc_bound_reachable).
  assert (Hcl : abs (tokens sc_bound) !! sc_token1 = Some sc_claim1_bound) by evaluate.
  by rewrite Hcl.
Defined.

Lemma onClientDisconnected_cleans_witness :
  let s' := onClientDisconnected (NInt 3) sc_watching in
  implements sc_watching s' (drop_owner (NInt 3) (abs (tokens sc_watching)), []) ∧
  (∀ sg h, SlotWindowProp h ∈ slots s' sg ↔
     SlotWindowProp h ∈ slots sc_watching sg ∧ conn_id (wh_conn h) ≠ NInt 3) ∧
  (∀ sg h, SlotWorkspaceProp h ∈ slots s' sg ↔
     SlotWorkspaceProp h ∈ slots sc_watching sg ∧ conn_id (sh_conn h) ≠ NInt 3) ∧
  connections (clients s') = jm_delete (NInt 3) (connections (clients sc_watching)) ∧
  ∀ c, is_alive c s' = true ↔ is_alive c sc_watching = true ∧ conn_id c ≠ NInt 3.
Proof.
  apply (onClientDisconnected_cleans sc_gas (NInt 3) sc_watching _ sc_watching_reachable); [|done].
  exists sc_conn1. evaluate.
Defined.
