(* ===== verification/KwinProps.v ===== *)
(** * The supported properties and the KWin API

    The catalogs of windows.ts and workspace.ts against the declarations of
    kwin-ts/index.d.ts: what a client may update is writable and of a type
    that JSON carries, what it may watch has a signal, and which properties
    the catalogs leave out. *)
From S2P Require Export Workspace.

(** A writable property. *)
Definition writable (p : property) : bool := negb (property_readonly p).

(** A property whose values the clients can write as JSON: of a primitive
    type, or one of the two lists of objects that travel as lists of ids. *)
Definition by_value_or_id (p : property) : bool :=
  is_primitive (property_type p) || js_has (property_name p) ["desktops"; "activities"].

(** The names in [xs] and those in [ys], by evaluation. *)
Lemma same_names (xs ys : list string) :
  forallb (λ x, js_has x ys) xs && forallb (λ y, js_has y xs) ys = true →
  ∀ p, p ∈ xs ↔ p ∈ ys.
Proof.
  intros [Hxy Hyx]%andb_prop p. rewrite !forallb_forall in *. split; intros Hp.
  - by apply js_has_spec, Hxy, list_elem_of_In.
  - by apply js_has_spec, Hyx, list_elem_of_In.
Qed.

(** C25: the catalogs are exactly what index.d.ts allows: [windows.update]
    and [windows.query] take the writable window properties of a primitive
    type and the two lists of ids; [window.watch] takes those of them with a
    [<prop>Changed] signal, less [opacity], and [skipsCloseAnimation], which
    has none; [workspace.update] takes writable properties of the workspace,
    and what [workspace.watch] takes are declared, have a signal, and are not
    all the properties that do. *)
Theorem catalogs_match_api :
  (∀ p, p ∈ UPDATE_PROPS ↔
     p ∈ properties_that (λ q, writable q && by_value_or_id q) Window_properties) ∧
  (∀ p, p ∈ QUERY_PROPS ↔ p ∈ UPDATE_PROPS) ∧
  (∀ p, p ∈ WATCH_PROPS ↔
     p ∈ "skipsCloseAnimation" ::
       properties_that (λ q, writable q && by_value_or_id q && has_changed_signal Window_signals q
         && negb (bool_decide (property_name q = "opacity"))) Window_properties) ∧
  (∀ p, p ∈ WORKSPACE_UPDATE_PROPS →
     p ∈ properties_that writable WorkspaceWrapper_properties) ∧
  (∀ p, p ∈ WORKSPACE_WATCH_PROPS ↔ p ∈ WORKSPACE_QUERY_PROPS) ∧
  (∀ p, p ∈ properties_that (has_changed_signal WorkspaceWrapper_signals)
          WorkspaceWrapper_properties ↔
     p ∈ WORKSPACE_WATCH_PROPS ++ ["screens"; "screenOrder"; "virtualScreenSize";
       "virtualScreenGeometry"; "cursorPos"]).
Proof.
  split; [by apply same_names|]. split; [by apply same_names|]. split; [by apply same_names|].
  split; [|split; by apply same_names].
  intros p Hp. unfold WORKSPACE_UPDATE_PROPS in Hp. rewrite !elem_of_cons, elem_of_nil in Hp.
  apply js_has_spec. by repeat destruct Hp as [->|Hp].
Qed.
