(* ===== verification/WindowProps.v ===== *)
(** * Properties of the window methods

    The catalogs, [windows.update] and [windows.query], and what
    [window.watch] leaves registered.  Delivery of the notifications is in
    WatchProps.v. *)
From S2P Require Export RequestProps.

Section Catalogs.
Context {E : Env}.
Implicit Types (s : state) (id : string).

(** The desktop the catalog has for [id]: the last KWin lists with it. *)
Definition listed_desktop (id : string) (ds : list desktop) : option desktop :=
  last (filter (λ d, desktop_id d = id) ds).

Lemma desktops_fold_get id ds m :
  jm_get id (foldl (λ m d, jm_set (desktop_id d) d m) m ds) =
  match listed_desktop id ds with Some d => Some d | None => jm_get id m end.
Proof.
  unfold listed_desktop. revert m. induction ds as [|d ds IH]; intros m; [done|]. simpl.
  rewrite IH, filter_cons, jm_get_set. destruct (decide (desktop_id d = id)); [|done].
  rewrite last_cons. by destruct (last (filter _ ds)).
Qed.

Lemma rescan_catalog id s :
  lookupDesktop id (rescanDesktops s) = listed_desktop id (workspace_desktops (world (host s))) ∧
  (hasActivity id (rescanActivities s) = true ↔ id ∈ workspace_activities (world (host s))).
Proof.
  split.
  - unfold lookupDesktop. simpl. rewrite desktops_fold_get. by destruct (listed_desktop id _).
  - unfold hasActivity. simpl. by rewrite js_has_spec, js_of_list_elem.
Qed.

(** after a rescan the catalogs are KWin's lists: an id is known exactly
    when KWin lists it, and names the desktop listed with it. *)
Theorem rescan_catalogs id s :
  lookupDesktop id (rescanDesktops s) = listed_desktop id (workspace_desktops (world (host s))) ∧
  (is_Some (lookupDesktop id (rescanDesktops s)) ↔
     id ∈ map desktop_id (workspace_desktops (world (host s)))) ∧
  (hasActivity id (rescanActivities s) = true ↔ id ∈ workspace_activities (world (host s))) ∧
  ∀ id', (hasActivity id (onActivityAdded id' s) = true ↔ id = id' ∨ hasActivity id s = true) ∧
         (hasActivity id (onActivityRemoved id' s) = true ↔ id ≠ id' ∧ hasActivity id s = true).
Proof.
  destruct (rescan_catalog id s) as [Hl Hact]. split; [done|]. split; [|split; [done|]].
  - rewrite Hl. unfold listed_desktop. rewrite list_elem_of_In, in_map_iff. split.
    + intros [d Hd]. apply last_Some_elem_of in Hd.
      apply list_elem_of_filter in Hd as [Hid Hin]. exists d. by rewrite <- list_elem_of_In.
    + intros (d & Hid & Hin%list_elem_of_In). apply not_eq_None_Some.
      rewrite last_None. intros Hf.
      assert (Habs : d ∈ filter (λ d, desktop_id d = id)
        (workspace_desktops (world (host s)))) by (by apply list_elem_of_filter).
      rewrite Hf in Habs. by apply elem_of_nil in Habs.
  - intros id'. unfold hasActivity. simpl.
    by rewrite !js_has_spec, js_add_elem, js_remove_elem.
Qed.
End Catalogs.

Section Methods.
Context {E : Env} {J : JsonRpcApi E} `{!QTimerLaws E, !SignalLaws E, !WindowIdLaws E}.
Context `{!JsonRpcLaws E J} (gas : nat).
Implicit Types (s : state) (c : conn) (w : window) (t : string) (p : string).

(** ** Validation, as doc/RPC.md describes it *)

(** An array of ids that the catalog of the property lists. *)
Definition ids_listed (p : string) (v : value) (s : state) : bool :=
  match v with
  | Arr l => forallb (λ x, match x with
      | Str id =>
        if decide (p = "desktops") then bool_decide (is_Some (lookupDesktop id s))
        else hasActivity id s
      | _ => false
      end) l
  | _ => false
  end.

Definition valid_update (s : state) (pv : string * value) : bool :=
  let '(p, v) := pv in
  bool_decide (p ∈ UPDATE_PROPS) &&
  (if decide (p = "desktops" ∨ p = "activities") then ids_listed p v s else true).

(** A check that passes exactly when [ok] and otherwise throws -32602. *)
Definition checks {A} (m : M A) (ok : state → bool) : Prop :=
  ∀ s, if ok s then ∃ a, m s = (Ret a, s)
       else ∃ msg, m s = (Throw (RpcError msg InvalidParams Undefined), s).

Lemma mfor_checks {A} (f : A → M unit) (ok : state → A → bool) xs :
  (∀ x, checks (f x) (λ s, ok s x)) → checks (mfor xs f) (λ s, forallb (ok s) xs).
Proof.
  intros Hf. induction xs as [|x xs IH]; intros s; simpl; [by exists tt|].
  unfold bind. pose proof (Hf x s) as Hx. simpl in Hx.
  destruct (ok s x); simpl; [|by destruct Hx as [msg ->]; exists msg].
  destruct Hx as [a ->]. apply IH.
Qed.

Lemma checks_bind {A B} (m : M A) (f : A → M B) ok :
  checks m ok → (∀ a s, ∃ b, f a s = (Ret b, s)) → checks (bind m f) ok.
Proof.
  intros Hm Hf s. unfold bind. pose proof (Hm s) as Hs. destruct (ok s).
  - destruct Hs as [a ->]. apply Hf.
  - by destruct Hs as [msg ->]; exists msg.
Qed.

Lemma validate_one_id_checks p id :
  p = "desktops" ∨ p = "activities" →
  checks (validate_one_id p id) (λ s,
    if decide (p = "desktops") then bool_decide (is_Some (lookupDesktop id s))
    else hasActivity id s).
Proof.
  intros Hp s. unfold validate_one_id, lookupDesktop, hasActivity, jm_has.
  destruct Hp as [->| ->]; simpl.
  - by destruct (jm_get id (desktopsById (windows s))); simpl; eexists.
  - by destruct (js_has id (activitiesById (windows s))); simpl; eexists.
Qed.

Lemma ids_listed_strings p l s :
  ids_listed p (Arr l) s = forallb is_string l &&
    forallb (λ id, if decide (p = "desktops") then bool_decide (is_Some (lookupDesktop id s))
                   else hasActivity id s) (as_strings (Arr l)).
Proof.
  simpl. induction l as [|x l IH]; [done|]. simpl. rewrite IH.
  destruct x; simpl; try done. case_decide; simpl.
  - by destruct (bool_decide _), (forallb is_string l).
  - by destruct (hasActivity s0 s), (forallb is_string l).
Qed.

Lemma validateIdList_checks p v :
  p = "desktops" ∨ p = "activities" → checks (validateIdList p v) (λ s, ids_listed p v s).
Proof.
  intros Hp s. unfold validateIdList. destruct v as [| | | | |l|]; try (simpl; by eexists).
  rewrite ids_listed_strings. destruct (forallb is_string l); simpl; [|by eexists].
  pose proof (mfor_checks (validate_one_id p) _ (as_strings (Arr l))
    (λ id, validate_one_id_checks p id Hp)) as Hm.
  exact (checks_bind _ _ _ Hm (λ _ s, ex_intro _ _ eq_refl) s).
Qed.

Lemma validate_update_checks pv : checks (validate_update pv) (λ s, valid_update s pv).
Proof.
  intros s. destruct pv as [p v]. unfold validate_update, valid_update, js_has.
  destruct (bool_decide (p ∈ UPDATE_PROPS)); simpl; [|by eexists].
  case_decide as Hp.
  - assert (Hb : bool_decide (p = "desktops") || bool_decide (p = "activities") = true).
    { apply orb_true_iff. rewrite !bool_decide_eq_true. done. }
    rewrite Hb. refine (checks_bind _ _ _ (validateIdList_checks p v Hp) _ s). by eexists.
  - rewrite !bool_decide_eq_false_2 by tauto. by exists tt.
Qed.

Definition ws_valid_update (s : state) (pv : string * value) : bool :=
  let '(p, v) := pv in
  bool_decide (p ∈ WORKSPACE_UPDATE_PROPS) &&
  match v with
  | Str id =>
    if decide (p = "currentDesktop") then bool_decide (is_Some (lookupDesktop id s))
    else hasActivity id s
  | _ => false
  end.

Lemma ws_validate_update_checks pv : checks (ws_validate_update pv) (λ s, ws_valid_update s pv).
Proof.
  intros s. destruct pv as [p v]. unfold ws_validate_update, ws_valid_update, js_has.
  destruct (decide (p ∈ WORKSPACE_UPDATE_PROPS)) as [Hp|Hp];
    [rewrite bool_decide_eq_true_2 by done|rewrite bool_decide_eq_false_2 by done; by eexists].
  simpl. unfold bind, validateId, lookupDesktop.
  destruct v as [| | | |id| |]; try (by eexists).
  apply elem_of_cons in Hp as [->|Hp]; [|apply list_elem_of_singleton in Hp as ->]; simpl.
  - destruct (bool_decide _); by eexists.
  - destruct (hasActivity id s); by eexists.
Qed.

(** ** Only the checks throw json-rpc errors *)

Definition no_rpc_error {A} (m : M A) : Prop :=
  ∀ s msg code data s', m s ≠ (Throw (RpcError msg code data), s').

Lemma mfor_no_rpc_error {A} (f : A → M unit) xs :
  (∀ x, no_rpc_error (f x)) → no_rpc_error (mfor xs f).
Proof.
  intros Hf. induction xs as [|x xs IH]; intros s msg code data s'; simpl; [done|].
  unfold bind. pose proof (Hf x s) as Hx. destruct (f x s) as [[[]|e|] s1]; [apply IH| |done].
  intros [= -> ->]. by eapply Hx.
Qed.

Lemma assign_no_rpc_error a : no_rpc_error (assign_property a).
Proof.
  intros s msg code data s'. unfold assign_property. by destruct (assign _ a) as [[]|].
Qed.

Lemma applyUpdate_no_rpc_error w p v : no_rpc_error (applyUpdate w p v).
Proof.
  intros s msg code data s'. unfold applyUpdate.
  repeat case_decide; apply assign_no_rpc_error.
Qed.

Lemma ws_applyUpdate_no_rpc_error p v : no_rpc_error (ws_applyUpdate p v).
Proof.
  intros s msg code data s'. unfold ws_applyUpdate. case_decide; apply assign_no_rpc_error.
Qed.

Lemma resolve_error t c s msg code data s' :
  resolveTokenWindow t c s = (Throw (RpcError msg code data), s') → code = InvalidParams.
Proof.
  unfold resolveTokenWindow. destruct (_ ≫= _) as [en|]; [|by intros [= _ <- _ _]].
  destruct (decide _); [by intros [= _ <- _ _]|].
  destruct (te_state en), (te_window en); (done || by intros [= _ <- _ _]).
Qed.

Lemma checks_error {A} (m : M A) ok s msg code data s' :
  checks m ok → m s = (Throw (RpcError msg code data), s') → code = InvalidParams ∧ s' = s.
Proof.
  intros Hm Hr. specialize (Hm s). destruct (ok s).
  - destruct Hm as [a Ha]. congruence.
  - destruct Hm as [m' Ha]. rewrite Hr in Ha. by injection Ha as _ -> _ ->.
Qed.

Lemma abs_claimed s t cl w :
  inv s → abs (tokens s) !! t = Some cl → cl_window cl = Some w → claimed s t (cl_owner cl) w.
Proof.
  intros Hi (e & en & Hr & He & _ & ->)%(abs_Some (fresh (host s))) Hw; [|apply Hi].
  by exists e, en.
Qed.

Lemma resolve_claim t c w o s :
  inv s → abs (tokens s) !! t = Some (Claim c (Some w) o) →
  resolveTokenWindow t c s = (Ret w, s).
Proof.
  intros Hi Hcl. pose proof (resolveTokenWindow_pure t c s) as Hp.
  pose proof (proj2 (resolveTokenWindow_ret t c w s Hi) (abs_claimed _ _ _ w Hi Hcl eq_refl)) as Hw.
  destruct (resolveTokenWindow t c s) as [r s']. simpl in *. by subst.
Qed.

(** The part of an update after its checks. *)
Lemma apply_then_log_error {A} (f : A → M unit) xs (g : state → state) s msg code data s' :
  (∀ x, no_rpc_error (f x)) →
  (mfor xs f;; modify g;; ret Null)%script s ≠ (Throw (RpcError msg code data), s').
Proof.
  intros Hf. unfold bind. pose proof (mfor_no_rpc_error f xs Hf s) as Hm.
  destruct (mfor xs f s) as [[[]|e|] s1]; simpl; [done| |done].
  intros [= -> ->]. by eapply Hm.
Qed.

(** C26: [windows.update] checks every entry before it assigns any: when all
    are supported and, for [desktops] and [activities], arrays of listed ids,
    it assigns them in order and answers [null]; otherwise it is refused
    with -32602 and nothing changes. *)
Theorem windows_update_checks t info c w o s :
  reachable gas s → abs (tokens s) !! t = Some (Claim c (Some w) o) →
  if forallb (valid_update s) info then
    windows_update (t, info) c s =
    (mfor info (λ pv, applyUpdate w (fst pv) (snd pv));;
     modify (λ s, if (0 <? length info)%nat then
       sendLog "info" ("windows.update from client " +:+ number_to_string (conn_id c)
         +:+ ": token=" +:+ t +:+ " props=" +:+ join "," (map fst info)) s else s);;
     ret Null)%script s
  else ∃ msg, windows_update (t, info) c s = (Throw (RpcError msg InvalidParams Undefined), s).
Proof.
  intros Hi%reachable_invariant Hcl; [|done..].
  pose proof (resolve_claim t c w o s Hi Hcl) as Hres.
  pose proof (mfor_checks validate_update valid_update info validate_update_checks s) as Hm.
  simpl in Hm. destruct (forallb (valid_update s) info); unfold windows_update, bind at 1;
    rewrite Hres; unfold bind at 1.
  - destruct Hm as [[] Hm]. by rewrite Hm, length_map.
  - destruct Hm as [msg Hm]. rewrite Hm. by exists msg.
Qed.

(** the same of [workspace.update], whose values are one listed id. *)
Theorem workspace_update_checks info c s :
  if forallb (ws_valid_update s) info then
    workspace_update info c s =
    (mfor info (λ pv, ws_applyUpdate (fst pv) (snd pv));;
     modify (λ s, if (0 <? length info)%nat then
       sendLog "info" ("workspace.update from client " +:+ number_to_string (conn_id c)
         +:+ ": props=" +:+ join "," (map fst info)) s else s);;
     ret Null)%script s
  else ∃ msg, workspace_update info c s = (Throw (RpcError msg InvalidParams Undefined), s).
Proof.
  unfold workspace_update.
  pose proof (mfor_checks ws_validate_update ws_valid_update info ws_validate_update_checks s) as Hm.
  simpl in Hm. destruct (forallb (ws_valid_update s) info); unfold bind at 1.
  - destruct Hm as [[] Hm]. by rewrite Hm, length_map.
  - destruct Hm as [msg Hm]. rewrite Hm. by exists msg.
Qed.

(** C27: an update that is answered with a JSON-RPC error has changed
    nothing, and the code of the error is -32602: once the first assignment
    is made only an exception of KWin's can end the update. *)
Theorem refused_update_changes_nothing c s msg code data s' :
  (∃ params, windows_update params c s = (Throw (RpcError msg code data), s')) ∨
  (∃ params, workspace_update params c s = (Throw (RpcError msg code data), s')) →
  code = InvalidParams ∧ s' = s.
Proof.
  intros [[[t info] Hr]|[info Hr]].
  - unfold windows_update, bind at 1 in Hr. pose proof (resolveTokenWindow_pure t c s) as Hp.
    destruct (resolveTokenWindow t c s) as [[w|e|] s1] eqn:Hres; simpl in Hp; subst s1; [..|done].
    + unfold bind at 1 in Hr.
      pose proof (mfor_checks _ valid_update info validate_update_checks) as Hm.
      destruct (mfor info validate_update s) as [[[]|e|] s1] eqn:Hv; [..|done].
      * exfalso. revert Hr. apply apply_then_log_error. intros. apply applyUpdate_no_rpc_error.
      * injection Hr as -> ->. by eapply checks_error.
    + injection Hr as -> ->. split; [by eapply resolve_error|done].
  - unfold workspace_update, bind at 1 in Hr.
    pose proof (mfor_checks _ ws_valid_update info ws_validate_update_checks) as Hm.
    destruct (mfor info ws_validate_update s) as [[[]|e|] s1] eqn:Hv; [..|done].
    + exfalso. revert Hr. apply apply_then_log_error. intros. apply ws_applyUpdate_no_rpc_error.
    + injection Hr as -> ->. by eapply checks_error.
Qed.

Lemma listed_desktops s (l : list value) :
  catalogs_ok (windows s) → ids_listed "desktops" (Arr l) s = true →
  ∃ ds, map (λ id, jm_get id (desktopsById (windows s))) (as_strings (Arr l)) = map Some ds ∧
    map (λ d, Str (desktop_id d)) ds = l.
Proof.
  intros (_ & Hid & _). unfold ids_listed. induction l as [|x l IH]; [by exists []|].
  simpl. intros [Hx Hl]%andb_true_iff. destruct (IH Hl) as (ds & Hds & Hl').
  destruct x as [| | | |id| |]; try done. apply bool_decide_eq_true in Hx as [d Hd].
  exists (d :: ds). unfold lookupDesktop in Hd. simpl. rewrite Hd, (Hid _ _ Hd).
  split; f_equal; done.
Qed.

(** a checked [desktops] value is assigned as the very desktops whose
    ids it lists, in order, and none is undefined. *)
Theorem desktops_update_resolves w v s :
  reachable gas s → valid_update s ("desktops", v) = true →
  ∃ ds, v = Arr (map (λ d, Str (desktop_id d)) ds) ∧
    applyUpdate w "desktops" v s = assign_property (AsgnDesktops w (map Some ds)) s.
Proof.
  intros Hi%reachable_invariant Hv; [|done..]. unfold valid_update in Hv. simpl in Hv.
  destruct v as [| | | | |l|]; try done.
  destruct (listed_desktops s l (bi_catalogs _ (inv_base _ Hi)) Hv) as (ds & Hds & <-).
  exists ds. split; [done|]. unfold applyUpdate. simpl decide. cbv iota. by rewrite <- Hds.
Qed.

(** ** [windows.query] *)

Definition query_answer (read : string → state → value) (names : list string) (s : state) : value :=
  Obj (map (λ p, (p, read p s)) (js_of_list names)).

Lemma jm_set_new {V} p (v : V) (m : jsmap string V) : p ∉ map fst m → jm_set p v m = m ++ [(p, v)].
Proof.
  induction m as [|[p0 v0] m IH]; [done|]. simpl. rewrite not_elem_of_cons. intros [Hne Hn].
  rewrite decide_False by congruence. by rewrite IH.
Qed.

Lemma query_loop_answer supported name read names seen s :
  Forall (λ p, p ∈ supported) names →
  query_loop supported name read names seen (map (λ p, (p, read p s)) seen) s =
  (Ret (Obj (map (λ p, (p, read p s)) (foldl (λ l x, js_add x l) seen names))), s).
Proof.
  revert seen. induction names as [|p names IH]; intros seen; [done|].
  intros [Hp Hall]%Forall_cons. simpl.
  rewrite (proj2 (js_has_spec p supported) Hp). simpl.
  destruct (js_has p seen) eqn:Hs.
  - assert (Hadd : js_add p seen = seen) by (unfold js_add; by rewrite Hs).
    by rewrite IH, Hadd.
  - assert (Hn : p ∉ seen) by (intros Hin; by apply js_has_spec in Hin; congruence).
    rewrite jm_set_new by (by rewrite map_map, map_id).
    assert (Hadd : js_add p seen = seen ++ [p]) by (unfold js_add; by rewrite Hs).
    rewrite Hadd, <- IH by done. by rewrite map_app.
Qed.

Lemma query_loop_refuses supported name read names seen r s :
  ¬ Forall (λ p, p ∈ supported) names →
  ∃ msg, query_loop supported name read names seen r s =
    (Throw (RpcError msg InvalidParams Undefined), s).
Proof.
  revert seen r. induction names as [|p names IH]; intros seen r Hn; [by destruct Hn|].
  simpl. destruct (js_has p supported) eqn:Hp; simpl; [|by eexists].
  apply js_has_spec in Hp.
  assert (Hn' : ¬ Forall (λ p, p ∈ supported) names) by (intros ?; apply Hn; by constructor).
  destruct (js_has p seen); by apply IH.
Qed.

(** [windows.query] on a token of the caller answers each supported name
    once, in the order first asked, with the property's value, and refuses a
    list with an unsupported name; either way nothing changes. *)
Theorem windows_query_answers t names c w o s :
  reachable gas s → abs (tokens s) !! t = Some (Claim c (Some w) o) →
  if forallb (λ p, js_has p QUERY_PROPS) names
  then windows_query (t, names) c s = (Ret (query_answer (propValue w) names s), s)
  else ∃ msg, windows_query (t, names) c s = (Throw (RpcError msg InvalidParams Undefined), s).
Proof.
  intros Hi%reachable_invariant Hcl; [|done..].
  pose proof (resolve_claim t c w o s Hi Hcl) as Hres.
  unfold windows_query, bind. rewrite Hres.
  destruct (forallb _ names) eqn:Hall.
  - apply (query_loop_answer QUERY_PROPS _ (propValue w) names []).
    apply Forall_forall. intros p Hp. apply js_has_spec.
    rewrite forallb_forall in Hall. by apply Hall, list_elem_of_In.
  - apply query_loop_refuses. intros HF. apply not_true_iff_false in Hall. apply Hall.
    apply forallb_forall. intros p Hp. apply js_has_spec.
    rewrite Forall_forall in HF. by apply HF, list_elem_of_In.
Qed.
End Methods.

(** * Witnesses *)

Lemma sc_bound_claim : abs (tokens sc_bound) !! sc_token1 = Some (Claim sc_conn1 (Some sc_win) true).
Proof. evaluate. Qed.

(** An update that does three assignments. *)
Definition sc_update : list (string * value) :=
  [("minimized", Bool true); ("desktops", Arr [Str "desk-2"; Str "desk-1"]);
   ("activities", Arr [Str "play"])].

Lemma windows_update_checks_witness :
  windows_update (sc_token1, sc_update) sc_conn1 sc_bound =
  (mfor sc_update (λ pv, applyUpdate sc_win (fst pv) (snd pv));;
   modify (sendLog "info" ("windows.update from client " +:+ number_to_string (conn_id sc_conn1)
     +:+ ": token=" +:+ sc_token1 +:+ " props=" +:+ join "," (map fst sc_update)));;
   ret Null)%script sc_bound.
Proof.
  pose proof (windows_update_checks sc_gas sc_token1 sc_update sc_conn1 sc_win true sc_bound
    sc_bound_reachable sc_bound_claim) as Hu.
  assert (Hv : forallb (valid_update sc_bound) sc_update = true) by evaluate.
  rewrite Hv in Hu. exact Hu.
Defined.

Lemma refused_update_changes_nothing_witness :
  InvalidParams = InvalidParams ∧ sc_bound = sc_bound.
Proof.
  apply (refused_update_changes_nothing sc_conn1 sc_bound
    ("invalid params: unsupported property " +:+ quote +:+ "caption" +:+ quote
       +:+ " in windows.update") InvalidParams Undefined).
  left. exists (sc_token1, [("minimized", Bool true); ("caption", Str "x")]). evaluate.
Defined.

Lemma desktops_update_resolves_witness :
  ∃ ds, Arr [Str "desk-2"; Str "desk-1"] = Arr (map (λ d, Str (desktop_id d)) ds) ∧
    applyUpdate sc_win "desktops" (Arr [Str "desk-2"; Str "desk-1"]) sc_bound =
    assign_property (AsgnDesktops sc_win (map Some ds)) sc_bound.
Proof. apply (desktops_update_resolves sc_gas sc_win _ sc_bound sc_bound_reachable). evaluate. Defined.

Lemma windows_query_answers_witness :
  windows_query (sc_token1, ["minimized"; "desktops"; "minimized"]) sc_conn1 sc_bound =
  (Ret (Obj [("minimized", Bool false); ("desktops", Arr [Str "desk-1"])]), sc_bound).
Proof.
  pose proof (windows_query_answers sc_gas sc_token1 ["minimized"; "desktops"; "minimized"] sc_conn1
    sc_win true sc_bound sc_bound_reachable sc_bound_claim) as Hq.
  assert (Hv : forallb (λ p, js_has p QUERY_PROPS) ["minimized"; "desktops"; "minimized"] = true)
    by evaluate.
  rewrite Hv in Hq. rewrite Hq. reflexivity.
Defined.
