(* ===== verification/LoadProps.v ===== *)
(** * The script comes up

    What the script has done and connected once it is loaded, also when KWin
    throws in the middle. *)
From S2P Require Export WindowProps.

Section LoadProps.
Context {E : Env} `{!SignalLaws E}.

(** C32: The script comes up whatever KWin throws while it loads.  Each of the two
    modules that touch KWin logs how its block ended (by the text of the first
    exception, if there was one), the control loop is started and polls the
    daemon, nothing is claimed, watched or pushed, and the ids of the catalogs
    name what KWin lists with them.  The slots that are connected are those
    whose turn came before an exception in their module; when KWin does not
    throw, the catalogs are KWin's lists, and the slots those of the workspace
    and a caption slot for every window. *)
Theorem load_survives_exceptions W sg :
  (∀ x, sig_slots sg x = []) →
  let s := load_script (init_state W sg) in
  out s = load_output W (windows (init_state W sg)) ∧
  control (clients s) = CPoll ∧ connections (clients s) = [] ∧ abs (tokens s) = ∅ ∧
  watchesByToken (windows s) = [] ∧ catalogs_ok (windows s) ∧
  (∀ sg' x, x ∈ slots s sg' ↔ (sg', x) ∈ load_connections W) ∧
  (kwin_loads → ∀ (id : string) w,
    lookupDesktop id s = listed_desktop id (workspace_desktops W) ∧
    (hasActivity id s = true ↔ id ∈ workspace_activities W) ∧
    (∀ sg' x, (sg', x) ∈ own_slots → x ∈ slots s sg') ∧
    (SlotCaption w ∈ slots s (SigWindow w "captionNormalChanged") ↔ w ∈ workspace_windowList W)).
Proof.
  intros Hsg. cbv zeta.
  pose proof (load_script_loaded (init_state W sg)) as [_ _ Ht Hw Hcat _ Hc Ho Hsl].
  set (s := load_script (init_state W sg)) in *. clearbody s.
  assert (∀ sg' x, x ∈ slots s sg' ↔ (sg', x) ∈ load_connections W) as Hslots.
  { intros sg' x. etrans; [exact (Hsl _ sg' x)|].
    change (slots (init_state W sg) sg') with (sig_slots sg sg'). rewrite Hsg, elem_of_nil.
    change (world (host (init_state W sg))) with W. tauto. }
  split; [exact Ho|]. rewrite Hc, Ht. split; [done|]. split; [done|].
  split; [apply map_empty; intros t; by rewrite abs_lookup|]. split; [exact Hw|].
  split; [rewrite Hcat; apply loaded_catalogs_ok; by split; [apply jm_wf_empty|split; [|apply NoDup_nil_2]]|].
  split; [done|].
  intros Hk id w. pose proof (loaded_catalogs_rescans W (windows (init_state W sg)) Hk) as Hre.
  change (world (host (init_state W sg))) with W in Hcat. rewrite Hre in Hcat.
  split; [|split; [|split]].
  - unfold lookupDesktop. rewrite Hcat. exact (proj1 (rescan_catalog id (init_state W sg))).
  - unfold hasActivity. rewrite Hcat. exact (proj2 (rescan_catalog id (init_state W sg))).
  - intros sg' x Hx. apply Hslots. by apply load_connections_own.
  - rewrite Hslots. unfold load_connections. rewrite !passed_all, elem_of_app, !connections_of_elem by done.
    rewrite workspace_connections, window_connections, !elem_of_cons, !elem_of_nil. naive_solver.
Qed.
End LoadProps.

(** ** KWin refuses a signal *)

Definition sc_load_error (a : load_access) : option string :=
  match a with
  | ConnectSignal (SigWorkspace "activityAdded") => Some "TypeError: not a signal"
  | _ => None
  end.

Definition sc_faulty_env : Env := ref_env_with sc_load_error.

(** The slots that are connected: not [activityAdded], nor what comes after it in
    windows.ts; but those of tokens.ts. *)
Example sc_faulty_connections :
  @load_connections sc_faulty_env (sc_world "terminal") =
  [(SigWorkspace "desktopsChanged", SlotDesktopsChanged);
   (SigWorkspace "windowAdded", SlotWindowAdded);
   (SigWorkspace "windowRemoved", SlotWindowRemoved);
   (SigWindow sc_win "captionNormalChanged", SlotCaption sc_win);
   (SigWindow sc_other "captionNormalChanged", SlotCaption sc_other)].
Proof. vm_compute. reflexivity. Qed.

Lemma load_survives_exceptions_witness :
  let s := @load_script sc_faulty_env (@init_state sc_faulty_env (sc_world "terminal") []) in
  head (@out sc_faulty_env s) = Some (ECall (log_call "error"
    "windows: cannot wire workspace events: TypeError: not a signal")) ∧
  control (clients s) = CPoll.
Proof.
  destruct (@load_survives_exceptions sc_faulty_env (ref_env_signal sc_load_error)
    (sc_world "terminal") [] (λ _, eq_refl)) as (Ho & Hc & _).
  split; [|exact Hc]. rewrite Ho. vm_compute. reflexivity.
Defined.
