(* ===== verification/WatchProps.v ===== *)
(** * Properties of the listeners

    What the watch methods leave registered, and what a client receives when
    a watched property changes: one notification per change, carrying the new
    value, for exactly the properties it watches. *)
From S2P Require Export WindowProps.

Section Watches.
Context {E : Env} `{!QTimerLaws E, !SignalLaws E}.
Implicit Types (s : state) (c : conn) (w : window) (t p : string).

(** The token [t] is registered to watch [p]. *)
Definition watched (s : state) (t p : string) : Prop :=
  ∃ st h, jm_get t (watchesByToken (windows s)) = Some st ∧ jm_get p (ws_handlers st) = Some h.

Definition watched_after (b : bool) (s s' : state) t p : Prop :=
  ∀ t' p', watched s' t' p' ↔ if decide (t = t' ∧ p = p') then b = true else watched s t' p'.

Lemma watched_noop b s t p : (watched s t p ↔ b = true) → watched_after b s s t p.
Proof. intros Hb t' p'. by destruct (decide _) as [[<- <-]|]. Qed.

Lemma watched_on t c w p s sg :
  unwatched t p s → propSignal w p = Some sg →
  watched_after true s (snd (setWatch t c w p true s)) t p.
Proof.
  intros Hn Hsg t' p'. destruct (setWatch_on t c w p s sg Hn Hsg) as (_ & _ & Hget & _).
  unfold watched. rewrite Hget. destruct (decide (t = t' ∧ p = p')) as [[<- <-]|Hne].
  - rewrite decide_True by done. split; [done|]. intros _. eexists _, _. split; [done|].
    apply jm_get_set_eq.
  - case_decide as Ht; [subst t'|done].
    assert (Hp : p ≠ p') by (intros ->; by apply Hne).
    transitivity (is_Some (jm_get p' (ws_handlers (old_watches t w s)))).
    + split; [intros (st & h & [= <-] & Hh)|intros [h Hh]; eexists _, h; split; [done|]];
        simpl in *; by rewrite jm_get_set_ne in *.
    + unfold is_Some. setoid_rewrite old_get. naive_solver.
Qed.

Lemma watched_fail t c w p s t' p' :
  unwatched t p s → propSignal w p = None →
  watched (snd (setWatch t c w p true s)) t' p' ↔ watched s t' p'.
Proof.
  intros Hn Hsg. destruct (setWatch_fail t c w p s Hn Hsg) as (_ & _ & Hget & _).
  unfold watched. rewrite Hget. case_decide as Ht; [subst t'|done].
  transitivity (is_Some (jm_get p' (ws_handlers (old_watches t w s)))).
  { split; [intros (st & h & [= <-] & Hh); by exists h|intros [h Hh]; by eexists _, h]. }
  unfold is_Some. setoid_rewrite old_get. naive_solver.
Qed.

Lemma not_watched t p s : ¬ watched s t p → unwatched t p s.
Proof.
  unfold watched, unwatched. destruct (jm_get t _) as [st|] eqn:Ht; [|by left].
  intros Hn. right. exists st. split; [done|].
  destruct (jm_get p (ws_handlers st)) as [h|] eqn:Hp; [|done]. destruct Hn. by exists st, h.
Qed.

Lemma watched_off t c w p s st h :
  jm_get t (watchesByToken (windows s)) = Some st → jm_get p (ws_handlers st) = Some h →
  watched_after false s (snd (setWatch t c w p false s)) t p.
Proof.
  intros Hst Hh t' p'. destruct (setWatch_off t c w p s st h Hst Hh) as (_ & _ & Hget & _).
  unfold watched. rewrite Hget. destruct (decide (t = t' ∧ p = p')) as [[<- <-]|Hne].
  - rewrite decide_True by done. split; [|done]. intros (st' & h' & Hst' & Hh').
    destruct (decide _); [done|]. injection Hst' as <-. simpl in Hh'.
    by rewrite jm_get_delete_eq in Hh'.
  - destruct (decide (t = t')) as [<-|]; [|done].
    assert (Hp : p ≠ p') by (intros ->; by apply Hne). split.
    + intros (st' & h' & Hst' & Hh'). destruct (decide _); [done|]. injection Hst' as <-.
      simpl in Hh'. rewrite jm_get_delete_ne in Hh' by done. eauto.
    + intros (st' & h' & Hst' & Hh'). assert (st' = st) as -> by congruence.
      assert (Hd : jm_get p' (jm_delete p (ws_handlers st)) = Some h')
        by (by rewrite jm_get_delete_ne).
      destruct (decide _) as [Hsz|_]; [|by eauto]. apply jm_size_0 in Hsz. by rewrite Hsz in Hd.
Qed.

Lemma setWatch_watched t c w p b s :
  (b = true → is_Some (propSignal w p)) →
  fst (setWatch t c w p b s) = Ret b ∧ watched_after b s (snd (setWatch t c w p b s)) t p.
Proof.
  intros Hsg. destruct (jm_get t (watchesByToken (windows s)) ≫= λ st, jm_get p (ws_handlers st))
    as [h|] eqn:Hw.
  - apply bind_Some in Hw as (st & Hst & Hh). destruct b.
    + rewrite (setWatch_on_again _ _ _ _ _ _ _ Hst Hh). split; [done|]. apply watched_noop.
      split; [done|]. intros _. by exists st, h.
    + split; [by eapply setWatch_off|by eapply watched_off].
  - assert (Hn : ¬ watched s t p).
    { intros (st & h & Hst & Hh). rewrite Hst in Hw. simpl in Hw. congruence. }
    pose proof (not_watched _ _ _ Hn) as Hu. destruct b.
    + destruct Hsg as [sg Hsg]; [done|]. split; [by eapply setWatch_on|by eapply watched_on].
    + rewrite setWatch_off_again; [by split; [|apply watched_noop]|].
      intros st Hst. by rewrite Hst in Hw.
Qed.

(** The loop of [window.watch], as a fold. *)
Definition set_all t c w (info : list (string * bool)) (s : state) : state :=
  foldl (λ s pb, snd (setWatch t c w (fst pb) (snd pb) s)) s info.

Lemma set_all_watched t c w info s t' p' :
  NoDup (map fst info) → (∀ p, (p, true) ∈ info → is_Some (propSignal w p)) →
  watched (set_all t c w info s) t' p' ↔
  if decide (t' = t ∧ p' ∈ map fst info) then (p', true) ∈ info else watched s t' p'.
Proof.
  unfold set_all. revert s. induction info as [|[p b] info IH]; intros s Hnd Hsg.
  - simpl. rewrite decide_False; [done|]. intros [_ H]. by apply elem_of_nil in H.
  - cbn [foldl map fst snd] in *. apply NoDup_cons in Hnd as [Hp Hnd].
    rewrite IH by (try done; intros q Hq; apply Hsg; by right).
    pose proof (proj2 (setWatch_watched t c w p b s ltac:(intros ->; apply Hsg; by left)) t' p')
      as Hset.
    destruct (decide (t' = t ∧ p' ∈ map fst info)) as [[-> Hin]|Hout].
    + rewrite decide_True by (split; [done|by right]).
      rewrite elem_of_cons. split; [by right|]. intros [[= -> _]|?]; [by destruct Hp|done].
    + rewrite Hset. destruct (decide (t = t' ∧ p = p')) as [[<- <-]|Hne].
      * rewrite decide_True by (split; [done|by left]). rewrite elem_of_cons. split.
        -- intros ->. by left.
        -- intros [[= ->]|Hin]; [done|]. destruct Hp. apply list_elem_of_In, in_map_iff.
           exists (p, true). by rewrite <- list_elem_of_In.
      * rewrite decide_False; [done|]. rewrite elem_of_cons. naive_solver.
Qed.

Lemma watch_loop_result t c w info r s :
  NoDup (map fst r ++ map fst info) → (∀ p, (p, true) ∈ info → is_Some (propSignal w p)) →
  watch_loop (setWatch t c w) info r s =
  (Ret (Obj (r ++ map (λ pb, (fst pb, Bool (snd pb))) info)), set_all t c w info s).
Proof.
  revert r s. induction info as [|[p b] info IH]; intros r s Hnd Hsg.
  - simpl. by rewrite app_nil_r.
  - cbn [watch_loop map fst snd]. unfold bind.
    pose proof (proj1 (setWatch_watched t c w p b s ltac:(intros ->; apply Hsg; by left))) as Hres.
    unfold set_all at 1. cbn [foldl fst snd]. destruct (setWatch t c w p b s) as [r' s'].
    simpl in Hres. subst r'. rewrite jm_set_new.
    2: { intros Hin. apply NoDup_app in Hnd as (_ & Hdis & _). apply (Hdis p Hin). by left. }
    rewrite IH; [by rewrite <- app_assoc| |intros q Hq; apply Hsg; by right].
    rewrite map_app, <- app_assoc. exact Hnd.
Qed.

(** The loop stops at the first property to enable that has no signal. *)
Lemma watch_loop_fails t c w pre p post r s :
  (∀ q, (q, true) ∈ pre → is_Some (propSignal w q)) → propSignal w p = None →
  ¬ watched (set_all t c w pre s) t p →
  watch_loop (setWatch t c w) (pre ++ (p, true) :: post) r s =
  (Throw (HostError (undefined_call "connect")),
   snd (setWatch t c w p true (set_all t c w pre s))).
Proof.
  revert r s. induction pre as [|[q b] pre IH]; intros r s Hsg Hp Hn; cbn [app watch_loop]; unfold bind.
  - cbn [set_all foldl] in *.
    pose proof (proj1 (setWatch_fail t c w p s (not_watched _ _ _ Hn) Hp)) as Hthrow.
    destruct (setWatch t c w p true s) as [r' s']. simpl in Hthrow. by subst r'.
  - pose proof (proj1 (setWatch_watched t c w q b s ltac:(intros ->; apply Hsg; by left))) as Hres.
    unfold set_all in Hn |- *. cbn [foldl fst snd] in Hn |- *.
    destruct (setWatch t c w q b s) as [r' s']. simpl in Hres, Hn |- *. subst r'.
    apply IH; [intros q' Hq'; apply Hsg; by right|done|done].
Qed.
End Watches.

Section WatchProps.
Context {E : Env} {J : JsonRpcApi E} `{!QTimerLaws E, !SignalLaws E, !WindowIdLaws E}.
Context `{!JsonRpcLaws E J} (gas : nat).
Implicit Types (s : state) (c : conn) (w : window) (t p : string).

Lemma validate_watch_checks supported suffix p :
  checks (validate_watch supported suffix p) (λ _, js_has p supported).
Proof.
  intros s. unfold validate_watch. destruct (js_has p supported); simpl; by eexists.
Qed.

Lemma set_all_frame t c w info s :
  set_frame s (set_all t c w info s) ∧ wspace (set_all t c w info s) = wspace s.
Proof.
  apply (foldl_ind (λ s', set_frame s s' ∧ wspace s' = wspace s)); [done|].
  intros s' pb _ [Hf Hw].
  destruct (setWatch_frame t c w (fst pb) (snd pb) s') as [Hf' Hw'].
  split; [by etrans|congruence].
Qed.

Lemma set_frame_implements s s' : set_frame s s' → implements s s' (abs (tokens s), []).
Proof. intros [_ Ht _ _ _ Hp _ _]. split; simpl; [by rewrite Ht|by rewrite Hp, app_nil_r]. Qed.

Lemma set_all_implements t c w info s :
  implements s (set_all t c w info s) (abs (tokens s), []).
Proof. apply set_frame_implements, set_all_frame. Qed.

(** The names that pass the check, but one, have a signal. *)
Lemma enabled_have_signals w info :
  forallb (λ p, js_has p WATCH_PROPS) (map fst info) = true →
  ("skipsCloseAnimation", true) ∉ info →
  ∀ p, (p, true) ∈ info → is_Some (propSignal w p).
Proof.
  intros Hsup Hskip p Hin. rewrite forallb_forall in Hsup.
  exists (SigWindow w (p +:+ "Changed")). apply propSignal_watchable; [|by intros ->].
  apply js_has_spec, Hsup, in_map_iff. exists (p, true). split; [done|]. by apply list_elem_of_In.
Qed.

(** Once the names are checked [window.watch] is its second loop. *)
Lemma window_watch_loop t info c w o s :
  inv s → abs (tokens s) !! t = Some (Claim c (Some w) o) →
  if forallb (λ p, js_has p WATCH_PROPS) (map fst info) then
    window_watch (t, info) c s = watch_loop (setWatch t c w) info [] s
  else ∃ msg, window_watch (t, info) c s = (Throw (RpcError msg InvalidParams Undefined), s).
Proof.
  intros Hi Hcl. pose proof (resolve_claim t c w o s Hi Hcl) as Hres.
  pose proof (mfor_checks _ (λ _ p, js_has p WATCH_PROPS) (map fst info)
    (validate_watch_checks WATCH_PROPS (λ prop, " in window.watch (not a boolean property or no "
       +:+ prop +:+ "Changed signal)")) s) as Hm.
  simpl in Hm. destruct (forallb _ (map fst info)); unfold window_watch, bind at 1;
    rewrite Hres; unfold bind at 1.
  - destruct Hm as [[] Hm]. by rewrite Hm.
  - destruct Hm as [msg Hm]. rewrite Hm. by exists msg.
Qed.

(** The listeners of a reachable state all have a signal. *)
Lemma watched_has_signal s t p cl w :
  inv s → watched s t p → abs (tokens s) !! t = Some cl → cl_window cl = Some w →
  p ∈ WATCH_PROPS ∧ is_Some (propSignal w p).
Proof.
  intros Hi (st & h & Hst & Hh) Hcl Hw.
  destruct (wi_state _ (inv_watch _ Hi) _ _ Hst) as (e & en & Hr & He & Hwin & _ & Hall).
  destruct (Hall _ _ Hh) as (_ & _ & _ & _ & Hp & _).
  rewrite (abs_registered _ _ _ _ Hr He) in Hcl. injection Hcl as <-. simpl in Hw.
  assert (ws_window st = w) as <- by congruence. exact Hp.
Qed.

(** C28: [window.watch] on a token of the caller, for supported properties
    other than [skipsCloseAnimation], answers what it was asked and leaves
    exactly those properties watched that it enabled, or that were watched
    before and not mentioned; no claim changes and nothing is pushed.  One
    unsupported name refuses it all, with -32602 and no change. *)
Theorem window_watch_registers t info c w o s :
  reachable gas s → abs (tokens s) !! t = Some (Claim c (Some w) o) → NoDup (map fst info) →
  ("skipsCloseAnimation", true) ∉ info →
  if forallb (λ p, js_has p WATCH_PROPS) (map fst info) then
    ∃ s', window_watch (t, info) c s =
        (Ret (Obj (map (λ pb, (fst pb, Bool (snd pb))) info)), s') ∧
      (∀ t' p, watched s' t' p ↔
         if decide (t' = t ∧ p ∈ map fst info) then (p, true) ∈ info else watched s t' p) ∧
      implements s s' (abs (tokens s), [])
  else ∃ msg, window_watch (t, info) c s = (Throw (RpcError msg InvalidParams Undefined), s).
Proof.
  intros Hi%reachable_invariant Hcl Hnd Hskip; [|done..].
  pose proof (window_watch_loop t info c w o s Hi Hcl) as Hm.
  destruct (forallb _ (map fst info)) eqn:Hsup; [|done].
  pose proof (enabled_have_signals w info Hsup Hskip) as Hsg.
  exists (set_all t c w info s). rewrite Hm, (watch_loop_result t c w info []) by done.
  split; [done|]. split.
  - intros t' p. by apply set_all_watched.
  - apply set_all_implements.
Qed.

(** C31: [window.watch] cannot enable [skipsCloseAnimation], which it
    supports: KWin's signal has another name, so the request is answered with
    the engine's exception for a call on [undefined].  The entries before it
    have then been carried out, those after it have not, and no listener of
    [skipsCloseAnimation] is ever registered. *)
Theorem skipsCloseAnimation_not_watchable t pre post c w o s :
  reachable gas s → abs (tokens s) !! t = Some (Claim c (Some w) o) →
  NoDup (map fst (pre ++ ("skipsCloseAnimation", true) :: post)) →
  forallb (λ p, js_has p WATCH_PROPS) (map fst (pre ++ post)) = true →
  ∃ s', window_watch (t, pre ++ ("skipsCloseAnimation", true) :: post) c s =
      (Throw (HostError (undefined_call "connect")), s') ∧
    (∀ t' p, watched s' t' p ↔
       if decide (t' = t ∧ p ∈ map fst pre) then (p, true) ∈ pre else watched s t' p) ∧
    implements s s' (abs (tokens s), []) ∧
    ¬ watched s' t "skipsCloseAnimation".
Proof.
  intros Hi%reachable_invariant Hcl Hnd Hsup; [|done..].
  pose proof (window_watch_loop t (pre ++ ("skipsCloseAnimation", true) :: post) c w o s Hi Hcl)
    as Hm.
  rewrite map_app, forallb_app in Hm, Hsup. cbn [map fst forallb] in Hm.
  apply andb_prop in Hsup as [Hpre Hpost]. rewrite Hpre, Hpost in Hm.
  change (js_has "skipsCloseAnimation" WATCH_PROPS) with true in Hm. cbn [andb] in Hm.
  rewrite map_app in Hnd. apply NoDup_app in Hnd as (Hnd & Hdis & _).
  assert (Hskip : "skipsCloseAnimation" ∉ map fst pre)
    by (intros Hin; apply (Hdis _ Hin); by left).
  assert (Hsg : ∀ q, (q, true) ∈ pre → is_Some (propSignal w q)).
  { apply enabled_have_signals; [done|]. intros Hin. apply Hskip.
    apply list_elem_of_In, in_map_iff. eexists. split; [|by apply list_elem_of_In]. done. }
  assert (Hn : ¬ watched (set_all t c w pre s) t "skipsCloseAnimation").
  { rewrite set_all_watched by done. rewrite decide_False by (by intros [_ ?]).
    intros Hw. by destruct (watched_has_signal s t _ _ w Hi Hw Hcl eq_refl) as [_ [? ?]]. }
  rewrite (watch_loop_fails t c w pre "skipsCloseAnimation") in Hm by done.
  eexists. split; [exact Hm|]. split; [|split].
  - intros t' p. rewrite watched_fail by (try done; by apply not_watched).
    by apply set_all_watched.
  - destruct (setWatch_frame t c w "skipsCloseAnimation" true (set_all t c w pre s))
      as [Hf _]. destruct (set_all_frame t c w pre s) as [Hf' _].
    apply set_frame_implements. by etrans.
  - by rewrite watched_fail by (try done; by apply not_watched).
Qed.

(** ** Who is connected *)

Lemma listener_registered s sg h :
  inv s → SlotWindowProp h ∈ slots s sg →
  propSignal (wh_window h) (wh_prop h) = Some sg ∧ wh_prop h ∈ WATCH_PROPS ∧
  watched s (wh_token h) (wh_prop h) ∧
  ∃ o, abs (tokens s) !! wh_token h = Some (Claim (wh_conn h) (Some (wh_window h)) o).
Proof.
  intros Hi Hin. destruct (proj1 (wi_slot _ (inv_watch _ Hi) _ _) Hin) as (Hsg & st & Hst & Hh).
  destruct (wi_state _ (inv_watch _ Hi) _ _ Hst) as (e & en & Hr & He & Hw & _ & Hall).
  destruct (Hall _ _ Hh) as (Hc & _ & Hwin & _ & [Hp _] & _).
  split; [done|]. split; [done|]. split; [by exists st, h|].
  exists (timer_active (te_deadlineTimer en)).
  rewrite (abs_registered _ _ _ _ Hr He). unfold abs_entry. by rewrite Hw, Hc, Hwin.
Qed.

Lemma watched_listener s t p cl w :
  inv s → watched s t p → abs (tokens s) !! t = Some cl → cl_window cl = Some w →
  ∃ sg h, propSignal w p = Some sg ∧ SlotWindowProp h ∈ slots s sg ∧ wh_token h = t ∧
    wh_prop h = p ∧ wh_window h = w ∧ wh_conn h = cl_owner cl.
Proof.
  intros Hi Hwt Hcl Hw. destruct (watched_has_signal s t p cl w Hi Hwt Hcl Hw) as [_ [sg Hsg]].
  destruct Hwt as (st & h & Hst & Hh).
  destruct (wi_state _ (inv_watch _ Hi) _ _ Hst) as (e & en & Hr & He & Hwin & _ & Hall).
  destruct (Hall _ _ Hh) as (Hc & Ht & Hwh & Hp & _).
  rewrite (abs_registered _ _ _ _ Hr He) in Hcl. injection Hcl as <-. simpl in Hw.
  assert (Hww : ws_window st = w) by congruence.
  exists sg, h. split; [done|]. split; [|split; [done|split; [done|split; [congruence|done]]]].
  apply (wi_slot _ (inv_watch _ Hi)). rewrite Ht, Hp, Hwh, Hww. split; [done|]. eauto.
Qed.

(** C29: in every reachable state the listeners connected to KWin are those
    of the registry and no others: a listener of a window belongs to a valid
    token bound to that window and reports to its owner; a watched property
    of a bound token has one; and none is connected twice, nor are two for
    the same token and property. *)
Theorem listeners_are_registered s :
  reachable gas s →
  (∀ sg h, SlotWindowProp h ∈ slots s sg →
     propSignal (wh_window h) (wh_prop h) = Some sg ∧ wh_prop h ∈ WATCH_PROPS ∧
     watched s (wh_token h) (wh_prop h) ∧
     ∃ o, abs (tokens s) !! wh_token h = Some (Claim (wh_conn h) (Some (wh_window h)) o)) ∧
  (∀ t p, watched s t p → ∃ cl w sg h, abs (tokens s) !! t = Some cl ∧
     cl_window cl = Some w ∧ propSignal w p = Some sg ∧ SlotWindowProp h ∈ slots s sg ∧
     wh_token h = t ∧ wh_prop h = p) ∧
  (∀ sg, NoDup (listeners s sg)) ∧
  (∀ sg1 sg2 h1 h2, SlotWindowProp h1 ∈ slots s sg1 → SlotWindowProp h2 ∈ slots s sg2 →
     wh_token h1 = wh_token h2 → wh_prop h1 = wh_prop h2 → h1 = h2).
Proof.
  intros Hi%reachable_invariant; [|done..].
  split; [intros sg h; by apply listener_registered|]. split; [|split].
  - intros t p Hwt. pose proof Hwt as (st & h & Hst & Hh).
    destruct (wi_state _ (inv_watch _ Hi) _ _ Hst) as (e & en & Hr & He & Hwin & _).
    pose proof (abs_registered _ _ _ _ Hr He) as Hcl.
    destruct (watched_listener s t p _ (ws_window st) Hi Hwt Hcl Hwin) as (sg & h' & ? & ? & ? & ? & _).
    exists (abs_entry en), (ws_window st), sg, h'. done.
  - apply (inv_once _ Hi).
  - intros sg1 sg2 h1 h2 H1 H2 Ht Hp.
    destruct (proj1 (wi_slot _ (inv_watch _ Hi) _ _) H1) as (_ & st1 & Hst1 & Hh1).
    destruct (proj1 (wi_slot _ (inv_watch _ Hi) _ _) H2) as (_ & st2 & Hst2 & Hh2).
    congruence.
Qed.

(** ** Delivery *)

Lemma Changed_signal p q : p +:+ "Changed" = q +:+ "Changed" → p = q.
Proof. apply string_app_cancel. Qed.

Definition change_signal (w : window) (p : string) : signal := SigWindow w (p +:+ "Changed").

(** The slots of a property's change signal are its listeners, and there is
    at most one: a window has one token. *)
Lemma change_slots s w p :
  inv s → p ∈ WATCH_PROPS →
  slots s (change_signal w p) = [] ∨
  ∃ h, slots s (change_signal w p) = [SlotWindowProp h] ∧ wh_window h = w ∧ wh_prop h = p.
Proof.
  intros Hi Hp.
  assert (Hall : ∀ x, x ∈ slots s (change_signal w p) → ∃ h, x = SlotWindowProp h ∧
    wh_window h = w ∧ wh_prop h = p).
  { intros x Hx. pose proof (bi_home _ (inv_base _ Hi) _ _ Hx) as Hh.
    destruct x as [| | | | |w'|h|h]; try done.
    - injection Hh as _ Hpp.
      change "captionNormalChanged" with ("captionNormal" +:+ "Changed") in Hpp.
      apply Changed_signal in Hpp as ->. apply js_has_spec in Hp. discriminate Hp.
    - destruct (listener_registered s _ h Hi Hx) as ([_ [= Hw Hpp]]%propSignal_Some & _).
      apply Changed_signal in Hpp. by exists h.
    - destruct (proj1 (si_slot _ (inv_wspace _ Hi) _ _) Hx) as [Hsg _].
      apply signal_named_Some in Hsg as [_ ?]. done. }
  assert (Huniq : ∀ x y, x ∈ slots s (change_signal w p) → y ∈ slots s (change_signal w p) → x = y).
  { intros x y Hx Hy. destruct (Hall x Hx) as (h1 & -> & Hw1 & Hp1).
    destruct (Hall y Hy) as (h2 & -> & Hw2 & Hp2). f_equal.
    destruct (listener_registered s _ h1 Hi Hx) as (_ & _ & _ & o1 & Hc1).
    destruct (listener_registered s _ h2 Hi Hy) as (_ & _ & _ & o2 & Hc2).
    rewrite Hw1 in Hc1. rewrite Hw2 in Hc2.
    assert (Ht : wh_token h1 = wh_token h2).
    { exact (abs_exclusive _ _ (inv_tokens _ Hi) _ _ _ _ w Hc1 Hc2 eq_refl eq_refl). }
    destruct (proj1 (wi_slot _ (inv_watch _ Hi) _ _) Hx) as (_ & st1 & Hst1 & Hh1).
    destruct (proj1 (wi_slot _ (inv_watch _ Hi) _ _) Hy) as (_ & st2 & Hst2 & Hh2).
    congruence. }
  assert (Hnd : NoDup (slots s (change_signal w p))).
  { pose proof (inv_once _ Hi (change_signal w p)) as Hn. unfold listeners in Hn.
    rewrite filter_all in Hn; [done|]. intros x Hx.
    by destruct (Hall x Hx) as (h & -> & _). }
  destruct (slots s (change_signal w p)) as [|x [|y l]]; [by left|right|exfalso].
  - destruct (Hall x ltac:(by left)) as (h & -> & ? & ?). by exists h.
  - apply NoDup_cons in Hnd as [Hx _]. apply Hx.
    rewrite (Huniq x y); [by left|by left|right; by left].
Qed.

Definition window_change (t p : string) (v : value) : value :=
  Obj [("token", Str t); ("property", Str p); ("value", v)].

(** C30: when a watchable property of a window changes, exactly one
    [window.changed] with its new value is pushed if the token bound to the
    window watches it and its owner is connected, and nothing otherwise; the
    script's registries do not change. *)
Theorem window_change_is_delivered W w p s :
  reachable gas s → p ∈ WATCH_PROPS →
  let s' := deliver W (EmWindow w (p +:+ "Changed")) s in
  tokens s' = tokens s ∧ windows s' = windows s ∧ wspace s' = wspace s ∧
  clients s' = clients s ∧
  ((∃ t cl, abs (tokens s) !! t = Some cl ∧ cl_window cl = Some w ∧ watched s t p ∧
      pushes (out s') = pushes (out s) ++
        if is_alive (cl_owner cl) s
        then [notification (cl_owner cl) "window.changed" (window_change t p (propValue w p s'))]
        else []) ∨
   ((∀ t cl, abs (tokens s) !! t = Some cl → cl_window cl = Some w → ¬ watched s t p) ∧
    pushes (out s') = pushes (out s))).
Proof.
  intros Hi%reachable_invariant Hp; [|done..]. cbv zeta.
  unfold deliver, fire. cbn [emission_signal].
  set (s1 := upd_host (upd_world (λ _, W)) s).
  change (sig_slots (signals (host s1)) (SigWindow w (p +:+ "Changed")))
    with (slots s (change_signal w p)).
  destruct (change_slots s w p Hi Hp) as [Hsl|(h & Hsl & Hw & Hpp)]; rewrite Hsl.
  - simpl. do 4 (split; [done|]). right. split; [|done].
    intros t cl Hcl Hcw Hwt.
    destruct (watched_listener s t p cl w Hi Hwt Hcl Hcw) as (sg & h & Hsg & Hin & _).
    apply propSignal_Some in Hsg as [_ ->].
    unfold change_signal in Hsl. rewrite Hsl in Hin. by apply elem_of_nil in Hin.
  - assert (Hin : SlotWindowProp h ∈ slots s (change_signal w p)) by (rewrite Hsl; by left).
    destruct (listener_registered s _ h Hi Hin) as (_ & _ & Hwt & o & Hcl).
    rewrite Hw in Hcl. rewrite Hpp in Hwt. cbn [foldl].
    assert (Hcon : is_connected (SigWindow w (p +:+ "Changed")) (SlotWindowProp h) s1 = true)
      by (by apply bool_decide_eq_true).
    rewrite Hcon. cbn [run_slot].
    change (run_win_handler h s1) with (notifyClient (wh_conn h) "window.changed"
      (window_change (wh_token h) (wh_prop h) (propValue (wh_window h) (wh_prop h) s1)) s1).
    pose proof (notifyClient_same_heap (wh_conn h) "window.changed"
      (window_change (wh_token h) (wh_prop h) (propValue (wh_window h) (wh_prop h) s1)) s1)
      as [Hh Ht Hwin Hws Hcs].
    do 4 (split; [done|]). left. eexists _, _. split; [exact Hcl|]. split; [done|].
    split; [done|]. rewrite notifyClient_pushes. cbn [cl_owner]. rewrite Hw, Hpp.
    assert (Hpv : ∀ s', host s' = host s1 → propValue w p s' = propValue w p s1)
      by (intros s' Heq; unfold propValue; by rewrite Heq).
    rewrite Hw, Hpp in Hh. by rewrite (Hpv _ Hh).
Qed.
End WatchProps.

(** * Witnesses *)

Definition sc_watch_info : list (string * bool) := [("minimized", true); ("keepAbove", false)].

Lemma sc_watch_nodup : NoDup (map fst sc_watch_info).
Proof. eapply bool_decide_eq_true_1. evaluate. Qed.

Lemma sc_watch_no_skip : ("skipsCloseAnimation", true) ∉ sc_watch_info.
Proof. unfold sc_watch_info. rewrite !elem_of_cons, elem_of_nil. naive_solver. Qed.

Lemma window_watch_registers_witness :
  ∃ s', window_watch (sc_token1, sc_watch_info) sc_conn1 sc_bound =
      (Ret (Obj [("minimized", Bool true); ("keepAbove", Bool false)]), s') ∧
    (∀ t' p, watched s' t' p ↔
       if decide (t' = sc_token1 ∧ p ∈ map fst sc_watch_info) then (p, true) ∈ sc_watch_info
       else watched sc_bound t' p) ∧
    implements sc_bound s' (abs (tokens sc_bound), []).
Proof.
  exact (window_watch_registers sc_gas sc_token1 sc_watch_info sc_conn1 sc_win true sc_bound
    sc_bound_reachable sc_bound_claim sc_watch_nodup sc_watch_no_skip).
Defined.

Definition sc_skip_info : list (string * bool) :=
  [("minimized", true)] ++ ("skipsCloseAnimation", true) :: [("keepAbove", true)].

Lemma sc_skip_nodup : NoDup (map fst sc_skip_info).
Proof. eapply bool_decide_eq_true_1. evaluate. Qed.

Lemma skipsCloseAnimation_not_watchable_witness :
  ∃ s', window_watch (sc_token1, sc_skip_info) sc_conn1 sc_bound =
      (Throw (HostError "TypeError: Cannot call method 'connect' of undefined"), s') ∧
    (∀ t' p, watched s' t' p ↔
       if decide (t' = sc_token1 ∧ p ∈ ["minimized"]) then (p, true) ∈ [("minimized", true)]
       else watched sc_bound t' p) ∧
    implements sc_bound s' (abs (tokens sc_bound), []) ∧
    ¬ watched s' sc_token1 "skipsCloseAnimation".
Proof.
  exact (skipsCloseAnimation_not_watchable sc_gas sc_token1 [("minimized", true)]
    [("keepAbove", true)] sc_conn1 sc_win true sc_bound sc_bound_reachable sc_bound_claim
    sc_skip_nodup eq_refl).
Defined.

Lemma listeners_are_registered_witness :
  is_Some (jm_get sc_token1 (watchesByToken (windows sc_watching)) ≫= λ st,
    jm_get "minimized" (ws_handlers st)) ∧
  ∃ cl w sg h, abs (tokens sc_watching) !! sc_token1 = Some cl ∧
    cl_window cl = Some w ∧ propSignal w "minimized" = Some sg ∧
    SlotWindowProp h ∈ slots sc_watching sg ∧
    wh_token h = sc_token1 ∧ wh_prop h = "minimized".
Proof.
  assert (Hw : is_Some (jm_get sc_token1 (watchesByToken (windows sc_watching)) ≫= λ st,
    jm_get "minimized" (ws_handlers st))) by (eapply bool_decide_eq_true_1; evaluate).
  split; [exact Hw|]. destruct Hw as [h (st & Hst & Hh)%bind_Some].
  apply (proj1 (proj2 (listeners_are_registered sc_gas sc_watching sc_watching_reachable))).
  exists st, h. exact (conj Hst Hh).
Defined.

Lemma window_change_is_delivered_witness :
  let s' := deliver (E := RefEnv) (sc_world "x") (EmWindow sc_win ("minimized" +:+ "Changed")) sc_watching in
  tokens s' = tokens sc_watching ∧ windows s' = windows sc_watching ∧
  wspace s' = wspace sc_watching ∧ clients s' = clients sc_watching ∧
  ((∃ t cl, abs (tokens sc_watching) !! t = Some cl ∧ cl_window cl = Some sc_win ∧
      watched sc_watching t "minimized" ∧
      pushes (out s') = pushes (out sc_watching) ++
        if is_alive (cl_owner cl) sc_watching
        then [notification (cl_owner cl) "window.changed"
          (window_change t "minimized" (propValue sc_win "minimized" s'))]
        else []) ∨
   ((∀ t cl, abs (tokens sc_watching) !! t = Some cl → cl_window cl = Some sc_win →
       ¬ watched sc_watching t "minimized") ∧
    pushes (out s') = pushes (out sc_watching))).
Proof.
  apply (window_change_is_delivered (E := RefEnv) sc_gas (sc_world "x") sc_win "minimized" sc_watching
    sc_watching_reachable).
  apply js_has_spec. evaluate.
Defined.
