(* ===== verification/WorkspaceProps.v ===== *)
(** * Properties of the workspace listeners

    [workspace.watch] and the delivery of [workspace.changed]. *)
From S2P Require Export WatchProps.

(** ** Registries of registries *)
Section Nested.
Context {K V : Type} `{EqDecision K}.
Implicit Types (m : jsmap K (jsmap string V)) (hs : jsmap string V).

Definition has2 m (k : K) (p : string) : Prop :=
  ∃ hs h, jm_get k m = Some hs ∧ jm_get p hs = Some h.

Lemma has2_set m k p h hs k' p' :
  hs = match jm_get k m with Some hs => hs | None => jm_empty end →
  has2 (jm_set k (jm_set p h hs) m) k' p' ↔ (k = k' ∧ p = p') ∨ has2 m k' p'.
Proof.
  intros Hhs. unfold has2. rewrite jm_get_set. case_decide as Hk; [subst k'|naive_solver].
  split.
  - intros (hs' & h' & [= <-] & Hh'). rewrite jm_get_set in Hh'. case_decide; [by left|right].
    destruct (jm_get k m) as [hs0|]; subst hs; [by eauto|done].
  - intros [[_ <-]|(hs' & h' & Hm & Hh')].
    + eexists _, h. split; [done|]. apply jm_get_set_eq.
    + rewrite Hm in Hhs. subst hs'.
      destruct (decide (p = p')) as [<-|Hne]; eexists _, _; (split; [done|]);
        [apply jm_get_set_eq|by rewrite jm_get_set_ne].
Qed.

Lemma has2_delete m k p hs k' p' :
  jm_get k m = Some hs →
  has2 (if decide (jm_size (jm_delete p hs) = 0%nat) then jm_delete k m
        else jm_set k (jm_delete p hs) m) k' p' ↔
  ¬ (k = k' ∧ p = p') ∧ has2 m k' p'.
Proof.
  intros Hm. unfold has2.
  assert (Hget : jm_get k' (if decide (jm_size (jm_delete p hs) = 0%nat) then jm_delete k m
      else jm_set k (jm_delete p hs) m) =
    if decide (k = k') then
      if decide (jm_size (jm_delete p hs) = 0%nat) then None else Some (jm_delete p hs)
    else jm_get k' m).
  { destruct (decide (jm_size _ = _)); [rewrite jm_get_delete|rewrite jm_get_set];
      by destruct (decide (k = k')). }
  rewrite Hget. destruct (decide (k = k')) as [<-|Hk]; [|naive_solver]. rewrite Hm. split.
  - intros (hs' & h & Hhs' & Hh). destruct (decide _); [done|]. injection Hhs' as <-.
    apply jm_get_delete_Some in Hh as [Hne Hh]. split; [tauto|]. eauto.
  - intros [Hne (hs' & h & [= <-] & Hh)]. assert (Hp : p ≠ p') by (intros ->; by apply Hne).
    assert (Hd : jm_get p' (jm_delete p hs) = Some h) by (by apply jm_get_delete_Some).
    destruct (decide _) as [Hsz|_]; [|by eauto]. apply jm_size_0 in Hsz. by rewrite Hsz in Hd.
Qed.
End Nested.

Section WsWatches.
Context {E : Env} `{!QTimerLaws E, !SignalLaws E}.
Implicit Types (s : state) (c : conn) (p : string) (id : number).

(** The client watches a workspace property. *)
Definition ws_watched (s : state) (id : number) (p : string) : Prop :=
  has2 (watchesByClient (wspace s)) id p.

Definition ws_watched_after (b : bool) s s' c p : Prop :=
  ∀ id p', ws_watched s' id p' ↔
    if decide (conn_id c = id ∧ p = p') then b = true else ws_watched s id p'.

(** The [disconnect] outside a [try] does not throw: the listener of the
    registry is connected. *)
Lemma registered_disconnects s c p hs h :
  wspace_inv s → jm_get (conn_id c) (watchesByClient (wspace s)) = Some hs →
  jm_get p hs = Some h →
  ∃ t, disconnect_from (workspaceSignal p) (SlotWorkspaceProp h) s = inl t.
Proof.
  intros Hi Hhs Hh. destruct (si_state _ Hi _ _ Hhs) as (_ & _ & Hall).
  destruct (Hall _ _ Hh) as (Hid & Hp & Hpp & _).
  pose proof (workspaceSignal_watchable p Hpp) as Hsg. rewrite Hsg. unfold disconnect_from.
  destruct (sig_disconnect _ _ _) as [t|m] eqn:Hd; [by exists t|exfalso].
  apply sig_disconnect_throws in Hd. apply Hd.
  apply (si_slot _ Hi). rewrite Hp, Hid. split; [done|]. eauto.
Qed.

Lemma ws_setWatch_watched c p b s :
  wspace_inv s → p ∈ WORKSPACE_WATCH_PROPS →
  fst (ws_setWatch c p b s) = Ret b ∧ ws_watched_after b s (snd (ws_setWatch c p b s)) c p.
Proof.
  intros Hi Hpp. unfold ws_setWatch, ws_watched_after, ws_watched.
  rewrite (workspaceSignal_watchable p Hpp).
  destruct (jm_get (conn_id c) (watchesByClient (wspace s))) as [hs|] eqn:Hhs; destruct b.
  - destruct (jm_has p hs) eqn:Hp; simpl; (split; [done|]); intros id p'.
    + apply jm_has_spec in Hp as [h Hh].
      destruct (decide _) as [[<- <-]|]; [|done]. split; [done|]. intros _. by exists hs, h.
    + rewrite has2_set by (by rewrite Hhs). destruct (decide _); tauto.
  - destruct (jm_get p hs) as [h|] eqn:Hp.
    + pose proof (registered_disconnects s c p hs h Hi Hhs Hp) as [t Ht].
      rewrite (workspaceSignal_watchable p Hpp) in Ht. rewrite Ht. simpl.
      split; [done|]. intros id p'.
      pose proof (has2_delete (watchesByClient (wspace s)) (conn_id c) p hs id p' Hhs) as Hd.
      assert (Hiff : has2 ((if decide (jm_size (jm_delete p hs) = 0%nat)
          then jm_delete (conn_id c) else jm_set (conn_id c) (jm_delete p hs))
          (watchesByClient (wspace s))) id p' ↔
        ¬ (conn_id c = id ∧ p = p') ∧ has2 (watchesByClient (wspace s)) id p')
        by (by destruct (decide (jm_size (jm_delete p hs) = 0%nat))).
      rewrite Hiff. destruct (decide (conn_id c = id ∧ p = p')); naive_solver.
    + split; [done|]. intros id p'. destruct (decide _) as [[<- <-]|]; [|done].
      split; [|done]. intros (hs' & h & Hhs' & Hh). simpl in Hhs'. congruence.
  - simpl. split; [done|]. intros id p'.
    etrans; [exact (has2_set (jm_set (conn_id c) jm_empty (watchesByClient (wspace s))) (conn_id c)
      p (WsHandler (fresh (host s)) c p) jm_empty id p' ltac:(by rewrite jm_get_set_eq))|].
    assert (H0 : has2 (jm_set (conn_id c) jm_empty (watchesByClient (wspace s))) id p' ↔
                 has2 (watchesByClient (wspace s)) id p').
    { unfold has2. rewrite jm_get_set. destruct (decide (conn_id c = id)) as [<-|]; [|done].
      rewrite Hhs. split; [by intros (? & ? & [= <-] & ?)|by intros (? & ? & ? & ?)]. }
    rewrite H0. destruct (decide _); tauto.
  - split; [done|]. intros id p'. destruct (decide _) as [[<- <-]|]; [|done].
    split; [|done]. intros (hs' & h & Hhs' & Hh). simpl in Hhs'. congruence.
Qed.

Definition ws_set_all c (info : list (string * bool)) (s : state) : state :=
  foldl (λ s pb, snd (ws_setWatch c (fst pb) (snd pb) s)) s info.

(** The loop of [workspace.watch]. *)
Lemma ws_watch_loop_result c info r s :
  inv s → (∀ p, p ∈ map fst info → p ∈ WORKSPACE_WATCH_PROPS) →
  NoDup (map fst r ++ map fst info) →
  watch_loop (ws_setWatch c) info r s =
  (Ret (Obj (r ++ map (λ pb, (fst pb, Bool (snd pb))) info)), ws_set_all c info s).
Proof.
  revert r s. induction info as [|[p b] info IH]; intros r s Hi Hall Hnd.
  - simpl. by rewrite app_nil_r.
  - cbn [watch_loop map fst snd]. unfold bind.
    pose proof (ws_setWatch_watched c p b s (inv_wspace _ Hi) ltac:(apply Hall; by left)) as [Hret _].
    pose proof (ws_setWatch_good c p b s ltac:(apply Hall; by left) Hi) as [Hi' _].
    assert (Hfold : ws_set_all c ((p, b) :: info) s =
      ws_set_all c info (snd (ws_setWatch c p b s))) by done.
    rewrite Hfold. destruct (ws_setWatch c p b s) as [r' s'] eqn:Hs. simpl in Hret, Hi'.
    subst r'. cbn [snd]. rewrite jm_set_new.
    2: { intros Hin. apply NoDup_app in Hnd as (_ & Hdis & _). apply (Hdis p Hin). by left. }
    rewrite IH; [by rewrite <- app_assoc|done|intros q Hq; apply Hall; by right|].
    rewrite map_app, <- app_assoc. exact Hnd.
Qed.

Lemma ws_set_all_watched c info s id p' :
  inv s → (∀ p, p ∈ map fst info → p ∈ WORKSPACE_WATCH_PROPS) → NoDup (map fst info) →
  ws_watched (ws_set_all c info s) id p' ↔
  if decide (id = conn_id c ∧ p' ∈ map fst info) then (p', true) ∈ info else ws_watched s id p'.
Proof.
  unfold ws_set_all. revert s. induction info as [|[p b] info IH]; intros s Hi Hall Hnd.
  - simpl. rewrite decide_False; [done|]. intros [_ H]. by apply elem_of_nil in H.
  - cbn [foldl map fst snd] in *. apply NoDup_cons in Hnd as [Hp Hnd].
    pose proof (proj2 (ws_setWatch_watched c p b s (inv_wspace _ Hi) ltac:(apply Hall; by left)) id p')
      as Hset.
    pose proof (ws_setWatch_good c p b s ltac:(apply Hall; by left) Hi) as [Hi' _].
    rewrite IH by (try done; intros q Hq; apply Hall; by right).
    destruct (decide (id = conn_id c ∧ p' ∈ map fst info)) as [[-> Hin]|Hout].
    + rewrite decide_True by (split; [done|by right]).
      rewrite elem_of_cons. split; [by right|]. intros [[= -> _]|?]; [by destruct Hp|done].
    + rewrite Hset. destruct (decide (conn_id c = id ∧ p = p')) as [[<- <-]|Hne].
      * rewrite decide_True by (split; [done|by left]). rewrite elem_of_cons. split.
        -- intros ->. by left.
        -- intros [[= ->]|Hin]; [done|]. destruct Hp. apply list_elem_of_In, in_map_iff.
           exists (p, true). by rewrite <- list_elem_of_In.
      * rewrite decide_False; [done|]. rewrite elem_of_cons. naive_solver.
Qed.
End WsWatches.

Section WorkspaceProps.
Context {E : Env} {J : JsonRpcApi E} `{!QTimerLaws E, !SignalLaws E}.
Context `{!JsonRpcLaws E J} (gas : nat).
Implicit Types (s : state) (c : conn) (p : string) (id : number).

Lemma ws_set_all_frame c info s : set_frame s (ws_set_all c info s).
Proof.
  apply (foldl_ind (set_frame s)); [done|]. intros s' pb _ Hf.
  etrans; [exact Hf|apply ws_setWatch_frame].
Qed.

(** [workspace.watch] for supported properties never fails: it answers
    what it was asked and leaves the caller watching exactly the properties
    it enabled, or watched before and did not mention; the other clients'
    listeners and all claims stay.  One unsupported name refuses it all. *)
Theorem workspace_watch_registers info c s :
  reachable gas s → NoDup (map fst info) →
  if forallb (λ p, js_has p WORKSPACE_WATCH_PROPS) (map fst info) then
    ∃ s', workspace_watch info c s =
        (Ret (Obj (map (λ pb, (fst pb, Bool (snd pb))) info)), s') ∧
      (∀ id p, ws_watched s' id p ↔
         if decide (id = conn_id c ∧ p ∈ map fst info) then (p, true) ∈ info
         else ws_watched s id p) ∧
      implements s s' (abs (tokens s), [])
  else ∃ msg, workspace_watch info c s = (Throw (RpcError msg InvalidParams Undefined), s).
Proof.
  intros Hi%reachable_invariant Hnd; [|done..].
  pose proof (mfor_checks _ (λ _ p, js_has p WORKSPACE_WATCH_PROPS) (map fst info)
    (validate_watch_checks WORKSPACE_WATCH_PROPS (λ prop, " in workspace.watch (no "
       +:+ prop +:+ "Changed signal)")) s) as Hm.
  simpl in Hm. destruct (forallb _ (map fst info)) eqn:Hall;
    unfold workspace_watch, bind at 1.
  - destruct Hm as [[] Hm]. rewrite Hm. exists (ws_set_all c info s).
    assert (Hsup : ∀ p, p ∈ map fst info → p ∈ WORKSPACE_WATCH_PROPS).
    { intros p Hp. apply js_has_spec. rewrite forallb_forall in Hall.
      by apply Hall, list_elem_of_In. }
    rewrite (ws_watch_loop_result c info []) by done. split; [done|]. split.
    + intros id p. by apply ws_set_all_watched.
    + destruct (ws_set_all_frame c info s) as [_ Ht _ _ _ Hp _ _].
      split; simpl; [by rewrite Ht|by rewrite Hp, app_nil_r].
  - destruct Hm as [msg Hm]. rewrite Hm. by exists msg.
Qed.

(** ** Delivery *)

Definition workspace_change (p : string) (v : value) : value :=
  Obj [("property", Str p); ("value", v)].

(** What the slot [x] pushes when a workspace property has the value [v]. *)
Definition ws_slot_push (s : state) (v : string → value) (x : slot) : list effect :=
  match x with
  | SlotWorkspaceProp h =>
    if is_alive (sh_conn h) s
    then [notification (sh_conn h) "workspace.changed" (workspace_change (sh_prop h) (v (sh_prop h)))]
    else []
  | _ => []
  end.

Lemma run_ws_slot x name s :
  (∀ w, x ≠ SlotCaption w) → (∀ h, x ≠ SlotWindowProp h) →
  host (run_slot x (EmWorkspace name) s) = host s ∧
  clients (run_slot x (EmWorkspace name) s) = clients s ∧
  pushes (out (run_slot x (EmWorkspace name) s)) =
    pushes (out s) ++ ws_slot_push s (λ p, workspaceValue p s) x.
Proof.
  intros Hc Hw. destruct x as [| | | | |w|h|h]; simpl; rewrite ?app_nil_r; try done.
  - by destruct (Hc w).
  - by destruct (Hw h).
  - unfold run_ws_handler. rewrite notifyClient_pushes.
    destruct (notifyClient_same_heap (sh_conn h) "workspace.changed"
      (workspace_change (sh_prop h) (workspaceValue (sh_prop h) s)) s) as [Hh _ _ _ Hcl]. done.
Qed.

Lemma workspaceValue_host p s s' : host s' = host s → workspaceValue p s' = workspaceValue p s.
Proof. intros Hh. unfold workspaceValue. by rewrite Hh. Qed.

(** The loop of [fire] over slots that stay connected. *)
Lemma fire_ws_slots name l s :
  (∀ x, x ∈ l → x ∈ slots s (SigWorkspace name) ∧ (∀ w, x ≠ SlotCaption w) ∧
     (∀ h, x ≠ SlotWindowProp h)) →
  let s' := foldl (λ s x, if is_connected (SigWorkspace name) x s
                          then run_slot x (EmWorkspace name) s else s) s l in
  host s' = host s ∧ clients s' = clients s ∧
  pushes (out s') = pushes (out s) ++
    concat (map (ws_slot_push s (λ p, workspaceValue p s)) l).
Proof.
  revert s. induction l as [|x l IH]; intros s Hl; simpl; [by rewrite app_nil_r|].
  destruct (Hl x ltac:(by left)) as (Hin & Hc & Hw).
  assert (Hcon : is_connected (SigWorkspace name) x s = true) by (by apply bool_decide_eq_true).
  rewrite Hcon. destruct (run_ws_slot x name s Hc Hw) as (Hh & Hcl & Hp).
  destruct (IH (run_slot x (EmWorkspace name) s)) as (Hh' & Hcl' & Hp').
  { intros y Hy. destruct (Hl y ltac:(by right)) as (Hy' & ?). split; [|done].
    unfold slots. by rewrite Hh. }
  split; [by rewrite Hh'|]. split; [by rewrite Hcl'|].
  rewrite Hp', Hp, <- app_assoc. f_equal. f_equal. f_equal. apply map_ext. intros y.
  destruct y; simpl; try done.
  rewrite (is_alive_clients _ s) by done. by rewrite (workspaceValue_host _ s).
Qed.

(** The handlers among the slots of a signal. *)
Definition ws_handlers_of (l : list slot) : list ws_handler :=
  omap (λ x, match x with SlotWorkspaceProp h => Some h | _ => None end) l.

Lemma ws_handlers_of_elem h l : h ∈ ws_handlers_of l ↔ SlotWorkspaceProp h ∈ l.
Proof.
  unfold ws_handlers_of. rewrite list_elem_of_omap. split.
  - intros (x & Hx & Heq). destruct x; try done. by injection Heq as ->.
  - intros Hx. by exists (SlotWorkspaceProp h).
Qed.

Lemma ws_handlers_of_nodup l : NoDup (filter is_listener l) → NoDup (ws_handlers_of l).
Proof.
  intros Hnd. apply (NoDup_fmap_1 SlotWorkspaceProp).
  eapply sublist_NoDup; [exact Hnd|]. clear Hnd. induction l as [|x l IH]; [done|].
  rewrite filter_cons.
  destruct x; simpl; first [exact IH | by apply sublist_skip | by apply sublist_cons].
Qed.

Lemma ws_pushes_of s v l :
  concat (map (ws_slot_push s v) l) =
  concat (map (λ h, ws_slot_push s v (SlotWorkspaceProp h)) (ws_handlers_of l)).
Proof. induction l as [|x l IH]; [done|]. destruct x; simpl; try done. by rewrite IH. Qed.

(** C37: When a watchable property of the workspace changes, every client that
    watches it and is connected is pushed exactly one [workspace.changed] with
    its new value, and no one else anything.  In every reachable state there are
    handlers, one for each client that watches the property and no other, such
    that the change adds to what was pushed just their notifications, each to
    the handler's connection if that is alive. *)
Theorem workspace_change_is_delivered W p s :
  reachable gas s → p ∈ WORKSPACE_WATCH_PROPS →
  let s' := deliver W (EmWorkspace (p +:+ "Changed")) s in
  ∃ hs, NoDup (map (λ h, conn_id (sh_conn h)) hs) ∧
    (∀ id, ws_watched s id p ↔ id ∈ map (λ h, conn_id (sh_conn h)) hs) ∧
    pushes (out s') = pushes (out s) ++ concat (map (λ h,
      if is_alive (sh_conn h) s
      then [notification (sh_conn h) "workspace.changed" (workspace_change p (workspaceValue p s'))]
      else []) hs).
Proof.
  intros Hi%reachable_invariant Hp; [|done..]. cbv zeta. unfold deliver, fire.
  cbn [emission_signal]. set (s1 := upd_host (upd_world (λ _, W)) s).
  change (sig_slots (signals (host s1)) (SigWorkspace (p +:+ "Changed")))
    with (slots s (SigWorkspace (p +:+ "Changed"))).
  set (l := slots s (SigWorkspace (p +:+ "Changed"))).
  assert (Hl : ∀ x, x ∈ l → (∀ w, x ≠ SlotCaption w) ∧ (∀ h, x ≠ SlotWindowProp h)).
  { intros x Hx. split.
    - intros w ->. pose proof (bi_home _ (inv_base _ Hi) _ _ Hx). done.
    - intros h ->. destruct (proj1 (wi_slot _ (inv_watch _ Hi) _ _) Hx) as [Hsg _].
      by apply propSignal_Some in Hsg as [_ ?]. }
  destruct (fire_ws_slots (p +:+ "Changed") l s1) as (Hh & _ & Hpush).
  { intros x Hx. split; [exact Hx|by apply Hl]. }
  set (s2 := foldl _ s1 l) in *.
  set (hs := ws_handlers_of l).
  assert (Hreg : ∀ h, h ∈ hs → sh_prop h = p ∧
    ∃ m, jm_get (conn_id (sh_conn h)) (watchesByClient (wspace s)) = Some m ∧
      jm_get p m = Some h).
  { intros h Hh'%ws_handlers_of_elem.
    destruct (proj1 (si_slot _ (inv_wspace _ Hi) _ _) Hh') as (Hsg & Hm).
    apply signal_named_Some in Hsg as [_ [= Hsg]]. apply Changed_signal in Hsg. by rewrite Hsg. }
  exists hs. split; [|split].
  - apply NoDup_fmap_2_strong.
    + intros h1 h2 H1 H2 Hid. destruct (Hreg h1 H1) as (_ & m1 & Hm1 & Hh1).
      destruct (Hreg h2 H2) as (_ & m2 & Hm2 & Hh2). rewrite Hid in Hm1. congruence.
    + apply ws_handlers_of_nodup. apply (inv_once _ Hi).
  - intros id. unfold ws_watched, has2. rewrite list_elem_of_In, in_map_iff. split.
    + intros (m & h & Hm & Hh'). destruct (si_state _ (inv_wspace _ Hi) _ _ Hm) as (_ & _ & Hall).
      destruct (Hall _ _ Hh') as (Hid & Hpp & _). exists h. split; [done|].
      apply list_elem_of_In, ws_handlers_of_elem, (si_slot _ (inv_wspace _ Hi)).
      rewrite Hpp, Hid, workspaceSignal_watchable by done. split; [done|]. by exists m.
    + intros (h & Hid & Hin%list_elem_of_In). destruct (Hreg h Hin) as (_ & m & Hm & Hh').
      rewrite Hid in Hm. eauto.
  - rewrite Hpush, ws_pushes_of. change (out s1) with (out s). f_equal. f_equal.
    apply map_ext_in. intros h Hin%list_elem_of_In. simpl. destruct (Hreg h Hin) as (-> & _).
    by rewrite (workspaceValue_host p s1 s2 Hh).
Qed.
End WorkspaceProps.

(** * Witnesses *)

Lemma workspace_watch_registers_witness :
  ∃ s', workspace_watch [("currentDesktop", false); ("activities", true)] sc_conn2 sc_watching =
      (Ret (Obj [("currentDesktop", Bool false); ("activities", Bool true)]), s') ∧
    (∀ id p, ws_watched s' id p ↔
       if decide (id = NInt 4 ∧ p ∈ ["currentDesktop"; "activities"])
       then (p, true) ∈ [("currentDesktop", false); ("activities", true)]
       else ws_watched sc_watching id p) ∧
    implements sc_watching s' (abs (tokens sc_watching), []).
Proof.
  apply (workspace_watch_registers sc_gas [("currentDesktop", false); ("activities", true)]
    sc_conn2 sc_watching sc_watching_reachable).
  eapply bool_decide_eq_true_1. evaluate.
Defined.

Lemma workspace_change_is_delivered_witness :
  let s' := deliver (E := RefEnv) (sc_world "x") (EmWorkspace ("currentDesktop" +:+ "Changed")) sc_watching in
  ∃ hs, NoDup (map (λ h, conn_id (sh_conn h)) hs) ∧
    (∀ id, ws_watched sc_watching id "currentDesktop" ↔ id ∈ map (λ h, conn_id (sh_conn h)) hs) ∧
    pushes (out s') = pushes (out sc_watching) ++ concat (map (λ h,
      if is_alive (sh_conn h) sc_watching
      then [notification (sh_conn h) "workspace.changed"
        (workspace_change "currentDesktop" (workspaceValue "currentDesktop" s'))]
      else []) hs).
Proof.
  apply (workspace_change_is_delivered (E := RefEnv) sc_gas (sc_world "x") "currentDesktop" sc_watching
    sc_watching_reachable).
  apply js_has_spec. evaluate.
Defined.
