(* ===== verification/RpcProps.v ===== *)
(** * Properties of the calls

    D-Bus calls settle once; a request that passes its schema reaches its
    method, and is answered as JSON-RPC asks. *)
From S2P Require Export WorkspaceProps.

Section DbusProps.
Context {E : Env} `{!QTimerLaws E}.

Lemma call_step_timeout_active p p' : call_step p CallTimeout p' → timer_active (pc_timer p) = true.
Proof. by inversion 1. Qed.

Lemma call_run_no_timeout p evs p' :
  call_run p evs p' → timer_active (pc_timer p) = false → CallTimeout ∉ evs.
Proof.
  induction 1 as [|p p1 p2 ev evs Hs _ IH]; intros Hoff; [apply not_elem_of_nil|].
  rewrite not_elem_of_cons. split.
  - intros <-. apply call_step_timeout_active in Hs. congruence.
  - apply IH. by eapply call_step_stops.
Qed.

(** C33: whatever order the timeout and the reply come in, and however late,
    the promise of [callDBusAsync] settles with the first of them and keeps
    that outcome; its timer runs until then and never fires afterwards. *)
Theorem callDBusAsync_settles_once c evs p :
  call_run (callDBusAsync c) evs p →
  pc_result p = event_outcome c <$> head evs ∧
  (timer_active (pc_timer p) = true ↔ evs = []) ∧ CallTimeout ∉ tail evs.
Proof.
  assert (H0 : timer_active (pc_timer (callDBusAsync c)) = true ↔
               pc_result (callDBusAsync c) = None).
  { simpl. rewrite timer_start_active. done. }
  intros Hrun. pose proof (call_run_timer _ _ _ Hrun H0) as Htimer. rewrite Htimer.
  inversion Hrun as [|q p1 p2 ev evs' Hs Hrest]; subst.
  - split; [done|]. split; [done|apply not_elem_of_nil].
  - assert (Hr1 : pc_result p1 = Some (event_outcome c ev))
      by (by rewrite (call_step_result _ _ _ Hs)).
    rewrite (call_run_settled _ _ _ _ Hrest Hr1). split; [done|]. split; [done|].
    eapply call_run_no_timeout; [exact Hrest|]. by eapply call_step_stops.
Qed.
End DbusProps.

Section RpcProps.
Context {E : Env} {J : JsonRpcApi E} `{!JsonRpcLaws E J}.
Implicit Types (s : state) (c : conn).

(** A method registered with a schema runs on the value the schema makes of the
    raw params; params that it does not accept are refused, with the issues. *)
Lemma registerMethod_spec `{!ZodLaws E} {P} (sch : schema P) h raw c s :
  match zod_accepts sch raw with
  | Some params => registerMethod sch h raw c s = h params c s
  | None => ∃ issues, registerMethod sch h raw c s =
      (Throw (RpcError ("invalid params: " +:+ join "; " (map issue_detail issues))
         InvalidParams (Arr (map issue_value issues))), s)
  end.
Proof.
  unfold registerMethod. destruct (zod_accepts sch raw) as [params|] eqn:Hz.
  - by rewrite (proj2 (safeParse_accepts sch raw params) Hz).
  - destruct (safeParse sch raw) as [params|issues] eqn:Hp; [|by exists issues].
    apply safeParse_accepts in Hp. congruence.
Qed.

(** Parameters are checked before a method runs.  [token.request], as it is
    registered, runs exactly on the objects whose [timeout] is an integer from 1
    to 3600000, and on that number; any other params are refused with -32602,
    and nothing in the script changes. *)
Theorem token_request_bounds `{!ZodLaws E} n raw c s :
  (∀ timeout fields, raw = Obj fields → jm_get "timeout" fields = Some (Num (NInt timeout)) →
     1 <= timeout <= 3600000 →
     registerMethod TokenRequestSchema (token_request n) raw c s = token_request n timeout c s) ∧
  ((∀ timeout fields, raw = Obj fields → jm_get "timeout" fields = Some (Num (NInt timeout)) →
      ¬ 1 <= timeout <= 3600000) →
   ∃ msg data, registerMethod TokenRequestSchema (token_request n) raw c s =
     (Throw (RpcError msg InvalidParams data), s)).
Proof.
  pose proof (registerMethod_spec TokenRequestSchema (token_request n) raw c s) as Hreg.
  split.
  - intros timeout fields -> Hget Hrange.
    assert (Hz : zod_accepts TokenRequestSchema (Obj fields) = Some timeout).
    { simpl. rewrite Hget. unfold MAX_VALIDATE_TIMEOUT_MS.
      rewrite (proj2 (Z.leb_le 1 timeout)), (proj2 (Z.leb_le timeout 3600000)) by lia. done. }
    by rewrite Hz in Hreg.
  - intros Hno. destruct (zod_accepts TokenRequestSchema raw) as [z|] eqn:Hz.
    + exfalso. simpl in Hz. destruct raw as [| | | | | |fields]; try done.
      simpl in Hz. destruct (jm_get "timeout" fields) as [v|] eqn:Hget; [|done].
      destruct v as [| | |[z'|]| | |]; try done.
      destruct ((1 <=? z') && (z' <=? MAX_VALIDATE_TIMEOUT_MS)) eqn:Hr; [|done].
      apply andb_true_iff in Hr as [H1 H2].
      apply (Hno z' fields eq_refl Hget). unfold MAX_VALIDATE_TIMEOUT_MS in H2. lia.
    + destruct Hreg as (issues & ->). eauto.
Qed.

(** ** Answers *)

Definition reply (c : conn) (message : value) : effect :=
  ECall (push_call (conn_id c) (JSON_stringify message)).

Lemma send_pushes c m s : pushes (out (send c m s)) = pushes (out s) ++ [reply c m].
Proof. unfold send, pushToClient, emit. simpl. by rewrite pushes_app. Qed.

(** An id that is answered. *)
Definition answered (id : value) : Prop := id ≠ Undefined ∧ id ≠ Null.

Lemma respond_single c fields s :
  pushes (out (respond c (Some (Obj fields)) s)) = pushes (out s) ++
    if is_null (prop_get "id" (Obj fields)) then [] else [reply c (Obj fields)].
Proof.
  unfold respond. destruct (is_null _); [by rewrite app_nil_r|apply send_pushes].
Qed.

Lemma answered_not_null id : answered id → is_null id = false.
Proof. intros [_ Hn]. by destruct id. Qed.

(** a request to a registered method changes the script's state as the
    method does; its result, or the JSON-RPC error it throws, is then pushed
    to the client in one message under the request's id; a request with the
    id [null] runs the same way but is not answered. *)
Theorem request_is_answered methods id name f params c s :
  id ≠ Undefined → jm_get name methods = Some f →
  (∀ v s1, f params c s = (Ret v, s1) →
     ∃ s2, dispatchMessage methods c (request (Some id) name params) s = (Ret tt, s2) ∧
       same_heap s1 s2 ∧ pushes (out s2) = pushes (out s1) ++
         if is_null id then [] else [reply c (success_response id v)]) ∧
  (∀ msg code data s1, f params c s = (Throw (RpcError msg code data), s1) →
     ∃ s2, dispatchMessage methods c (request (Some id) name params) s = (Ret tt, s2) ∧
       same_heap s1 s2 ∧ pushes (out s2) = pushes (out s1) ++
         if is_null id then [] else [reply c (error_response id code msg data)]).
Proof.
  intros Hid Hf.
  assert (Hheap : ∀ r s, same_heap s (respond c (Some (Obj r)) s)).
  { intros r s0. unfold respond. by destruct (is_null _). }
  split.
  - intros v s1 Hr. unfold dispatchMessage, bind.
    rewrite (receive_result methods id name f params c s v s1 Hid Hf Hr). simpl modify.
    eexists. split; [reflexivity|]. split; [apply Hheap|apply respond_single].
  - intros msg code data s1 Hr. unfold dispatchMessage, bind.
    rewrite (receive_error methods id name f params c s msg code data s1 Hid Hf Hr).
    eexists. split; [reflexivity|]. split; [apply Hheap|apply respond_single].
Qed.

(** C35: a batch reply loses exactly its entries with a null id; what is
    left is pushed in one message, a single entry as an object of its own,
    and nothing is pushed when nothing is left. *)
Theorem batch_reply_suppression c entries s :
  let kept := filter (λ entry, is_null (prop_get "id" entry) = false) entries in
  let s' := respond c (Some (Arr entries)) s in
  same_heap s s' ∧
  (kept = [] → pushes (out s') = pushes (out s)) ∧
  (∀ r, kept = [r] → pushes (out s') = pushes (out s) ++ [reply c r]) ∧
  ((1 < length kept)%nat → pushes (out s') = pushes (out s) ++ [reply c (Arr kept)]).
Proof.
  cbv zeta. unfold respond. destruct (filter _ entries) as [|r [|r' l]]; simpl.
  - split; [done|]. split; [done|]. split; [done|lia].
  - split; [done|]. split; [done|]. split; [intros ? [= <-]; apply send_pushes|lia].
  - split; [done|]. split; [done|]. split; [done|]. intros _. apply send_pushes.
Qed.
End RpcProps.

(** * Witnesses *)

Lemma callDBusAsync_settles_once_witness :
  let c := log_call "info" "hello" in
  let p := call_on_reply (Str "") (callDBusAsync (E := RefEnv) c) in
  pc_result p = Some (Fulfilled (Str "")) ∧
  (timer_active (pc_timer p) = true ↔ [CallReply (Str "")] = []) ∧
  CallTimeout ∉ tail [CallReply (Str "")].
Proof.
  apply (callDBusAsync_settles_once (E := RefEnv) (log_call "info" "hello") [CallReply (Str "")]).
  eapply call_run_cons; [apply call_step_reply|apply call_run_nil].
Defined.

Lemma token_request_bounds_witness :
  registerMethod (E := RefEnv) TokenRequestSchema (token_request 4)
    (Obj [("timeout", Num (NInt 3600000))]) sc_conn1 sc_bound =
  token_request 4 3600000 sc_conn1 sc_bound.
Proof.
  apply (proj1 (token_request_bounds 4 (Obj [("timeout", Num (NInt 3600000))]) sc_conn1 sc_bound)
    3600000 [("timeout", Num (NInt 3600000))]); [done|done|lia].
Defined.

Definition sc_query : value := Arr [Arr [Str "currentActivity"]].

Lemma request_is_answered_witness :
  ∃ s2, dispatchMessage (methods sc_gas) sc_conn1
      (request (Some (Num (NInt 7))) "workspace.query" sc_query) sc_bound = (Ret tt, s2) ∧
    same_heap sc_bound s2 ∧ pushes (out s2) = pushes (out sc_bound) ++
      [reply sc_conn1 (success_response (Num (NInt 7)) (Obj [("currentActivity", Str "work")]))].
Proof.
  apply (proj1 (request_is_answered (methods sc_gas) (Num (NInt 7)) "workspace.query"
    (registerMethod ws_QueryParamsSchema workspace_query) sc_query sc_conn1 sc_bound
    ltac:(done) eq_refl)).
  evaluate.
Defined.
