(* ===== verification/ClientProps.v ===== *)
(** * Properties of the message loops

    Which clients are served, how a poll ends, and the order in which a batch
    is answered. *)
From S2P Require Export RpcProps.

Section ClientProps.
Context {E : Env} {J : JsonRpcApi E} `{!QTimerLaws E, !SignalLaws E, !JsonRpcLaws E J}.
Context (gas : nat).
Implicit Types (s : state) (c : conn) (id : number).

(** C36: the control loop never ends; every client in the registry has its
    own id, is alive and has a message loop that has not ended; and every
    connection that is alive is in the registry. *)
Theorem connected_clients_are_served s :
  reachable gas s →
  (control (clients s) = CPoll ∨ control (clients s) = CSleep) ∧
  (∀ id c, jm_get id (connections (clients s)) = Some c →
     conn_id c = id ∧ is_alive c s = true ∧
     ∃ l, loops (clients s) !! c = Some l ∧ l ≠ LDone) ∧
  (∀ c, is_alive c s = true → jm_get (conn_id c) (connections (clients s)) = Some c).
Proof.
  intros Hr. pose proof (reachable_invariant gas s Hr) as Hi.
  destruct Hr as (W & sg & Hsg & Hsteps).
  pose proof (steps_good gas _ _ Hsteps (load_script_inv W sg Hsg)) as [_ Hev].
  pose proof (ev_control _ _ Hev ltac:(done)) as Hctl.
  split; [destruct (control (clients s)); [done|by left|by right]|]. split.
  - intros id c Hc. destruct (ci_conn _ _ (inv_clients _ Hi) _ _ Hc) as (Hid & Ha & Hl).
    split; [done|]. split; [|done]. unfold is_alive. by rewrite Ha.
  - intros c Ha. apply (ci_alive _ _ (inv_clients _ Hi)). unfold is_alive in Ha.
    by destruct (alive (clients s) !! c) as [[]|].
Qed.

(** ** The registry follows the daemon's events *)

Lemma connected_connections id s :
  connections (clients (onClientConnected id s)) =
  if jm_has id (connections (clients s)) then connections (clients s)
  else jm_set id (Conn (fresh (host s)) id) (connections (clients s)).
Proof.
  unfold onClientConnected. destruct (jm_has id _); [done|]. cbv zeta. unfold run_head.
  by destruct (is_alive _ _).
Qed.

Lemma dropped_connections id s :
  connections (clients (onClientDisconnected id s)) = jm_delete id (connections (clients s)) ∨
  jm_get id (connections (clients s)) = None ∧ onClientDisconnected id s = s.
Proof.
  unfold onClientDisconnected. destruct (jm_get id _) as [c|] eqn:Hc; [left|by right].
  cbv zeta. set (s1 := upd_clients _ _).
  change (clients (client_log ?l ?i ?m ?s)) with (clients s).
  rewrite (wsf_clients _ _ (ws_drop_frame id (dropClientTokens id s1))).
  rewrite (qu_clients _ _ (dropClientTokens_quiet id s1)).
  by destruct (dropped_frame id s1) as (_ & _ & -> & _).
Qed.

(** An event the daemon reports, and the JSON it arrives as. *)
Definition control_event (e : bool * number) : value :=
  Obj [("event", Str (if fst e then "client_connected" else "client_disconnected"));
       ("id", Num (snd e))].

Lemma process_control_event (b : bool) id s :
  process_event (control_event (b, id)) s =
  if b then onClientConnected id s else onClientDisconnected id s.
Proof. by destruct b. Qed.

Lemma process_event_connected (b : bool) id' id s :
  is_Some (jm_get id (connections (clients (process_event (control_event (b, id')) s)))) ↔
  if decide (id' = id) then b = true else is_Some (jm_get id (connections (clients s))).
Proof.
  rewrite process_control_event. destruct b.
  - rewrite connected_connections.
    destruct (jm_has id' (connections (clients s))) eqn:Hh.
    + case_decide; [subst|done]. apply jm_has_spec in Hh. done.
    + rewrite jm_get_set. case_decide; [|done]. split; [done|by eexists].
  - destruct (dropped_connections id' s) as [->|[Hn ->]].
    + rewrite jm_get_delete. case_decide; [|done]. split; [by intros []|done].
    + case_decide; [subst|done]. rewrite Hn. split; [by intros []|done].
Qed.

(** after a list of the daemon's events a client is in the registry
    exactly when its last event there was its connection, or, with no event,
    when it was before; repeated connections and disconnections of unknown
    clients do nothing. *)
Theorem registry_follows_events (evs : list (bool * number)) id s :
  is_Some (jm_get id (connections (clients
    (foldl (λ s event, process_event event s) s (map control_event evs))))) ↔
  match last (filter (λ e, snd e = id) evs) with
  | Some (b, _) => b = true
  | None => is_Some (jm_get id (connections (clients s)))
  end.
Proof.
  revert s. induction evs as [|[b id'] evs IH]; intros s; [done|].
  cbn [map foldl]. rewrite IH, filter_cons. simpl.
  pose proof (process_event_connected b id' id s) as He.
  destruct (decide (id' = id)) as [->|Hne]; [|by destruct (last _) as [[]|]].
  rewrite last_cons. by destruct (last (filter _ evs)) as [[]|].
Qed.

(** ** Polls *)

(** a poll that fails, whose payload is no JSON, or is JSON but not a
    batch, reaches no method and pushes nothing to the client: the loop logs
    one warning and sleeps before it polls again. *)
Theorem failed_poll_backs_off c r s :
  is_alive c s = true → poll_outcome r ≠ OutOfFuel → (∀ batch, poll_outcome r ≠ Ret (Arr batch)) →
  ∃ msg, run_polled gas c r s =
    set_loop c LSleep (emit (ESleep DBUS_RETRY_DELAY) (sendLog "warn" msg s)) ∧
  pushes (out (run_polled gas c r s)) = pushes (out s).
Proof.
  intros Ha Hf Hb. unfold run_polled. rewrite Ha. simpl.
  assert (Hp : ∀ msg, pushes (out (set_loop c LSleep (emit (ESleep DBUS_RETRY_DELAY)
      (sendLog "warn" msg s)))) = pushes (out s)).
  { intros msg. simpl. rewrite !pushes_app. simpl. by rewrite !app_nil_r. }
  destruct (poll_outcome r) as [v|e|]; [|eexists; split; [reflexivity|apply Hp]|done].
  destruct v as [| | | | |batch|]; try (eexists; split; [reflexivity|apply Hp]).
  by destruct (Hb batch).
Qed.

(** the loop of a client that has disconnected ends at its next turn:
    whatever its last poll brings is not dispatched, and it does not poll
    again. *)
Theorem disconnected_loop_ends c r s :
  is_alive c s = false → poll_outcome r ≠ OutOfFuel →
  run_polled gas c r s = set_loop c LDone s ∧ run_head c s = set_loop c LDone s.
Proof.
  intros Ha Hf. unfold run_polled, run_head. rewrite Ha. simpl.
  by destruct (poll_outcome r).
Qed.

(** ** Batches *)

(** One message, with the [catch] around [dispatchMessage]. *)
Definition serve_one c (m : value) (s : state) : state :=
  match dispatchMessage (methods gas) c m s with
  | (Throw error, s) =>
    client_log "warn" (conn_id c) (" dispatch error: " +:+ exn_to_string error) s
  | (_, s) => s
  end.

(** The suspended loop is only ever read back by its own resumption. *)
Fixpoint serve c (batch : list value) (s : state) : state :=
  match batch with
  | [] => run_sleep 0 c s
  | m :: batch =>
    let r := fst (receive (methods gas) m c s) in
    serve c batch (set_loop c (LRespond r batch) (serve_one c m s))
  end.

Fixpoint completes c (batch : list value) (s : state) : Prop :=
  match batch with
  | [] => True
  | m :: batch =>
    let r := fst (receive (methods gas) m c s) in
    r ≠ OutOfFuel ∧ completes c batch (set_loop c (LRespond r batch) (serve_one c m s))
  end.

Lemma respond_set_loop c l r s : respond c r (set_loop c l s) = set_loop c l (respond c r s).
Proof. unfold respond. destruct r as [[]|]; try done; by repeat case_goal. Qed.

(** a batch is served message by message in order, each answered before
    the next is looked at, and the loop then yields; an exception of one
    message is logged and does not stop the rest. *)
Theorem batch_is_served_in_order c batch s :
  completes c batch s →
  rtc (step gas) (run_batch gas c batch s) (serve c batch s).
Proof.
  revert s. induction batch as [|m batch IH]; intros s; [done|].
  cbn [completes serve run_batch]. unfold serve_one, dispatchMessage, bind.
  destruct (receive (methods gas) m c s) as [r s1]. cbn [fst]. intros [Hr Hc].
  set (s2 := set_loop c (LRespond r batch) s1).
  assert (Hstep : step gas s2 (run_responded gas c r batch s2)).
  { apply step_client_responds. simpl. apply lookup_insert_eq. }
  eapply rtc_l; [exact Hstep|].
  destruct r as [response|e|]; [| |done]; cbn [run_responded modify] in *.
  - unfold s2. rewrite respond_set_loop. by apply IH.
  - change (client_log "warn" (conn_id c) (" dispatch error: " +:+ exn_to_string e) s2)
      with (set_loop c (LRespond (Throw e) batch)
        (client_log "warn" (conn_id c) (" dispatch error: " +:+ exn_to_string e) s1)).
    by apply IH.
Qed.

(** [perform] is the transition relation as a function: the steps of
    the running script are exactly the moves it accepts. *)
Theorem step_is_perform s s' : step gas s s' ↔ ∃ m, perform gas m s = Some s'.
Proof.
  split; [apply step_perform|]. intros [m Hm]. by eapply perform_step.
Qed.

(** in every reachable state the deadline timer of a pending valid token
    is running and single-shot, so that the token will time out; the timer
    of a token that left the registry is stopped, so that its deadline never
    fires. *)
Theorem deadline_timers_follow_registry s e en :
  reachable gas s → entry_at e s = Some en →
  timer_singleShot (te_deadlineTimer en) = true ∧
  (registered (te_token en) e s → te_state en = pending →
     timer_active (te_deadlineTimer en) = true) ∧
  (¬ registered (te_token en) e s → timer_active (te_deadlineTimer en) = false).
Proof.
  intros Hi%reachable_invariant He; [|done..]. pose proof (inv_tokens _ Hi) as Hit.
  split; [exact (ti_single _ _ Hit _ _ He)|]. split.
  - exact (ti_timer _ _ Hit _ _ He).
  - exact (ti_dead _ _ Hit _ _ He).
Qed.
End ClientProps.

(** * Witnesses *)

Lemma connected_clients_are_served_witness :
  (control (clients sc_watching) = CPoll ∨ control (clients sc_watching) = CSleep) ∧
  (∀ id c, jm_get id (connections (clients sc_watching)) = Some c →
     conn_id c = id ∧ is_alive c sc_watching = true ∧
     ∃ l, loops (clients sc_watching) !! c = Some l ∧ l ≠ LDone) ∧
  (∀ c, is_alive c sc_watching = true →
     jm_get (conn_id c) (connections (clients sc_watching)) = Some c).
Proof. exact (connected_clients_are_served sc_gas sc_watching sc_watching_reachable). Defined.

Lemma deadline_timers_follow_registry_witness :
  timer_singleShot (te_deadlineTimer (new_entry sc_token1 sc_conn1 5000)) = true ∧
  (registered sc_token1 sc_entry1 sc_requested → pending = pending →
     timer_active (te_deadlineTimer (new_entry sc_token1 sc_conn1 5000)) = true) ∧
  (¬ registered sc_token1 sc_entry1 sc_requested →
     timer_active (te_deadlineTimer (new_entry sc_token1 sc_conn1 5000)) = false).
Proof.
  apply (deadline_timers_follow_registry sc_gas sc_requested sc_entry1
    (new_entry sc_token1 sc_conn1 5000) sc_requested_reachable).
  evaluate.
Defined.

Lemma failed_poll_backs_off_witness :
  ∃ msg, run_polled sc_gas sc_conn1 (Fulfilled (Str "{")) sc_bound =
    set_loop sc_conn1 LSleep (emit (ESleep DBUS_RETRY_DELAY) (sendLog "warn" msg sc_bound)) ∧
  pushes (out (run_polled sc_gas sc_conn1 (Fulfilled (Str "{")) sc_bound)) = pushes (out sc_bound).
Proof.
  assert (Hp : poll_outcome (E := RefEnv) (Fulfilled (Str "{")) =
    Throw (HostError "SyntaxError: JSON.parse: Parse error")) by evaluate.
  apply (failed_poll_backs_off sc_gas sc_conn1 (Fulfilled (Str "{")) sc_bound);
    [evaluate|by rewrite Hp..].
Defined.

Lemma disconnected_loop_ends_witness :
  run_polled sc_gas (Conn 99 (NInt 9)) (Rejected (HostError "Error: gone")) sc_bound =
    set_loop (Conn 99 (NInt 9)) LDone sc_bound ∧
  run_head (Conn 99 (NInt 9)) sc_bound = set_loop (Conn 99 (NInt 9)) LDone sc_bound.
Proof.
  apply (disconnected_loop_ends sc_gas (Conn 99 (NInt 9)) (Rejected (HostError "Error: gone")) sc_bound);
    [evaluate|done].
Defined.

Lemma batch_is_served_in_order_witness :
  rtc (step sc_gas)
    (run_batch sc_gas sc_conn1 [sc_request "workspace.query" sc_query] sc_bound)
    (serve sc_gas sc_conn1 [sc_request "workspace.query" sc_query] sc_bound).
Proof.
  apply (batch_is_served_in_order sc_gas sc_conn1 [sc_request "workspace.query" sc_query] sc_bound).
  assert (Hr : fst (receive (methods sc_gas) (sc_request "workspace.query" sc_query)
      sc_conn1 sc_bound) =
    Ret (Some (success_response (Num (NInt 1)) (Obj [("currentActivity", Str "work")]))))
    by evaluate.
  split; [by rewrite Hr|exact I].
Defined.
