(* ===== verification/Bytes.v ===== *)
(** * Bytes, machine words and memory of the daemon

    The daemon is C++ on Linux.  A [char] is an 8-bit [byte], a [size_t] or
    [uint32_t] a [Z] with its wrap-around written out ([u64], [u32]), and an
    array a list of bytes.  [cpp] is how a piece of C++ ends: it returns, it
    throws, its behaviour is undefined because it left an array, or its loop
    took more iterations than the fuel it was given.  A theorem that an
    operation is [Returns a] excludes the three others.

    [Machine] holds what the daemon gets from the platform: the byte order,
    the unspecified contents of a new array, and the texts of strerror(3). *)
From S2P Require Export Prelude.
From Stdlib Require Export Ascii.
From Stdlib Require String.

Open Scope Z_scope.

Create Rewrite HintDb zlen.

Abbreviation byte := ascii (only parsing).
Abbreviation bytes := (list ascii) (only parsing).

Definition zlen {A} (l : list A) : Z := Z.of_nat (length l).

Definition u32 (z : Z) : Z := z mod 2^32.
Definition u64 (z : Z) : Z := z mod 2^64.

(** The characters of a string literal, and [c_str ()]: up to the first NUL. *)
Definition chars (s : string) : bytes := String.list_ascii_of_string s.

Fixpoint c_str (s : bytes) : bytes :=
  match s with
  | [] => []
  | b :: s => if decide (b = "000"%char) then [] else b :: c_str s
  end.

(** errno, as Linux numbers it. *)
Definition EINTR : Z := 4.
Definition EBADF : Z := 9.
Definition EAGAIN : Z := 11.
Definition EBUSY : Z := 16.
Definition EINVAL : Z := 22.
Definition EMSGSIZE : Z := 90.
Definition ENOBUFS : Z := 105.
Definition ENOTCONN : Z := 107.

Class Machine := {
  little_endian : bool;
  new_char : Z → bytes;
  strerror : Z → string;
}.

Class MachineLaws `(Machine) := {
  new_char_zlen n : 0 ≤ n → zlen (new_char n) = n;
}.

(** ** Outcomes *)

Inductive cpp (A : Type) :=
| Returns (a : A)
| Throws (what : string)
| Undefined
| Unfinished.
Arguments Returns {A} a.
Arguments Throws {A} what.
Arguments Undefined {A}.
Arguments Unfinished {A}.

#[export] Instance cpp_ret : MRet cpp := λ A a, Returns a.
#[export] Instance cpp_bind : MBind cpp := λ A B k m,
  match m with
  | Returns a => k a
  | Throws what => Throws what
  | Undefined => Undefined
  | Unfinished => Unfinished
  end.

(** An access to an array: undefined outside its bounds. *)
Definition access {A} (o : option A) : cpp A :=
  match o with Some a => Returns a | None => Undefined end.

(** ** The bytes of a word *)

Definition byte_of_Z (z : Z) : byte := ascii_of_N (Z.to_N (z mod 256)).
Definition Z_of_byte (b : byte) : Z := Z.of_N (N_of_ascii b).

Fixpoint le_bytes (n : nat) (w : Z) : bytes :=
  match n with
  | O => []
  | S n => byte_of_Z w :: le_bytes n (Z.shiftr w 8)
  end.

Fixpoint le_word (l : bytes) : Z :=
  match l with
  | [] => 0
  | b :: l => Z_of_byte b + Z.shiftl (le_word l) 8
  end.

Section word.
Context `{Machine}.

(** The object representation of a [uint32_t]. *)
Definition u32_bytes (w : Z) : bytes :=
  if little_endian then le_bytes 4 w else rev (le_bytes 4 w).
Definition u32_of_bytes (l : bytes) : Z :=
  le_word (if little_endian then l else rev l).
End word.

(** ** Arrays *)

Definition ztake {A} (n : Z) (l : list A) : list A := take (Z.to_nat n) l.
Definition zdrop {A} (n : Z) (l : list A) : list A := drop (Z.to_nat n) l.

(** [n] bytes read at [off]. *)
Definition mem_get (off n : Z) (m : bytes) : option bytes :=
  if decide (0 ≤ off ∧ 0 ≤ n ∧ off + n ≤ zlen m)
  then Some (ztake n (zdrop off m)) else None.

(** [src] written at [off] ([memcpy], [memmove] from a copy). *)
Definition mem_put (off : Z) (src m : bytes) : option bytes :=
  if decide (0 ≤ off ∧ off + zlen src ≤ zlen m)
  then Some (ztake off m ++ src ++ zdrop (off + zlen src) m) else None.

(** ** Lemmas: lengths and slices *)

Lemma zlen_nil {A} : zlen (@nil A) = 0.
Proof. done. Qed.
Lemma zlen_cons {A} (x : A) l : zlen (x :: l) = 1 + zlen l.
Proof. unfold zlen. cbn [length]. lia. Qed.
Lemma zlen_app {A} (l k : list A) : zlen (l ++ k) = zlen l + zlen k.
Proof. unfold zlen. rewrite length_app. lia. Qed.
Lemma zlen_nonneg {A} (l : list A) : 0 ≤ zlen l.
Proof. unfold zlen. lia. Qed.
Lemma zlen_0 {A} (l : list A) : zlen l = 0 → l = [].
Proof. destruct l; [done|]. rewrite zlen_cons. pose proof (zlen_nonneg l). lia. Qed.
Lemma zlen_nonempty {A} (l : list A) : l ≠ [] → 1 ≤ zlen l.
Proof. destruct l; [done|]. rewrite zlen_cons. pose proof (zlen_nonneg l). lia. Qed.
Lemma zlen_ztake {A} n (l : list A) : 0 ≤ n → zlen (ztake n l) = Z.min n (zlen l).
Proof. intros. unfold zlen, ztake. rewrite length_take. lia. Qed.
Lemma zlen_zdrop {A} n (l : list A) : 0 ≤ n → zlen (zdrop n l) = Z.max 0 (zlen l - n).
Proof. intros. unfold zlen, zdrop. rewrite length_drop. lia. Qed.
Lemma ztake_zdrop {A} n (l : list A) : ztake n l ++ zdrop n l = l.
Proof. apply take_drop. Qed.
Lemma ztake_app {A} n (l k : list A) : zlen l = n → ztake n (l ++ k) = l.
Proof. intros <-. unfold ztake, zlen. rewrite Nat2Z.id. by rewrite take_app_length. Qed.
Lemma zdrop_app {A} n (l k : list A) : zlen l = n → zdrop n (l ++ k) = k.
Proof. intros <-. unfold zdrop, zlen. rewrite Nat2Z.id. by rewrite drop_app_length. Qed.
Lemma ztake_ge {A} n (l : list A) : zlen l ≤ n → ztake n l = l.
Proof. intros. apply take_ge. unfold zlen in *. lia. Qed.
Lemma ztake_app_le {A} n (l k : list A) : n ≤ zlen l → ztake n (l ++ k) = ztake n l.
Proof. intros. apply take_app_le. unfold zlen in *. lia. Qed.
Lemma zlen_map {A B} (f : A → B) l : zlen (map f l) = zlen l.
Proof. unfold zlen. by rewrite length_map. Qed.
Lemma zlen_rev {A} (l : list A) : zlen (rev l) = zlen l.
Proof. unfold zlen. by rewrite length_rev. Qed.

#[global] Hint Rewrite @zlen_nil @zlen_cons @zlen_app @zlen_map @zlen_rev : zlen.

(** ** Lemmas: words *)

Lemma byte_of_Z_of_byte b : byte_of_Z (Z_of_byte b) = b.
Proof.
  unfold byte_of_Z, Z_of_byte. pose proof (N_ascii_bounded b).
  rewrite Z.mod_small, N2Z.id by lia. apply ascii_N_embedding.
Qed.

Lemma Z_of_byte_of_Z z : Z_of_byte (byte_of_Z z) = z mod 256.
Proof.
  unfold byte_of_Z, Z_of_byte. pose proof (Z.mod_pos_bound z 256).
  rewrite N_ascii_embedding by lia. lia.
Qed.

Lemma Z_of_byte_bound b : 0 ≤ Z_of_byte b < 256.
Proof. unfold Z_of_byte. pose proof (N_ascii_bounded b). lia. Qed.

Lemma zlen_le_bytes n w : zlen (le_bytes n w) = Z.of_nat n.
Proof. revert w. induction n as [|n IH]; intros w; [done|]. cbn [le_bytes]. rewrite zlen_cons, IH. lia. Qed.

Lemma le_word_bound l : 0 ≤ le_word l < 2 ^ (8 * zlen l).
Proof.
  induction l as [|b l IH]; [done|]. cbn [le_word].
  rewrite zlen_cons, Z.shiftl_mul_pow2 by lia.
  replace (8 * (1 + zlen l)) with (8 + 8 * zlen l) by lia.
  pose proof (zlen_nonneg l). rewrite Z.pow_add_r by lia.
  pose proof (Z_of_byte_bound b). change (2 ^ 8) with 256. nia.
Qed.

Lemma le_word_bytes n w : le_word (le_bytes n w) = w mod 2 ^ (8 * Z.of_nat n).
Proof.
  revert w. induction n as [|n IH]; intros w; [by rewrite Z.mod_1_r|].
  cbn [le_bytes le_word]. rewrite IH, Z_of_byte_of_Z, Z.shiftl_mul_pow2 by lia.
  rewrite Z.shiftr_div_pow2 by lia.
  replace (8 * Z.of_nat (S n)) with (8 + 8 * Z.of_nat n) by lia.
  rewrite Z.pow_add_r by lia. change (2 ^ 8) with 256.
  rewrite Z.rem_mul_r by lia. lia.
Qed.

Lemma le_bytes_word l : le_bytes (length l) (le_word l) = l.
Proof.
  induction l as [|b l IH]; [done|]. cbn [length le_bytes le_word].
  pose proof (Z_of_byte_bound b) as Hb.
  rewrite Z.shiftl_mul_pow2, Z.shiftr_div_pow2 by lia. change (2 ^ 8) with 256.
  rewrite Z.div_add, (Z.div_small (Z_of_byte b)), Z.add_0_l, IH by lia. f_equal.
  trans (byte_of_Z (Z_of_byte b)); [|apply byte_of_Z_of_byte].
  unfold byte_of_Z. by rewrite Z.mod_add by lia.
Qed.

Section word_lemmas.
Context `{Machine}.

Lemma zlen_u32_bytes w : zlen (u32_bytes w) = 4.
Proof. unfold u32_bytes. case_match; rewrite ?zlen_rev; apply zlen_le_bytes. Qed.

Lemma u32_of_u32_bytes w : u32_of_bytes (u32_bytes w) = u32 w.
Proof.
  unfold u32_bytes, u32_of_bytes. case_match; rewrite ?rev_involutive; apply (le_word_bytes 4).
Qed.

Lemma u32_bytes_of_bytes l : zlen l = 4 → u32_bytes (u32_of_bytes l) = l.
Proof.
  intros Hl. assert (length l = 4%nat) as Hn by (unfold zlen in Hl; lia).
  unfold u32_bytes, u32_of_bytes. case_match.
  - rewrite <- Hn. apply le_bytes_word.
  - trans (rev (rev l)); [f_equal|apply rev_involutive].
    rewrite <- (le_bytes_word (rev l)) at 2. by rewrite length_rev, Hn.
Qed.

Lemma u32_of_bytes_bound l : zlen l = 4 → 0 ≤ u32_of_bytes l < 2 ^ 32.
Proof.
  intros Hl. unfold u32_of_bytes. case_match.
  - pose proof (le_word_bound l) as Hb. by rewrite Hl in Hb.
  - pose proof (le_word_bound (rev l)) as Hb. by rewrite zlen_rev, Hl in Hb.
Qed.
End word_lemmas.

Lemma u32_small z : 0 ≤ z < 2 ^ 32 → u32 z = z.
Proof. apply Z.mod_small. Qed.
Lemma u64_small z : 0 ≤ z < 2 ^ 64 → u64 z = z.
Proof. apply Z.mod_small. Qed.
Lemma u32_bound z : 0 ≤ u32 z < 2 ^ 32.
Proof. by apply Z.mod_pos_bound. Qed.

(** ** Lemmas: memory *)

(** Reading and writing a part of an array given by its surroundings. *)
Lemma mem_get_app a b c off n :
  zlen a = off → zlen b = n → mem_get off n (a ++ b ++ c) = Some b.
Proof.
  intros <- <-. unfold mem_get. rewrite decide_True.
  - by rewrite zdrop_app, ztake_app.
  - autorewrite with zlen. pose proof (zlen_nonneg a). pose proof (zlen_nonneg b).
    pose proof (zlen_nonneg c). lia.
Qed.

Lemma mem_put_app a b b' c off :
  zlen a = off → zlen b = zlen b' → mem_put off b' (a ++ b ++ c) = Some (a ++ b' ++ c).
Proof.
  intros <- Hb. unfold mem_put. pose proof (zlen_nonneg a). pose proof (zlen_nonneg b).
  pose proof (zlen_nonneg c). rewrite decide_True.
  - rewrite ztake_app by done. do 3 f_equal. rewrite (app_assoc a b c).
    apply zdrop_app. rewrite zlen_app. lia.
  - autorewrite with zlen. lia.
Qed.

Lemma mem_put_Some off src m m' : mem_put off src m = Some m' →
  0 ≤ off ∧ off + zlen src ≤ zlen m ∧ m' = ztake off m ++ src ++ zdrop (off + zlen src) m.
Proof. unfold mem_put. case_decide; [|done]. intros [= <-]. naive_solver. Qed.

Lemma mem_put_is_Some off src m :
  0 ≤ off → off + zlen src ≤ zlen m → is_Some (mem_put off src m).
Proof. intros. unfold mem_put. rewrite decide_True by done. by eexists. Qed.

Lemma zlen_mem_put off src m m' : mem_put off src m = Some m' → zlen m' = zlen m.
Proof.
  intros (?&?&->)%mem_put_Some. pose proof (zlen_nonneg src).
  autorewrite with zlen. rewrite zlen_ztake, zlen_zdrop by lia. lia.
Qed.

(** Where a written array differs. *)
Lemma mem_put_lookup off src m m' i : mem_put off src m = Some m' → 0 ≤ i →
  m' !! Z.to_nat i = if decide (off ≤ i < off + zlen src)
                     then src !! Z.to_nat (i - off) else m !! Z.to_nat i.
Proof.
  intros (?&Hle&->)%mem_put_Some Hi. unfold ztake, zdrop, zlen in *.
  rewrite !lookup_app. rewrite length_take. rewrite Nat.min_l by lia.
  case_decide.
  - rewrite lookup_take_ge by lia. destruct (src !! _) eqn:Hs.
    + by replace (Z.to_nat (i - off)) with (Z.to_nat i - Z.to_nat off)%nat by lia.
    + apply lookup_ge_None in Hs. lia.
  - destruct (decide (i < off)).
    + rewrite lookup_take_lt by lia. destruct (m !! _) eqn:Hm; [done|].
      apply lookup_ge_None in Hm. lia.
    + rewrite lookup_take_ge by lia. rewrite (proj2 (lookup_ge_None src _)) by lia.
      rewrite lookup_drop. f_equal. lia.
Qed.

Lemma mem_get_Some off n m bs : mem_get off n m = Some bs →
  0 ≤ off ∧ 0 ≤ n ∧ off + n ≤ zlen m ∧ bs = ztake n (zdrop off m).
Proof. unfold mem_get. case_decide; [|done]. intros [= <-]. naive_solver. Qed.

(** ** Lemmas: C strings *)

Lemma c_str_id s : "000"%char ∉ s → c_str s = s.
Proof.
  induction s as [|b s IH]; [done|]. rewrite not_elem_of_cons. intros [? ?].
  cbn [c_str]. rewrite decide_False by done. by rewrite IH.
Qed.

Definition no_nul (s : bytes) : Prop := "000"%char ∉ s.

Lemma no_nul_app a b : no_nul a → no_nul b → no_nul (a ++ b).
Proof. unfold no_nul. rewrite elem_of_app. tauto. Qed.

Lemma c_str_nul a b : no_nul a → c_str (a ++ "000"%char :: b) = a.
Proof.
  unfold no_nul. induction a as [|c a IH]; [by rewrite app_nil_l|]. rewrite not_elem_of_cons. intros [Hc Ha].
  cbn [app c_str]. rewrite decide_False by done. by rewrite IH.
Qed.
