(* ===== verification/Frames.v ===== *)
(** * The frames of the socket protocol

    proto/protocol.hpp and doc/PROTOCOL.md, section 2.2: a message is its
    length, a [uint32_t] in native byte order, and its payload.  [decode] is
    the reference decoder, an automaton that takes one byte at a time and
    collects the payloads of the legal frames (1 to 1,000,000 bytes); the
    daemon's decoder is proved against it.  [framed] says the same of a whole
    stream, without states. *)
From S2P Require Export Bytes.

Definition kMaxMessageLen : Z := 1000000.
Definition kHeaderLen : Z := 4.
Definition kMaxFrameLen : Z := kMaxMessageLen + kHeaderLen.
Definition kDefaultBufferCap : Z := 16000000.

Section frames.
Context `{Machine}.

Definition frame (m : bytes) : bytes := u32_bytes (zlen m) ++ m.

Definition legal (n : Z) : bool := (1 <=? n) && (n <=? kMaxMessageLen).

(** Where the reference decoder is inside a frame. *)
Inductive stage :=
| InHeader (got : bytes)
| InPayload (length : Z) (got : bytes)
| InDiscard (length : Z) (got : Z).

Record decoded := Decoded {
  at_stage : stage;
  payloads : list bytes;
  discarded : Z;
}.

(** What a complete header leads to. *)
Definition enter (n : Z) (d : decoded) : decoded :=
  if n =? 0 then Decoded (InHeader []) (payloads d) (discarded d + 1)
  else if kMaxMessageLen <? n then Decoded (InDiscard n 0) (payloads d) (discarded d)
  else Decoded (InPayload n []) (payloads d) (discarded d).

Definition feed (d : decoded) (b : byte) : decoded :=
  match at_stage d with
  | InHeader got =>
    let got := got ++ [b] in
    if zlen got =? kHeaderLen then enter (u32_of_bytes got) d
    else Decoded (InHeader got) (payloads d) (discarded d)
  | InPayload n got =>
    let got := got ++ [b] in
    if zlen got =? n then Decoded (InHeader []) (payloads d ++ [got]) (discarded d)
    else Decoded (InPayload n got) (payloads d) (discarded d)
  | InDiscard n got =>
    if got + 1 =? n then Decoded (InHeader []) (payloads d) (discarded d + 1)
    else Decoded (InDiscard n (got + 1)) (payloads d) (discarded d)
  end.

Definition start : decoded := Decoded (InHeader []) [] 0.

Definition decode_from (d : decoded) (stream : bytes) : decoded := foldl feed d stream.
Definition decode (stream : bytes) : decoded := decode_from start stream.

(** A stream that ends with a frame, and the payloads of its legal frames. *)
Inductive framed : bytes → list bytes → Prop :=
| framed_nil : framed [] []
| framed_legal m stream ms :
    legal (zlen m) = true → framed stream ms → framed (frame m ++ stream) (m :: ms)
| framed_other m stream ms :
    legal (zlen m) = false → zlen m < 2 ^ 32 → framed stream ms →
    framed (frame m ++ stream) ms.

(** ** Lemmas *)

Lemma decode_app s1 s2 : decode (s1 ++ s2) = decode_from (decode s1) s2.
Proof. apply foldl_app. Qed.

Lemma decode_from_app d s1 s2 : decode_from d (s1 ++ s2) = decode_from (decode_from d s1) s2.
Proof. apply foldl_app. Qed.

(** A piece of the header that does not complete it. *)
Lemma decode_header_part got bs ps n : zlen got + zlen bs < kHeaderLen →
  decode_from (Decoded (InHeader got) ps n) bs = Decoded (InHeader (got ++ bs)) ps n.
Proof.
  revert got. induction bs as [|b bs IH]; intros got Hlt; [by rewrite app_nil_r|].
  rewrite zlen_cons in Hlt. pose proof (zlen_nonneg bs). cbn [decode_from foldl].
  unfold feed at 2. cbn [at_stage payloads discarded].
  rewrite (proj2 (Z.eqb_neq _ _)) by (rewrite zlen_app, zlen_cons, zlen_nil; lia).
  fold (decode_from (Decoded (InHeader (got ++ [b])) ps n) bs). rewrite IH.
  - by rewrite <- app_assoc.
  - rewrite zlen_app, zlen_cons, zlen_nil. lia.
Qed.

(** The piece that completes it. *)
Lemma decode_header_end got bs ps n : zlen got < kHeaderLen →
  zlen got + zlen bs = kHeaderLen →
  decode_from (Decoded (InHeader got) ps n) bs
  = enter (u32_of_bytes (got ++ bs)) (Decoded (InHeader []) ps n).
Proof.
  intros Hlt Heq. destruct bs as [|b bs _] using rev_ind; [rewrite zlen_nil in Heq; lia|].
  rewrite decode_from_app, decode_header_part
    by (rewrite zlen_app, zlen_cons, zlen_nil in Heq; lia).
  cbn [decode_from foldl]. unfold feed. cbn [at_stage payloads discarded].
  rewrite <- app_assoc, zlen_app, Heq, Z.eqb_refl. done.
Qed.

Lemma decode_payload_part len got bs ps n : zlen got + zlen bs < len →
  decode_from (Decoded (InPayload len got) ps n) bs = Decoded (InPayload len (got ++ bs)) ps n.
Proof.
  revert got. induction bs as [|b bs IH]; intros got Hlt; [by rewrite app_nil_r|].
  rewrite zlen_cons in Hlt. pose proof (zlen_nonneg bs). cbn [decode_from foldl].
  unfold feed at 2. cbn [at_stage payloads discarded].
  rewrite (proj2 (Z.eqb_neq _ _)) by (rewrite zlen_app, zlen_cons, zlen_nil; lia).
  fold (decode_from (Decoded (InPayload len (got ++ [b])) ps n) bs). rewrite IH.
  - by rewrite <- app_assoc.
  - rewrite zlen_app, zlen_cons, zlen_nil. lia.
Qed.

Lemma decode_payload_end len got bs ps n : zlen got < len → zlen got + zlen bs = len →
  decode_from (Decoded (InPayload len got) ps n) bs
  = Decoded (InHeader []) (ps ++ [got ++ bs]) n.
Proof.
  intros Hlt Heq. destruct bs as [|b bs _] using rev_ind; [rewrite zlen_nil in Heq; lia|].
  rewrite decode_from_app, decode_payload_part
    by (rewrite zlen_app, zlen_cons, zlen_nil in Heq; lia).
  cbn [decode_from foldl]. unfold feed. cbn [at_stage payloads discarded].
  rewrite <- app_assoc, zlen_app, Heq, Z.eqb_refl. done.
Qed.

Lemma decode_discard_part len got bs ps n : got + zlen bs < len →
  decode_from (Decoded (InDiscard len got) ps n) bs = Decoded (InDiscard len (got + zlen bs)) ps n.
Proof.
  revert got. induction bs as [|b bs IH]; intros got Hlt.
  { rewrite zlen_nil, Z.add_0_r. done. }
  rewrite zlen_cons in Hlt. pose proof (zlen_nonneg bs). cbn [decode_from foldl].
  unfold feed at 2. cbn [at_stage payloads discarded].
  rewrite (proj2 (Z.eqb_neq _ _)) by lia.
  fold (decode_from (Decoded (InDiscard len (got + 1)) ps n) bs). rewrite IH by lia.
  rewrite zlen_cons. by rewrite Z.add_assoc.
Qed.

Lemma decode_discard_end len got bs ps n : got < len → got + zlen bs = len →
  decode_from (Decoded (InDiscard len got) ps n) bs = Decoded (InHeader []) ps (n + 1).
Proof.
  intros Hlt Heq. destruct bs as [|b bs _] using rev_ind; [rewrite zlen_nil in Heq; lia|].
  rewrite zlen_app, zlen_cons, zlen_nil in Heq.
  rewrite decode_from_app, decode_discard_part by lia.
  cbn [decode_from foldl]. unfold feed. cbn [at_stage payloads discarded].
  by rewrite (proj2 (Z.eqb_eq _ _)) by lia.
Qed.

(** A whole frame, legal or not. *)
Lemma decode_frame m ps n : zlen m < 2 ^ 32 →
  decode_from (Decoded (InHeader []) ps n) (frame m)
  = if legal (zlen m) then Decoded (InHeader []) (ps ++ [m]) n
    else Decoded (InHeader []) ps (n + 1).
Proof.
  intros Hm. pose proof (zlen_nonneg m). unfold frame.
  rewrite decode_from_app, decode_header_end
    by (rewrite ?zlen_u32_bytes, zlen_nil; unfold kHeaderLen; lia).
  cbn [app]. rewrite u32_of_u32_bytes, u32_small by lia. unfold enter, legal, kMaxMessageLen.
  cbn [payloads discarded]. destruct (Z.eqb_spec (zlen m) 0) as [Hz|].
  { by rewrite (zlen_0 m Hz). }
  destruct (Z.ltb_spec 1000000 (zlen m)).
  - rewrite (proj2 (Z.leb_gt (zlen m) _)), andb_false_r by lia. apply decode_discard_end; lia.
  - rewrite (proj2 (Z.leb_le 1 _)), (proj2 (Z.leb_le (zlen m) _)) by lia.
    by rewrite decode_payload_end by (rewrite ?zlen_nil; lia).
Qed.

Lemma decode_framed stream ms ps n : framed stream ms →
  ∃ k, decode_from (Decoded (InHeader []) ps n) stream = Decoded (InHeader []) (ps ++ ms) k.
Proof.
  intros Hf. revert ps n. induction Hf as [|m stream ms Hl _ IH|m stream ms Hl Hm _ IH]; intros ps n.
  - exists n. by rewrite app_nil_r.
  - destruct (IH (ps ++ [m]) n) as [k Hk]. exists k. rewrite decode_from_app, decode_frame, Hl.
    + rewrite Hk. by rewrite <- app_assoc.
    + unfold legal, kMaxMessageLen in Hl. apply andb_prop in Hl as [_ Hl]. apply Z.leb_le in Hl. lia.
  - rewrite decode_from_app, decode_frame, Hl by done. apply IH.
Qed.

(** More bytes only add payloads. *)
Lemma feed_payloads d b : payloads d `prefix_of` payloads (feed d b).
Proof. unfold feed, enter. repeat case_match; cbn; try done. by apply prefix_app_r. Qed.

Lemma decode_from_payloads d stream : payloads d `prefix_of` payloads (decode_from d stream).
Proof.
  revert d. induction stream as [|b stream IH]; intros d; [done|].
  trans (payloads (feed d b)); [apply feed_payloads|apply IH].
Qed.

Lemma decode_prefix s1 s2 : payloads (decode s1) `prefix_of` payloads (decode (s1 ++ s2)).
Proof. rewrite decode_app. apply decode_from_payloads. Qed.

(** The frames of a list of messages. *)
Lemma framed_frames ms : Forall (λ m, zlen m ≤ kMaxMessageLen) ms →
  framed (concat (map frame ms)) (filter (λ m, legal (zlen m) = true) ms).
Proof.
  induction 1 as [|m ms Hm _ IH]; [constructor|]. cbn [map concat]. rewrite filter_cons.
  case_decide as Hl; [by constructor|]. apply framed_other; [by apply not_true_is_false| |done].
  unfold kMaxMessageLen in Hm. lia.
Qed.

Lemma decode_framed_payloads stream ms : framed stream ms → payloads (decode stream) = ms.
Proof.
  intros Hf. destruct (decode_framed stream ms [] 0 Hf) as [k Hk].
  change (decode_from _ stream) with (decode stream) in Hk. by rewrite Hk.
Qed.

(** A part of the stream of some messages. *)
Lemma decode_sent ms sent rest :
  Forall (λ m, zlen m ≤ kMaxMessageLen) ms → sent ++ rest = concat (map frame ms) →
  payloads (decode sent) `prefix_of` filter (λ m, legal (zlen m) = true) ms ∧
  (rest = [] → payloads (decode sent) = filter (λ m, legal (zlen m) = true) ms).
Proof.
  intros Hms Hsent. pose proof (decode_framed_payloads _ _ (framed_frames _ Hms)) as Hdec.
  rewrite <- Hsent in Hdec. split; [rewrite <- Hdec; apply decode_prefix|].
  intros ->. by rewrite app_nil_r in Hdec.
Qed.
End frames.
