(* ===== verification/RxBuffer.v ===== *)
(** * proto/rx_buffer.cpp: the queue of received payloads

    The payloads of complete frames wait in one array, spliced as the prefix of
    a JSON array, with the payload that is still being read behind them:

      [ p1 , p2 , ... , pn ,   part of p(n+1)   free
      0                        complete_len     len       capacity

    [rx_queue rx msgs part] says that [rx] holds the payloads [msgs] and the
    part [part].  The lemmas give each operation's effect on them, and that it
    stays inside the array. *)
From S2P Require Export Frames.

Record rx_buffer := RxBuffer {
  rx_data : bytes;
  rx_len : Z;
  rx_capacity : Z;
  rx_complete_len : Z;
  rx_messages : Z;
}.

Definition rx_can_fit (payload_len : Z) (rx : rx_buffer) : bool :=
  u64 (rx_len rx + payload_len + 1) <=? rx_capacity rx.

(** The caller may write at [tail ()], then [advance]. *)
Definition rx_write_tail (src : bytes) (rx : rx_buffer) : cpp rx_buffer :=
  data ← access (mem_put (rx_len rx) src (rx_data rx));
  mret (RxBuffer data (rx_len rx) (rx_capacity rx) (rx_complete_len rx) (rx_messages rx)).

Definition rx_advance (n : Z) (rx : rx_buffer) : rx_buffer :=
  RxBuffer (rx_data rx) (u64 (rx_len rx + n)) (rx_capacity rx) (rx_complete_len rx)
    (rx_messages rx).

Definition rx_message_complete (rx : rx_buffer) : cpp rx_buffer :=
  data ← access (mem_put (rx_len rx) (chars ",") (rx_data rx));
  let len := u64 (rx_len rx + 1) in
  mret (RxBuffer data len (rx_capacity rx) len (u32 (rx_messages rx + 1))).

(** 0 or [-ENOBUFS]. *)
Definition rx_append (payload : bytes) (rx : rx_buffer) : cpp (Z * rx_buffer) :=
  if negb (rx_can_fit (zlen payload) rx) then mret (- ENOBUFS, rx) else
  rx ← rx_write_tail payload rx;
  rx ← rx_message_complete (rx_advance (zlen payload) rx);
  mret (0, rx).

(** The bytes that the returned pointer and length denote, and the buffer with
    its last comma replaced. *)
Definition rx_poll (rx : rx_buffer) : cpp (bytes * rx_buffer) :=
  if rx_messages rx =? 0 then mret (chars "[]", rx) else
  data ← access (mem_put (rx_complete_len rx - 1) (chars "]") (rx_data rx));
  out ← access (mem_get 0 (rx_complete_len rx) data);
  mret (out, RxBuffer data (rx_len rx) (rx_capacity rx) (rx_complete_len rx) (rx_messages rx)).

Definition rx_drain (rx : rx_buffer) : cpp rx_buffer :=
  if rx_messages rx =? 0 then mret rx else
  let tail := u64 (rx_len rx - rx_complete_len rx) in
  data ← if 0 <? tail
         then part ← access (mem_get (rx_complete_len rx) tail (rx_data rx));
              access (mem_put 1 part (rx_data rx))
         else mret (rx_data rx);
  mret (RxBuffer data (u64 (1 + tail)) (rx_capacity rx) 1 0).

(** [drain_queue] of dbus_util.cpp: copy the batch out, then drop it. *)
Definition drain_queue (queue : rx_buffer) : cpp (bytes * rx_buffer) :=
  '(out, queue) ← rx_poll queue;
  queue ← rx_drain queue;
  mret (out, queue).

Section new.
Context `{Machine}.

Definition rx_new (capacity : Z) : cpp rx_buffer :=
  if capacity <? 2 then Throws "RxBuffer: capacity too small" else
  data ← access (mem_put 0 (chars "[") (new_char capacity));
  mret (RxBuffer data 1 capacity 1 0).
End new.

(** ** What the buffer holds *)

(** Each payload followed by a comma. *)
Definition spliced (msgs : list bytes) : bytes := flat_map (λ m, m ++ chars ",") msgs.

(** The payload texts as a JSON array, which is what [poll] answers. *)
Fixpoint comma_separated (msgs : list bytes) : bytes :=
  match msgs with
  | [] => []
  | [m] => m
  | m :: msgs => m ++ chars "," ++ comma_separated msgs
  end.
Definition json_array (msgs : list bytes) : bytes :=
  chars "[" ++ comma_separated msgs ++ chars "]".

(** Arrays of at most 8 GB: [messages_] counts their payloads without wrapping. *)
Definition max_capacity : Z := 2^33.

Record rx_queue (rx : rx_buffer) (msgs : list bytes) (part : bytes) : Prop := {
  rq_data : ∃ free, rx_data rx = chars "[" ++ spliced msgs ++ part ++ free;
  rq_capacity : rx_capacity rx = zlen (rx_data rx);
  rq_bound : zlen (rx_data rx) ≤ max_capacity;
  rq_complete : rx_complete_len rx = 1 + zlen (spliced msgs);
  rq_len : rx_len rx = 1 + zlen (spliced msgs) + zlen part;
  rq_nonempty : Forall (λ m, m ≠ []) msgs;
  rq_messages : rx_messages rx = zlen msgs;
}.

(** ** Lemmas *)

Lemma spliced_app l k : spliced (l ++ k) = spliced l ++ spliced k.
Proof. apply flat_map_app. Qed.

Lemma spliced_snoc l m : spliced (l ++ [m]) = spliced l ++ m ++ chars ",".
Proof. rewrite spliced_app. cbn. by rewrite app_nil_r. Qed.

(** Two bytes at least per payload. *)
Lemma spliced_count msgs : Forall (λ m, m ≠ []) msgs → 2 * zlen msgs ≤ zlen (spliced msgs).
Proof.
  induction 1 as [|m msgs Hm _ IH]; [done|]. cbn [spliced flat_map].
  fold (spliced msgs). autorewrite with zlen. change (zlen (chars ",")) with 1.
  pose proof (zlen_nonempty m Hm). lia.
Qed.

(** The comma after the last payload turned into the closing bracket. *)
Lemma spliced_last msgs : msgs ≠ [] →
  spliced msgs = comma_separated msgs ++ chars ",".
Proof.
  induction msgs as [|m msgs IH]; [done|]. intros _. cbn [spliced flat_map].
  fold (spliced msgs). destruct msgs as [|m' msgs]; [by rewrite app_nil_r|].
  rewrite IH by done. cbn [comma_separated]. by rewrite <- !app_assoc.
Qed.

Section queue_lemmas.
Context (rx : rx_buffer) (msgs : list bytes) (part : bytes).
Hypothesis Hq : rx_queue rx msgs part.

Lemma rx_queue_bounds :
  0 ≤ zlen (spliced msgs) ∧ 0 ≤ zlen part ∧
  1 + zlen (spliced msgs) + zlen part ≤ rx_capacity rx ≤ max_capacity ∧
  0 ≤ 2 * zlen msgs ≤ zlen (spliced msgs).
Proof.
  destruct Hq as [[free Hdata] -> Hb _ _ Hne _].
  pose proof (spliced_count msgs Hne). pose proof (zlen_nonneg msgs).
  pose proof (zlen_nonneg part). pose proof (zlen_nonneg free).
  rewrite Hdata in *. autorewrite with zlen in *. change (zlen (chars "[")) with 1 in *. lia.
Qed.

Lemma rx_messages_zero : (rx_messages rx =? 0) = bool_decide (msgs = []).
Proof.
  rewrite (rq_messages _ _ _ Hq). destruct msgs as [|m tl]; [done|].
  rewrite zlen_cons, bool_decide_false by done. apply Z.eqb_neq.
  pose proof (zlen_nonneg tl). lia.
Qed.

Lemma rx_can_fit_spec n : 0 ≤ n < 2 ^ 63 →
  rx_can_fit n rx = bool_decide (rx_len rx + n + 1 ≤ rx_capacity rx).
Proof.
  intros Hn. pose proof rx_queue_bounds as Hb. unfold rx_can_fit, max_capacity in *.
  rewrite u64_small by (rewrite (rq_len _ _ _ Hq); lia).
  case_bool_decide; [by apply Z.leb_le|by apply Z.leb_gt; lia].
Qed.

Lemma rx_write_queue src : rx_len rx + zlen src ≤ rx_capacity rx →
  ∃ rx', rx_write_tail src rx = Returns rx' ∧
    rx_queue (rx_advance (zlen src) rx') msgs (part ++ src) ∧ rx_capacity rx' = rx_capacity rx.
Proof.
  intros Hfit. pose proof rx_queue_bounds as Hb. pose proof (zlen_nonneg src).
  destruct Hq as [[free Hdata] Hcap Hbd Hc Hl Hne Hm].
  assert (zlen src ≤ zlen free) as Hfree.
  { rewrite Hl, Hcap, Hdata in Hfit. autorewrite with zlen in Hfit.
    change (zlen (chars "[")) with 1 in *. lia. }
  assert (mem_put (rx_len rx) src (rx_data rx) =
    Some ((chars "[" ++ spliced msgs ++ part) ++ src ++ zdrop (zlen src) free)) as Hput.
  { rewrite Hdata, <- (ztake_zdrop (zlen src) free) at 1. rewrite !(app_assoc _ part).
    rewrite (app_assoc (chars "[")). apply mem_put_app.
    - autorewrite with zlen. change (zlen (chars "[")) with 1. lia.
    - rewrite zlen_ztake by lia. lia. }
  remember (_ ++ src ++ _) as data eqn:Hd in Hput.
  eexists. split; [unfold rx_write_tail; by rewrite Hput|]. split; [|done].
  constructor; cbn -[chars]; try done.
  - exists (zdrop (zlen src) free). rewrite Hd. by rewrite <- !app_assoc.
  - by rewrite (zlen_mem_put _ _ _ _ Hput).
  - by rewrite (zlen_mem_put _ _ _ _ Hput).
  - unfold max_capacity in *. rewrite Hl, u64_small by lia. autorewrite with zlen. lia.
Qed.

Lemma rx_message_complete_queue : part ≠ [] → rx_len rx + 1 ≤ rx_capacity rx →
  ∃ rx', rx_message_complete rx = Returns rx' ∧ rx_queue rx' (msgs ++ [part]) [] ∧
    rx_capacity rx' = rx_capacity rx.
Proof.
  intros Hpart Hfit. pose proof rx_queue_bounds as Hb.
  pose proof (zlen_nonempty part Hpart). pose proof (rq_len _ _ _ Hq) as Hlen.
  destruct (rx_write_queue (chars ",") Hfit) as (rx' & Hput & Hq' & Hcap').
  unfold rx_write_tail, rx_message_complete in *.
  destruct (mem_put _ _ _) as [data|] eqn:Hd; [|done]. cbn -[chars] in *.
  injection Hput as <-. eexists. split; [done|]. split; [|done].
  destruct Hq' as [[free Hdata] Hcap Hbd Hc Hl Hne Hm]. cbn -[chars] in *.
  rewrite <- app_assoc in Hdata. unfold max_capacity in *.
  constructor; cbn; try done.
  - exists free. rewrite spliced_snoc, Hdata. by rewrite <- !app_assoc.
  - change (zlen (chars ",")) with 1 in Hl. rewrite Hl, spliced_snoc. autorewrite with zlen.
    change (zlen (chars ",")) with 1. lia.
  - change (zlen (chars ",")) with 1 in Hl. rewrite Hl, spliced_snoc. autorewrite with zlen.
    change (zlen (chars ",")) with 1. lia.
  - by apply Forall_app_2; [|constructor].
  - rewrite Hm, u32_small by lia. autorewrite with zlen. lia.
Qed.

Lemma drain_queue_spec :
  ∃ rx', drain_queue rx = Returns (json_array msgs, rx') ∧ rx_queue rx' [] part ∧
    rx_capacity rx' = rx_capacity rx.
Proof.
  pose proof rx_queue_bounds as Hb. unfold drain_queue, rx_poll, rx_drain.
  rewrite rx_messages_zero. case_bool_decide as Hmsgs.
  { cbn. rewrite rx_messages_zero, bool_decide_true by done. cbn.
    exists rx. split; [|by rewrite <- Hmsgs]. by rewrite Hmsgs. }
  destruct Hq as [[free Hdata] Hcap Hbd Hc Hl Hne Hm].
  pose proof (spliced_last msgs Hmsgs) as Hlast.
  assert (zlen (spliced msgs) = zlen (comma_separated msgs) + 1) as Hlen
    by (by rewrite Hlast, zlen_app).
  set (data := (chars "[" ++ comma_separated msgs ++ chars "]") ++ part ++ free).
  assert (mem_put (rx_complete_len rx - 1) (chars "]") (rx_data rx) = Some data) as ->.
  { rewrite Hdata, Hlast. unfold data. rewrite <- !app_assoc, !(app_assoc (chars "[")).
    apply mem_put_app; [|done]. autorewrite with zlen. change (zlen (chars "[")) with 1. lia. }
  cbn -[mem_get mem_put chars].
  rewrite (mem_get_app [] (chars "[" ++ comma_separated msgs ++ chars "]") (part ++ free))
    by (autorewrite with zlen; change (zlen (chars _)) with 1; lia).
  cbn -[mem_get mem_put chars]. rewrite rx_messages_zero, bool_decide_false by done.
  cbn -[mem_get mem_put chars].
  unfold max_capacity in *.
  assert (u64 (rx_len rx - rx_complete_len rx) = zlen part) as ->
    by (rewrite u64_small by lia; lia).
  assert (zlen data = rx_capacity rx) as Hdlen.
  { rewrite Hcap, Hdata. unfold data. rewrite Hlast. autorewrite with zlen.
    change (zlen (chars _)) with 1. lia. }
  assert (mem_get (rx_complete_len rx) (zlen part) data = Some part) as Hpart.
  { unfold data. apply mem_get_app; [|done]. autorewrite with zlen.
    change (zlen (chars _)) with 1. lia. }
  assert (∃ rest, data = chars "[" ++ rest) as [rest Hrest]
    by (unfold data; rewrite <- !app_assoc; by eexists).
  clearbody data. destruct (0 <? zlen part) eqn:Hp.
  - rewrite Hpart. cbn -[mem_get mem_put chars].
    destruct (mem_put_is_Some 1 part data) as [data' Hput]; [lia..|].
    rewrite Hput. eexists. split; [done|]. split; [|done].
    constructor; cbn -[chars]; try done.
    + exists (zdrop (1 + zlen part) data). apply mem_put_Some in Hput as (_&_&->).
      by rewrite Hrest.
    + by rewrite (zlen_mem_put _ _ _ _ Hput).
    + rewrite (zlen_mem_put _ _ _ _ Hput). unfold max_capacity. lia.
    + rewrite u64_small by lia. rewrite zlen_nil. lia.
  - apply Z.ltb_ge in Hp. assert (part = []) as -> by (apply zlen_0; lia).
    cbn. eexists. split; [done|]. split; [|done].
    constructor; cbn; try done; [by exists rest|unfold max_capacity; lia].
Qed.
End queue_lemmas.

Lemma rx_append_queue rx msgs p : rx_queue rx msgs [] → p ≠ [] → zlen p < 2 ^ 63 →
  rx_len rx + zlen p + 1 ≤ rx_capacity rx →
  ∃ rx', rx_append p rx = Returns (0, rx') ∧ rx_queue rx' (msgs ++ [p]) [] ∧
    rx_capacity rx' = rx_capacity rx.
Proof.
  intros Hq Hp Hlen Hfit. pose proof (zlen_nonneg p). unfold rx_append.
  rewrite (rx_can_fit_spec _ _ _ Hq), bool_decide_true by (done || lia). cbn [negb].
  destruct (rx_write_queue _ _ _ Hq p) as (rx1 & -> & Hq1 & Hc1); [lia|]. cbn [mbind cpp_bind].
  destruct (rx_message_complete_queue _ _ _ Hq1 Hp) as (rx2 & -> & Hq2 & Hc2).
  { cbn. pose proof (rq_len _ _ _ Hq1) as Hl. cbn in Hl.
    rewrite (rq_len _ _ _ Hq), zlen_nil in Hfit. autorewrite with zlen in Hl. rewrite Hl. lia. }
  eexists. split; [done|]. split; [done|]. by rewrite Hc2; cbn.
Qed.

Lemma rx_append_full rx msgs p : rx_queue rx msgs [] → zlen p < 2 ^ 63 →
  rx_capacity rx < rx_len rx + zlen p + 1 → rx_append p rx = Returns (- ENOBUFS, rx).
Proof.
  intros Hq Hlen Hfit. pose proof (zlen_nonneg p). unfold rx_append.
  by rewrite (rx_can_fit_spec _ _ _ Hq), bool_decide_false by lia.
Qed.

Lemma rx_new_queue `{MachineLaws} capacity : 2 ≤ capacity ≤ max_capacity →
  ∃ rx, rx_new capacity = Returns rx ∧ rx_queue rx [] [] ∧ rx_capacity rx = capacity.
Proof.
  intros Hc. unfold rx_new. rewrite (proj2 (Z.ltb_ge _ _)) by lia.
  assert (zlen (new_char capacity) = capacity) as Hn by (apply new_char_zlen; lia).
  destruct (new_char capacity) as [|b free]; [rewrite zlen_nil in Hn; lia|].
  rewrite (mem_put_app [] [b] (chars "[") free) by done.
  eexists. split; [done|]. split; [|done]. rewrite zlen_cons in Hn.
  constructor; cbn -[zlen]; try done; rewrite ?zlen_cons; try lia. by exists free.
Qed.
