(* ===== verification/TxBuffer.v ===== *)
(** * proto/tx_buffer.cpp: the queue of frames to send

    A ring of [tx_capacity] bytes: [tx_head] is the next byte to send,
    [tx_tail] the next to write, [tx_len] the number of bytes queued.
    [tx_queue tx q] says that the ring holds the bytes [q], oldest first: the
    abstract state is a bounded FIFO of bytes, to which [push] appends a frame
    and from which [flush] takes what the kernel accepts. *)
From S2P Require Export Frames.

Record tx_buffer := TxBuffer {
  tx_data : bytes;
  tx_capacity : Z;
  tx_head : Z;
  tx_tail : Z;
  tx_len : Z;
}.

(** The answer of one [send ()]: it accepts at most [n] bytes (at least one, as
    send(2) does for a non-empty buffer), or fails. *)
Inductive send_answer :=
| Accepted (n : Z)
| SendFailed (errno : Z).

Section tx.
Context `{Machine}.

Definition tx_new (capacity : Z) : cpp tx_buffer :=
  if capacity <? kHeaderLen + 1 then Throws "TxBuffer: capacity too small" else
  mret (TxBuffer (new_char capacity) capacity 0 0 0).

Fixpoint write_ring_loop (fuel : nat) (src : bytes) (tx : tx_buffer) : cpp tx_buffer :=
  if zlen src <=? 0 then mret tx else
  match fuel with
  | O => Unfinished
  | S fuel =>
    let chunk := Z.min (zlen src) (u64 (tx_capacity tx - tx_tail tx)) in
    data ← access (mem_put (tx_tail tx) (ztake chunk src) (tx_data tx));
    write_ring_loop fuel (zdrop chunk src)
      (TxBuffer data (tx_capacity tx) (tx_head tx)
        (u64 (tx_tail tx + chunk) mod tx_capacity tx) (u64 (tx_len tx + chunk)))
  end.

(** Every iteration copies a byte at least. *)
Definition write_ring (src : bytes) (tx : tx_buffer) : cpp tx_buffer :=
  write_ring_loop (length src) src tx.

(** 0, [-EMSGSIZE] or [-ENOBUFS]. *)
Definition tx_push (msg : bytes) (tx : tx_buffer) : cpp (Z * tx_buffer) :=
  let len := zlen msg in
  if kMaxMessageLen <? len then mret (- EMSGSIZE, tx) else
  if tx_capacity tx <? u64 (tx_len tx + kHeaderLen + len) then mret (- ENOBUFS, tx) else
  let wire_len := u32 len in
  tx ← write_ring (u32_bytes wire_len) tx;
  tx ← write_ring msg tx;
  mret (0, tx).

Definition tx_pending (tx : tx_buffer) : bool := 0 <? tx_len tx.

(** [if (len_ == 0) head_ = tail_ = 0] *)
Definition tx_rewind (tx : tx_buffer) : tx_buffer :=
  if tx_len tx =? 0 then TxBuffer (tx_data tx) (tx_capacity tx) 0 0 (tx_len tx) else tx.

(** The kernel answers each [send ()] of the loop; when there are no more
    answers the socket is full (EAGAIN).  What it returns, the bytes that the
    kernel took, and the buffer. *)
Fixpoint tx_flush_loop (answers : list send_answer) (written : Z) (sent : bytes)
    (tx : tx_buffer) : cpp (Z * bytes * tx_buffer) :=
  if negb (0 <? tx_len tx) then mret (written, sent, tx_rewind tx) else
  let chunk := Z.min (tx_len tx) (u64 (tx_capacity tx - tx_head tx)) in
  bytes ← access (mem_get (tx_head tx) chunk (tx_data tx));
  match answers with
  | [] => mret (written, sent, tx_rewind tx)
  | Accepted n :: answers =>
    let n := Z.max 1 (Z.min n chunk) in
    tx_flush_loop answers (written + n) (sent ++ ztake n bytes)
      (TxBuffer (tx_data tx) (tx_capacity tx) (u64 (tx_head tx + n) mod tx_capacity tx)
        (tx_tail tx) (u64 (tx_len tx - n)))
  | SendFailed errno :: answers =>
    if errno =? EINTR then tx_flush_loop answers written sent tx else
    if errno =? EAGAIN then mret (written, sent, tx_rewind tx) else
    mret (- errno, sent, tx)
  end.

Definition tx_flush (answers : list send_answer) (tx : tx_buffer) : cpp (Z * bytes * tx_buffer) :=
  tx_flush_loop answers 0 [] tx.

(** ** What the ring holds *)

(** The position of the [i]th queued byte. *)
Definition ring_pos (tx : tx_buffer) (i : Z) : Z := (tx_head tx + i) mod tx_capacity tx.

Record tx_queue (tx : tx_buffer) (q : bytes) : Prop := {
  tq_capacity : tx_capacity tx = zlen (tx_data tx);
  tq_bound : 0 < tx_capacity tx < 2 ^ 63;
  tq_head : 0 ≤ tx_head tx < tx_capacity tx;
  tq_tail : tx_tail tx = ring_pos tx (tx_len tx);
  tq_len : tx_len tx = zlen q;
  tq_fits : tx_len tx ≤ tx_capacity tx;
  tq_bytes i : 0 ≤ i < zlen q → tx_data tx !! Z.to_nat (ring_pos tx i) = q !! Z.to_nat i;
}.

(** ** Lemmas *)

Lemma mod_wrap x c : 0 ≤ x < 2 * c → x mod c = if decide (x < c) then x else x - c.
Proof.
  intros Hx. case_decide; [apply Z.mod_small; lia|].
  symmetry. apply (Z.mod_unique_pos _ _ 1); lia.
Qed.

(** One [memcpy] of the ring: it does not wrap and does not reach the head. *)
Lemma ring_write tx q src : tx_queue tx q → 0 < zlen src →
  tx_tail tx + zlen src ≤ tx_capacity tx → tx_len tx + zlen src ≤ tx_capacity tx →
  ∃ data, mem_put (tx_tail tx) src (tx_data tx) = Some data ∧
    tx_queue (TxBuffer data (tx_capacity tx) (tx_head tx)
      (u64 (tx_tail tx + zlen src) mod tx_capacity tx) (u64 (tx_len tx + zlen src))) (q ++ src).
Proof.
  intros [Hcap Hb Hh Ht Hl Hf Hq] Hs Hfit Hroom. unfold ring_pos in *.
  pose proof (zlen_nonneg q). rewrite mod_wrap in Ht by lia.
  destruct (mem_put_is_Some (tx_tail tx) src (tx_data tx)) as [data Hput];
    [case_decide; lia|lia|].
  exists data. split; [done|]. constructor; unfold ring_pos; cbn.
  - by rewrite (zlen_mem_put _ _ _ _ Hput).
  - done.
  - done.
  - rewrite !u64_small by (repeat case_decide; lia). rewrite !mod_wrap by (repeat case_decide; lia).
    repeat case_decide; lia.
  - rewrite zlen_app, u64_small by lia. lia.
  - rewrite u64_small by lia. lia.
  - rewrite zlen_app. intros i Hi. rewrite (mem_put_lookup _ _ _ _ _ Hput)
      by (apply Z.mod_pos_bound; lia).
    rewrite mod_wrap by lia. destruct (decide (i < zlen q)) as [Hi'|Hi'].
    + rewrite lookup_app_l by (unfold zlen in *; lia). rewrite <- Hq by lia.
      rewrite mod_wrap by lia. rewrite decide_False; [done|].
      repeat case_decide; lia.
    + rewrite lookup_app_r by (unfold zlen in *; lia). rewrite decide_True.
      * f_equal. unfold zlen in *. repeat case_decide; lia.
      * repeat case_decide; lia.
Qed.

Lemma write_ring_loop_queue fuel src tx q : tx_queue tx q →
  tx_len tx + zlen src ≤ tx_capacity tx → (length src ≤ fuel)%nat →
  ∃ tx', write_ring_loop fuel src tx = Returns tx' ∧ tx_queue tx' (q ++ src) ∧
    tx_capacity tx' = tx_capacity tx.
Proof.
  revert src tx q. induction fuel as [|fuel IH]; intros src tx q Hq Hroom Hfuel.
  - destruct src; [|cbn in Hfuel; lia]. exists tx. by rewrite app_nil_r.
  - cbn [write_ring_loop]. destruct (Z.leb_spec (zlen src) 0) as [Hs|Hs].
    { rewrite (zlen_0 src), app_nil_r by (pose proof (zlen_nonneg src); lia). by exists tx. }
    pose proof Hq as [Hcap Hb Hh Ht Hl Hf _].
    assert (0 ≤ tx_tail tx < tx_capacity tx) as Htail
      by (rewrite Ht; apply Z.mod_pos_bound; lia).
    rewrite u64_small by lia.
    pose proof (zlen_nonneg q).
    set (chunk := Z.min _ _). assert (0 < chunk ≤ zlen src) as Hchunk by lia.
    assert (zlen (ztake chunk src) = chunk) as Hlen by (rewrite zlen_ztake; lia).
    destruct (ring_write tx q (ztake chunk src)) as (data & Hput & Hq'); [done|lia..|].
    rewrite Hlen in Hq'. rewrite Hput. cbn [access mbind cpp_bind].
    destruct (IH (zdrop chunk src) _ _ Hq') as (tx' & Hw & Hq'' & Hc').
    + cbn. rewrite u64_small by lia. rewrite zlen_zdrop by lia. lia.
    + unfold zdrop. rewrite length_drop. lia.
    + exists tx'. split; [done|]. by rewrite <- app_assoc, ztake_zdrop in Hq''.
Qed.

Lemma write_ring_queue src tx q : tx_queue tx q → tx_len tx + zlen src ≤ tx_capacity tx →
  ∃ tx', write_ring src tx = Returns tx' ∧ tx_queue tx' (q ++ src) ∧
    tx_capacity tx' = tx_capacity tx.
Proof. intros. by apply write_ring_loop_queue. Qed.

Lemma tx_push_queue msg tx q : tx_queue tx q → zlen msg ≤ kMaxMessageLen →
  zlen q + kHeaderLen + zlen msg ≤ tx_capacity tx →
  ∃ tx', tx_push msg tx = Returns (0, tx') ∧ tx_queue tx' (q ++ frame msg) ∧
    tx_capacity tx' = tx_capacity tx.
Proof.
  intros Hq Hmax Hfit. pose proof Hq as [_ Hb _ _ Hl _ _].
  pose proof (zlen_nonneg msg). pose proof (zlen_nonneg q).
  unfold kHeaderLen, kMaxMessageLen in *. unfold tx_push, kHeaderLen, kMaxMessageLen.
  rewrite (proj2 (Z.ltb_ge _ _)) by lia. rewrite u64_small by lia.
  rewrite (proj2 (Z.ltb_ge _ _)) by lia. rewrite u32_small by lia.
  destruct (write_ring_queue (u32_bytes (zlen msg)) tx q) as (tx1 & -> & Hq1 & Hc1);
    [done|rewrite zlen_u32_bytes; lia|].
  cbn [mbind cpp_bind]. pose proof (tq_len _ _ Hq1) as Hl1.
  rewrite zlen_app, zlen_u32_bytes in Hl1.
  destruct (write_ring_queue msg tx1 _ Hq1) as (tx2 & -> & Hq2 & Hc2); [lia|].
  exists tx2. split; [done|]. split; [|congruence]. by rewrite <- app_assoc in Hq2.
Qed.

Lemma tx_push_refused msg tx q : tx_queue tx q →
  kMaxMessageLen < zlen msg ∨ tx_capacity tx < zlen q + kHeaderLen + zlen msg →
  tx_push msg tx = Returns (if kMaxMessageLen <? zlen msg then - EMSGSIZE else - ENOBUFS, tx).
Proof.
  intros Hq Hwhy. pose proof Hq as [_ Hb _ _ Hl Hf _].
  pose proof (zlen_nonneg msg). pose proof (zlen_nonneg q).
  unfold tx_push. destruct (Z.ltb_spec kMaxMessageLen (zlen msg)); [done|].
  unfold kHeaderLen, kMaxMessageLen in *. rewrite u64_small by lia.
  by rewrite (proj2 (Z.ltb_lt _ _)) by lia.
Qed.

Lemma tx_rewind_queue tx q : tx_queue tx q → tx_queue (tx_rewind tx) q.
Proof.
  intros Hq. unfold tx_rewind. destruct (Z.eqb_spec (tx_len tx) 0) as [Hz|]; [|done].
  destruct Hq as [Hcap Hb Hh Ht Hl Hf Hq].
  constructor; unfold ring_pos; cbn; try done; try lia.
  rewrite Hz. symmetry. apply Z.mod_small. lia.
Qed.

Lemma tx_rewind_capacity tx : tx_capacity (tx_rewind tx) = tx_capacity tx.
Proof. unfold tx_rewind. by case_match. Qed.

(** What one [send ()] reads is the front of the queue. *)
Lemma ring_read tx q n : tx_queue tx q → 0 ≤ n ≤ zlen q → tx_head tx + n ≤ tx_capacity tx →
  mem_get (tx_head tx) n (tx_data tx) = Some (ztake n q).
Proof.
  intros [Hcap Hb Hh Ht Hl Hf Hq] Hn Hfit. unfold mem_get.
  rewrite decide_True by lia. f_equal. apply list_eq. intros i.
  unfold ztake, zdrop. destruct (decide (i < Z.to_nat n)%nat) as [Hi|Hi].
  - rewrite !lookup_take_lt by lia. rewrite lookup_drop.
    specialize (Hq (Z.of_nat i)). unfold ring_pos in Hq. rewrite Nat2Z.id in Hq.
    rewrite <- Hq by lia. rewrite Z.mod_small by lia. f_equal. lia.
  - by rewrite !lookup_take_ge by lia.
Qed.

(** The kernel took [n] bytes. *)
Lemma ring_advance tx q n : tx_queue tx q → 0 ≤ n ≤ zlen q →
  tx_queue (TxBuffer (tx_data tx) (tx_capacity tx) (u64 (tx_head tx + n) mod tx_capacity tx)
    (tx_tail tx) (u64 (tx_len tx - n))) (zdrop n q).
Proof.
  intros [Hcap Hb Hh Ht Hl Hf Hq] Hn. unfold ring_pos in *.
  rewrite !u64_small by lia.
  constructor; unfold ring_pos; cbn; try done.
  - apply Z.mod_pos_bound. lia.
  - rewrite Ht, Zplus_mod_idemp_l. f_equal. lia.
  - rewrite zlen_zdrop by lia. lia.
  - lia.
  - intros i. rewrite zlen_zdrop by lia. intros Hi. rewrite Zplus_mod_idemp_l.
    rewrite <- Z.add_assoc, Hq by lia. unfold zdrop. rewrite lookup_drop. f_equal. lia.
Qed.

(** How a flush ends: everything that was queued is sent, the socket is full,
    or [send] failed hard. *)
Definition flush_result (answers : list send_answer) (sent : Z) (ret : Z) : Prop :=
  ret = sent ∨ ∃ e, SendFailed e ∈ answers ∧ e ≠ EINTR ∧ e ≠ EAGAIN ∧ ret = - e.

Lemma tx_flush_loop_queue answers written sent tx q : tx_queue tx q →
  ∃ ret out q' tx', tx_flush_loop answers written sent tx = Returns (ret, sent ++ out, tx') ∧
    q = out ++ q' ∧ tx_queue tx' q' ∧ tx_capacity tx' = tx_capacity tx ∧
    flush_result answers (written + zlen out) ret.
Proof.
  revert written sent tx q. induction answers as [|a answers IH]; intros written sent tx q Hq.
  all: cbn [tx_flush_loop]; pose proof Hq as [_ Hb Hh _ Hl _ _].
  all: destruct (Z.ltb_spec 0 (tx_len tx)) as [Hlen|Hlen]; cbn [negb].
  2, 4: exists written, [], q, (tx_rewind tx); rewrite app_nil_r, zlen_nil, Z.add_0_r;
    split_and!; auto using tx_rewind_queue, tx_rewind_capacity; by left.
  all: rewrite u64_small by lia; set (chunk := Z.min _ _);
    rewrite (ring_read tx q chunk Hq) by lia; cbn [access mbind cpp_bind].
  - exists written, [], q, (tx_rewind tx). rewrite app_nil_r, zlen_nil, Z.add_0_r.
    split_and!; auto using tx_rewind_queue, tx_rewind_capacity. by left.
  - destruct a as [n|e].
    + set (m := Z.max 1 (Z.min n chunk)). assert (0 < m ≤ zlen q) as Hm by lia.
      destruct (IH (written + m) (sent ++ ztake m (ztake chunk q)) _ _ (ring_advance tx q m Hq
        ltac:(lia))) as (ret & out & q' & tx' & -> & Hout & Hq' & Hc & Hret).
      assert (ztake m (ztake chunk q) = ztake m q) as ->
        by (unfold ztake; rewrite take_take; f_equal; lia).
      exists ret, (ztake m q ++ out), q', tx'. split_and!; try done.
      * by rewrite <- app_assoc.
      * rewrite <- app_assoc, <- Hout. symmetry. apply ztake_zdrop.
      * rewrite zlen_app, zlen_ztake, Z.min_l, Z.add_assoc by lia.
        destruct Hret as [?|(e & He & Hr)]; [by left|right]. exists e. split; [by right|done].
    + destruct (Z.eqb_spec e EINTR) as [He|He]; [|destruct (Z.eqb_spec e EAGAIN) as [Ha|Ha]].
      * destruct (IH written sent tx q Hq) as (ret & out & q' & tx' & -> & ? & ? & ? & Hret).
        exists ret, out, q', tx'. split_and!; try done.
        destruct Hret as [?|(e' & He' & Hr)]; [by left|right]. exists e'. split; [by right|done].
      * exists written, [], q, (tx_rewind tx). rewrite app_nil_r, zlen_nil, Z.add_0_r.
        split_and!; auto using tx_rewind_queue, tx_rewind_capacity. by left.
      * exists (- e), [], q, tx. rewrite app_nil_r. split_and!; try done.
        right. exists e. split; [left|done].
Qed.

Lemma tx_flush_queue answers tx q : tx_queue tx q →
  ∃ ret sent q' tx', tx_flush answers tx = Returns (ret, sent, tx') ∧
    q = sent ++ q' ∧ tx_queue tx' q' ∧ tx_capacity tx' = tx_capacity tx ∧
    flush_result answers (zlen sent) ret.
Proof.
  intros Hq. destruct (tx_flush_loop_queue answers 0 [] tx q Hq)
    as (ret & out & q' & tx' & Hf & Hr). by exists ret, out, q', tx'.
Qed.

Lemma tx_new_queue `{!MachineLaws H} capacity : kHeaderLen + 1 ≤ capacity < 2 ^ 63 →
  ∃ tx, tx_new capacity = Returns tx ∧ tx_queue tx [] ∧ tx_capacity tx = capacity.
Proof.
  intros Hc. unfold tx_new. rewrite (proj2 (Z.ltb_ge _ _)) by lia. unfold kHeaderLen in Hc.
  eexists. split; [done|]. split; [|done].
  constructor; unfold ring_pos; cbn -[zlen]; rewrite ?zlen_nil; try lia.
  - by rewrite new_char_zlen by lia.
  - by rewrite Z.mod_small by lia.
  - done.
  - intros i Hi. unfold zlen in Hi. cbn [length] in Hi. lia.
Qed.
End tx.
