(* ===== verification/ProtoClient.v ===== *)
(** * proto/client.cpp: the frame decoder of one connection

    [client] is the class [Client]: the decoder's state machine and the two
    buffers.  [client_read] is one call of [Client::read], against a kernel
    that has bytes of the peer at hand ([inbound]) and answers each read(2)
    from [answers]; when there are no more answers the socket is empty
    (EAGAIN).

    [client_holds c d queued] relates a client to the reference decoder of
    Frames.v: [d] has consumed the bytes that the client has, of its payloads
    [queued] are still in the RX buffer, and the bytes of the payload in
    progress are in the buffer behind them. *)
From S2P Require Export RxBuffer TxBuffer.

(** ** The kernel's side of read(2) *)

Inductive read_answer :=
| Ready (n : Z)
| PeerClosed
| ReadFailed (errno : Z).

Record kernel := Kernel {
  inbound : bytes;
  answers : list read_answer;
}.

(** The return value, errno, the bytes stored, and what is left. *)
Definition sys_read (want : Z) (a : read_answer) (inbound : bytes) : Z * Z * bytes * bytes :=
  match a with
  | Ready n =>
    let n := Z.max 0 (Z.min n (Z.min want (zlen inbound))) in
    if n =? 0 then ((if want =? 0 then 0 else -1), EAGAIN, [], inbound)
    else (n, 0, ztake n inbound, zdrop n inbound)
  | PeerClosed => (0, 0, [], inbound)
  | ReadFailed errno => (-1, errno, [], inbound)
  end.

(** [do { n = ::read (fd_, dst, want); } while (n < 0 && errno == EINTR)] *)
Fixpoint read_retry (want : Z) (inbound : bytes) (answers : list read_answer)
    : Z * Z * bytes * kernel :=
  match answers with
  | [] => (-1, EAGAIN, [], Kernel inbound [])
  | a :: answers =>
    let '(n, errno, bs, inbound) := sys_read want a inbound in
    if (n <? 0) && (errno =? EINTR) then read_retry want inbound answers
    else (n, errno, bs, Kernel inbound answers)
  end.

(** ** The class *)

Inductive read_result := progress | again | paused | eof | error.
#[export] Instance read_result_eq_dec : EqDecision read_result.
Proof. solve_decision. Defined.

Inductive rx_stage := header | payload | discard_oversized.

Record client := Client {
  cl_fd : Z;
  cl_rx_state : rx_stage;
  cl_msg_len : Z;
  cl_have_read : Z;
  cl_rx_paused : bool;
  cl_discarded_frames : Z;
  cl_rx : rx_buffer;
  cl_tx : tx_buffer;
}.

Definition kDiscardChunk : Z := 4096.

Definition map_read_result (n errno : Z) : read_result :=
  if 0 <? n then progress else if n =? 0 then eof
  else if errno =? EAGAIN then again else error.

Definition rx_resume (c : client) : client :=
  Client (cl_fd c) (cl_rx_state c) (cl_msg_len c) (cl_have_read c) false
    (cl_discarded_frames c) (cl_rx c) (cl_tx c).

(** [rx_state_ = stage; have_read_ = have] *)
Definition at_state (stage : rx_stage) (have : Z) (c : client) : client :=
  Client (cl_fd c) stage (cl_msg_len c) have (cl_rx_paused c) (cl_discarded_frames c)
    (cl_rx c) (cl_tx c).

Definition with_rx (rx : rx_buffer) (c : client) : client :=
  Client (cl_fd c) (cl_rx_state c) (cl_msg_len c) (cl_have_read c) (cl_rx_paused c)
    (cl_discarded_frames c) rx (cl_tx c).

Definition with_tx (tx : tx_buffer) (c : client) : client :=
  Client (cl_fd c) (cl_rx_state c) (cl_msg_len c) (cl_have_read c) (cl_rx_paused c)
    (cl_discarded_frames c) (cl_rx c) tx.

(** [++discarded_frames_] *)
Definition count_discarded (c : client) : client :=
  Client (cl_fd c) (cl_rx_state c) (cl_msg_len c) (cl_have_read c) (cl_rx_paused c)
    (u64 (cl_discarded_frames c + 1)) (cl_rx c) (cl_tx c).

Definition pause (c : client) : client :=
  Client (cl_fd c) (cl_rx_state c) (cl_msg_len c) (cl_have_read c) true
    (cl_discarded_frames c) (cl_rx c) (cl_tx c).

Section client.
Context `{Machine}.

Definition client_new (fd rx_cap tx_cap : Z) : cpp client :=
  rx ← rx_new (if rx_cap =? 0 then kDefaultBufferCap else rx_cap);
  tx ← tx_new (if tx_cap =? 0 then kDefaultBufferCap else tx_cap);
  mret (Client fd header 0 0 false 0 rx tx).

Definition client_push (msg : bytes) (c : client) : cpp (Z * client) :=
  if cl_fd c <? 0 then mret (- ENOTCONN, c) else
  '(r, tx) ← tx_push msg (cl_tx c);
  mret (r, with_tx tx c).

Definition client_flush (answers : list send_answer) (c : client) : cpp (Z * bytes * client) :=
  if cl_fd c <? 0 then mret (- ENOTCONN, [], c) else
  '(n, sent, tx) ← tx_flush answers (cl_tx c);
  mret (n, sent, with_tx tx c).

(** The missing bytes of the header, written over [msg_len_]: a result to
    return, or [None] when the header is complete. *)
Definition read_header (c : client) (k : kernel) : cpp (option read_result * client * kernel) :=
  if negb (cl_have_read c <? kHeaderLen) then mret (None, c, k) else
  let want := kHeaderLen - cl_have_read c in
  let '(n, errno, bs, k) := read_retry want (inbound k) (answers k) in
  let r := map_read_result n errno in
  if decide (r ≠ progress) then mret (Some r, c, k) else
  buffer ← access (mem_put (cl_have_read c) bs (u32_bytes (cl_msg_len c)));
  let c := Client (cl_fd c) (cl_rx_state c) (u32_of_bytes buffer)
    (u32 (cl_have_read c + u32 n)) (cl_rx_paused c) (cl_discarded_frames c)
    (cl_rx c) (cl_tx c) in
  mret (if cl_have_read c <? kHeaderLen then Some progress else None, c, k).

(** A read of payload bytes into the tail of the RX buffer, where there must be
    room for all that is asked for. *)
Definition read_payload (c : client) (k : kernel) : cpp (read_result * client * kernel) :=
  let want := u32 (cl_msg_len c - cl_have_read c) in
  _ ← access (mem_get (rx_len (cl_rx c)) want (rx_data (cl_rx c)));
  let '(n, errno, bs, k) := read_retry want (inbound k) (answers k) in
  let r := map_read_result n errno in
  if decide (r ≠ progress) then mret (r, c, k) else
  let have := u32 (cl_have_read c + u32 n) in
  rx ← rx_write_tail bs (cl_rx c);
  let c := at_state payload have (with_rx (rx_advance n rx) c) in
  if have =? cl_msg_len c then
    rx ← rx_message_complete (cl_rx c);
    mret (progress, at_state header 0 (with_rx rx c), k)
  else mret (progress, c, k).

(** A read of at most [kDiscardChunk] bytes that are dropped. *)
Definition read_discard (c : client) (k : kernel) : cpp (read_result * client * kernel) :=
  let remaining := u32 (cl_msg_len c - cl_have_read c) in
  let want := Z.min remaining kDiscardChunk in
  let '(n, errno, _, k) := read_retry want (inbound k) (answers k) in
  let r := map_read_result n errno in
  if decide (r ≠ progress) then mret (r, c, k) else
  let have := u32 (cl_have_read c + u32 n) in
  let c := at_state discard_oversized have c in
  if have =? cl_msg_len c then mret (progress, at_state header 0 (count_discarded c), k)
  else mret (progress, c, k).

(** The [for (;;)] of [read]: it goes round for a frame of length 0 only. *)
Fixpoint client_read_loop (fuel : nat) (c : client) (k : kernel)
    : cpp (read_result * client * kernel) :=
  match fuel with
  | O => Unfinished
  | S fuel =>
    match cl_rx_state c with
    | header =>
      '(r, c, k) ← read_header c k;
      match r with
      | Some r => mret (r, c, k)
      | None =>
        if cl_msg_len c =? 0 then
          client_read_loop fuel (at_state header 0 (count_discarded c)) k
        else if kMaxMessageLen <? cl_msg_len c then
          mret (progress, at_state discard_oversized 0 c, k)
        else if rx_can_fit (cl_msg_len c) (cl_rx c) then
          mret (progress, at_state payload 0 c, k)
        else mret (paused, pause c, k)
      end
    | payload => read_payload c k
    | discard_oversized => read_discard c k
    end
  end.

(** Every further round has taken an answer of the kernel. *)
Definition client_read (c : client) (k : kernel) : cpp (read_result * client * kernel) :=
  if cl_fd c <? 0 then mret (error, c, k) else
  if cl_rx_paused c then mret (paused, c, k) else
  client_read_loop (S (length (answers k))) c k.
End client.
