(* ===== verification/ClientInv.v ===== *)
(** * The decoder against the reference decoder

    [client_holds c d delivered queued]: the bytes that the client [c] has
    consumed take the reference decoder to [d]; of the payloads of [d],
    [queued] are still in the RX buffer.  [client_read_holds] says that a call
    of [read], whatever the kernel answers, keeps this for the bytes it takes
    off the socket, returns, and leaves no array. *)
From S2P Require Export ProtoClient.

Section inv.
Context `{Machine}.

(** The state machine at a stage of the reference decoder, with [part] of a
    payload in the RX buffer.  A complete header with no room for its payload
    waits in state [header]. *)
Definition stage_holds (c : client) (part : bytes) (st : stage) : Prop :=
  0 ≤ cl_msg_len c < 2 ^ 32 ∧
  match cl_rx_state c with
  | header => part = [] ∧
    ((0 ≤ cl_have_read c < kHeaderLen ∧ cl_rx_paused c = false ∧
      st = InHeader (ztake (cl_have_read c) (u32_bytes (cl_msg_len c)))) ∨
     (cl_have_read c = kHeaderLen ∧ 1 ≤ cl_msg_len c ≤ kMaxMessageLen ∧
      st = InPayload (cl_msg_len c) []))
  | payload =>
    cl_have_read c = zlen part ∧ zlen part < cl_msg_len c ≤ kMaxMessageLen ∧
    cl_rx_paused c = false ∧ st = InPayload (cl_msg_len c) part ∧
    rx_len (cl_rx c) + (cl_msg_len c - zlen part) + 1 ≤ rx_capacity (cl_rx c)
  | discard_oversized => part = [] ∧
    0 ≤ cl_have_read c < cl_msg_len c ∧ cl_rx_paused c = false ∧
    st = InDiscard (cl_msg_len c) (cl_have_read c)
  end.

Record client_holds (c : client) (d : decoded) (delivered queued : list bytes) : Prop := {
  ch_fd : 0 ≤ cl_fd c;
  ch_stage : ∃ part, rx_queue (cl_rx c) queued part ∧ stage_holds c part (at_stage d);
  ch_payloads : payloads d = delivered ++ queued;
  ch_discarded : cl_discarded_frames c = u64 (discarded d);
}.

(** The frame whose header is complete does not fit the RX buffer. *)
Definition no_room (c : client) : Prop :=
  rx_capacity (cl_rx c) < rx_len (cl_rx c) + cl_msg_len c + 1.

(** A complete header that waits for room: [read] may act on it without
    taking anything from the kernel. *)
Definition header_ready (c : client) : bool :=
  match cl_rx_state c with header => cl_have_read c =? kHeaderLen | _ => false end.

(** What bounds the calls of [read] that answer [progress]. *)
Definition work (c : client) (k : kernel) : nat :=
  (2 * length (answers k) + if header_ready c then 1 else 0)%nat.

(** While reads are paused, a complete header waits for room. *)
Lemma paused_stage c part st : stage_holds c part st → cl_rx_paused c = true →
  part = [] ∧ cl_rx_state c = header ∧ 1 ≤ cl_msg_len c ≤ kMaxMessageLen.
Proof.
  intros [_ Hst] Hp. destruct (cl_rx_state c);
    [|destruct Hst as (_ & _ & ? & _); congruence..].
  destruct Hst as [-> [(_ & ? & _)|(_ & ? & _)]]; [congruence|done].
Qed.

(** ** One read(2), with the retries *)

Inductive retry_spec (want : Z) (inb : bytes) (ans : list read_answer)
    : Z * Z * bytes * kernel → Prop :=
| retry_data errno bs rest l :
    bs ≠ [] → zlen bs ≤ want → inb = bs ++ rest → (length l < length ans)%nat →
    retry_spec want inb ans (zlen bs, errno, bs, Kernel rest l)
| retry_none n errno l :
    n ≤ 0 → (length l ≤ length ans)%nat →
    retry_spec want inb ans (n, errno, [], Kernel inb l).

Lemma read_retry_spec want inb ans : 0 < want →
  retry_spec want inb ans (read_retry want inb ans).
Proof.
  intros Hw. induction ans as [|a ans IH]; [by constructor; cbn; lia|].
  cbn [read_retry]. destruct a as [n| |errno]; cbn [sys_read].
  - pose proof (zlen_nonneg inb). set (m := Z.max 0 _).
    destruct (Z.eqb_spec m 0) as [Hm|Hm]; cbn [negb andb].
    + rewrite (proj2 (Z.eqb_neq want 0)) by lia. by constructor; cbn; lia.
    + rewrite (proj2 (Z.ltb_ge m 0)) by lia. cbn [andb].
      assert (zlen (ztake m inb) = m) as Hlen by (rewrite zlen_ztake; lia).
      rewrite <- Hlen at 1. constructor.
      * intros Hnil. rewrite Hnil, zlen_nil in Hlen. lia.
      * lia.
      * symmetry. apply ztake_zdrop.
      * cbn. lia.
  - cbn. constructor; cbn; lia.
  - cbn [Z.ltb andb]. change (-1 <? 0) with true. cbn [andb].
    destruct (errno =? EINTR); [|constructor; cbn; lia].
    destruct IH; constructor; cbn; lia || done.
Qed.

Lemma map_read_result_data n errno : 0 < n → map_read_result n errno = progress.
Proof. intros. unfold map_read_result. by rewrite (proj2 (Z.ltb_lt 0 n)). Qed.

Lemma map_read_result_none n errno : n ≤ 0 → map_read_result n errno ≠ progress ∧
  map_read_result n errno ≠ paused.
Proof.
  intros. unfold map_read_result. rewrite (proj2 (Z.ltb_ge 0 n)) by lia.
  by repeat case_match.
Qed.

(** ** One call of [read] *)

(** What a call that returns [(r, c', k')] has done. *)
Record read_done (c : client) (k : kernel) (d : decoded) (delivered queued : list bytes)
    (r : read_result) (c' : client) (k' : kernel) : Prop := {
  rd_holds : ∃ consumed fresh, inbound k = consumed ++ inbound k' ∧
    client_holds c' (decode_from d consumed) delivered (queued ++ fresh);
  rd_work : r = progress → (work c' k' < work c k)%nat;
  rd_answers : (length (answers k') ≤ length (answers k))%nat;
  rd_paused : cl_rx_paused c' = bool_decide (r = paused);
  rd_room : r = paused → no_room c';
  rd_same : cl_tx c' = cl_tx c ∧ cl_fd c' = cl_fd c ∧
    rx_capacity (cl_rx c') = rx_capacity (cl_rx c);
}.

(** Nothing was read. *)
Lemma read_done_nothing c k d dl q n errno l : client_holds c d dl q →
  cl_rx_paused c = false → n ≤ 0 → (length l ≤ length (answers k))%nat →
  read_done c k d dl q (map_read_result n errno) c (Kernel (inbound k) l).
Proof.
  intros Hc Hp Hn Hl. destruct (map_read_result_none n errno Hn) as [Hr1 Hr2].
  constructor; try done.
  - exists [], []. by rewrite app_nil_r.
  - rewrite Hp. by rewrite bool_decide_false.
Qed.

Lemma read_discard_holds c k d dl q : client_holds c d dl q →
  cl_rx_state c = discard_oversized →
  ∃ r c' k', read_discard c k = Returns (r, c', k') ∧ read_done c k d dl q r c' k'.
Proof.
  intros Hc Hst. pose proof Hc as [Hfd (part & Hq & Hm & Hs) Hpl Hdis].
  rewrite Hst in Hs. destruct Hs as (-> & Hhave & Hp & Hstage).
  unfold read_discard. rewrite u32_small by lia. set (want := Z.min _ _).
  destruct (read_retry_spec want (inbound k) (answers k)) as [errno bs rest l Hbs Hw Hin Hl|n errno l Hn Hl].
  { unfold want, kDiscardChunk. lia. }
  - pose proof (zlen_nonempty bs Hbs). assert (zlen bs ≤ cl_msg_len c - cl_have_read c) by lia.
    rewrite map_read_result_data, decide_False by (lia || naive_solver).
    rewrite !u32_small by (rewrite ?u32_small by lia; lia).
    destruct d as [st ps n]. cbn in Hstage, Hpl, Hdis. subst st. cbn [cl_msg_len at_state].
    destruct (Z.eqb_spec (cl_have_read c + zlen bs) (cl_msg_len c)) as [Heq|Hne].
    + eexists _, _, _. split; [done|]. constructor; [| |cbn; lia|done|done|done]; cbn.
      * exists bs, []. split; [done|]. rewrite decode_discard_end, app_nil_r by lia.
        constructor; cbn; [done| |done|].
        -- exists []. split; [done|]. split; [cbn; lia|]. cbn. split; [done|]. left.
           unfold kHeaderLen. by split_and!; [lia..|done|].
        -- rewrite Hdis. unfold u64. by rewrite Zplus_mod_idemp_l.
      * unfold work, header_ready. cbn. rewrite Hst. lia.
    + eexists _, _, _. split; [done|]. constructor; [| |cbn; lia|done|done|done]; cbn.
      * exists bs, []. split; [done|]. rewrite decode_discard_part, app_nil_r by lia.
        constructor; cbn; [done| |done|done].
        exists []. split; [done|]. split; [cbn; lia|]. cbn. by split_and!; [|lia..|done|].
      * unfold work, header_ready. cbn. rewrite Hst. lia.
  - destruct (map_read_result_none n errno Hn). rewrite decide_True by done.
    eexists _, _, _. split; [done|]. by apply read_done_nothing.
Qed.

(** The payload bytes that arrived are behind the part that was there. *)
Lemma read_payload_holds c k d dl q : client_holds c d dl q → cl_rx_state c = payload →
  ∃ r c' k', read_payload c k = Returns (r, c', k') ∧ read_done c k d dl q r c' k'.
Proof.
  intros Hc Hst. pose proof Hc as [Hfd (part & Hq & Hm & Hs) Hpl Hdis].
  rewrite Hst in Hs. destruct Hs as (Hhave & Hlt & Hp & Hstage & Hroom).
  pose proof (rx_queue_bounds _ _ _ Hq) as Hb. pose proof (rq_len _ _ _ Hq) as Hlen.
  pose proof (rq_capacity _ _ _ Hq) as Hcap. unfold kMaxMessageLen in *.
  unfold read_payload. rewrite Hhave, u32_small by lia. set (want := _ - _).
  assert (mem_get (rx_len (cl_rx c)) want (rx_data (cl_rx c)) =
    Some (ztake want (zdrop (rx_len (cl_rx c)) (rx_data (cl_rx c))))) as ->
    by (unfold mem_get; by rewrite decide_True by lia).
  cbn [access mbind cpp_bind].
  destruct (read_retry_spec want (inbound k) (answers k)) as [errno bs rest l Hbs Hw Hin Hl|n errno l Hn Hl];
    [lia| |].
  - pose proof (zlen_nonempty bs Hbs).
    rewrite map_read_result_data, decide_False by (lia || naive_solver).
    rewrite !u32_small by (rewrite ?u32_small by lia; lia).
    destruct (rx_write_queue _ _ _ Hq bs) as (rx & -> & Hq' & Hc'); [lia|].
    pose proof (rq_len _ _ _ Hq') as Hlen'. rewrite zlen_app in Hlen'.
    destruct d as [st ps n]. cbn in Hstage, Hpl, Hdis. subst st.
    cbn [mbind cpp_bind cl_msg_len cl_rx at_state with_rx].
    destruct (Z.eqb_spec (zlen part + zlen bs) (cl_msg_len c)) as [Heq|Hne].
    + destruct (rx_message_complete_queue _ _ _ Hq') as (rx' & -> & Hq'' & Hc'').
      { intros [_ ->]%app_nil. done. }
      { cbn [rx_capacity rx_advance]. lia. }
      eexists _, _, _. split; [done|].
      constructor; [| |cbn; lia|done|done|by cbn; rewrite Hc'']; cbn.
      * exists bs, [part ++ bs]. split; [done|]. rewrite decode_payload_end by lia.
        constructor; cbn; [done| |by rewrite Hpl, <- app_assoc|done].
        exists []. split; [done|]. split; [cbn; lia|]. cbn. split; [done|]. left.
        unfold kHeaderLen. by split_and!; [lia..|done|].
      * unfold work, header_ready. cbn. rewrite Hst. lia.
    + eexists _, _, _. split; [done|].
      constructor; [| |cbn; lia|done|done|by cbn; rewrite Hc']; cbn.
      * exists bs, []. split; [done|]. rewrite decode_payload_part, app_nil_r by lia.
        constructor; cbn; [done| |done|done].
        exists (part ++ bs). split; [done|]. split; [cbn; lia|].
        cbn -[rx_advance]. rewrite !zlen_app. unfold kMaxMessageLen.
        split_and!; [done|lia..|done|done|]. cbn [rx_capacity rx_advance]. lia.
      * unfold work, header_ready. cbn. rewrite Hst. lia.
  - destruct (map_read_result_none n errno Hn). rewrite decide_True by done.
    eexists _, _, _. split; [done|]. by apply read_done_nothing.
Qed.

(** The header is complete in [c']: the reference decoder has entered the frame. *)
Record header_complete (c : client) (k : kernel) (d : decoded) (c' : client) (k' : kernel)
    : Prop := {
  hc_consumed : ∃ consumed, inbound k = consumed ++ inbound k' ∧
    decode_from d consumed = enter (cl_msg_len c') (Decoded (InHeader []) (payloads d) (discarded d));
  hc_client : c' = Client (cl_fd c) header (cl_msg_len c') kHeaderLen (cl_rx_paused c)
    (cl_discarded_frames c) (cl_rx c) (cl_tx c);
  hc_msg_len : 0 ≤ cl_msg_len c' < 2 ^ 32;
  hc_answers : (length (answers k') < length (answers k))%nat ∨
    header_ready c = true ∧ k' = k ∧ 1 ≤ cl_msg_len c' ≤ kMaxMessageLen;
}.

Lemma read_header_holds c k d dl q : client_holds c d dl q → cl_rx_state c = header →
  cl_rx_paused c = false →
  ∃ r c' k', read_header c k = Returns (r, c', k') ∧
    match r with
    | Some r => read_done c k d dl q r c' k'
    | None => header_complete c k d c' k'
    end.
Proof.
  intros Hc Hst Hp. pose proof Hc as [Hfd (part & Hq & Hm & Hs) Hpl Hdis].
  rewrite Hst in Hs. destruct d as [st ps n]. cbn in Hs, Hpl, Hdis.
  unfold read_header, kHeaderLen, kMaxMessageLen in *.
  destruct Hs as [-> [(Hhave & _ & ->)|(Hhave & Hlen & ->)]].
  2: { rewrite (proj2 (Z.ltb_ge _ _)) by lia. eexists _, _, _. split; [done|].
    constructor; [|by destruct c; cbn in *; subst|done|].
    - exists []. split; [done|]. unfold enter, kMaxMessageLen.
      rewrite (proj2 (Z.eqb_neq _ _)), (proj2 (Z.ltb_ge _ _)) by lia. done.
    - right. unfold header_ready. rewrite Hst, Hhave. done. }
  rewrite (proj2 (Z.ltb_lt _ _)) by lia. cbn [negb].
  destruct (read_retry_spec (4 - cl_have_read c) (inbound k) (answers k))
    as [errno bs rest l Hbs Hw Hin Hl|m errno l Hn Hl]; [lia| |].
  2: { destruct (map_read_result_none m errno Hn). rewrite decide_True by done.
    eexists _, _, _. split; [done|]. by apply read_done_nothing. }
  pose proof (zlen_nonempty bs Hbs).
  rewrite map_read_result_data, decide_False by (lia || naive_solver).
  rewrite !u32_small by (rewrite ?u32_small by lia; lia).
  set (got := ztake (cl_have_read c) (u32_bytes (cl_msg_len c))) in *.
  pose proof (zlen_u32_bytes (cl_msg_len c)) as Hsize.
  assert (zlen got = cl_have_read c) as Hgot by (unfold got; rewrite zlen_ztake; lia).
  destruct (mem_put_is_Some (cl_have_read c) bs (u32_bytes (cl_msg_len c))) as [buf Hput]; [lia..|].
  rewrite Hput. pose proof (zlen_mem_put _ _ _ _ Hput) as Hbuf. rewrite Hsize in Hbuf.
  apply mem_put_Some in Hput as (_ & _ & Hput). fold got in Hput. rewrite app_assoc in Hput.
  pose proof (u32_of_bytes_bound buf Hbuf).
  cbn [access mbind cpp_bind cl_have_read]. eexists _, _, _. split; [done|].
  destruct (Z.ltb_spec (cl_have_read c + zlen bs) 4) as [Hpart|Hend].
  - constructor; [| |cbn; lia|done|done|done]; cbn.
    + exists bs, []. split; [done|].
      rewrite decode_header_part, app_nil_r by (unfold kHeaderLen; lia).
      constructor; cbn; [done| |done|done].
      exists []. split; [done|]. split; [done|]. cbn. rewrite Hst. split; [done|]. left.
      split_and!; [lia|unfold kHeaderLen; lia|done|]. f_equal.
      rewrite u32_bytes_of_bytes, Hput by done. symmetry. apply ztake_app. rewrite zlen_app. lia.
    + unfold work, header_ready. cbn. rewrite Hst. rewrite (proj2 (Z.eqb_neq _ _)) by (unfold kHeaderLen; lia). lia.
  - constructor; [| |done|left; cbn; lia]; cbn.
    + exists bs. split; [done|]. rewrite decode_header_end by (unfold kHeaderLen; lia).
      do 2 f_equal. rewrite Hput. symmetry.
      assert (zlen bs = 4 - cl_have_read c) by lia.
      replace (cl_have_read c + zlen bs) with 4 by lia.
      unfold zdrop. rewrite drop_ge by (unfold zlen in Hsize; lia). apply app_nil_r.
    + f_equal; [done|unfold kHeaderLen; lia].
Qed.

(** A further call after one that took bytes without returning. *)
Lemma read_done_after c k d dl q r c' k' c1 k1 d1 consumed :
  inbound k = consumed ++ inbound k1 → decode_from d consumed = d1 →
  (work c1 k1 ≤ work c k)%nat → (length (answers k1) ≤ length (answers k))%nat →
  cl_tx c1 = cl_tx c → cl_fd c1 = cl_fd c → rx_capacity (cl_rx c1) = rx_capacity (cl_rx c) →
  read_done c1 k1 d1 dl q r c' k' → read_done c k d dl q r c' k'.
Proof.
  intros Hin Hd Hw Ha Ht Hf Hcap [(cs & fresh & Hin1 & Hh) Hwork Hans Hp Hr (Ht1 & Hf1 & Hc1)].
  constructor; [|intros Hpr; specialize (Hwork Hpr); lia|lia|done|done|by rewrite Ht1, Hf1, Hc1].
  exists (consumed ++ cs), fresh. rewrite <- app_assoc, <- Hin1. split; [done|].
  by rewrite decode_from_app, Hd.
Qed.

(** *** After the header

    [c1] is the client whose header is complete; the three kinds of frame. *)
Section AfterHeader.
Context (c : client) (k : kernel) (d : decoded) (dl q : list bytes) (c1 : client) (k1 : kernel).
Hypothesis (Hc : client_holds c d dl q) (Hst : cl_rx_state c = header).
Hypothesis Hp : cl_rx_paused c = false.
Hypothesis Hh : header_complete c k d c1 k1.

Lemma header_answers : (length (answers k1) ≤ length (answers k))%nat.
Proof. destruct Hh as [_ _ _ [|(_ & -> & _)]]; lia. Qed.

(** The reference decoder has entered the frame; the buffer is as before. *)
Lemma header_entered : ∃ consumed, inbound k = consumed ++ inbound k1 ∧
  decode_from d consumed = enter (cl_msg_len c1) (Decoded (InHeader []) (payloads d) (discarded d)) ∧
  rx_queue (cl_rx c) q [] ∧ 0 ≤ cl_msg_len c1 < 2 ^ 32 ∧
  c1 = Client (cl_fd c) header (cl_msg_len c1) kHeaderLen (cl_rx_paused c)
    (cl_discarded_frames c) (cl_rx c) (cl_tx c).
Proof.
  destruct Hh as [(consumed & Hin & Hdec) Hc1 Hlen _]. pose proof Hc as [_ (part & Hq & _ & Hs) _ _].
  rewrite Hst in Hs. destruct Hs as [-> _]. by exists consumed.
Qed.

(** An empty frame is counted as discarded. *)
Lemma empty_frame_holds : cl_msg_len c1 = 0 → ∃ consumed, inbound k = consumed ++ inbound k1 ∧
  (length (answers k1) < length (answers k))%nat ∧
  client_holds (at_state header 0 (count_discarded c1)) (decode_from d consumed) dl q.
Proof.
  intros Hm. destruct header_entered as (consumed & Hin & Hdec & Hq & _ & Hc1).
  destruct Hh as [_ _ _ Hans]. rewrite Hm in Hdec, Hc1, Hans. rewrite Hc1.
  exists consumed. split; [done|]. split; [lia|]. destruct Hc as [Hfd _ Hpl Hdis].
  rewrite Hdec. constructor; cbn; [done| |exact Hpl|].
  - exists []. split; [done|]. split; [cbn; lia|]. cbn. split; [done|]. left.
    unfold kHeaderLen. by split_and!; [lia..|done|].
  - rewrite Hdis. unfold u64. by rewrite Zplus_mod_idemp_l.
Qed.

Lemma oversized_frame_holds : kMaxMessageLen < cl_msg_len c1 →
  read_done c k d dl q progress (at_state discard_oversized 0 c1) k1.
Proof.
  intros Hbig. destruct header_entered as (consumed & Hin & Hdec & Hq & Hlen & Hc1).
  destruct Hh as [_ _ _ Hans]. revert Hdec Hlen Hbig Hans. rewrite Hc1. cbn [cl_msg_len].
  generalize (cl_msg_len c1) as m. intros m Hdec Hlen Hbig Hans. unfold kMaxMessageLen in *.
  destruct Hans as [Hlt|(_ & _ & ?)]; [|lia]. unfold enter, kMaxMessageLen in Hdec.
  rewrite (proj2 (Z.eqb_neq _ _)), (proj2 (Z.ltb_lt _ _)) in Hdec by lia.
  destruct Hc as [Hfd _ Hpl Hdis].
  constructor; [| |cbn; lia|done|done|done]; cbn.
  - exists consumed, []. rewrite Hdec, app_nil_r. split; [done|].
    constructor; cbn; [done| |done|done].
    exists []. split; [done|]. split; [cbn; lia|]. cbn. by split_and!; [|lia..|done|].
  - unfold work, header_ready. cbn. lia.
Qed.

(** A legal frame: the payload is next if it fits, and else the client pauses
    with the header kept. *)
Lemma legal_frame_holds : 1 ≤ cl_msg_len c1 ≤ kMaxMessageLen →
  if rx_can_fit (cl_msg_len c1) (cl_rx c1)
  then read_done c k d dl q progress (at_state payload 0 c1) k1
  else read_done c k d dl q paused (pause c1) k1.
Proof.
  intros Hsmall. destruct header_entered as (consumed & Hin & Hdec & Hq & Hlen & Hc1).
  pose proof header_answers as Hle. destruct Hh as [_ _ _ Hans].
  revert Hdec Hlen Hsmall Hans. rewrite Hc1. cbn [cl_msg_len cl_rx].
  generalize (cl_msg_len c1) as m. intros m Hdec Hlen Hsmall Hans. unfold kMaxMessageLen in *.
  unfold enter, kMaxMessageLen in Hdec.
  rewrite (proj2 (Z.eqb_neq _ _)), (proj2 (Z.ltb_ge _ _)) in Hdec by lia.
  destruct Hc as [Hfd _ Hpl Hdis].
  assert (∀ st have p, st = payload ∧ have = 0 ∧ p = false ∧
      rx_len (cl_rx c) + m + 1 ≤ rx_capacity (cl_rx c) ∨ st = header ∧ have = kHeaderLen →
    client_holds (Client (cl_fd c) st m have p (cl_discarded_frames c) (cl_rx c) (cl_tx c))
      (decode_from d consumed) dl (q ++ [])) as Hnext.
  { intros st have p Hcase. rewrite Hdec, app_nil_r. constructor; cbn; [done| |done|done].
    exists []. split; [done|]. split; [done|].
    destruct Hcase as [(-> & -> & -> & ?)|[-> ->]]; cbn; unfold kMaxMessageLen; rewrite ?zlen_nil.
    - change (zlen (@nil ascii)) with 0. split_and!; done || lia.
    - split; [done|]. right. split_and!; [done|lia..|done]. }
  rewrite (rx_can_fit_spec _ _ _ Hq) by lia. case_bool_decide as Hfit.
  - constructor; [| |cbn; lia|done|done|done]; cbn.
    + exists consumed, []. split; [done|]. apply Hnext. left. by rewrite Hp.
    + intros _. unfold work, header_ready. cbn.
      destruct Hans as [?|(Hready & -> & _)]; [lia|]. unfold header_ready in Hready.
      rewrite Hst in *. rewrite Hready. lia.
  - constructor; [| |cbn; lia|done| |done]; cbn.
    + exists consumed, []. split; [done|]. apply Hnext. by right.
    + done.
    + intros _. unfold no_room. cbn. lia.
Qed.
End AfterHeader.

Lemma client_read_loop_holds fuel c k d dl q : client_holds c d dl q →
  cl_rx_paused c = false → (length (answers k) < fuel)%nat →
  ∃ r c' k', client_read_loop fuel c k = Returns (r, c', k') ∧ read_done c k d dl q r c' k'.
Proof.
  revert c k d q. induction fuel as [|fuel IH]; intros c k d q Hc Hp Hfuel; [lia|].
  cbn [client_read_loop]. destruct (cl_rx_state c) eqn:Hst.
  2: by apply read_payload_holds.
  2: by apply read_discard_holds.
  destruct (read_header_holds c k d dl q Hc Hst Hp) as ([r|] & c1 & k1 & -> & Hh);
    cbn [mbind cpp_bind]; [by eexists _, _, _|].
  destruct (Z.eqb_spec (cl_msg_len c1) 0) as [Hm|Hm];
    [|destruct (Z.ltb_spec kMaxMessageLen (cl_msg_len c1)) as [Hbig|Hsmall]].
  - destruct (empty_frame_holds c k d dl q c1 k1 Hc Hst Hp Hh Hm) as (consumed & Hin & Hlt & Hnext).
    pose proof (hc_client _ _ _ _ _ Hh) as Hc1.
    destruct (IH _ k1 _ q Hnext) as (r & c' & k' & -> & Hdone); [by rewrite Hc1|lia|].
    eexists _, _, _. split; [done|]. rewrite Hc1 in Hdone.
    refine (read_done_after _ _ _ _ _ _ _ _ _ _ _ _ Hin eq_refl _ _ _ _ _ Hdone); [|lia|done..].
    unfold work, header_ready. cbn. lia.
  - eexists _, _, _. split; [done|]. by apply oversized_frame_holds.
  - pose proof (legal_frame_holds c k d dl q c1 k1 Hc Hst Hp Hh) as Hlegal.
    pose proof (hc_msg_len _ _ _ _ _ Hh).
    destruct (rx_can_fit _ _); (eexists _, _, _; split; [done|]; apply Hlegal; lia).
Qed.

(** A call of [read] returns, keeps every access inside the buffers, and takes
    the decoder along with the bytes it consumed. *)
Lemma client_read_holds c k d dl q : client_holds c d dl q →
  (cl_rx_paused c = true → no_room c) →
  ∃ r c' k', client_read c k = Returns (r, c', k') ∧ read_done c k d dl q r c' k'.
Proof.
  intros Hc Hroom. unfold client_read. rewrite (proj2 (Z.ltb_ge _ _)) by apply Hc.
  destruct (cl_rx_paused c) eqn:Hp; [|by apply client_read_loop_holds; [| |lia]].
  eexists _, _, _. split; [done|]. constructor; try done.
  - exists [], []. by rewrite app_nil_r.
  - intros _. by apply Hroom.
Qed.

(** ** The other operations *)

Lemma client_new_holds `{!MachineLaws H} fd rx_cap tx_cap : 0 ≤ fd →
  rx_cap = 0 ∨ 2 ≤ rx_cap ≤ max_capacity → tx_cap = 0 ∨ kHeaderLen + 1 ≤ tx_cap < 2 ^ 63 →
  ∃ c, client_new fd rx_cap tx_cap = Returns c ∧ client_holds c start [] [] ∧
    cl_rx_paused c = false ∧ tx_queue (cl_tx c) [] ∧
    rx_capacity (cl_rx c) = (if rx_cap =? 0 then kDefaultBufferCap else rx_cap).
Proof.
  intros Hfd Hrx Htx. unfold client_new.
  destruct (rx_new_queue (if rx_cap =? 0 then kDefaultBufferCap else rx_cap)) as (rx & -> & Hq & Hc).
  { unfold max_capacity, kDefaultBufferCap in *. destruct (Z.eqb_spec rx_cap 0); lia. }
  destruct (tx_new_queue (if tx_cap =? 0 then kDefaultBufferCap else tx_cap)) as (tx & -> & Ht & _).
  { unfold kHeaderLen, kDefaultBufferCap in *. destruct (Z.eqb_spec tx_cap 0); lia. }
  cbn [mbind cpp_bind]. eexists. split; [done|]. split; [|done].
  constructor; cbn; [done| |done|done].
  exists []. split; [done|]. split; [cbn; lia|]. cbn. split; [done|]. left.
  unfold kHeaderLen. by split_and!; [lia..|done|].
Qed.

Lemma client_holds_tx c d dl q tx : client_holds c d dl q → client_holds (with_tx tx c) d dl q.
Proof. by intros [? ? ? ?]. Qed.

(** [poll] takes the queue away, and what was queued is delivered. *)
Lemma client_holds_drained c d dl q : client_holds c d dl q →
  ∃ rx, drain_queue (cl_rx c) = Returns (json_array q, rx) ∧
    client_holds (with_rx rx c) d (dl ++ q) [] ∧ rx_capacity rx = rx_capacity (cl_rx c).
Proof.
  intros [Hfd (part & Hq & Hm & Hs) Hpl Hdis].
  destruct (drain_queue_spec _ _ _ Hq) as (rx & Hdrain & Hq' & Hcap).
  exists rx. split; [done|]. split; [|done].
  constructor; cbn; [done| |by rewrite app_nil_r|done].
  exists part. split; [done|]. split; [done|]. cbn.
  pose proof (rq_len _ _ _ Hq). pose proof (rq_len _ _ _ Hq') as Hl'.
  pose proof (zlen_nonneg (spliced q)). cbn [spliced flat_map] in Hl'. rewrite zlen_nil in Hl'.
  destruct (cl_rx_state c); [done| |done].
  destruct Hs as (? & ? & ? & ? & ?). split_and!; try done; lia.
Qed.

(** [rx_resume], once the pending frame is to be looked at again. *)
Lemma client_holds_resume c d dl q : client_holds c d dl q → client_holds (rx_resume c) d dl q.
Proof.
  intros [Hfd (part & Hq & Hm & Hs) Hpl Hdis]. constructor; cbn; [done| |done|done].
  exists part. split; [done|]. split; [done|]. cbn.
  destruct (cl_rx_state c); [|tauto..].
  destruct Hs as [-> [(?&?&?)|?]]; split; try done; [by left|by right].
Qed.
End inv.
