(* ===== verification/PollQueue.v ===== *)
(** * poll_waiter.cpp and dbus_util.cpp: answering [poll]

    The objects /daemon and /cli{id} offer the same [poll]: a queue of payloads
    and at most one D-Bus request that waits for the next payload.
    [handle_poll_request] and [maybe_reply_pending_poll] are written once, over
    what an object must have, the class [PollObject]; [PollObjectLaws] are its
    laws, and [poll_state] what a queue and its waiter hold together: no
    request waits while a payload is queued.

    The event loop and the bus are parameters of the calls: what
    [sd_event_now] and [sd_event_add_time] answer, and whether the arguments of
    a request could be read. *)
From S2P Require Export RxBuffer.

(** What leaves the daemon: replies to D-Bus requests, and log lines. *)
Inductive output :=
| Return (request : Z) (text : bytes)
| Log (level text : string).

(** How a method handler ends: a negative errno for sd-bus to report, a reply
    that has been sent, or a reply that comes later. *)
Inductive handled :=
| BusError (r : Z)
| Answered
| Deferred.

(** ** The waiter *)

Record poll_waiter := PollWaiter {
  pw_msg : option Z;
  pw_timer : option Z;
}.

(** What the event loop answers: [sd_event_now]'s result and clock, and the
    result of [sd_event_add_time]. *)
Record event_answers := EventAnswers {
  now_result : Z;
  now : Z;
  add_time_result : Z;
}.

Definition pw_new : poll_waiter := PollWaiter None None.
Definition pw_pending (pw : poll_waiter) : bool := bool_decide (is_Some (pw_msg pw)).
Definition pw_cancel (pw : poll_waiter) : poll_waiter := PollWaiter None None.

Definition pw_arm (ev : event_answers) (request timeout_ms : Z) (pw : poll_waiter)
    : Z * poll_waiter :=
  if timeout_ms <=? 0 then (- EINVAL, pw) else
  if pw_pending pw then (- EBUSY, pw) else
  let pw := PollWaiter (Some request) (pw_timer pw) in
  if now_result ev <? 0 then (now_result ev, pw_cancel pw) else
  let usec := u64 (now ev + u64 (u64 timeout_ms * 1000)) in
  if add_time_result ev <? 0 then (add_time_result ev, pw_cancel pw) else
  (0, PollWaiter (pw_msg pw) (Some usec)).

(** [payload.c_str ()] is sent. *)
Definition pw_reply (text : bytes) (pw : poll_waiter) : poll_waiter * list output :=
  match pw_msg pw with
  | None => (pw, [])
  | Some msg => (PollWaiter None None, [Return msg (c_str text)])
  end.

Definition pw_reply_empty (pw : poll_waiter) : poll_waiter * list output :=
  pw_reply (chars "[]") pw.

(** The slot of the timer, which [pw_arm] set and [pw_reply], [pw_cancel] took
    away. *)
Definition pw_on_timeout (pw : poll_waiter) : poll_waiter * list output :=
  match pw_timer pw with
  | Some _ => pw_reply_empty pw
  | None => (pw, [])
  end.

(** ** dbus_util.cpp *)

Definition kMaxPollTimeoutMs : Z := 25000.

Definition dquote : byte := "034"%char.

Definition json_char (ch : byte) : bytes :=
  if decide (ch = dquote) then ["\"%char; dquote] else
  if decide (ch = "\"%char) then chars "\\" else
  if decide (ch = "010"%char) then chars "\n" else
  if decide (ch = "013"%char) then chars "\r" else
  if decide (ch = "009"%char) then chars "\t" else [ch].

Definition json_string (s : bytes) : bytes :=
  [dquote] ++ flat_map json_char s ++ [dquote].

(** What the object that offers [poll] has; [on_drained] is the callback, which
    may be null. *)
Class PollObject (O : Type) := {
  po_queue : O → rx_buffer;
  po_set_queue : rx_buffer → O → O;
  po_poll : O → poll_waiter;
  po_set_poll : poll_waiter → O → O;
  po_on_drained : option (O → O);
  po_out : O → list output;
  po_emit : list output → O → O;
}.

Section poll.
Context {O : Type} `{PollObject O}.

Definition call_on_drained (s : O) : O :=
  match po_on_drained with Some f => f s | None => s end.

(** [sd_bus_reply_method_return (message, "s", text.c_str ())] *)
Definition reply_method_return (message : Z) (text : bytes) (s : O) : O :=
  po_emit [Return message (c_str text)] s.

Definition po_drain_queue (s : O) : cpp (bytes * O) :=
  '(out, queue) ← drain_queue (po_queue s);
  mret (out, po_set_queue queue s).

Definition reply_with (message : Z) (reply : bytes) (s : O) : O :=
  reply_method_return message reply (call_on_drained s).

Definition po_reply (text : bytes) (s : O) : O :=
  let '(pw, out) := pw_reply text (po_poll s) in
  po_emit out (po_set_poll pw s).

Definition po_timeout (s : O) : O :=
  let '(pw, out) := pw_on_timeout (po_poll s) in
  po_emit out (po_set_poll pw s).

Definition maybe_reply_pending_poll (s : O) : cpp (bool * O) :=
  if negb (pw_pending (po_poll s)) || (rx_messages (po_queue s) =? 0) then mret (false, s) else
  '(reply, s) ← po_drain_queue s;
  let s := call_on_drained s in
  mret (true, po_reply reply s).

Definition timeout_range_error : bytes :=
  json_string (chars "error: timeout out of range (0..25000)").
Definition already_pending_error : bytes :=
  json_string (chars "error: a poll is already pending").
Definition cannot_arm_error : bytes := json_string (chars "error: cannot arm poll timer").

(** [arg] is the [timeout] argument, or the negative result of reading it. *)
Definition handle_poll_request (ev : event_answers) (message : Z) (arg : Z + Z) (s : O)
    : cpp (handled * O) :=
  match arg with
  | inl r => mret (BusError r, s)
  | inr timeout =>
    if (timeout <? 0) || (kMaxPollTimeoutMs <? timeout) then
      mret (Answered, reply_method_return message timeout_range_error s) else
    if pw_pending (po_poll s) then
      mret (Answered, reply_method_return message already_pending_error s) else
    if negb (rx_messages (po_queue s) =? 0) then
      '(reply, s) ← po_drain_queue s;
      mret (Answered, reply_with message reply s)
    else if timeout =? 0 then mret (Answered, reply_method_return message (chars "[]") s) else
    let '(r, pw) := pw_arm ev message timeout (po_poll s) in
    let s := po_set_poll pw s in
    if r <? 0 then mret (Answered, reply_method_return message cannot_arm_error s)
    else mret (Deferred, s)
  end.

(** ** Laws *)

(** The requests that have been answered, in order. *)
Definition replied (out : list output) : list Z :=
  omap (λ e, match e with Return m _ => Some m | Log _ _ => None end) out.

(** Answered, or waiting to be. *)
Definition accounted (s : O) : list Z :=
  replied (po_out s) ++ option_list (pw_msg (po_poll s)).

(** The replies of [poll] that carry no payload. *)
Definition poll_errors : list bytes :=
  [timeout_range_error; already_pending_error; cannot_arm_error].

(** [carried other out msgs]: the replies of [out] that are JSON arrays are, in
    full, the arrays of the payloads [msgs], in order; any other effect is a log
    line, an error of [poll] or a reply of [other]. *)
Inductive carried (other : list bytes) : list output → list bytes → Prop :=
| carried_nil : carried other [] []
| carried_batch out msgs m b :
    carried other out msgs → Forall no_nul b → carried other (out ++ [Return m (json_array b)]) (msgs ++ b)
| carried_text out msgs m t :
    carried other out msgs → t ∈ poll_errors ++ other → carried other (out ++ [Return m (c_str t)]) msgs
| carried_log out msgs l t :
    carried other out msgs → carried other (out ++ [Log l t]) msgs.

(** The text of an array that ends in the middle of a payload, after [cut]. *)
Definition cut_array (before : list bytes) (cut : bytes) : bytes :=
  chars "[" ++ comma_separated (before ++ [cut]).

(** [array_replies other out batches]: the same for any payloads.  The text of a
    reply ends at the first NUL byte: of a batch with one, the payloads before
    it arrive, the start of the payload that has it, and nothing else. *)
Inductive array_replies (other : list bytes) : list output → list (list bytes) → Prop :=
| array_replies_nil : array_replies other [] []
| array_replies_whole out batches m b :
    array_replies other out batches → Forall no_nul b →
    array_replies other (out ++ [Return m (json_array b)]) (batches ++ [b])
| array_replies_cut out batches m before cut rest after :
    array_replies other out batches → Forall no_nul before → no_nul cut →
    array_replies other (out ++ [Return m (cut_array before cut)])
      (batches ++ [before ++ (cut ++ "000"%char :: rest) :: after])
| array_replies_text out batches m t :
    array_replies other out batches → t ∈ poll_errors ++ other →
    array_replies other (out ++ [Return m (c_str t)]) batches
| array_replies_log out batches l t :
    array_replies other out batches → array_replies other (out ++ [Log l t]) batches.

(** The payloads [msgs] have been taken out of the queue, for the replies. *)
Definition taken (other : list bytes) (out : list output) (msgs : list bytes) : Prop :=
  ∃ batches, array_replies other out batches ∧ concat batches = msgs.

End poll.

(** ** The texts of the arrays *)

Lemma json_array_no_nul b : Forall no_nul b → no_nul (json_array b).
Proof.
  intros Hb. apply no_nul_app; [by apply (bool_decide_unpack _)|].
  apply no_nul_app; [|by apply (bool_decide_unpack _)].
  induction Hb as [|p b Hp _ IH]; [apply not_elem_of_nil|]. destruct b as [|p' b]; [done|].
  apply no_nul_app; [done|]. apply no_nul_app; [by apply (bool_decide_unpack _)|exact IH].
Qed.

Lemma comma_separated_cons p b : b ≠ [] → comma_separated (p :: b) = p ++ chars "," ++ comma_separated b.
Proof. by destruct b. Qed.

Lemma comma_separated_split before cut rest after : ∃ tail,
  comma_separated (before ++ (cut ++ rest) :: after) = comma_separated (before ++ [cut]) ++ rest ++ tail.
Proof.
  induction before as [|p before [tail IH]]; cbn [app].
  - destruct after as [|q after]; [exists []; by rewrite !app_nil_r|].
    exists (chars "," ++ comma_separated (q :: after)). rewrite comma_separated_cons by done.
    change (comma_separated [cut]) with cut. by rewrite <- !app_assoc.
  - exists tail. rewrite !comma_separated_cons by (by destruct before). by rewrite IH, <- !app_assoc.
Qed.

Lemma no_nul_cut_array before cut : Forall no_nul before → no_nul cut → no_nul (cut_array before cut).
Proof.
  intros Hb Hc. assert (no_nul (json_array (before ++ [cut]))) as Ha
    by (apply json_array_no_nul, Forall_app; split; [done|by constructor]).
  unfold json_array, cut_array, no_nul in *. rewrite !elem_of_app in *. tauto.
Qed.

(** A D-Bus text ends at the first NUL of the array. *)
Lemma c_str_cut_array before cut rest after : Forall no_nul before → no_nul cut →
  c_str (json_array (before ++ (cut ++ "000"%char :: rest) :: after)) = cut_array before cut.
Proof.
  intros Hb Hc. destruct (comma_separated_split before cut ("000"%char :: rest) after) as [tail Ht].
  unfold json_array. rewrite Ht. rewrite <- !app_assoc. cbn [app].
  rewrite (app_assoc (chars "[")). by apply c_str_nul, no_nul_cut_array.
Qed.

(** The first payload with a NUL. *)
Lemma nul_split (b : list bytes) : Forall no_nul b ∨
  ∃ before cut rest after, b = before ++ (cut ++ "000"%char :: rest) :: after ∧
    Forall no_nul before ∧ no_nul cut.
Proof.
  induction b as [|p b [IH|(before & cut & rest & after & -> & Hb & Hc)]]; [by left| |].
  - destruct (decide ("000"%char ∈ p)) as [Hp|Hp]; [right|left; by constructor].
    apply list_elem_of_split_l in Hp as (cut & rest & -> & Hc). by exists [], cut, rest, b.
  - destruct (decide ("000"%char ∈ p)) as [Hp|Hp]; right.
    + apply list_elem_of_split_l in Hp as (cut' & rest' & -> & Hc'). by eexists [], cut', rest', _.
    + exists (p :: before), cut, rest, after. split; [done|]. split; [by constructor|done].
Qed.

Lemma array_replies_batch other out batches m b : array_replies other out batches →
  array_replies other (out ++ [Return m (c_str (json_array b))]) (batches ++ [b]).
Proof.
  intros Hr. destruct (nul_split b) as [Hb|(before & cut & rest & after & -> & Hb & Hc)].
  - rewrite c_str_id by by apply json_array_no_nul. by constructor.
  - rewrite c_str_cut_array by done. by constructor.
Qed.

(** Without NUL bytes, all of it arrives. *)
Lemma array_replies_carried other out batches : array_replies other out batches →
  Forall no_nul (concat batches) → carried other out (concat batches).
Proof.
  induction 1 as [|out batches m b _ IH Hb|out batches m before cut rest after _ IH|
    out batches m t _ IH Ht|out batches l t _ IH]; intros Hn; [constructor|..].
  - rewrite concat_app in *. apply Forall_app in Hn as [Hn _]. cbn. rewrite app_nil_r.
    constructor; [by apply IH|done].
  - rewrite concat_app in Hn. apply Forall_app in Hn as [_ Hn]. cbn in Hn.
    rewrite app_nil_r in Hn. apply Forall_app in Hn as [_ Hn]. apply Forall_cons in Hn as [Hn _].
    exfalso. apply Hn. apply elem_of_app. right. by left.
  - constructor; [by apply IH|done].
  - constructor. by apply IH.
Qed.

Lemma taken_carried other out msgs : taken other out msgs → Forall no_nul msgs → carried other out msgs.
Proof. intros (batches & Hr & <-). by apply array_replies_carried. Qed.

Lemma taken_nil other : taken other [] [].
Proof. exists []. by split; [constructor|]. Qed.

Lemma taken_batch other out msgs m b : taken other out msgs →
  taken other (out ++ [Return m (c_str (json_array b))]) (msgs ++ b).
Proof.
  intros (batches & Hr & <-). exists (batches ++ [b]). split; [by apply array_replies_batch|].
  rewrite concat_app. cbn. by rewrite app_nil_r.
Qed.

Lemma taken_text other out msgs m t : taken other out msgs → t ∈ poll_errors ++ other →
  taken other (out ++ [Return m (c_str t)]) msgs.
Proof. intros (batches & Hr & <-) Ht. exists batches. by split; [constructor|]. Qed.

Lemma taken_log other out msgs l t : taken other out msgs → taken other (out ++ [Log l t]) msgs.
Proof. intros (batches & Hr & <-). exists batches. by split; [constructor|]. Qed.

(** [I s delivered queued] is what the object keeps of its queue. *)
Class PollObjectLaws (O : Type) `{PollObject O} (I : O → list bytes → list bytes → Prop) := {
  law_poll_set_queue q s : po_poll (po_set_queue q s) = po_poll s;
  law_out_set_queue q s : po_out (po_set_queue q s) = po_out s;
  law_poll_set_poll pw s : po_poll (po_set_poll pw s) = pw;
  law_out_set_poll pw s : po_out (po_set_poll pw s) = po_out s;
  law_poll_emit l s : po_poll (po_emit l s) = po_poll s;
  law_out_emit l s : po_out (po_emit l s) = po_out s ++ l;
  law_poll_drained s : po_poll (call_on_drained s) = po_poll s;
  law_out_drained s : po_out (call_on_drained s) = po_out s;
  law_set_poll pw s dl q : I s dl q → I (po_set_poll pw s) dl q;
  law_emit l s dl q : I s dl q → I (po_emit l s) dl q;
  law_messages s dl q : I s dl q → (rx_messages (po_queue s) =? 0) = bool_decide (q = []);
  law_drain s dl q : I s dl q → ∃ rx, drain_queue (po_queue s) = Returns (json_array q, rx) ∧
    I (call_on_drained (po_set_queue rx s)) (dl ++ q) [];
}.

(** ** What the operations keep *)

Section poll_lemmas.
Context {O : Type} {I : O → list bytes → list bytes → Prop} `{PollObjectLaws O I}.
Context (other : list bytes).

Lemma replied_app l k : replied (l ++ k) = replied l ++ replied k.
Proof. apply omap_app. Qed.

(** The waiter has a timer when it has a request. *)
Definition waiter_ok (pw : poll_waiter) : Prop := is_Some (pw_msg pw) ↔ is_Some (pw_timer pw).

Lemma waiter_ok_new : waiter_ok pw_new.
Proof. unfold waiter_ok. cbn. split; by intros []. Qed.

(** The object is consistent, but a request may wait although payloads are
    queued. *)
Record poll_consistent (s : O) (delivered queued : list bytes) : Prop := {
  pc_queue : I s delivered queued;
  pc_waiter : waiter_ok (po_poll s);
  pc_taken : taken other (po_out s) delivered;
}.

Record poll_ok (s : O) (delivered queued : list bytes) : Prop := {
  pk_consistent : poll_consistent s delivered queued;
  pk_idle : is_Some (pw_msg (po_poll s)) → queued = [];
}.

Lemma poll_consistent_emit s dl q l : poll_consistent s dl q →
  taken other (po_out s ++ l) dl → poll_consistent (po_emit l s) dl q.
Proof.
  intros [Hq Hw Hc] Hl. constructor; [by apply law_emit|by rewrite law_poll_emit|].
  by rewrite law_out_emit.
Qed.

Lemma poll_ok_text s dl q m t : poll_ok s dl q → t ∈ poll_errors ++ other →
  poll_ok (reply_method_return m t s) dl q ∧
  accounted (reply_method_return m t s) ≡ₚ accounted s ++ [m].
Proof.
  intros [Hc Hi] Ht. unfold reply_method_return, accounted. split.
  - constructor; [|by rewrite law_poll_emit]. apply poll_consistent_emit; [done|].
    apply taken_text; [apply Hc|done].
  - rewrite law_out_emit, law_poll_emit, replied_app. cbn. solve_Permutation.
Qed.

Lemma poll_ok_log s dl q l t : poll_ok s dl q →
  poll_ok (po_emit [Log l t] s) dl q ∧ accounted (po_emit [Log l t] s) = accounted s.
Proof.
  intros [Hc Hi]. unfold accounted. split.
  - constructor; [|by rewrite law_poll_emit]. apply poll_consistent_emit; [done|].
    apply taken_log, Hc.
  - by rewrite law_out_emit, law_poll_emit, replied_app, app_nil_r.
Qed.

(** A batch is sent to [m], by an object that has drained it. *)
Lemma poll_ok_batch s dl q m : taken other (po_out s) dl → I s (dl ++ q) [] →
  waiter_ok (po_poll s) → pw_msg (po_poll s) = None →
  poll_ok (reply_method_return m (json_array q) s) (dl ++ q) [] ∧
  accounted (reply_method_return m (json_array q) s) ≡ₚ accounted s ++ [m].
Proof.
  intros Hc Hq Hw Hnone. unfold reply_method_return, accounted. split.
  - constructor; [|done]. constructor; [by apply law_emit|by rewrite law_poll_emit|].
    rewrite law_out_emit. by apply taken_batch.
  - rewrite law_poll_emit, Hnone, law_out_emit, replied_app. cbn. by rewrite !app_nil_r.
Qed.

(** Messages arrived: a waiting request gets all of them. *)
Lemma maybe_reply_pending_poll_ok s dl q : poll_consistent s dl q →
  ∃ b s' dl' q', maybe_reply_pending_poll s = Returns (b, s') ∧ poll_ok s' dl' q' ∧
    dl' ++ q' = dl ++ q ∧ accounted s' = accounted s ∧
    (b = true ↔ pw_msg (po_poll s) ≠ None ∧ q ≠ []) ∧ (b = false → s' = s).
Proof.
  intros Hs. pose proof Hs as [Hq Hw Hc]. unfold maybe_reply_pending_poll, pw_pending.
  rewrite (law_messages s dl q Hq). unfold accounted.
  destruct (pw_msg (po_poll s)) as [m|] eqn:Hm.
  2: { exists false, s, dl, q. rewrite Hm. split; [done|]. split.
    - constructor; [done|]. rewrite Hm. by intros [].
    - naive_solver. }
  rewrite (bool_decide_true (is_Some _)) by done. cbn [negb orb].
  case_bool_decide as Hnil.
  { exists false, s, dl, q. rewrite Hm. split; [done|]. split; [by constructor|].
    naive_solver. }
  destruct (law_drain s dl q Hq) as (rx & Hdrain & Hq').
  unfold po_drain_queue. rewrite Hdrain. cbn [mbind cpp_bind mret cpp_ret].
  unfold po_reply, pw_reply. rewrite law_poll_drained, law_poll_set_queue, Hm.
  set (s1 := po_set_poll _ _).
  assert (po_out s1 = po_out s) as Hout
    by (unfold s1; by rewrite law_out_set_poll, law_out_drained, law_out_set_queue).
  assert (po_poll s1 = pw_new) as Hpoll by (unfold s1; by rewrite law_poll_set_poll).
  destruct (poll_ok_batch s1 dl q m) as [Hok Ha].
  { by rewrite Hout. }
  { by apply law_set_poll. }
  { rewrite Hpoll. apply waiter_ok_new. }
  { by rewrite Hpoll. }
  eexists true, _, (dl ++ q), []. split; [done|]. split; [exact Hok|].
  rewrite app_nil_r. split; [done|]. split; [|naive_solver].
  unfold accounted in *. rewrite law_poll_emit, law_out_emit, replied_app, Hout, Hpoll. cbn.
  by rewrite app_nil_r.
Qed.

(** What a call of [poll] has done, which accounts for the requests [more]. *)
Definition poll_handled (more : list Z) (s : O) (dl q : list bytes) (r : cpp (handled * O)) : Prop :=
  ∃ h s' dl' q', r = Returns (h, s') ∧ poll_ok s' dl' q' ∧ dl' ++ q' = dl ++ q ∧
    accounted s' ≡ₚ accounted s ++ more.

Lemma poll_handled_text m s dl q t : poll_ok s dl q → t ∈ poll_errors ++ other →
  poll_handled [m] s dl q (mret (Answered, reply_method_return m t s)).
Proof. intros Hs Ht. destruct (poll_ok_text s dl q m t Hs Ht). by eexists _, _, dl, q. Qed.

(** Arming the waiter of an object that has none. *)
Lemma poll_handled_arm ev m timeout s dl : poll_ok s dl [] → 0 < timeout →
  pw_msg (po_poll s) = None →
  poll_handled [m] s dl [] (let '(r, pw) := pw_arm ev m timeout (po_poll s) in
    let s := po_set_poll pw s in
    if r <? 0 then mret (Answered, reply_method_return m cannot_arm_error s)
    else mret (Deferred, s)).
Proof.
  intros Hs Htime Hnone. pose proof Hs as [[Hq Hw Hc] Hi].
  unfold pw_arm, pw_pending. rewrite (proj2 (Z.leb_gt timeout 0)), Hnone by lia.
  rewrite bool_decide_false by (by intros []).
  assert (∀ pw, waiter_ok pw → poll_ok (po_set_poll pw s) dl []) as Hset.
  { intros pw Hpw. constructor; [|done].
    constructor; [by apply law_set_poll|by rewrite law_poll_set_poll|by rewrite law_out_set_poll]. }
  assert (∀ r, r < 0 → poll_handled [m] s dl [] (if r <? 0
      then mret (Answered, reply_method_return m cannot_arm_error (po_set_poll pw_new s))
      else mret (Deferred, po_set_poll pw_new s))) as Hfail.
  { intros r Hr. rewrite (proj2 (Z.ltb_lt _ _) Hr).
    destruct (poll_handled_text m (po_set_poll pw_new s) dl [] cannot_arm_error)
      as (h & s' & dl' & q' & ? & ? & ? & Ha); [apply Hset, waiter_ok_new|by do 2 right; left|].
    exists h, s', dl', q'. split_and!; try done. rewrite Ha. unfold accounted.
    by rewrite law_out_set_poll, law_poll_set_poll, Hnone. }
  destruct (Z.ltb_spec (now_result ev) 0); [by apply Hfail|].
  destruct (Z.ltb_spec (add_time_result ev) 0); [by apply Hfail|].
  change (0 <? 0) with false. eexists _, _, dl, []. split; [done|]. split_and!; try done.
  - apply Hset. unfold waiter_ok. cbn. split; by eexists.
  - unfold accounted. rewrite law_out_set_poll, law_poll_set_poll, Hnone. cbn.
    by rewrite !app_nil_r.
Qed.

(** One call of [poll]: the request is answered or it waits, and what is
    queued is given whole or not at all. *)
Lemma handle_poll_request_ok ev m arg s dl q : poll_ok s dl q →
  poll_handled (match arg with inl _ => [] | inr _ => [m] end) s dl q
    (handle_poll_request ev m arg s).
Proof.
  intros Hs. pose proof Hs as [[Hq Hw Hc] Hi]. unfold handle_poll_request.
  destruct arg as [r|timeout].
  { exists (BusError r), s, dl, q. by rewrite app_nil_r. }
  destruct ((timeout <? 0) || _) eqn:Hrange; [by apply poll_handled_text; [|left]|].
  apply orb_false_iff in Hrange as [Hlo _]. apply Z.ltb_ge in Hlo.
  unfold pw_pending. case_bool_decide as Hpend; [by apply poll_handled_text; [|right; left]|].
  apply eq_None_not_Some in Hpend.
  rewrite (law_messages s dl q Hq). case_bool_decide as Hnil; cbn [negb].
  - subst q. destruct (Z.eqb_spec timeout 0); [|by apply poll_handled_arm; [|lia|]].
    destruct (poll_ok_batch s dl [] m); [done|by rewrite app_nil_r|done..|].
    eexists _, _, (dl ++ []), []. split; [done|]. split_and!; try done. by rewrite !app_nil_r.
  - destruct (law_drain s dl q Hq) as (rx & Hdrain & Hq').
    unfold po_drain_queue, reply_with. rewrite Hdrain. cbn [mbind cpp_bind mret cpp_ret].
    set (s1 := call_on_drained _).
    assert (po_out s1 = po_out s) as Hout by (unfold s1; by rewrite law_out_drained, law_out_set_queue).
    assert (po_poll s1 = po_poll s) as Hpoll
      by (unfold s1; by rewrite law_poll_drained, law_poll_set_queue).
    destruct (poll_ok_batch s1 dl q m) as [Hok Ha]; [by rewrite ?Hout, ?Hpoll..|].
    eexists _, _, (dl ++ q), []. split; [done|]. split_and!; [done|by rewrite app_nil_r|].
    rewrite Ha. unfold accounted. by rewrite Hout, Hpoll.
Qed.

(** The timer of the waiter fires. *)
Lemma po_timeout_ok s dl q : poll_ok s dl q →
  poll_ok (po_timeout s) dl q ∧ accounted (po_timeout s) = accounted s.
Proof.
  intros Hs. pose proof Hs as [[Hq Hw Hc] Hi]. unfold po_timeout, pw_on_timeout, pw_reply_empty, pw_reply.
  destruct (pw_timer (po_poll s)) as [t|] eqn:Ht.
  2: { split.
    - constructor; [|by rewrite law_poll_emit, law_poll_set_poll]. constructor.
      + by apply law_emit, law_set_poll.
      + by rewrite law_poll_emit, law_poll_set_poll.
      + by rewrite law_out_emit, law_out_set_poll, app_nil_r.
    - unfold accounted. rewrite law_poll_emit, law_poll_set_poll, law_out_emit, law_out_set_poll.
      by rewrite app_nil_r. }
  destruct (pw_msg (po_poll s)) as [m|] eqn:Hm; 
    [|assert (is_Some (pw_msg (po_poll s))) as [? ?] by (apply Hw; by rewrite Ht); congruence].
  rewrite Hi by done. split.
  - constructor; [|by rewrite law_poll_emit, law_poll_set_poll; intros []]. constructor.
    + rewrite <- (Hi ltac:(done)). by apply law_emit, law_set_poll.
    + rewrite law_poll_emit, law_poll_set_poll. apply waiter_ok_new.
    + rewrite law_out_emit, law_out_set_poll. rewrite <- (app_nil_r dl) at 1.
      by apply (taken_batch _ _ _ m []).
  - unfold accounted. rewrite law_poll_emit, law_poll_set_poll, law_out_emit, law_out_set_poll.
    rewrite replied_app, Hm. cbn. by rewrite app_nil_r.
Qed.
End poll_lemmas.
