(* ===== verification/Session.v ===== *)
(** * client_session.cpp and client_dbus_object.cpp: one connected client

    [session] is a [ClientSession] with its [ClientDBusObject]: the protocol
    client, the waiter of its [poll], and the epoll source of its socket.
    [handle_io] is what an epoll wake-up runs, [handle_poll] and [handle_push]
    the methods of /cli{id}.  [session_step] is everything that can happen to a
    connection; what the peer has written and the daemon has not read is
    [conn_inbound], what the daemon has sent is [conn_sent]. *)
From S2P Require Export ClientInv PollQueue.

Definition EPOLLIN : Z := 1.
Definition EPOLLOUT : Z := 4.
Definition EPOLLERR : Z := 8.
Definition EPOLLHUP : Z := 16.

(** The epoll registration, which can be switched off. *)
Record io_source := IoSource {
  io_enabled : bool;
  io_events : Z;
}.

Record session := Session {
  ss_id : Z;
  ss_client : client;
  ss_poll : poll_waiter;
  ss_io : option io_source;
  ss_rx_paused : bool;
  ss_discarded_seen : Z;
  ss_out : list output;
}.

Definition upd_client (c : client) (s : session) : session :=
  Session (ss_id s) c (ss_poll s) (ss_io s) (ss_rx_paused s) (ss_discarded_seen s) (ss_out s).
Definition upd_poll (pw : poll_waiter) (s : session) : session :=
  Session (ss_id s) (ss_client s) pw (ss_io s) (ss_rx_paused s) (ss_discarded_seen s) (ss_out s).
Definition upd_io (io : option io_source) (s : session) : session :=
  Session (ss_id s) (ss_client s) (ss_poll s) io (ss_rx_paused s) (ss_discarded_seen s) (ss_out s).
Definition upd_rx_paused (p : bool) (s : session) : session :=
  Session (ss_id s) (ss_client s) (ss_poll s) (ss_io s) p (ss_discarded_seen s) (ss_out s).
Definition upd_discarded_seen (n : Z) (s : session) : session :=
  Session (ss_id s) (ss_client s) (ss_poll s) (ss_io s) (ss_rx_paused s) n (ss_out s).
Definition add_out (l : list output) (s : session) : session :=
  Session (ss_id s) (ss_client s) (ss_poll s) (ss_io s) (ss_rx_paused s) (ss_discarded_seen s)
    (ss_out s ++ l).

Definition log_line (level text : string) (s : session) : session :=
  add_out [Log level text] s.

Definition session_rx (s : session) : rx_buffer := cl_rx (ss_client s).

Definition update_io_events (s : session) : session :=
  let events := if ss_rx_paused s then 0 else EPOLLIN in
  let events := if tx_pending (cl_tx (ss_client s)) then Z.lor events EPOLLOUT else events in
  upd_io ((λ io, if events =? 0 then IoSource false (io_events io) else IoSource true events)
    <$> ss_io s) s.

Definition on_rx_drained (s : session) : session :=
  if ss_rx_paused s then
    update_io_events (upd_client (rx_resume (ss_client s)) (upd_rx_paused false s))
  else s.

#[export] Instance session_poll_object : PollObject session := {
  po_queue := session_rx;
  po_set_queue q s := upd_client (with_rx q (ss_client s)) s;
  po_poll := ss_poll;
  po_set_poll := upd_poll;
  po_on_drained := Some on_rx_drained;
  po_out := ss_out;
  po_emit := add_out;
}.

(** [ClientDBusObject::on_rx_messages] *)
Definition on_rx_messages (s : session) : cpp session :=
  '(_, s) ← maybe_reply_pending_poll s;
  mret s.

(** [ClientDBusObject::handle_poll] *)
Definition handle_poll (ev : event_answers) (message : Z) (arg : Z + Z) (s : session)
    : cpp (handled * session) :=
  handle_poll_request ev message arg s.

Section session.
Context `{Machine}.

Definition client_prefix (id : Z) : string := "client " +:+ pretty id +:+ ": ".

(** [add_object] and [add_io] are the results of [sd_bus_add_object_vtable] and
    [sd_event_add_io]. *)
Definition session_new (id fd rx_buffer_cap tx_buffer_cap add_object add_io : Z) : cpp session :=
  c ← client_new fd rx_buffer_cap tx_buffer_cap;
  let s := Session id c pw_new None false 0 [] in
  let s := if add_object <? 0
           then log_line "error" ("sd_bus_add_object_vtable(/cli" +:+ pretty id +:+ "): "
                  +:+ strerror (- add_object)) s
           else s in
  mret (if add_io <? 0
        then log_line "error" (client_prefix id +:+ "sd_event_add_io: " +:+ strerror (- add_io)) s
        else upd_io (Some (IoSource true EPOLLIN)) s).

Definition session_ok (s : session) : bool := bool_decide (is_Some (ss_io s)).

Definition session_push (msg : bytes) (s : session) : cpp (Z * session) :=
  '(r, c) ← client_push msg (ss_client s);
  let s := upd_client c s in
  mret (r, if r =? 0 then update_io_events s else s).

Definition push_failure (pr : Z) : bytes :=
  chars (if pr =? - EMSGSIZE then "message exceeds 1 MB"
         else if pr =? - ENOBUFS then "write buffer full"
         else if pr =? - ENOTCONN then "client gone"
         else "cannot queue message").

(** [ClientDBusObject::handle_push]; [arg] is the [msg] argument, a C string,
    or the negative result of reading it. *)
Definition handle_push (message : Z) (arg : Z + bytes) (s : session) : cpp (handled * session) :=
  match arg with
  | inl r => mret (BusError r, s)
  | inr msg =>
    '(pr, s) ← session_push (c_str msg) s;
    mret (Answered, reply_method_return message (if pr =? 0 then [] else push_failure pr) s)
  end.

(** The [for (;;)] around [read]: whether to close, the session and the kernel. *)
Fixpoint read_loop (fuel : nat) (s : session) (k : kernel) : cpp (bool * session * kernel) :=
  match fuel with
  | O => Unfinished
  | S fuel =>
    '(r, c, k) ← client_read (ss_client s) k;
    let s := upd_client c s in
    match r with
    | progress => read_loop fuel s k
    | again => mret (false, s, k)
    | paused => mret (false, upd_rx_paused true s, k)
    | eof | error => mret (true, s, k)
    end
  end.

(** Two calls per answer of the kernel, at most, and two more. *)
Definition read_fuel (k : kernel) : nat := 2 * length (answers k) + 2.

Definition discard_warning (s : session) : session :=
  if ss_discarded_seen s <? cl_discarded_frames (ss_client s) then
    let s := upd_discarded_seen (cl_discarded_frames (ss_client s)) s in
    log_line "warn" (client_prefix (ss_id s) +:+ "discarded oversized frame ("
      +:+ pretty (ss_discarded_seen s) +:+ " total)") s
  else s.

(** The readable part of [handle_io]. *)
Definition handle_readable (s : session) (k : kernel) : cpp (bool * session * kernel) :=
  '(close_conn, s, k) ← read_loop (read_fuel k) s k;
  s ← if 0 <? rx_messages (session_rx s) then on_rx_messages s else mret s;
  mret (close_conn, discard_warning s, k).

(** The writable part: a hard error of [send] closes the connection. *)
Definition handle_writable (sends : list send_answer) (s : session)
    : cpp (bool * bytes * session) :=
  '(n, sent, c) ← client_flush sends (ss_client s);
  mret (n <? 0, sent, upd_client c s).

(** Whether the connection is to be closed, the bytes sent, the session and
    what is left to read. *)
Definition handle_io (revents : Z) (inb : bytes) (reads : list read_answer)
    (sends : list send_answer) (s : session) : cpp (bool * bytes * session * bytes) :=
  let readable := negb (Z.land revents EPOLLIN =? 0) in
  let writable := negb (Z.land revents EPOLLOUT =? 0) in
  let hangup := negb (Z.land revents (Z.lor EPOLLHUP EPOLLERR) =? 0) in
  '(close_conn, s, k) ← (if readable then handle_readable s (Kernel inb reads)
                          else mret (false, s, Kernel inb reads));
  '(close_conn, sent, s) ← (if writable && negb close_conn then handle_writable sends s
                             else mret (close_conn, [], s));
  let close_conn := close_conn || (hangup && negb (tx_pending (cl_tx (ss_client s)))) in
  mret (close_conn, sent,
    if close_conn then log_line "debug" (client_prefix (ss_id s) +:+ "connection closed") s
    else update_io_events s, inbound k).

(** ** Everything that can happen to a connection *)

Record connection := Conn {
  conn_session : session;
  conn_inbound : bytes;
  conn_sent : bytes;
  conn_open : bool;
}.

Inductive session_event :=
| Arrive (bs : bytes)
| Io (revents : Z) (reads : list read_answer) (sends : list send_answer)
| Poll (message : Z) (arg : Z + Z) (ev : event_answers)
| Push (message : Z) (arg : Z + bytes)
| Timeout.

(** [on_io]: the server destroys the session of a connection that is to be
    closed, which cancels its waiter. *)
Definition after_io (c : connection) (r : bool * bytes * session * bytes) : connection :=
  let '(close_conn, sent, s, inb) := r in
  Conn (if close_conn then upd_poll (pw_cancel (ss_poll s)) s else s) inb (conn_sent c ++ sent)
    (negb close_conn).

(** Nothing more happens to a session that was destroyed. *)
Definition session_step (c : connection) (e : session_event) : cpp connection :=
  let s := conn_session c in
  if negb (conn_open c) then mret c else
  match e with
  | Arrive bs => mret (Conn s (conn_inbound c ++ bs) (conn_sent c) true)
  | Io revents reads sends =>
    r ← handle_io revents (conn_inbound c) reads sends s;
    mret (after_io c r)
  | Poll message arg ev =>
    '(_, s) ← handle_poll ev message arg s;
    mret (Conn s (conn_inbound c) (conn_sent c) true)
  | Push message arg =>
    '(_, s) ← handle_push message arg s;
    mret (Conn s (conn_inbound c) (conn_sent c) true)
  | Timeout => mret (Conn (po_timeout s) (conn_inbound c) (conn_sent c) true)
  end.

(** ** Runs *)

(** What the peer and the script have done to an open connection: the bytes
    written to the socket, the messages whose [push] was accepted, and the
    requests that reached a handler. *)
Record history := History {
  arrived : bytes;
  accepted : list bytes;
  requests : list Z;
}.

Definition push_accepted (c : connection) (msg : bytes) : bool :=
  match session_push (c_str msg) (conn_session c) with
  | Returns (r, _) => r =? 0
  | _ => false
  end.

Definition observe (c : connection) (e : session_event) (h : history) : history :=
  if negb (conn_open c) then h else
  match e with
  | Arrive bs => History (arrived h ++ bs) (accepted h) (requests h)
  | Poll message (inr _) _ => History (arrived h) (accepted h) (requests h ++ [message])
  | Push message (inr msg) =>
    History (arrived h) (accepted h ++ if push_accepted c msg then [c_str msg] else [])
      (requests h ++ [message])
  | _ => h
  end.

Fixpoint session_run (c : connection) (h : history) (es : list session_event) : cpp (connection * history) :=
  match es with
  | [] => mret (c, h)
  | e :: es => c' ← session_step c e; session_run c' (observe c e h) es
  end.

Lemma session_run_app c h es es' :
  session_run c h (es ++ es') = ('(c, h) ← session_run c h es; session_run c h es').
Proof.
  revert c h. induction es as [|e es IH]; intros c h; [done|]. cbn [app session_run].
  destruct (session_step c e) as [c'| | |]; [apply IH|done..].
Qed.

Definition conn_new (s : session) : connection := Conn s [] [] true.
Definition no_history : history := History [] [] [].
End session.
