(* ===== verification/SessionInv.v ===== *)
(** * The invariant of a connection

    [session_ok b d tq s delivered queued]: the session [s] has consumed what
    takes the reference decoder to [d], of its payloads [delivered] went out in
    replies and [queued] are in the RX buffer, [tq] is to be sent, and the
    pause of the session agrees with the client's; with [b], the epoll
    registration is up to date.  It is what a session keeps of its queue for
    the interface of PollQueue.v, so that the lemmas on [poll] apply to it. *)
From S2P Require Export Session.

Section inv.
Context `{Machine} (cap sid : Z).

Definition armed (s : session) : Prop := update_io_events s = s.

Record session_holds (b : bool) (d : decoded) (tq : bytes) (s : session)
    (delivered queued : list bytes) : Prop := {
  sh_client : client_holds (ss_client s) d delivered queued;
  sh_paused : ss_rx_paused s = cl_rx_paused (ss_client s);
  sh_room : cl_rx_paused (ss_client s) = true → no_room (ss_client s);
  sh_tx : tx_queue (cl_tx (ss_client s)) tq;
  sh_armed : b = true → armed s;
  sh_io : is_Some (ss_io s);
  sh_capacity : rx_capacity (session_rx s) = cap;
  sh_id : ss_id s = sid;
}.

Lemma update_io_armed s : armed (update_io_events s).
Proof. unfold armed, update_io_events. destruct s as [? ? ? [] ? ? ?]; cbn; [|done]. by case_match. Qed.

(** A session that reads has its socket watched for input. *)
Lemma armed_reading s : armed s → is_Some (ss_io s) → ss_rx_paused s = false →
  ∃ events, ss_io s = Some (IoSource true events) ∧ Z.land events EPOLLIN = EPOLLIN.
Proof.
  unfold armed, update_io_events. intros Harm [io Hio] Hp. rewrite Hp, Hio in Harm.
  rewrite <- Harm. cbn. destruct (tx_pending _); by eexists.
Qed.

Lemma armed_poll pw s : armed s → armed (upd_poll pw s).
Proof. unfold armed, update_io_events, upd_io. destruct s; cbn. by intros [= ->]. Qed.

Lemma armed_out l s : armed s → armed (add_out l s).
Proof. unfold armed, update_io_events, upd_io. destruct s; cbn. by intros [= ->]. Qed.

Lemma session_holds_poll pw b d tq s dl q :
  session_holds b d tq s dl q → session_holds b d tq (upd_poll pw s) dl q.
Proof. intros []. constructor; auto using armed_poll. Qed.

Lemma session_holds_out l b d tq s dl q :
  session_holds b d tq s dl q → session_holds b d tq (add_out l s) dl q.
Proof. intros []. constructor; auto using armed_out. Qed.

Lemma session_holds_seen n b d tq s dl q :
  session_holds b d tq s dl q → session_holds b d tq (upd_discarded_seen n s) dl q.
Proof.
  intros []. constructor; try done. unfold armed, update_io_events, upd_io in *.
  destruct s; cbn in *. intros Hb. by injection (sh_armed0 Hb) as ->.
Qed.

Lemma session_holds_update b d tq s dl q :
  session_holds false d tq s dl q → session_holds b d tq (update_io_events s) dl q.
Proof.
  intros []. constructor; try done; [intros _; apply update_io_armed|]. cbn. by apply fmap_is_Some.
Qed.

(** Reads are resumed by a drain that frees the buffer. *)
Lemma session_holds_drained b d tq s dl q rx : session_holds b d tq s dl q →
  drain_queue (session_rx s) = Returns (json_array q, rx) →
  session_holds b d tq (on_rx_drained (upd_client (with_rx rx (ss_client s)) s)) (dl ++ q) [].
Proof.
  intros [Hc Hp Hr Ht Ha Hio Hcp Hid] Hdrain.
  destruct (client_holds_drained _ _ _ _ Hc) as (rx' & Hdrain' & Hc' & Hcap).
  unfold session_rx in Hdrain. rewrite Hdrain in Hdrain'. injection Hdrain' as <-.
  unfold on_rx_drained. cbn [ss_rx_paused upd_client]. destruct (ss_rx_paused s) eqn:Hps.
  - apply session_holds_update. constructor; cbn; try done;
      [by apply client_holds_resume|by rewrite <- Hcp].
  - constructor; cbn; try done; [by rewrite Hps, Hp in *|rewrite <- Hp; done| |by rewrite <- Hcp].
    intros Hb. specialize (Ha Hb). unfold armed, update_io_events, upd_io in *. cbn in *.
    destruct s; cbn in *. by injection Ha as ->.
Qed.

#[export] Instance session_poll_laws b d tq :
  PollObjectLaws session (session_holds b d tq).
Proof.
  split; try done; cbn.
  - intros s. unfold on_rx_drained. by case_match.
  - intros s. unfold on_rx_drained. by case_match.
  - intros. by apply session_holds_poll.
  - intros. by apply session_holds_out.
  - intros s dl q [[_ (part & Hq & _) _ _] _ _ _ _ _ _ _]. by eapply rx_messages_zero.
  - intros s dl q Hs. destruct (client_holds_drained _ _ _ _ (sh_client _ _ _ _ _ _ Hs))
      as (rx & Hdrain & _). exists rx. split; [done|].
    by apply session_holds_drained.
Qed.

(** ** Input *)

(** What the reading part keeps: the waiter, the output and the id. *)
Definition same_object (s s' : session) : Prop :=
  ss_poll s' = ss_poll s ∧ ss_out s' = ss_out s ∧ ss_id s' = ss_id s ∧
  is_Some (ss_io s') = is_Some (ss_io s).

(** The loop around [read] ends, and what it took off the socket went through
    the reference decoder. *)
Lemma read_loop_holds fuel s k d tq dl q : session_holds false d tq s dl q →
  (work (ss_client s) k < fuel)%nat →
  ∃ close s' k' consumed fresh, read_loop fuel s k = Returns (close, s', k') ∧
    inbound k = consumed ++ inbound k' ∧
    session_holds false (decode_from d consumed) tq s' dl (q ++ fresh) ∧ same_object s s'.
Proof.
  revert s k d q. induction fuel as [|fuel IH]; intros s k d q Hs Hfuel; [lia|].
  pose proof Hs as [Hc Hp Hr Ht _ Hio Hcp Hid]. cbn [read_loop].
  destruct (client_read_holds (ss_client s) k d dl q Hc Hr) as (r & c' & k' & Hread & Hdone).
  assert (r ≠ paused → cl_rx_paused (ss_client s) = false) as Hrun.
  { intros Hne. apply not_true_is_false. intros Htrue. unfold client_read in Hread.
    rewrite (proj2 (Z.ltb_ge _ _)), Htrue in Hread by apply Hc.
    injection Hread as <- _ _. done. }
  rewrite Hread. cbn [mbind cpp_bind].
  destruct Hdone as [(consumed & fresh & Hin & Hc') Hwork _ Hpause Hroom (Htx & _ & Hcp')].
  assert (∀ p, p = bool_decide (r = paused) →
    session_holds false (decode_from d consumed) tq (upd_rx_paused p (upd_client c' s)) dl (q ++ fresh)) as Hnext.
  { intros p ->. constructor; cbn; [done|by rewrite Hpause| |by rewrite Htx|done|done|exact (eq_trans Hcp' Hcp)|done].
    rewrite Hpause. case_bool_decide; [by intros _; apply Hroom|done]. }
  assert (r ≠ paused → session_holds false (decode_from d consumed) tq (upd_client c' s) dl (q ++ fresh)) as Hcont.
  { intros Hne. specialize (Hnext (ss_rx_paused s)). destruct s; apply Hnext. cbn in *.
    rewrite Hp, Hrun by done. by rewrite bool_decide_false. }
  destruct r.
  - destruct (IH (upd_client c' s) k' (decode_from d consumed) (q ++ fresh))
      as (close & s2 & k2 & consumed2 & fresh2 & Hloop & Hin2 & Hs2 & Hsame);
      [by apply Hcont|specialize (Hwork eq_refl); cbn [ss_client upd_client]; lia|].
    exists close, s2, k2, (consumed ++ consumed2), (fresh ++ fresh2).
    rewrite decode_from_app, (app_assoc q), <- app_assoc, <- Hin2. by split_and!.
  - by eexists false, _, k', consumed, fresh; split_and!; try apply Hcont.
  - by eexists false, _, k', consumed, fresh; split_and!; try apply Hnext.
  - by eexists true, _, k', consumed, fresh; split_and!; try apply Hcont.
  - by eexists true, _, k', consumed, fresh; split_and!; try apply Hcont.
Qed.

(** The texts that answer a [push]. *)
Definition push_texts : list bytes :=
  [[]; push_failure (- EMSGSIZE); push_failure (- ENOBUFS); push_failure (- ENOTCONN);
   push_failure 0].

(** The consistency of the interface, at an invariant with its parameters. *)
Abbreviation consistent b d tq := (poll_consistent (I := session_holds b d tq) push_texts).
Abbreviation ok b d tq := (poll_ok (I := session_holds b d tq) push_texts).

Lemma discard_warning_ok b d tq s dl q : ok b d tq s dl q →
  ok b d tq (discard_warning s) dl q ∧ accounted (discard_warning s) = accounted s.
Proof.
  intros Hs. unfold discard_warning. case_match; [|done]. unfold log_line.
  set (s1 := upd_discarded_seen _ s).
  assert (ok b d tq s1 dl q ∧ accounted s1 = accounted s) as [Hs1 Ha].
  { destruct Hs as [[? ? ?] ?]. split; [|done]. constructor; [|done].
    constructor; [by apply session_holds_seen|done..]. }
  destruct (poll_ok_log push_texts s1 dl q "warn" (client_prefix (ss_id s1) +:+
    "discarded oversized frame (" +:+ pretty (ss_discarded_seen s1) +:+ " total)") Hs1) as [? Ha'].
  split; [done|]. by rewrite <- Ha.
Qed.

Lemma handle_readable_ok s k d tq dl q : ok false d tq s dl q →
  ∃ close s' k' consumed dl' q', handle_readable s k = Returns (close, s', k') ∧
    inbound k = consumed ++ inbound k' ∧ ok false (decode_from d consumed) tq s' dl' q' ∧
    accounted s' = accounted s.
Proof.
  intros [[Hq Hw Hc] Hi]. unfold handle_readable.
  destruct (read_loop_holds (read_fuel k) s k d tq dl q Hq)
    as (close & s1 & k1 & consumed & fresh & -> & Hin & Hs1 & Hpoll & Hout & _).
  { unfold read_fuel, work. case_match; lia. }
  cbn [mbind cpp_bind].
  assert (consistent false (decode_from d consumed) tq s1 dl (q ++ fresh)) as Hcons.
  { constructor; [done|cbn; by rewrite Hpoll|cbn; by rewrite Hout]. }
  assert (∃ s2 dl2 q2, (if 0 <? rx_messages (session_rx s1) then on_rx_messages s1 else mret s1)
      = Returns s2 ∧ ok false (decode_from d consumed) tq s2 dl2 q2 ∧
      accounted s2 = accounted s) as (s2 & dl2 & q2 & -> & Hs2 & Ha2).
  { assert (accounted s1 = accounted s) as Ha1 by (unfold accounted; cbn; by rewrite Hout, Hpoll).
    pose proof (law_messages s1 dl (q ++ fresh) Hs1) as Hm. cbn in Hm.
    destruct (Z.ltb_spec 0 (rx_messages (session_rx s1))) as [Hpos|Hneg].
    - unfold on_rx_messages.
      destruct (maybe_reply_pending_poll_ok push_texts s1 dl _ Hcons)
        as (b & s2 & dl2 & q2 & -> & Hok & _ & Ha & _).
      eexists s2, dl2, q2. by rewrite <- Ha1.
    - exists s1, dl, (q ++ fresh). split; [done|]. split; [|done]. constructor; [done|].
      intros _. destruct Hs1 as [[_ (part & Hrq & _) _ _] _ _ _ _ _ _ _].
      pose proof (rq_messages _ _ _ Hrq). apply zlen_0. pose proof (zlen_nonneg (q ++ fresh)).
      unfold session_rx in *. lia. }
  cbn [mbind cpp_bind]. destruct (discard_warning_ok _ _ _ s2 dl2 q2 Hs2) as [Hs3 Ha3].
  eexists _, _, _, consumed, dl2, q2. split; [done|]. by rewrite Ha3.
Qed.

(** ** Output *)

Lemma session_holds_weaken b d tq s dl q :
  session_holds b d tq s dl q → session_holds false d tq s dl q.
Proof. intros []. by constructor. Qed.

Lemma ok_weaken b d tq s dl q : ok b d tq s dl q → ok false d tq s dl q.
Proof. intros [[Hq Hw Hc] Hi]. constructor; [|done]. constructor; [by eapply session_holds_weaken|done..]. Qed.

(** Bytes were sent or queued. *)
Lemma session_holds_tx b d tq tq' s dl q tx : session_holds b d tq s dl q → tx_queue tx tq' →
  session_holds false d tq' (upd_client (with_tx tx (ss_client s)) s) dl q.
Proof. intros [Hc Hp Hr Ht _ Hio Hcp Hid] Htx. constructor; cbn; try done. by apply client_holds_tx. Qed.

Lemma ok_tx b d tq tq' s dl q tx : ok b d tq s dl q → tx_queue tx tq' →
  ok false d tq' (upd_client (with_tx tx (ss_client s)) s) dl q ∧
  accounted (upd_client (with_tx tx (ss_client s)) s) = accounted s.
Proof.
  intros [[Hq Hw Hc] Hi] Htx. split; [|done]. constructor; [|done].
  constructor; [by eapply session_holds_tx|done..].
Qed.

Lemma ok_update d tq s dl q : ok false d tq s dl q →
  ok true d tq (update_io_events s) dl q ∧ accounted (update_io_events s) = accounted s.
Proof.
  intros [[Hq Hw Hc] Hi]. split; [|done]. constructor; [|done].
  constructor; [by apply session_holds_update|done..].
Qed.

Lemma handle_writable_ok b sends s d tq dl q : ok b d tq s dl q →
  ∃ close sent s' tq', handle_writable sends s = Returns (close, sent, s') ∧
    tq = sent ++ tq' ∧ ok false d tq' s' dl q ∧ accounted s' = accounted s.
Proof.
  intros Hs. pose proof Hs as [[[Hcl _ _ Ht _ _ _ _] _ _] _]. unfold handle_writable, client_flush.
  rewrite (proj2 (Z.ltb_ge _ _)) by apply Hcl.
  destruct (tx_flush_queue sends _ _ Ht) as (ret & sent & tq' & tx' & -> & Hq' & Htx & _).
  cbn [mbind cpp_bind mret cpp_ret]. destruct (ok_tx _ _ _ _ _ _ _ _ Hs Htx) as [Hok Ha].
  by eexists _, sent, _, tq'.
Qed.

(** ** The handlers *)

(** One epoll wake-up. *)
Lemma handle_io_ok revents inb reads sends s d tq dl q : ok true d tq s dl q →
  ∃ close sent s' inb' consumed dl' q' tq',
    handle_io revents inb reads sends s = Returns (close, sent, s', inb') ∧
    inb = consumed ++ inb' ∧ tq = sent ++ tq' ∧
    ok (negb close) (decode_from d consumed) tq' s' dl' q' ∧ accounted s' = accounted s.
Proof.
  intros Hs. unfold handle_io.
  assert (∃ close s1 k consumed dl1 q1,
    (if negb (Z.land revents EPOLLIN =? 0) then handle_readable s (Kernel inb reads)
     else mret (false, s, Kernel inb reads)) = Returns (close, s1, k) ∧
    inb = consumed ++ inbound k ∧ ok false (decode_from d consumed) tq s1 dl1 q1 ∧
    accounted s1 = accounted s) as (close1 & s1 & k & consumed & dl1 & q1 & -> & Hin & Hs1 & Ha1).
  { case_match; [by eapply handle_readable_ok, ok_weaken|].
    eexists _, _, _, [], dl, q. split_and!; try done. by eapply ok_weaken. }
  cbn [mbind cpp_bind].
  assert (∃ close s2 sent tq2,
    (if negb (Z.land revents EPOLLOUT =? 0) && negb close1 then handle_writable sends s1
     else mret (close1, [], s1)) = Returns (close, sent, s2) ∧ tq = sent ++ tq2 ∧
    ok false (decode_from d consumed) tq2 s2 dl1 q1 ∧ accounted s2 = accounted s)
    as (close2 & s2 & sent & tq2 & -> & Htq & Hs2 & Ha2).
  { case_match.
    - destruct (handle_writable_ok _ sends _ _ _ _ _ Hs1) as (c & sent & s2 & tq2 & -> & ? & ? & Ha).
      eexists c, s2, sent, tq2. by rewrite Ha.
    - by eexists _, s1, [], tq. }
  cbn [mbind cpp_bind mret cpp_ret].
  eexists _, sent, _, _, consumed, dl1, q1, tq2. split; [done|]. split; [done|]. split; [done|].
  destruct (close2 || _); cbn [negb].
  - destruct (poll_ok_log push_texts s2 dl1 q1 "debug" (client_prefix (ss_id s2) +:+
      "connection closed") Hs2) as [Hok Ha]. split; [done|]. by rewrite <- Ha2.
  - destruct (ok_update _ _ _ _ _ Hs2) as [Hok Ha]. by rewrite Ha.
Qed.

(** Whether a message fits the queue to the client. *)
Definition push_result (capacity : Z) (tq msg : bytes) : Z :=
  if kMaxMessageLen <? zlen msg then - EMSGSIZE
  else if capacity <? zlen tq + kHeaderLen + zlen msg then - ENOBUFS else 0.

Lemma session_push_ok msg s d tq dl q : ok true d tq s dl q →
  let r := push_result (tx_capacity (cl_tx (ss_client s))) tq msg in
  ∃ s', session_push msg s = Returns (r, s') ∧
    ok true d (tq ++ if r =? 0 then frame msg else []) s' dl q ∧ accounted s' = accounted s.
Proof.
  intros Hs r. pose proof Hs as [[[Hcl _ _ Ht _ _ _ _] _ _] _]. unfold session_push, client_push.
  rewrite (proj2 (Z.ltb_ge _ _)) by apply Hcl.
  assert (r ≠ 0 → ∃ s', (r0 ← (let '(r1, tx) := (r, cl_tx (ss_client s)) in
      mret (r1, with_tx tx (ss_client s)));
      (let '(r1, c) := r0 in let s1 := upd_client c s in
        mret (r1, if r1 =? 0 then update_io_events s1 else s1))) = Returns (r, s') ∧
    ok true d (tq ++ if r =? 0 then frame msg else []) s' dl q ∧ accounted s' = accounted s) as Hrefused.
  { intros Hr. cbn. rewrite (proj2 (Z.eqb_neq _ _) Hr), app_nil_r. exists s.
    split; [|done]. do 2 f_equal. by destruct s as [? [] ? ? ? ? ?]. }
  unfold r, push_result in *. destruct (Z.ltb_spec kMaxMessageLen (zlen msg)) as [Hbig|Hmax].
  { rewrite (tx_push_refused msg _ _ Ht) by by left.
    rewrite (proj2 (Z.ltb_lt _ _)) by done. by apply Hrefused. }
  destruct (Z.ltb_spec (tx_capacity (cl_tx (ss_client s))) (zlen tq + kHeaderLen + zlen msg)) as [Hfull|Hfit].
  { rewrite (tx_push_refused msg _ _ Ht) by by right.
    rewrite (proj2 (Z.ltb_ge _ _)) by done. by apply Hrefused. }
  destruct (tx_push_queue msg _ _ Ht) as (tx & -> & Htx & _); [done..|].
  cbn [mbind cpp_bind mret cpp_ret]. change (0 =? 0) with true.
  destruct (ok_tx _ _ _ _ _ _ _ _ Hs Htx) as [Hok Ha]. destruct (ok_update _ _ _ _ _ Hok) as [Hok' Ha'].
  eexists. split; [done|]. split; [done|]. by rewrite Ha'.
Qed.

Lemma handle_push_ok message arg s d tq dl q : ok true d tq s dl q →
  ∃ h s' more, handle_push message arg s = Returns (h, s') ∧
    more = match arg with
           | inr msg => if push_result (tx_capacity (cl_tx (ss_client s))) tq (c_str msg) =? 0
                        then frame (c_str msg) else []
           | inl _ => []
           end ∧
    ok true d (tq ++ more) s' dl q ∧
    accounted s' ≡ₚ accounted s ++ match arg with inl _ => [] | inr _ => [message] end.
Proof.
  intros Hs. unfold handle_push. destruct arg as [r|msg].
  { eexists _, s, []. by rewrite !app_nil_r. }
  destruct (session_push_ok (c_str msg) s d tq dl q Hs) as (s1 & -> & Hs1 & Ha1).
  cbn [mbind cpp_bind mret cpp_ret]. set (r := push_result _ _ _) in *.
  destruct (poll_ok_text _ _ _ _ message (if r =? 0 then [] else push_failure r) Hs1)
    as [Hok Ha].
  { apply elem_of_app. right.
    assert (r = 0 ∨ r = - EMSGSIZE ∨ r = - ENOBUFS) as Hr
      by (unfold r, push_result; repeat case_match; auto).
    destruct Hr as [Hr|[Hr|Hr]]; rewrite Hr; [by left|by right; left|by right; right; left]. }
  eexists _, _, _. split; [done|]. split; [done|]. split; [done|]. by rewrite Ha, Ha1.
Qed.
End inv.
