(* ===== verification/ConnInv.v ===== *)
(** * The invariant of a run of a connection

    [conn_holds h c]: what the connection [c] owes to its history [h].  The
    bytes that arrived are those consumed and those still in the socket; the
    bytes sent and those queued are the frames of the accepted messages; each
    request has been answered or waits.  [session_step_holds] shows that every
    event returns and keeps it. *)
From S2P Require Export SessionInv.

(** The buffer sizes that config.cpp accepts ([parse_buffer_cap]), up to 8 GB,
    and the capacity that a configured size stands for. *)
Definition kMinBufferCap : Z := 64.
Definition buffer_cap_ok (cap : Z) : Prop := cap = 0 ∨ kMinBufferCap ≤ cap ≤ max_capacity.
Definition effective_cap (cap : Z) : Z := if cap =? 0 then kDefaultBufferCap else cap.

Section connection.
Context `{Machine} (cap sid : Z).

Record conn_at (h : history) (c : connection) (d : decoded) (tq : bytes) (delivered queued : list bytes)
    (lost : list Z) : Prop := {
  ca_in : ∃ consumed, arrived h = consumed ++ conn_inbound c ∧ d = decode consumed;
  ca_ok : poll_ok (I := session_holds cap sid (conn_open c) d tq) push_texts (conn_session c) delivered queued;
  ca_out : conn_sent c ++ tq = concat (map frame (accepted h));
  ca_requests : accounted (conn_session c) ++ lost ≡ₚ requests h;
  ca_accepted : Forall (λ m, zlen m ≤ kMaxMessageLen) (accepted h);
  ca_lost : (length lost ≤ 1)%nat ∧ (conn_open c = true → lost = []);
}.

Definition conn_holds (h : history) (c : connection) : Prop :=
  ∃ d tq delivered queued lost, conn_at h c d tq delivered queued lost.

Lemma push_accepted_result c msg d tq dl q :
  poll_ok (I := session_holds cap sid true d tq) push_texts (conn_session c) dl q →
  push_accepted c msg
  = (push_result (tx_capacity (cl_tx (ss_client (conn_session c)))) tq (c_str msg) =? 0).
Proof.
  intros Hs. unfold push_accepted.
  by destruct (session_push_ok cap sid (c_str msg) _ _ _ _ _ Hs) as (s' & -> & _).
Qed.

(** The requests of a step that keeps the session. *)
Lemma requests_more (l l' reqs more : list Z) : l' ≡ₚ l ++ more →
  l ++ [] ≡ₚ reqs → l' ++ [] ≡ₚ reqs ++ more.
Proof. intros -> Hl. rewrite app_nil_r in *. by rewrite Hl. Qed.

Lemma none_lost (open : bool) : (length (@nil Z) ≤ 1)%nat ∧ (open = true → @nil Z = []).
Proof. split; [cbn; lia|done]. Qed.

Lemma session_step_holds h c e : conn_holds h c →
  ∃ c', session_step c e = Returns c' ∧ conn_holds (observe c e h) c'.
Proof.
  intros (d & tq & dl & q & lost & Hc). unfold session_step, observe.
  destruct (conn_open c) eqn:Hopen; cbn [negb]; [|by exists c; split; [|exists d, tq, dl, q, lost]].
  destruct Hc as [(consumed & Hin & Hd) Hs Hout Hreq Hacc [_ Hlost]]. rewrite Hopen in *.
  specialize (Hlost eq_refl). subst lost.
  destruct e as [bs|revents reads sends|message arg ev|message arg|].
  - eexists. split; [done|]. exists d, tq, dl, q, [].
    constructor; cbn; [|done|done|done|done|apply none_lost]. exists consumed. by rewrite Hin, <- app_assoc.
  - destruct (handle_io_ok cap sid revents (conn_inbound c) reads sends _ _ _ _ _ Hs)
      as (close & sent & s' & inb' & more & dl' & q' & tq' & -> & Hin' & Htq & Hs' & Ha).
    eexists. split; [done|]. unfold after_io.
    exists (decode_from d more), tq', dl', q',
      (if close then option_list (pw_msg (ss_poll s')) else []).
    constructor; cbn.
    + exists (consumed ++ more). rewrite Hin, Hin', app_assoc, decode_app, Hd. done.
    + destruct close; [|done]. destruct Hs' as [[Hq Hw Hcar] Hi]. constructor; [|by intros []].
      constructor; [by apply session_holds_poll|apply waiter_ok_new|done].
    + by rewrite <- app_assoc, <- Htq.
    + rewrite app_nil_r in Hreq. rewrite <- Hreq, <- Ha.
      destruct close; unfold accounted; cbn; by rewrite ?app_nil_r.
    + done.
    + split; [|by destruct close]. destruct close; [|cbn; lia]. destruct (pw_msg _); cbn; lia.
  - destruct (handle_poll_request_ok push_texts ev message arg _ _ _ Hs)
      as (hd & s' & dl' & q' & Hr & Hs' & Happ & Ha).
    unfold handle_poll. rewrite Hr. eexists. split; [done|].
    exists d, tq, dl', q', [].
    destruct arg as [r|timeout]; constructor; cbn; [by exists consumed|done|done| |done
      |apply none_lost|by exists consumed|done|done| |done|apply none_lost].
    + rewrite <- (app_nil_r (requests h)). by eapply requests_more.
    + by eapply requests_more.
  - destruct (handle_push_ok cap sid message arg _ _ _ _ _ Hs) as (hd & s' & more & -> & Hmore & Hs' & Ha).
    eexists. split; [done|]. exists d, (tq ++ more), dl, q, [].
    destruct arg as [r|msg]; constructor; cbn; [by exists consumed|done| | |done
      |apply none_lost|by exists consumed|done| | | |apply none_lost].
    + by rewrite Hmore, app_nil_r.
    + rewrite <- (app_nil_r (requests h)). by eapply requests_more.
    + rewrite (push_accepted_result c msg _ _ _ _ Hs), map_app, concat_app, <- Hout, Hmore.
      rewrite app_assoc. f_equal. case_match; cbn; by rewrite ?app_nil_r.
    + by eapply requests_more.
    + apply Forall_app_2; [done|]. rewrite (push_accepted_result c msg _ _ _ _ Hs).
      unfold push_result. destruct (Z.ltb_spec kMaxMessageLen (zlen (c_str msg))); [by cbn|].
      destruct (_ <? _); [by cbn|]. by repeat constructor.
  - destruct (po_timeout_ok push_texts _ _ _ Hs) as [Hs' Ha]. eexists. split; [done|].
    exists d, tq, dl, q, []. constructor; cbn -[po_timeout accounted]; [by exists consumed|done|done| |done|apply none_lost].
    by rewrite Ha.
Qed.

Lemma session_run_holds es h c : conn_holds h c →
  ∃ c' h', session_run c h es = Returns (c', h') ∧ conn_holds h' c'.
Proof.
  revert h c. induction es as [|e es IH]; intros h c Hc; [by exists c, h|].
  destruct (session_step_holds h c e Hc) as (c' & Hstep & Hc').
  cbn [session_run]. rewrite Hstep. by apply IH.
Qed.

(** A session that has just been set up, when its socket could be registered. *)
Lemma conn_new_holds `{!MachineLaws H} fd rx_cap tx_cap add_object add_io : 0 ≤ fd →
  buffer_cap_ok rx_cap → buffer_cap_ok tx_cap → cap = effective_cap rx_cap →
  ∃ s, session_new sid fd rx_cap tx_cap add_object add_io = Returns s ∧
    session_ok s = bool_decide (0 ≤ add_io) ∧
    (session_ok s = true → conn_holds no_history (conn_new s)).
Proof.
  unfold buffer_cap_ok, kMinBufferCap. intros Hfd Hrx Htx Hcp. unfold session_new.
  destruct (client_new_holds fd rx_cap tx_cap) as (c & -> & Hc & Hp & Ht & Hcap);
    [done|lia|unfold kHeaderLen, max_capacity in *; lia|].
  cbn [mbind cpp_bind mret cpp_ret]. eexists. split; [done|].
  set (s := if add_object <? 0 then _ else _).
  assert (ss_io s = None ∧ ss_client s = c ∧ ss_poll s = pw_new ∧ ss_rx_paused s = false ∧
    ss_id s = sid ∧ replied (ss_out s) = [] ∧ taken push_texts (ss_out s) [])
    as (Hio & Hcl & Hpw & Hps & Hid & Hrep & Hout).
  { unfold s. destruct (add_object <? 0); split_and!; try done; [|apply taken_nil].
    cbn. apply (taken_log _ []), taken_nil. }
  clearbody s. destruct (Z.ltb_spec add_io 0) as [Hneg|Hpos].
  - assert (session_ok (log_line "error" (client_prefix sid +:+ "sd_event_add_io: " +:+
      strerror (- add_io)) s) = false) as ->.
    { unfold session_ok. cbn. rewrite Hio. apply bool_decide_false. by intros []. }
    rewrite bool_decide_false by lia. done.
  - split; [by rewrite bool_decide_true by lia|]. intros _.
    exists start, [], [], [], []. constructor; cbn -[accounted]; try done; [by exists []| | |].
    + constructor; [|cbn; rewrite Hpw; by intros []].
      constructor; [|cbn; rewrite Hpw; apply waiter_ok_new|done].
      constructor; cbn; rewrite ?Hcl; try done; [by rewrite Hps, Hp|by rewrite Hp| |].
      * intros _. unfold armed, update_io_events, tx_pending. cbn.
        rewrite Hcl, Hps, (tq_len _ _ Ht). done.
      * unfold session_rx. cbn. by rewrite Hcl, Hcap.
    + unfold accounted. cbn -[replied]. by rewrite Hpw, Hrep.
    + split; [lia|done].
Qed.
End connection.
