(* ===== verification/Starvation.v ===== *)
(** * Reads that are paused with nothing queued

    Only [on_rx_drained] resumes the reads of a connection, and only a [poll]
    that finds messages calls it.  A connection that is paused with an empty
    queue is therefore paused for good: [step_stuck].  The first frame of a
    connection pauses it so when the frame does not fit the empty buffer:
    [first_frame_pauses]. *)
From S2P Require Export ConnInv.

Section starvation.
Context `{Machine}.

(** What decides whether the connection reads. *)
Definition reading_state (s : session) : bool * bool * Z * rx_buffer :=
  (ss_rx_paused s, cl_rx_paused (ss_client s), cl_fd (ss_client s), session_rx s).

Definition stuck (s : session) : Prop :=
  ∃ fd rx, reading_state s = (true, true, fd, rx) ∧ 0 ≤ fd ∧ rx_messages rx = 0.

Lemma stuck_same s s' : reading_state s' = reading_state s → stuck s → stuck s'.
Proof. unfold stuck. by intros ->. Qed.

Lemma stuck_read s k : stuck s → client_read (ss_client s) k = Returns (paused, ss_client s, k).
Proof.
  intros (fd & rx & [= _ Hp Hfd _] & Hpos & _). unfold client_read.
  by rewrite (proj2 (Z.ltb_ge _ _)), Hp by lia.
Qed.

Lemma discard_warning_state s : reading_state (discard_warning s) = reading_state s.
Proof. unfold discard_warning. by case_match. Qed.

Lemma stuck_readable s k r : stuck s → handle_readable s k = Returns r →
  stuck (snd (fst r)) ∧ snd r = k.
Proof.
  intros Hs. unfold handle_readable, read_fuel. rewrite Nat.add_comm. cbn [Nat.add read_loop].
  rewrite stuck_read by done. cbn [mbind cpp_bind mret cpp_ret].
  assert (rx_messages (session_rx (upd_rx_paused true (upd_client (ss_client s) s))) = 0) as ->
    by (by destruct Hs as (fd & rx & [= _ _ _ <-] & _ & ?)).
  change (0 <? 0) with false. cbn [mbind cpp_bind mret cpp_ret]. intros [= <-]. split; [|done].
  cbn [fst snd]. eapply stuck_same; [apply discard_warning_state|].
  eapply stuck_same; [|done]. destruct Hs as (fd & rx & [= Hp _ _ _] & _).
  unfold reading_state. cbn. by rewrite Hp.
Qed.

Lemma writable_state sends s r : handle_writable sends s = Returns r →
  reading_state (snd r) = reading_state s.
Proof.
  unfold handle_writable, client_flush.
  destruct (cl_fd (ss_client s) <? 0); [by intros [= <-]|].
  destruct (tx_flush _ _) as [[[n sent] tx]| | |]; [|done..]. by intros [= <-].
Qed.

Lemma update_io_state s : reading_state (update_io_events s) = reading_state s.
Proof. done. Qed.

Lemma stuck_io revents inb reads sends s r : stuck s →
  handle_io revents inb reads sends s = Returns r → stuck (snd (fst r)) ∧ snd r = inb.
Proof.
  intros Hs. unfold handle_io.
  destruct (if negb (Z.land revents EPOLLIN =? 0) then _ else _) as [r1| | |] eqn:H1; [|done..].
  assert (stuck (snd (fst r1)) ∧ inbound (snd r1) = inb) as [Hs1 Hk].
  { case_match; [|by injection H1 as <-]. by destruct (stuck_readable _ _ _ Hs H1) as [? ->]. }
  destruct r1 as [[close1 s1] k]. cbn [fst snd] in *. cbn [mbind cpp_bind].
  destruct (if negb (Z.land revents EPOLLOUT =? 0) && negb close1 then _ else _)
    as [r2| | |] eqn:H2; [|done..].
  assert (stuck (snd r2)) as Hs2.
  { case_match; [|by injection H2 as <-]. eapply stuck_same; [by eapply writable_state|done]. }
  destruct r2 as [[close2 sent] s2]. cbn [fst snd mbind cpp_bind mret cpp_ret] in *.
  intros [= <-]. cbn [fst snd]. split; [|done]. 
  destruct (close2 || _); [apply (stuck_same s2); [reflexivity|done]|by apply (stuck_same s2)].
Qed.

Lemma stuck_poll ev message arg s r : stuck s → handle_poll ev message arg s = Returns r →
  stuck (snd r).
Proof.
  intros Hs. unfold handle_poll, handle_poll_request. cbn [po_queue po_poll session_poll_object].
  assert (rx_messages (session_rx s) = 0) as ->
    by (by destruct Hs as (fd & rx & [= _ _ _ <-] & _ & ?)).
  destruct arg as [z|timeout]; [by intros [= <-]|].
  destruct (_ || _); [by intros [= <-]; eapply stuck_same|].
  destruct (pw_pending _); [by intros [= <-]; eapply stuck_same|].
  change (negb (0 =? 0)) with false.
  destruct (timeout =? 0); [by intros [= <-]; eapply stuck_same|].
  destruct (pw_arm _ _ _ _) as [z pw].
  destruct (z <? 0); intros [= <-]; by eapply stuck_same.
Qed.

Lemma stuck_push message arg s r : stuck s → handle_push message arg s = Returns r →
  stuck (snd r).
Proof.
  intros Hs. unfold handle_push, session_push, client_push.
  destruct arg as [z|msg]; [by intros [= <-]|].
  destruct (cl_fd (ss_client s) <? 0).
  - cbn [mbind cpp_bind mret cpp_ret]. change (- ENOTCONN =? 0) with false. intros [= <-].
    by eapply stuck_same.
  - destruct (tx_push _ _) as [[z tx]| | |]; [|done..].
    cbn [mbind cpp_bind mret cpp_ret]. intros [= <-]. cbn [snd].
    destruct (z =? 0); by eapply stuck_same.
Qed.

Lemma stuck_timeout s : stuck s → stuck (po_timeout s).
Proof.
  intros Hs. eapply stuck_same; [|done]. unfold po_timeout. by destruct (pw_on_timeout _).
Qed.

(** Nothing that happens to the connection reads a byte: what arrives stays in
    the socket. *)
Definition unread (c c' : connection) (h h' : history) : Prop :=
  ∃ more, conn_inbound c' = conn_inbound c ++ more ∧ arrived h' = arrived h ++ more.

Lemma unread_refl c c' h h' : conn_inbound c' = conn_inbound c → arrived h' = arrived h →
  unread c c' h h'.
Proof. intros. exists []. by rewrite !app_nil_r. Qed.

Lemma step_stuck c e c' h : stuck (conn_session c) → session_step c e = Returns c' →
  stuck (conn_session c') ∧ unread c c' h (observe c e h).
Proof.
  intros Hs. unfold session_step, observe. destruct (negb (conn_open c)).
  { intros [= <-]. by split; [|apply unread_refl]. }
  destruct e as [bs|revents reads sends|message arg ev|message arg|].
  - intros [= <-]. split; [done|]. by exists bs.
  - destruct (handle_io _ _ _ _ _) as [r| | |] eqn:Hr; [|done..].
    destruct (stuck_io _ _ _ _ _ _ Hs Hr) as [Hs' Hin].
    destruct r as [[[close sent] s'] inb]. cbn in Hs', Hin. subst inb. intros [= <-].
    split; [|by apply unread_refl]. cbn. case_match; [|done]. by eapply stuck_same.
  - destruct (handle_poll _ _ _ _) as [[hd s']| | |] eqn:Hr; [|done..].
    intros [= <-]. split; [exact (stuck_poll _ _ _ _ _ Hs Hr)|].
    by destruct arg; apply unread_refl.
  - destruct (handle_push _ _ _) as [[hd s']| | |] eqn:Hr; [|done..].
    intros [= <-]. split; [exact (stuck_push _ _ _ _ Hs Hr)|].
    by destruct arg; apply unread_refl.
  - intros [= <-]. split; [by apply stuck_timeout|by apply unread_refl].
Qed.

Lemma run_stuck es c h c' h' : stuck (conn_session c) →
  session_run c h es = Returns (c', h') → stuck (conn_session c') ∧ unread c c' h h'.
Proof.
  revert c h. induction es as [|e es IH]; intros c h Hs; cbn [session_run].
  { intros [= <- <-]. by split; [|apply unread_refl]. }
  destruct (session_step c e) as [c1| | |] eqn:Hstep; [|done..].
  destruct (step_stuck _ _ _ h Hs Hstep) as [Hs1 (more1 & Hin1 & Ha1)]. intros Hrun.
  destruct (IH _ _ Hs1 Hrun) as [Hs' (more & Hin & Ha)]. split; [done|].
  exists (more1 ++ more). by rewrite Hin, Hin1, Ha, Ha1, !app_assoc.
Qed.

(** ** A first frame that does not fit *)

(** The call of [read] that completes the header of a client's first frame. *)
Lemma first_read_pauses fd rx tx m rest : 0 ≤ fd → rx_queue rx [] [] →
  legal (zlen m) = true → rx_capacity rx < zlen m + 2 →
  client_read (Client fd header 0 0 false 0 rx tx) (Kernel (frame m ++ rest) [Ready 4])
  = Returns (paused, Client fd header (zlen m) 4 true 0 rx tx, Kernel (m ++ rest) []).
Proof.
  intros Hfd Hq Hl Hcap. unfold legal, kMaxMessageLen in Hl.
  apply andb_prop in Hl as [Hl1 Hl2]. apply Z.leb_le in Hl1, Hl2.
  unfold client_read. cbn [cl_fd cl_rx_paused]. rewrite (proj2 (Z.ltb_ge _ _)) by lia.
  cbn [answers length client_read_loop cl_rx_state]. unfold read_header.
  cbn [cl_have_read]. change (negb (0 <? kHeaderLen)) with false.
  cbn [inbound answers read_retry sys_read]. unfold frame. rewrite <- app_assoc.
  pose proof (zlen_u32_bytes (zlen m)) as Hsize. pose proof (zlen_nonneg (m ++ rest)).
  change (kHeaderLen - 0) with 4.
  assert (Z.max 0 (Z.min 4 (Z.min 4 (zlen (u32_bytes (zlen m) ++ m ++ rest)))) = 4) as ->
    by (rewrite zlen_app; lia).
  change (4 =? 0) with false. rewrite ztake_app, zdrop_app by done.
  change (4 <? 0) with false. cbn [andb]. change (map_read_result 4 0) with progress.
  rewrite decide_False by naive_solver. cbn [cl_msg_len].
  rewrite <- (app_nil_r (u32_bytes 0)), <- (app_nil_l (u32_bytes 0 ++ [])).
  rewrite (mem_put_app [] (u32_bytes 0) (u32_bytes (zlen m)) [])
    by (rewrite ?zlen_u32_bytes; done).
  cbn [app access mbind cpp_bind]. rewrite app_nil_r, u32_of_u32_bytes, (u32_small (zlen m)) by lia.
  change (u32 (0 + u32 4)) with 4. cbn [mret cpp_ret cl_have_read cl_msg_len cl_rx].
  change (4 <? kHeaderLen) with false.
  cbn [mbind cpp_bind mret cpp_ret cl_msg_len cl_rx]. rewrite (proj2 (Z.eqb_neq _ _)) by lia.
  rewrite (proj2 (Z.ltb_ge kMaxMessageLen _)) by (unfold kMaxMessageLen; lia).
  rewrite (rx_can_fit_spec _ _ _ Hq) by lia. rewrite bool_decide_false; [done|].
  pose proof (rq_len _ _ _ Hq) as Hlen. change (rx_len rx = 1 + 0 + 0) in Hlen. lia.
Qed.

Lemma first_frame_pauses `{!MachineLaws H} id fd rx_cap tx_cap s m rest : 0 ≤ fd →
  rx_cap = 0 ∨ 2 ≤ rx_cap ≤ max_capacity → tx_cap = 0 ∨ kHeaderLen + 1 ≤ tx_cap < 2 ^ 63 →
  session_new id fd rx_cap tx_cap 0 0 = Returns s → legal (zlen m) = true →
  rx_capacity (session_rx s) < zlen m + 2 →
  ∃ c h, session_run (conn_new s) no_history [Arrive (frame m ++ rest); Io EPOLLIN [Ready 4] []]
    = Returns (c, h) ∧ stuck (conn_session c) ∧ conn_inbound c = m ++ rest ∧
    arrived h = frame m ++ rest.
Proof.
  intros Hfd Hrx Htx. unfold session_new, client_new.
  destruct (rx_new_queue (if rx_cap =? 0 then kDefaultBufferCap else rx_cap)) as (rx & -> & Hq & Hc).
  { unfold max_capacity, kDefaultBufferCap in *. destruct (Z.eqb_spec rx_cap 0); lia. }
  destruct (tx_new_queue (if tx_cap =? 0 then kDefaultBufferCap else tx_cap)) as (tx & -> & Ht & _).
  { unfold kHeaderLen, kDefaultBufferCap in *. destruct (Z.eqb_spec tx_cap 0); lia. }
  cbn [mbind cpp_bind mret cpp_ret]. change (0 <? 0) with false. intros [= <-] Hl Hcap.
  cbn [session_run session_step conn_new conn_open conn_session negb mbind cpp_bind mret cpp_ret
    observe conn_inbound conn_sent app].
  unfold handle_io. change (negb (Z.land EPOLLIN EPOLLIN =? 0)) with true. cbv iota.
  change (negb (Z.land EPOLLIN EPOLLOUT =? 0)) with false. cbn [andb].
  change (negb (Z.land EPOLLIN (Z.lor EPOLLHUP EPOLLERR) =? 0)) with false. cbn [andb].
  unfold handle_readable, read_fuel. cbn [answers length Nat.mul Nat.add read_loop].
  cbn [ss_client upd_io]. rewrite first_read_pauses by done.
  cbn [mbind cpp_bind mret cpp_ret].
  assert (rx_messages rx = 0) as Hzero by apply Hq.
  cbn [session_rx ss_client upd_rx_paused upd_client cl_rx]. unfold session_rx.
  cbn [session_rx ss_client upd_rx_paused upd_client cl_rx].
  rewrite Hzero. change (0 <? 0) with false. cbn [mbind cpp_bind mret cpp_ret].
  eexists _, _. split; [done|]. cbn. split_and!; try done.
  exists fd, rx. by split_and!.
Qed.
End starvation.
