(* ===== verification/RefMachine.v ===== *)
(** * A concrete machine, and a run of a connection on it

    A little-endian machine whose fresh memory holds [x], and events that take
    a connection through a frame in two pieces, a waiting [poll], a [push] and
    a partial flush.  The theorems on connections are evaluated here. *)
From S2P Require Export ConnInv.

#[export] Instance ref_machine : Machine := {
  little_endian := true;
  new_char n := replicate (Z.to_nat n) "x"%char;
  strerror _ := "error";
}.

#[export] Instance ref_machine_laws : MachineLaws ref_machine.
Proof. split. intros n Hn. unfold zlen. cbn. rewrite length_replicate. lia. Qed.

Definition ref_event_loop : event_answers := EventAnswers 0 1000 0.

(** The length of the frame [hello], split after two bytes. *)
Definition ref_events : list session_event :=
  [ Poll 1 (inr 20000) ref_event_loop;
    Arrive (frame (chars "hello") ++ frame (chars "to"));
    Io EPOLLIN [Ready 2; ReadFailed EINTR; Ready 2; Ready 3; Ready 9; Ready 4; Ready 1] [];
    Push 2 (inr (chars "pong"));
    Io EPOLLOUT [] [Accepted 5; SendFailed EAGAIN];
    Poll 3 (inr 0) ref_event_loop;
    Io EPOLLIN [Ready 9] [];
    Poll 4 (inr 100) ref_event_loop;
    Poll 5 (inr 100) ref_event_loop;
    Timeout ].

(** A message of 30 bytes is queued when a frame of 40 arrives: reads pause. *)
Definition ref_paused_events : list session_event :=
  [ Arrive (frame (replicate 30 "a"%char) ++ frame (replicate 40 "b"%char));
    Io EPOLLIN [Ready 4; Ready 30; Ready 4] [] ].

(** Client 1 on descriptor 7, with buffers of 64 bytes. *)
Definition ref_run (es : list session_event) : cpp (connection * history) :=
  s ← session_new 1 7 64 64 0 0;
  session_run (conn_new s) no_history es.

Lemma ref_reached es : ∃ s c h, session_new 1 7 64 64 0 0 = Returns s ∧
  session_run (conn_new s) no_history es = Returns (c, h) ∧ ref_run es = Returns (c, h).
Proof.
  assert (buffer_cap_ok 64) as Hcap by (unfold buffer_cap_ok, kMinBufferCap, max_capacity; lia).
  destruct (conn_new_holds 64 1 7 64 64 0 0) as (s & Hs & Hok & Hc); [lia|done..|].
  specialize (Hc Hok).
  destruct (session_run_holds _ _ es _ _ Hc) as (c & h & Hrun & _).
  exists s, c, h. unfold ref_run. by rewrite Hs.
Qed.

(** A part of where a run ends. *)
Definition after {A} (f : connection → history → A) (r : cpp (connection * history)) : option A :=
  match r with Returns (c, h) => Some (f c h) | _ => None end.

Lemma after_run {A} (f : connection → history → A) r c h x :
  r = Returns (c, h) → after f r = Some x → f c h = x.
Proof. intros ->. by intros [= ->]. Qed.

(** The replies, by request. *)
Definition texts (out : list output) : list (Z * string) :=
  omap (λ e, match e with Return m t => Some (m, String.string_of_list_ascii t) | _ => None end) out.

Example ref_replies : after (λ c _, texts (ss_out (conn_session c))) (ref_run ref_events)
  = Some [(1, "[hello]"); (2, EmptyString); (3, "[]"); (4, "[to]"); (5, "[]")]%string.
Proof. evaluate. Qed.
