(* ===== verification/Server.v ===== *)
(** * server.cpp and daemon_dbus_object.cpp: all the clients

    [daemon_object] is the object /daemon: the queue of control messages and
    the waiter of its [poll].  [server] is the class [Server]: it accepts
    connections, gives each the next id, and tells the script through /daemon
    when one appears or goes.  [server_step] is everything that can happen to
    the daemon after [Server::start]; a session that is destroyed moves to
    [sv_gone], which no code reads. *)
From S2P Require Export ConnInv.

(** ** /daemon *)

Record daemon_object := DaemonObject {
  do_queue : rx_buffer;
  do_poll : poll_waiter;
  do_out : list output;
}.

#[export] Instance daemon_poll_object : PollObject daemon_object := {
  po_queue := do_queue;
  po_set_queue q o := DaemonObject q (do_poll o) (do_out o);
  po_poll := do_poll;
  po_set_poll pw o := DaemonObject (do_queue o) pw (do_out o);
  po_on_drained := None;
  po_out := do_out;
  po_emit l o := DaemonObject (do_queue o) (do_poll o) (do_out o ++ l);
}.

Definition control_queue_capacity : Z := 128 * 1024.

Definition maybe_reply_poll (o : daemon_object) : cpp daemon_object :=
  '(_, o) ← maybe_reply_pending_poll o;
  mret o.

Definition text_of (s : bytes) : string := String.string_of_list_ascii s.

Definition enqueue_control (payload : bytes) (o : daemon_object) : cpp daemon_object :=
  '(r, queue) ← rx_append payload (do_queue o);
  let o := po_set_queue queue o in
  if r <? 0 then
    mret (po_emit [Log "warn" ("daemon control queue full, dropping message: "
      +:+ text_of payload)] o)
  else maybe_reply_poll o.

(** The reply of [log] has no argument: it is written as the empty text. *)
Definition method_log (message : Z) (arg : Z + bytes * bytes) (o : daemon_object)
    : handled * daemon_object :=
  match arg with
  | inl r => (BusError r, o)
  | inr (level, msg) =>
    let level := text_of (c_str level) in
    let text := ("[script] " +:+ text_of (c_str msg))%string in
    let level := if decide (level = "debug" ∨ level = "warn" ∨ level = "error")%string
                 then level else "info"%string in
    (Answered, po_emit [Log level text; Return message []] o)
  end.

Definition daemon_handle_poll (ev : event_answers) (message : Z) (arg : Z + Z)
    (o : daemon_object) : cpp (handled * daemon_object) :=
  handle_poll_request ev message arg o.

(** ** The server *)

Record server := Server {
  sv_max_clients : Z;
  sv_rx_cap : Z;
  sv_tx_cap : Z;
  sv_next_id : Z;
  sv_sessions : gmap Z connection;
  sv_daemon : option daemon_object;
  sv_log : list output;
  sv_gone : list (Z * connection);
}.

Definition upd_sessions (f : gmap Z connection → gmap Z connection) (sv : server) : server :=
  Server (sv_max_clients sv) (sv_rx_cap sv) (sv_tx_cap sv) (sv_next_id sv) (f (sv_sessions sv))
    (sv_daemon sv) (sv_log sv) (sv_gone sv).
Definition upd_next_id (id : Z) (sv : server) : server :=
  Server (sv_max_clients sv) (sv_rx_cap sv) (sv_tx_cap sv) id (sv_sessions sv)
    (sv_daemon sv) (sv_log sv) (sv_gone sv).
Definition upd_daemon (o : option daemon_object) (sv : server) : server :=
  Server (sv_max_clients sv) (sv_rx_cap sv) (sv_tx_cap sv) (sv_next_id sv) (sv_sessions sv)
    o (sv_log sv) (sv_gone sv).
Definition add_log (l : list output) (sv : server) : server :=
  Server (sv_max_clients sv) (sv_rx_cap sv) (sv_tx_cap sv) (sv_next_id sv) (sv_sessions sv)
    (sv_daemon sv) (sv_log sv ++ l) (sv_gone sv).
Definition server_log (level text : string) (sv : server) : server := add_log [Log level text] sv.
Definition add_gone (id : Z) (c : connection) (sv : server) : server :=
  Server (sv_max_clients sv) (sv_rx_cap sv) (sv_tx_cap sv) (sv_next_id sv) (sv_sessions sv)
    (sv_daemon sv) (sv_log sv) ((id, c) :: sv_gone sv).

(** The two control messages. *)
Inductive client_change :=
| client_connected (id : Z)
| client_disconnected (id : Z).

Definition event_name (e : client_change) : string :=
  match e with
  | client_connected _ => "client_connected"
  | client_disconnected _ => "client_disconnected"
  end.
Definition event_id (e : client_change) : Z :=
  match e with client_connected id | client_disconnected id => id end.

Definition control_message (e : client_change) : bytes :=
  let q := [dquote] in
  chars "{" ++ q ++ chars "event" ++ q ++ chars ":" ++ q ++ chars (event_name e) ++ q ++
  chars "," ++ q ++ chars "id" ++ q ++ chars ":" ++ chars (pretty (event_id e)) ++ chars "}".

(** A [size_t] cast to [int]. *)
Definition i32 (z : Z) : Z := (z + 2^31) mod 2^32 - 2^31.

(** The answer of accept4(2), with those of [sd_bus_add_object_vtable] and
    [sd_event_add_io] for the session of the new connection. *)
Inductive accept_answer :=
| Accepted_fd (fd add_object add_io : Z)
| AcceptFailed (errno : Z).

Section server.
Context `{Machine}.

Definition queue_control (e : client_change) (sv : server) : cpp server :=
  match sv_daemon sv with
  | Some o => o ← enqueue_control (control_message e) o; mret (upd_daemon (Some o) sv)
  | None => mret sv
  end.

(** One connection that was accepted. *)
Definition accept_client (fd add_object add_io : Z) (sv : server) : cpp server :=
  if sv_max_clients sv <=? i32 (Z.of_nat (size (sv_sessions sv))) then
    mret (server_log "warn" ("client rejected: connection limit (" +:+ pretty (sv_max_clients sv)
      +:+ ") reached") sv)
  else
    let id := sv_next_id sv in
    let sv := upd_next_id (u64 (id + 1)) sv in
    s ← session_new id fd (sv_rx_cap sv) (sv_tx_cap sv) add_object add_io;
    if negb (session_ok s) then
      mret (server_log "error" (client_prefix id +:+ "session setup failed, dropping")
        (add_log (ss_out s) sv))
    else
      let sv := server_log "info" ("client connected: id=" +:+ pretty id +:+ " fd="
                  +:+ pretty fd) sv in
      queue_control (client_connected id) (upd_sessions (insert id (conn_new s)) sv).

(** The [for (;;)] of [accept_clients]; no more answers is EAGAIN. *)
Fixpoint accept_clients (accepts : list accept_answer) (sv : server) : cpp server :=
  match accepts with
  | [] => mret sv
  | AcceptFailed errno :: accepts =>
    if errno =? EAGAIN then mret sv else
    if errno =? EINTR then accept_clients accepts sv else
    mret (server_log "warn" ("accept(): " +:+ strerror errno) sv)
  | Accepted_fd fd add_object add_io :: accepts =>
    sv ← accept_client fd add_object add_io sv;
    accept_clients accepts sv
  end.

Definition on_client_disconnected (id : Z) (sv : server) : cpp server :=
  match sv_sessions sv !! id with
  | None => mret sv
  | Some c =>
    let sv := server_log "info" ("client disconnected: id=" +:+ pretty id) sv in
    sv ← queue_control (client_disconnected id) sv;
    mret (add_gone id c (upd_sessions (delete id) sv))
  end.

(** Something happens to the connection [id]; when its handler says that the
    connection is to be closed, the server removes it ([on_io]). *)
Definition client_event (id : Z) (e : session_event) (sv : server) : cpp server :=
  match sv_sessions sv !! id with
  | None => mret sv
  | Some c =>
    c ← session_step c e;
    let sv := upd_sessions (insert id c) sv in
    if conn_open c then mret sv else on_client_disconnected (ss_id (conn_session c)) sv
  end.

(** What happens to /daemon, while it is served. *)
Definition on_daemon (f : daemon_object → cpp daemon_object) (sv : server) : cpp server :=
  match sv_daemon sv with
  | Some o => o ← f o; mret (upd_daemon (Some o) sv)
  | None => mret sv
  end.

Inductive server_event :=
| Accept (accepts : list accept_answer)
| ClientEvent (id : Z) (e : session_event)
| DaemonPoll (message : Z) (arg : Z + Z) (ev : event_answers)
| DaemonLog (message : Z) (arg : Z + bytes * bytes)
| DaemonTimeout.

Definition server_step (sv : server) (e : server_event) : cpp server :=
  match e with
  | Accept accepts => accept_clients accepts sv
  | ClientEvent id e => client_event id e sv
  | DaemonPoll message arg ev =>
    on_daemon (λ o, '(_, o) ← daemon_handle_poll ev message arg o; mret o) sv
  | DaemonLog message arg => on_daemon (λ o, mret (snd (method_log message arg o))) sv
  | DaemonTimeout => on_daemon (λ o, mret (po_timeout o)) sv
  end.

Fixpoint server_run (sv : server) (es : list server_event) : cpp server :=
  match es with
  | [] => mret sv
  | e :: es => sv ← server_step sv e; server_run sv es
  end.

(** The constructor, and the part of [start] after the socket is bound. *)
Definition server_start (max_clients rx_cap tx_cap : Z) : cpp server :=
  queue ← rx_new control_queue_capacity;
  mret (Server (if 0 <? max_clients then max_clients else 64) rx_cap tx_cap 1 ∅
    (Some (DaemonObject queue pw_new [])) [] []).

(** [stop]: every session is destroyed, then /daemon. *)
Definition server_stop (sv : server) : server := upd_daemon None (upd_sessions (λ _, ∅) sv).
End server.
