(* ===== verification/ServerInv.v ===== *)
(** * The invariant of the daemon

    [server_holds n hist sv]: after at most [n] connections were accepted, the
    sessions are those that [hist], the connections and disconnections so far,
    leaves connected; each runs as ConnInv.v says; and /daemon has carried or
    holds the control messages of [hist], but for those it logged as dropped
    because its queue was full. *)
From S2P Require Export Server.

(** ** The size of a control message *)

Lemma pretty_go_length (k : nat) (x : N) (s : string) : (x < 10 ^ N.of_nat k)%N →
  (String.length (pretty_N_go x s) ≤ k + String.length s)%nat.
Proof.
  revert x s. induction k as [|k IH]; intros x s Hx.
  { replace x with 0%N by (cbn in Hx; lia). by rewrite pretty_N_go_0. }
  destruct (decide (x = 0)%N) as [->|Hne]; [rewrite pretty_N_go_0; lia|].
  rewrite pretty_N_go_step by lia. etrans; [apply IH|cbn; lia].
  rewrite Nat2N.inj_succ, N.pow_succ_r' in Hx. apply N.Div0.div_lt_upper_bound. lia.
Qed.

Lemma pretty_length z : 0 ≤ z < 2 ^ 64 → (String.length (pretty z) ≤ 20)%nat.
Proof.
  intros Hz. assert (∀ x : N, (x < 2 ^ 64)%N → (String.length (pretty x) ≤ 20)%nat) as HN.
  { intros x Hx. unfold pretty, pretty_N. case_decide; [cbn; lia|].
    etrans; [apply (pretty_go_length 20)|cbn; lia]. etrans; [exact Hx|]. done. }
  destruct z as [|p|p]; [cbn; lia| |lia]. apply (HN (N.pos p)). lia.
Qed.

Lemma zlen_chars s : zlen (chars s) = Z.of_nat (String.length s).
Proof. unfold zlen, chars. induction s as [|a s IH]; [done|]. cbn in *. lia. Qed.

Lemma control_message_size e : 0 ≤ event_id e < 2 ^ 64 →
  0 < zlen (control_message e) ≤ 64.
Proof.
  intros Hid. pose proof (pretty_length _ Hid) as Hp. unfold control_message.
  autorewrite with zlen. rewrite !zlen_chars.
  assert (String.length (event_name e) ≤ 19)%nat by (destruct e; cbn; lia). cbn. lia.
Qed.

(** ** /daemon *)

Definition drop_log (e : client_change) : output :=
  Log "warn" ("daemon control queue full, dropping message: " +:+ text_of (control_message e)).

(** What /daemon keeps of its queue, with the lines [logs] in its output. *)
Record daemon_holds (logs : list output) (o : daemon_object) (delivered queued : list bytes)
    : Prop := {
  dh_queue : rx_queue (do_queue o) queued [];
  dh_capacity : rx_capacity (do_queue o) = control_queue_capacity;
  dh_logs : logs ⊆ do_out o;
}.

#[export] Instance daemon_poll_laws logs : PollObjectLaws daemon_object (daemon_holds logs).
Proof.
  split; try done.
  - by intros pw s dl q [? ? ?].
  - intros l s dl q [? ? ?]. constructor; try done. cbn. set_solver.
  - intros s dl q [Hq _ _]. exact (rx_messages_zero _ _ _ Hq).
  - intros s dl q [Hq Hc Hl]. destruct (drain_queue_spec _ _ _ Hq) as (rx & Hd & Hq' & Hc').
    exists rx. split; [done|]. constructor; cbn; [done|by rewrite Hc'|done].
Qed.

Abbreviation daemon_ok logs := (poll_ok (I := daemon_holds logs) [[]]).

Lemma daemon_ok_logs logs logs' o dl q : daemon_ok logs o dl q → logs' ⊆ do_out o →
  daemon_ok logs' o dl q.
Proof.
  intros [[[Hq Hc Hl] Hw Hcar] Hi] Hlogs.
  constructor; [constructor; [by constructor|done|done]|done].
Qed.

(** A control message is queued and perhaps sent, or it is dropped and logged. *)
Lemma enqueue_control_ok logs o dl q e : daemon_ok logs o dl q → 0 ≤ event_id e < 2 ^ 64 →
  ∃ o', enqueue_control (control_message e) o = Returns o' ∧
    ((∃ dl' q', daemon_ok logs o' dl' q' ∧ dl' ++ q' = dl ++ q ++ [control_message e]) ∨
     daemon_ok (drop_log e :: logs) o' dl q).
Proof.
  intros Hs He. pose proof (control_message_size e He) as Hsize.
  pose proof Hs as [[[Hq Hcap Hl] Hw Hcar] Hi]. unfold enqueue_control.
  destruct (decide (rx_len (do_queue o) + zlen (control_message e) + 1 ≤ control_queue_capacity)).
  - destruct (rx_append_queue _ _ (control_message e) Hq) as (rx & -> & Hq' & Hc');
      [by intros Hnil; rewrite Hnil in Hsize|lia|lia|].
    cbn [mbind cpp_bind]. change (0 <? 0) with false. cbv iota. unfold maybe_reply_poll.
    destruct (maybe_reply_pending_poll_ok (I := daemon_holds logs) [[]] (po_set_queue rx o) dl
      (q ++ [control_message e])) as (b & o' & dl' & q' & -> & Hok & Happ & _).
    { constructor; [|done|done]. constructor; [done|by cbn; rewrite Hc'|done]. }
    cbn [mbind cpp_bind mret cpp_ret]. exists o'. split; [done|]. left. exists dl', q'.
    by rewrite Happ.
  - rewrite (rx_append_full _ _ _ Hq) by lia. cbn [mbind cpp_bind mret cpp_ret].
    change (- ENOBUFS <? 0) with true. cbv iota. eexists. split; [done|]. right.
    destruct (poll_ok_log (I := daemon_holds logs) [[]] (po_set_queue (do_queue o) o) dl q "warn"
      ("daemon control queue full, dropping message: " +:+ text_of (control_message e)))
      as [Hok _]; [by destruct o|].
    destruct o as [qu pw out]. eapply daemon_ok_logs; [exact Hok|].
    cbn. intros x [->|Hx]%elem_of_cons; [set_solver|]. apply elem_of_app. left. by apply Hl.
Qed.

(** ** The clients *)

(** [lifecycle hist live]: each connection has a new id, larger than all before
    it; each disconnection is that of a live one; [live] are left. *)
Inductive lifecycle : list client_change → gset Z → Prop :=
| lc_start : lifecycle [] ∅
| lc_connect hist live id :
    lifecycle hist live → (∀ e, e ∈ hist → event_id e < id) →
    lifecycle (hist ++ [client_connected id]) ({[id]} ∪ live)
| lc_disconnect hist live id :
    lifecycle hist live → id ∈ live →
    lifecycle (hist ++ [client_disconnected id]) (live ∖ {[id]}).

Section server.
Context `{Machine}.

(** What /daemon owes to the history. *)
Record tells (hist : list client_change) (o : daemon_object) : Prop := {
  tell_ok : ∃ logs dl q sent, daemon_ok logs o dl q ∧ dl ++ q = map control_message sent ∧
    sent `sublist_of` hist ∧ (sent = hist ∨ ∃ e, e ∈ hist ∧ drop_log e ∈ logs);
}.

(** The sessions, with the ids below [next]. *)
Record sessions_ok (rx_cap next : Z) (sessions : gmap Z connection) : Prop := {
  so_ids id c : sessions !! id = Some c → 1 ≤ id < next;
  so_open id c : sessions !! id = Some c → conn_open c = true;
  so_conn id c : sessions !! id = Some c → ∃ h, conn_holds (effective_cap rx_cap) id h c;
}.

(** [n] connections were accepted at most; the next id has not wrapped. *)
Record server_holds (n : Z) (hist : list client_change) (sv : server) : Prop := {
  sv_next : 1 ≤ sv_next_id sv ≤ 1 + n;
  sv_hist e : e ∈ hist → 1 ≤ event_id e < sv_next_id sv;
  sv_life : lifecycle hist (dom (sv_sessions sv));
  sv_conns : sessions_ok (sv_rx_cap sv) (sv_next_id sv) (sv_sessions sv);
  sv_limit : Z.of_nat (size (sv_sessions sv)) ≤ sv_max_clients sv < 2 ^ 31;
  sv_caps : buffer_cap_ok (sv_rx_cap sv) ∧ buffer_cap_ok (sv_tx_cap sv);
  sv_tells : ∃ o, sv_daemon sv = Some o ∧ tells hist o;
}.

Lemma tells_more hist o e : tells hist o → 0 ≤ event_id e < 2 ^ 64 →
  ∃ o', enqueue_control (control_message e) o = Returns o' ∧ tells (hist ++ [e]) o'.
Proof.
  intros [(logs & dl & q & sent & Hok & Happ & Hsub & Hall)] He.
  destruct (enqueue_control_ok logs o dl q e Hok He) as (o' & Henq & Ho').
  exists o'. split; [done|]. constructor.
  destruct Ho' as [(dl' & q' & Hok' & Happ')|Hok'].
  - exists logs, dl', q', (sent ++ [e]). split; [done|]. split; [|split].
    + by rewrite Happ', app_assoc, Happ, map_app.
    + by apply sublist_app.
    + destruct Hall as [->|(e' & ? & ?)]; [by left|right]. exists e'. set_solver.
  - exists (drop_log e :: logs), dl, q, sent. split; [done|]. split; [done|]. split.
    + by apply sublist_inserts_r.
    + right. exists e. set_solver.
Qed.

Lemma queue_control_ok hist e sv : (∃ o, sv_daemon sv = Some o ∧ tells hist o) →
  0 ≤ event_id e < 2 ^ 64 →
  ∃ o', queue_control e sv = Returns (upd_daemon (Some o') sv) ∧ tells (hist ++ [e]) o'.
Proof.
  intros (o & Ho & Ht) He. unfold queue_control. rewrite Ho.
  destruct (tells_more hist o e Ht He) as (o' & -> & Ht'). by exists o'.
Qed.

(** A change of the sessions that keeps their ids. *)
Lemma sessions_ok_insert rx_cap next sessions id c h : sessions_ok rx_cap next sessions →
  1 ≤ id < next → conn_open c = true → conn_holds (effective_cap rx_cap) id h c →
  sessions_ok rx_cap next (<[id := c]> sessions).
Proof.
  intros [Hi Ho Hc] Hid Hopen Hh. constructor; intros id' c' [[<- <-]|[_ ?]]%lookup_insert_Some;
    eauto.
Qed.

Lemma sessions_ok_delete rx_cap next sessions id : sessions_ok rx_cap next sessions →
  sessions_ok rx_cap next (delete id sessions).
Proof.
  intros [Hi Ho Hc]. constructor; intros id' c' [_ ?]%lookup_delete_Some; eauto.
Qed.

Lemma sessions_ok_mono rx_cap next next' sessions : sessions_ok rx_cap next sessions →
  next ≤ next' → sessions_ok rx_cap next' sessions.
Proof. intros [Hi Ho Hc] Hle. constructor; try done. intros id c Hid. specialize (Hi id c Hid). lia. Qed.

Lemma i32_small z : - 2 ^ 31 ≤ z < 2 ^ 31 → i32 z = z.
Proof. intros Hz. unfold i32. rewrite Z.mod_small by lia. lia. Qed.

(** ** The operations *)

Lemma accept_client_ok `{!MachineLaws H} n hist fd add_object add_io sv :
  server_holds n hist sv → 0 ≤ fd → n + 2 < 2 ^ 64 →
  ∃ sv' hist', accept_client fd add_object add_io sv = Returns sv' ∧
    server_holds (n + 1) (hist ++ hist') sv'.
Proof.
  intros [Hnext Hhist Hlife Hconns Hlimit Hcaps Htells] Hfd Hn. unfold accept_client.
  rewrite i32_small by lia. destruct (Z.leb_spec (sv_max_clients sv) (Z.of_nat (size (sv_sessions sv)))).
  { eexists _, []. rewrite app_nil_r. split; [done|]. constructor; cbn; try done; lia. }
  destruct (conn_new_holds (effective_cap (sv_rx_cap sv)) (sv_next_id sv) fd (sv_rx_cap sv)
    (sv_tx_cap sv) add_object add_io) as (s & Hs & _ & Hc); [done|apply Hcaps..|done|].
  cbn [sv_rx_cap sv_tx_cap upd_next_id]. rewrite Hs. cbn [mbind cpp_bind].
  rewrite u64_small by lia.
  assert (∀ e, e ∈ hist → event_id e < sv_next_id sv) as Hfresh by (intros e He; by apply Hhist).
  destruct (session_ok s); cbn [negb].
  - set (sv1 := upd_sessions _ _).
    destruct (queue_control_ok hist (client_connected (sv_next_id sv)) sv1) as (o' & -> & Ht');
      [exact Htells|cbn; lia|].
    exists (upd_daemon (Some o') sv1), [client_connected (sv_next_id sv)]. split; [done|].
    constructor; cbn; try done; [lia| | | | |by eexists].
    + intros e [He|He%list_elem_of_singleton]%elem_of_app; [specialize (Hhist e He); lia|].
      subst e. cbn. lia.
    + rewrite dom_insert_L. by apply lc_connect.
    + eapply sessions_ok_insert; [eapply sessions_ok_mono; [exact Hconns|lia]|lia|done|].
      by apply Hc.
    + split; [|lia]. rewrite map_size_insert_None; [lia|].
      destruct (sv_sessions sv !! sv_next_id sv) eqn:Hl; [|done].
      apply (so_ids _ _ _ Hconns) in Hl. lia.
  - eexists _, []. rewrite app_nil_r. split; [done|]. constructor; cbn; try done; [lia| |].
    + intros e He. specialize (Hhist e He). lia.
    + eapply sessions_ok_mono; [exact Hconns|lia].
Qed.

Lemma server_holds_mono n n' hist sv : server_holds n hist sv → n ≤ n' → server_holds n' hist sv.
Proof. intros [] Hle. constructor; try done. lia. Qed.

(** accept4(2) gives descriptors. *)
Definition fd_ok (a : accept_answer) : Prop :=
  match a with Accepted_fd fd _ _ => 0 ≤ fd | AcceptFailed _ => True end.

Lemma accept_clients_ok `{!MachineLaws H} accepts n hist sv :
  server_holds n hist sv → Forall fd_ok accepts → n + zlen accepts + 2 < 2 ^ 64 →
  ∃ sv' hist', accept_clients accepts sv = Returns sv' ∧
    server_holds (n + zlen accepts) (hist ++ hist') sv'.
Proof.
  intros Hs Hfds. revert n hist sv Hs. induction Hfds as [|a accepts Ha _ IH]; intros n hist sv Hs Hn.
  { exists sv, []. rewrite app_nil_r, zlen_nil, Z.add_0_r. done. }
  rewrite zlen_cons in *. pose proof (zlen_nonneg accepts). destruct a as [fd ao ai|errno]; cbn.
  - destruct (accept_client_ok n hist fd ao ai sv Hs Ha) as (sv1 & hist1 & -> & Hs1); [lia|].
    destruct (IH (n + 1) (hist ++ hist1) sv1 Hs1) as (sv2 & hist2 & Hrun & Hs2); [lia|].
    exists sv2, (hist1 ++ hist2). rewrite app_assoc. split; [done|].
    eapply server_holds_mono; [exact Hs2|lia].
  - assert (server_holds (n + (1 + zlen accepts)) (hist ++ []) sv) as Hs'
      by (rewrite app_nil_r; eapply server_holds_mono; [exact Hs|lia]).
    destruct (errno =? EAGAIN); [by exists sv, []|].
    destruct (errno =? EINTR).
    + destruct (IH n hist sv Hs) as (sv2 & hist2 & Hrun & Hs2); [lia|].
      exists sv2, hist2. split; [done|]. eapply server_holds_mono; [exact Hs2|lia].
    + eexists _, []. split; [done|]. by destruct Hs'.
Qed.

(** The session [id] has become [c'] and is removed. *)
Lemma on_client_disconnected_ok n hist id c c' sv : server_holds n hist sv → n + 2 < 2 ^ 64 →
  sv_sessions sv !! id = Some c →
  ∃ sv', on_client_disconnected id (upd_sessions (insert id c') sv) = Returns sv' ∧
    server_holds n (hist ++ [client_disconnected id]) sv'.
Proof.
  intros [Hnext Hhist Hlife Hconns Hlimit Hcaps Htells] Hn Hid.
  unfold on_client_disconnected. cbn [sv_sessions upd_sessions]. rewrite lookup_insert_eq.
  pose proof (so_ids _ _ _ Hconns _ _ Hid).
  set (sv1 := server_log _ _ _).
  destruct (queue_control_ok hist (client_disconnected id) sv1) as (o' & -> & Ht');
    [exact Htells|cbn; lia|].
  eexists. split; [done|].
  constructor; cbn; try done; [| | | |by eexists]; rewrite ?delete_insert_eq.
  - intros e [He|He%list_elem_of_singleton]%elem_of_app; [by apply Hhist|]. by subst e.
  - rewrite dom_delete_L. apply lc_disconnect; [done|]. by apply elem_of_dom_2 in Hid.
  - by apply sessions_ok_delete.
  - split; [|lia]. rewrite map_size_delete_Some by by rewrite Hid. lia.
Qed.

Lemma client_event_ok n hist id e sv : server_holds n hist sv → n + 2 < 2 ^ 64 →
  ∃ sv' hist', client_event id e sv = Returns sv' ∧ server_holds n (hist ++ hist') sv'.
Proof.
  intros Hs Hn. unfold client_event. destruct (sv_sessions sv !! id) as [c|] eqn:Hid.
  2: { exists sv, []. by rewrite app_nil_r. }
  pose proof Hs as [Hnext Hhist Hlife Hconns Hlimit Hcaps Htells].
  destruct (so_conn _ _ _ Hconns _ _ Hid) as [h Hh].
  destruct (session_step_holds _ _ h c e Hh) as (c' & -> & Hh'). cbn [mbind cpp_bind].
  destruct (conn_open c') eqn:Hopen.
  - eexists _, []. rewrite app_nil_r. split; [done|]. constructor; cbn; try done.
    + rewrite dom_insert_lookup_L by by eexists. done.
    + eapply sessions_ok_insert; [done| |done|exact Hh']. by eapply so_ids.
    + split; [|lia]. rewrite map_size_insert_Some by by eexists. lia.
  - assert (ss_id (conn_session c') = id) as ->.
    { destruct Hh' as (? & ? & ? & ? & ? & [_ [[[_ _ _ _ _ _ _ Hsid] _ _] _] _ _ _ _]). done. }
    destruct (on_client_disconnected_ok n hist id c c' sv Hs Hn Hid) as (sv' & -> & Hs').
    by exists sv', [client_disconnected id].
Qed.

(** An operation of /daemon that leaves its queue and its log to [tells]. *)
Lemma on_daemon_ok n hist f sv : server_holds n hist sv →
  (∀ o, tells hist o → ∃ o', f o = Returns o' ∧ tells hist o') →
  ∃ sv', on_daemon f sv = Returns sv' ∧ server_holds n hist sv'.
Proof.
  intros [Hnext Hhist Hlife Hconns Hlimit Hcaps (o & Ho & Ht)] Hf. unfold on_daemon. rewrite Ho.
  destruct (Hf o Ht) as (o' & -> & Ht'). eexists. split; [done|].
  constructor; cbn; try done. by exists o'.
Qed.

Lemma tells_same hist logs dl q sent o' dl' q' :
  dl ++ q = map control_message sent → sent `sublist_of` hist →
  (sent = hist ∨ ∃ e, e ∈ hist ∧ drop_log e ∈ logs) →
  daemon_ok logs o' dl' q' → dl' ++ q' = dl ++ q → tells hist o'.
Proof.
  intros Hm Hsub Hall Hok Heq. constructor. exists logs, dl', q', sent. by rewrite Heq.
Qed.

Lemma tells_poll hist ev message arg o : tells hist o →
  ∃ o', ('(_, o) ← daemon_handle_poll ev message arg o; mret o) = Returns o' ∧ tells hist o'.
Proof.
  intros [(logs & dl & q & sent & Hok & Happ & Hsub & Hall)].
  destruct (handle_poll_request_ok [[]] ev message arg o dl q Hok)
    as (hd & o' & dl' & q' & Hr & Hok' & Happ' & _).
  unfold daemon_handle_poll. rewrite Hr. exists o'. split; [done|].
  by eapply tells_same.
Qed.

Lemma tells_log hist message arg o : tells hist o →
  tells hist (snd (method_log message arg o)).
Proof.
  intros [(logs & dl & q & sent & Hok & Happ & Hsub & Hall)].
  destruct arg as [r|[level msg]]; cbn [method_log snd]; [by constructor; exists logs, dl, q, sent|].
  set (l := if decide _ then _ else _). set (t := (_ +:+ _)%string).
  destruct (poll_ok_log [[]] o dl q l t Hok) as [Hok1 _].
  destruct (poll_ok_text [[]] _ dl q message [] Hok1) as [Hok2 _].
  { apply elem_of_app. right. left. }
  eapply tells_same; [done..| |done].
  unfold reply_method_return in Hok2. cbn in Hok2. cbn. by rewrite <- app_assoc in Hok2.
Qed.

Lemma tells_timeout hist o : tells hist o → tells hist (po_timeout o).
Proof.
  intros [(logs & dl & q & sent & Hok & Happ & Hsub & Hall)].
  destruct (po_timeout_ok [[]] o dl q Hok) as [Hok' _]. by eapply tells_same.
Qed.

(** ** Every event *)

Definition accepts_of (e : server_event) : list accept_answer :=
  match e with Accept accepts => accepts | _ => [] end.

Lemma server_step_ok `{!MachineLaws H} n hist e sv : server_holds n hist sv →
  Forall fd_ok (accepts_of e) → n + zlen (accepts_of e) + 2 < 2 ^ 64 →
  ∃ sv' hist', server_step sv e = Returns sv' ∧
    server_holds (n + zlen (accepts_of e)) (hist ++ hist') sv'.
Proof.
  intros Hs Hfd Hn. destruct e as [accepts|id e|message arg ev|message arg|];
    cbn [accepts_of server_step] in *; rewrite ?zlen_nil, ?Z.add_0_r in *.
  - by apply accept_clients_ok.
  - by apply client_event_ok.
  - destruct (on_daemon_ok n hist (λ o, '(_, o) ← daemon_handle_poll ev message arg o; mret o) sv Hs)
      as (sv' & Hr & Hs'); [intros o Ho; by apply tells_poll|].
    exists sv', []. by rewrite app_nil_r.
  - destruct (on_daemon_ok n hist (λ o, mret (snd (method_log message arg o))) sv Hs)
      as (sv' & Hr & Hs'); [intros o Ho; eexists; split; [done|by apply tells_log]|].
    exists sv', []. by rewrite app_nil_r.
  - destruct (on_daemon_ok n hist (λ o, mret (po_timeout o)) sv Hs)
      as (sv' & Hr & Hs'); [intros o Ho; eexists; split; [done|by apply tells_timeout]|].
    exists sv', []. by rewrite app_nil_r.
Qed.

Lemma server_run_ok `{!MachineLaws H} es n hist sv : server_holds n hist sv →
  Forall fd_ok (es ≫= accepts_of) → n + zlen (es ≫= accepts_of) + 2 < 2 ^ 64 →
  ∃ sv' hist', server_run sv es = Returns sv' ∧
    server_holds (n + zlen (es ≫= accepts_of)) hist' sv'.
Proof.
  revert n hist sv. induction es as [|e es IH]; intros n hist sv Hs Hfd Hn.
  { exists sv, hist. split; [done|]. change (zlen ([] ≫= accepts_of)) with 0. by rewrite Z.add_0_r. }
  rewrite bind_cons in *. apply Forall_app in Hfd as [Hfd1 Hfd2]. rewrite zlen_app in *.
  pose proof (zlen_nonneg (accepts_of e)). pose proof (zlen_nonneg (es ≫= accepts_of)).
  destruct (server_step_ok n hist e sv Hs Hfd1) as (sv1 & hist1 & Hstep & Hs1); [lia|].
  cbn [server_run]. rewrite Hstep. cbn [mbind cpp_bind].
  destruct (IH _ _ sv1 Hs1 Hfd2) as (sv2 & hist2 & Hrun & Hs2); [lia|].
  exists sv2, hist2. split; [done|]. by rewrite Z.add_assoc.
Qed.

Lemma server_start_ok `{!MachineLaws H} max_clients rx_cap tx_cap :
  max_clients < 2 ^ 31 → buffer_cap_ok rx_cap → buffer_cap_ok tx_cap →
  ∃ sv, server_start max_clients rx_cap tx_cap = Returns sv ∧ server_holds 0 [] sv ∧
    sv_max_clients sv = if 0 <? max_clients then max_clients else 64.
Proof.
  intros Hmax Hrx Htx. unfold server_start.
  destruct (rx_new_queue control_queue_capacity) as (queue & -> & Hq & Hc);
    [unfold control_queue_capacity, max_capacity; lia|].
  cbn [mbind cpp_bind mret cpp_ret]. eexists. split; [done|]. split; [|done].
  constructor; cbn; try done.
  - intros e He. by apply not_elem_of_nil in He.
  - rewrite dom_empty_L. constructor.
  - rewrite map_size_empty. destruct (Z.ltb_spec 0 max_clients); lia.
  - eexists. split; [done|]. constructor. exists [], [], [], []. split_and!; [|done..|by left].
    constructor; [|by intros []]. constructor; [by constructor|apply waiter_ok_new|apply taken_nil].
Qed.
End server.
