(* ===== verification/TransportProps.v ===== *)
(** * Properties of a connection of the daemon

    Over any run of a connection, with any answers of the kernel and any
    requests of the script, in any order: memory safety and termination, the
    stream of the peer against the batches of the script, the pushes of the
    script against the bytes of the peer, the requests that are answered, and
    the backpressure of the read buffer. *)
From S2P Require Export RefMachine Starvation.

Section props.
Context `{MachineLaws}.

Lemma started id fd rx_cap tx_cap s : 0 ≤ fd → buffer_cap_ok rx_cap → buffer_cap_ok tx_cap →
  session_new id fd rx_cap tx_cap 0 0 = Returns s →
  conn_holds (effective_cap rx_cap) id no_history (conn_new s).
Proof.
  intros Hfd Hrx Htx Hs.
  destruct (conn_new_holds (effective_cap rx_cap) id fd rx_cap tx_cap 0 0)
    as (s' & Hs' & Hok & Hc); [done..|].
  rewrite Hs in Hs'. injection Hs' as <-. by apply Hc.
Qed.

Lemma run_holds cap sid s es c h : conn_holds cap sid no_history (conn_new s) →
  session_run (conn_new s) no_history es = Returns (c, h) → conn_holds cap sid h c.
Proof.
  intros Hs Hrun. destruct (session_run_holds cap sid es _ _ Hs) as (c' & h' & Hrun' & Hc).
  rewrite Hrun in Hrun'. by injection Hrun' as <- <-.
Qed.

(** Memory safety and termination of a connection.  With any buffer sizes
    that the configuration accepts, a session is set up, and every sequence of
    socket wake-ups, requests and timeouts returns: no read or write leaves the
    receive buffer, the send ring or the four bytes of the header, nothing is
    thrown, and the loops around read(2), send(2) and [write_ring] end. *)
Theorem connection_is_safe id fd rx_cap tx_cap es :
  0 ≤ fd → buffer_cap_ok rx_cap → buffer_cap_ok tx_cap →
  ∃ s, session_new id fd rx_cap tx_cap 0 0 = Returns s ∧
    ∃ c h, session_run (conn_new s) no_history es = Returns (c, h).
Proof.
  intros Hfd Hrx Htx.
  destruct (conn_new_holds (effective_cap rx_cap) id fd rx_cap tx_cap 0 0)
    as (s & Hs & _); [done..|].
  exists s. split; [done|]. pose proof (started id fd rx_cap tx_cap s Hfd Hrx Htx Hs) as Hc.
  destruct (session_run_holds _ _ es _ _ Hc) as (c & h & Hrun & _). by exists c, h.
Qed.

Section run.
Context (id fd rx_cap tx_cap : Z) (s : session) (es : list session_event).
Context (c : connection) (h : history).
Hypothesis (Hfd : 0 ≤ fd) (Hrx : buffer_cap_ok rx_cap) (Htx : buffer_cap_ok tx_cap).
Hypothesis Hs : session_new id fd rx_cap tx_cap 0 0 = Returns s.
Hypothesis Hrun : session_run (conn_new s) no_history es = Returns (c, h).

Lemma reached : conn_holds (effective_cap rx_cap) id h c.
Proof. eapply run_holds; [|exact Hrun]. exact (started _ _ _ _ _ Hfd Hrx Htx Hs). Qed.


(** A stream of whole frames comes out as its messages: those delivered and
    those queued. *)
Lemma framed_delivered ms : framed (arrived h) ms → conn_inbound c = [] →
  ∃ delivered queued, ms = delivered ++ queued ∧
    taken push_texts (ss_out (conn_session c)) delivered ∧
    rx_queue (session_rx (conn_session c)) queued [].
Proof.
  intros Hms Hread.
  destruct reached as (d & tq & dl & q & lost & [(consumed & Hin & ->) Hok _ _ _ _]).
  destruct Hok as [[[[_ (part & Hq & _ & Hst) Hpl _] _ _ _ _ _ _ _] _ Hcar] _].
  rewrite Hread, app_nil_r in Hin. rewrite <- Hin in *.
  destruct (decode_framed _ _ [] 0 Hms) as [k Hk].
  change (decode_from _ (arrived h)) with (decode (arrived h)) in Hk. rewrite Hk in *.
  exists dl, q. split; [done|]. split; [done|]. cbn in Hst.
  destruct (cl_rx_state _); [by destruct Hst as [-> _]|by destruct Hst as (_ & _ & _ & ? & _)|].
  by destruct Hst as (_ & _ & _ & ?).
Qed.

(** The bytes sent to the peer and those still in the ring. *)
Lemma sent_frames : ∃ rest, conn_sent c ++ rest = concat (map frame (accepted h)) ∧
  Forall (λ m, zlen m ≤ kMaxMessageLen) (accepted h) ∧
  (tx_pending (cl_tx (ss_client (conn_session c))) = false → rest = []).
Proof.
  destruct reached as (d & tq & dl & q & lost & [_ Hok Hout _ Hacc _]).
  exists tq. split; [done|]. split; [done|]. unfold tx_pending.
  destruct Hok as [[[_ _ _ Ht _ _ _ _] _ _] _]. intros Hlen.
  apply Z.ltb_ge in Hlen. rewrite (tq_len _ _ Ht) in Hlen.
  apply zlen_0. pose proof (zlen_nonneg tq). lia.
Qed.

(** C12: What the peer gets is what the script pushed.  Decoding the bytes sent
    to the peer gives a prefix of the messages whose [push] was accepted (less
    the empty ones, which no decoder delivers), in order; once the send queue
    is empty it gives all of them, whatever part of each frame each send(2)
    took and however the ring wrapped. *)
Theorem pushed_frames_round_trip :
  let messages := filter (λ m, legal (zlen m) = true) (accepted h) in
  payloads (decode (conn_sent c)) `prefix_of` messages ∧
  (tx_pending (cl_tx (ss_client (conn_session c))) = false →
   conn_sent c = concat (map frame (accepted h)) ∧
   payloads (decode (conn_sent c)) = messages).
Proof.
  destruct sent_frames as (rest & Hsent & Hacc & Hrest). cbv zeta.
  destruct (decode_sent _ _ _ Hacc Hsent) as [Hpre Hall]. split; [done|]. intros Htx'.
  specialize (Hrest Htx'). subst rest. rewrite app_nil_r in Hsent. auto.
Qed.

(** C13: A request is answered once, or it waits.  The requests of [poll] and
    [push] that reached the connection are, counted with multiplicity, those
    answered and the one that waits; a request waits only while no message is
    queued.  When a connection closes at most one request goes unanswered,
    the one that was waiting. *)
Theorem requests_answered_once :
  ∃ lost, (length lost ≤ 1)%nat ∧ (conn_open c = true → lost = []) ∧
    replied (ss_out (conn_session c)) ++ option_list (pw_msg (ss_poll (conn_session c))) ++ lost
      ≡ₚ requests h ∧
    (is_Some (pw_msg (ss_poll (conn_session c))) → rx_messages (session_rx (conn_session c)) = 0).
Proof.
  destruct reached as (d & tq & dl & q & lost & [_ Hok _ Hreq _ [Hl Ho]]).
  exists lost. split; [done|]. split; [done|]. split; [by rewrite app_assoc|].
  destruct Hok as [[Hh _ _] Hidle]. intros Hw. apply Z.eqb_eq.
  pose proof (law_messages _ _ _ Hh) as Hm. cbn in Hm. rewrite Hm.
  by apply bool_decide_true, Hidle.
Qed.

(** C14: Backpressure lets go.  When reads are paused on a frame that fits the
    empty read buffer (every legal frame does, with 1,000,002 bytes or more),
    messages are queued, and the next [poll] with a legal timeout is
    answered at once with all of them, in order; it resumes the reads: the
    socket is watched for input again, and the frame that did not fit fits.  The
    answer is a C string, which is the whole array when no payload has a NUL
    byte. *)
Theorem paused_reads_resume ev message timeout
    (Hopen : conn_open c = true) (Hpaused : ss_rx_paused (conn_session c) = true)
    (Hcap : cl_msg_len (ss_client (conn_session c)) + 2 ≤ effective_cap rx_cap) (Htime : 0 ≤ timeout ≤ kMaxPollTimeoutMs) :
  ∃ queued part s', rx_queue (session_rx (conn_session c)) queued part ∧ queued ≠ [] ∧
    handle_poll ev message (inr timeout) (conn_session c) = Returns (Answered, s') ∧
    ss_out s' = ss_out (conn_session c) ++ [Return message (c_str (json_array queued))] ∧
    ss_rx_paused s' = false ∧ cl_rx_paused (ss_client s') = false ∧
    (∃ events, ss_io s' = Some (IoSource true events) ∧ Z.land events EPOLLIN = EPOLLIN) ∧
    ¬ no_room (ss_client s').
Proof.
  destruct reached as (d & tq & dl & q & lost & [_ Hok _ _ _ _]).
  rewrite Hopen in Hok. destruct Hok as [[Hh _ _] Hidle].
  pose proof Hh as [[_ (part & Hq & Hst) _ _] Hp Hroom _ _ _ Hcp _]. cbn in Hidle.
  destruct (paused_stage _ _ _ Hst) as (-> & Hheader & Hmsg); [by rewrite <- Hp|].
  assert (q ≠ []) as Hne.
  { intros ->. specialize (Hroom ltac:(by rewrite <- Hp)). unfold no_room in Hroom.
    pose proof (rq_len _ _ _ Hq) as Hl. unfold session_rx in *.
    change (rx_len (cl_rx (ss_client (conn_session c))) = 1 + 0 + 0) in Hl. lia. }
  assert (pw_msg (ss_poll (conn_session c)) = None) as Hnone.
  { destruct (pw_msg _) eqn:Hw; [|done]. destruct Hne. apply Hidle. by eexists. }
  destruct (law_drain (I := session_holds (effective_cap rx_cap) id true d tq) _ _ _ Hh)
    as (rx & Hdrain & Hh').
  pose proof (law_messages _ _ _ Hh) as Hm.
  set (s' := reply_method_return message (json_array q)
    (call_on_drained (po_set_queue rx (conn_session c)))).
  assert (handle_poll ev message (inr timeout) (conn_session c) = Returns (Answered, s')) as Hpoll.
  { unfold handle_poll, handle_poll_request. rewrite (proj2 (Z.ltb_ge timeout 0)) by lia.
    rewrite (proj2 (Z.ltb_ge kMaxPollTimeoutMs timeout)) by lia. cbn [orb].
    unfold pw_pending. cbn [po_poll session_poll_object]. rewrite Hnone.
    rewrite bool_decide_false by by intros []. rewrite Hm, bool_decide_false by done. cbn [negb].
    unfold po_drain_queue. by rewrite Hdrain. }
  exists q, [], s'. split; [done|]. split; [done|]. split; [exact Hpoll|].
  assert (session_holds (effective_cap rx_cap) id true d tq s' (dl ++ q) []) as Hs'
    by by apply session_holds_out.
  assert (ss_rx_paused s' = false) as Hrun'
    by (unfold s'; cbn; unfold on_rx_drained; cbn; by rewrite Hpaused).
  assert (cl_rx_state (ss_client s') = header ∧
    cl_msg_len (ss_client s') = cl_msg_len (ss_client (conn_session c))) as [Hheader' Hmsg']
    by (unfold s'; cbn; unfold on_rx_drained; cbn; by rewrite Hpaused).
  assert (ss_out s' = ss_out (conn_session c) ++ [Return message (c_str (json_array q))]) as Hout
    by (unfold s'; cbn; unfold on_rx_drained; cbn; by rewrite Hpaused).
  clearbody s'. destruct Hs' as [[_ (part' & Hq' & [_ Hst']) _ _] Hp' _ _ Harm' Hio' Hcp' _].
  split; [done|]. split; [done|]. split; [congruence|]. split; [apply armed_reading; auto|].
  rewrite Hheader' in Hst'. destruct Hst' as [-> _]. unfold no_room, session_rx in *.
  pose proof (rq_len _ _ _ Hq') as Hl.
  change (rx_len (cl_rx (ss_client s')) = 1 + 0 + 0) in Hl. lia.
Qed.
End run.

(** C15: A small read buffer blocks its client for good.  The configuration
    accepts buffers of 64 bytes and more; when the first frame of a client is
    legal but does not fit its empty buffer, then whatever happens afterwards,
    the payload stays in the socket, no [poll] is ever answered with a message,
    and the reads stay paused. *)
Theorem small_buffer_starves id fd rx_cap tx_cap s m rest es c h :
  0 ≤ fd → buffer_cap_ok rx_cap → buffer_cap_ok tx_cap →
  session_new id fd rx_cap tx_cap 0 0 = Returns s →
  legal (zlen m) = true → effective_cap rx_cap < zlen m + 2 →
  session_run (conn_new s) no_history
    (Arrive (frame m ++ rest) :: Io EPOLLIN [Ready 4] [] :: es) = Returns (c, h) →
  (∃ more, conn_inbound c = m ++ rest ++ more) ∧
  ss_rx_paused (conn_session c) = true ∧
  carried push_texts (ss_out (conn_session c)) [] ∧
  (conn_open c = true → ∀ io, ss_io (conn_session c) = Some io →
    io_enabled io = false ∨ io_events io = EPOLLOUT).
Proof.
  intros Hfd Hrx Htx Hs Hl Hcap Hrun.
  pose proof (started _ _ _ _ _ Hfd Hrx Htx Hs) as Hstart.
  destruct (run_holds _ _ _ _ _ _ Hstart Hrun)
    as (d & tq & dl & q & lost & [(consumed & Hin & ->) Hok _ _ _ _]).
  destruct Hstart as (? & ? & ? & ? & ? & [_ [[[_ _ _ _ _ _ Hcp _] _ _] _] _ _ _ _]).
  cbn in Hcp. unfold buffer_cap_ok, kMinBufferCap in *.
  destruct (first_frame_pauses id fd rx_cap tx_cap s m rest)
    as (c1 & h1 & Hrun1 & Hstuck & Hin1 & Ha1); [done|lia
    |unfold kHeaderLen, max_capacity in *; lia|done..|by rewrite Hcp|].
  change (Arrive (frame m ++ rest) :: Io EPOLLIN [Ready 4] [] :: es)
    with ([Arrive (frame m ++ rest); Io EPOLLIN [Ready 4] []] ++ es) in Hrun.
  rewrite session_run_app, Hrun1 in Hrun.
  destruct (run_stuck _ _ _ _ _ Hstuck Hrun) as [Hstuck' (more & Hin' & Ha')].
  rewrite Hin1, <- app_assoc in Hin'. rewrite Ha', Ha1, Hin' in Hin.
  unfold frame in Hin. rewrite <- !app_assoc in Hin. apply app_inv_tail in Hin as <-.
  destruct Hok as [[[[_ _ Hpl _] _ _ _ Harm _ _ _] _ Hcar] _].
  pose proof (zlen_u32_bytes (zlen m)) as Hsize. cbn in Hcar.
  assert (payloads (decode (u32_bytes (zlen m))) = []) as Hnone.
  { unfold decode, start. rewrite decode_header_end by (rewrite ?Hsize; done).
    unfold enter. by repeat case_match. }
  rewrite Hnone in Hpl. symmetry in Hpl. apply app_nil in Hpl as [-> _].
  destruct Hstuck' as (? & ? & [= Hp _ _ _] & _ & _).
  split; [by exists more|]. split; [done|]. split; [by apply taken_carried|]. intros Hopen io Hio.
  specialize (Harm Hopen). unfold armed, update_io_events in Harm. rewrite Hp, Hio in Harm.
  rewrite <- Harm in Hio. cbn in Hio. injection Hio as <-.
  destruct (tx_pending _); [by right|by left].
Qed.
End props.

(** ** Witnesses, on the reference machine *)

Lemma ref_caps : 0 ≤ 7 ∧ buffer_cap_ok 64.
Proof. unfold buffer_cap_ok, kMinBufferCap, max_capacity. lia. Qed.

Lemma connection_is_safe_witness :
  ∃ s, session_new 1 7 64 64 0 0 = Returns s ∧
    ∃ c h, session_run (conn_new s) no_history ref_events = Returns (c, h).
Proof. apply connection_is_safe; apply ref_caps. Defined.


(** Two payloads, the second with a NUL byte: the reply ends there. *)
Example ref_nul_reply : after (λ c _, texts (ss_out (conn_session c))) (ref_run
    [ Arrive (frame (chars "1") ++ frame (chars "a" ++ ["000"%char; "b"%char]) ++ frame (chars "2"));
      Io EPOLLIN [Ready 4; Ready 1; Ready 4; Ready 3; Ready 4; Ready 1] [];
      Poll 1 (inr 0) ref_event_loop ])
  = Some [(1, "[1,a")]%string.
Proof. evaluate. Qed.

Lemma pushed_frames_round_trip_witness : ∃ s c h,
  session_run (conn_new s) no_history ref_events = Returns (c, h) ∧
  accepted h = [chars "pong"] ∧ conn_sent c ≠ [] ∧
  let messages := filter (λ m, legal (zlen m) = true) (accepted h) in
  payloads (decode (conn_sent c)) `prefix_of` messages ∧
  (tx_pending (cl_tx (ss_client (conn_session c))) = false →
   conn_sent c = concat (map frame (accepted h)) ∧
   payloads (decode (conn_sent c)) = messages).
Proof.
  destruct (ref_reached ref_events) as (s & c & h & Hs & Hrun & Href).
  exists s, c, h. split; [done|]. split; [|split].
  - eapply (after_run (λ _ h, accepted h)); [done|evaluate].
  - enough (zlen (conn_sent c) = 5) as Hlen by (intros Hnil; by rewrite Hnil in Hlen).
    eapply (after_run (λ c _, zlen (conn_sent c))); [done|evaluate].
  - eapply pushed_frames_round_trip; [apply ref_caps..|exact Hs|exact Hrun].
Defined.

Lemma requests_answered_once_witness : ∃ c h, requests h = [1; 2; 3; 4; 5] ∧
  ∃ lost, (length lost ≤ 1)%nat ∧ (conn_open c = true → lost = []) ∧
    replied (ss_out (conn_session c)) ++ option_list (pw_msg (ss_poll (conn_session c))) ++ lost
      ≡ₚ requests h ∧
    (is_Some (pw_msg (ss_poll (conn_session c))) → rx_messages (session_rx (conn_session c)) = 0).
Proof.
  destruct (ref_reached ref_events) as (s & c & h & Hs & Hrun & Href). exists c, h. split.
  - eapply (after_run (λ _ h, requests h)); [done|evaluate].
  - eapply (requests_answered_once 1 7 64 64 s ref_events c h); [apply ref_caps..|done|done].
Defined.

Lemma paused_reads_resume_witness : ∃ c queued part s',
  rx_queue (session_rx (conn_session c)) queued part ∧ queued ≠ [] ∧
  handle_poll ref_event_loop 9 (inr 100) (conn_session c) = Returns (Answered, s') ∧
  ss_out s' = ss_out (conn_session c) ++ [Return 9 (c_str (json_array queued))] ∧
  ss_rx_paused s' = false ∧ cl_rx_paused (ss_client s') = false ∧
  (∃ events, ss_io s' = Some (IoSource true events) ∧ Z.land events EPOLLIN = EPOLLIN) ∧
  ¬ no_room (ss_client s').
Proof.
  destruct (ref_reached ref_paused_events) as (s & c & h & Hs & Hrun & Href). exists c.
  eapply (paused_reads_resume 1 7 64 64 s ref_paused_events c h);
    [apply ref_caps..|done|done| | | |unfold kMaxPollTimeoutMs; lia].
  - eapply (after_run (λ c _, conn_open c)); [done|evaluate].
  - eapply (after_run (λ c _, ss_rx_paused (conn_session c))); [done|evaluate].
  - enough (cl_msg_len (ss_client (conn_session c)) = 40) as -> by done.
    eapply (after_run (λ c _, cl_msg_len (ss_client (conn_session c)))); [done|evaluate].
Defined.

(** A frame of 63 bytes and a buffer of 64; the script polls twice. *)
Lemma small_buffer_starves_witness : ∃ c,
  (∃ more, conn_inbound c = replicate 63 "a"%char ++ [] ++ more) ∧
  ss_rx_paused (conn_session c) = true ∧
  carried push_texts (ss_out (conn_session c)) [] ∧
  (conn_open c = true → ∀ io, ss_io (conn_session c) = Some io →
    io_enabled io = false ∨ io_events io = EPOLLOUT).
Proof.
  destruct (ref_reached (Arrive (frame (replicate 63 "a"%char) ++ []) :: Io EPOLLIN [Ready 4] [] ::
    [Poll 1 (inr 0) ref_event_loop; Poll 2 (inr 50) ref_event_loop]))
    as (s & c & h & Hs & Hrun & _). exists c.
  eapply small_buffer_starves; [apply ref_caps..|exact Hs|done|done|exact Hrun].
Defined.
