(* ===== verification/ServerProps.v ===== *)
(** * Properties of the daemon's server

    Over any run of the daemon, with any answers of the kernel, of the event
    loop and of the bus: it is memory safe, keeps the connection limit and never
    reuses an id; and what /daemon tells the script is the history of the
    clients. *)
From S2P Require Export ServerInv RefMachine.

Section props.
Context `{MachineLaws}.
Context (max_clients rx_cap tx_cap : Z) (es : list server_event).
Hypothesis (Hmax : max_clients < 2 ^ 31).
Hypothesis (Hrx : buffer_cap_ok rx_cap) (Htx : buffer_cap_ok tx_cap).
Hypothesis Hfds : Forall fd_ok (es ≫= accepts_of).
Hypothesis Haccepts : zlen (es ≫= accepts_of) + 2 < 2 ^ 64.

Lemma server_reached : ∃ sv0 sv hist,
  server_start max_clients rx_cap tx_cap = Returns sv0 ∧ server_run sv0 es = Returns sv ∧
  server_holds (zlen (es ≫= accepts_of)) hist sv.
Proof.
  destruct (server_start_ok max_clients rx_cap tx_cap Hmax Hrx Htx) as (sv0 & Hstart & Hinit & _).
  destruct (server_run_ok es 0 [] sv0 Hinit Hfds) as (sv & hist & Hrun & Hsv); [lia|].
  by exists sv0, sv, hist.
Qed.

(** The daemon is safe and bounded.  With any configuration that
    config.cpp accepts, every sequence of accepted connections, events of
    connections, requests and timeouts returns: no buffer of any client is
    left, nothing is thrown, every loop ends.  There are never more sessions
    than the limit, their ids are positive and below the next id, each session
    is open and carries its own id, and keeps the invariant of a connection. *)
Theorem server_is_safe :
  ∃ sv0 sv, server_start max_clients rx_cap tx_cap = Returns sv0 ∧
    server_run sv0 es = Returns sv ∧
    Z.of_nat (size (sv_sessions sv)) ≤ sv_max_clients sv ∧
    ∀ id c, sv_sessions sv !! id = Some c →
      1 ≤ id < sv_next_id sv ∧ conn_open c = true ∧ ss_id (conn_session c) = id ∧
      ∃ h, conn_holds (effective_cap (sv_rx_cap sv)) id h c.
Proof.
  destruct server_reached as (sv0 & sv & hist & Hstart & Hrun & [_ _ _ [Hi Ho Hc] [Hsize _] _ _]).
  exists sv0, sv. split; [done|]. split; [done|]. split; [done|]. intros id c Hid.
  destruct (Hc id c Hid) as [h Hh]. split; [by eapply Hi|]. split; [by eapply Ho|].
  split; [|by exists h].
  by destruct Hh as (? & ? & ? & ? & ? & [_ [[[_ _ _ _ _ _ _ Hsid] _ _] _] _ _ _ _]).
Qed.

(** The script hears of every client.  There is a history of connections
    and disconnections, each connection with an id larger than all before, each
    disconnection of a client then connected, that leaves exactly the present
    sessions; the control messages that /daemon sent in its replies to [poll],
    in order, followed by those in its queue, are the messages of that history,
    unless its queue of 128 KiB was full, in which case a message was dropped
    with a warning in the log and the others are still in order. *)
Theorem script_hears_of_clients :
  ∃ sv0 sv o hist sent delivered queued,
    server_start max_clients rx_cap tx_cap = Returns sv0 ∧ server_run sv0 es = Returns sv ∧
    lifecycle hist (dom (sv_sessions sv)) ∧ sv_daemon sv = Some o ∧
    taken [[]] (do_out o) delivered ∧ rx_queue (do_queue o) queued [] ∧
    delivered ++ queued = map control_message sent ∧ sent `sublist_of` hist ∧
    (sent = hist ∨ ∃ e, e ∈ hist ∧ drop_log e ∈ do_out o) ∧
    (is_Some (pw_msg (do_poll o)) → queued = []).
Proof.
  destruct server_reached as (sv0 & sv & hist & Hstart & Hrun & [_ _ Hlife _ _ _ (o & Ho & Ht)]).
  destruct Ht as [(logs & dl & q & sent & Hok & Happ & Hsub & Hall)].
  exists sv0, sv, o, hist, sent, dl, q. destruct Hok as [[[Hq _ Hlogs] _ Hcar] Hidle].
  split_and!; try done. destruct Hall as [->|(e & He & Hd)]; [by left|right].
  exists e. split; [done|]. by apply Hlogs.
Qed.
End props.

(** ** Witnesses *)

(** Two clients, a limit of one: the second is rejected; the first goes, and a
    third gets the id 2. *)
Definition ref_server_events : list server_event :=
  [ DaemonPoll 1 (inr 100) ref_event_loop;
    Accept [Accepted_fd 7 0 0; AcceptFailed EINTR; Accepted_fd 8 0 0; AcceptFailed EAGAIN];
    ClientEvent 1 (Arrive (frame (chars "hi")));
    ClientEvent 1 (Io EPOLLIN [Ready 4; Ready 2; PeerClosed] []);
    Accept [Accepted_fd 7 0 0];
    DaemonPoll 2 (inr 100) ref_event_loop ].

Definition ref_server_run : cpp server :=
  sv ← server_start 1 64 64;
  server_run sv ref_server_events.

Lemma ref_server_hyps : 1 < 2 ^ 31 ∧ buffer_cap_ok 64 ∧
  Forall fd_ok (ref_server_events ≫= accepts_of) ∧
  zlen (ref_server_events ≫= accepts_of) + 2 < 2 ^ 64.
Proof.
  unfold buffer_cap_ok, kMinBufferCap, max_capacity.
  split; [lia|]. split; [lia|]. split; [|done].
  cbn. by repeat (apply Forall_cons_2; [cbn; first [lia|done]|]).
Qed.

Lemma server_is_safe_witness :
  ∃ sv0 sv, server_start 1 64 64 = Returns sv0 ∧ server_run sv0 ref_server_events = Returns sv ∧
    Z.of_nat (size (sv_sessions sv)) ≤ sv_max_clients sv ∧
    ∀ id c, sv_sessions sv !! id = Some c →
      1 ≤ id < sv_next_id sv ∧ conn_open c = true ∧ ss_id (conn_session c) = id ∧
      ∃ h, conn_holds (effective_cap (sv_rx_cap sv)) id h c.
Proof. apply server_is_safe; apply ref_server_hyps. Defined.

Lemma script_hears_of_clients_witness :
  ∃ sv0 sv o hist sent delivered queued,
    server_start 1 64 64 = Returns sv0 ∧ server_run sv0 ref_server_events = Returns sv ∧
    lifecycle hist (dom (sv_sessions sv)) ∧ sv_daemon sv = Some o ∧
    taken [[]] (do_out o) delivered ∧ rx_queue (do_queue o) queued [] ∧
    delivered ++ queued = map control_message sent ∧ sent `sublist_of` hist ∧
    (sent = hist ∨ ∃ e, e ∈ hist ∧ drop_log e ∈ do_out o) ∧
    (is_Some (pw_msg (do_poll o)) → queued = []).
Proof. apply script_hears_of_clients; apply ref_server_hyps. Defined.
