(* ===== verification/Listen.v ===== *)
(** * Listening on the socket

    The steps from socket(2) to listen(2), which [Server::start] and
    [SocketServer::bind_and_listen] take alike, and the start and the stop of
    [Server] with them.  The kernel answers through [socket_answers].  A failed
    call sets [errno], which is logged and then read again for the result, after
    the logging and a close that may have changed it.  Unlinking the path before
    and after has no effect here. *)
From S2P Require Export Server.
From S2P Require Import ServerInv.

Definition ENAMETOOLONG : Z := 36.

(** [sizeof (sockaddr_un::sun_path)] *)
Definition sun_path_size : Z := 108.

(** [errno] when the error is logged, and when it is returned. *)
Record socket_error := SocketError { se_logged : Z; se_returned : Z }.

(** socket(2) answers a descriptor or fails, bind(2) and listen(2) may fail;
    and what [sd_event_add_io] answers for the listening socket. *)
Record socket_answers := SocketAnswers {
  sa_socket : Z + socket_error;
  sa_bind : option socket_error;
  sa_listen : option socket_error;
  sa_add_io : Z;
}.

Inductive fd_action := Opens (fd : Z) | Closes (fd : Z).

(** The descriptors that are held after some actions. *)
Definition holding (fds : gset Z) (actions : list fd_action) : gset Z :=
  foldl (λ fds a, match a with Opens fd => {[fd]} ∪ fds | Closes fd => fds ∖ {[fd]} end) fds actions.

Section listen.
Context `{Machine}.

(** The code, the listening socket, what was done with descriptors, the log. *)
Definition listen_on (socket_path : bytes) (a : socket_answers)
    : Z * option Z * list fd_action * list output :=
  let path := text_of socket_path in
  match sa_socket a with
  | inr e => (- se_returned e, None, [], [Log "error" ("socket(): " +:+ strerror (se_logged e))])
  | inl fd =>
    if sun_path_size <=? zlen socket_path then
      (- ENAMETOOLONG, None, [Opens fd; Closes fd], [Log "error" ("socket path too long: " +:+ path)])
    else
      match sa_bind a, sa_listen a with
      | Some e, _ =>
        (- se_returned e, None, [Opens fd; Closes fd],
         [Log "error" ("bind(" +:+ path +:+ "): " +:+ strerror (se_logged e))])
      | None, Some e =>
        (- se_returned e, None, [Opens fd; Closes fd],
         [Log "error" ("listen(): " +:+ strerror (se_logged e))])
      | None, None => (0, Some fd, [Opens fd], [])
      end
  end.

(** And the event source of the listening socket [fd]. *)
Definition watch_listener (a : socket_answers) (fd : Z) : Z * option Z * list fd_action * list output :=
  if sa_add_io a <? 0 then
    (sa_add_io a, None, [Closes fd],
     [Log "error" ("sd_event_add_io(listen): " +:+ strerror (- sa_add_io a))])
  else (0, Some fd, [], []).

(** [Server::start]: 0 comes with a server that listens. *)
Definition server_open (socket_path : bytes) (a : socket_answers) (max_clients rx_cap tx_cap : Z)
    : cpp (Z * option (Z * server) * list fd_action * list output) :=
  let '(r, listening, fds, log) := listen_on socket_path a in
  match listening with
  | None => mret (r, None, fds, log)
  | Some fd =>
    let '(r, listening, fds', log') := watch_listener a fd in
    match listening with
    | None => mret (r, None, fds ++ fds', log ++ log')
    | Some fd =>
      sv ← server_start max_clients rx_cap tx_cap;
      mret (0, Some (fd, sv), fds ++ fds', log ++ log')
    end
  end.

(** [Server::stop], with the sessions first; then the listening socket. *)
Definition server_close (fd : Z) (sv : server) : server * list fd_action :=
  (server_stop sv, [Closes fd]).

(** ** What is held *)

Lemma holding_app fds actions actions' :
  holding fds (actions ++ actions') = holding (holding fds actions) actions'.
Proof. apply foldl_app. Qed.

(** A socket that does not listen is closed again. *)
Lemma listen_on_holds socket_path a :
  let '(r, listening, fds, _) := listen_on socket_path a in
  holding ∅ fds = list_to_set (option_list listening) ∧ (is_Some listening → r = 0).
Proof.
  unfold listen_on. destruct (sa_socket a) as [fd|errno]; [|by split; [|intros [? ?]]].
  destruct (sun_path_size <=? zlen socket_path); [|destruct (sa_bind a); [|destruct (sa_listen a)]];
    cbn; (split; [set_solver|intros [? ?]; done]).
Qed.

Lemma watch_listener_holds a fd :
  let '(r, listening, fds, _) := watch_listener a fd in
  holding {[fd]} fds = list_to_set (option_list listening) ∧ (is_Some listening ↔ 0 ≤ r) ∧
  (listening = None ∨ listening = Some fd ∧ r = 0).
Proof.
  unfold watch_listener. destruct (Z.ltb_spec (sa_add_io a) 0); cbn; split.
  - set_solver.
  - split; [|by left]. split; [by intros [? ?]|lia].
  - set_solver.
  - split; [|by right]. split; [lia|by intros _; eexists].
Qed.

(** No call sets [errno] to zero. *)
Definition errnos_ok (a : socket_answers) : Prop :=
  (∀ e, sa_socket a = inr e → 0 < se_returned e) ∧
  (∀ e, sa_bind a = Some e → 0 < se_returned e) ∧ (∀ e, sa_listen a = Some e → 0 < se_returned e).

Lemma listen_on_fails socket_path a : errnos_ok a →
  let '(r, listening, _, _) := listen_on socket_path a in listening = None → r < 0.
Proof.
  intros (Hs & Hb & Hl). unfold listen_on. destruct (sa_socket a) as [fd|errno];
    [|intros _; specialize (Hs errno eq_refl); lia].
  destruct (sun_path_size <=? zlen socket_path); [by cbn|].
  destruct (sa_bind a) as [errno|]; [intros _; specialize (Hb errno eq_refl); lia|].
  destruct (sa_listen a) as [errno|]; [intros _; specialize (Hl errno eq_refl); lia|done].
Qed.

(** [Server::start] always returns.  With 0 it listens, holds its listening
    socket, which [stop] closes, and has a new server; otherwise it holds
    nothing. *)
Lemma server_open_holds `{!MachineLaws H} (socket_path : bytes) a max_clients rx_cap tx_cap :
  errnos_ok a → max_clients < 2 ^ 31 → buffer_cap_ok rx_cap → buffer_cap_ok tx_cap →
  ∃ r opened fds log,
    server_open socket_path a max_clients rx_cap tx_cap = Returns (r, opened, fds, log) ∧
    match opened with
    | Some (fd, sv) =>
      r = 0 ∧ holding ∅ fds = {[fd]} ∧ server_start max_clients rx_cap tx_cap = Returns sv
    | None => r < 0 ∧ holding ∅ fds = ∅
    end.
Proof.
  intros Ha Hmax Hrx Htx. unfold server_open.
  pose proof (listen_on_holds socket_path a) as Hl. pose proof (listen_on_fails socket_path a Ha) as Hfail.
  destruct (listen_on socket_path a) as [[[r listening] fds] log]. destruct Hl as [Hl Hr].
  destruct listening as [fd|]; [|by eexists _, None, _, _; split; [|split; [apply Hfail|]]].
  pose proof (watch_listener_holds a fd) as Hw.
  destruct (watch_listener a fd) as [[[r' listening'] fds'] log']. destruct Hw as (Hw & Hpos & Hlis).
  assert (holding ∅ (fds ++ fds') = list_to_set (option_list listening')) as Hfds.
  { rewrite holding_app, Hl. cbn. by rewrite union_empty_r_L. }
  destruct Hlis as [->|[-> ->]].
  { eexists _, None, _, _. split; [done|]. split; [|done].
    destruct (Z.ltb_spec r' 0); [done|]. by destruct (proj2 Hpos) as [? ?]. }
  destruct (server_start_ok max_clients rx_cap tx_cap Hmax Hrx Htx) as (sv & Hsv & _). rewrite Hsv.
  cbn [mbind cpp_bind]. eexists 0, (Some (fd, sv)), _, _. split; [done|].
  split; [done|]. rewrite Hfds. cbn. split; [set_solver|done].
Qed.
End listen.
