(* ===== verification/Registry.v ===== *)
(** * Who changes the client registry

    Only the control loop of clients.ts connects and disconnects clients: no
    signal, timer, method or message loop changes [connections], nor which
    connections are alive. *)
From S2P Require Export SystemInv.

Section Registry.
Context {E : Env} `{!SignalLaws E}.
Implicit Types (s : state) (c : conn).

(** The clients are left alone. *)
Definition same_clients s s' : Prop := clients s' = clients s.

#[export] Instance same_clients_preorder : PreOrder same_clients.
Proof. split; [done|]. intros s1 s2 s3. unfold same_clients. congruence. Qed.

Lemma notify_clients c m p s : same_clients s (notifyClient c m p s).
Proof. apply notifyClient_same_heap. Qed.

(** ** Tokens and signals *)

Lemma forget_window_clients en s : same_clients s (forget_window en s).
Proof. unfold forget_window. by repeat case_goal. Qed.

Lemma invalidate_clients e reason s : same_clients s (invalidate e reason s).
Proof.
  unfold invalidate. destruct (entry_at e s) as [en|]; [|done]. cbv zeta.
  etrans; [|done]. etrans; [|apply notify_clients].
  etrans; [|apply (wf_clients _ _ (dropClientWatches_frame _ _))].
  exact (forget_window_clients en (upd_entry e (upd_timer timer_stop) s)).
Qed.

Lemma validate_clients e w s : same_clients s (validate e w s).
Proof.
  unfold validate. destruct (entry_at e s) as [en|]; [|done]. cbv zeta.
  etrans; [|done]. etrans; [|apply notify_clients].
  destruct (jm_get (windowKey w) _) as [existing|]; [|done].
  destruct (decide _); [done|]. exact (invalidate_clients existing superseded s).
Qed.

Lemma checkCaption_clients w s : same_clients s (checkCaption w s).
Proof.
  unfold checkCaption. repeat case_goal; done || apply validate_clients || apply invalidate_clients.
Qed.

Lemma deadline_fires_clients e s : same_clients s (deadline_fires e s).
Proof.
  unfold deadline_fires, onTokenDeadline. repeat case_goal; [|done..].
  etrans; [|apply invalidate_clients]. done.
Qed.

Lemma run_slot_clients x em s : same_clients s (run_slot x em s).
Proof.
  destruct x, em; try done; cbn [run_slot]; try apply notify_clients;
    try apply checkCaption_clients.
  - exact (checkCaption_clients w (connect _ _ s)).
  - unfold onWindowRemoved. case_goal; [apply invalidate_clients|done].
Qed.

Lemma deliver_clients W em s : same_clients s (deliver W em s).
Proof.
  etrans; [|apply (foldl_rel same_clients); intros s' x; case_goal;
    [apply run_slot_clients|done]]. done.
Qed.

Lemma assign_clients a s : same_clients s (snd (assign_property a s)).
Proof.
  unfold assign_property. destruct (assign _ a) as [[ems W]|error]; [|done].
  etrans; [|done]. apply (foldl_rel same_clients). intros. apply deliver_clients.
Qed.

(** ** Methods *)

Lemma setWatch_clients t c w p b s : same_clients s (snd (setWatch t c w p b s)).
Proof. apply (sf_clients _ _ (proj1 (setWatch_frame t c w p b s))). Qed.

Lemma ws_setWatch_clients c p b s : same_clients s (snd (ws_setWatch c p b s)).
Proof. apply (sf_clients _ _ (proj1 (ws_setWatch_frame c p b s))). Qed.

Lemma generateToken_clients gas s : same_clients s (snd (generateToken gas s)).
Proof.
  revert s. induction gas as [|gas IH]; intros s; [done|]. cbn [generateToken]. cbv zeta.
  case_goal; [done|]. etrans; [|apply IH]. done.
Qed.

Lemma token_request_clients gas timeout c s : same_clients s (snd (token_request gas timeout c s)).
Proof. apply (bind_rel same_clients); [apply generateToken_clients|]. by intros. Qed.

Lemma methods_clients gas name f params c s :
  jm_get name (methods gas) = Some f → same_clients s (snd (f params c s)).
Proof.
  intros Hf. destruct (methods_effect gas name f params c s Hf).
  - done.
  - apply (windows_update_rel same_clients); [|done]. intros w pv s' _ _.
    unfold applyUpdate. repeat case_decide; apply assign_clients.
  - apply (window_watch_rel same_clients). intros w p b s' _ _ _.
    split; [apply setWatch_clients|apply setWatch_frame].
  - apply token_request_clients.
  - apply (workspace_update_rel same_clients); [|done]. intros pv s'.
    unfold ws_applyUpdate. case_decide; apply assign_clients.
  - apply (workspace_watch_rel same_clients). intros. apply ws_setWatch_clients.
Qed.

(** ** The loops *)

Context {J : JsonRpcApi E} `{!JsonRpcLaws E J} (gas : nat).

Lemma receive_clients message c s : same_clients s (snd (receive (methods gas) message c s)).
Proof.
  induction (receive_calls (methods gas) message c s) as [s|s1 s2 s3 Hstep _ IH]; [done|].
  etrans; [|exact IH]. destruct Hstep; [by eapply methods_clients|].
  by destruct error.
Qed.

(** The registry and the connections that are alive. *)
Definition same_registry s s' : Prop :=
  connections (clients s') = connections (clients s) ∧ alive (clients s') = alive (clients s).

#[export] Instance same_registry_preorder : PreOrder same_registry.
Proof. split; [done|]. intros s1 s2 s3 [] []. split; congruence. Qed.

Lemma same_clients_registry s s' : same_clients s s' → same_registry s s'.
Proof. unfold same_registry. by intros ->. Qed.

Lemma run_batch_registry c batch s : same_registry s (run_batch gas c batch s).
Proof.
  destruct batch as [|message batch]; [done|]. unfold run_batch.
  pose proof (receive_clients message c s) as Hr. destruct (receive _ _ _ _) as [r s'].
  etrans; [by apply same_clients_registry|done].
Qed.

Lemma run_head_registry c s : same_registry s (run_head c s).
Proof. unfold run_head. by case_goal. Qed.

Lemma run_polled_registry c r s : same_registry s (run_polled gas c r s).
Proof.
  unfold run_polled. destruct (poll_outcome r) as [v|e|]; [..|done]; case_goal; try done.
  destruct v; try done. apply run_batch_registry.
Qed.

Lemma respond_clients c response s : same_clients s (respond c response s).
Proof. unfold respond. by repeat case_goal. Qed.

Lemma run_responded_registry c r batch s : same_registry s (run_responded gas c r batch s).
Proof.
  destruct r as [v|e|]; [..|done]; cbn [run_responded]; (etrans; [|apply run_batch_registry]);
    apply same_clients_registry; [apply respond_clients|done].
Qed.

(** What leaves the registry alone: everything but an answer of /daemon. *)
Definition is_answer (m : move) : bool :=
  match m with MvControlPolled (Fulfilled _) => true | _ => false end.

Lemma perform_registry m s s' :
  is_answer m = false → perform gas m s = Some s' → same_registry s s'.
Proof.
  intros Hm. destruct m as [W|W em|e|[v|e]| |c r|c|c|r|id r]; cbn [perform]; try done;
    repeat (case_goal; try done); intros [= <-]; try done; try by destruct r.
  - apply same_clients_registry, deliver_clients.
  - apply same_clients_registry, deadline_fires_clients.
  - apply run_polled_registry.
  - apply run_responded_registry.
  - apply run_head_registry.
  - destruct r as [[| | | |[]| |]|]; done.
Qed.
End Registry.
