(* ===== verification/Access.v ===== *)
(** * Who changes KWin's windows

    The script writes to KWin only on behalf of a client, inside a JSON-RPC
    method, and a method writes to a window only if the calling client holds
    a token bound to it when the call begins: the worlds of a run are chained
    by authorised assignments, apart from KWin's own changes. *)
From S2P Require Export Scenario.

Section Access.
Context {E : Env}.
Implicit Types (s : state) (c : conn) (w : window).

(** The client [c] holds a token bound to [w]. *)
Definition holds_window s c w : Prop := ∃ t, claimed s t c w.

(** What a call of the client [c] that begins in [s] may assign. *)
Definition may_assign s c (a : assignment) : Prop :=
  match a with
  | AsgnDesktops w _ | AsgnActivities w _ => holds_window s c w
  | AsgnProp w prop _ => holds_window s c w ∧ prop ∈ UPDATE_PROPS
  | AsgnCurrentDesktop _ | AsgnCurrentActivity _ => True
  end.

(** One such assignment, carried out by KWin. *)
Definition assigned s c (W W' : World) : Prop :=
  ∃ a ems, may_assign s c a ∧ assign W a = inl (ems, W').

(** From the world of one state to that of another by such assignments. *)
Definition writes s0 c s s' : Prop := rtc (assigned s0 c) (world (host s)) (world (host s')).

#[export] Instance writes_preorder s0 c : PreOrder (writes s0 c).
Proof.
  split; [intros s; apply rtc_refl|]. intros s1 s2 s3 H1 H2. unfold writes. by etrans.
Qed.

Lemma same_world_writes s0 c s s' : world (host s') = world (host s) → writes s0 c s s'.
Proof. unfold writes. by intros ->. Qed.

(** ** Assignments *)

Lemma assign_property_writes s0 c a s :
  may_assign s0 c a → writes s0 c s (snd (assign_property a s)).
Proof.
  intros Ha. unfold assign_property.
  destruct (assign (world (host s)) a) as [[ems W]|error] eqn:Has; [|by apply same_world_writes].
  apply rtc_once. by exists a, ems.
Qed.

Lemma applyUpdate_writes s0 c w p v s :
  holds_window s0 c w → p ∈ UPDATE_PROPS → writes s0 c s (snd (applyUpdate w p v s)).
Proof.
  intros Hw Hp. unfold applyUpdate. repeat case_decide; by apply assign_property_writes.
Qed.

Lemma ws_applyUpdate_writes s0 c p v s : writes s0 c s (snd (ws_applyUpdate p v s)).
Proof. unfold ws_applyUpdate. case_decide; by apply assign_property_writes. Qed.

(** ** A call of a method *)

Context `{!SignalLaws E}.

Lemma token_request_writes gas timeout c s0 s :
  writes s0 c s (snd (token_request gas timeout c s)).
Proof.
  apply (bind_rel (writes s0 c)); [|intros; by apply same_world_writes].
  apply same_world_writes. by rewrite (proj1 (proj2 (generateToken_spec gas s))).
Qed.

Lemma methods_writes gas name f params c s :
  inv s → jm_get name (methods gas) = Some f → writes s c s (snd (f params c s)).
Proof.
  intros Hi Hf. destruct (methods_effect gas name f params c s Hf).
  - reflexivity.
  - apply (windows_update_rel (writes s c)); [|intros; by apply same_world_writes].
    intros w pv s' Hw Hp. apply applyUpdate_writes; [|done].
    exists t. by destruct (resolve_claimed t c w s s Hi Hw).
  - apply (window_watch_rel (writes s c)). intros w p b s' _ _ _.
    split; [apply same_world_writes|]; apply setWatch_frame.
  - apply token_request_writes.
  - apply (workspace_update_rel (writes s c)); [|intros; by apply same_world_writes].
    intros. apply ws_applyUpdate_writes.
  - apply (workspace_watch_rel (writes s c)). intros. apply same_world_writes, ws_setWatch_frame.
Qed.

(** One call of the script for [c], and what it wrote. *)
Definition authorised_call gas c s s' : Prop :=
  method_call (methods gas) c s s' ∧ writes s c s s'.

Context `{!QTimerLaws E} {J : JsonRpcApi E} `{!JsonRpcLaws E J} (gas : nat).

Lemma receive_authorised message c s :
  inv s → known c s →
  rtc (authorised_call gas c) s (snd (receive (methods gas) message c s)).
Proof.
  intros Hi Hk. pose proof (receive_calls (methods gas) message c s) as Hrtc.
  induction Hrtc as [s|s1 s2 s3 Hcall _ IH]; [done|].
  assert (Hg : good s1 s2).
  { destruct Hcall; [by eapply methods_good|apply errorListener_good]. }
  apply rtc_l with s2; [|apply IH; [by apply Hg|by eapply known_good]].
  split; [done|]. destruct Hcall as [name f params s1 Hf|message' [msg code data|msg] s1];
    [by eapply methods_writes|by apply same_world_writes..].
Qed.

(** ** The moves *)

(** Between [s] and [s'] the script did nothing but calls for [c], and logs,
    responses and the bookkeeping of its loop. *)
Definition serves c s s' : Prop :=
  ∃ s0 s1, same_heap s s0 ∧ rtc (authorised_call gas c) s0 s1 ∧ host s' = host s1.

Lemma idle_serves c s s' : host s' = host s → serves c s s'.
Proof. intros Hs. by exists s, s. Qed.

Lemma run_batch_serves c batch s s0 :
  inv s → known c s → same_heap s0 s → serves c s0 (run_batch gas c batch s).
Proof.
  intros Hi Hk Hs. destruct batch as [|message batch]; [by exists s, s|]. unfold run_batch.
  pose proof (receive_authorised message c s Hi Hk) as Hr.
  destruct (receive _ _ _ _) as [r s1]. by exists s, s1.
Qed.

Lemma run_polled_serves c r s : inv s → known c s → serves c s (run_polled gas c r s).
Proof.
  intros Hi Hk. unfold run_polled. destruct (poll_outcome r) as [v|e|]; [..|by apply idle_serves];
    case_goal; try by apply idle_serves.
  destruct v; try by apply idle_serves. by apply run_batch_serves.
Qed.

Lemma run_responded_serves c r batch s :
  inv s → known c s → serves c s (run_responded gas c r batch s).
Proof.
  intros Hi Hk. destruct r as [v|e|]; [..|by apply idle_serves]; cbn [run_responded];
    apply run_batch_serves; try done.
  - apply (quiet_good _ _ (respond_quiet c v s)), Hi.
  - by eapply known_quiet, Hk; apply respond_quiet.
  - unfold respond. by repeat case_goal.
  - by apply (quiet_good _ _ (sendLog_quiet _ _ s)).
Qed.

(** Nothing was written. *)
Definition same_world s s' : Prop := world (host s') = world (host s).

#[export] Instance same_world_preorder : PreOrder same_world.
Proof. split; [done|]. intros s1 s2 s3. unfold same_world. congruence. Qed.

Lemma forget_window_world en s : same_world s (forget_window en s).
Proof. unfold forget_window. by repeat case_goal. Qed.

Lemma invalidate_world e reason s : same_world s (invalidate e reason s).
Proof.
  destruct (entry_at e s) as [en|] eqn:He; [|by unfold invalidate; rewrite He].
  rewrite (invalidate_unfold e en reason s He). destruct (without_frame timer_stop e en s) as (_ & _ & _ & _ & Hw & _).
  etrans; [exact Hw|]. exact (f_equal world (sh_host _ _ (notifyClient_same_heap _ _ _ _))).
Qed.

Lemma deadline_fires_world e s : same_world s (deadline_fires e s).
Proof.
  unfold deadline_fires, onTokenDeadline. repeat case_goal; [|done..].
  etrans; [|apply invalidate_world]. done.
Qed.

Lemma dropClientTokens_world id s : same_world s (dropClientTokens id s).
Proof.
  unfold dropClientTokens. cbv zeta. etrans; [|by case_goal].
  etrans; [|apply (wf_world _ _ (dropClientWatches_frame _ _))].
  apply (foldl_rel same_world). intros s' [e en]. etrans; [|done].
  exact (forget_window_world en (upd_entry e (upd_timer timer_stop) s')).
Qed.

Lemma process_event_world event s : same_world s (process_event event s).
Proof.
  unfold process_event. repeat (case_goal; try done).
  - unfold onClientConnected, run_head. by repeat case_goal.
  - unfold onClientDisconnected. case_goal; [|done].
    etrans; [|apply (wsf_world _ _ (ws_drop_frame _ _))].
    etrans; [|apply dropClientTokens_world]. done.
Qed.

Lemma control_polled_world r s : same_world s (control_polled r s).
Proof.
  unfold control_polled. destruct (poll_outcome r) as [v|e|]; [|done..].
  destruct v; try done. etrans; [|done].
  apply (foldl_rel same_world). intros s' event. apply process_event_world.
Qed.

Lemma perform_polled c r s :
  loops (clients s) !! c = Some LPoll →
  perform gas (MvClientPolled c r) s = Some (run_polled gas c r s).
Proof. cbn [perform]. by intros ->. Qed.

(** The client whose loop a move resumes. *)
Definition resumed (m : move) : option conn :=
  match m with
  | MvClientPolled c _ | MvClientResponds c | MvClientWakes c => Some c
  | _ => None
  end.

(** KWin changes by itself. *)
Definition by_kwin (m : move) : bool :=
  match m with MvWorld _ | MvSignal _ _ => true | _ => false end.

(** C6: the script changes KWin only for a client. Apart from KWin's own
    changes, the world stays as it is unless the message loop of a client
    runs; then what is written is the work of calls made for that client, and
    each of them assigns, besides the workspace's desktop and activity, only
    supported properties of windows to which, when the call begins, a token of
    that client is bound. *)
Theorem window_writes_authorised s m s' :
  reachable gas s → perform gas m s = Some s' → by_kwin m = false →
  match resumed m with
  | None => world (host s') = world (host s)
  | Some c => serves c s s'
  end.
Proof.
  intros Hi%reachable_invariant Hm Hk; [|done..].
  destruct m as [W|W em|e|r| |c r|c|c|r|id r]; try done; cbn [resumed]; revert Hm; cbn [perform];
    repeat (case_goal; try done); intros [= <-]; try done.
  - apply deadline_fires_world.
  - apply control_polled_world.
  - apply run_polled_serves; [done|by eapply running_known].
  - apply run_responded_serves; [done|by eapply running_known].
  - apply idle_serves. unfold run_head. by case_goal.
  - by destruct r.
  - by destruct r as [[| | | |[]| |]|].
Qed.
End Access.

(** ** A client changes its window *)

Definition sc_update_batch : settled :=
  sc_batch [sc_request "windows.update" (Arr [Str sc_token1; Obj [("minimized", Bool true)]])].

Definition sc_updating : state := run_polled sc_gas sc_conn1 sc_update_batch sc_bound.

Lemma window_writes_authorised_witness :
  window_prop (world (host sc_bound)) sc_win "minimized" = Bool false ∧
  window_prop (world (host sc_updating)) sc_win "minimized" = Bool true ∧
  serves sc_gas sc_conn1 sc_bound sc_updating.
Proof.
  split; [evaluate|]. split; [evaluate|].
  assert (Hl : loops (clients sc_bound) !! sc_conn1 = Some LPoll) by evaluate.
  exact (window_writes_authorised sc_gas sc_bound (MvClientPolled sc_conn1 sc_update_batch)
    sc_updating sc_bound_reachable (perform_polled sc_gas sc_conn1 sc_update_batch sc_bound Hl) eq_refl).
Defined.
