(* ===== verification/RefJson.v ===== *)
(** * The reference JSON reader on the daemon's control messages

    The text that /daemon answers is the JSON array of the control messages;
    [ref_parse_batch] says that the reader of RefEnv.v gives the array of the
    objects the script works on, whatever their ids and their number. *)
From S2P Require Export RefEnv Server.

(** The object that the script sees for a control message. *)
Definition change_value (e : client_change) : value :=
  Obj [("event", Str (event_name e)); ("id", Num (NInt (event_id e)))].

(** The text of a batch of control messages, as [poll] answers it. *)
Definition batch_text (b : list client_change) : string :=
  text_of (json_array (map control_message b)).

(** ** Numbers *)

(** A test that ten numbers pass. *)
Lemma below_ten (f : N → bool) n :
  (n < 10)%N → forallb f [0; 1; 2; 3; 4; 5; 6; 7; 8; 9]%N = true → f n = true.
Proof.
  intros Hn Hf. rewrite forallb_forall in Hf. apply Hf. apply list_elem_of_In.
  rewrite !elem_of_cons. lia.
Qed.

Lemma pretty_char_digit n : (n < 10)%N →
  is_digit (pretty_N_char n) = true ∧
  Z.of_nat (Ascii.nat_of_ascii (pretty_N_char n)) - 48 = Z.of_N n.
Proof.
  intros Hn. rewrite <- Z.eqb_eq, <- andb_true_iff.
  by apply (below_ten (λ n, is_digit (pretty_N_char n) &&
    (Z.of_nat (Ascii.nat_of_ascii (pretty_N_char n)) - 48 =? Z.of_N n))).
Qed.

(** The decimal digits of [x] in front of [s]. *)
Lemma pretty_go_ind (P : N → string → string → Prop) :
  (∀ s, P 0%N s s) →
  (∀ x s r, (0 < x)%N → P (x `div` 10)%N (String (pretty_N_char (x mod 10)) s) r → P x s r) →
  ∀ x s, P x s (pretty_N_go x s).
Proof.
  intros H0 Hstep x. induction (N.lt_wf_0 x) as [x _ IH]; intros s.
  destruct (decide (x = 0)%N) as [->|Hx]; [rewrite pretty_N_go_0; apply H0|].
  rewrite pretty_N_go_step by lia. apply Hstep; [lia|]. apply IH, N.div_lt; lia.
Qed.

Lemma pretty_go_app x s r : pretty_N_go x s +:+ r = pretty_N_go x (s +:+ r).
Proof.
  apply (pretty_go_ind (λ x s y, y +:+ r = pretty_N_go x (s +:+ r))); clear x s.
  - intros s. by rewrite pretty_N_go_0.
  - intros x s y Hx ->. by rewrite (pretty_N_go_step x) by lia.
Qed.

Lemma ref_digits_go x s :
  ∃ k : Z, ∀ acc, ref_digits acc (pretty_N_go x s) = ref_digits (acc * k + Z.of_N x) s.
Proof.
  apply (pretty_go_ind (λ x s y, ∃ k : Z, ∀ acc, ref_digits acc y = ref_digits (acc * k + Z.of_N x) s));
    clear x s; [intros s; exists 1; intros acc; f_equal; lia|].
  intros x s y Hx [k Hk]. exists (10 * k). intros acc. rewrite Hk. cbn [ref_digits].
  destruct (pretty_char_digit (x mod 10)) as [-> Hc]; [apply N.mod_lt; lia|].
  f_equal. pose proof (N.div_mod x 10 ltac:(lia)) as Hdiv.
  rewrite (f_equal Z.of_N Hdiv), N2Z.inj_add, N2Z.inj_mul. lia.
Qed.

Definition starts_digit (s : string) : bool :=
  match s with String c _ => is_digit c | EmptyString => false end.

Lemma pretty_go_digit x s :
  (0 < x)%N ∨ starts_digit s = true → starts_digit (pretty_N_go x s) = true.
Proof.
  apply (pretty_go_ind (λ x s y, (0 < x)%N ∨ starts_digit s = true → starts_digit y = true));
    clear x s; [intros s [?|?]; [lia|done]|].
  intros x s y Hx IH _. apply IH. right. apply pretty_char_digit, N.mod_lt. lia.
Qed.

Lemma pretty_digits z rest : 0 ≤ z → starts_digit rest = false →
  ref_digits 0 (pretty z +:+ rest) = (z, rest) ∧ starts_digit (pretty z +:+ rest) = true.
Proof.
  intros Hz Hrest.
  assert (∀ acc, ref_digits acc rest = (acc, rest)) as Hstop.
  { intros acc. destruct rest as [|c rest]; [done|]. cbn in *. by rewrite Hrest. }
  destruct z as [|p|p]; [|clear Hz|lia].
  - change (pretty 0 +:+ rest) with (String "0" rest). split; [apply Hstop|done].
  - change (pretty (Z.pos p)) with (pretty_N_go (N.pos p) ""). rewrite pretty_go_app. cbn [String.append].
    split; [|by apply pretty_go_digit; left].
    destruct (ref_digits_go (N.pos p) rest) as [k ->]. rewrite Hstop. by rewrite Z.mul_0_l.
Qed.

Lemma digit_byte c : is_digit c = true →
  c ≠ quote_char ∧ c ≠ "["%char ∧ c ≠ "{"%char ∧ c ≠ "n"%char ∧ c ≠ "t"%char ∧ c ≠ "f"%char.
Proof. intros Hc. by split_and!; intros ->. Qed.

Lemma strip_prefix_other c c' p s : c ≠ c' → RefEnv.strip_prefix (String c p) (String c' s) = None.
Proof.
  intros Hne. cbn [RefEnv.strip_prefix]. by rewrite decide_False.
Qed.

Lemma ref_read_digits f s : starts_digit s = true →
  ref_read (S f) s = let (z, s) := ref_digits 0 s in Some (Num (NInt z), s).
Proof.
  destruct s as [|c s]; [done|]. intros Hc. cbn in Hc.
  destruct (digit_byte c Hc) as (? & ? & ? & ? & ? & ?).
  cbn [ref_read]. rewrite !strip_prefix_other by done.
  rewrite !decide_False by done. by rewrite Hc.
Qed.

(** ** Messages *)

Lemma append_assoc (a b c : string) : (a +:+ b) +:+ c = a +:+ b +:+ c.
Proof. induction a as [|x a IH]; [done|]. exact (f_equal (String x) IH). Qed.

Lemma append_nil_r (a : string) : a +:+ "" = a.
Proof. induction a as [|x a IH]; [done|]. exact (f_equal (String x) IH). Qed.

Lemma text_of_app a b : text_of (a ++ b) = text_of a +:+ text_of b.
Proof. induction a as [|c a IH]; [done|]. exact (f_equal (String c) IH). Qed.

Lemma text_of_chars s : text_of (chars s) = s.
Proof. apply String.string_of_list_ascii_of_string. Qed.

Lemma control_text e rest :
  text_of (control_message e) +:+ rest =
  "{" +:+ quote +:+ "event" +:+ quote +:+ ":" +:+ quote +:+ event_name e +:+ quote +:+ "," +:+
  quote +:+ "id" +:+ quote +:+ ":" +:+ pretty (event_id e) +:+ "}" +:+ rest.
Proof.
  unfold control_message. rewrite !text_of_app, !text_of_chars.
  change (text_of [dquote]) with quote. by rewrite !append_assoc.
Qed.

(** The reader on a string, and on an object. *)
Lemma ref_read_string f a s rest : ref_chars s = Some (a, rest) →
  ref_read (S f) (quote +:+ s) = Some (Str a, rest).
Proof. intros Hs. transitivity (match ref_chars s with Some (a, b) => Some (Str a, b) | None => None end);
  [reflexivity|by rewrite Hs]. Qed.

Lemma ref_read_object f s :
  ref_read (S f) ("{" +:+ quote +:+ s) =
  match ref_fields f (quote +:+ s) with Some (l, s) => Some (Obj l, s) | None => None end.
Proof. reflexivity. Qed.

Lemma ref_fields_more f s k v rest l rest' :
  ref_chars s = Some (k, String ":" rest) → ref_read (S f) rest = Some (v, String "," rest') →
  ref_fields (S f) rest' = l →
  ref_fields (S (S f)) (quote +:+ s) =
  match l with Some (l, s) => Some ((k, v) :: l, s) | None => None end.
Proof.
  intros Hk Hv <-. transitivity (match ref_read (S f) (quote +:+ s) with
    | Some (Str k, String ":" s) =>
      match ref_read (S f) s with
      | Some (v, String "," s) =>
        match ref_fields (S f) s with Some (l, s) => Some ((k, v) :: l, s) | None => None end
      | Some (v, String "}" s) => Some ([(k, v)], s)
      | _ => None
      end
    | _ => None end); [reflexivity|].
  rewrite (ref_read_string _ _ _ _ Hk). cbv beta iota. by rewrite Hv.
Qed.

Lemma ref_fields_last f s k v rest rest' :
  ref_chars s = Some (k, String ":" rest) → ref_read (S f) rest = Some (v, String "}" rest') →
  ref_fields (S (S f)) (quote +:+ s) = Some ([(k, v)], rest').
Proof.
  intros Hk Hv. transitivity (match ref_read (S f) (quote +:+ s) with
    | Some (Str k, String ":" s) =>
      match ref_read (S f) s with
      | Some (v, String "," s) =>
        match ref_fields (S f) s with Some (l, s) => Some ((k, v) :: l, s) | None => None end
      | Some (v, String "}" s) => Some ([(k, v)], s)
      | _ => None
      end
    | _ => None end); [reflexivity|].
  rewrite (ref_read_string _ _ _ _ Hk). cbv beta iota. by rewrite Hv.
Qed.

(** The fuel [4] covers the nesting of one message. *)
Lemma ref_read_message f e rest : 0 ≤ event_id e →
  ref_read (4 + f) (text_of (control_message e) +:+ rest) = Some (change_value e, rest).
Proof.
  intros He. rewrite control_text.
  destruct (pretty_digits (event_id e) ("}" +:+ rest) He) as [Hd Hs]; [done|].
  revert Hd Hs. generalize (pretty (event_id e) +:+ "}" +:+ rest) as num. intros num Hd Hs.
  pose proof (ref_read_digits f num Hs) as Hnum. rewrite Hd in Hnum.
  change (4 + f)%nat with (S (3 + f)). rewrite ref_read_object.
  rewrite (ref_fields_more (S f) _ "event" (Str (event_name e))
    (quote +:+ event_name e +:+ quote +:+ "," +:+ quote +:+ "id" +:+ quote +:+ ":" +:+ num)
    (Some ([("id", Num (NInt (event_id e)))], rest)) (quote +:+ "id" +:+ quote +:+ ":" +:+ num));
    [reflexivity|reflexivity|by apply ref_read_string; destruct e|].
  apply (ref_fields_last f _ "id" _ num); [reflexivity|exact Hnum].
Qed.

(** ** Batches *)

Definition items_text (b : list client_change) : string :=
  text_of (comma_separated (map control_message b)).

Lemma items_text_cons e b : items_text (e :: b) =
  text_of (control_message e) +:+
  match b with [] => "" | _ => "," +:+ items_text b end.
Proof.
  unfold items_text. destruct b as [|e' b].
  - by rewrite append_nil_r.
  - change (comma_separated (map control_message (e :: e' :: b))) with
      (control_message e ++ chars "," ++ comma_separated (map control_message (e' :: b))).
    by rewrite !text_of_app.
Qed.

Lemma ref_items_more f s v rest l :
  ref_read f s = Some (v, String "," rest) → ref_items f rest = l →
  ref_items (S f) s = match l with Some (l, s) => Some (v :: l, s) | None => None end.
Proof.
  intros Hv <-. transitivity (match ref_read f s with
    | Some (v, String "," s) =>
      match ref_items f s with Some (l, s) => Some (v :: l, s) | None => None end
    | Some (v, String "]" s) => Some ([v], s)
    | _ => None
    end); [reflexivity|by rewrite Hv].
Qed.

Lemma ref_items_last f s v rest :
  ref_read f s = Some (v, String "]" rest) → ref_items (S f) s = Some ([v], rest).
Proof.
  intros Hv. transitivity (match ref_read f s with
    | Some (v, String "," s) =>
      match ref_items f s with Some (l, s) => Some (v :: l, s) | None => None end
    | Some (v, String "]" s) => Some ([v], s)
    | _ => None
    end); [reflexivity|by rewrite Hv].
Qed.

Definition ids_ok (b : list client_change) : Prop := Forall (λ e, 0 ≤ event_id e) b.

Lemma ref_items_batch f b : b ≠ [] → ids_ok b →
  ref_items (4 + length b + f) (items_text b +:+ "]") = Some (map change_value b, "").
Proof.
  intros Hne Hids. induction Hids as [|e b He Hb IH]; [done|clear Hne].
  rewrite items_text_cons, append_assoc. destruct b as [|e' b].
  - apply (ref_items_last (4 + f)). by apply ref_read_message.
  - change (4 + length (e :: e' :: b) + f)%nat with (S (4 + length (e' :: b) + f)).
    rewrite (ref_items_more _ _ (change_value e) (items_text (e' :: b) +:+ "]")
      (Some (map change_value (e' :: b), ""))); [done| |by apply IH].
    rewrite <- Nat.add_assoc. by apply ref_read_message.
Qed.

Lemma ref_read_array f s :
  ref_read (S f) ("[" +:+ "{" +:+ s) =
  match ref_items f ("{" +:+ s) with Some (l, s) => Some (Arr l, s) | None => None end.
Proof. reflexivity. Qed.

Lemma append_length a b : String.length (a +:+ b) = (String.length a + String.length b)%nat.
Proof. induction a as [|x a IH]; [done|]. exact (f_equal S IH). Qed.

(** A message is at least as long as the skeleton of its object. *)
Lemma items_text_length b : (4 * length b ≤ String.length (items_text b))%nat.
Proof.
  induction b as [|e b IH]; [done|]. rewrite items_text_cons, append_length.
  assert (4 ≤ String.length (text_of (control_message e)))%nat.
  { pose proof (control_text e "") as Ht. rewrite <- (append_nil_r (text_of _)), Ht.
    rewrite !append_length. cbn [String.length]. lia. }
  destruct b; cbn [length] in *; [|rewrite append_length]; lia.
Qed.

Lemma batch_text_items b : batch_text b = "[" +:+ items_text b +:+ "]".
Proof. unfold batch_text, json_array. by rewrite !text_of_app. Qed.

(** [JSON.parse] of the text of a batch. *)
Lemma ref_parse_batch b : ids_ok b →
  ref_parse (Str (batch_text b)) = inl (Arr (map change_value b)).
Proof.
  intros Hids. rewrite batch_text_items. destruct b as [|e b]; [done|].
  unfold ref_parse. pose proof (items_text_length (e :: b)) as Hlen.
  rewrite !append_length. set (n := (2 * _)%nat).
  replace n with (4 + length (e :: b) + (n - 4 - length (e :: b)))%nat by (cbn in *; lia).
  pose proof (ref_items_batch (n - 4 - length (e :: b)) (e :: b)) as Hitems.
  assert (∃ s, items_text (e :: b) +:+ "]" = "{" +:+ s) as [s Hs].
  { rewrite items_text_cons, append_assoc, control_text. by eexists. }
  rewrite Hs in *. rewrite ref_read_array, Hitems by done. done.
Qed.
