(* ===== verification/EndToEnd.v ===== *)
(** * The script and the daemon together

    What /daemon answers to the script's polls are texts; the script parses
    them and keeps its registry of clients.  [script_tracks_daemon] joins the
    two models: once the script has had the answers that the daemon sent, it
    serves exactly the daemon's sessions, but for the changes that still wait in
    the daemon's queue.  In between anything else may happen to both. *)
From S2P Require Export ClientProps Registry ServerProps RefJson.

(** ** The texts *)

(** What [poll] answered, in order: the reply of [log] is the empty text, those
    of [poll] are not. *)
Definition poll_texts (out : list output) : list string :=
  omap (λ e, match e with
    | Return _ (ch :: text) => Some (text_of (ch :: text))
    | _ => None
    end) out.

(** The answers of /daemon among the moves of the script. *)
Definition answer_of {E : Env} (m : move) : option value :=
  match m with MvControlPolled (Fulfilled v) => Some v | _ => None end.
Definition answers {E : Env} (ms : list move) : list value := omap answer_of ms.

(** [JSON.parse] on the texts of /daemon: a batch is an array of objects, as
    long as the ids are safe integers; an error is a string. *)
Class ControlJsonLaws (E : Env) : Prop := {
  parse_batch b : Forall (λ e, 0 ≤ event_id e < 2 ^ 53) b →
    JSON_parse (Str (batch_text b)) = inl (Arr (map change_value b));
  parse_error t : t ∈ poll_errors → ∃ error, JSON_parse (Str (text_of t)) = inl (Str error);
}.

#[export] Instance RefEnv_control_json : ControlJsonLaws RefEnv.
Proof.
  split; simpl.
  - intros b Hb. apply ref_parse_batch. eapply Forall_impl; [exact Hb|]. intros e He. apply He.
  - intros t Ht. unfold poll_errors in Ht. rewrite !elem_of_cons, elem_of_nil in Ht.
    repeat destruct Ht as [->|Ht]; try done; by eexists.
Qed.

(** ** The history of one client *)

Definition is_connect (e : client_change) : bool :=
  match e with client_connected _ => true | client_disconnected _ => false end.

(** Whether the client [id], connected before if [before], is after [l]. *)
Definition connected_after (l : list client_change) (id : Z) (before : Prop) : Prop :=
  match last (filter (λ e, event_id e = id) l) with
  | Some e => is_connect e = true
  | None => before
  end.

Lemma connected_after_app l1 l2 id P :
  connected_after (l1 ++ l2) id P ↔ connected_after l2 id (connected_after l1 id P).
Proof. unfold connected_after. rewrite filter_app, last_app. by destruct (last (filter _ l2)). Qed.

Lemma connected_after_iff l id P Q : (P ↔ Q) → connected_after l id P ↔ connected_after l id Q.
Proof. unfold connected_after. by destruct (last _). Qed.

Lemma connected_after_one e id P :
  connected_after [e] id P ↔ if decide (event_id e = id) then is_connect e = true else P.
Proof. unfold connected_after. rewrite filter_cons. by case_decide. Qed.

Lemma lifecycle_connected hist live id :
  lifecycle hist live → id ∈ live ↔ connected_after hist id False.
Proof.
  induction 1 as [|hist live id' _ IH _|hist live id' _ IH _];
    [set_solver|rewrite connected_after_app, connected_after_one; cbn [event_id is_connect]..];
    case_decide; subst; rewrite <- ?IH; set_solver.
Qed.

(** ** The daemon's side: what its answers say *)

Lemma pretty_no_nul z : 0 ≤ z → "000"%char ∉ chars (pretty z).
Proof.
  intros Hz. assert (∀ x s, "000"%char ∉ chars s → "000"%char ∉ chars (pretty_N_go x s)) as Hgo.
  { apply (pretty_go_ind (λ x s y, "000"%char ∉ chars s → "000"%char ∉ chars y)); [done|].
    intros x s y _ IH Hs. apply IH. cbn. rewrite not_elem_of_cons. split; [|done].
    destruct (pretty_char_digit (x mod 10)) as [Hd _]; [by apply N.mod_lt|].
    intros Heq. by rewrite <- Heq in Hd. }
  destruct z as [|p|p]; [| |lia]; [by apply (bool_decide_unpack _)|]. apply Hgo. by apply not_elem_of_nil.
Qed.

Lemma control_message_no_nul e : 0 ≤ event_id e → "000"%char ∉ control_message e.
Proof.
  intros He. unfold control_message.
  repeat apply no_nul_app; try (by apply pretty_no_nul); destruct e; by apply (bool_decide_unpack _).
Qed.

Lemma control_messages_no_nul b : ids_ok b → Forall no_nul (map control_message b).
Proof.
  intros Hb. apply Forall_forall. intros m (e & -> & He)%list_elem_of_fmap.
  unfold ids_ok in Hb. rewrite Forall_forall in Hb. by apply control_message_no_nul, Hb.
Qed.

Lemma batch_c_str b : ids_ok b →
  c_str (json_array (map control_message b)) = json_array (map control_message b).
Proof.
  intros Hb. apply c_str_id.
  apply json_array_no_nul. by apply control_messages_no_nul.
Qed.

Section EndToEnd.
Context {E : Env} {J : JsonRpcApi E}.
Context `{!QTimerLaws E, !SignalLaws E, !JsonRpcLaws E J, !ControlJsonLaws E} (gas : nat).
Implicit Types (s : state).

(** The events that the script finds in the answers. *)
Definition events_of (v : value) : list value :=
  match JSON_parse v with inl (Arr events) => events | _ => [] end.

Definition safe_ids (l : list client_change) : Prop := Forall (λ e, 0 ≤ event_id e < 2 ^ 53) l.

Lemma safe_ids_ok l : safe_ids l → ids_ok l.
Proof. intros Hl. eapply Forall_impl; [exact Hl|]. intros e He. apply He. Qed.

Lemma poll_texts_app out1 out2 : poll_texts (out1 ++ out2) = poll_texts out1 ++ poll_texts out2.
Proof. apply omap_app. Qed.

Lemma poll_texts_batch m b : ids_ok b →
  poll_texts [Return m (json_array (map control_message b))] = [batch_text b].
Proof. intros Hb. rewrite <- batch_c_str by done. by rewrite (batch_c_str b). Qed.

Lemma poll_texts_error m t : t ∈ poll_errors → poll_texts [Return m (c_str t)] = [text_of t].
Proof.
  unfold poll_errors. rewrite !elem_of_cons, elem_of_nil. intros Ht.
  by repeat destruct Ht as [->|Ht].
Qed.

(** The answers of the daemon carry the events of the messages it sent. *)
Lemma carried_events out delivered h :
  carried [[]] out delivered → delivered = map control_message h → safe_ids h →
  (Str <$> poll_texts out) ≫= events_of = map change_value h.
Proof.
  intros Hc. revert h. induction Hc as [|out msgs m b _ IH _|out msgs m t _ IH Ht|out msgs l t _ IH];
    intros h Hh Hids; try rewrite poll_texts_app, fmap_app, bind_app.
  - by destruct h.
  - symmetry in Hh. apply map_eq_app in Hh as (h1 & h2 & -> & <- & <-).
    apply Forall_app in Hids as [Hids1 Hids2].
    rewrite (IH h1), poll_texts_batch, map_app by eauto using safe_ids_ok.
    f_equal. cbn [fmap list_fmap mbind list_bind]. unfold events_of.
    by rewrite parse_batch, app_nil_r.
  - rewrite (IH h) by done. apply elem_of_app in Ht as [Ht|Ht].
    + rewrite poll_texts_error by done. cbn [fmap list_fmap mbind list_bind]. unfold events_of.
      destruct (parse_error t Ht) as [error ->]. apply app_nil_r.
    + apply list_elem_of_singleton in Ht as ->. apply app_nil_r.
  - rewrite (IH h) by done. apply app_nil_r.
Qed.

(** ** The script's side: what it makes of them *)

Definition connected (id : Z) s : Prop :=
  is_Some (jm_get (NInt id) (connections (clients s))).

Lemma change_value_event e : change_value e = control_event (is_connect e, NInt (event_id e)).
Proof. by destruct e. Qed.

Lemma process_changes h id s :
  connected id (foldl (λ s event, process_event event s) s (map change_value h)) ↔
  connected_after h id (connected id s).
Proof.
  revert s. induction h as [|e h IH]; intros s; [done|]. cbn [map foldl]. rewrite IH.
  change (e :: h) with ([e] ++ h). rewrite connected_after_app. apply connected_after_iff.
  rewrite connected_after_one, change_value_event. unfold connected.
  rewrite process_event_connected. repeat case_decide; naive_solver.
Qed.

Lemma answered_registry v s :
  connections (clients (control_polled (Fulfilled v) s)) =
  connections (clients (foldl (λ s event, process_event event s) s (events_of v))).
Proof.
  unfold control_polled, events_of, poll_outcome.
  by destruct (JSON_parse v) as [[]|].
Qed.

Lemma not_answer m : answer_of m = None → is_answer m = false.
Proof. by destruct m as [| | |[]| | | | | |]. Qed.

Lemma answers_connected ms h id s s' :
  perform_all gas ms s = Some s' → answers ms ≫= events_of = map change_value h →
  connected id s' ↔ connected_after h id (connected id s).
Proof.
  revert h s. induction ms as [|m ms IH]; intros h s.
  { intros [= <-] Hh. by destruct h. }
  unfold answers in *. cbn [perform_all omap list_omap]. destruct (perform gas m s) as [s1|] eqn:Hm; [|done].
  cbn [mbind option_bind]. destruct (answer_of m) as [v|] eqn:Hv; intros Hms Hh.
  - cbn [mbind list_bind] in Hh. symmetry in Hh.
    apply map_eq_app in Hh as (h1 & h2 & -> & Hh1 & Hh2).
    rewrite (IH h2 s1), connected_after_app by done. apply connected_after_iff.
    rewrite <- process_changes, Hh1.
    destruct m as [| | |[v'|]| | | | | |]; try done. cbn in Hv, Hm. simplify_eq.
    destruct (control (clients s)); simplify_eq. unfold connected. by rewrite answered_registry.
  - rewrite (IH h s1) by done. apply connected_after_iff. unfold connected.
    apply not_answer in Hv. by destruct (perform_registry gas m s s1 Hv Hm) as [-> _].
Qed.

(** The script serves the client [id]: its connection is registered and alive,
    and its message loop runs. *)
Definition served (id : Z) s : Prop :=
  ∃ c l, jm_get (NInt id) (connections (clients s)) = Some c ∧ conn_id c = NInt id ∧
    is_alive c s = true ∧ loops (clients s) !! c = Some l ∧ l ≠ LDone.

Lemma connected_served id s : inv s → connected id s ↔ served id s.
Proof.
  intros Hi. split; [intros [c Hc]|intros (c & l & Hc & _); by exists c].
  destruct (ci_conn _ _ (inv_clients _ Hi) _ _ Hc) as (Hid & Ha & l & Hl & Hne).
  exists c, l. unfold is_alive. by rewrite Ha.
Qed.

(** ** Together *)

Context `{MachineLaws}.
Context (max_clients rx_cap tx_cap : Z) (es : list server_event).
Hypothesis (Hmax : max_clients < 2 ^ 31).
Hypothesis (Hrx : buffer_cap_ok rx_cap) (Htx : buffer_cap_ok tx_cap).
Hypothesis Hfds : Forall fd_ok (es ≫= accepts_of).
Hypothesis Haccepts : zlen (es ≫= accepts_of) + 2 < 2 ^ 53.

(** The history that the queue and the answers of /daemon hold. *)
Lemma told_history sv0 sv o :
  server_start max_clients rx_cap tx_cap = Returns sv0 → server_run sv0 es = Returns sv →
  sv_daemon sv = Some o → (∀ e, drop_log e ∉ do_out o) →
  ∃ sent pending, lifecycle (sent ++ pending) (dom (sv_sessions sv)) ∧ safe_ids sent ∧
    carried [[]] (do_out o) (map control_message sent) ∧
    rx_queue (do_queue o) (map control_message pending) [] ∧
    (is_Some (pw_msg (do_poll o)) → pending = []).
Proof.
  intros Hstart Hrun Ho Hdrop.
  destruct (server_reached max_clients rx_cap tx_cap es) as (sv0' & sv' & hist & Hs & Hr & Hsv);
    [done..|lia|].
  assert (sv0' = sv0) as -> by congruence. assert (sv' = sv) as -> by congruence.
  destruct Hsv as [Hnext Hhist Hlife _ _ _ (o' & Ho' & [(logs & dl & q & sent & Hok & Happ & _ & Hall)])].
  assert (o' = o) as -> by congruence. destruct Hok as [[[Hq _ Hlogs] _ Hcar] Hidle].
  destruct Hall as [->|(e & _ & He)]; [|by destruct (Hdrop e); apply Hlogs].
  symmetry in Happ. apply map_eq_app in Happ as (h & pending & -> & <- & <-).
  assert (safe_ids h) as Hsafe.
  { apply Forall_forall. intros e He. specialize (Hhist e). rewrite elem_of_app in Hhist.
    specialize (Hhist (or_introl He)). lia. }
  exists h, pending. split_and!; try done.
  - by apply taken_carried, control_messages_no_nul, safe_ids_ok.
  - intros Hp. specialize (Hidle Hp). by destruct pending.
Qed.

Lemma loaded_connections W sg : connections (clients (load_script (init_state W sg))) = [].
Proof. by rewrite (ld_clients _ _ _ (load_script_loaded (init_state W sg))). Qed.

(** C5: The script keeps up with the daemon.  After any run of the daemon,
    and any run of the script in which the polls of /daemon were answered with
    the texts that the daemon sent, in order, whatever else happened to both in
    between: the daemon has a session for a client exactly when the script
    serves it, with a live connection and a message loop that runs, after the
    changes that wait in the daemon's queue; and none waits while a poll does.
    The daemon has dropped no message because its queue was full. *)
Theorem script_tracks_daemon sv0 sv o W sg ms s :
  server_start max_clients rx_cap tx_cap = Returns sv0 → server_run sv0 es = Returns sv →
  sv_daemon sv = Some o → (∀ e, drop_log e ∉ do_out o) →
  (∀ x, sig_slots sg x = []) →
  perform_all gas ms (load_script (init_state W sg)) = Some s →
  answers ms = Str <$> poll_texts (do_out o) →
  ∃ pending, rx_queue (do_queue o) (map control_message pending) [] ∧
    (is_Some (pw_msg (do_poll o)) → pending = []) ∧
    ∀ id, is_Some (sv_sessions sv !! id) ↔ connected_after pending id (served id s).
Proof.
  intros Hstart Hrun Ho Hdrop Hsg Hms Hans.
  destruct (told_history sv0 sv o) as (sent & pending & Hlife & Hids & Hcar & Hq & Hidle); [done..|].
  exists pending. split; [done|]. split; [done|]. intros id.
  pose proof (perform_all_reachable gas W sg ms s Hsg Hms) as Hi%reachable_invariant; [|done..].
  rewrite <- elem_of_dom, (lifecycle_connected _ _ id Hlife), connected_after_app.
  apply connected_after_iff. rewrite <- (connected_served id s Hi).
  pose proof (carried_events _ _ sent Hcar eq_refl Hids) as Hev. rewrite <- Hans in Hev.
  rewrite (answers_connected ms sent id _ _ Hms Hev). apply connected_after_iff.
  unfold connected. rewrite loaded_connections. split; [done|by intros []].
Qed.
End EndToEnd.

(** ** Witness *)

(** The daemon's run of ServerProps.v, in which a client comes, goes, and
    another comes; the script has the two answers. *)
Definition ref_answers : list string :=
  [batch_text [client_connected 1]; batch_text [client_disconnected 1; client_connected 2]].

Definition ref_moves : list (move (E := RefEnv)) :=
  [MvControlPolled (Fulfilled (Str (batch_text [client_connected 1]))); MvControlWakes;
   MvClientPolled (Env.Conn 1 (NInt 1)) (Rejected (HostError "Error: gone"));
   MvControlPolled (Fulfilled (Str (batch_text [client_disconnected 1; client_connected 2])))].

Abbreviation ref_script :=
  (perform_all sc_gas ref_moves (load_script (init_state (E := RefEnv) (sc_world "x") []))).

Definition daemon_out (r : cpp server) : option (list output) :=
  match r with Returns sv => do_out <$> sv_daemon sv | _ => None end.

Lemma daemon_out_run `{Machine} (start : cpp server) es sv0 sv o :
  start = Returns sv0 → server_run sv0 es = Returns sv → sv_daemon sv = Some o →
  daemon_out (sv ← start; server_run sv es) = Some (do_out o).
Proof. intros ->. cbn [mbind cpp_bind]. intros ->. cbn. by intros ->. Qed.

Lemma ref_daemon_out_eq : daemon_out ref_server_run = Some
  [Return 1 (chars (batch_text [client_connected 1]));
   Return 2 (chars (batch_text [client_disconnected 1; client_connected 2]))].
Proof. vm_compute. reflexivity. Qed.

Lemma ref_daemon_said : ∃ sv0 sv o,
  server_start 1 64 64 = Returns sv0 ∧ server_run sv0 ref_server_events = Returns sv ∧
  sv_daemon sv = Some o ∧ do_out o = [Return 1 (chars (batch_text [client_connected 1]));
    Return 2 (chars (batch_text [client_disconnected 1; client_connected 2]))].
Proof.
  destruct (server_reached 1 64 64 ref_server_events) as (sv0 & sv & hist & Hstart & Hrun & Hsv);
    [apply ref_server_hyps..|].
  destruct (sv_tells _ _ _ Hsv) as (o & Ho & _). exists sv0, sv, o.
  split; [exact Hstart|]. split; [exact Hrun|]. split; [exact Ho|].
  apply (inj Some). rewrite <- ref_daemon_out_eq. symmetry.
  exact (daemon_out_run _ _ _ _ _ Hstart Hrun Ho).
Qed.

Lemma ref_script_runs : is_Some ref_script.
Proof. apply (bool_decide_eq_true_1 (is_Some ref_script)). vm_compute. reflexivity. Qed.

Lemma script_tracks_daemon_witness : ∃ sv0 sv o s,
  server_start 1 64 64 = Returns sv0 ∧ server_run sv0 ref_server_events = Returns sv ∧
  sv_daemon sv = Some o ∧ ref_script = Some s ∧
  ∃ pending, rx_queue (do_queue o) (map control_message pending) [] ∧
    (is_Some (pw_msg (do_poll o)) → pending = []) ∧
    ∀ id, is_Some (sv_sessions sv !! id) ↔ connected_after pending id (served id s).
Proof.
  destruct ref_daemon_said as (sv0 & sv & o & Hstart & Hrun & Ho & Hout).
  destruct ref_script_runs as [s Hs]. exists sv0, sv, o, s.
  split; [exact Hstart|]. split; [exact Hrun|]. split; [exact Ho|]. split; [exact Hs|].
  refine (script_tracks_daemon (E := RefEnv) sc_gas 1 64 64 ref_server_events _ _ _ _ _
    sv0 sv o (sc_world "x") [] ref_moves s Hstart Hrun Ho _ _ Hs _); [apply ref_server_hyps..|done| | |].
  - intros e. rewrite Hout. by intros [[=]|[[=]|[]%elem_of_nil]%elem_of_cons]%elem_of_cons.
  - done.
  - rewrite Hout. vm_compute. reflexivity.
Defined.
