(* ===== verification/Config.v ===== *)
(** * config.cpp and the load loop of main.cpp

    [load_config] makes the [Config] of the daemon out of its environment and
    its arguments, collecting the errors; main.cpp refuses a configuration with
    errors, and hands the others to the server and to [load_with_retries].

    [std::stol] and the character classes are those of the C locale. *)
From S2P Require Export Server.

(** ** The C++ library *)

Definition in_range (lo hi : Z) (c : byte) : bool :=
  (lo <=? Z_of_byte c) && (Z_of_byte c <=? hi).

Definition isspace (c : byte) : bool := in_range 9 13 c || (Z_of_byte c =? 32).
Definition isdigit (c : byte) : bool := in_range 48 57 c.
Definition isalpha (c : byte) : bool := in_range 65 90 c || in_range 97 122 c.
Definition isalnum (c : byte) : bool := isalpha c || isdigit c.

(** The decimal digits in front: their value after [acc], how many, the rest. *)
Fixpoint digits (acc : Z) (n : nat) (s : bytes) : Z * nat * bytes :=
  match s with
  | c :: s' => if isdigit c then digits (10 * acc + (Z_of_byte c - 48)) (S n) s' else (acc, n, s)
  | [] => (acc, n, s)
  end.

Fixpoint skip_spaces (s : bytes) : bytes :=
  match s with
  | c :: s' => if isspace c then skip_spaces s' else s
  | [] => []
  end.

(** [std::stol (s, &pos)]: the number and what is left of [s], so that
    [pos == s.size ()] when nothing is; [None] when it throws
    [std::invalid_argument] or [std::out_of_range]. *)
Definition stol (s : bytes) : option (Z * bytes) :=
  let s := skip_spaces s in
  let '(sign, s) := match s with
    | "-"%char :: s => (-1, s)
    | "+"%char :: s => (1, s)
    | _ => (1, s)
    end in
  let '(value, n, rest) := digits 0 0 s in
  let value := sign * value in
  if (n =? 0)%nat then None
  else if (value <? - 2 ^ 63) || (2 ^ 63 <=? value) then None
  else Some (value, rest).

(** A [long] cast to [int]. *)
Definition int_of_long (z : Z) : Z := (z + 2 ^ 31) mod 2 ^ 32 - 2 ^ 31.

(** ** config.hpp *)

Record Config := MkConfig {
  service_name : string;
  script_path : string;
  plugin_name : string;
  work_dir : string;
  load_retries : Z;
  load_retry_delay_ms : Z;
  max_clients : Z;
  rx_buffer_cap : Z;
  tx_buffer_cap : Z;
  debug : bool;
  check_only : bool;
  show_help : bool;
  show_version : bool;
  errors : list string;
}.

Definition no_config : Config :=
  MkConfig "org.example.KwinApiServer" "" "" "" 30 1000 64 0 0 false false false false [].

(** ** Parsing *)

Definition get_env (env : gmap string string) (key : string) : string :=
  match env !! key with None => EmptyString | Some value => value end.

Definition in_quotes (s : string) : string := String dquote (s +:+ String dquote EmptyString).

Definition not_integer (name value : string) : string :=
  name +:+ " must be a non-negative integer, got " +:+ in_quotes value.

(** The functions that push to [cfg.errors] take and return that list. *)
Definition parse_int (value : string) (fallback : Z) (name : string) (errors : list string)
    : Z * list string :=
  if decide (value = EmptyString) then (fallback, errors) else
  match stol (chars value) with
  | Some (parsed, rest) =>
    if bool_decide (rest ≠ []) || (parsed <? 0)
    then (fallback, errors ++ [not_integer name value])
    else (int_of_long parsed, errors)
  | None => (fallback, errors ++ [not_integer name value])
  end.

Definition parse_buffer_cap (value : string) (name : string) (errors : list string)
    : Z * list string :=
  if decide (value = EmptyString) then (0, errors) else
  match stol (chars value) with
  | Some (parsed, rest) =>
    if bool_decide (rest ≠ []) || (parsed <? 0)
    then (0, errors ++ [not_integer name value])
    else if negb (parsed =? 0) && (u64 parsed <? kMinBufferCap)
    then (0, errors ++ [name +:+ " must be 0 (default) or at least " +:+ pretty kMinBufferCap
           +:+ ", got " +:+ in_quotes value])
    else (u64 parsed, errors)
  | None => (0, errors ++ [not_integer name value])
  end.

(** The loop of [is_valid_dbus_name], from a character on. *)
Fixpoint valid_name_from (expect_element_start : bool) (name : bytes) : bool :=
  match name with
  | [] => negb expect_element_start
  | c :: name =>
    if decide (c = "."%char) then
      if expect_element_start then false else valid_name_from true name
    else if expect_element_start then
      if isalpha c || bool_decide (c = "_"%char) then valid_name_from false name else false
    else if isalnum c || bool_decide (c = "_"%char) || bool_decide (c = "-"%char)
    then valid_name_from false name else false
  end.

Definition is_valid_dbus_name (name : string) : bool :=
  let name := chars name in
  if bool_decide (name = []) || (255 <? zlen name) then false
  else if bool_decide ("."%char ∉ name) then false
  else valid_name_from true name.

Definition object_path_for_name (name : string) : string :=
  text_of ("/"%char :: map (λ c, if decide (c = "."%char) then "/"%char else c) (chars name)).

(** One argument of the command line. *)
Definition parse_arg (cfg : Config) (arg : string) : Config :=
  let with_flags check help version errors :=
    MkConfig (service_name cfg) (script_path cfg) (plugin_name cfg) (work_dir cfg)
      (load_retries cfg) (load_retry_delay_ms cfg) (max_clients cfg) (rx_buffer_cap cfg)
      (tx_buffer_cap cfg) (debug cfg) check help version errors in
  if decide (arg = "-h" ∨ arg = "--help") then
    with_flags (check_only cfg) true (show_version cfg) (errors cfg)
  else if decide (arg = "-V" ∨ arg = "--version") then
    with_flags (check_only cfg) (show_help cfg) true (errors cfg)
  else if decide (arg = "--check") then
    with_flags true (show_help cfg) (show_version cfg) (errors cfg)
  else with_flags (check_only cfg) (show_help cfg) (show_version cfg)
         (errors cfg ++ ["unknown argument: " +:+ arg]).

(** [cwd] is [std::filesystem::current_path ()]. *)
Definition load_config (env : gmap string string) (args : list string) (cwd : string) : Config :=
  let cfg := foldl parse_arg no_config args in
  let service := get_env env "KWIN_API_SERVICE_NAME" in
  let service := if decide (service = EmptyString) then service_name no_config else service in
  let script := get_env env "KWIN_SCRIPT_PATH" in
  let plugin := get_env env "KWIN_PLUGIN_NAME" in
  let dir := get_env env "KWIN_WORK_DIR" in
  let dir := if decide (dir = EmptyString) then cwd else dir in
  let '(retries, errs) := parse_int (get_env env "KWIN_LOAD_RETRIES") (load_retries cfg)
    "KWIN_LOAD_RETRIES" (errors cfg) in
  let '(delay, errs) := parse_int (get_env env "KWIN_LOAD_RETRY_DELAY_MS")
    (load_retry_delay_ms cfg) "KWIN_LOAD_RETRY_DELAY_MS" errs in
  let '(clients, errs) := parse_int (get_env env "KWIN_MAX_CLIENTS") (max_clients cfg)
    "KWIN_MAX_CLIENTS" errs in
  let '(rx, errs) := parse_buffer_cap (get_env env "KWIN_RX_BUFFER_CAP")
    "KWIN_RX_BUFFER_CAP" errs in
  let '(tx, errs) := parse_buffer_cap (get_env env "KWIN_TX_BUFFER_CAP")
    "KWIN_TX_BUFFER_CAP" errs in
  let dbg := get_env env "KWIN_DEBUG" in
  let dbg := bool_decide (dbg = "1" ∨ dbg = "true" ∨ dbg = "yes")%string in
  let errs := if is_valid_dbus_name service then errs else
    errs ++ ["KWIN_API_SERVICE_NAME is not a valid D-Bus well-known name: " +:+
             in_quotes service] in
  let errs := if check_only cfg then errs else
    let errs := if decide (script = EmptyString) then
      errs ++ ["KWIN_SCRIPT_PATH is required (path of the bundled kwinscript.js)"]
      else errs in
    if decide (plugin = EmptyString) then
      errs ++ ["KWIN_PLUGIN_NAME is required (KWin plugin name)"]
    else errs in
  let errs := if clients <? 1 then errs ++ ["KWIN_MAX_CLIENTS must be >= 1"] else errs in
  MkConfig service script plugin dir retries delay clients rx tx dbg
    (check_only cfg) (show_help cfg) (show_version cfg) errs.

(** ** main.cpp: loading the script *)

(** [LoadResult] of kwin_client.hpp. *)
Record LoadResult := MkLoadResult {
  lr_id : Z;
  name_missing : bool;
  lr_error : string;
}.
Definition no_load : LoadResult := MkLoadResult (-1) false "".

(** The [for] from [attempt] on: its result and the number of the calls of
    [load_script]; the n-th is answered [load n].  An [int] that overflows is
    undefined behaviour, in [load_retries + 1] and in [++attempt].  The fuel
    counts the calls; the warnings and sleeps between them are left out. *)
Fixpoint load_loop (fuel : nat) (load : nat → LoadResult) (retries attempt : Z) (calls : nat)
    (last : LoadResult) : cpp (LoadResult * nat) :=
  if 2 ^ 31 - 1 <? retries + 1 then Undefined else
  if negb (attempt <=? retries + 1) then Returns (last, calls) else
  match fuel with
  | O => Unfinished
  | S fuel =>
    let result := load calls in
    if 0 <=? lr_id result then Returns (result, S calls)
    else if name_missing result && (attempt <=? retries) then
      if 2 ^ 31 - 1 <? attempt + 1 then Undefined
      else load_loop fuel load retries (attempt + 1) (S calls) result
    else Returns (result, S calls)
  end.

Definition load_with_retries (load : nat → LoadResult) (retries : Z) : cpp (LoadResult * nat) :=
  load_loop (Z.to_nat (retries + 1)) load retries 1 0 no_load.
