(* ===== verification/ConfigProps.v ===== *)
(** * Properties of the configuration

    The names that are accepted, the numbers that are read, what an accepted
    configuration guarantees to the server, and how often the script is loaded
    with it. *)
From S2P Require Export Config ServerProps RefJson.

(** ** D-Bus names *)

(** An element of a well-known name, as the D-Bus specification has it. *)
Definition name_start (c : byte) : Prop := isalpha c = true ∨ c = "_"%char.
Definition name_char (c : byte) : Prop := isalnum c = true ∨ c = "_"%char ∨ c = "-"%char.

Inductive name_element : bytes → Prop :=
| name_element_intro c rest : name_start c → Forall name_char rest → name_element (c :: rest).

(** The elements with a dot between them. *)
Fixpoint dotted (elements : list bytes) : bytes :=
  match elements with
  | [] => []
  | [e] => e
  | e :: elements => e ++ chars "." ++ dotted elements
  end.

Lemma name_char_spec c :
  isalnum c || bool_decide (c = "_"%char) || bool_decide (c = "-"%char) = true ↔ name_char c.
Proof. unfold name_char. rewrite !orb_true_iff, !bool_decide_eq_true. tauto. Qed.

Lemma name_start_spec c : isalpha c || bool_decide (c = "_"%char) = true ↔ name_start c.
Proof. unfold name_start. by rewrite orb_true_iff, bool_decide_eq_true. Qed.

Lemma name_char_not_dot c : name_char c → c ≠ "."%char.
Proof. intros [Hc|[->| ->]]; [by intros ->|done|done]. Qed.

Lemma name_start_char c : name_start c → name_char c.
Proof. intros [Hc|Hc]; [left|right; by left]. unfold isalnum. by rewrite Hc. Qed.

(** Inside an element: its rest, then perhaps a dot and more elements. *)
Lemma valid_name_inside s : valid_name_from false s = true ↔
  ∃ rest more, Forall name_char rest ∧
    (s = rest ∧ more = [] ∨
     s = rest ++ chars "." ++ more ∧ valid_name_from true more = true).
Proof.
  induction s as [|c s IH]; cbn [valid_name_from negb].
  - split; [|done]. intros _. exists [], []. split; [done|by left].
  - case_decide as Hc; [subst c|].
    + split; [intros Hs; exists [], s; split; [done|by right]|].
      intros (rest & more & Hr & [[Hs ->]|[Hs Hm]]).
      * subst rest. apply Forall_cons in Hr as [Hr _]. by apply name_char_not_dot in Hr.
      * destruct rest as [|c rest]; [by injection Hs as <-|]. injection Hs as <- _.
        apply Forall_cons in Hr as [Hr _]. by apply name_char_not_dot in Hr.
    + destruct (isalnum c || _ || _) eqn:Hn.
      * apply name_char_spec in Hn. rewrite IH. split.
        -- intros (rest & more & Hr & Hs). exists (c :: rest), more. split; [by constructor|].
           destruct Hs as [[-> ->]|[-> Hm]]; [by left|by right].
        -- intros (rest & more & Hr & Hs).
           destruct rest as [|c' rest]; [by destruct Hs as [[]|[[=] _]]|].
           apply Forall_cons in Hr as [_ Hr]. exists rest, more. split; [done|].
           destruct Hs as [[[= -> ->] ->]|[[= -> ->] Hm]]; [by left|by right].
      * split; [done|]. intros (rest & more & Hr & Hs). exfalso.
        destruct rest as [|c' rest]; [by destruct Hs as [[]|[[=] _]]|].
        apply Forall_cons in Hr as [Hr _]. apply name_char_spec in Hr.
        destruct Hs as [[[= -> ->] _]|[[= -> ->] _]]; congruence.
Qed.

Lemma valid_name_element s : valid_name_from true s = true ↔
  ∃ c rest, s = c :: rest ∧ name_start c ∧ valid_name_from false rest = true.
Proof.
  destruct s as [|c s]; cbn [valid_name_from negb]; [naive_solver|].
  case_decide as Hc.
  - subst c. split; [done|]. intros (c & rest & [= <- <-] & Hc & _).
    apply name_start_char in Hc. by apply name_char_not_dot in Hc.
  - destruct (isalpha c || _) eqn:Hn.
    + apply name_start_spec in Hn. naive_solver.
    + split; [done|]. intros (c' & rest & [= <- <-] & Hs & _). apply name_start_spec in Hs.
      congruence.
Qed.

(** The loop accepts the dotted sequences of elements. *)
Lemma valid_name_dotted s : valid_name_from true s = true ↔
  ∃ elements, elements ≠ [] ∧ Forall name_element elements ∧ s = dotted elements.
Proof.
  split.
  - remember (length s) as n eqn:Hn. revert s Hn.
    induction (lt_wf n) as [n _ IH]; intros s ->.
    intros (c & rest & -> & Hc & (r & more & Hr & Hs)%valid_name_inside)%valid_name_element.
    destruct Hs as [[-> ->]|[-> Hm]].
    + exists [c :: r]. split; [done|]. split; [|done]. by apply Forall_singleton, name_element_intro.
    + destruct (IH (length more)) with more as (es & Hne & Hes & ->); [|done..|].
      { cbn. rewrite !length_app. cbn. lia. }
      exists ((c :: r) :: es). split; [done|]. split; [by constructor; [constructor|]|].
      by destruct es.
  - intros (es & Hne & Hes & ->). induction Hes as [|e es He Hes IH]; [done|]. destruct He as [c r Hc Hr].
    apply valid_name_element. destruct es as [|e' es].
    + exists c, r. split; [done|]. split; [done|]. apply valid_name_inside.
      exists r, []. split; [done|by left].
    + exists c, (r ++ chars "." ++ dotted (e' :: es)). split; [done|]. split; [done|].
      apply valid_name_inside. eexists r, _. split; [done|]. right. split; [done|]. by apply IH.
Qed.

Lemma element_no_dot e : name_element e → "."%char ∉ e.
Proof.
  intros [c r Hc Hr]. rewrite not_elem_of_cons. split.
  - intros <-. apply name_start_char in Hc. by apply name_char_not_dot in Hc.
  - intros Hin. rewrite Forall_forall in Hr. by apply (name_char_not_dot _ (Hr _ Hin)).
Qed.

(** [is_valid_dbus_name] accepts exactly the well-known names of the D-Bus
    specification: at most 255 bytes, two or more elements separated by dots. *)
Theorem is_valid_dbus_name_grammar name :
  is_valid_dbus_name name = true ↔
  zlen (chars name) ≤ 255 ∧ ∃ elements, (2 ≤ length elements)%nat ∧
    Forall name_element elements ∧ chars name = dotted elements.
Proof.
  unfold is_valid_dbus_name. cbv zeta. set (s := chars name). split.
  - destruct (bool_decide (s = []) || _) eqn:Hb; [done|].
    apply orb_false_iff in Hb as [_ Hlen%Z.ltb_ge].
    case_bool_decide as Hdot; [done|]. intros (es & Hne & Hes & Hs)%valid_name_dotted.
    split; [done|]. exists es. split; [|done]. destruct es as [|e [|e' es]]; [done| |cbn; lia].
    exfalso. rewrite Hs in Hdot. apply Forall_cons in Hes as [He _].
    by apply (element_no_dot e).
  - intros (Hlen & es & Htwo & Hes & Hs).
    destruct es as [|e [|e' es]]; [cbn in *; lia..|].
    assert (s ≠ []) as Hne.
    { rewrite Hs. apply Forall_cons in Hes as [[c r _ _] _]. done. }
    assert ("."%char ∈ s) as Hdot.
    { rewrite Hs. cbn. rewrite elem_of_app. right. by left. }
    rewrite (bool_decide_false (s = [])), (bool_decide_false ("."%char ∉ s)) by tauto.
    destruct (Z.ltb_spec 255 (zlen s)); [lia|]. cbn [orb]. apply valid_name_dotted.
    by exists (e :: e' :: es).
Qed.

(** ** Object paths *)

(** The object paths of the D-Bus specification, but for the root. *)
Definition path_char (c : byte) : Prop := isalnum c = true ∨ c = "_"%char.

Definition slashed (elements : list bytes) : bytes := flat_map (λ e, chars "/" ++ e) elements.

Definition valid_object_path (path : bytes) : Prop :=
  ∃ elements, elements ≠ [] ∧ Forall (λ e, e ≠ [] ∧ Forall path_char e) elements ∧
    path = slashed elements.

Lemma valid_path_chars path : valid_object_path path → Forall (λ c, path_char c ∨ c = "/"%char) path.
Proof.
  intros (es & _ & Hes & ->). induction Hes as [|e es [_ He] _ IH]; [constructor|].
  cbn [slashed flat_map]. constructor; [by right|]. apply Forall_app. split; [|exact IH].
  eapply Forall_impl; [exact He|]. by left.
Qed.

Lemma map_dots es : es ≠ [] → Forall name_element es →
  "/"%char :: map (λ c, if decide (c = "."%char) then "/"%char else c) (dotted es) = slashed es.
Proof.
  intros Hne Hes. induction Hes as [|e es He Hes IH]; [done|]. clear Hne.
  assert (map (λ c, if decide (c = "."%char) then "/"%char else c) e = e) as Hmap.
  { apply element_no_dot in He. clear -He. induction e as [|c e IH]; [done|].
    apply not_elem_of_cons in He as [Hc He]. cbn. rewrite decide_False by done. by rewrite IH. }
  destruct es as [|e' es].
  - cbn [dotted]. rewrite Hmap. cbn. by rewrite app_nil_r.
  - change (dotted (e :: e' :: es)) with (e ++ "."%char :: dotted (e' :: es)).
    rewrite map_app, Hmap. change (slashed (e :: e' :: es)) with ("/"%char :: e ++ slashed (e' :: es)).
    by rewrite <- IH by done.
Qed.

Lemma chars_text s : chars (text_of s) = s.
Proof. apply String.list_ascii_of_string_of_list_ascii. Qed.

(** The object path that is made from an accepted name is legal exactly when
    the name has no hyphen, which bus names may have and object paths may not. *)
Theorem object_path_legal name : is_valid_dbus_name name = true →
  (valid_object_path (chars (object_path_for_name name)) ↔ "-"%char ∉ chars name).
Proof.
  intros (_ & es & Htwo & Hes & Hs)%is_valid_dbus_name_grammar.
  assert (es ≠ []) as Hne by (destruct es; cbn in *; [lia|done]).
  unfold object_path_for_name. rewrite chars_text. split.
  - intros Hp%valid_path_chars Hdash. rewrite Forall_forall in Hp.
    destruct (Hp "-"%char) as [[|]|]; [|done..]. right. apply list_elem_of_fmap.
    by exists "-"%char.
  - intros Hdash. exists es. split; [done|]. rewrite Hs. split; [|by apply map_dots].
    rewrite Hs in Hdash. clear Hs Htwo Hne. induction Hes as [|e es He Hes IH]; [constructor|].
    assert (("-"%char ∉ e) ∧ ("-"%char ∉ dotted es)) as [Hd1 Hd2].
    { destruct es; [split; [done|apply not_elem_of_nil]|].
      cbn in Hdash. rewrite elem_of_app, elem_of_cons in Hdash. tauto. }
    constructor; [|by apply IH]. destruct He as [c r Hc Hr]. split; [done|].
    apply Forall_forall. intros x Hx. assert (name_char x) as [Hn|[Hn|Hn]].
    { apply elem_of_cons in Hx as [->|Hx]; [by apply name_start_char|]. rewrite Forall_forall in Hr. auto. }
    + by left.
    + by right.
    + by subst x.
Qed.

(** ** Numbers *)

Lemma isdigit_pretty n : (n < 10)%N →
  isdigit (pretty_N_char n) = true ∧ Z_of_byte (pretty_N_char n) - 48 = Z.of_N n.
Proof.
  intros Hn. rewrite <- Z.eqb_eq, <- andb_true_iff.
  by apply (below_ten (λ n, isdigit (pretty_N_char n) &&
    (Z_of_byte (pretty_N_char n) - 48 =? Z.of_N n))).
Qed.

Lemma digits_go x s : ∃ (k : Z) (j : nat), ((0 < x)%N → (0 < j)%nat) ∧ ∀ acc m,
  digits acc m (chars (pretty_N_go x s)) = digits (acc * k + Z.of_N x) (j + m) (chars s).
Proof.
  apply (pretty_go_ind (λ x s y, ∃ (k : Z) (j : nat), ((0 < x)%N → (0 < j)%nat) ∧ ∀ acc m,
    digits acc m (chars y) = digits (acc * k + Z.of_N x) (j + m) (chars s))); clear x s.
  { intros s. exists 1, 0%nat. split; [lia|]. intros acc m. f_equal. lia. }
  intros x s y Hx (k & j & _ & Hk). exists (10 * k), (S j). split; [lia|]. intros acc m. rewrite Hk.
  change (chars (String ?c s)) with (c :: chars s). cbn [digits].
  destruct (isdigit_pretty (x mod 10)) as [-> Hc]; [apply N.mod_lt; lia|].
  f_equal. pose proof (N.div_mod x 10 ltac:(lia)) as Hdiv.
  rewrite (f_equal Z.of_N Hdiv), N2Z.inj_add, N2Z.inj_mul. lia.
Qed.

Lemma digit_not_space c : isdigit c = true → isspace c = false ∧ c ≠ "-"%char ∧ c ≠ "+"%char.
Proof.
  intros Hc. split; [|by split; intros ->]. unfold isdigit, isspace, in_range in *. lia.
Qed.

(** What [pretty] prints, [std::stol] reads. *)
Lemma stol_pretty n : 0 ≤ n < 2 ^ 63 → stol (chars (pretty n)) = Some (n, []).
Proof.
  intros Hn. destruct n as [|p|p]; [done| |lia].
  change (pretty (Z.pos p)) with (pretty_N_go (N.pos p) "").
  assert (∃ c s, chars (pretty_N_go (N.pos p) "") = c :: s ∧ isdigit c = true) as (c & s & Hs & Hc).
  { apply (pretty_go_ind (λ x s y, (0 < x)%N ∨ (∃ c r, chars s = c :: r ∧ isdigit c = true) →
      ∃ c r, chars y = c :: r ∧ isdigit c = true)); [by intros s [|]| |by left].
    intros x s y Hx IH _. apply IH. right. eexists _, _. split; [done|].
    by apply isdigit_pretty, N.mod_lt. }
  destruct (digits_go (N.pos p) "") as (k & j & Hj & Hd). specialize (Hd 0 0%nat).
  rewrite Hs in *. destruct (digit_not_space c Hc) as (Hsp & H1 & H2).
  unfold stol. cbn [skip_spaces]. rewrite Hsp.
  assert ((match c :: s with
    | "-"%char :: s => (-1, s)
    | "+"%char :: s => (1, s)
    | _ => (1, c :: s)
    end) = (1, c :: s)) as -> by (clear -H1 H2; repeat case_match; congruence).
  rewrite Hd. cbn [chars digits String.list_ascii_of_string].
  destruct (Nat.eqb_spec (j + 0) 0) as [|_]; [lia|].
  replace (1 * (0 * k + Z.of_N (N.pos p))) with (Z.pos p) by lia.
  destruct (Z.ltb_spec (Z.pos p) (- 2 ^ 63)); [lia|].
  by destruct (Z.leb_spec (2 ^ 63) (Z.pos p)); [lia|].
Qed.

Lemma pretty_not_empty (n : Z) : 0 ≤ n < 2 ^ 63 → pretty n ≠ EmptyString.
Proof. intros Hn He. apply stol_pretty in Hn. by rewrite He in Hn. Qed.

(** A number that fits a [long] is read without an error, and kept modulo
    2^32; one that fits an [int] is read as it is. *)
Lemma parse_int_pretty n fallback name errs : 0 ≤ n < 2 ^ 63 →
  parse_int (pretty n) fallback name errs = (int_of_long n, errs).
Proof.
  intros Hn. unfold parse_int. rewrite decide_False by by apply pretty_not_empty.
  rewrite stol_pretty by done. by destruct (Z.ltb_spec n 0); [lia|].
Qed.

Lemma int_of_long_bounds z : - 2 ^ 31 ≤ int_of_long z < 2 ^ 31.
Proof. unfold int_of_long. pose proof (Z.mod_pos_bound (z + 2 ^ 31) (2 ^ 32)). lia. Qed.

Lemma int_of_long_mod z : (2 ^ 32 | z - int_of_long z).
Proof.
  exists ((z + 2 ^ 31) / 2 ^ 32). unfold int_of_long.
  pose proof (Z.div_mod (z + 2 ^ 31) (2 ^ 32)). lia.
Qed.

Lemma int_of_long_id z : - 2 ^ 31 ≤ z < 2 ^ 31 → int_of_long z = z.
Proof. intros Hz. unfold int_of_long. rewrite Z.mod_small; lia. Qed.

Lemma stol_bounds s z rest : stol s = Some (z, rest) → - 2 ^ 63 ≤ z < 2 ^ 63.
Proof.
  unfold stol.
  match goal with |- context [let '(_, _) := ?m in _] => destruct m as [sign s'] end.
  destruct (digits 0 0 s') as [[value n] r]. destruct (n =? 0)%nat; [done|].
  destruct (Z.ltb_spec (sign * value) (- 2 ^ 63)); [done|].
  destruct (Z.leb_spec (2 ^ 63) (sign * value)); [done|]. intros [= <- _]. lia.
Qed.

(** Parsing adds errors, and none when the result can be used. *)
Lemma parse_int_spec value fallback name errs z errs' :
  parse_int value fallback name errs = (z, errs') → - 2 ^ 31 ≤ fallback < 2 ^ 31 →
  - 2 ^ 31 ≤ z < 2 ^ 31 ∧ (errs' = [] → errs = []).
Proof.
  unfold parse_int. intros Hp Hf. pose proof int_of_long_bounds as Hb.
  repeat (case_match; simplify_eq/=); split; try done; try apply Hb; by intros [_ [=]]%app_eq_nil.
Qed.

Lemma no_error (a z : Z) (errs : list string) e : (a, errs ++ [e]) = (z, []) → False.
Proof. by intros [= _ [_ [=]]%app_eq_nil]. Qed.

Lemma parse_buffer_cap_spec value name errs z errs' :
  parse_buffer_cap value name errs = (z, errs') → errs' = [] →
  errs = [] ∧ (z = 0 ∨ kMinBufferCap ≤ z < 2 ^ 63).
Proof.
  unfold parse_buffer_cap. intros Hp ->.
  case_decide; [injection Hp as <- <-; auto|].
  destruct (stol (chars value)) as [[parsed rest]|] eqn:Hs;
    [|by apply no_error in Hp].
  apply stol_bounds in Hs.
  destruct (bool_decide _ || (parsed <? 0)) eqn:Hn;
    [by apply no_error in Hp|].
  apply orb_false_iff in Hn as [_ Hpos%Z.ltb_ge].
  assert (u64 parsed = parsed) as Hu by (unfold u64; apply Z.mod_small; lia).
  rewrite Hu in Hp. destruct (negb _ && _) eqn:Hsmall;
    [by apply no_error in Hp|].
  injection Hp as <- <-. split; [done|]. unfold kMinBufferCap in *. lia.
Qed.

(** ** Accepted configurations *)

Lemma added_error (errs : list string) e : errs ++ [e] ≠ [].
Proof. by intros [_ [=]]%app_eq_nil. Qed.

(** What is true of a configuration that main.cpp does not refuse. *)
Record config_accepted (cfg : Config) : Prop := {
  ca_name : is_valid_dbus_name (service_name cfg) = true;
  ca_clients : 1 ≤ max_clients cfg < 2 ^ 31;
  ca_retries : - 2 ^ 31 ≤ load_retries cfg < 2 ^ 31;
  ca_rx : rx_buffer_cap cfg = 0 ∨ kMinBufferCap ≤ rx_buffer_cap cfg < 2 ^ 63;
  ca_tx : tx_buffer_cap cfg = 0 ∨ kMinBufferCap ≤ tx_buffer_cap cfg < 2 ^ 63;
  ca_script : check_only cfg = false → script_path cfg ≠ EmptyString ∧ plugin_name cfg ≠ EmptyString;
}.

Lemma parse_args_ints args :
  let cfg := foldl parse_arg no_config args in
  load_retries cfg = 30 ∧ load_retry_delay_ms cfg = 1000 ∧ max_clients cfg = 64.
Proof.
  apply (foldl_ind (λ cfg, load_retries cfg = 30 ∧ load_retry_delay_ms cfg = 1000 ∧
    max_clients cfg = 64)); [done|].
  intros cfg arg _ Hc. unfold parse_arg. by repeat case_decide.
Qed.

Lemma load_config_accepted env args cwd :
  errors (load_config env args cwd) = [] → config_accepted (load_config env args cwd).
Proof.
  unfold load_config. cbv zeta. destruct (parse_args_ints args) as (Hr & Hd & Hm).
  set (cfg := foldl parse_arg no_config args) in *. rewrite Hr, Hd, Hm.
  set (service := if decide _ then service_name no_config else _).
  destruct (parse_int (get_env env "KWIN_LOAD_RETRIES") _ _ _) as [retries e1] eqn:H1.
  destruct (parse_int (get_env env "KWIN_LOAD_RETRY_DELAY_MS") _ _ _) as [delay e2] eqn:H2.
  destruct (parse_int (get_env env "KWIN_MAX_CLIENTS") _ _ _) as [clients e3] eqn:H3.
  destruct (parse_buffer_cap (get_env env "KWIN_RX_BUFFER_CAP") _ _) as [rx e4] eqn:H4.
  destruct (parse_buffer_cap (get_env env "KWIN_TX_BUFFER_CAP") _ _) as [tx e5] eqn:H5.
  cbn [errors]. intros He.
  destruct (Z.ltb_spec clients 1); [by apply added_error in He|].
  apply parse_int_spec in H1 as [H1 _]; [|lia].
  apply parse_int_spec in H3 as [H3 _]; [|lia].
  assert (is_valid_dbus_name service = true ∧ e5 = [] ∧ (check_only cfg = false →
    get_env env "KWIN_SCRIPT_PATH" ≠ EmptyString ∧ get_env env "KWIN_PLUGIN_NAME" ≠ EmptyString))
    as (Hname & Hnil & Hscript).
  { destruct (is_valid_dbus_name service); [split; [done|]|];
      destruct (check_only cfg); repeat case_decide; try done;
      repeat first [by apply added_error in He | apply app_eq_nil in He as [He _]]. }
  apply parse_buffer_cap_spec in H5 as [-> H5]; [|done].
  apply parse_buffer_cap_spec in H4 as [_ H4]; [|done].
  constructor; cbn; done || lia.
Qed.

Lemma capacity_ok cap : cap = 0 ∨ kMinBufferCap ≤ cap < 2 ^ 63 → cap ≤ max_capacity →
  buffer_cap_ok cap.
Proof. unfold buffer_cap_ok. lia. Qed.

(** ** The server keeps its configuration *)

Section server.
Context `{MachineLaws}.

Definition same_config (sv sv' : server) : Prop :=
  sv_max_clients sv' = sv_max_clients sv ∧ sv_rx_cap sv' = sv_rx_cap sv.

(** [m] returns a server with the configuration of [sv]. *)
Definition keeps_config (sv : server) (m : cpp server) : Prop :=
  ∀ sv', m = Returns sv' → same_config sv sv'.

Lemma keeps_ret sv sv' : same_config sv sv' → keeps_config sv (mret sv').
Proof. by intros Hs sv'' [= <-]. Qed.

Lemma keeps_bind {A} sv (m : cpp A) (k : A → cpp server) :
  (∀ a, m = Returns a → keeps_config sv (k a)) → keeps_config sv (m ≫= k).
Proof. intros Hk sv'. destruct m as [a| | |]; try done. by apply Hk. Qed.

Lemma keeps_from sv sv1 m : same_config sv sv1 → keeps_config sv1 m → keeps_config sv m.
Proof. intros [H1 H2] Hm sv' [H3 H4]%Hm. split; congruence. Qed.

Lemma queue_control_config e sv : keeps_config sv (queue_control e sv).
Proof.
  unfold queue_control. destruct (sv_daemon sv); [|by apply keeps_ret].
  apply keeps_bind. intros. by apply keeps_ret.
Qed.

Lemma accept_client_config fd add_object add_io sv :
  keeps_config sv (accept_client fd add_object add_io sv).
Proof.
  unfold accept_client. case_match; [by apply keeps_ret|]. cbv zeta. apply keeps_bind. intros s _.
  case_match; [by apply keeps_ret|]. eapply keeps_from; [|apply queue_control_config]. done.
Qed.

Lemma accept_clients_config accepts sv : keeps_config sv (accept_clients accepts sv).
Proof.
  revert sv. induction accepts as [|[fd add_object add_io|errno] accepts IH]; intros sv;
    cbn [accept_clients]; [by apply keeps_ret| |].
  - apply keeps_bind. intros sv1 Hs%accept_client_config. by eapply keeps_from.
  - repeat case_match; by apply keeps_ret || apply IH.
Qed.

Lemma on_client_disconnected_config id sv : keeps_config sv (on_client_disconnected id sv).
Proof.
  unfold on_client_disconnected. case_match; [|by apply keeps_ret].
  apply keeps_bind. intros sv1 Hs%queue_control_config. by apply keeps_ret.
Qed.

Lemma server_step_config e sv : keeps_config sv (server_step sv e).
Proof.
  destruct e as [accepts|id e|message arg ev|message arg|]; cbn [server_step].
  1: apply accept_clients_config.
  1: { unfold client_event. case_match; [|by apply keeps_ret]. apply keeps_bind. intros c' _.
    cbv zeta. case_match; [by apply keeps_ret|].
    eapply keeps_from; [|apply on_client_disconnected_config]. done. }
  all: unfold on_daemon; case_match; [|by apply keeps_ret]; apply keeps_bind; intros;
    by apply keeps_ret.
Qed.

Lemma server_run_config es sv : keeps_config sv (server_run sv es).
Proof.
  revert sv. induction es as [|e es IH]; intros sv; [by apply keeps_ret|].
  apply keeps_bind. intros sv1 Hs%server_step_config. by eapply keeps_from.
Qed.

Lemma server_started clients rx tx sv : server_start clients rx tx = Returns sv → 0 < clients →
  sv_max_clients sv = clients ∧ sv_rx_cap sv = rx.
Proof.
  unfold server_start. destruct (rx_new _); [|done..]. intros [= <-] Hpos. cbn.
  by destruct (Z.ltb_spec 0 clients); [|lia].
Qed.

Lemma conn_holds_id cap id h c : conn_holds cap id h c → ss_id (conn_session c) = id.
Proof. by intros (? & ? & ? & ? & ? & [_ [[[_ _ _ _ _ _ _ Hsid] _ _] _] _ _ _ _]). Qed.

Context (env : gmap string string) (args : list string) (cwd : string) (es : list server_event).
Let cfg := load_config env args cwd.
Hypothesis Haccepted : errors cfg = [].
Hypothesis Hmemory : rx_buffer_cap cfg ≤ max_capacity ∧ tx_buffer_cap cfg ≤ max_capacity.
Hypothesis Hfds : Forall fd_ok (es ≫= accepts_of).
Hypothesis Haccepts : zlen (es ≫= accepts_of) + 2 < 2 ^ 64.

(** C16: The daemon is safe and bounded with every configuration it accepts.
    When [load_config] reports no error, and the buffers it asks for are at
    most 8 GB, every sequence of accepted connections, events of connections,
    requests and timeouts returns: no buffer of any client is left, nothing is
    thrown, every loop ends.  There are never more sessions than
    KWIN_MAX_CLIENTS, each has its own id below the next id, is open, and keeps
    the invariant of a connection with the configured buffer. *)
Theorem configured_server_is_safe :
  ∃ sv0 sv, server_start (max_clients cfg) (rx_buffer_cap cfg) (tx_buffer_cap cfg) = Returns sv0 ∧
    server_run sv0 es = Returns sv ∧
    Z.of_nat (size (sv_sessions sv)) ≤ max_clients cfg ∧
    ∀ id c, sv_sessions sv !! id = Some c →
      1 ≤ id < sv_next_id sv ∧ conn_open c = true ∧ ss_id (conn_session c) = id ∧
      ∃ h, conn_holds (effective_cap (rx_buffer_cap cfg)) id h c.
Proof.
  destruct (load_config_accepted env args cwd Haccepted) as [_ Hc _ Hrx Htx _]. fold cfg in Hc, Hrx, Htx.
  assert (max_clients cfg < 2 ^ 31) as Hmax by lia.
  destruct (server_reached (max_clients cfg) (rx_buffer_cap cfg) (tx_buffer_cap cfg) es)
    as (sv0 & sv & hist & Hstart & Hrun & [_ _ _ [Hi Ho Hcn] [Hsize _] _ _]);
    [done|by apply capacity_ok, Hmemory..|done|done|].
  destruct (server_started _ _ _ _ Hstart) as [Hm Hr]; [lia|].
  destruct (server_run_config es sv0 sv Hrun) as [Hm' Hr'].
  rewrite Hm', Hm in Hsize. rewrite Hr', Hr in Hcn.
  exists sv0, sv. split; [done|]. split; [done|]. split; [done|]. intros id c Hid.
  destruct (Hcn id c Hid) as [h Hh]. split; [by eapply Hi|]. split; [by eapply Ho|].
  split; [by apply (conn_holds_id _ _ _ _ Hh)|by exists h].
Qed.
End server.

(** ** Loading the script *)

(** From [attempt] on: at most one call for each attempt that is left. *)
Lemma load_loop_spec load retries : 0 ≤ retries < 2 ^ 31 - 1 → ∀ fuel attempt calls last,
  1 ≤ attempt ≤ retries + 1 → retries + 1 - attempt < Z.of_nat fuel →
  ∃ n, load_loop fuel load retries attempt calls last = Returns (load n, S n) ∧
    (calls ≤ n)%nat ∧ Z.of_nat n ≤ Z.of_nat calls + (retries + 1 - attempt) ∧
    (∀ i, (calls ≤ i < n)%nat → lr_id (load i) < 0 ∧ name_missing (load i) = true) ∧
    (0 ≤ lr_id (load n) ∨ name_missing (load n) = false ∨
     Z.of_nat n = Z.of_nat calls + (retries + 1 - attempt)).
Proof.
  intros Hr fuel. induction fuel as [|fuel IH]; intros attempt calls last Ha Hfuel; [lia|].
  cbn [load_loop]. destruct (Z.ltb_spec (2 ^ 31 - 1) (retries + 1)); [lia|].
  destruct (Z.leb_spec attempt (retries + 1)); [|lia]. cbn [negb].
  destruct (Z.leb_spec 0 (lr_id (load calls))) as [Hid|Hid].
  { exists calls. split_and!; try done; try lia; auto. }
  destruct (name_missing (load calls)) eqn:Hm; cbn [andb].
  2: { exists calls. split_and!; try done; try lia; auto. }
  destruct (Z.leb_spec attempt retries).
  2: { exists calls. split_and!; try done; try lia; auto. }
  destruct (Z.ltb_spec (2 ^ 31 - 1) (attempt + 1)); [lia|].
  destruct (IH (attempt + 1) (S calls) (load calls)) as (n & Hn & Hle & Hbound & Hall & Hlast);
    [lia..|].
  exists n. split; [done|]. split; [lia|]. split; [lia|]. split.
  - intros i Hi. destruct (decide (i = calls)) as [->|]; [done|]. apply Hall. lia.
  - destruct Hlast as [?|[?|?]]; [by left|by right; left|right; right; lia].
Qed.

Lemma get_env_delete env k k' : k ≠ k' → get_env (delete k env) k' = get_env env k'.
Proof. intros Hk. unfold get_env. by rewrite lookup_delete_ne. Qed.

Lemma load_config_retries env args cwd n :
  env !! "KWIN_LOAD_RETRIES" = Some (pretty n) → 0 ≤ n < 2 ^ 63 →
  load_retries (load_config env args cwd) = int_of_long n ∧
  errors (load_config env args cwd) =
  errors (load_config (delete "KWIN_LOAD_RETRIES" env) args cwd).
Proof.
  intros Henv Hn. unfold load_config. cbv zeta.
  assert (get_env env "KWIN_LOAD_RETRIES" = pretty n) as -> by (unfold get_env; by rewrite Henv).
  assert (get_env (delete "KWIN_LOAD_RETRIES" env) "KWIN_LOAD_RETRIES" = EmptyString) as ->
    by (unfold get_env; by rewrite lookup_delete_eq).
  rewrite !get_env_delete, parse_int_pretty by done. change (parse_int EmptyString ?f ?x ?e) with (f, e).
  cbv iota beta. destruct (parse_int (get_env env "KWIN_LOAD_RETRY_DELAY_MS") _ _ _) as [delay e2].
  destruct (parse_int (get_env env "KWIN_MAX_CLIENTS") _ _ _) as [clients e3].
  destruct (parse_buffer_cap (get_env env "KWIN_RX_BUFFER_CAP") _ _) as [rx e4].
  destruct (parse_buffer_cap (get_env env "KWIN_TX_BUFFER_CAP") _ _) as [tx e5].
  split; reflexivity.
Qed.

(** C34: How often the script is loaded.  Setting KWIN_LOAD_RETRIES to a number
    that fits 64 bits is never an error, and what is used is that number cast to
    an int, its only int modulo 2^32: a number below 2^31 is itself, a number of
    2^31 and more comes out as another, 2^32 - 1 as -1.  If it comes out negative, the daemon gives up without a single call of
    loadScript; if it is 2^31 - 1, the loop overflows an int, which is undefined
    behaviour.  In the other cases loadScript is called at least once and
    at most once more than that number, again only while KWin was missing, and
    the result is that of the last call, which found KWin or was the last
    allowed. *)
Theorem load_retries_behaviour env args cwd n load :
  env !! "KWIN_LOAD_RETRIES" = Some (pretty n) → 0 ≤ n < 2 ^ 63 →
  let cfg := load_config env args cwd in
  let retries := load_retries cfg in
  let calls := load_with_retries load retries in
  errors cfg = errors (load_config (delete "KWIN_LOAD_RETRIES" env) args cwd) ∧
  (- 2 ^ 31 ≤ retries < 2 ^ 31 ∧ (2 ^ 32 | n - retries)) ∧
  (n < 2 ^ 31 → retries = n) ∧ (2 ^ 31 ≤ n → retries ≠ n) ∧ (n = 2 ^ 32 - 1 → retries = -1) ∧
  (retries < 0 → calls = Returns (no_load, 0%nat)) ∧
  (retries = 2 ^ 31 - 1 → calls = Undefined) ∧
  (0 ≤ retries < 2 ^ 31 - 1 → ∃ k, calls = Returns (load k, S k) ∧ Z.of_nat k ≤ retries ∧
     (∀ i, (i < k)%nat → lr_id (load i) < 0 ∧ name_missing (load i) = true) ∧
     (0 ≤ lr_id (load k) ∨ name_missing (load k) = false ∨ Z.of_nat k = retries)).
Proof.
  intros Henv Hn. cbv zeta.
  destruct (load_config_retries env args cwd n Henv Hn) as [-> Herr].
  pose proof (int_of_long_bounds n) as Hb.
  split; [done|]. split; [split; [exact Hb|apply int_of_long_mod]|].
  split; [intros; apply int_of_long_id; lia|]. split; [lia|]. split; [by intros ->|]. unfold load_with_retries.
  split; [|split].
  - intros Hneg.
    replace (Z.to_nat (int_of_long n + 1)) with 0%nat by lia. cbn [load_loop].
    destruct (Z.ltb_spec (2 ^ 31 - 1) (int_of_long n + 1)); [lia|].
    by destruct (Z.leb_spec 1 (int_of_long n + 1)); [lia|].
  - intros ->. done.
  - intros Hr. destruct (load_loop_spec load (int_of_long n) Hr (Z.to_nat (int_of_long n + 1)) 1 0 no_load)
      as (k & Hk & _ & Hle & Hall & Hlast); [lia..|].
    exists k. split; [done|]. split; [lia|]. split; [intros i Hi; apply Hall; lia|].
    destruct Hlast as [?|[?|?]]; [by left|by right; left|right; right; lia].
Qed.

(** ** Witnesses *)

Definition ref_env : gmap string string := list_to_map [
  ("KWIN_SCRIPT_PATH", "/usr/share/kwinscript.js"); ("KWIN_PLUGIN_NAME", "kwin-api");
  ("KWIN_MAX_CLIENTS", "1"); ("KWIN_RX_BUFFER_CAP", "64"); ("KWIN_TX_BUFFER_CAP", " +64")]%string.

Definition ref_config : Config := load_config ref_env [] "/run".

Lemma configured_server_is_safe_witness :
  ∃ sv0 sv, server_start (max_clients ref_config) (rx_buffer_cap ref_config)
      (tx_buffer_cap ref_config) = Returns sv0 ∧
    server_run sv0 ref_server_events = Returns sv ∧
    Z.of_nat (size (sv_sessions sv)) ≤ max_clients ref_config ∧
    ∀ id c, sv_sessions sv !! id = Some c →
      1 ≤ id < sv_next_id sv ∧ conn_open c = true ∧ ss_id (conn_session c) = id ∧
      ∃ h, conn_holds (effective_cap (rx_buffer_cap ref_config)) id h c.
Proof.
  apply (configured_server_is_safe ref_env [] "/run" ref_server_events).
  - vm_compute. reflexivity.
  - vm_compute. by split; intros [=].
  - apply ref_server_hyps.
  - apply ref_server_hyps.
Defined.

Definition ref_retries_env : gmap string string :=
  <["KWIN_LOAD_RETRIES" := pretty (2 ^ 32 - 1)]> ref_env.

Lemma load_retries_behaviour_witness :
  errors (load_config ref_retries_env [] "/run") = [] ∧
  load_retries (load_config ref_retries_env [] "/run") = -1 ∧
  load_with_retries (λ _, no_load) (load_retries (load_config ref_retries_env [] "/run"))
    = Returns (no_load, 0%nat).
Proof.
  destruct (load_retries_behaviour ref_retries_env [] "/run" (2 ^ 32 - 1) (λ _, no_load))
    as (He & _ & _ & _ & Hm & Hneg & _); [apply lookup_insert_eq|lia|].
  pose proof (Hm eq_refl) as Hr.
  split; [rewrite He; vm_compute; reflexivity|]. split; [exact Hr|]. apply Hneg. rewrite Hr. lia.
Defined.

Lemma object_path_legal_witness : is_valid_dbus_name "org.my-app.Daemon" = true ∧
  ¬ valid_object_path (chars (object_path_for_name "org.my-app.Daemon")).
Proof.
  split; [reflexivity|]. intros Hp. revert Hp. rewrite (object_path_legal "org.my-app.Daemon") by reflexivity.
  intros Hd. apply Hd. by apply (bool_decide_unpack _).
Defined.
