(* ===== verification/Dispatch.v ===== *)
(** * What the message loop of a client does with its polls

    [polled] is what a move of the script takes from a poll of [c], [handed]
    what it gives to the JSON-RPC server, and [waiting] the rest of the batch in
    between.  [messages_handed_in_order] says that nothing is lost, doubled or
    reordered on the way, whatever runs at the [await]s. *)
From S2P Require Export Registry.

Section Dispatch.
Context {E : Env} {J : JsonRpcApi E}.
Implicit Types (s : state) (c : conn).

(** The batch that a poll of a client that is alive brings. *)
Definition polled (c : conn) (m : move) (s : state) : list value :=
  match m with
  | MvClientPolled c' r =>
    if decide (c' = c) then
      if is_alive c s then match poll_outcome r with Ret (Arr batch) => batch | _ => [] end
      else []
    else []
  | _ => []
  end.

(** The message that a move hands to [dispatchMessage]. *)
Definition handed (c : conn) (m : move) (s : state) : list value :=
  match m with
  | MvClientPolled c' _ =>
    if decide (c' = c) then match polled c m s with message :: _ => [message] | [] => [] end
    else []
  | MvClientResponds c' =>
    if decide (c' = c) then
      match loops (clients s) !! c with
      | Some (LRespond OutOfFuel _) => []
      | Some (LRespond _ (message :: _)) => [message]
      | _ => []
      end
    else []
  | _ => []
  end.

(** What the loop of [c] holds: the outcome that it awaits, and the rest of the
    batch. *)
Definition held (c : conn) (s : state) : option (outcome (option value) * list value) :=
  match loops (clients s) !! c with Some (LRespond r batch) => Some (r, batch) | _ => None end.

Definition waiting (c : conn) (s : state) : list value :=
  match held c s with Some (_, batch) => batch | None => [] end.

(** Along a run. *)
Fixpoint along {A} (f : move → state → list A) (gas : nat) (ms : list move) (s : state) : list A :=
  match ms with
  | [] => []
  | m :: ms =>
    match perform gas m s with
    | Some s' => f m s ++ along f gas ms s'
    | None => []
    end
  end.

Context `{!QTimerLaws E, !SignalLaws E, !JsonRpcLaws E J} (gas : nat).

Lemma held_same c s s' : same_clients s s' → held c s' = held c s.
Proof. unfold held. by intros ->. Qed.

Lemma held_set_loop c c' l s : held c (set_loop c' l s) =
  if decide (c' = c) then match l with LRespond r batch => Some (r, batch) | _ => None end
  else held c s.
Proof. unfold held. cbn. rewrite lookup_insert. by case_decide. Qed.

Lemma held_poll c s : loops (clients s) !! c = Some LPoll → held c s = None.
Proof. unfold held. by intros ->. Qed.

Lemma held_run_batch_other c c' batch s : c' ≠ c → held c (run_batch gas c' batch s) = held c s.
Proof.
  intros Hc. destruct batch as [|message batch].
  - unfold run_batch, run_sleep. by rewrite held_set_loop, decide_False.
  - unfold run_batch. pose proof (receive_clients gas message c' s) as Hr.
    destruct (receive _ _ _ _) as [r s1]. rewrite held_set_loop, decide_False by done.
    by apply held_same.
Qed.

(** The loop starts on a batch: it hands over the first message. *)
Lemma held_run_batch c batch s : held c (run_batch gas c batch s) =
  match batch with
  | [] => None
  | message :: batch => Some (fst (receive (methods gas) message c s), batch)
  end.
Proof.
  destruct batch as [|message batch].
  - unfold run_batch, run_sleep. by rewrite held_set_loop, decide_True.
  - unfold run_batch. destruct (receive _ _ _ _) as [r s1].
    by rewrite held_set_loop, decide_True.
Qed.

Lemma held_run_head c c' s :
  (c' = c → held c s = None) → held c (run_head c' s) = held c s.
Proof.
  intros Hc. unfold run_head. case_match; rewrite held_set_loop; case_decide; auto; by rewrite Hc.
Qed.

(** ** The control loop *)

Lemma held_connected id c s : inv s → held c (onClientConnected id s) = held c s.
Proof.
  intros Hi. unfold onClientConnected. case_match; [done|]. cbv zeta.
  rewrite held_run_head; [done|]. intros <-. unfold held. cbn.
  destruct (loops (clients s) !! _) as [l|] eqn:Hl; [|done].
  assert (known (Conn (fresh (host s)) id) s) as Hk by by eapply running_known.
  unfold known in Hk. cbn in Hk. lia.
Qed.

Lemma held_disconnected id c s : held c (onClientDisconnected id s) = held c s.
Proof.
  unfold onClientDisconnected. case_match; [|done]. cbv zeta. unfold held.
  set (s1 := upd_clients _ _).
  change (clients (client_log ?l ?i ?m ?s)) with (clients s).
  rewrite (wsf_clients _ _ (ws_drop_frame id (dropClientTokens id s1))).
  rewrite (qu_clients _ _ (dropClientTokens_quiet id s1)).
  by destruct (dropped_frame id s1) as (_ & _ & -> & _).
Qed.

Lemma held_events events c s : inv s →
  held c (foldl (λ s event, process_event event s) s events) = held c s.
Proof.
  revert s. induction events as [|event events IH]; intros s Hi; [done|]. cbn [foldl].
  rewrite IH by by apply process_event_good. unfold process_event. case_match; [done|].
  repeat (case_match; try done); auto using held_connected, held_disconnected.
Qed.

Lemma held_control r c s : inv s → held c (control_polled r s) = held c s.
Proof.
  intros Hi. unfold control_polled. destruct (poll_outcome r) as [v|e|]; [destruct v|..]; try done.
  exact (held_events _ c s Hi).
Qed.

(** ** Every move *)

(** The two moves at which the loop of [c] takes up or puts down a message. *)
Definition resumes (c : conn) (m : move) : bool :=
  match m with
  | MvClientPolled c' _ | MvClientResponds c' => bool_decide (c' = c)
  | _ => false
  end.

Lemma held_polled_other c c' r s : c' ≠ c → held c (run_polled gas c' r s) = held c s.
Proof.
  intros Hc. unfold run_polled, run_sleep. destruct (poll_outcome r) as [v|e|]; [..|done].
  - destruct (negb _); [by rewrite held_set_loop, decide_False|].
    destruct v; try (by rewrite held_set_loop, decide_False). by rewrite held_run_batch_other.
  - destruct (negb _); by rewrite held_set_loop, decide_False.
Qed.

Lemma held_responded_other c c' r batch s : c' ≠ c →
  held c (run_responded gas c' r batch s) = held c s.
Proof.
  intros Hc. destruct r as [v|e|]; cbn [run_responded]; [..|done];
    rewrite held_run_batch_other by done; apply held_same; [apply respond_clients|done].
Qed.

Lemma perform_held c m s s' : inv s → perform gas m s = Some s' → resumes c m = false →
  held c s' = held c s.
Proof.
  intros Hi Hm Hr. destruct m as [W|W em|e|r| |c' r|c'|c'|r|id r]; cbn [perform resumes] in Hm, Hr;
    try apply bool_decide_eq_false in Hr; repeat case_match; simplify_eq; try done.
  - apply held_same, deliver_clients.
  - apply held_same, deadline_fires_clients.
  - by apply held_control.
  - by apply held_polled_other.
  - by apply held_responded_other.
  - apply held_run_head. intros <-. unfold held. match goal with H : _ !! _ = _ |- _ => by rewrite H end.
  - by destruct r.
  - by destruct r as [[| | | |[]| |]|].
Qed.

(** What the loop of [c] does with the reply to its poll. *)
Lemma held_polled c r s : loops (clients s) !! c = Some LPoll →
  held c (run_polled gas c r s) =
  match polled c (MvClientPolled c r) s with
  | [] => None
  | message :: batch => Some (fst (receive (methods gas) message c s), batch)
  end.
Proof.
  intros Hl. cbn [polled]. rewrite decide_True by done. unfold run_polled, run_sleep.
  destruct (is_alive c s); cbn [negb]; destruct (poll_outcome r) as [v|e|]; try destruct v;
    first [apply held_run_batch|by apply held_poll|rewrite held_set_loop; by rewrite decide_True].
Qed.

(** And once the outcome is there. *)
Lemma held_responded c r batch s : r ≠ OutOfFuel → inv s →
  ∃ s1, inv s1 ∧ held c (run_responded gas c r batch s) =
    match batch with
    | [] => None
    | message :: batch => Some (fst (receive (methods gas) message c s1), batch)
    end.
Proof.
  intros Hr Hi. destruct r as [v|e|]; [..|done]; (eexists; split; [|apply held_run_batch]).
  - by apply (quiet_good _ _ (respond_quiet c v s)).
  - by apply (quiet_good s _ (sendLog_quiet _ _ _)).
Qed.

Lemma perform_waiting c m s s' : inv s → perform gas m s = Some s' →
  waiting c s ++ polled c m s = handed c m s ++ waiting c s'.
Proof.
  intros Hi Hm. destruct (resumes c m) eqn:Hr.
  - destruct m as [| | | | |c' r|c'| | |]; try done; cbn [resumes] in Hr;
      apply bool_decide_eq_true in Hr as ->; cbn [perform] in Hm;
      destruct (loops (clients s) !! c) as [[]|] eqn:Hl; simplify_eq.
    + unfold waiting. rewrite held_polled, (held_poll _ _ Hl) by done.
      cbn [handed]. rewrite decide_True by done. by destruct (polled c (MvClientPolled c r) s).
    + unfold waiting. cbn [handed polled]. rewrite decide_True, app_nil_r, Hl by done.
      assert (held c s = Some (r, batch)) as -> by (unfold held; by rewrite Hl).
      assert (r = OutOfFuel ∨ r ≠ OutOfFuel) as [->|Hne] by (destruct r; auto).
      { cbn [run_responded]. unfold held. by rewrite Hl. }
      destruct (held_responded c r batch s Hne Hi) as (s1 & _ & ->). by destruct r, batch.
  - unfold waiting. rewrite (perform_held c m s s') by done.
    assert (polled c m s = [] ∧ handed c m s = []) as [-> ->]; [|by rewrite app_nil_r].
    destruct m; try done; cbn [resumes polled handed] in *; apply bool_decide_eq_false in Hr;
      by rewrite !decide_False.
Qed.

(** What a run hands on is what its polls brought, but for what still waits. *)
Lemma messages_handed_in_order c ms s s' : inv s → perform_all gas ms s = Some s' →
  waiting c s ++ along (polled c) gas ms s = along (handed c) gas ms s ++ waiting c s'.
Proof.
  revert s. induction ms as [|m ms IH]; intros s Hi; cbn [perform_all along].
  { intros [= <-]. apply app_nil_r. }
  destruct (perform gas m s) as [s1|] eqn:Hm; [|done]. cbn [mbind option_bind]. intros Hms.
  rewrite app_assoc, (perform_waiting c m s s1 Hi Hm), <- !app_assoc. f_equal. apply IH; [|done].
  apply (step_good gas s s1); [by eapply perform_step|done].
Qed.
End Dispatch.
