(* ===== verification/RefArray.v ===== *)
(** * The reference JSON reader on arrays of texts

    What the reader of RefEnv.v makes of a text does not depend on what follows
    it, nor on the fuel once there is enough; so the array of some JSON texts,
    which is how the daemon answers a poll, is read as the array of what each
    text is read as. *)
From S2P Require Export RefJson.

Lemma strip_word_app w s r t : RefEnv.strip_prefix w s = Some r →
  RefEnv.strip_prefix w (s +:+ t) = Some (r +:+ t).
Proof.
  revert s. induction w as [|a w IH]; intros s; [by intros [= ->]|].
  destruct s as [|b s]; [done|]. change (String b s +:+ t) with (String b (s +:+ t)).
  cbn [RefEnv.strip_prefix]. case_decide; [apply IH|done].
Qed.

Lemma strip_word_Some w s r : RefEnv.strip_prefix w s = Some r → s = w +:+ r.
Proof.
  revert s. induction w as [|a w IH]; intros s; [by intros [= ->]|].
  destruct s as [|b s]; [done|]. cbn [RefEnv.strip_prefix]. case_decide; [subst|done].
  intros Hs. exact (f_equal (String b) (IH s Hs)).
Qed.

Lemma strip_char_app a s t : RefEnv.strip_prefix (String a "") s = None → s ≠ "" →
  RefEnv.strip_prefix (String a "") (s +:+ t) = None.
Proof.
  destruct s as [|b s]; [done|]. change (String b s +:+ t) with (String b (s +:+ t)).
  cbn [RefEnv.strip_prefix]. by case_decide.
Qed.

Lemma ref_digits_app acc s z r t : ref_digits acc s = (z, r) → starts_digit t = false →
  ref_digits acc (s +:+ t) = (z, r +:+ t).
Proof.
  intros Hs Ht. revert acc Hs. induction s as [|c s IH]; intros acc.
  - intros [= <- <-]. change ("" +:+ t) with t. destruct t as [|c t]; [done|]. cbn in Ht |- *.
    by rewrite Ht.
  - change (String c s +:+ t) with (String c (s +:+ t)). cbn [ref_digits].
    destruct (is_digit c); [apply IH|]. by intros [= <- <-].
Qed.

Lemma ref_chars_app s a r t : ref_chars s = Some (a, r) → ref_chars (s +:+ t) = Some (a, r +:+ t).
Proof.
  revert a. induction s as [|c s IH]; intros a; [done|].
  change (String c s +:+ t) with (String c (s +:+ t)). cbn [ref_chars].
  case_decide; [by intros [= <- <-]|]. destruct (ref_chars s) as [[a' r']|]; [|done].
  intros [= <- <-]. by rewrite (IH a' eq_refl).
Qed.

(** ** One step of the reader *)

(** The reader on a text that starts with [c], no letter of a word. *)
Definition read_char (fuel : nat) (c : ascii) (s : string) : option (value * string) :=
  if decide (c = quote_char) then
    match ref_chars s with Some (a, b) => Some (Str a, b) | None => None end
  else if decide (c = "["%char) then
    match RefEnv.strip_prefix "]" s with
    | Some s => Some (Arr [], s)
    | None => match ref_items fuel s with Some (l, s) => Some (Arr l, s) | None => None end
    end
  else if decide (c = "{"%char) then
    match RefEnv.strip_prefix "}" s with
    | Some s => Some (Obj [], s)
    | None => match ref_fields fuel s with Some (l, s) => Some (Obj l, s) | None => None end
    end
  else if is_digit c then
    let (z, s) := ref_digits 0 (String c s) in Some (Num (NInt z), s)
  else None.

Lemma ref_read_step f s x : ref_read (S f) s = Some x ↔
  (∃ r, s = "null" +:+ r ∧ x = (Null, r)) ∨ (∃ r, s = "true" +:+ r ∧ x = (Bool true, r)) ∨
  (∃ r, s = "false" +:+ r ∧ x = (Bool false, r)) ∨
  (∃ c r, s = String c r ∧ read_char f c r = Some x).
Proof.
  cbn [ref_read]. split.
  - destruct (RefEnv.strip_prefix "null" s) as [r|] eqn:Hn.
    { intros [= <-]. left. exists r. split; [by apply strip_word_Some|done]. }
    destruct (RefEnv.strip_prefix "true" s) as [r|] eqn:Ht.
    { intros [= <-]. right; left. exists r. split; [by apply strip_word_Some|done]. }
    destruct (RefEnv.strip_prefix "false" s) as [r|] eqn:Hf.
    { intros [= <-]. right; right; left. exists r. split; [by apply strip_word_Some|done]. }
    destruct s as [|c r]; [done|]. intros Hx. right; right; right. by exists c, r.
  - intros [(r & -> & ->)|[(r & -> & ->)|[(r & -> & ->)|(c & r & -> & Hx)]]]; [reflexivity..|].
    assert (c ≠ "n"%char ∧ c ≠ "t"%char ∧ c ≠ "f"%char) as (Hn & Ht & Hf)
      by by split_and!; intros ->.
    by rewrite !strip_prefix_other by done.
Qed.

(** ** What follows *)

(** [t] does not continue a number. *)
Definition separate (t : string) : Prop := starts_digit t = false.

Record reads_app (f : nat) : Prop := {
  ra_read s v r t : ref_read f s = Some (v, r) → separate t →
    ref_read f (s +:+ t) = Some (v, r +:+ t);
  ra_items s l r t : ref_items f s = Some (l, r) → separate t →
    ref_items f (s +:+ t) = Some (l, r +:+ t);
  ra_fields s l r t : ref_fields f s = Some (l, r) → separate t →
    ref_fields f (s +:+ t) = Some (l, r +:+ t);
}.

Lemma ref_items_nil f : ref_items f "" = None.
Proof. by destruct f as [|[|f]]. Qed.

Lemma ref_fields_nil f : ref_fields f "" = None.
Proof. by destruct f as [|[|f]]. Qed.

Lemma read_char_app f c s v r t : reads_app f → read_char f c s = Some (v, r) → separate t →
  read_char f c (s +:+ t) = Some (v, r +:+ t).
Proof.
  intros [_ Hi Hf] Hs Ht. revert Hs. unfold read_char.
  destruct (decide (c = quote_char)).
  { destruct (ref_chars s) as [[a b]|] eqn:Hc; [|done]. intros [= <- <-].
    by rewrite (ref_chars_app _ _ _ t Hc). }
  destruct (decide (c = "["%char)).
  { destruct (RefEnv.strip_prefix "]" s) as [s'|] eqn:He.
    { intros [= <- <-]. by rewrite (strip_word_app _ _ _ t He). }
    destruct (ref_items f s) as [[l r']|] eqn:Hl; [|done]. intros [= <- <-].
    rewrite strip_char_app, (Hi s l r' t Hl Ht); [done..|]. intros ->. by rewrite ref_items_nil in Hl. }
  destruct (decide (c = "{"%char)).
  { destruct (RefEnv.strip_prefix "}" s) as [s'|] eqn:He.
    { intros [= <- <-]. by rewrite (strip_word_app _ _ _ t He). }
    destruct (ref_fields f s) as [[l r']|] eqn:Hl; [|done]. intros [= <- <-].
    rewrite strip_char_app, (Hf s l r' t Hl Ht); [done..|]. intros ->. by rewrite ref_fields_nil in Hl. }
  destruct (is_digit c); [|done].
  destruct (ref_digits 0 (String c s)) as [z r'] eqn:Hd. intros [= <- <-].
  change (String c (s +:+ t)) with (String c s +:+ t). by rewrite (ref_digits_app _ _ _ _ t Hd Ht).
Qed.

Lemma ref_items_step f s l r : ref_items (S f) s = Some (l, r) ↔
  (∃ v s1 l', ref_read f s = Some (v, String "," s1) ∧ ref_items f s1 = Some (l', r) ∧ l = v :: l') ∨
  (∃ v, ref_read f s = Some (v, String "]" r) ∧ l = [v]).
Proof.
  split.
  - intros Hl. change (match ref_read f s with
      | Some (v, String "," s) =>
        match ref_items f s with Some (l, s) => Some (v :: l, s) | None => None end
      | Some (v, String "]" s) => Some ([v], s)
      | _ => None
      end = Some (l, r)) in Hl.
    repeat case_match; simplify_eq; [right; by eexists|left; by do 3 eexists].
  - intros [(v & s1 & l' & Hv & Hl & ->)|(v & Hv & ->)].
    + by rewrite (ref_items_more _ _ _ _ _ Hv Hl).
    + exact (ref_items_last _ _ _ _ Hv).
Qed.

Lemma ref_fields_step f s l r : ref_fields (S f) s = Some (l, r) ↔
  ∃ k s1 v, ref_read f s = Some (Str k, String ":" s1) ∧
    ((∃ s2 l', ref_read f s1 = Some (v, String "," s2) ∧ ref_fields f s2 = Some (l', r) ∧
        l = (k, v) :: l') ∨
     (ref_read f s1 = Some (v, String "}" r) ∧ l = [(k, v)])).
Proof.
  change (ref_fields (S f) s) with (match ref_read f s with
    | Some (Str k, String ":" s) =>
      match ref_read f s with
      | Some (v, String "," s) =>
        match ref_fields f s with Some (l, s) => Some ((k, v) :: l, s) | None => None end
      | Some (v, String "}" s) => Some ([(k, v)], s)
      | _ => None
      end
    | _ => None end).
  split.
  - intros Hl. repeat case_match; simplify_eq; do 3 eexists; (split; [reflexivity|]);
      [right; done|left; by do 2 eexists].
  - intros (k & s1 & v & -> & [(s2 & l' & -> & -> & ->)|[-> ->]]); done.
Qed.

Lemma reads_app_all f : reads_app f.
Proof.
  induction f as [|f IH]; [by constructor|]. constructor; intros s x r t.
  - rewrite !ref_read_step. intros [(r' & -> & [= -> ->])|[(r' & -> & [= -> ->])|
      [(r' & -> & [= -> ->])|(c & s' & -> & Hc)]]] Ht; [left|right; left|right; right; left|right; right; right];
      [by exists (r' +:+ t); rewrite append_assoc..|].
    exists c, (s' +:+ t). split; [done|]. by apply read_char_app.
  - rewrite !ref_items_step. intros [(v & s1 & l' & Hv & Hl & ->)|(v & Hv & ->)] Ht.
    + left. exists v, (s1 +:+ t), l'. split; [exact (ra_read f IH _ _ _ t Hv Ht)|].
      split; [exact (ra_items f IH _ _ _ t Hl Ht)|done].
    + right. exists v. split; [exact (ra_read f IH _ _ _ t Hv Ht)|done].
  - rewrite !ref_fields_step. intros (k & s1 & v & Hk & Hv) Ht. exists k, (s1 +:+ t), v.
    split; [exact (ra_read f IH _ _ _ t Hk Ht)|].
    destruct Hv as [(s2 & l' & Hv & Hl & ->)|[Hv ->]].
    + left. exists (s2 +:+ t), l'. split; [exact (ra_read f IH _ _ _ t Hv Ht)|].
      split; [exact (ra_fields f IH _ _ _ t Hl Ht)|done].
    + right. split; [exact (ra_read f IH _ _ _ t Hv Ht)|done].
Qed.

(** ** More fuel *)

Record reads_more (f : nat) : Prop := {
  rm_read s x : ref_read f s = Some x → ref_read (S f) s = Some x;
  rm_items s x : ref_items f s = Some x → ref_items (S f) s = Some x;
  rm_fields s x : ref_fields f s = Some x → ref_fields (S f) s = Some x;
}.

Lemma read_char_more f c s x : reads_more f → read_char f c s = Some x →
  read_char (S f) c s = Some x.
Proof.
  intros [_ Hi Hf] Hs. revert Hs. unfold read_char. case_decide; [done|]. case_decide.
  { case_match; [done|]. destruct (ref_items f s) as [[l r]|] eqn:Hl; [|done].
    by rewrite (Hi s (l, r) Hl). }
  case_decide; [|done]. case_match; [done|].
  destruct (ref_fields f s) as [[l r]|] eqn:Hl; [|done]. by rewrite (Hf s (l, r) Hl).
Qed.

Lemma reads_more_all f : reads_more f.
Proof.
  induction f as [|f IH]; [by constructor|]. pose proof IH as [Hr Hi Hf].
  constructor; intros s x Hx.
  - apply ref_read_step in Hx. apply ref_read_step.
    destruct Hx as [?|[?|[?|(c & r & -> & Hc)]]]; [by auto..|].
    right; right; right. exists c, r. split; [done|]. by apply read_char_more.
  - destruct x as [l r]. apply ref_items_step in Hx. apply ref_items_step. naive_solver.
  - destruct x as [l r]. apply ref_fields_step in Hx. apply ref_fields_step.
    destruct Hx as (k & s1 & v & Hk & Hv). exists k, s1, v. naive_solver.
Qed.

Lemma ref_read_more f f' s x : (f ≤ f')%nat → ref_read f s = Some x → ref_read f' s = Some x.
Proof. induction 1 as [|f' _ IH]; [done|]. intros Hx. by apply (rm_read _ (reads_more_all f')), IH. Qed.

(** ** Arrays *)

(** What [ref_parse] makes of a text. *)
Lemma ref_parse_Some s v : ref_parse (Str s) = inl v ↔
  ref_read (S (2 * String.length s)) s = Some (v, "").
Proof. unfold ref_parse. repeat case_match; naive_solver. Qed.

Lemma ref_parse_nonempty s v : ref_parse (Str s) = inl v → (1 ≤ String.length s)%nat.
Proof. intros Hs%ref_parse_Some. destruct s; [done|]. cbn. lia. Qed.

(** The texts with commas in between. *)
Definition joined (b : list bytes) : string := text_of (comma_separated b).

Lemma joined_cons p b : joined (p :: b) =
  text_of p +:+ match b with [] => "" | _ => "," +:+ joined b end.
Proof.
  unfold joined. destruct b as [|p' b]; [by rewrite append_nil_r|].
  change (comma_separated (p :: p' :: b)) with (p ++ chars "," ++ comma_separated (p' :: b)).
  by rewrite !text_of_app.
Qed.

Section array.
Context (f : bytes → value).

Definition parses (p : bytes) : Prop := ref_parse (Str (text_of p)) = inl (f p).

Lemma joined_length b : Forall parses b → (length b ≤ String.length (joined b))%nat.
Proof.
  induction 1 as [|p b Hp _ IH]; [done|]. rewrite joined_cons, append_length.
  pose proof (ref_parse_nonempty _ _ Hp). destruct b; cbn [length] in *; [lia|].
  rewrite append_length. lia.
Qed.

Lemma ref_items_joined fuel b : b ≠ [] → Forall parses b →
  (2 * String.length (joined b) + 2 ≤ fuel)%nat →
  ref_items fuel (joined b +:+ "]") = Some (map f b, "").
Proof.
  intros Hne Hb. revert fuel. induction Hb as [|p b Hp Hb IH]; [done|]. clear Hne.
  intros fuel Hfuel. rewrite joined_cons in *. rewrite append_length in Hfuel.
  pose proof (ref_parse_nonempty _ _ Hp) as Hlen. apply ref_parse_Some in Hp.
  destruct fuel as [|fuel]; [lia|]. rewrite append_assoc.
  apply (ref_read_more _ fuel) in Hp; [|lia]. destruct b as [|p' b].
  - apply (ref_items_last fuel). by apply (ra_read _ (reads_app_all fuel) _ _ _ "]" Hp).
  - rewrite append_length in Hfuel. rewrite (ref_items_more fuel _ (f p) (joined (p' :: b) +:+ "]")
      (Some (map f (p' :: b), ""))); [done| |apply IH; [done|cbn in Hfuel |- *; lia]].
    by apply (ra_read _ (reads_app_all fuel) _ _ _ ("," +:+ joined (p' :: b) +:+ "]") Hp).
Qed.

(** [JSON.parse] of the array of some texts. *)
Lemma ref_parse_array b : Forall parses b →
  ref_parse (Str (text_of (json_array b))) = inl (Arr (map f b)).
Proof.
  intros Hb. unfold json_array. rewrite !text_of_app. fold (joined b).
  destruct b as [|p b]; [done|]. apply ref_parse_Some. rewrite !append_length.
  set (n := (2 * _)%nat). apply ref_read_step. right; right; right.
  exists "["%char, (joined (p :: b) +:+ "]"). split; [done|].
  assert (∃ c s, joined (p :: b) = String c s ∧ c ≠ "]"%char) as (c & s & Hs & Hc).
  { apply Forall_cons in Hb as [Hp%ref_parse_Some _]. rewrite joined_cons.
    apply ref_read_step in Hp as [(r & -> & _)|[(r & -> & _)|[(r & -> & _)|(c & r & -> & Hr)]]];
      [by do 2 eexists..|].
    do 2 eexists. split; [done|]. intros ->. done. }
  unfold read_char. rewrite decide_False by done. rewrite decide_True by done.
  rewrite (ref_items_joined n (p :: b)); [|done..|unfold n; change (String.length (text_of (chars "["))) with 1%nat; lia].
  rewrite Hs. change (String c s +:+ "]") with (String c (s +:+ "]")). by rewrite strip_prefix_other.
Qed.
End array.
