(* ===== verification/StreamProps.v ===== *)
(** * A client's messages, from its socket to the JSON-RPC server

    A client writes frames; the daemon's session cuts them into messages and
    answers the script's polls with arrays of them; the script parses each array
    and hands its elements to JSON-RPC one by one.  [requests_reach_script] joins
    the three: nothing is lost, doubled or reordered between the client's socket
    and [dispatchMessage]. *)
From S2P Require Export Dispatch RefArray TransportProps EndToEnd.

(** ** The daemon's side *)

(** A text that is an array, as only a batch of messages is. *)
Definition is_batch_text (text : string) : bool :=
  match text with String "[" _ => true | _ => false end.

(** The batches that a session answered, in order. *)
Definition batch_texts (out : list output) : list string :=
  omap (λ e, match e with
    | Return _ text => if is_batch_text (text_of text) then Some (text_of text) else None
    | Log _ _ => None
    end) out.

(** [JSON.parse] on the array of some texts is the array of what it makes of
    each. *)
Class MessageJsonLaws (E : Env) : Prop := {
  parse_array (f : bytes → value) b :
    Forall (λ p, JSON_parse (Str (text_of p)) = inl (f p)) b →
    JSON_parse (Str (text_of (json_array b))) = inl (Arr (map f b));
}.

#[export] Instance RefEnv_message_json : MessageJsonLaws RefEnv.
Proof. split. intros f b. exact (ref_parse_array f b). Qed.

Lemma batch_texts_app out1 out2 : batch_texts (out1 ++ out2) = batch_texts out1 ++ batch_texts out2.
Proof. apply omap_app. Qed.

Lemma batch_texts_array m b : batch_texts [Return m (json_array b)] = [text_of (json_array b)].
Proof. done. Qed.

Lemma batch_texts_other m t : t ∈ poll_errors ++ push_texts → batch_texts [Return m (c_str t)] = [].
Proof.
  unfold poll_errors, push_texts. rewrite elem_of_app, !elem_of_cons, !elem_of_nil.
  intros [Ht|Ht]; by repeat destruct Ht as [->|Ht].
Qed.

Section Stream.
Context {E : Env} {J : JsonRpcApi E}.
Context `{!QTimerLaws E, !SignalLaws E, !JsonRpcLaws E J, !ControlJsonLaws E, !MessageJsonLaws E}.
Context (gas : nat).
Implicit Types (s : state) (k : conn).

(** What the script finds in a text. *)
Definition messages_in (text : string) : list value :=
  match JSON_parse (Str text) with inl (Arr batch) => batch | _ => [] end.

(** The payload [p] is the text of the message [f p]; D-Bus texts end at a NUL. *)
Definition json_payload (f : bytes → value) (p : bytes) : Prop :=
  JSON_parse (Str (text_of p)) = inl (f p) ∧ "000"%char ∉ p.

Lemma messages_in_array f b : Forall (json_payload f) b →
  messages_in (text_of (json_array b)) = map f b.
Proof.
  intros Hb. unfold messages_in. rewrite (parse_array f); [done|].
  eapply Forall_impl; [exact Hb|]. by intros p [Hp _].
Qed.

Lemma json_payloads_no_nul f b : Forall (json_payload f) b → Forall no_nul b.
Proof. intros Hb. eapply Forall_impl; [exact Hb|]. by intros p [_ Hp]. Qed.

(** The batches that a session answered carry its messages. *)
Lemma carried_messages f out delivered :
  taken push_texts out delivered → Forall (json_payload f) delivered →
  batch_texts out ≫= messages_in = map f delivered.
Proof.
  intros Ht Hp. pose proof (taken_carried _ _ _ Ht (json_payloads_no_nul f _ Hp)) as Hc.
  clear Ht. revert Hp. induction Hc as [|out msgs m b _ IH _|out msgs m t _ IH Ht|out msgs l t _ IH];
    intros Hf; [done|rewrite batch_texts_app, bind_app..].
  - apply Forall_app in Hf as [Hf Hb]. rewrite IH, map_app by done. f_equal.
    rewrite batch_texts_array.
    cbn [mbind list_bind]. by rewrite app_nil_r, (messages_in_array f).
  - rewrite batch_texts_other by done. cbn [mbind list_bind]. rewrite app_nil_r. by apply IH.
  - rewrite app_nil_r. by apply IH.
Qed.

(** ** The script's side *)

(** The replies to the polls of [k]. *)
Definition reply_to (k : conn) (m : move) : option value :=
  match m with
  | MvClientPolled k' (Fulfilled v) => if decide (k' = k) then Some v else None
  | _ => None
  end.
Definition replies (k : conn) (ms : list move) : list value := omap (reply_to k) ms.

(** Each is a batch or an error of [poll]. *)
Definition is_reply (text : string) : Prop :=
  is_batch_text text = true ∨ text ∈ text_of <$> poll_errors.

Lemma messages_in_error text : text ∈ text_of <$> poll_errors → messages_in text = [].
Proof.
  intros (t & -> & Ht)%list_elem_of_fmap. unfold messages_in.
  by destruct (parse_error t Ht) as [error ->].
Qed.

Lemma messages_in_replies texts : Forall is_reply texts →
  texts ≫= messages_in = filter (λ t, is_batch_text t = true) texts ≫= messages_in.
Proof.
  induction 1 as [|t texts Ht _ IH]; [done|]. rewrite filter_cons. cbn [mbind list_bind].
  fold (mbind (M := list) messages_in texts).
  case_decide as Ha; cbn [mbind list_bind]; rewrite IH; [done|].
  destruct Ht as [|Ht]; [done|]. by rewrite messages_in_error.
Qed.

(** The elements of a reply. *)
Definition batch_of (v : value) : list value :=
  match JSON_parse v with inl (Arr batch) => batch | _ => [] end.

Lemma polled_reply k m s : (is_Some (reply_to k m) → is_alive k s = true) →
  polled k m s = match reply_to k m with Some v => batch_of v | None => [] end.
Proof.
  intros Ha. destruct m as [| | | | |k' r| | | |]; try done. cbn [polled reply_to] in *.
  unfold poll_outcome, batch_of. destruct (decide (k' = k)) as [->|]; [|by destruct r].
  destruct r as [v|e]; [|by destruct (is_alive k s)].
  rewrite Ha by done. by destruct (JSON_parse v) as [[]|].
Qed.

Lemma reply_known k m s s' : inv s → perform gas m s = Some s' → is_Some (reply_to k m) → known k s.
Proof.
  intros Hi Hm [v Hv]. destruct m as [| | | | |k' [] | | | |]; try done. cbn in Hv, Hm.
  case_decide; simplify_eq. destruct (loops (clients s) !! k) as [l|] eqn:Hl; [|done].
  by eapply running_known.
Qed.

(** A client that is alive at the end got every reply. *)
Lemma polled_replies k ms s s' : inv s → perform_all gas ms s = Some s' → is_alive k s' = true →
  along (polled k) gas ms s = replies k ms ≫= batch_of.
Proof.
  unfold replies. revert s. induction ms as [|m ms IH]; intros s Hi; [done|].
  cbn [along omap list_omap]. intros Hms Ha. pose proof (perform_all_steps gas _ _ _ Hms) as Hsteps.
  cbn [perform_all] in Hms. destruct (perform gas m s) as [s1|] eqn:Hm; [|done].
  cbn [mbind option_bind] in Hms.
  destruct (step_good gas _ _ (perform_step gas _ _ _ Hm) Hi) as [Hi1 _].
  rewrite (IH s1 Hi1 Hms Ha), polled_reply.
  - by destruct (reply_to k m).
  - intros Hk%(reply_known k m s s1 Hi Hm). destruct (steps_good gas _ _ Hsteps Hi) as [_ Hev].
    by eapply alive_evolves.
Qed.

Lemma loaded_held k W sg : held k (load_script (init_state W sg)) = None.
Proof. unfold held. by rewrite (ld_clients _ _ _ (load_script_loaded (init_state W sg))). Qed.

Lemma loaded_waiting k W sg : waiting k (load_script (init_state W sg)) = [].
Proof. unfold waiting. by rewrite loaded_held. Qed.

(** The messages that a session delivered, on the script's side. *)
Lemma delivered_handed f out delivered W sg ms s k texts transit :
  taken push_texts out delivered → Forall (json_payload f) delivered →
  (∀ x, sig_slots sg x = []) → perform_all gas ms (load_script (init_state W sg)) = Some s →
  is_alive k s = true →
  replies k ms = Str <$> texts → Forall is_reply texts →
  filter (λ t, is_batch_text t = true) texts ++ transit = batch_texts out →
  along (handed k) gas ms (load_script (init_state W sg)) ++ waiting k s ++ (transit ≫= messages_in) =
  map f delivered.
Proof.
  intros Hcar Hf Hsg Hscript Ha Hreplies Htexts Hout.
  pose proof (load_script_inv W sg Hsg) as Hi. rewrite app_assoc.
  rewrite <- (messages_handed_in_order gas k ms _ s Hi Hscript), loaded_waiting.
  rewrite (polled_replies k ms _ s Hi Hscript Ha), Hreplies. cbn [app].
  rewrite <- (carried_messages f _ _ Hcar Hf), <- Hout, bind_app. f_equal.
  rewrite <- messages_in_replies by done. clear.
  induction texts as [|t texts IH]; [done|]. cbn [fmap list_fmap mbind list_bind].
  f_equal. exact IH.
Qed.

(** ** Together *)

Context `{MachineLaws}.
Context (id fd rx_cap tx_cap : Z) (sn : session) (es : list session_event).
Context (c : connection) (h : history).
Hypothesis (Hfd : 0 ≤ fd) (Hrx : buffer_cap_ok rx_cap) (Htx : buffer_cap_ok tx_cap).
Hypothesis Hnew : session_new id fd rx_cap tx_cap 0 0 = Returns sn.
Hypothesis Hrun : session_run (conn_new sn) no_history es = Returns (c, h).

(** C7: A client's requests reach the script, once and in order.  The client
    has written frames whose payloads are JSON texts, and the daemon has read
    them, in whatever pieces; the script's polls for the client were answered
    with the batches of its session, in order, but for those in [transit],
    and with errors of [poll] or failures of the call anywhere in between;
    anything else may have happened to both.  While the client is alive, the
    messages handed to JSON-RPC, then the rest of the batch that its loop works
    on, the batches in transit and the messages queued in the session are the
    parsed payloads of the legal frames, in order. *)
Theorem requests_reach_script f msgs W sg ms s k texts transit :
  framed (arrived h) msgs → conn_inbound c = [] → Forall (json_payload f) msgs →
  (∀ x, sig_slots sg x = []) → perform_all gas ms (load_script (init_state W sg)) = Some s →
  is_alive k s = true →
  replies k ms = Str <$> texts → Forall is_reply texts →
  filter (λ t, is_batch_text t = true) texts ++ transit = batch_texts (ss_out (conn_session c)) →
  ∃ queued, rx_queue (session_rx (conn_session c)) queued [] ∧
    along (handed k) gas ms (load_script (init_state W sg)) ++ waiting k s ++
      (transit ≫= messages_in) ++ map f queued = map f msgs.
Proof.
  intros Hms Hread Hf Hsg Hscript Ha Hreplies Htexts Hout.
  destruct (framed_delivered id fd rx_cap tx_cap sn es c h Hfd Hrx Htx Hnew Hrun msgs Hms Hread)
    as (delivered & queued & -> & Hcar & Hq).
  exists queued. split; [done|]. apply Forall_app in Hf as [Hf _]. rewrite map_app.
  by rewrite <- (delivered_handed f _ delivered W sg ms s k texts transit
    Hcar Hf Hsg Hscript Ha Hreplies Htexts Hout), <- !app_assoc.
Qed.
End Stream.

(** ** Witness *)

(** Three requests of client 1 arrive in pieces.  The first is in the script's
    hands, the second in the reply to the second [poll], which the script has
    not had, and the third in the session's queue. *)
Definition ref_request (name : string) : bytes :=
  chars (ref_stringify (sc_request name (Arr []))).
Definition ref_requests : list bytes := [ref_request "a"; ref_request "b"; ref_request "c"].

Definition ref_stream_events : list session_event :=
  [ Poll 1 (inr 20000) ref_event_loop;
    Arrive (concat (map frame ref_requests));
    Io EPOLLIN [Ready 4; Ready 20; ReadFailed EINTR; Ready 64; Ready 4; ReadFailed EAGAIN] [];
    Poll 2 (inr 20000) ref_event_loop;
    Io EPOLLIN [Ready 64; Ready 4; ReadFailed EAGAIN] [];
    Io EPOLLIN [Ready 64; ReadFailed EAGAIN] [] ].

Definition ref_parsed (p : bytes) : value :=
  match ref_parse (Str (text_of p)) with inl v => v | inr _ => Null end.

Definition ref_array (name : string) : string := text_of (json_array [ref_request name]).

Definition ref_stream_moves : list (move (E := RefEnv)) :=
  [MvControlPolled (sc_batch [sc_event "client_connected" 1]); MvControlWakes;
   MvClientPolled (Env.Conn 1 (NInt 1)) (Fulfilled (Str (ref_array "a")))].

Abbreviation ref_stream_script :=
  (perform_all sc_gas ref_stream_moves (load_script (init_state (E := RefEnv) (sc_world "x") []))).

(** A run of client 1 with buffers of [cap] bytes, and a part of where it ends. *)
Lemma ref_reached_with cap es : buffer_cap_ok cap →
  ∃ sn c h, session_new 1 7 cap cap 0 0 = Returns sn ∧
    session_run (conn_new sn) no_history es = Returns (c, h) ∧
    ∀ A (g : connection → history → A) x, after g (s ← session_new 1 7 cap cap 0 0;
      session_run (conn_new s) no_history es) = Some x → g c h = x.
Proof.
  intros Hcap.
  destruct (conn_new_holds (effective_cap cap) 1 7 cap cap 0 0) as (sn & Hsn & Hok & Hc); [lia|done..|].
  specialize (Hc Hok). destruct (session_run_holds _ _ es _ _ Hc) as (c & h & Hrun & _).
  exists sn, c, h. split; [done|]. split; [done|].
  intros A g x. apply after_run. rewrite Hsn. exact Hrun.
Qed.

Lemma ref_stream_reached : ∃ sn c h, session_new 1 7 256 256 0 0 = Returns sn ∧
  session_run (conn_new sn) no_history ref_stream_events = Returns (c, h) ∧
  arrived h = concat (map frame ref_requests) ∧ conn_inbound c = [] ∧
  batch_texts (ss_out (conn_session c)) = [ref_array "a"; ref_array "b"].
Proof.
  destruct (ref_reached_with 256 ref_stream_events) as (sn & c & h & Hsn & Hrun & Hafter);
    [unfold buffer_cap_ok, kMinBufferCap, max_capacity; lia|].
  exists sn, c, h. split; [exact Hsn|]. split; [exact Hrun|]. split_and!.
  - apply (Hafter _ (λ _ h, arrived h)). vm_compute. reflexivity.
  - apply (Hafter _ (λ c _, conn_inbound c)). vm_compute. reflexivity.
  - apply (Hafter _ (λ c _, batch_texts (ss_out (conn_session c)))). vm_compute. reflexivity.
Qed.

Lemma ref_requests_framed : framed (concat (map frame ref_requests)) ref_requests.
Proof. repeat (apply framed_legal; [vm_compute; reflexivity|]). apply framed_nil. Qed.

Lemma ref_requests_json : Forall (json_payload (E := RefEnv) ref_parsed) ref_requests.
Proof.
  repeat (apply Forall_cons; split; [split; [vm_compute; reflexivity|]|]); [..|apply Forall_nil; done];
    apply (bool_decide_unpack _); vm_compute; exact I.
Qed.

Lemma ref_stream_script_runs : ∃ s, ref_stream_script = Some s ∧
  is_alive (Env.Conn 1 (NInt 1)) s = true.
Proof.
  assert (bool_decide (is_Some ref_stream_script) = true) as [s Hs]%bool_decide_eq_true
    by (vm_compute; reflexivity).
  exists s. split; [exact Hs|]. apply (inj Some).
  etrans; [symmetry; exact (f_equal (option_map (is_alive (Env.Conn 1 (NInt 1)))) Hs)|].
  vm_compute. reflexivity.
Qed.

Lemma requests_reach_script_witness : ∃ c s,
  ref_stream_script = Some s ∧
  ∃ queued, rx_queue (session_rx (conn_session c)) queued [] ∧
    along (handed (Env.Conn 1 (NInt 1))) sc_gas ref_stream_moves
      (load_script (init_state (sc_world "x") [])) ++ waiting (Env.Conn 1 (NInt 1)) s ++
      ([ref_array "b"] ≫= messages_in) ++ map ref_parsed queued = map ref_parsed ref_requests.
Proof.
  destruct ref_stream_reached as (sn & c & h & Hnew & Hrun & Harr & Hin & Hout).
  destruct ref_stream_script_runs as (s & Hs & Ha).
  exists c, s. split; [exact Hs|].
  refine (requests_reach_script (E := RefEnv) sc_gas 1 7 256 256 sn ref_stream_events c h _ _ _ Hnew Hrun
    ref_parsed ref_requests (sc_world "x") [] ref_stream_moves s (Env.Conn 1 (NInt 1))
    [ref_array "a"] [ref_array "b"] _ Hin ref_requests_json _ Hs Ha _ _ _).
  - lia.
  - unfold buffer_cap_ok, kMinBufferCap, max_capacity. lia.
  - unfold buffer_cap_ok, kMinBufferCap, max_capacity. lia.
  - rewrite Harr. apply ref_requests_framed.
  - done.
  - reflexivity.
  - constructor; [|constructor]. left. vm_compute. reflexivity.
  - rewrite Hout. vm_compute. reflexivity.
Defined.
