(* ===== verification/Responses.v ===== *)
(** * What becomes of the messages that a loop hands on

    Each message that the loop of a client hands to JSON-RPC has one outcome,
    which the loop awaits ([awaited]) and then looks at ([responded]); the
    outcomes come in the order of the messages ([outcomes_follow]).  What an
    outcome makes the loop send ([response_messages]) has been pushed, in order,
    among whatever else was ([responses_pushed]). *)
From S2P Require Export Dispatch RpcProps.

(** ** Lists *)

Lemma sublist_omap {A B} (f : A → option B) (l k : list A) :
  l `sublist_of` k → omap f l `sublist_of` omap f k.
Proof.
  induction 1 as [|x l k _ IH|x l k _ IH]; cbn; [done|destruct (f x)..]; by try constructor.
Qed.

Section Responses.
Context {E : Env} {J : JsonRpcApi E}.
Implicit Types (s : state) (c : conn).

Definition awaited (c : conn) (s : state) : list (outcome (option value)) :=
  match held c s with Some (r, _) => [r] | None => [] end.

(** The outcome that a move takes from the loop of [c]. *)
Definition responded (c : conn) (m : move) (s : state) : list (outcome (option value)) :=
  match m with
  | MvClientResponds c' =>
    if decide (c' = c) then
      match loops (clients s) !! c with
      | Some (LRespond OutOfFuel _) => []
      | Some (LRespond r _) => [r]
      | _ => []
      end
    else []
  | _ => []
  end.

(** What [dispatchMessage] sends for an outcome: nothing for an exception, a
    notification or a null id, and a batch without its null ids. *)
Definition response_messages (r : outcome (option value)) : list value :=
  match r with
  | Ret (Some (Arr entries)) =>
    match filter (λ entry, is_null (prop_get "id" entry) = false) entries with
    | [] => []
    | [r] => [r]
    | kept => [Arr kept]
    end
  | Ret (Some Null) | Ret (Some Undefined) => []
  | Ret (Some response) => if is_null (prop_get "id" response) then [] else [response]
  | _ => []
  end.

Context `{!QTimerLaws E, !SignalLaws E, !JsonRpcLaws E J} (gas : nat).

(** [r] is what JSON-RPC made of the message, in a state that keeps the invariant
    of the script. *)
Definition outcome_of (c : conn) (message : value) (r : outcome (option value)) : Prop :=
  ∃ s, inv s ∧ r = fst (receive (methods gas) message c s).

Lemma perform_outcomes c m s s' : inv s → perform gas m s = Some s' →
  ∃ new, awaited c s ++ new = responded c m s ++ awaited c s' ∧
    Forall2 (outcome_of c) (handed c m s) new.
Proof.
  intros Hi Hm. destruct (resumes c m) eqn:Hr.
  - destruct m as [| | | | |c' r|c'| | |]; try done; cbn [resumes] in Hr;
      apply bool_decide_eq_true in Hr as ->; cbn [perform] in Hm;
      destruct (loops (clients s) !! c) as [[]|] eqn:Hl; simplify_eq.
    + exists (awaited c (run_polled gas c r s)). unfold awaited at 1.
      rewrite (held_poll _ _ Hl). split; [done|]. unfold awaited. rewrite held_polled by done.
      cbn [handed]. rewrite decide_True by done.
      destruct (polled c (MvClientPolled c r) s) as [|message batch]; constructor; [|constructor].
      by exists s.
    + assert (held c s = Some (r, batch)) as Hh by (unfold held; by rewrite Hl).
      cbn [responded handed]. rewrite !decide_True, Hl by done.
      assert (r = OutOfFuel ∨ r ≠ OutOfFuel) as [->|Hne] by (destruct r; auto).
      { exists []. split; [|constructor]. cbn [run_responded]. apply app_nil_r. }
      exists (awaited c (run_responded gas c r batch s)). split.
      { unfold awaited at 1. rewrite Hh. by destruct r. }
      unfold awaited. destruct (held_responded gas c r batch s Hne Hi) as (s1 & Hi1 & ->).
      destruct r, batch; try done; (constructor; [by exists s1|constructor]).
  - exists []. assert (responded c m s = [] ∧ handed c m s = []) as [-> ->].
    { destruct m; try done; cbn [resumes responded handed] in *; apply bool_decide_eq_false in Hr;
        by rewrite !decide_False. }
    split; [|constructor]. rewrite app_nil_r. unfold awaited. by rewrite (perform_held gas c m s s').
Qed.

(** One outcome per message, in order; the last one may still be awaited. *)
Lemma outcomes_follow c ms s s' : inv s → perform_all gas ms s = Some s' →
  ∃ new, awaited c s ++ new = along (responded c) gas ms s ++ awaited c s' ∧
    Forall2 (outcome_of c) (along (handed c) gas ms s) new.
Proof.
  revert s. induction ms as [|m ms IH]; intros s Hi; cbn [perform_all along].
  { intros [= <-]. exists []. by rewrite app_nil_r. }
  destruct (perform gas m s) as [s1|] eqn:Hm; [|done]. cbn [mbind option_bind]. intros Hms.
  destruct (perform_outcomes c m s s1 Hi Hm) as (new1 & Hnew1 & Hall1).
  destruct (IH s1) as (new2 & Hnew2 & Hall2); [|done|].
  { apply (step_good gas s s1); [by eapply perform_step|done]. }
  exists (new1 ++ new2). split; [|by apply Forall2_app].
  by rewrite app_assoc, Hnew1, <- !app_assoc, Hnew2.
Qed.

(** ** What is pushed *)

Lemma respond_pushes c response s : pushes (out (respond c response s)) =
  pushes (out s) ++ map (reply c) (response_messages (Ret response)).
Proof.
  unfold respond, response_messages. destruct response as [v|]; [|by rewrite app_nil_r].
  destruct v; repeat case_match; cbn [map]; rewrite ?app_nil_r; try done; apply send_pushes.
Qed.

Lemma prefix_pushes s s' : out s `prefix_of` out s' → pushes (out s) `prefix_of` pushes (out s').
Proof. intros [l ->]. rewrite pushes_app. by apply prefix_app_r. Qed.

Lemma good_pushes s s' : good s s' → inv s → pushes (out s) `sublist_of` pushes (out s').
Proof.
  intros Hg Hi. destruct (Hg Hi) as [_ Hev]. destruct (prefix_pushes _ _ (ev_out _ _ Hev)) as [l ->].
  by apply sublist_inserts_r.
Qed.

Lemma perform_pushes c m s s' : inv s → perform gas m s = Some s' →
  pushes (out s) ++ map (reply c) (responded c m s ≫= response_messages) `sublist_of` pushes (out s').
Proof.
  intros Hi Hm. pose proof (perform_step gas m s s' Hm) as Hstep.
  assert (responded c m s ≫= response_messages = [] →
    pushes (out s) ++ map (reply c) (responded c m s ≫= response_messages) `sublist_of` pushes (out s'))
    as Hnone.
  { intros ->. rewrite app_nil_r. apply good_pushes; [by apply (step_good gas)|done]. }
  destruct m as [| | | | | |c'| | |]; try by apply Hnone. cbn [responded] in *.
  destruct (decide (c' = c)) as [->|]; [|by apply Hnone]. cbn [perform] in Hm.
  destruct (loops (clients s) !! c) as [[|r batch| |]|] eqn:Hl; try by apply Hnone.
  destruct r as [response|e|]; try by apply Hnone. injection Hm as <-.
  cbn [mbind list_bind]. rewrite app_nil_r. cbn [run_responded].
  rewrite <- respond_pushes. pose proof (respond_quiet c response s) as Hq.
  pose proof (running_known c _ s Hi Hl) as Hk.
  apply good_pushes; [|by apply (quiet_good _ _ Hq)]. apply run_batch_good. by eapply known_quiet.
Qed.

(** Along a run, what the loop of [c] answered is among what was pushed. *)
Lemma responses_pushed c ms s s' : inv s → perform_all gas ms s = Some s' →
  pushes (out s) ++ map (reply c) (along (responded c) gas ms s ≫= response_messages)
    `sublist_of` pushes (out s').
Proof.
  revert s. induction ms as [|m ms IH]; intros s Hi; cbn [perform_all along].
  { intros [= <-]. by rewrite app_nil_r. }
  destruct (perform gas m s) as [s1|] eqn:Hm; [|done]. cbn [mbind option_bind]. intros Hms.
  rewrite bind_app, map_app, app_assoc. etrans; [|apply (IH s1); [|exact Hms]].
  - apply sublist_app; [|done]. by apply perform_pushes.
  - apply (step_good gas s s1); [by eapply perform_step|done].
Qed.
End Responses.
