(* ===== verification/Notices.v ===== *)
(** * What the script pushes

    Everything that the script pushes to a client is a response to one of the
    client's messages or one of the four notifications of doc/RPC.md, in the
    shape given there.  Between two states, [notes] says that only
    notifications were added to what was pushed; the code is gone through as in
    Registry.v. *)
From S2P Require Export Registry Responses.

(** [l] and [k], each in order, make up [m]. *)
Inductive interleaved {A} : list A → list A → list A → Prop :=
| il_nil : interleaved [] [] []
| il_left x l k m : interleaved l k m → interleaved (x :: l) k (x :: m)
| il_right x l k m : interleaved l k m → interleaved l (x :: k) (x :: m).

Lemma interleaved_left {A} (l : list A) : interleaved l [] l.
Proof. induction l; by constructor. Qed.

Lemma interleaved_right {A} (l : list A) : interleaved [] l l.
Proof. induction l; by constructor. Qed.

Lemma interleaved_app {A} (l k m l' k' m' : list A) :
  interleaved l k m → interleaved l' k' m' → interleaved (l ++ l') (k ++ k') (m ++ m').
Proof. induction 1; simpl; [done|constructor; auto..]. Qed.

(** ** The notifications *)

Definition is_window_info (v : value) : Prop := ∃ caption, v = Obj [("caption", Str caption)].

(** The params of each notification. *)
Inductive notice_params : string → value → Prop :=
| np_validated t w : is_window_info w →
  notice_params "token.validated" (Obj [("token", Str t); ("window", w)])
| np_invalidated t reason w : w = Null ∨ is_window_info w →
  notice_params "token.invalidated"
    (Obj [("token", Str t); ("reason", Str (TokenReason_string reason)); ("window", w)])
| np_window_changed t p v : p ∈ WATCH_PROPS →
  notice_params "window.changed" (Obj [("token", Str t); ("property", Str p); ("value", v)])
| np_workspace_changed p v : p ∈ WORKSPACE_WATCH_PROPS →
  notice_params "workspace.changed" (Obj [("property", Str p); ("value", v)]).

Section Notices.
Context {E : Env}.
Implicit Types (s : state) (c : conn) (w : window).

Definition is_notice (e : effect) : Prop :=
  ∃ c name params, e = notification c name params ∧ notice_params name params.

(** Notifications were pushed, and nothing else. *)
Definition notes s s' : Prop :=
  ∃ l, pushes (out s') = pushes (out s) ++ l ∧ Forall is_notice l.

Lemma silent_notes s s' : pushes (out s') = pushes (out s) → notes s s'.
Proof. intros Hs. exists []. by rewrite app_nil_r. Qed.

#[export] Instance notes_preorder : PreOrder notes.
Proof.
  split; [intros s; by apply silent_notes|]. intros s1 s2 s3 (l & Hl & Hn) (l' & Hl' & Hn').
  exists (l ++ l'). rewrite Hl', Hl, app_assoc. split; [done|by apply Forall_app].
Qed.

Lemma notify_notes c name params s :
  notice_params name params → notes s (notifyClient c name params s).
Proof.
  intros Hp. eexists. split; [apply notifyClient_pushes|]. case_goal; [|done].
  apply Forall_singleton. exists c, name, params. by split.
Qed.

Lemma sendLog_notes l m s : notes s (sendLog l m s).
Proof. apply silent_notes, sendLog_pushes. Qed.

Lemma emit_notes e s : is_push e = false → notes s (emit e s).
Proof.
  intros He. apply silent_notes. simpl. rewrite pushes_app. unfold pushes at 2.
  rewrite filter_cons, decide_False by (rewrite He; by intros []). apply app_nil_r.
Qed.

Lemma window_info_shape w s : is_window_info (windowInfo w s).
Proof. by eexists. Qed.

(** ** Tokens *)

Lemma forget_window_notes en s : notes s (forget_window en s).
Proof. unfold forget_window. by repeat case_goal; apply silent_notes. Qed.

Lemma invalidate_notes e reason s : notes s (invalidate e reason s).
Proof.
  unfold invalidate. destruct (entry_at e s) as [en|]; [|done]. cbv zeta.
  etrans; [|apply sendLog_notes]. etrans; [|apply notify_notes; constructor].
  - etrans; [|apply silent_notes, (wf_pushes _ _ (dropClientWatches_frame _ _))].
    exact (forget_window_notes en (upd_entry e (upd_timer timer_stop) s)).
  - destruct (te_window en); [right; apply window_info_shape|by left].
Qed.

Lemma validate_notes e w s : notes s (validate e w s).
Proof.
  unfold validate. destruct (entry_at e s) as [en|]; [|done]. cbv zeta.
  etrans; [|apply sendLog_notes]. etrans; [|apply notify_notes; constructor; apply window_info_shape].
  destruct (jm_get (windowKey w) _) as [existing|]; [|by apply silent_notes].
  destruct (decide _); [by apply silent_notes|]. exact (invalidate_notes existing superseded s).
Qed.

Lemma checkCaption_notes w s : notes s (checkCaption w s).
Proof.
  unfold checkCaption. repeat case_goal; done || apply validate_notes || apply invalidate_notes.
Qed.

Lemma deadline_fires_notes e s : notes s (deadline_fires e s).
Proof.
  unfold deadline_fires, onTokenDeadline. repeat case_goal; [|by apply silent_notes..].
  etrans; [|apply invalidate_notes]. by apply silent_notes.
Qed.

Lemma dropClientTokens_notes id s : notes s (dropClientTokens id s).
Proof.
  unfold dropClientTokens. cbv zeta. etrans; [|case_goal; [apply sendLog_notes|done]].
  etrans; [|apply silent_notes, (wf_pushes _ _ (dropClientWatches_frame _ _))].
  apply (foldl_rel notes). intros s' [e en].
  exact (forget_window_notes en (upd_entry e (upd_timer timer_stop) s')).
Qed.

(** ** Signals *)

Context `{!QTimerLaws E, !SignalLaws E}.

(** The same, in states that satisfy the invariant. *)
Definition told s s' : Prop := inv s → inv s' ∧ notes s s'.

#[export] Instance told_preorder : PreOrder told.
Proof.
  split; [done|]. intros s1 s2 s3 H12 H23 H1. destruct (H12 H1) as [H2 Hn].
  destruct (H23 H2) as [H3 Hn']. split; [done|by etrans].
Qed.

Lemma good_told s s' : good s s' → (inv s → notes s s') → told s s'.
Proof. intros Hg Hn Hi. split; [by apply Hg|by apply Hn]. Qed.

(** A connected listener names a property that can be watched. *)
Lemma connected_watchable sg h s :
  inv s → SlotWindowProp h ∈ slots s sg → wh_prop h ∈ WATCH_PROPS.
Proof.
  intros Hi Hin. destruct (proj1 (wi_slot _ (inv_watch _ Hi) _ _) Hin) as (_ & st & Hst & Hh).
  destruct (wi_state _ (inv_watch _ Hi) _ _ Hst) as (e & en & _ & _ & _ & _ & Hall).
  by destruct (Hall _ _ Hh) as (_ & _ & _ & _ & [? _] & _).
Qed.

Lemma connected_ws_watchable sg h s :
  inv s → SlotWorkspaceProp h ∈ slots s sg → sh_prop h ∈ WORKSPACE_WATCH_PROPS.
Proof.
  intros Hi Hin. destruct (proj1 (si_slot _ (inv_wspace _ Hi) _ _) Hin) as (_ & hs & Hst & Hh).
  destruct (si_state _ (inv_wspace _ Hi) _ _ Hst) as (_ & _ & Hall).
  by destruct (Hall _ _ Hh) as (_ & _ & ? & _).
Qed.

Lemma run_slot_told x em sg s : is_connected sg x s = true → told s (run_slot x em s).
Proof.
  intros Hc%bool_decide_eq_true. apply good_told; [apply run_slot_good|]. intros Hi.
  assert (Hadd : ∀ w, notes s (onWindowAdded w s)) by
    (intros w; exact (checkCaption_notes w (connect _ _ s))).
  assert (Hremove : ∀ w, notes s (onWindowRemoved w s)) by
    (intros w; unfold onWindowRemoved; case_goal; [apply invalidate_notes|done]).
  destruct x as [| | | | |w|h|h], em; cbn [run_slot]; auto using checkCaption_notes;
    try (by apply silent_notes); apply notify_notes; constructor;
    eauto using connected_watchable, connected_ws_watchable.
Qed.

Lemma deliver_told W em s : told s (deliver W em s).
Proof.
  etrans; [|apply (foldl_rel told); intros s' x;
    destruct (is_connected _ x s') eqn:Hx; [by eapply run_slot_told|done]].
  apply good_told; [apply quiet_good, world_quiet|]. intros _. by apply silent_notes.
Qed.

Lemma assign_told a s : told s (snd (assign_property a s)).
Proof.
  apply good_told; [apply assign_property_good|]. unfold assign_property.
  destruct (assign _ a) as [[ems W]|error]; [|done]. intros Hi.
  etrans; [|by apply silent_notes].
  apply (foldl_rel told); [|exact Hi]. intros. apply deliver_told.
Qed.

(** ** Methods *)

Lemma generateToken_notes gas s : notes s (snd (generateToken gas s)).
Proof.
  revert s. induction gas as [|gas IH]; intros s; [done|]. cbn [generateToken]. cbv zeta.
  case_goal; [by apply silent_notes|]. etrans; [|apply IH]. by apply silent_notes.
Qed.

Lemma token_request_notes gas timeout c s : notes s (snd (token_request gas timeout c s)).
Proof.
  apply (bind_rel notes); [apply generateToken_notes|]. intros token s1 _.
  etrans; [|apply sendLog_notes]. by apply silent_notes.
Qed.

Lemma methods_told gas name f params c s :
  known c s → jm_get name (methods gas) = Some f → told s (snd (f params c s)).
Proof.
  intros Hk Hf. apply good_told; [by eapply methods_good|]. intros Hi.
  assert (Hlog : ∀ l m s, told s (sendLog l m s)).
  { intros l m s0. apply good_told; [apply quiet_good, sendLog_quiet|]. intros _. apply sendLog_notes. }
  destruct (methods_effect gas name f params c s Hf).
  - done.
  - apply (windows_update_rel told); [|done..]. intros w pv s' _ _.
    unfold applyUpdate. repeat case_decide; apply assign_told.
  - apply (window_watch_rel notes). intros w p b s' _ _ _.
    split; [apply silent_notes|]; apply setWatch_frame.
  - apply token_request_notes.
  - apply (workspace_update_rel told); [|done..]. intros pv s'.
    unfold ws_applyUpdate. case_decide; apply assign_told.
  - apply (workspace_watch_rel notes). intros. apply silent_notes, ws_setWatch_frame.
Qed.

(** ** The loops *)

Context {J : JsonRpcApi E} `{!JsonRpcLaws E J} (gas : nat).

Lemma receive_notes message c s :
  inv s → known c s → notes s (snd (receive (methods gas) message c s)).
Proof.
  intros Hi Hk. pose proof (receive_calls (methods gas) message c s) as Hrtc.
  induction Hrtc as [s|s1 s2 s3 Hcall _ IH]; [done|].
  assert (Hg : good s1 s2).
  { destruct Hcall; [by eapply methods_good|apply errorListener_good]. }
  etrans; [|apply IH; [by apply Hg|by eapply known_good]].
  destruct Hcall as [name f params s1 Hf|message' [|] s1];
    [by eapply methods_told|done|apply sendLog_notes].
Qed.

Lemma run_sleep_notes ms c s : notes s (run_sleep ms c s).
Proof. etrans; [exact (emit_notes (ESleep ms) s eq_refl)|by apply silent_notes]. Qed.

Lemma run_batch_notes c batch s : inv s → known c s → notes s (run_batch gas c batch s).
Proof.
  intros Hi Hk. destruct batch as [|message batch].
  { apply run_sleep_notes. }
  unfold run_batch. pose proof (receive_notes message c s Hi Hk) as Hr.
  destruct (receive _ _ _ _) as [r s1]. etrans; [exact Hr|by apply silent_notes].
Qed.

Lemma run_head_notes c s : notes s (run_head c s).
Proof.
  unfold run_head. case_goal; [|by apply silent_notes].
  etrans; [exact (emit_notes (ECall (poll_client_call (conn_id c))) s eq_refl)|by apply silent_notes].
Qed.

Lemma run_polled_notes c r s : inv s → known c s → notes s (run_polled gas c r s).
Proof.
  intros Hi Hk. unfold run_polled.
  assert (Hwarn : ∀ level m, notes s (run_sleep DBUS_RETRY_DELAY c (client_log level (conn_id c) m s))).
  { intros level m. etrans; [|apply run_sleep_notes]. apply sendLog_notes. }
  destruct (poll_outcome r) as [v|e|]; [..|done]; (case_goal; [by apply silent_notes|]); [|apply Hwarn].
  destruct v; try apply Hwarn. by apply run_batch_notes.
Qed.

Lemma process_event_notes event s : notes s (process_event event s).
Proof.
  unfold process_event. repeat (case_goal; try done).
  - unfold onClientConnected. case_goal; [done|]. etrans; [|apply run_head_notes].
    etrans; [|apply sendLog_notes]. by apply silent_notes.
  - unfold onClientDisconnected. case_goal; [|done].
    etrans; [|apply sendLog_notes]. etrans; [|apply silent_notes, (wsf_pushes _ _ (ws_drop_frame _ _))].
    etrans; [|apply dropClientTokens_notes]. by apply silent_notes.
Qed.

Lemma control_head_notes s : notes s (control_head s).
Proof. etrans; [exact (emit_notes (ECall poll_daemon_call) s eq_refl)|by apply silent_notes]. Qed.

Lemma control_sleep_notes ms s : notes s (control_sleep ms s).
Proof. etrans; [exact (emit_notes (ESleep ms) s eq_refl)|by apply silent_notes]. Qed.

Lemma control_polled_notes r s : notes s (control_polled r s).
Proof.
  unfold control_polled. destruct (poll_outcome r) as [v|e|]; [..|done].
  - destruct v; try apply control_head_notes; (etrans; [|apply control_sleep_notes]);
      [apply sendLog_notes|]. apply (foldl_rel notes). intros s' event. apply process_event_notes.
  - etrans; [|apply control_sleep_notes]. apply sendLog_notes.
Qed.

Lemma settled_notes r id s :
  notes s (sendLog_settled r s) ∧ notes s (snd (push_settled id r s)).
Proof.
  destruct r as [v|e]; simpl; [|by split; apply emit_notes].
  split; [done|]. destruct v as [| | | |x| |]; try apply sendLog_notes.
  destruct x; [done|apply sendLog_notes].
Qed.

(** ** The moves *)

(** The responses that a move pushes. *)
Definition answers (m : move) s : list effect :=
  match m with
  | MvClientResponds c => map (reply c) (responded c m s ≫= response_messages)
  | _ => []
  end.

Lemma run_responded_pushed c r batch s : inv s → known c s →
  ∃ k, pushes (out (run_responded gas c r batch s)) =
    pushes (out s) ++ map (reply c) (response_messages r) ++ k ∧ Forall is_notice k.
Proof.
  intros Hi Hk. destruct r as [v|e|]; cbn [run_responded];
    [..|exists []; by rewrite app_nil_r].
  - pose proof (respond_quiet c v s) as Hq. setoid_rewrite app_assoc. rewrite <- respond_pushes.
    apply run_batch_notes; [by apply (quiet_good _ _ Hq)|by eapply known_quiet].
  - change (notes s (run_batch gas c batch (client_log "warn" (conn_id c)
      (" dispatch error: " +:+ exn_to_string e) s))).
    etrans; [apply sendLog_notes|]. apply run_batch_notes; [|done].
    by apply (quiet_good _ _ (sendLog_quiet _ _ s)).
Qed.

(** A move pushes its responses first, then notifications. *)
Lemma perform_pushed m s s' : inv s → perform gas m s = Some s' →
  ∃ l, pushes (out s') = pushes (out s) ++ answers m s ++ l ∧ Forall is_notice l.
Proof.
  intros Hi. destruct m as [W|W em|e|r| |c r|c|c|r|id r]; cbn [perform].
  7: { destruct (loops (clients s) !! c) as [[|r batch| |]|] eqn:Hl; try done. intros [= <-].
    pose proof (running_known c _ s Hi Hl) as Hk. cbn [answers responded].
    rewrite decide_True, Hl by done.
    destruct (run_responded_pushed c r batch s Hi Hk) as (k & Hp & Hall). exists k.
    split; [|done]. rewrite Hp. by destruct r; cbn [mbind list_bind]; rewrite ?app_nil_r. }
  all: change (answers _ s) with (@nil effect); intros Hm; change (notes s s'); revert Hm;
    repeat (case_goal; try done); intros [= <-].
  - by apply silent_notes.
  - by apply deliver_told.
  - apply deadline_fires_notes.
  - apply control_polled_notes.
  - apply control_head_notes.
  - apply run_polled_notes; [done|by eapply running_known].
  - apply run_head_notes.
  - apply (settled_notes r (NInt 0) s).
  - apply (settled_notes r id s).
Qed.

Lemma loaded_pushes W sg : pushes (out (load_script (init_state W sg))) = [].
Proof.
  rewrite (ld_out _ _ _ (load_script_loaded (init_state W sg))). unfold load_output, block_log.
  rewrite !pushes_app. by repeat case_goal.
Qed.

(** C9: Over any run, what the script has pushed is made up of the responses,
    in the order in which its loops looked at the outcomes of the requests, and
    of notifications in the shape of doc/RPC.md: no other message ever reaches
    a client. *)
Theorem pushes_are_documented ms W sg s :
  (∀ x, sig_slots sg x = []) → perform_all gas ms (load_script (init_state W sg)) = Some s →
  ∃ notices, interleaved (along answers gas ms (load_script (init_state W sg))) notices (pushes (out s)) ∧
    Forall is_notice notices.
Proof.
  intros Hsg Hms. pose proof (load_script_inv W sg Hsg) as Hi.
  assert (∃ notices l, pushes (out s) = pushes (out (load_script (init_state W sg))) ++ l ∧
    interleaved (along answers gas ms (load_script (init_state W sg))) notices l ∧
    Forall is_notice notices) as (notices & l & Hp & Hl & Hall).
  { clear Hsg. revert Hi Hms. generalize (load_script (init_state W sg)) as s0.
    induction ms as [|m ms IH]; intros s0 Hi; cbn [perform_all along].
    { intros [= <-]. exists [], []. rewrite app_nil_r. by repeat constructor. }
    destruct (perform gas m s0) as [s1|] eqn:Hm; [|done]. cbn [mbind option_bind]. intros Hms.
    destruct (perform_pushed m s0 s1 Hi Hm) as (k & Hk & Hk').
    destruct (IH s1) as (notices & l & Hp & Hl & Hall); [|done|].
    { apply (step_good gas s0 s1); [by eapply perform_step|done]. }
    exists (k ++ notices), (answers m s0 ++ k ++ l). rewrite Hp, Hk, <- !app_assoc.
    split; [done|]. split; [|by apply Forall_app].
    pose proof (interleaved_app _ _ _ _ _ _ (interleaved_left (answers m s0))
      (interleaved_app _ _ _ _ _ _ (interleaved_right k) Hl)) as H. exact H. }
  exists notices. split; [|done]. rewrite Hp, loaded_pushes. exact Hl.
Qed.
End Notices.

Lemma scenario_performed ms : performed ms = true →
  perform_all sc_gas ms (load_script (init_state (sc_world "terminal") [])) = Some (scenario ms).
Proof. unfold performed, scenario. by intros [s ->]%bool_decide_eq_true. Qed.

Example sc_answers : length (along answers sc_gas sc_listening
  (load_script (init_state (sc_world "terminal") []))) = 4%nat.
Proof. evaluate. Qed.

Lemma pushes_are_documented_witness :
  length (pushes (out sc_watching)) = 5%nat ∧
  ∃ notices, interleaved (along answers sc_gas sc_listening
      (load_script (init_state (sc_world "terminal") []))) notices (pushes (out sc_watching)) ∧
    Forall is_notice notices.
Proof.
  split; [evaluate|].
  assert (performed sc_listening = true) as Hp by evaluate.
  exact (pushes_are_documented sc_gas sc_listening (sc_world "terminal") [] sc_watching
    (λ _, eq_refl) (scenario_performed sc_listening Hp)).
Defined.
