(* ===== verification/RoundTrip.v ===== *)
(** * A client's requests and the responses it reads

    StreamProps.v takes a client's messages to the JSON-RPC server, Responses.v
    the outcomes to the script's pushes, and TransportProps.v the pushes to the
    client's socket.  [client_is_answered] is the whole way round. *)
From S2P Require Export StreamProps Responses.

(** What a call of the script pushes to the client [id]. *)
Definition payload_to (id : number) (e : effect) : option string :=
  match e with
  | ECall (DbusCall _ path _ method _ [Str text]) =>
    if decide (path = client_path id ∧ method = "push") then Some text else None
  | _ => None
  end.

(** The payloads of a run, in order. *)
Definition pushed_to (id : number) (l : list effect) : list string := omap (payload_to id) (pushes l).

Lemma sublist_filter {A} (P : A → Prop) `{∀ x, Decision (P x)} (l k : list A) :
  l `sublist_of` k → filter P l `sublist_of` filter P k.
Proof.
  induction 1 as [|x l k _ IH|x l k _ IH]; [done|rewrite !filter_cons; case_decide..]; try done;
    rewrite ?filter_cons; by constructor.
Qed.

Lemma sublist_map {A B} (f : A → B) (l k : list A) : l `sublist_of` k → map f l `sublist_of` map f k.
Proof. induction 1; cbn; by constructor. Qed.

Section RoundTrip.
Context {E : Env} {J : JsonRpcApi E}.
Context `{!QTimerLaws E, !SignalLaws E, !JsonRpcLaws E J, !ControlJsonLaws E, !MessageJsonLaws E}.
Context (gas : nat).
Implicit Types (s : state) (k : conn).

Lemma pushed_replies k l : omap (payload_to (conn_id k)) (map (reply k) l) = map JSON_stringify l.
Proof.
  induction l as [|v l IH]; [done|]. cbn [map omap list_omap]. unfold reply at 1, push_call.
  cbn [payload_to]. rewrite decide_True by done. by rewrite IH.
Qed.

(** The texts of what an outcome sends. *)
Definition response_texts (r : outcome (option value)) : list string :=
  map JSON_stringify (response_messages r).

Lemma responses_pushed_to k ms s s' : inv s → perform_all gas ms s = Some s' →
  along (responded k) gas ms s ≫= response_texts `sublist_of` pushed_to (conn_id k) (out s').
Proof.
  intros Hi Hms. pose proof (responses_pushed gas k ms s s' Hi Hms) as Hsub.
  apply (sublist_omap (payload_to (conn_id k))) in Hsub. rewrite omap_app, pushed_replies in Hsub.
  unfold pushed_to. etrans; [|exact Hsub]. apply sublist_inserts_l.
  clear. induction (along _ _ _ _) as [|r l IH]; [done|]. cbn [mbind list_bind].
  rewrite map_app. by apply sublist_app.
Qed.

Context `{MachineLaws}.
Context (id fd rx_cap tx_cap : Z) (sn : session) (es : list session_event).
Context (c : connection) (h : history).
Hypothesis (Hfd : 0 ≤ fd) (Hrx : buffer_cap_ok rx_cap) (Htx : buffer_cap_ok tx_cap).
Hypothesis Hnew : session_new id fd rx_cap tx_cap 0 0 = Returns sn.
Hypothesis Hrun : session_run (conn_new sn) no_history es = Returns (c, h).

(** C8: A client is answered, in order.  As in [requests_reach_script]; and the
    session has accepted the script's pushes for the client, in order, and sent
    them.  Then the outcomes that the script's loop has looked at are those of
    the client's first messages, one each and in order; once the loop awaits
    nothing and nothing is queued or in transit, they are those of all its
    messages.  Of the frames that the client reads, some are the responses that
    those outcomes give rise to, in order (the others are notifications). *)
Theorem client_is_answered f msgs W sg ms s k (texts transit : list string) :
  framed (arrived h) msgs → conn_inbound c = [] → Forall (json_payload f) msgs →
  (∀ x, sig_slots sg x = []) → perform_all gas ms (load_script (init_state W sg)) = Some s →
  is_alive k s = true →
  replies k ms = Str <$> texts → Forall is_reply texts →
  filter (λ t, is_batch_text t = true) texts ++ transit = batch_texts (ss_out (conn_session c)) →
  accepted h = map chars (pushed_to (conn_id k) (out s)) →
  tx_pending (cl_tx (ss_client (conn_session c))) = false →
  let outcomes := along (responded k) gas ms (load_script (init_state W sg)) in
  let answers := map chars (outcomes ≫= response_texts) in
  Forall2 (outcome_of gas k) (take (length outcomes) (map f msgs)) outcomes ∧
  (held k s = None → transit = [] → rx_messages (session_rx (conn_session c)) = 0 →
   length outcomes = length msgs) ∧
  filter (λ m, legal (zlen m) = true) answers `sublist_of` Frames.payloads (Frames.decode (conn_sent c)).
Proof.
  intros Hms Hread Hf Hsg Hscript Ha Hreplies Htexts Hout Hacc Htx' outcomes answers.
  pose proof (load_script_inv W sg Hsg) as Hi. set (s0 := load_script (init_state W sg)) in *.
  destruct (framed_delivered id fd rx_cap tx_cap sn es c h Hfd Hrx Htx Hnew Hrun msgs Hms Hread)
    as (delivered & queued & -> & Hcar & Hq).
  apply Forall_app in Hf as [Hf _].
  pose proof (delivered_handed gas f _ delivered W sg ms s k texts transit Hcar Hf Hsg Hscript Ha
    Hreplies Htexts Hout) as Hall. fold s0 in Hall.
  destruct (outcomes_follow gas k ms s0 s Hi Hscript) as (new & Hnew' & Hfollow).
  assert (awaited k s0 = []) as Hnil by (unfold awaited, s0; by rewrite loaded_held).
  rewrite Hnil in Hnew'. cbn [app] in Hnew'. subst new. fold outcomes in Hfollow.
  pose proof (Forall2_length _ _ _ Hfollow) as Hlen. rewrite length_app in Hlen.
  split; [|split].
  - rewrite map_app, <- Hall, <- app_assoc, take_app_le by lia.
    apply Forall2_app_inv_r in Hfollow as (l1 & l2 & Hl1 & _ & ->).
    by rewrite (take_app_length' l1 l2) by (symmetry; by eapply Forall2_length).
  - intros Hheld -> Hempty. apply (f_equal length) in Hall.
    rewrite !length_app, !length_map in *. unfold awaited, waiting in *. rewrite Hheld in *.
    rewrite (rq_messages _ _ _ Hq) in Hempty. apply zlen_0 in Hempty as ->. cbn in *. lia.
  - destruct (sent_frames id fd rx_cap tx_cap sn es c h Hfd Hrx Htx Hnew Hrun) as (rest & Hsent & Hle & Hrest).
    destruct (decode_sent _ _ _ Hle Hsent) as [_ ->]; [|by apply Hrest]. rewrite Hacc. apply sublist_filter, sublist_map.
    by apply responses_pushed_to.
Qed.
End RoundTrip.

(** ** Witness *)

(** A request for a method that there is not, and its error. *)
Definition ref_answer : string :=
  ref_stringify (error_response (Num (NInt 1)) (-32601) "Method not found" Undefined).

Definition ref_trip_events : list session_event :=
  [ Poll 1 (inr 20000) ref_event_loop;
    Arrive (frame (ref_request "a"));
    Io EPOLLIN [Ready 4; Ready 64; ReadFailed EAGAIN] [];
    Push 2 (inr (chars ref_answer));
    Io EPOLLOUT [] [Accepted 50; SendFailed EAGAIN];
    Io EPOLLOUT [] [Accepted 200] ].

Lemma ref_trip_reached : ∃ sn c h, session_new 1 7 256 256 0 0 = Returns sn ∧
  session_run (conn_new sn) no_history ref_trip_events = Returns (c, h) ∧
  arrived h = frame (ref_request "a") ∧ conn_inbound c = [] ∧
  batch_texts (ss_out (conn_session c)) = [ref_array "a"] ∧
  accepted h = [chars ref_answer] ∧ tx_pending (cl_tx (ss_client (conn_session c))) = false.
Proof.
  destruct (ref_reached_with 256 ref_trip_events) as (sn & c & h & Hsn & Hrun & Hafter);
    [unfold buffer_cap_ok, kMinBufferCap, max_capacity; lia|].
  exists sn, c, h. split; [exact Hsn|]. split; [exact Hrun|]. split_and!.
  - apply (Hafter _ (λ _ h, arrived h)). vm_compute. reflexivity.
  - apply (Hafter _ (λ c _, conn_inbound c)). vm_compute. reflexivity.
  - apply (Hafter _ (λ c _, batch_texts (ss_out (conn_session c)))). vm_compute. reflexivity.
  - apply (Hafter _ (λ _ h, accepted h)). vm_compute. reflexivity.
  - apply (Hafter _ (λ c _, tx_pending (cl_tx (ss_client (conn_session c))))). vm_compute. reflexivity.
Qed.

Definition ref_trip_moves : list (move (E := RefEnv)) :=
  ref_stream_moves ++ [MvClientResponds (Env.Conn 1 (NInt 1))].

Abbreviation ref_trip_start := (load_script (init_state (E := RefEnv) (sc_world "x") [])).
Abbreviation ref_trip_script := (perform_all sc_gas ref_trip_moves ref_trip_start).
Abbreviation ref_trip_outcomes :=
  (along (responded (Env.Conn 1 (NInt 1))) sc_gas ref_trip_moves ref_trip_start).

Lemma ref_trip_script_runs : ∃ s, ref_trip_script = Some s ∧
  is_alive (Env.Conn 1 (NInt 1)) s = true ∧ pushed_to (NInt 1) (out s) = [ref_answer].
Proof.
  assert (bool_decide (is_Some ref_trip_script) = true) as [s Hs]%bool_decide_eq_true
    by (vm_compute; reflexivity).
  exists s. split; [exact Hs|]. split; apply (inj Some).
  - etrans; [symmetry; exact (f_equal (option_map (is_alive (Env.Conn 1 (NInt 1)))) Hs)|].
    vm_compute. reflexivity.
  - etrans; [symmetry; exact (f_equal (option_map (λ s, pushed_to (NInt 1) (out s))) Hs)|].
    vm_compute. reflexivity.
Qed.

Lemma client_is_answered_witness : ∃ s c,
  ref_trip_script = Some s ∧
  let answers := map chars (ref_trip_outcomes ≫= response_texts) in
  Forall2 (outcome_of sc_gas (Env.Conn 1 (NInt 1)))
    (take (length ref_trip_outcomes) (map ref_parsed [ref_request "a"])) ref_trip_outcomes ∧
  (held (Env.Conn 1 (NInt 1)) s = None → @nil string = [] →
   rx_messages (session_rx (conn_session c)) = 0 →
   length ref_trip_outcomes = length [ref_request "a"]) ∧
  filter (λ m, legal (zlen m) = true) answers
    `sublist_of` Frames.payloads (Frames.decode (conn_sent c)).
Proof.
  destruct ref_trip_reached as (sn & c & h & Hnew & Hrun & Harr & Hin & Hout & Hacc & Htx).
  destruct ref_trip_script_runs as (s & Hs & Ha & Hpush).
  exists s, c. split; [exact Hs|].
  refine (client_is_answered (E := RefEnv) sc_gas 1 7 256 256 sn ref_trip_events c h _ _ _ Hnew Hrun
    ref_parsed [ref_request "a"] (sc_world "x") [] ref_trip_moves s (Env.Conn 1 (NInt 1))
    [ref_array "a"] [] _ Hin _ _ Hs Ha _ _ _ _ Htx).
  - lia.
  - unfold buffer_cap_ok, kMinBufferCap, max_capacity. lia.
  - unfold buffer_cap_ok, kMinBufferCap, max_capacity. lia.
  - rewrite Harr. rewrite <- (app_nil_r (frame _)).
    apply framed_legal; [vm_compute; reflexivity|apply framed_nil].
  - constructor; [|constructor]. exact (proj1 (proj1 (Forall_cons _ _ _) ref_requests_json)).
  - done.
  - reflexivity.
  - constructor; [|constructor]. left. vm_compute. reflexivity.
  - rewrite Hout. vm_compute. reflexivity.
  - rewrite Hacc. change (conn_id (Env.Conn 1 (NInt 1))) with (NInt 1). by rewrite Hpush.
Defined.
