(* ===== verification/NativeHost.v ===== *)
(** * native/kwin-api-host.py: the bridge to the browser

    The host is started by the browser: it forwards the frames of its stdin to
    the daemon's socket and the frames of the socket to its stdout.  Firefox
    frames its messages as the daemon does, in native byte order.

    A Python function that may raise returns a sum with the exception;
    [forward] is the inner [while True] of [bridge], which is written twice
    there, once per direction.  What [select], [os.read], [recv] and the writes
    do are the events. *)
From S2P Require Export Frames.

Definition MAX_MESSAGE : Z := 1000000.

Inductive py_exn :=
| ValueError (what : string)
| struct_error
| OSError.

(** How a loop ends. *)
Inductive py_end :=
| Broke
| Raised (e : py_exn)
| Loops.

(** [bridge] runs, has returned an exit code, or was left by an exception. *)
Inductive host_end :=
| Running
| Returned (code : Z)
| Uncaught (e : py_exn)
| Hangs.

#[export] Instance py_exn_eq_dec : EqDecision py_exn.
Proof. solve_decision. Defined.
#[export] Instance py_end_eq_dec : EqDecision py_end.
Proof. solve_decision. Defined.
#[export] Instance host_end_eq_dec : EqDecision host_end.
Proof. solve_decision. Defined.

Definition frame_too_large (n : Z) : string :=
  "frame too large: " +:+ pretty n +:+ " bytes (limit " +:+ pretty MAX_MESSAGE +:+ ")".

(** The locals of [bridge], what it has written, and its lines on stderr. *)
Record bridge_state := Bridge {
  from_firefox : bytes;
  from_daemon : bytes;
  to_daemon : bytes;
  to_firefox : bytes;
  host_log : list string;
  host_state : host_end;
}.

(** [sel.select ()] says that stdin or the socket is readable.  [None] is an
    [OSError]; a write that fails has sent some bytes before. *)
Inductive host_event :=
| StdinReady (read : option bytes) (writes : list (option nat))
| SocketReady (read : option bytes) (writes : list (option nat)).

Section host.
Context `{Machine}.

(** ** Frames *)

Definition pack_frame (payload : bytes) : bytes + py_exn :=
  if zlen payload <? 2 ^ 32 then inl (u32_bytes (zlen payload) ++ payload) else inr struct_error.

Definition extract_frame (buf : bytes) : (option bytes * bytes) + py_exn :=
  if zlen buf <? 4 then inl (None, buf) else
  let n := u32_of_bytes (ztake 4 buf) in
  if MAX_MESSAGE <? n then inr (ValueError (frame_too_large n))
  else if zlen buf <? 4 + n then inl (None, buf)
  else inl (Some (ztake n (zdrop 4 buf)), zdrop (4 + n) buf).

(** ** The bridge *)

(** Move the complete frames of [buf] to the peer, which has had [out]. *)
Fixpoint forward (fuel : nat) (buf out : bytes) (writes : list (option nat))
    : py_end * bytes * bytes :=
  match fuel with
  | O => (Loops, buf, out)
  | S fuel =>
    match extract_frame buf with
    | inr e => (Raised e, buf, out)
    | inl (None, buf) => (Broke, buf, out)
    | inl (Some payload, buf) =>
      match pack_frame payload, writes with
      | inr e, _ => (Raised e, buf, out)
      | inl data, Some n :: _ => (Raised OSError, buf, out ++ take n data)
      | inl data, _ => forward fuel buf (out ++ data) (tail writes)
      end
    end
  end.

(** Every frame takes four bytes or more. *)
Definition forward_fuel (buf : bytes) : nat := S (length buf).

Definition host_returns (code : Z) (line : string) (h : bridge_state) : bridge_state :=
  Bridge (from_firefox h) (from_daemon h) (to_daemon h) (to_firefox h)
    (host_log h ++ [line]) (Returned code).

Definition host_ends (e : host_end) (h : bridge_state) : bridge_state :=
  Bridge (from_firefox h) (from_daemon h) (to_daemon h) (to_firefox h) (host_log h) e.

(** The [except] clauses: of [extract_frame], and of the whole loop. *)
Definition host_end_of (source : string) (e : py_end) (h : bridge_state) : bridge_state :=
  match e with
  | Broke => h
  | Raised (ValueError what) =>
    host_returns 1 ("bad frame from " +:+ source +:+ ": " +:+ what +:+ "; exiting") h
  | Raised OSError => host_returns 0 "connection lost; exiting" h
  | Raised e => host_ends (Uncaught e) h
  | Loops => host_ends Hangs h
  end.

Definition stdin_ready (read : option bytes) (writes : list (option nat)) (h : bridge_state) : bridge_state :=
  match read with
  | None => host_returns 0 "connection lost; exiting" h
  | Some [] => host_returns 0 "stdin EOF — Firefox closed the port; exiting" h
  | Some data =>
    let buf := from_firefox h ++ data in
    let '(e, buf, out) := forward (forward_fuel buf) buf (to_daemon h) writes in
    host_end_of "Firefox" e
      (Bridge buf (from_daemon h) out (to_firefox h) (host_log h) (host_state h))
  end.

Definition socket_ready (read : option bytes) (writes : list (option nat)) (h : bridge_state) : bridge_state :=
  match read with
  | None => host_returns 0 "connection lost; exiting" h
  | Some [] => host_returns 0 "socket EOF — kwin-api-server closed; exiting" h
  | Some data =>
    let buf := from_daemon h ++ data in
    let '(e, buf, out) := forward (forward_fuel buf) buf (to_firefox h) writes in
    host_end_of "daemon" e
      (Bridge (from_firefox h) buf (to_daemon h) out (host_log h) (host_state h))
  end.

Definition host_step (h : bridge_state) (e : host_event) : bridge_state :=
  match host_state h with
  | Running =>
    match e with
    | StdinReady read writes => stdin_ready read writes h
    | SocketReady read writes => socket_ready read writes h
    end
  | _ => h
  end.

Definition host_new (log : list string) : bridge_state := Bridge [] [] [] [] log Running.

(** [connect] is the text of the error of [sock.connect], if it fails. *)
Definition bridge (sock_path : string) (connect : option string) (es : list host_event) : bridge_state :=
  match connect with
  | Some exc =>
    host_returns 1 "is kwin-api-server running? (systemctl --user status kwin-api-server.service)"
      (host_new ["cannot connect to " +:+ sock_path +:+ ": " +:+ exc])
  | None => foldl host_step (host_new ["connected to " +:+ sock_path]) es
  end.

(** ** [main] *)

(** [os.path.join] with a relative second part. *)
Definition path_join (a b : string) : string :=
  match last (chars a) with
  | None => b
  | Some "/"%char => a +:+ b
  | Some _ => a +:+ "/" +:+ b
  end.

Definition DEFAULT_SOCKET_REL : string := path_join "kwin-api-server" "service.socket".

(** [os.environ.get (name)], where an empty value counts as none. *)
Definition getenv_or (env : gmap string string) (name fallback : string) : string :=
  match env !! name with
  | None | Some EmptyString => fallback
  | Some value => value
  end.

Definition default_socket_path (env : gmap string string) (uid : Z) : string :=
  path_join (getenv_or env "XDG_RUNTIME_DIR" ("/run/user/" +:+ pretty uid)) DEFAULT_SOCKET_REL.

(** [exists_] is [os.path.exists (sock_path)]. *)
Definition check (sock_path : string) (exists_ : bool) (connect : option string) : bridge_state :=
  let lines := ["check: socket path = " +:+ sock_path] in
  if negb exists_ then
    host_returns 1 ("check: FAIL — " +:+ sock_path
      +:+ " does not exist (is kwin-api-server running?)") (host_new lines)
  else
    match connect with
    | None => host_returns 0 ("check: OK — connected to " +:+ sock_path) (host_new lines)
    | Some exc => host_returns 1 ("check: FAIL — cannot connect to " +:+ sock_path +:+ ": " +:+ exc)
        (host_new lines)
    end.

Definition main (argv : list string) (env : gmap string string) (uid : Z)
    (exists_ : bool) (connect : option string) (es : list host_event) : bridge_state :=
  let sock_path := getenv_or env "KWIN_API_SOCKET" (default_socket_path env uid) in
  match argv with
  | "--check" :: _ => check sock_path exists_ connect
  | _ => bridge sock_path connect es
  end.

(** ** Frames, properties *)

(** What is held back is the beginning of one frame. *)
Definition incomplete (buf : bytes) : Prop := extract_frame buf = inl (None, buf).

Lemma extract_frame_frame buf payload rest : extract_frame buf = inl (Some payload, rest) →
  buf = frame payload ++ rest ∧ zlen payload ≤ MAX_MESSAGE.
Proof.
  unfold extract_frame. destruct (Z.ltb_spec (zlen buf) 4) as [|Hlen]; [done|].
  destruct (Z.ltb_spec MAX_MESSAGE (u32_of_bytes (ztake 4 buf))) as [|Hmax]; [done|].
  destruct (Z.ltb_spec (zlen buf) (4 + u32_of_bytes (ztake 4 buf))) as [|Hn]; [done|].
  intros [= <- <-].
  assert (zlen (ztake 4 buf) = 4) as Hhead by (rewrite zlen_ztake; lia).
  pose proof (u32_of_bytes_bound _ Hhead) as Hb.
  set (n := u32_of_bytes (ztake 4 buf)) in *.
  assert (zlen (ztake n (zdrop 4 buf)) = n) as Hp
    by (rewrite zlen_ztake, zlen_zdrop by lia; lia).
  split; [|by rewrite Hp]. unfold frame. rewrite Hp. unfold n. rewrite u32_bytes_of_bytes by done.
  fold n. unfold ztake, zdrop. rewrite (Z2Nat.inj_add 4 n), Nat.add_comm by lia.
  rewrite <- app_assoc, <- skipn_skipn, !take_drop. done.
Qed.

Lemma extract_frame_rest buf rest : extract_frame buf = inl (None, rest) → rest = buf.
Proof. unfold extract_frame. repeat case_match; congruence. Qed.

Lemma pack_frame_frame payload : zlen payload ≤ MAX_MESSAGE → pack_frame payload = inl (frame payload).
Proof. intros Hp. unfold pack_frame, MAX_MESSAGE in *. by rewrite (proj2 (Z.ltb_lt _ _)) by lia. Qed.

Lemma frame_length payload : length (frame payload) = (4 + length payload)%nat.
Proof.
  unfold frame. rewrite length_app. pose proof (zlen_u32_bytes (zlen payload)) as Hu.
  unfold zlen at 1 in Hu. lia.
Qed.

(** A header alone, or with a part of its payload, carries no message. *)
Lemma incomplete_payloads buf ps k : incomplete buf →
  payloads (decode_from (Decoded (InHeader []) ps k) buf) = ps.
Proof.
  unfold incomplete, extract_frame. destruct (Z.ltb_spec (zlen buf) 4) as [Hlen|Hlen].
  { intros _. rewrite decode_header_part; [done|]. rewrite zlen_nil. unfold kHeaderLen. lia. }
  destruct (Z.ltb_spec MAX_MESSAGE (u32_of_bytes (ztake 4 buf))) as [|Hmax]; [done|].
  destruct (Z.ltb_spec (zlen buf) (4 + u32_of_bytes (ztake 4 buf))) as [Hn|]; [|done]. intros _.
  assert (zlen (ztake 4 buf) = 4) as Hhead by (rewrite zlen_ztake; lia).
  assert (buf = ztake 4 buf ++ zdrop 4 buf) as Hbuf by (symmetry; apply take_drop).
  rewrite Hbuf, decode_from_app, decode_header_end
    by (rewrite ?Hhead, ?zlen_nil; unfold kHeaderLen; lia).
  cbn [app]. set (n := u32_of_bytes (ztake 4 buf)) in *. unfold enter. cbn [payloads discarded].
  assert (zlen (zdrop 4 buf) < n) as Hlt by (rewrite zlen_zdrop by lia; lia).
  destruct (Z.eqb_spec n 0) as [Hz|]; [pose proof (zlen_nonneg (zdrop 4 buf)); lia|].
  unfold MAX_MESSAGE in Hmax. rewrite (proj2 (Z.ltb_ge _ _)) by (unfold kMaxMessageLen; lia).
  by rewrite decode_payload_part by (rewrite zlen_nil; lia).
Qed.
End host.
