(* ===== verification/NativeProps.v ===== *)
(** * Properties of the bridge, and of the browser's messages

    [bridge_forwards_verbatim] is about the host alone: in both directions it
    forwards the bytes it reads, whole frames at a time.
    [bridge_stops_at_oversized] is what it does with a frame that is too long.
    [browser_messages_reach_script] puts the host in front of the daemon and the
    script, and [pushes_reach_browser] is the way back. *)
From S2P Require Export NativeHost StreamProps.

Section host.
Context `{Machine}.

(** The frames of [input] have gone to [out]; [buf] holds the rest. *)
Definition moved (input buf out : bytes) : Prop :=
  ∃ ms, out = concat (map frame ms) ∧ Forall (λ m, zlen m ≤ MAX_MESSAGE) ms ∧
    input = out ++ buf ∧ incomplete buf.

Lemma moved_payloads input buf out : moved input buf out →
  payloads (decode out) = payloads (decode input).
Proof.
  intros (ms & Hout & Hms & -> & Hbuf). rewrite decode_app.
  destruct (decode_framed out (filter (λ m, legal (zlen m) = true) ms) [] 0) as [k Hk].
  { rewrite Hout. by apply framed_frames. }
  change (decode_from _ out) with (decode out) in Hk. rewrite Hk. by rewrite incomplete_payloads.
Qed.

Lemma moved_framed input buf out : moved input buf out → framed out (payloads (decode input)).
Proof.
  intros Hm. rewrite <- (moved_payloads _ _ _ Hm). destruct Hm as (ms & -> & Hms & _ & _).
  apply framed_frames in Hms. by rewrite (decode_framed_payloads _ _ Hms).
Qed.

(** The inner loop. *)
Lemma forward_spec fuel buf ms writes e buf' out' :
  forward fuel buf (concat (map frame ms)) writes = (e, buf', out') →
  Forall (λ m, zlen m ≤ MAX_MESSAGE) ms → (length buf < fuel)%nat →
  e ≠ Loops ∧ e ≠ Raised struct_error ∧
  out' `prefix_of` concat (map frame ms) ++ buf ∧
  (e = Broke → moved (concat (map frame ms) ++ buf) buf' out').
Proof.
  revert buf ms writes. induction fuel as [|fuel IH]; intros buf ms writes Hf Hms Hlen; [lia|].
  cbn [forward] in Hf. destruct (extract_frame buf) as [[[payload|] rest]|ex] eqn:Hx.
  - apply extract_frame_frame in Hx as [-> Hp]. rewrite pack_frame_frame in Hf by done.
    rewrite length_app, frame_length in Hlen.
    assert (concat (map frame (ms ++ [payload])) = concat (map frame ms) ++ frame payload) as Hsnoc
      by (rewrite map_app, concat_app; cbn; by rewrite app_nil_r).
    assert (forward fuel rest (concat (map frame (ms ++ [payload]))) (tail writes) = (e, buf', out') →
      e ≠ Loops ∧ e ≠ Raised struct_error ∧
      out' `prefix_of` concat (map frame ms) ++ frame payload ++ rest ∧
      (e = Broke → moved (concat (map frame ms) ++ frame payload ++ rest) buf' out')) as Hrec.
    { intros Hrec. apply IH in Hrec; [|apply Forall_app; split; [done|by constructor]|lia]. by rewrite Hsnoc, <- app_assoc in Hrec. }
    rewrite Hsnoc in Hrec. destruct writes as [|[n|] writes]; [by apply Hrec| |by apply Hrec].
    injection Hf as <- <- <-. split_and!; try done. apply prefix_app, prefix_app_r, prefix_take.
  - apply extract_frame_rest in Hx as Hrest. subst rest. injection Hf as <- <- <-.
    split_and!; try done; [by apply prefix_app_r|]. intros _. by exists ms.
  - injection Hf as <- <- <-. unfold extract_frame in Hx. repeat case_match; simplify_eq.
    split_and!; try done. by apply prefix_app_r.
Qed.

(** ** The invariant of [bridge] *)

Definition stdin_of (es : list host_event) : bytes :=
  es ≫= λ e, match e with StdinReady (Some data) _ => data | _ => [] end.
Definition socket_of (es : list host_event) : bytes :=
  es ≫= λ e, match e with SocketReady (Some data) _ => data | _ => [] end.

(** After reading [input] from the browser and [pushed] from the daemon. *)
Record bridge_holds (input pushed : bytes) (h : bridge_state) : Prop := {
  bh_state : host_state h = Running ∨ host_state h = Returned 0 ∨ host_state h = Returned 1;
  bh_daemon : to_daemon h `prefix_of` input;
  bh_firefox : to_firefox h `prefix_of` pushed;
  bh_running : host_state h = Running →
    moved input (from_firefox h) (to_daemon h) ∧ moved pushed (from_daemon h) (to_firefox h);
}.

(** However the inner loop ended. *)
Lemma end_holds source e input pushed h :
  e ≠ Loops → e ≠ Raised struct_error →
  to_daemon h `prefix_of` input → to_firefox h `prefix_of` pushed → host_state h = Running →
  (e = Broke → moved input (from_firefox h) (to_daemon h) ∧ moved pushed (from_daemon h) (to_firefox h)) →
  bridge_holds input pushed (host_end_of source e h).
Proof. intros ?? Hd Hf Hs Hm. destruct e as [|[]|]; try done; split; cbn; auto; congruence. Qed.

Lemma stopped input pushed more more' h : bridge_holds input pushed h → host_state h ≠ Running →
  bridge_holds (input ++ more) (pushed ++ more') h.
Proof. intros [Hst Hd Hf _] Hn. split; [done|by apply prefix_app_r..|done]. Qed.

Lemma returns_holds code line input pushed h : bridge_holds input pushed h → code = 0 ∨ code = 1 →
  bridge_holds input pushed (host_returns code line h).
Proof. intros [_ Hd Hf _] Hc. split; cbn; try done. right. by destruct Hc as [->| ->]; [left|right]. Qed.

Lemma stdin_ready_holds input pushed h read writes :
  bridge_holds input pushed h → host_state h = Running →
  bridge_holds (input ++ default [] read) pushed (stdin_ready read writes h).
Proof.
  intros Hh Hr. unfold stdin_ready. destruct read as [data|];
    [|rewrite app_nil_r; apply returns_holds; auto].
  pose proof Hh as [_ Hd Hf Hrun].
  destruct (Hrun Hr) as [(ms & Hout & Hms & -> & Hbuf) Hm].
  destruct data as [|b data]; [rewrite app_nil_r; by apply returns_holds; [|left]|].
  set (d := b :: data). cbn [default id].
  destruct (forward _ _ _ _) as [[e buf] out] eqn:Hfw. rewrite Hout in Hfw.
  apply forward_spec in Hfw as (He & He' & Hpre & Hbroke); [|done|unfold forward_fuel; lia].
  rewrite <- Hout, app_assoc in Hpre, Hbroke.
  apply end_holds; cbn; auto.
Qed.

Lemma socket_ready_holds input pushed h read writes :
  bridge_holds input pushed h → host_state h = Running →
  bridge_holds input (pushed ++ default [] read) (socket_ready read writes h).
Proof.
  intros Hh Hr. unfold socket_ready. destruct read as [data|];
    [|rewrite app_nil_r; apply returns_holds; auto].
  pose proof Hh as [_ Hd Hf Hrun].
  destruct (Hrun Hr) as [Hm (ms & Hout & Hms & -> & Hbuf)].
  destruct data as [|b data]; [rewrite app_nil_r; by apply returns_holds; [|left]|].
  set (d := b :: data). cbn [default id].
  destruct (forward _ _ _ _) as [[e buf] out] eqn:Hfw. rewrite Hout in Hfw.
  apply forward_spec in Hfw as (He & He' & Hpre & Hbroke); [|done|unfold forward_fuel; lia].
  rewrite <- Hout, app_assoc in Hpre, Hbroke.
  apply end_holds; cbn; auto.
Qed.

Lemma host_step_holds input pushed h e : bridge_holds input pushed h →
  bridge_holds (input ++ stdin_of [e]) (pushed ++ socket_of [e]) (host_step h e).
Proof.
  intros Hh. unfold host_step. destruct (host_state h) eqn:Hr.
  - destruct e as [[data|] writes|[data|] writes]; cbn; rewrite ?app_nil_r.
    + exact (stdin_ready_holds _ _ _ (Some data) writes Hh Hr).
    + apply returns_holds; auto.
    + exact (socket_ready_holds _ _ _ (Some data) writes Hh Hr).
    + apply returns_holds; auto.
  - apply stopped; [done|by rewrite Hr].
  - apply stopped; [done|by rewrite Hr].
  - apply stopped; [done|by rewrite Hr].
Qed.

Lemma host_run_holds es input pushed h : bridge_holds input pushed h →
  bridge_holds (input ++ stdin_of es) (pushed ++ socket_of es) (foldl host_step h es).
Proof.
  revert input pushed h. induction es as [|e es IH]; intros input pushed h Hh.
  { by rewrite !app_nil_r. }
  cbn [foldl]. change (e :: es) with ([e] ++ es). unfold stdin_of, socket_of. rewrite !bind_app, !app_assoc.
  by apply IH, host_step_holds.
Qed.

Lemma bridge_run sock_path connect es :
  bridge_holds (stdin_of es) (socket_of es) (bridge sock_path connect es).
Proof.
  assert (∀ log, bridge_holds [] [] (host_new log)) as Hnew.
  { intros log. split; cbn; [by left|done..|]. intros _.
    split; exists []; (split; [done|]; split; [by constructor|done]). }
  unfold bridge. destruct connect as [exc|]; [|by apply (host_run_holds es [] [])].
  apply (stopped [] [] (stdin_of es) (socket_of es)); [|done].
  apply returns_holds; [apply Hnew|by right].
Qed.

(** C19: The bridge forwards verbatim.  Whatever the browser and the daemon
    write, in whatever pieces it is read and wherever a write fails: the host
    runs or has returned 0 or 1, and no other exception leaves it; each peer has
    been sent a prefix of what the other wrote; and while the host runs it
    holds back less than one frame of each stream, so that each peer has been
    sent all the messages of the other. *)
Theorem bridge_forwards_verbatim sock_path connect es :
  let h := bridge sock_path connect es in
  (host_state h = Running ∨ host_state h = Returned 0 ∨ host_state h = Returned 1) ∧
  to_daemon h `prefix_of` stdin_of es ∧ to_firefox h `prefix_of` socket_of es ∧
  (host_state h = Running →
    stdin_of es = to_daemon h ++ from_firefox h ∧ incomplete (from_firefox h) ∧
    payloads (decode (to_daemon h)) = payloads (decode (stdin_of es)) ∧
    socket_of es = to_firefox h ++ from_daemon h ∧ incomplete (from_daemon h) ∧
    payloads (decode (to_firefox h)) = payloads (decode (socket_of es))).
Proof.
  cbv zeta. destruct (bridge_run sock_path connect es) as [Hst Hd Hf Hrun].
  split; [done|]. split; [done|]. split; [done|]. intros Hr.
  destruct (Hrun Hr) as [Hm Hm']. rewrite (moved_payloads _ _ _ Hm), (moved_payloads _ _ _ Hm').
  destruct Hm as (_ & _ & _ & ? & ?), Hm' as (_ & _ & _ & ? & ?). by split_and!.
Qed.

(** ** A frame that is too long *)

Lemma extract_frame_of_frame m rest : zlen m ≤ MAX_MESSAGE →
  extract_frame (frame m ++ rest) = inl (Some m, rest).
Proof.
  intros Hm. unfold MAX_MESSAGE in Hm. pose proof (zlen_nonneg m). pose proof (zlen_nonneg rest).
  pose proof (zlen_u32_bytes (zlen m)) as Hu. unfold extract_frame, frame.
  rewrite <- app_assoc, ztake_app, zdrop_app, u32_of_u32_bytes, u32_small by (done || lia).
  rewrite !zlen_app, Hu. unfold MAX_MESSAGE.
  rewrite (proj2 (Z.ltb_ge _ _)), (proj2 (Z.ltb_ge _ _)), (proj2 (Z.ltb_ge _ _)) by lia.
  rewrite ztake_app, app_assoc, zdrop_app by (rewrite ?zlen_app; lia). done.
Qed.

Lemma forward_oversized fuel ms header rest out :
  Forall (λ m, zlen m ≤ MAX_MESSAGE) ms → zlen header = 4 → MAX_MESSAGE < u32_of_bytes header →
  (length (concat (map frame ms) ++ header ++ rest) < fuel)%nat →
  forward fuel (concat (map frame ms) ++ header ++ rest) out [] =
  (Raised (ValueError (frame_too_large (u32_of_bytes header))), header ++ rest,
   out ++ concat (map frame ms)).
Proof.
  intros Hms Hheader Hmax. revert fuel out.
  induction Hms as [|m ms Hm _ IH]; intros fuel out Hlen; (destruct fuel as [|fuel]; [lia|]);
    cbn [forward map concat app].
  - pose proof (zlen_nonneg rest). unfold extract_frame. rewrite zlen_app, Hheader.
    rewrite (proj2 (Z.ltb_ge _ _)) by lia. rewrite ztake_app by done.
    rewrite (proj2 (Z.ltb_lt _ _)) by done. by rewrite app_nil_r.
  - rewrite <- app_assoc, extract_frame_of_frame, pack_frame_frame by done. cbn [tail].
    rewrite IH; [by rewrite <- app_assoc|].
    cbn [map concat] in Hlen. rewrite <- app_assoc, length_app, frame_length in Hlen. lia.
Qed.

(** The bridge stops at a frame that is too long.  When what the host
    holds of the browser's stream and what it reads make some whole frames and
    a header that announces more than 1,000,000 bytes, then, if the writes go
    through, those frames are sent to the daemon, nothing of the last one is,
    and the host returns 1 and says why.  (The daemon itself discards such a
    frame and goes on.) *)
Theorem bridge_stops_at_oversized sock_path es data ms header rest :
  let h := bridge sock_path None es in
  let h' := host_step h (StdinReady (Some data) []) in
  host_state h = Running → data ≠ [] →
  from_firefox h ++ data = concat (map frame ms) ++ header ++ rest →
  Forall (λ m, zlen m ≤ MAX_MESSAGE) ms → zlen header = 4 → MAX_MESSAGE < u32_of_bytes header →
  host_state h' = Returned 1 ∧ to_daemon h' = to_daemon h ++ concat (map frame ms) ∧
  to_firefox h' = to_firefox h ∧
  host_log h' = host_log h ++ ["bad frame from Firefox: "
    +:+ frame_too_large (u32_of_bytes header) +:+ "; exiting"].
Proof.
  cbv zeta. generalize (bridge sock_path None es). intros h Hr Hdata Hbuf Hms Hheader Hmax.
  unfold host_step. rewrite Hr. unfold stdin_ready. destruct data as [|b data]; [done|].
  rewrite Hbuf, forward_oversized by (done || (unfold forward_fuel; lia)). done.
Qed.
End host.

(** ** The browser, the daemon and the script *)

Section browser.
Context {E : Env} {J : JsonRpcApi E}.
Context `{!QTimerLaws E, !SignalLaws E, !JsonRpcLaws E J, !ControlJsonLaws E, !MessageJsonLaws E}.
Context (gas : nat).
Context `{MachineLaws}.
Context (id fd rx_cap tx_cap : Z) (sn : session) (es : list session_event).
Context (c : connection) (h : history).
Hypothesis (Hfd : 0 ≤ fd) (Hrx : buffer_cap_ok rx_cap) (Htx : buffer_cap_ok tx_cap).
Hypothesis Hnew : session_new id fd rx_cap tx_cap 0 0 = Returns sn.
Hypothesis Hrun : session_run (conn_new sn) no_history es = Returns (c, h).
Context (sock_path : string) (connect : option string) (bes : list host_event).
Hypothesis Hrunning : host_state (bridge sock_path connect bes) = Running.

(** C10: What the extension asks reaches the script.  The host runs, what it
    sent has arrived at the daemon and was read, and the messages that the
    browser has completed are JSON texts.  Then, as long as the client is alive
    and its polls have had the session's batches but those in [transit], the
    messages handed to JSON-RPC, those in the loop's hands, in transit and
    queued are exactly the browser's, parsed and in order, whatever the pieces
    in which stdin and the socket were read and whatever else happened. *)
Theorem browser_messages_reach_script f W sg ms s k texts transit :
  arrived h = to_daemon (bridge sock_path connect bes) → conn_inbound c = [] →
  Forall (json_payload f) (payloads (decode (stdin_of bes))) →
  (∀ x, sig_slots sg x = []) → perform_all gas ms (load_script (init_state W sg)) = Some s →
  is_alive k s = true →
  replies k ms = Str <$> texts → Forall is_reply texts →
  filter (λ t, is_batch_text t = true) texts ++ transit = batch_texts (ss_out (conn_session c)) →
  ∃ queued, rx_queue (session_rx (conn_session c)) queued [] ∧
    along (handed k) gas ms (load_script (init_state W sg)) ++ waiting k s ++
      (transit ≫= messages_in) ++ map f queued = map f (payloads (decode (stdin_of bes))).
Proof.
  intros Harr Hread Hf Hsg Hscript Ha Hreplies Htexts Hout.
  destruct (bridge_run sock_path connect bes) as [_ _ _ Hmoved].
  destruct (Hmoved Hrunning) as [Hm%moved_framed _]. rewrite <- Harr in Hm.
  destruct (framed_delivered id fd rx_cap tx_cap sn es c h Hfd Hrx Htx Hnew Hrun _ Hm Hread)
    as (delivered & queued & Hmsgs & Hcar & Hq).
  rewrite Hmsgs in *. exists queued. split; [done|]. apply Forall_app in Hf as [Hf _]. rewrite map_app.
  by rewrite <- (delivered_handed gas f _ delivered W sg ms s k texts transit
    Hcar Hf Hsg Hscript Ha Hreplies Htexts Hout), <- !app_assoc.
Qed.

(** What the script pushes reaches the extension.  The messages that the
    host, while it runs, has written to the browser are a prefix of those whose
    [push] the session accepted, in order; all of them once the daemon's send
    queue is empty and the host has read what was sent. *)
Theorem pushes_reach_browser :
  socket_of bes `prefix_of` conn_sent c →
  let messages := filter (λ m, legal (zlen m) = true) (accepted h) in
  payloads (decode (to_firefox (bridge sock_path connect bes))) `prefix_of` messages ∧
  (socket_of bes = conn_sent c → tx_pending (cl_tx (ss_client (conn_session c))) = false →
   payloads (decode (to_firefox (bridge sock_path connect bes))) = messages).
Proof.
  intros [rest Hsent]. cbv zeta. destruct (bridge_run sock_path connect bes) as [_ _ _ Hmoved].
  destruct (Hmoved Hrunning) as [_ Hm%moved_payloads]. rewrite Hm.
  destruct (sent_frames id fd rx_cap tx_cap sn es c h Hfd Hrx Htx Hnew Hrun) as (more & Hall & Hacc & Hmore).
  destruct (decode_sent _ _ _ Hacc Hall) as [Hpre Hdec]. split.
  - etrans; [|exact Hpre]. rewrite Hsent. apply decode_prefix.
  - intros -> Ht. by apply Hdec, Hmore.
Qed.
End browser.

(** ** Witnesses *)

(** The browser's requests arrive in three pieces, one in the middle of a
    header; the daemon's first bytes come in between. *)
Definition ref_stdin : bytes := concat (map frame ref_requests).

Definition ref_bridge_events : list host_event :=
  [StdinReady (Some (take 20 ref_stdin)) []; SocketReady (Some (take 5 (frame (chars "pong")))) [];
   StdinReady (Some (take 38 (drop 20 ref_stdin))) [None];
   StdinReady (Some (drop 58 ref_stdin)) []].

Lemma ref_bridge_runs : host_state (bridge "s" None ref_bridge_events) = Running ∧
  to_daemon (bridge "s" None ref_bridge_events) = ref_stdin ∧
  payloads (decode (stdin_of ref_bridge_events)) = ref_requests.
Proof. split; [|split]; vm_compute; reflexivity. Qed.

Lemma bridge_forwards_verbatim_witness :
  host_state (bridge "s" None ref_bridge_events) = Running ∧
  stdin_of ref_bridge_events ≠ [] ∧
  to_daemon (bridge "s" None ref_bridge_events) `prefix_of` stdin_of ref_bridge_events.
Proof.
  split; [apply ref_bridge_runs|]. split; [by apply (bool_decide_unpack _)|].
  exact (proj1 (proj2 (bridge_forwards_verbatim "s" None ref_bridge_events))).
Defined.

(** The browser announces 1,000,001 bytes after the first request. *)
Definition ref_oversized : bytes := u32_bytes 1000001 ++ chars "x".

Definition ref_first_events : list host_event := [StdinReady (Some (take 20 ref_stdin)) []].

Lemma bridge_stops_at_oversized_witness :
  let h := bridge "s" None ref_first_events in
  let h' := host_step h (StdinReady
    (Some (drop 20 (frame (ref_request "a")) ++ ref_oversized)) []) in
  host_state h' = Returned 1 ∧ to_daemon h' = to_daemon h ++ concat (map frame [ref_request "a"]) ∧
  to_firefox h' = to_firefox h ∧
  host_log h' = host_log h ++ ["bad frame from Firefox: "
    +:+ frame_too_large (u32_of_bytes (u32_bytes 1000001)) +:+ "; exiting"].
Proof.
  refine (bridge_stops_at_oversized "s" ref_first_events
    (drop 20 (frame (ref_request "a")) ++ ref_oversized) [ref_request "a"] (u32_bytes 1000001)
    (chars "x") _ _ _ _ _ _).
  - vm_compute. reflexivity.
  - apply (bool_decide_unpack _). vm_compute. exact I.
  - vm_compute. reflexivity.
  - constructor; [|constructor]. apply (bool_decide_unpack _). vm_compute. exact I.
  - vm_compute. reflexivity.
  - vm_compute. reflexivity.
Defined.

Lemma browser_messages_reach_script_witness : ∃ c s,
  ref_stream_script = Some s ∧ payloads (decode (stdin_of ref_bridge_events)) = ref_requests ∧
  ∃ queued, rx_queue (session_rx (conn_session c)) queued [] ∧
    along (handed (Env.Conn 1 (NInt 1))) sc_gas ref_stream_moves
      (load_script (init_state (sc_world "x") [])) ++ waiting (Env.Conn 1 (NInt 1)) s ++
      ([ref_array "b"] ≫= messages_in) ++ map ref_parsed queued =
    map ref_parsed (payloads (decode (stdin_of ref_bridge_events))).
Proof.
  destruct ref_stream_reached as (sn & c & h & Hnew & Hrun & Harr & Hin & Hout).
  destruct ref_stream_script_runs as (s & Hs & Ha).
  destruct ref_bridge_runs as (Hrunning & Hsent & Hmsgs).
  exists c, s. split; [exact Hs|]. split; [exact Hmsgs|].
  refine (browser_messages_reach_script (E := RefEnv) sc_gas 1 7 256 256 sn ref_stream_events c h
    _ _ _ Hnew Hrun "s" None ref_bridge_events Hrunning ref_parsed (sc_world "x") []
    ref_stream_moves s (Env.Conn 1 (NInt 1)) [ref_array "a"] [ref_array "b"] _ Hin _ _ Hs Ha _ _ _).
  - lia.
  - unfold buffer_cap_ok, kMinBufferCap, max_capacity. lia.
  - unfold buffer_cap_ok, kMinBufferCap, max_capacity. lia.
  - rewrite Harr, Hsent. reflexivity.
  - rewrite Hmsgs. exact ref_requests_json.
  - done.
  - reflexivity.
  - constructor; [|constructor]. left. vm_compute. reflexivity.
  - rewrite Hout. vm_compute. reflexivity.
Defined.

Lemma pushes_reach_browser_witness : ∃ c h,
  conn_sent c = take 5 (frame (chars "pong")) ∧ accepted h = [chars "pong"] ∧
  let messages := filter (λ m, legal (zlen m) = true) (accepted h) in
  payloads (decode (to_firefox (bridge "s" None ref_bridge_events))) `prefix_of` messages ∧
  (socket_of ref_bridge_events = conn_sent c → tx_pending (cl_tx (ss_client (conn_session c))) = false →
   payloads (decode (to_firefox (bridge "s" None ref_bridge_events))) = messages).
Proof.
  destruct (ref_reached ref_events) as (sn & c & h & Hnew & Hrun & Href). exists c, h.
  assert (conn_sent c = take 5 (frame (chars "pong"))) as Hsent
    by (eapply (after_run (λ c _, conn_sent c)); [exact Href|evaluate]).
  split; [exact Hsent|]. split.
  - eapply (after_run (λ _ h, accepted h)); [exact Href|evaluate].
  - refine (pushes_reach_browser 1 7 64 64 sn ref_events c h _ _ _ Hnew Hrun "s" None
      ref_bridge_events (proj1 ref_bridge_runs) _); [apply ref_caps..|].
    rewrite Hsent. apply (bool_decide_unpack _). vm_compute. exact I.
Defined.
