(* ===== verification/FileUtil.v ===== *)
(** * file_util.cpp: staging the script

    The bundle names the daemon's service by a placeholder; [stage_kwinscript]
    copies it to the working directory with the service name in its place.
    [replace_all] is modelled with [std::string]'s [find] and [append];
    [substitute] is what it computes, in one pass.  What the file system answers
    is [stage_answers]. *)
From S2P Require Export Config.

(** ** [std::string] *)

Fixpoint starts_with (w s : bytes) : bool :=
  match w, s with
  | [], _ => true
  | a :: w, b :: s => if decide (a = b) then starts_with w s else false
  | _ :: _, [] => false
  end.

(** The first occurrence of [needle] in [s], which starts at position [i]. *)
Fixpoint find_from (needle s : bytes) (i : nat) : option nat :=
  if starts_with needle s then Some i else
  match s with
  | [] => None
  | _ :: s => find_from needle s (S i)
  end.

(** [content.find (needle, pos)] *)
Definition find (content needle : bytes) (pos : nat) : option nat :=
  if (pos <=? length content)%nat then find_from needle (drop pos content) pos else None.

(** [content.substr (pos, n)] *)
Definition substr (content : bytes) (pos n : nat) : bytes := take n (drop pos content).

(** ** file_util.cpp *)

Definition kDaemonServicePlaceholder : string := "@DAEMON_DBUS_SERVICE@".

(** The [for (;;)]. *)
Fixpoint replace_loop (fuel : nat) (content needle replacement : bytes) (pos : nat) (out : bytes)
    : cpp bytes :=
  match fuel with
  | O => Unfinished
  | S fuel =>
    match find content needle pos with
    | None => Returns (out ++ drop pos content)
    | Some hit =>
      replace_loop fuel content needle replacement (hit + length needle)
        (out ++ substr content pos (hit - pos) ++ replacement)
    end
  end.

Definition replace_all (content needle replacement : bytes) : cpp bytes :=
  if bool_decide (needle = []) then Returns content
  else replace_loop (S (length content)) content needle replacement 0 [].

(** The paths, absolute; whether the files open; the exception with which the
    stream buffer of [src] may leave the iterators ([istreambuf_iterator] sets no
    state of the stream), or the text that they read, which is cut short by an
    error that does not throw; [in.bad ()]; the error of [create_directories];
    how much of the output was written. *)
Record stage_answers := StageAnswers {
  sa_src : string;
  sa_dst : string;
  sa_parent : string;
  sa_opens : bool;
  sa_throws : option string;
  sa_text : bytes;
  sa_bad : bool;
  sa_mkdir : option string;
  sa_creates : bool;
  sa_writes : option nat;
}.

(** The error, empty if there is none, and the new text of [dst], if it was
    opened: it is truncated then, and a failed write leaves a prefix. *)
Definition stage_kwinscript (a : stage_answers) (service_name : string)
    : cpp (string * option bytes) :=
  if negb (sa_opens a) then mret ("cannot open " +:+ sa_src a, None)
  else if sa_throws a is Some what then Throws what
  else if sa_bad a then mret ("cannot read " +:+ sa_src a, None)
  else
    content ← replace_all (sa_text a) (chars kDaemonServicePlaceholder) (chars service_name);
    match sa_mkdir a with
    | Some message =>
      mret ("cannot create directory " +:+ sa_parent a +:+ ": " +:+ message, None)
    | None =>
      if negb (sa_creates a) then mret ("cannot open " +:+ sa_dst a, None)
      else match sa_writes a with
        | Some n => mret ("cannot write " +:+ sa_dst a, Some (take n content))
        | None => mret (EmptyString, Some content)
        end
    end.

(** ** What it computes *)

Definition contains (w s : bytes) : Prop := ∃ a b, s = a ++ w ++ b.

(** One pass from left to right; [skip] characters of a match are left. *)
Fixpoint substitute (needle replacement : bytes) (skip : nat) (s : bytes) : bytes :=
  match s with
  | [] => []
  | c :: s' =>
    match skip with
    | S skip => substitute needle replacement skip s'
    | O =>
      if starts_with needle s
      then replacement ++ substitute needle replacement (length needle - 1) s'
      else c :: substitute needle replacement 0 s'
    end
  end.

Lemma starts_with_spec w s : starts_with w s = true ↔ ∃ b, s = w ++ b.
Proof.
  revert s. induction w as [|a w IH]; intros s; [naive_solver|].
  destruct s as [|b s]; [naive_solver|]. cbn [starts_with app].
  case_decide as Hab; [subst; rewrite IH; naive_solver|naive_solver].
Qed.

Lemma substitute_skip needle replacement a s :
  substitute needle replacement (length a) (a ++ s) = substitute needle replacement 0 s.
Proof. induction a as [|c a IH]; [done|exact IH]. Qed.

Lemma contains_nil w : w ≠ [] → ¬ contains w [].
Proof.
  intros Hw (a & b & Hab). symmetry in Hab. apply app_nil in Hab as [_ Hab].
  by apply app_nil in Hab as [-> _].
Qed.

Lemma contains_cons w c s : contains w (c :: s) → starts_with w (c :: s) = true ∨ contains w s.
Proof.
  intros ([|c' a] & b & Hs); [left; apply starts_with_spec; by exists b|].
  injection Hs as -> ->. right. by exists a, b.
Qed.

(** The first occurrence splits the text; before it there is none. *)
Lemma find_from_spec needle s i : needle ≠ [] →
  match find_from needle s i with
  | None => ¬ contains needle s ∧ ∀ r, substitute needle r 0 s = s
  | Some hit => ∃ a b, s = a ++ needle ++ b ∧ hit = (i + length a)%nat ∧ ¬ contains needle a ∧
      ∀ r, substitute needle r 0 s = a ++ r ++ substitute needle r 0 b
  end.
Proof.
  intros Hne. revert i. induction s as [|c s IH]; intros i.
  { destruct needle as [|a needle]; [done|]. cbn. split; [by apply contains_nil|done]. }
  change (find_from needle (c :: s) i)
    with (if starts_with needle (c :: s) then Some i else find_from needle s (S i)).
  destruct (starts_with needle (c :: s)) eqn:Hst.
  - pose proof Hst as [b Hb]%starts_with_spec. exists [], b.
    split; [done|]. split; [by cbn; rewrite Nat.add_0_r|]. split; [by apply contains_nil|]. intros r.
    cbn [substitute]. rewrite Hst. cbn [app]. f_equal.
    destruct needle as [|a needle]; [done|]. injection Hb as -> ->.
    cbn [length]. rewrite Nat.sub_succ, Nat.sub_0_r. apply substitute_skip.
  - specialize (IH (S i)). destruct (find_from needle s (S i)) as [hit|].
    + destruct IH as (a & b & -> & -> & Ha & Hr). exists (c :: a), b.
      split; [done|]. split; [cbn; lia|]. split.
      * intros [Hs|]%contains_cons; [|done]. apply starts_with_spec in Hs as [b' Hb'].
        apply not_true_iff_false in Hst. apply Hst, starts_with_spec. exists (b' ++ needle ++ b).
        change (c :: a ++ needle ++ b) with ((c :: a) ++ needle ++ b). by rewrite Hb', <- app_assoc.
      * intros r. cbn [substitute]. rewrite Hst. cbn [app]. by rewrite Hr.
    + destruct IH as [Hs Hr]. split.
      * intros [|]%contains_cons; [congruence|done].
      * intros r. cbn [substitute]. by rewrite Hst, Hr.
Qed.

Lemma replace_loop_spec fuel content needle r pos out : needle ≠ [] →
  (pos ≤ length content)%nat → (length content - pos < fuel)%nat →
  replace_loop fuel content needle r pos out =
  Returns (out ++ substitute needle r 0 (drop pos content)).
Proof.
  intros Hne. revert pos out. induction fuel as [|fuel IH]; intros pos out Hpos Hfuel; [lia|].
  cbn [replace_loop]. unfold find. rewrite (proj2 (Nat.leb_le _ _) Hpos).
  pose proof (find_from_spec needle (drop pos content) pos Hne) as Hf.
  destruct (find_from _ _ _) as [hit|].
  - destruct Hf as (a & b & Hs & -> & _ & Hr). rewrite Hr.
    assert (length content = pos + length a + length needle + length b)%nat as Hlen.
    { assert (length (drop pos content) = length content - pos)%nat as Hd by apply length_drop.
      rewrite Hs, !length_app in Hd. lia. }
    assert (length needle ≠ 0)%nat by (by destruct needle).
    rewrite IH by lia. f_equal. unfold substr.
    replace (pos + length a - pos)%nat with (length a) by lia.
    rewrite Hs, take_app_length, <- !app_assoc. do 4 f_equal.
    replace (pos + length a + length needle)%nat with (pos + length (a ++ needle))%nat
      by (rewrite length_app; lia).
    by rewrite <- drop_drop, Hs, app_assoc, drop_app_length.
  - destruct Hf as [_ ->]. done.
Qed.

Lemma replace_all_spec content needle r : needle ≠ [] →
  replace_all content needle r = Returns (substitute needle r 0 content).
Proof.
  intros Hne. unfold replace_all. rewrite bool_decide_false by done.
  rewrite replace_loop_spec by (done || lia). done.
Qed.

(** ** No placeholder is left *)

(** [w] starts and ends with [c] and has no [d]; [n] has [d] but no [c]. *)
Definition keeps_out (c d : byte) (w n : bytes) : Prop :=
  (∃ w1, w = c :: w1) ∧ (∃ w2, w = w2 ++ [c]) ∧ d ∉ w ∧ c ∉ n ∧ d ∈ n.

(** An occurrence of [w] does not touch an [n] in the text. *)
Lemma occurrence_beside c d w n a b x y : keeps_out c d w n →
  a ++ n ++ b = x ++ w ++ y →
  (∃ a', a = x ++ w ++ a') ∨ (∃ b', b = b' ++ w ++ y).
Proof.
  intros ((w1 & Hw1) & (w2 & Hw2) & Hd & Hc & Hdn) Heq.
  assert (∀ k l, w = k ++ l → l ≠ [] → c ∈ l) as Hlast.
  { intros k l Hw Hl. destruct l as [|z l _] using rev_ind; [done|].
    rewrite Hw2, app_assoc in Hw. apply app_inj_tail in Hw as [_ <-].
    rewrite elem_of_app. right. by left. }
  assert (∀ k l, w = k ++ l → k ≠ [] → c ∈ k) as Hfirst.
  { intros k l Hw Hk. destruct k as [|z k]; [done|]. rewrite Hw1 in Hw. injection Hw as <- _. by left. }
  apply app_eq_app in Heq as [k [[-> Heq]|[-> Heq]]].
  - apply app_eq_app in Heq as [l [[Hw Heq]|[-> Heq]]]; [|left; by exists l].
    destruct (decide (l = [])) as [->|Hl]; [left; exists []; by rewrite Hw, !app_nil_r|].
    specialize (Hlast _ _ Hw Hl).
    apply app_eq_app in Heq as [z [[-> _]|[-> _]]].
    + destruct Hc. apply elem_of_app. by left.
    + destruct Hd. rewrite Hw, !elem_of_app. auto.
  - apply app_eq_app in Heq as [l [[-> Heq]|[-> Heq]]]; [|right; by exists l].
    destruct (decide (l = [])) as [->|Hl]; [right; by exists []|].
    destruct Hc. rewrite elem_of_app. right.
    apply app_eq_app in Heq as [z [[Hw _]|[-> _]]]; [by eapply Hfirst|].
    rewrite elem_of_app. left. apply (Hfirst w []); [by rewrite app_nil_r|by subst].
Qed.

Lemma substitute_keeps_out c d needle r s : needle ≠ [] → keeps_out c d needle r →
  ¬ contains needle (substitute needle r 0 s).
Proof.
  intros Hne Hk. remember (length s) as n eqn:Hn. revert s Hn.
  induction (Nat.lt_wf_0 n) as [n _ IH]; intros s ->.
  pose proof (find_from_spec needle s 0 Hne) as Hf. destruct (find_from needle s 0) as [hit|];
    [|destruct Hf as [Hs ->]; done].
  destruct Hf as (a & b & -> & _ & Ha & ->). intros (x & y & Hxy).
  destruct (occurrence_beside _ _ _ _ _ _ _ _ Hk Hxy) as [[a' Ha']|[b' Hb']].
  - destruct Ha. by exists x, a'.
  - apply (IH (length b)) with b; [|done|by exists b', y].
    rewrite !length_app. destruct needle; [done|]. cbn. lia.
Qed.

(** A bus name has a dot, and no [@]. *)
Lemma valid_name_chars expect name : valid_name_from expect name = true → "@"%char ∉ name.
Proof.
  revert expect. induction name as [|c name IH]; intros expect; [intros _; apply not_elem_of_nil|].
  cbn [valid_name_from]. rewrite not_elem_of_cons.
  intros Hn. split; [intros <-; by destruct expect|]. repeat case_match; try done; by eapply IH.
Qed.

Lemma service_keeps_out name : is_valid_dbus_name name = true →
  keeps_out "@"%char "."%char (chars kDaemonServicePlaceholder) (chars name).
Proof.
  unfold is_valid_dbus_name. destruct (_ || _); [done|].
  destruct (bool_decide ("."%char ∉ chars name)) eqn:Hd; [done|]. intros Hn%valid_name_chars.
  apply bool_decide_eq_false, dec_stable in Hd.
  split; [by eexists|]. split; [by exists (chars "@DAEMON_DBUS_SERVICE")|].
  split; [by apply (bool_decide_unpack _)|done].
Qed.

(** C20: Staging gives the script its service name.  With any answers of the
    file system and any service name that the configuration accepts,
    [stage_kwinscript] passes on an exception of the read, if there is one, and
    returns otherwise: without an error exactly when every step
    worked, and then the staged text is the bundle with each placeholder
    replaced, in one pass from left to right; no placeholder is left in it, so
    that staging it again changes nothing.  With an error it has left the
    staged file alone or written a prefix of that text. *)
Theorem staging_names_service a service_name : is_valid_dbus_name service_name = true →
  let staged := substitute (chars kDaemonServicePlaceholder) (chars service_name) 0 (sa_text a) in
  (∀ what, sa_opens a = true → sa_throws a = Some what → stage_kwinscript a service_name = Throws what) ∧
  ((sa_opens a = true → sa_throws a = None) →
   ∃ error written, stage_kwinscript a service_name = Returns (error, written) ∧
    (error = "" ↔ sa_opens a = true ∧ sa_bad a = false ∧ sa_mkdir a = None ∧
      sa_creates a = true ∧ sa_writes a = None) ∧
    (error = "" → written = Some staged) ∧
    (∀ text, written = Some text → text `prefix_of` staged)) ∧
  ¬ contains (chars kDaemonServicePlaceholder) staged ∧
  ∀ name, replace_all staged (chars kDaemonServicePlaceholder) name = Returns staged.
Proof.
  intros Hv staged.
  assert (¬ contains (chars kDaemonServicePlaceholder) staged) as Hnone
    by (by eapply substitute_keeps_out, service_keeps_out).
  assert (∀ name, replace_all staged (chars kDaemonServicePlaceholder) name = Returns staged) as Hagain.
  { intros name. rewrite replace_all_spec by done. f_equal.
    pose proof (find_from_spec (chars kDaemonServicePlaceholder) staged 0 ltac:(done)) as Hf.
    destruct (find_from _ _ _); [|apply Hf].
    destruct Hf as (x & y & Hxy & _). destruct Hnone. by exists x, y. }
  split_and!; [|intros Hread|done..].
  { intros what Ho Ht. unfold stage_kwinscript. by rewrite Ho, Ht. }
  unfold stage_kwinscript. rewrite replace_all_spec by done. fold staged. cbn [mbind cpp_bind].
  destruct (sa_opens a); [|by do 2 eexists; split_and!; [done|naive_solver..]]. rewrite Hread by done.
  destruct (sa_bad a); [by do 2 eexists; split_and!; [done|naive_solver..]|].
  destruct (sa_mkdir a); [by do 2 eexists; split_and!; [done|naive_solver..]|].
  destruct (sa_creates a); [|by do 2 eexists; split_and!; [done|naive_solver..]].
  destruct (sa_writes a); do 2 eexists; (split_and!; [done|naive_solver..|]).
  - intros text [= <-]. apply prefix_take.
  - by intros text [= <-].
Qed.

Definition ref_bundle : bytes :=
  chars "var A = '@DAEMON_DBUS_SERVICE@'; // @@DAEMON_DBUS_SERVICE@DAEMON_DBUS_SERVICE@".

Example ref_staged : stage_kwinscript
    (StageAnswers "/a.js" "/b.js" "/" true None ref_bundle false None true None) "org.a-b.C" =
  Returns (EmptyString, Some (chars "var A = 'org.a-b.C'; // @org.a-b.CDAEMON_DBUS_SERVICE@")).
Proof. vm_compute. reflexivity. Qed.

Lemma staging_names_service_witness :
  let a := StageAnswers "/a.js" "/b.js" "/" true None ref_bundle false None true None in
  let staged := substitute (chars kDaemonServicePlaceholder) (chars "org.a-b.C") 0 (sa_text a) in
  (∃ error written, stage_kwinscript a "org.a-b.C" = Returns (error, written) ∧
    (error = "" ↔ sa_opens a = true ∧ sa_bad a = false ∧ sa_mkdir a = None ∧
      sa_creates a = true ∧ sa_writes a = None) ∧
    (error = "" → written = Some staged) ∧
    (∀ text, written = Some text → text `prefix_of` staged)) ∧
  ¬ contains (chars kDaemonServicePlaceholder) staged.
Proof.
  destruct (staging_names_service (StageAnswers "/a.js" "/b.js" "/" true None ref_bundle false None true None)
    "org.a-b.C" eq_refl) as (_ & Hok & Hnone & _).
  split; [exact (Hok (λ _, eq_refl))|exact Hnone].
Defined.
