(* ===== verification/Daemon.v ===== *)
(** * main.cpp, dbus_service.cpp and kwin_client.cpp: the life of the daemon

    [main] sets up the D-Bus service and the socket server, stages the script,
    has KWin load and run it, serves until it is stopped, and undoes all of it.
    It is a function of what the platform, D-Bus and KWin answer
    ([process_answers]) that performs a trace of [action]s.  The event loop
    dispatches the events of the server (Server.v) and those that can end it.

    [daemon_m] is the monad: [DbusService]'s pointers, the server and the trace
    are its state, and a piece of C++ ends as a [cpp]. *)
From S2P Require Export FileUtil Listen.

(** ** Effects *)

Inductive action :=
| Stdout (text : string)
| Stderr (text : string)
| LogText (level text : string)
| SetSignals
| EventDefault (r : Z)
| EventUnref
| BusOpen (r : Z)
| BusSetOptions (exit_on_disconnect close_on_exit : bool) (call_timeout_usec : Z)
| BusRequestName (name : string) (r : Z)
| BusAddMatch (rule : string) (r : Z)
| BusAttach (r : Z)
| BusAddVtable (path interface : string) (r : Z)
| BusDetach
| BusClose
| ServerStart (path : string) (r : Z) (fds : list fd_action)
| ServerStop (fds : list fd_action)
| StageScript (error : string)
| LoadScript (file plugin : string) (result : LoadResult)
| RunScript (path : string) (r : Z)
| UnloadScript (plugin : string)
| BusFlush (r : Z)
| SleepMs (ms : Z)
| AddSignal (signo r : Z).

(** signal(7) *)
Definition SIGINT : Z := 2.
Definition SIGTERM : Z := 15.

(** The members of [DbusService] that are pointers, the server that was started
    with its listening socket, and the trace. *)
Record process := Process {
  bus_ : bool;
  event_ : bool;
  serving : option (Z * server);
  trace : list action;
}.

Definition daemon_m (A : Type) : Type := process → cpp (A * process).

#[export] Instance daemon_ret : MRet daemon_m := λ A a p, Returns (a, p).
#[export] Instance daemon_bind : MBind daemon_m := λ A B k m p,
  match m p with
  | Returns (a, p) => k a p
  | Throws what => Throws what
  | Undefined => Undefined
  | Unfinished => Unfinished
  end.

Definition act (x : action) : daemon_m unit :=
  λ p, Returns (tt, Process (bus_ p) (event_ p) (serving p) (trace p ++ [x])).
Definition get_process : daemon_m process := λ p, Returns (p, p).
Definition set_bus (b : bool) : daemon_m unit := λ p, Returns (tt, Process b (event_ p) (serving p) (trace p)).
Definition set_event (b : bool) : daemon_m unit := λ p, Returns (tt, Process (bus_ p) b (serving p) (trace p)).
Definition set_serving (sv : option (Z * server)) : daemon_m unit :=
  λ p, Returns (tt, Process (bus_ p) (event_ p) sv (trace p)).
Definition when (b : bool) (m : daemon_m unit) : daemon_m unit := if b then m else mret tt.
Definition undefined_behaviour {A} : daemon_m A := λ _, Undefined.
Definition out_of_fuel {A} : daemon_m A := λ _, Unfinished.
Definition lift_cpp {A} (c : cpp A) : daemon_m A := λ p, a ← c; Returns (a, p).

(** ** log.cpp *)

Definition log_debug (debug : bool) (message : string) : daemon_m unit :=
  when debug (act (LogText "debug" message)).
Definition log_info (message : string) : daemon_m unit := act (LogText "info" message).
Definition log_warn (message : string) : daemon_m unit := act (LogText "warn" message).
Definition log_error (message : string) : daemon_m unit := act (LogText "error" message).

(** ** What the daemon is answered *)

(** An [sd_bus_error], as sd_bus_call_method fills it. *)
Record bus_error := BusErrorOf { be_name : option string; be_message : option string }.

(** The reply to [loadScript]: the results of the call and of the read, and
    the number in it. *)
Record load_answer := LoadAnswer {
  la_call : Z;
  la_error : bus_error;
  la_read : Z;
  la_id : Z;
}.

(** What [sd_event_loop] dispatches: an event of the server, something else that
    leaves the process as it is, or what may end the loop.  A signal is
    dispatched where its source was added. *)
Inductive loop_event :=
| Serves (e : server_event)
| SignalReceived (signo : Z)
| NameLost (name : option string)
| Dispatched
| LoopFailed (r : Z).

Record process_answers := ProcessAnswers {
  pa_environ : list string;
  pa_args : list string;
  pa_cwd : string;
  pa_event_default : Z;
  pa_bus_open : Z;
  pa_request_name : Z;
  pa_add_match : Z;
  pa_attach : Z;
  pa_add_vtable : Z;
  pa_socket : socket_answers;
  pa_exists : bool;
  pa_regular : bool;
  pa_stage : stage_answers;
  pa_absolute : string → string;
  pa_load : nat → load_answer;
  pa_run : Z;
  pa_run_error : bus_error;
  pa_sigterm : Z;
  pa_sigint : Z;
  pa_loop : list loop_event;
  pa_new_call : Z;
  pa_append : Z;
  pa_send : Z;
  pa_flush : Z;
}.

Section daemon.
Context `{Machine}.

(** ** kwin_client.cpp *)

Definition error_text (e : bus_error) : string :=
  default "error" (be_name e) +:+ ": " +:+ default "no message" (be_message e).

Definition make_error (e : bus_error) : LoadResult :=
  MkLoadResult (-1)
    (bool_decide (be_name e = Some "org.freedesktop.DBus.Error.NameHasNoOwner" ∨
                  be_name e = Some "org.freedesktop.DBus.Error.ServiceUnknown"))
    (error_text e).

Definition load_script_answer (a : load_answer) : LoadResult :=
  if la_call a <? 0 then make_error (la_error a)
  else if la_read a <? 0
  then MkLoadResult (-1) false ("cannot read loadScript reply: " +:+ strerror (- la_read a))
  else MkLoadResult (la_id a) false "".

Definition kwin_load_script (file plugin : string) (a : load_answer) : daemon_m LoadResult :=
  act (LoadScript file plugin (load_script_answer a));;
  mret (load_script_answer a).

Definition run_script (script_id : Z) (a : process_answers) : daemon_m bool :=
  let path := "/Scripting/Script" +:+ pretty script_id in
  act (RunScript path (pa_run a));;
  if pa_run a <? 0 then
    log_error ("org.kde.kwin.Script.run(" +:+ path +:+ "): " +:+ error_text (pa_run_error a));;
    mret false
  else mret true.

(** The action is there once the message is on its way. *)
Definition unload_script (plugin : string) (a : process_answers) : daemon_m bool :=
  let fails (what : string) (r : Z) :=
    log_warn ("unloadScript(" +:+ plugin +:+ "): " +:+ what +:+ strerror (- r));; mret false in
  if pa_new_call a <? 0 then fails EmptyString (pa_new_call a)
  else if pa_append a <? 0 then fails "cannot append args: " (pa_append a)
  else if pa_send a <? 0 then fails "send failed: " (pa_send a)
  else
    act (UnloadScript plugin);;
    act (BusFlush (pa_flush a));;
    if pa_flush a <? 0 then fails "flush failed: " (pa_flush a) else mret true.

(** ** dbus_service.cpp *)

Definition kMethodCallTimeoutUsec : Z := 30 * 1000 * 1000.

Definition dbus_open (a : process_answers) : daemon_m Z :=
  p ← get_process;
  if bus_ p then mret 0 else
  act (BusOpen (pa_bus_open a));;
  if pa_bus_open a <? 0 then
    log_error ("sd_bus_open_user: " +:+ strerror (- pa_bus_open a));;
    mret (pa_bus_open a)
  else
    set_bus true;;
    act (BusSetOptions false false kMethodCallTimeoutUsec);;
    mret 0.

Definition name_lost_rule (service_name : string) : string :=
  "type='signal',sender='org.freedesktop.DBus'," +:+
  "interface='org.freedesktop.DBus',member='NameLost'," +:+
  "path='/org/freedesktop/DBus',arg0='" +:+ service_name +:+ "'".

Definition dbus_request_name (name : string) (a : process_answers) : daemon_m Z :=
  act (BusRequestName name (pa_request_name a));;
  if pa_request_name a <? 0 then
    log_error ("cannot acquire D-Bus name " +:+ name +:+ ": " +:+ strerror (- pa_request_name a));;
    mret (pa_request_name a)
  else
    act (BusAddMatch (name_lost_rule name) (pa_add_match a));;
    when (pa_add_match a <? 0)
      (log_warn ("sd_bus_add_match(NameLost): " +:+ strerror (- pa_add_match a)));;
    mret 0.

Definition dbus_attach (name : string) (a : process_answers) : daemon_m Z :=
  set_event true;;
  act (BusAttach (pa_attach a));;
  if pa_attach a <? 0 then
    log_error ("sd_bus_attach_event: " +:+ strerror (- pa_attach a));;
    mret (pa_attach a)
  else
    act (BusAddVtable (object_path_for_name name) name (pa_add_vtable a));;
    if pa_add_vtable a <? 0 then
      log_error ("sd_bus_add_object_vtable: " +:+ strerror (- pa_add_vtable a));;
      mret (pa_add_vtable a)
    else mret 0.

Definition dbus_detach : daemon_m unit :=
  p ← get_process;
  when (bus_ p && event_ p) (act BusDetach;; set_event false).

Definition dbus_close : daemon_m unit :=
  p ← get_process;
  when (bus_ p)
    (when (event_ p) (act BusDetach;; set_event false);; act BusClose;; set_bus false).

(** sd_event_exit(3): the code that the loop returns; a null loop is refused
    with [-EINVAL]. *)
Definition sd_event_exit (event : bool) (code : Z) : Z * option Z :=
  if event then (0, Some code) else (- EINVAL, None).

(** The code that ends the loop, if there is one. *)
Definition on_name_lost (service_name : string) (name : option string) : daemon_m (option Z) :=
  if bool_decide (name = Some service_name) then
    log_warn ("D-Bus name lost: " +:+ service_name +:+ ", shutting down");;
    p ← get_process;
    if event_ p then
      dbus_detach;;
      p ← get_process;
      mret (snd (sd_event_exit (event_ p) 1))
    else mret None
  else mret None.

(** ** main.cpp *)

Definition on_signal (signo : Z) : daemon_m (option Z) :=
  log_info ("received signal " +:+ pretty signo +:+ ", shutting down");;
  mret (snd (sd_event_exit true 0)).

(** An event that a message of the bus makes. *)
Definition over_bus (e : server_event) : bool :=
  match e with
  | ClientEvent _ (Poll _ _ _ | Push _ _) | DaemonPoll _ _ _ | DaemonLog _ _ => true
  | _ => false
  end.

(** An event of the server, which keeps its own log. *)
Definition serve_event (e : server_event) : daemon_m unit :=
  p ← get_process;
  match serving p with
  | Some (fd, sv) =>
    when (event_ p || negb (over_bus e))
      (sv ← lift_cpp (server_step sv e); set_serving (Some (fd, sv)))
  | None => mret tt
  end.

(** [sd_event_loop]: its result, or [None] as long as it runs.  A message of
    the bus is dispatched only while the bus is attached. *)
Fixpoint event_loop (service_name : string) (es : list loop_event) : daemon_m (option Z) :=
  match es with
  | [] => mret None
  | LoopFailed r :: _ => mret (Some r)
  | Dispatched :: es => event_loop service_name es
  | Serves e :: es => serve_event e;; event_loop service_name es
  | SignalReceived signo :: es =>
    code ← on_signal signo;
    match code with Some code => mret (Some code) | None => event_loop service_name es end
  | NameLost name :: es =>
    p ← get_process;
    if event_ p then
      code ← on_name_lost service_name name;
      match code with Some code => mret (Some code) | None => event_loop service_name es end
    else event_loop service_name es
  end.

(** The environment as a map; a later entry replaces an earlier one. *)
Fixpoint split_at_eq (entry : bytes) : option (bytes * bytes) :=
  match entry with
  | [] => None
  | c :: entry =>
    if decide (c = "="%char) then Some ([], entry)
    else match split_at_eq entry with Some (k, v) => Some (c :: k, v) | None => None end
  end.

Definition snapshot_env (environ : list string) : gmap string string :=
  foldl (λ env entry, match split_at_eq (chars entry) with
    | Some (k, v) => <[text_of k := text_of v]> env
    | None => env
    end) ∅ environ.

Definition nl : string := String "010"%char EmptyString.
Definition lines (l : list string) : string := foldr (λ line text, line +:+ nl +:+ text) EmptyString l.

Definition usage : string := lines [
  "Usage: kwin-api-daemon [options]";
  "";
  "A desktop background service binding a unix socket, a session-bus";
  "D-Bus service and a KWin script, all on one sd-event loop.";
  "";
  "Options:";
  "  -h, --help     show this help and exit";
  "  -V, --version  show the version and exit";
  "  --check        verify socket + D-Bus name registration, then exit 0";
  "";
  "Environment:";
  "  KWIN_API_SERVICE_NAME  D-Bus name to register (default org.example.KwinApiServer)";
  "  KWIN_SCRIPT_PATH       path of the bundled kwinscript.js (required)";
  "  KWIN_PLUGIN_NAME       pluginName for KWin scripting (required)";
  "  KWIN_WORK_DIR          working directory (default: cwd; under systemd this is";
  "                         the RuntimeDirectory, cleaned up by systemd)";
  "  KWIN_LOAD_RETRIES      loadScript retries while KWin is unreachable (default 30)";
  "  KWIN_LOAD_RETRY_DELAY_MS  delay between retries in ms (default 1000)";
  "  KWIN_MAX_CLIENTS       max concurrent unix-socket clients (default 64)";
  "  KWIN_RX_BUFFER_CAP     per-client read buffer capacity in bytes (0 = default 16000000)";
  "  KWIN_TX_BUFFER_CAP     per-client write buffer capacity in bytes (0 = default 16000000)";
  "  KWIN_DEBUG=1           verbose logging"].

(** [work_dir / name] *)
Definition path_div (dir name : string) : string :=
  match last (chars dir) with
  | None => name
  | Some c => if decide (c = "/"%char) then dir +:+ name else dir +:+ "/" +:+ name
  end.

(** The [for] around [kwin_load_script], with its warnings and sleeps. *)
Fixpoint load_attempts (fuel : nat) (cfg : Config) (file : string) (a : process_answers)
    (attempt : Z) (calls : nat) (last : LoadResult) : daemon_m LoadResult :=
  if 2 ^ 31 - 1 <? load_retries cfg + 1 then undefined_behaviour else
  if negb (attempt <=? load_retries cfg + 1) then mret last else
  match fuel with
  | O => out_of_fuel
  | S fuel =>
    result ← kwin_load_script file (plugin_name cfg) (pa_load a calls);
    if 0 <=? lr_id result then mret result
    else if name_missing result && (attempt <=? load_retries cfg) then
      log_warn ("org.kde.KWin not reachable (attempt " +:+ pretty attempt +:+ "/"
        +:+ pretty (load_retries cfg) +:+ "), retrying in "
        +:+ pretty (load_retry_delay_ms cfg) +:+ " ms");;
      act (SleepMs (load_retry_delay_ms cfg));;
      if 2 ^ 31 - 1 <? attempt + 1 then undefined_behaviour
      else load_attempts fuel cfg file a (attempt + 1) (S calls) result
    else mret result
  end.

(** [Server::start] and [Server::stop], in the process. *)
Definition start_server (cfg : Config) (socket_path : string) (a : process_answers) : daemon_m Z :=
  opened ← lift_cpp (server_open (chars socket_path) (pa_socket a) (max_clients cfg)
                       (rx_buffer_cap cfg) (tx_buffer_cap cfg));
  let '(r, sv, fds, log) := opened in
  foldr (λ o k, (match o with Log level text => act (LogText level text) | Return _ _ => mret tt end);; k)
    (mret tt) log;;
  act (ServerStart socket_path r fds);;
  set_serving sv;;
  mret r.

Definition stop_server : daemon_m unit :=
  p ← get_process;
  match serving p with
  | Some (fd, sv) => act (ServerStop (snd (server_close fd sv)));; set_serving None
  | None => mret tt
  end.

(** The three ways to give everything back. *)
Definition close_bus_only : daemon_m unit := dbus_close;; act EventUnref.
Definition close_all : daemon_m unit := dbus_close;; stop_server;; act EventUnref.
Definition stop_all : daemon_m unit := stop_server;; dbus_close;; act EventUnref.

(** From the comment "6) graceful shutdown" on. *)
Definition shutdown (cfg : Config) (a : process_answers) (r : Z) : daemon_m (option Z) :=
  when (r <? 0) (log_error ("event loop error: " +:+ strerror (- r)));;
  log_debug (debug cfg) "shutdown: unloading script";;
  unloaded ← unload_script (plugin_name cfg) a;
  (if (unloaded : bool) then log_info "KWin script unloaded"
   else log_warn "unloadScript failed (the unit's ExecStopPost retries it)");;
  log_debug (debug cfg) "shutdown: stopping socket server";;
  stop_server;;
  log_debug (debug cfg) "shutdown: closing bus";;
  dbus_close;;
  log_debug (debug cfg) "shutdown: freeing event loop";;
  act EventUnref;;
  log_info "exiting";;
  mret (Some (if r <? 0 then 1 else 0)).

(** From the comment "4) load & run the script" on.  The two signal sources are
    taken whatever [sd_event_add_signal] answers, and never given back. *)
Definition load_and_serve (cfg : Config) (staged : string) (a : process_answers) : daemon_m (option Z) :=
  load ← load_attempts (Z.to_nat (load_retries cfg + 1)) cfg staged a 1 0 no_load;
  if lr_id load <? 0 then
    log_error ("org.kde.kwin.Scripting.loadScript failed: " +:+ lr_error load);;
    close_all;; mret (Some 1)
  else
    log_info ("KWin script loaded: id=" +:+ pretty (lr_id load) +:+ " plugin=" +:+ plugin_name cfg);;
    running ← run_script (lr_id load) a;
    if negb running then
      log_error "org.kde.kwin.Script.run failed, unloading script";;
      unload_script (plugin_name cfg) a;;
      close_all;; mret (Some 1)
    else
      log_info "KWin script running";;
      act (AddSignal SIGTERM (pa_sigterm a));;
      act (AddSignal SIGINT (pa_sigint a));;
      log_info "serving (SIGTERM/SIGINT to stop)";;
      r ← event_loop (service_name cfg) (pa_loop a);
      match r with
      | None => mret None
      | Some r => shutdown cfg a r
      end.

(** From "3) stage the script" on. *)
Definition stage_and_serve (cfg : Config) (a : process_answers) : daemon_m (option Z) :=
  if negb (pa_exists a) || negb (pa_regular a) then
    log_error ("KWIN_SCRIPT_PATH does not point to a file: " +:+ script_path cfg);;
    close_all;; mret (Some 1)
  else
    staged_as ← lift_cpp (stage_kwinscript (pa_stage a) (service_name cfg));
    let stage_error := fst staged_as in
    act (StageScript stage_error);;
    if bool_decide (stage_error ≠ EmptyString) then
      log_error ("cannot stage kwinscript.js: " +:+ stage_error);;
      close_all;; mret (Some 1)
    else
      let staged := pa_absolute a (path_div (work_dir cfg) "kwinscript.js") in
      log_info ("kwinscript staged at " +:+ staged +:+ " (daemon D-Bus service: "
        +:+ service_name cfg +:+ ")");;
      load_and_serve cfg staged a.

(** From "1) session-bus D-Bus service" on. *)
Definition setup (cfg : Config) (a : process_answers) : daemon_m (option Z) :=
  r ← dbus_open a;
  if r <? 0 then act EventUnref;; mret (Some 1) else
  r ← dbus_request_name (service_name cfg) a;
  if r <? 0 then close_bus_only;; mret (Some 1) else
  r ← dbus_attach (service_name cfg) a;
  if r <? 0 then close_bus_only;; mret (Some 1) else
  log_info ("D-Bus name registered: " +:+ service_name cfg +:+ " (object path "
    +:+ object_path_for_name (service_name cfg) +:+ ")");;
  let socket_path := path_div (work_dir cfg) "service.socket" in
  r ← start_server cfg socket_path a;
  if r <? 0 then
    log_error ("cannot start server: " +:+ socket_path);;
    close_bus_only;; mret (Some 1)
  else
    log_info ("socket bound: " +:+ socket_path);;
    if check_only cfg then
      log_info "check ok: socket bound and D-Bus name registered";;
      stop_all;; mret (Some 0)
    else stage_and_serve cfg a.

Definition log_config_error (error : string) : daemon_m unit :=
  log_error ("configuration error: " +:+ error).

(** The exit code, or [None] while the daemon serves.  SIGPIPE is ignored first,
    and SIGTERM and SIGINT are blocked, for the event loop to see them. *)
Definition daemon_main (version : string) (a : process_answers) : daemon_m (option Z) :=
  act SetSignals;;
  let cfg := load_config (snapshot_env (pa_environ a)) (pa_args a) (pa_cwd a) in
  if show_help cfg then act (Stdout usage);; mret (Some 0)
  else if show_version cfg then act (Stdout ("kwin-api-daemon " +:+ version +:+ nl));; mret (Some 0)
  else if bool_decide (errors cfg ≠ []) then
    foldr (λ error k, log_config_error error;; k) (mret tt) (errors cfg);;
    act (Stderr ("run 'kwin-api-daemon --help' for usage" +:+ nl));;
    mret (Some 1)
  else
    log_info ("starting kwin-api-daemon " +:+ version);;
    log_debug (debug cfg) ("service name: " +:+ service_name cfg);;
    log_debug (debug cfg) ("working directory: " +:+ work_dir cfg);;
    act (EventDefault (pa_event_default a));;
    if pa_event_default a <? 0 then
      log_error ("sd_event_default: " +:+ strerror (- pa_event_default a));; mret (Some 1)
    else setup cfg a.

Definition process_start : process := Process false false None [].
End daemon.
