(* ===== verification/LineServer.v ===== *)
(** * socket_server.cpp: the line protocol

    The class [SocketServer]: commands of one line each, answered by one line
    (doc/PROTOCOL.md, section 5).  [line_client] is its [Client], [line_step]
    everything that can happen to a connection: the peer writes, or the event
    loop runs [on_client_io].  The kernel answers read(2) and send(2) as in
    ProtoClient.v and TxBuffer.v, and every buffer here is a [std::string].
    Then the server: accepting, closing and stopping. *)
From S2P Require Export Server.

Definition kReadChunk : Z := 4096.
Definition kMaxReadBuf : Z := 64 * 1024.

Definition newline : ascii := "010"%char.
Definition carriage_return : ascii := "013"%char.

Record line_client := LineClient {
  lc_fd : Z;
  lc_read_buf : bytes;
  lc_write_buf : bytes;
  lc_closing : bool;
  lc_events : Z;
  lc_log : list output;
}.

Definition upd_read_buf (buf : bytes) (c : line_client) : line_client :=
  LineClient (lc_fd c) buf (lc_write_buf c) (lc_closing c) (lc_events c) (lc_log c).
Definition upd_write_buf (buf : bytes) (c : line_client) : line_client :=
  LineClient (lc_fd c) (lc_read_buf c) buf (lc_closing c) (lc_events c) (lc_log c).
Definition set_closing (c : line_client) : line_client :=
  LineClient (lc_fd c) (lc_read_buf c) (lc_write_buf c) true (lc_events c) (lc_log c).
Definition set_io_events (events : Z) (c : line_client) : line_client :=
  LineClient (lc_fd c) (lc_read_buf c) (lc_write_buf c) (lc_closing c) events (lc_log c).
Definition line_log (level text : string) (c : line_client) : line_client :=
  LineClient (lc_fd c) (lc_read_buf c) (lc_write_buf c) (lc_closing c) (lc_events c)
    (lc_log c ++ [Log level text]).

(** [find ('\n')], [substr] and [erase]: the first line, and what follows it. *)
Fixpoint next_line (buf : bytes) : option (bytes * bytes) :=
  match buf with
  | [] => None
  | b :: buf =>
    if decide (b = newline) then Some ([], buf)
    else match next_line buf with Some (line, rest) => Some (b :: line, rest) | None => None end
  end.

(** [if (!line.empty () && line.back () == '\r') line.pop_back ()] *)
Definition chomp (line : bytes) : bytes :=
  if decide (last line = Some carriage_return) then removelast line else line.

Section line_server.
Context `{Machine}.

(** ** One connection *)

(** How the loop around [read] ends. *)
Inductive drained := Drained | SawEof | Dropped.

#[export] Instance drained_eq : EqDecision drained.
Proof. solve_decision. Defined.

Fixpoint read_all (answers : list read_answer) (inb : bytes) (c : line_client)
    : drained * line_client * bytes :=
  match answers with
  | [] => (Drained, c, inb)
  | a :: answers =>
    let '(n, errno, bs, inb) := sys_read kReadChunk a inb in
    if 0 <? n then
      let c := upd_read_buf (lc_read_buf c ++ bs) c in
      if kMaxReadBuf <? zlen (lc_read_buf c) then
        (Dropped, line_log "warn" ("client fd=" +:+ pretty (lc_fd c)
          +:+ " exceeded read buffer, closing") c, inb)
      else read_all answers inb c
    else if n =? 0 then (SawEof, c, inb)
    else if errno =? EAGAIN then (Drained, c, inb)
    else if errno =? EINTR then read_all answers inb c
    else (Dropped, line_log "debug" ("read(): " +:+ strerror errno) c, inb)
  end.

Definition queue_response (data : bytes) (c : line_client) : line_client :=
  upd_write_buf (lc_write_buf c ++ data) c.

(** [statuses] is what the callback answers, one call after the other; none is
    left when no callback is set. *)
Definition status_text (statuses : list bytes) : bytes := default (chars "ok") (head statuses).

Fixpoint process_lines (fuel : nat) (statuses : list bytes) (c : line_client) : cpp line_client :=
  match fuel with
  | O => Unfinished
  | S fuel =>
    match next_line (lc_read_buf c) with
    | None => mret c
    | Some (line, rest) =>
      let c := upd_read_buf rest c in
      let line := chomp line in
      if decide (line = chars "ping") then
        process_lines fuel statuses (queue_response (chars "pong" ++ [newline]) c)
      else if decide (line = chars "status") then
        process_lines fuel (tail statuses) (queue_response (status_text statuses ++ [newline]) c)
      else if decide (line = chars "quit") then mret (set_closing c)
      else process_lines fuel statuses (queue_response (chars "echo " ++ line ++ [newline]) c)
    end
  end.

(** Every line takes at least its newline. *)
Definition lines_fuel (c : line_client) : nat := S (length (lc_read_buf c)).

(** The bytes that the kernel took, and the client.  A send that takes nothing
    and does not fail leaves [errno] alone, which is taken to be 0. *)
Fixpoint flush_writes (answers : list send_answer) (sent : bytes) (c : line_client)
    : bytes * line_client :=
  match lc_write_buf c with
  | [] => (sent, c)
  | buf =>
    match answers with
    | [] => (sent, c)
    | Accepted n :: answers =>
      let n := Z.min n (zlen buf) in
      if 0 <? n then flush_writes answers (sent ++ ztake n buf) (upd_write_buf (zdrop n buf) c)
      else (sent, set_closing (line_log "debug" ("send(): " +:+ strerror 0) c))
    | SendFailed errno :: answers =>
      if errno =? EAGAIN then (sent, c)
      else if errno =? EINTR then flush_writes answers sent c
      else (sent, set_closing (line_log "debug" ("send(): " +:+ strerror errno) c))
    end
  end.

Definition close_log (c : line_client) : line_client :=
  line_log "debug" ("client disconnected: fd=" +:+ pretty (lc_fd c)) c.

(** Whether the client was closed, the bytes sent, the client, and what is
    left to read. *)
Definition handle_client_io (revents : Z) (inb : bytes) (reads : list read_answer)
    (sends : list send_answer) (statuses : list bytes) (c : line_client)
    : cpp (bool * bytes * line_client * bytes) :=
  let readable := negb (Z.land revents EPOLLIN =? 0) in
  let hangup := negb (Z.land revents (Z.lor EPOLLHUP EPOLLERR) =? 0) in
  let '(d, c, inb) := if readable then read_all reads inb c else (Drained, c, inb) in
  if decide (d = Dropped) then mret (true, [], close_log c, inb) else
  c ← (if negb (lc_closing c) then process_lines (lines_fuel c) statuses c else mret c);
  let '(sent, c) := flush_writes sends [] c in
  let saw_eof := bool_decide (d = SawEof) in
  if lc_closing c || saw_eof then mret (true, sent, close_log c, inb)
  else
    let events := if bool_decide (lc_write_buf c = []) then EPOLLIN else Z.lor EPOLLIN EPOLLOUT in
    if hangup && bool_decide (lc_write_buf c = []) then mret (true, sent, close_log c, inb)
    else mret (false, sent, set_io_events events c, inb).

(** ** Runs of a connection *)

(** The client; what the peer has written, and how much of it is not read
    yet; what it was sent; and whether the connection is open. *)
Record line_conn := LineConn {
  ln_client : line_client;
  ln_arrived : bytes;
  ln_inbound : bytes;
  ln_sent : bytes;
  ln_open : bool;
}.

Inductive line_event :=
| LineArrive (bs : bytes)
| LineIo (revents : Z) (reads : list read_answer) (sends : list send_answer) (statuses : list bytes).

(** A connection that was closed is not in [clients_] any more. *)
Definition line_step (c : line_conn) (e : line_event) : cpp line_conn :=
  if negb (ln_open c) then mret c else
  match e with
  | LineArrive bs =>
    mret (LineConn (ln_client c) (ln_arrived c ++ bs) (ln_inbound c ++ bs) (ln_sent c) true)
  | LineIo revents reads sends statuses =>
    '(closed, sent, cl, inb) ← handle_client_io revents (ln_inbound c) reads sends statuses (ln_client c);
    mret (LineConn cl (ln_arrived c) inb (ln_sent c ++ sent) (negb closed))
  end.

Fixpoint line_run (c : line_conn) (es : list line_event) : cpp line_conn :=
  match es with
  | [] => mret c
  | e :: es => c ← line_step c e; line_run c es
  end.

Definition line_client_new (fd : Z) : line_client := LineClient fd [] [] false EPOLLIN [].
Definition line_conn_new (fd : Z) : line_conn := LineConn (line_client_new fd) [] [] [] true.

(** ** The protocol *)

(** The answer to a line, its newline included; none to quit. *)
Definition line_reply (status line : bytes) : option bytes :=
  let line := chomp line in
  if decide (line = chars "ping") then Some (chars "pong" ++ [newline])
  else if decide (line = chars "status") then Some (status ++ [newline])
  else if decide (line = chars "quit") then None
  else Some (chars "echo " ++ line ++ [newline]).

(** Lines with the status at the time, and their answers. *)
Definition framed_lines (qs : list (bytes * bytes)) : bytes := qs ≫= λ q, snd q ++ [newline].
Definition replies_to (qs : list (bytes * bytes)) : bytes :=
  qs ≫= λ q, default [] (line_reply (fst q) (snd q)).
Definition line_answered (q : bytes * bytes) : Prop :=
  newline ∉ snd q ∧ is_Some (line_reply (fst q) (snd q)).

(** A line that says quit comes first. *)
Definition quits (rest : bytes) : Prop :=
  ∃ line after, rest = line ++ newline :: after ∧ newline ∉ line ∧ chomp line = chars "quit".

Lemma next_line_Some buf line rest :
  next_line buf = Some (line, rest) → buf = line ++ newline :: rest ∧ newline ∉ line.
Proof.
  revert line rest. induction buf as [|b buf IH]; intros line rest; [done|]. cbn [next_line].
  case_decide as Hb; [intros [= <- <-]; subst; split; [done|apply not_elem_of_nil]|].
  destruct (next_line buf) as [[line' rest']|]; [|done]. intros [= <- <-].
  destruct (IH line' rest' eq_refl) as [-> Hn]. split; [done|].
  rewrite elem_of_cons. intros [?|?]; [by apply Hb|done].
Qed.

Lemma next_line_None buf : next_line buf = None ↔ newline ∉ buf.
Proof.
  induction buf as [|b buf IH]; cbn [next_line]; [split; [intros _; apply not_elem_of_nil|done]|].
  rewrite elem_of_cons. case_decide as Hb; [subst; naive_solver|].
  destruct (next_line buf) as [[line rest]|]; naive_solver.
Qed.

(** [process_lines] answers the complete lines, up to one that says quit. *)
Lemma process_lines_spec statuses fuel c :
  (length (lc_read_buf c) < fuel)%nat → lc_closing c = false →
  ∃ c' qs, process_lines fuel statuses c = Returns c' ∧
    Forall line_answered qs ∧
    lc_fd c' = lc_fd c ∧ lc_write_buf c' = lc_write_buf c ++ replies_to qs ∧
    if lc_closing c'
    then ∃ rest, lc_read_buf c = framed_lines qs ++ rest ∧ quits rest
    else lc_read_buf c = framed_lines qs ++ lc_read_buf c' ∧ newline ∉ lc_read_buf c'.
Proof.
  revert statuses c. induction fuel as [|fuel IH]; intros statuses c Hfuel Hc; [lia|]. cbn [process_lines].
  destruct (next_line (lc_read_buf c)) as [[line rest]|] eqn:Hl.
  2: { exists c, []. rewrite Hc, app_nil_r. apply next_line_None in Hl. by repeat split. }
  apply next_line_Some in Hl as [Hbuf Hn].
  set (status := status_text statuses).
  assert (∀ data statuses', line_reply status line = Some data → ∃ c' qs,
    process_lines fuel statuses' (queue_response data (upd_read_buf rest c)) = Returns c' ∧
    Forall line_answered qs ∧
    lc_fd c' = lc_fd c ∧ lc_write_buf c' = lc_write_buf c ++ replies_to qs ∧
    if lc_closing c'
    then ∃ rest, lc_read_buf c = framed_lines qs ++ rest ∧ quits rest
    else lc_read_buf c = framed_lines qs ++ lc_read_buf c' ∧ newline ∉ lc_read_buf c') as Hnext.
  { intros data statuses' Hr. destruct (IH statuses' (queue_response data (upd_read_buf rest c)))
      as (c' & qs & -> & Hqs & Hfd & Hw & Hrest); [|done|].
    { cbn. rewrite Hbuf, length_app in Hfuel. simpl in Hfuel. lia. }
    exists c', ((status, line) :: qs). split; [done|].
    split; [constructor; [by split; [|exists data]|done]|].
    split; [done|]. split.
    { rewrite Hw. unfold replies_to. cbn [mbind list_bind]. cbn [fst snd]. rewrite Hr.
      cbn. by rewrite app_assoc. }
    revert Hrest. unfold framed_lines. cbn [mbind list_bind fst snd]. rewrite Hbuf. destruct (lc_closing c').
    - intros (rest' & Hr' & Hq). exists rest'. cbn in Hr'. rewrite Hr', <- !app_assoc. done.
    - intros [Hr' Hq]. cbn in Hr'. rewrite Hr', <- !app_assoc. done. }
  unfold line_reply in Hnext. fold status. cbv zeta in Hnext.
  destruct (decide (chomp line = chars "ping")); [by apply Hnext|].
  destruct (decide (chomp line = chars "status")); [by apply Hnext|].
  destruct (decide (chomp line = chars "quit")) as [Hquit|]; [|by apply Hnext].
  eexists _, []. split; [done|]. cbn. rewrite app_nil_r. do 3 (split; [done|]).
  exists (lc_read_buf c). split; [done|]. by exists line, rest.
Qed.

(** An answer of send(2) that closes the connection. *)
Definition send_closes (a : send_answer) : Prop :=
  match a with Accepted n => n ≤ 0 | SendFailed errno => errno ≠ EAGAIN ∧ errno ≠ EINTR end.

(** What a flush does: bytes go from the front of the queue to the peer. *)
Definition flushed (answers : list send_answer) (sent : bytes) (c : line_client)
    (r : bytes * line_client) : Prop :=
  ∃ out, fst r = sent ++ out ∧ lc_fd (snd r) = lc_fd c ∧ lc_read_buf (snd r) = lc_read_buf c ∧
    lc_write_buf c = out ++ lc_write_buf (snd r) ∧
    (lc_closing (snd r) = lc_closing c ∨ lc_closing (snd r) = true ∧ Exists send_closes answers).

Lemma flushed_nothing answers sent c : flushed answers sent c (sent, c).
Proof. exists []. rewrite app_nil_r. cbn. by repeat split; [..|left]. Qed.

Lemma flushed_closing a answers sent c text :
  send_closes a → flushed (a :: answers) sent c (sent, set_closing (line_log "debug" text c)).
Proof. exists []. rewrite app_nil_r. cbn. repeat split. right. split; [done|by left]. Qed.

Lemma flushed_more a answers sent c out rest r :
  lc_write_buf c = out ++ rest →
  flushed answers (sent ++ out) (upd_write_buf rest c) r → flushed (a :: answers) sent c r.
Proof.
  intros Hc (out' & Hs & Hf & Hr & Hw & Hcl). exists (out ++ out'). cbn in *.
  rewrite Hc, Hw, Hs, !app_assoc. repeat split; [done..|].
  destruct Hcl as [?|[? ?]]; [by left|right]. split; [done|by right].
Qed.

Lemma upd_write_buf_same c : upd_write_buf (lc_write_buf c) c = c.
Proof. by destruct c. Qed.

Lemma flush_writes_spec answers sent c : flushed answers sent c (flush_writes answers sent c).
Proof.
  revert sent c. induction answers as [|a answers IH]; intros sent c; cbn [flush_writes].
  { destruct (lc_write_buf c); apply flushed_nothing. }
  destruct (lc_write_buf c) as [|b buf] eqn:Hbuf; [apply flushed_nothing|]. rewrite <- Hbuf.
  destruct a as [n|errno].
  - destruct (Z.ltb_spec 0 (Z.min n (zlen (lc_write_buf c)))).
    + eapply flushed_more; [symmetry; apply ztake_zdrop|apply IH].
    + apply flushed_closing. cbn. assert (0 < zlen (lc_write_buf c)); [|lia].
      rewrite Hbuf. unfold zlen. simpl. lia.
  - destruct (Z.eqb_spec errno EAGAIN); [apply flushed_nothing|].
    destruct (Z.eqb_spec errno EINTR); [|by apply flushed_closing].
    apply (flushed_more _ _ _ _ [] (lc_write_buf c)); [done|].
    rewrite app_nil_r, upd_write_buf_same. apply IH.
Qed.

(** A read that ends the connection, and what a drain does. *)
Definition read_closes (a : read_answer) : Prop :=
  match a with
  | Ready _ => False
  | PeerClosed => True
  | ReadFailed errno => errno ≠ EAGAIN ∧ errno ≠ EINTR
  end.

Definition drains (answers : list read_answer) (inb : bytes) (c : line_client)
    (r : drained * line_client * bytes) : Prop :=
  let '(d, c', inb') := r in
  ∃ got, inb = got ++ inb' ∧ lc_read_buf c' = lc_read_buf c ++ got ∧ lc_fd c' = lc_fd c ∧
    lc_write_buf c' = lc_write_buf c ∧ lc_closing c' = lc_closing c ∧
    match d with
    | Drained => True
    | SawEof => Exists read_closes answers
    | Dropped => Exists read_closes answers ∨ kMaxReadBuf < zlen (lc_read_buf c')
    end ∧
    (d ≠ Dropped → zlen (lc_read_buf c) ≤ kMaxReadBuf → zlen (lc_read_buf c') ≤ kMaxReadBuf).

Lemma drains_nothing answers inb c d :
  match d with Drained => True | SawEof | Dropped => Exists read_closes answers end →
  drains answers inb c (d, c, inb).
Proof. intros Hd. exists []. rewrite !app_nil_r. repeat split; [|done]. destruct d; auto. Qed.

Lemma drains_skip a answers inb c r : drains answers inb c r → drains (a :: answers) inb c r.
Proof.
  destruct r as [[d c'] inb']. intros (got & H1 & H2 & H3 & H4 & H5 & Hd & H6). exists got.
  repeat split; try done. destruct d; [done|by right|]. destruct Hd; [left; by right|by right].
Qed.

Lemma drains_more answers inb c got rest r :
  inb = got ++ rest → zlen (lc_read_buf c ++ got) ≤ kMaxReadBuf →
  drains answers rest (upd_read_buf (lc_read_buf c ++ got) c) r → drains answers inb c r.
Proof.
  destruct r as [[d c'] inb']. intros -> Hmax (got' & -> & Hr & Hf & Hw & Hc & Hd & Hl).
  exists (got ++ got'). cbn in *. rewrite Hr, !app_assoc. rewrite Hr in Hl, Hd. by repeat split; auto.
Qed.

#[local] Arguments drains : simpl never.

Lemma read_all_spec answers inb c : drains answers inb c (read_all answers inb c).
Proof.
  revert inb c. induction answers as [|a answers IH]; intros inb c; cbn [read_all].
  { by apply drains_nothing. }
  destruct a as [n| |errno]; cbn [sys_read].
  - set (m := Z.max 0 (Z.min n (Z.min kReadChunk (zlen inb)))).
    destruct (Z.eqb_spec m 0) as [Hm|Hm]; [by apply drains_nothing|].
    destruct (Z.ltb_spec 0 m); [|lia].
    case_eq (kMaxReadBuf <? zlen (lc_read_buf (upd_read_buf (lc_read_buf c ++ ztake m inb) c)));
      intros Hbig; apply Z.ltb_lt in Hbig || apply Z.ltb_ge in Hbig.
    + exists (ztake m inb). rewrite ztake_zdrop. do 5 (split; [done|]). split; [right; exact Hbig|done].
    + apply drains_skip. eapply drains_more; [symmetry; apply ztake_zdrop|exact Hbig|apply IH].
  - cbn. apply drains_nothing. by left.
  - cbn. destruct (Z.eqb_spec errno EAGAIN); [by apply drains_nothing|].
    destruct (Z.eqb_spec errno EINTR); [apply drains_skip, IH|].
    exists []. rewrite app_nil_r. cbn. do 5 (split; [done|]). split; [left; by left|done].
Qed.

(** ** What a connection amounts to *)

(** The events that may have closed the connection. *)
Definition closed_by (rest : bytes) (e : line_event) : Prop :=
  match e with
  | LineArrive _ => False
  | LineIo revents reads sends _ =>
    quits rest ∨ Exists read_closes reads ∨ Exists send_closes sends ∨ kMaxReadBuf < zlen rest
    ∨ Z.land revents (Z.lor EPOLLHUP EPOLLERR) ≠ 0
  end.

(** The lines that were answered, and what follows them. *)
Record line_inv (es : list line_event) (c : line_conn) (qs : list (bytes * bytes)) (rest : bytes) : Prop := {
  li_arrived : ln_arrived c = framed_lines qs ++ rest ++ ln_inbound c;
  li_answered : Forall line_answered qs;
  li_open : ln_open c = true →
    rest = lc_read_buf (ln_client c) ∧ newline ∉ rest ∧ zlen rest ≤ kMaxReadBuf
    ∧ lc_closing (ln_client c) = false
    ∧ ln_sent c ++ lc_write_buf (ln_client c) = replies_to qs;
  li_closed : ln_open c = false →
    ln_sent c `prefix_of` replies_to qs ∧ Exists (closed_by rest) es;
}.

Lemma framed_lines_app qs qs' : framed_lines (qs ++ qs') = framed_lines qs ++ framed_lines qs'.
Proof. apply bind_app. Qed.
Lemma replies_to_app qs qs' : replies_to (qs ++ qs') = replies_to qs ++ replies_to qs'.
Proof. apply bind_app. Qed.

(** The callback, and what it answers of the input so far. *)
Lemma handle_client_io_spec revents inb reads sends statuses c :
  lc_closing c = false → newline ∉ lc_read_buf c → zlen (lc_read_buf c) ≤ kMaxReadBuf →
  ∃ closed sent c' inb' qs rest,
    handle_client_io revents inb reads sends statuses c = Returns (closed, sent, c', inb') ∧
    lc_fd c' = lc_fd c ∧
    lc_read_buf c ++ inb = framed_lines qs ++ rest ++ inb' ∧
    Forall line_answered qs ∧ sent `prefix_of` lc_write_buf c ++ replies_to qs ∧
    if closed : bool then closed_by rest (LineIo revents reads sends statuses)
    else rest = lc_read_buf c' ∧ newline ∉ rest ∧ zlen rest ≤ kMaxReadBuf ∧ lc_closing c' = false ∧
      sent ++ lc_write_buf c' = lc_write_buf c ++ replies_to qs.
Proof.
  intros Hcl Hn Hmax. unfold handle_client_io.
  set (readable := negb _).
  assert (drains reads inb c (if readable then read_all reads inb c else (Drained, c, inb))) as Hd.
  { destruct readable; [apply read_all_spec|by apply drains_nothing]. }
  destruct (if readable then _ else _) as [[d c1] inb'].
  destruct Hd as (got & -> & Hr1 & Hf1 & Hw1 & Hc1 & Hd & Hmax1).
  rewrite Hcl in Hc1.
  destruct (decide (d = Dropped)) as [->|Hnd].
  { eexists true, [], _, inb', [], (lc_read_buf c1). split; [done|]. cbn.
    rewrite Hr1, <- app_assoc. do 3 (split; [done|]). split; [apply prefix_nil|].
    rewrite <- Hr1. tauto. }
  rewrite Hc1. cbn [negb].
  destruct (process_lines_spec statuses (lines_fuel c1) c1) as (c2 & qs & -> & Hqs & Hf2 & Hw2 & Hr2);
    [unfold lines_fuel; lia|done|]. cbn [mbind cpp_bind].
  pose proof (flush_writes_spec sends [] c2) as (out & Hs & Hf3 & Hr3 & Hw3 & Hc3).
  destruct (flush_writes sends [] c2) as [sent c3]. cbn [fst snd] in *. subst sent.
  rewrite Hw1, Hw3 in Hw2. rewrite app_nil_l.
  assert (out `prefix_of` lc_write_buf c ++ replies_to qs) as Hout by (exists (lc_write_buf c3); congruence).
  rewrite app_assoc, <- Hr1.
  destruct (lc_closing c2) eqn:Hq.
  { destruct Hr2 as (rest & Hr2 & Hquit).
    assert (lc_closing c3 = true) as -> by (destruct Hc3 as [?|[? _]]; congruence).
    eexists true, out, _, inb', qs, rest. split; [done|]. cbn. rewrite Hr2, <- app_assoc, Hf3, Hf2.
    do 4 (split; [done|]). by left. }
  destruct Hr2 as [Hr2 Hn2]. rewrite Hr2, <- app_assoc.
  destruct (lc_closing c3) eqn:Hq3.
  { eexists true, out, _, inb', qs, _. split; [done|]. cbn. rewrite Hf3, Hf2.
    do 4 (split; [done|]). destruct Hc3 as [?|[_ ?]]; [congruence|tauto]. }
  case_bool_decide as Heof.
  { subst d. eexists true, out, _, inb', qs, _. split; [done|]. cbn. rewrite Hf3, Hf2.
    do 4 (split; [done|]). tauto. }
  cbn [orb]. destruct (_ && _) eqn:Hhup.
  { apply andb_true_iff in Hhup as [Hhup _]. apply negb_true_iff, Z.eqb_neq in Hhup.
    eexists true, out, _, inb', qs, _. split; [done|]. cbn. rewrite Hf3, Hf2.
    do 4 (split; [done|]). tauto. }
  eexists false, out, _, inb', qs, _. split; [done|]. cbn. rewrite Hf3, Hf2.
  do 4 (split; [done|]). rewrite Hr3. do 2 (split; [done|]). split; [|by rewrite <- Hw2].
  specialize (Hmax1 Hnd Hmax). rewrite Hr2, zlen_app in Hmax1. unfold zlen in *. lia.
Qed.

Lemma line_inv_step es c e qs rest :
  line_inv es c qs rest →
  ∃ c' qs' rest', line_step c e = Returns c' ∧ lc_fd (ln_client c') = lc_fd (ln_client c) ∧
    line_inv (es ++ [e]) c' qs' rest'.
Proof.
  intros [Harr Hans Hop Hcl]. unfold line_step. destruct (ln_open c) eqn:Hopen; cbn [negb].
  2: { destruct (Hcl eq_refl) as [Hs He]. exists c, qs, rest. do 2 (split; [done|]).
       split; [exact Harr|exact Hans| |]; rewrite Hopen; [discriminate|].
       intros _. split; [exact Hs|]. apply Exists_app. by left. }
  destruct (Hop eq_refl) as (-> & Hn & Hmax & Hc & Hsent). clear Hop Hcl.
  destruct e as [bs|revents reads sends statuses].
  { eexists _, qs, (lc_read_buf (ln_client c)). split; [reflexivity|]. split; [reflexivity|].
    split; cbn [ln_client ln_arrived ln_inbound ln_sent ln_open].
    - rewrite Harr, <- !app_assoc. reflexivity.
    - exact Hans.
    - intros _. exact (conj eq_refl (conj Hn (conj Hmax (conj Hc Hsent)))).
    - discriminate. }
  destruct (handle_client_io_spec revents (ln_inbound c) reads sends statuses (ln_client c) Hc Hn Hmax)
    as (closed & sent & cl & inb & qs' & rest & -> & Hf & Hrest & Hqs' & Hpre & Hend).
  cbn [mbind cpp_bind]. eexists _, (qs ++ qs'), rest. split; [reflexivity|]. split; [exact Hf|].
  split; cbn [ln_client ln_arrived ln_inbound ln_sent ln_open].
  - by rewrite Harr, Hrest, framed_lines_app, <- app_assoc.
  - by apply Forall_app.
  - intros Hco. apply negb_true_iff in Hco as ->. destruct Hend as (? & ? & ? & ? & Hw).
    do 4 (split; [done|]). by rewrite <- app_assoc, Hw, app_assoc, Hsent, replies_to_app.
  - intros Hco. apply negb_false_iff in Hco as ->. split.
    + rewrite replies_to_app, <- Hsent, <- app_assoc. by apply prefix_app.
    + apply Exists_app. right. by left.
Qed.

Lemma line_run_inv es0 es c qs rest :
  line_inv es0 c qs rest →
  ∃ c' qs' rest', line_run c es = Returns c' ∧ lc_fd (ln_client c') = lc_fd (ln_client c) ∧
    line_inv (es0 ++ es) c' qs' rest'.
Proof.
  revert es0 c qs rest. induction es as [|e es IH]; intros es0 c qs rest Hc.
  { exists c, qs, rest. by rewrite app_nil_r. }
  destruct (line_inv_step es0 c e qs rest Hc) as (c1 & qs1 & rest1 & H1 & Hf1 & Hi1).
  destruct (IH _ _ _ _ Hi1) as (c2 & qs2 & rest2 & H2 & Hf2 & Hi2).
  exists c2, qs2, rest2. cbn [line_run]. rewrite H1. cbn [mbind cpp_bind].
  rewrite <- app_assoc in Hi2. split; [done|]. split; [congruence|done].
Qed.

Lemma line_inv_new fd : line_inv [] (line_conn_new fd) [] [].
Proof. split; cbn; [done..| |done]. intros _. split; [done|]. split; [apply not_elem_of_nil|done]. Qed.

(** C38: The line protocol answers every line, in order and once.  Whatever the
    peer writes, however its bytes and the answers of read(2) and send(2) are
    cut, and whichever events of the loop come in between, the bytes that have
    arrived are the lines [qs], each followed by its newline, then [rest], then
    what the kernel still holds.  None of [qs] says quit.  As long as the
    connection is open, [rest] is an unfinished line that the server keeps, at
    most 64 KiB long, and what was sent followed by what is queued is exactly
    the answers to [qs].  A closed connection was sent the front of these
    answers, and was closed for a reason: [rest] starts with a line that says
    quit or exceeds the buffer, or in one callback the peer had closed, a read
    or a send failed, or the loop saw a hangup. *)
Theorem line_protocol_answers fd es :
  ∃ c qs rest, line_run (line_conn_new fd) es = Returns c ∧
    ln_arrived c = framed_lines qs ++ rest ++ ln_inbound c ∧ Forall line_answered qs ∧
    if ln_open c
    then rest = lc_read_buf (ln_client c) ∧ newline ∉ rest ∧ zlen rest ≤ kMaxReadBuf ∧
      ln_sent c ++ lc_write_buf (ln_client c) = replies_to qs
    else ln_sent c `prefix_of` replies_to qs ∧ Exists (closed_by rest) es.
Proof.
  destruct (line_run_inv [] es _ _ _ (line_inv_new fd)) as (c & qs & rest & Hc & _ & [Ha Hq Ho Hx]).
  exists c, qs, rest. do 3 (split; [done|]). destruct (ln_open c); [|by apply Hx].
  destruct (Ho eq_refl) as (? & ? & ? & _ & ?). done.
Qed.
End line_server.
