(* ===== verification/LineSocket.v ===== *)
(** * socket_server.cpp: the server of the line protocol

    The rest of the class [SocketServer]: binding and listening, accepting
    within the limit, looking a connection up by its descriptor, closing and
    stopping.  [ls_fds] are the descriptors that the server holds, which the
    code keeps only in the kernel; the answers of the kernel are arguments. *)
From S2P Require Export LineServer Listen.
From S2P Require Import RefMachine.

Inductive line_accept := LineAccepted (fd add_io : Z) | LineAcceptFailed (errno : Z).

Record line_server := LineServer {
  ls_path : bytes;
  ls_max : Z;
  ls_listen : option Z;
  ls_clients : gmap Z line_conn;
  ls_fds : gset Z;
  ls_log : list output;
  ls_gone : list (Z * line_conn);
}.

Section line_socket.
Context `{Machine}.

Definition upd_listen (fd : option Z) (sv : line_server) : line_server :=
  LineServer (ls_path sv) (ls_max sv) fd (ls_clients sv) (ls_fds sv) (ls_log sv) (ls_gone sv).
Definition upd_line_clients (f : gmap Z line_conn → gmap Z line_conn) (sv : line_server) : line_server :=
  LineServer (ls_path sv) (ls_max sv) (ls_listen sv) (f (ls_clients sv)) (ls_fds sv) (ls_log sv) (ls_gone sv).
Definition upd_fds (f : gset Z → gset Z) (sv : line_server) : line_server :=
  LineServer (ls_path sv) (ls_max sv) (ls_listen sv) (ls_clients sv) (f (ls_fds sv)) (ls_log sv) (ls_gone sv).
Definition set_log (l : list output) (sv : line_server) : line_server :=
  LineServer (ls_path sv) (ls_max sv) (ls_listen sv) (ls_clients sv) (ls_fds sv) l (ls_gone sv).
Definition add_line_gone (fd : Z) (c : line_conn) (sv : line_server) : line_server :=
  LineServer (ls_path sv) (ls_max sv) (ls_listen sv) (ls_clients sv) (ls_fds sv) (ls_log sv)
    (ls_gone sv ++ [(fd, c)]).
Definition socket_log (level text : string) (sv : line_server) : line_server :=
  set_log (ls_log sv ++ [Log level text]) sv.

Definition open_fd (fd : Z) : line_server → line_server := upd_fds (union {[fd]}).
Definition close_fd (fd : Z) : line_server → line_server := upd_fds (.∖ {[fd]}).

(** The constructor; [size] is the limit of the configuration. *)
Definition socket_server_new (path : bytes) (max_clients : Z) : line_server :=
  LineServer path (if 0 <? max_clients then max_clients else 64) None ∅ ∅ [] [].

(** What a step towards listening does to the server. *)
Definition listening_step (step : Z * option Z * list fd_action * list output) (sv : line_server)
    : Z * line_server :=
  let '(r, listening, fds, log) := step in
  (r, upd_listen listening (upd_fds (λ held, holding held fds) (set_log (ls_log sv ++ log) sv))).

Definition bind_and_listen (a : socket_answers) (sv : line_server) : Z * line_server :=
  match ls_listen sv with
  | Some _ => (0, sv)
  | None => listening_step (listen_on (ls_path sv) a) sv
  end.

Definition socket_start (a : socket_answers) (sv : line_server) : Z * line_server :=
  let '(r, sv) := bind_and_listen a sv in
  match ls_listen sv with
  | Some fd => listening_step (watch_listener a fd) sv
  | None => (r, sv)
  end.

(** The body of [accept_clients] for one connection; false leaves the loop. *)
Definition accept_line_client (fd add_io : Z) (sv : line_server) : bool * line_server :=
  let sv := open_fd fd sv in
  if ls_max sv <=? i32 (Z.of_nat (size (ls_clients sv))) then
    (true, close_fd fd (socket_log "warn" ("client rejected: connection limit ("
      +:+ pretty (ls_max sv) +:+ ") reached") sv))
  else if add_io <? 0 then
    (false, close_fd fd (socket_log "error" ("sd_event_add_io(client): " +:+ strerror (- add_io)) sv))
  else
    (true, upd_line_clients (insert fd (line_conn_new fd))
      (socket_log "debug" ("client connected: fd=" +:+ pretty fd) sv)).

Fixpoint accept_line_clients (accepts : list line_accept) (sv : line_server) : line_server :=
  match accepts with
  | [] => sv
  | LineAcceptFailed errno :: accepts =>
    if errno =? EAGAIN then sv
    else if errno =? EINTR then accept_line_clients accepts sv
    else socket_log "warn" ("accept(): " +:+ strerror errno) sv
  | LineAccepted fd add_io :: accepts =>
    let '(more, sv) := accept_line_client fd add_io sv in
    if more then accept_line_clients accepts sv else sv
  end.

(** [on_client_io], and what else happens to the connection [fd]: a connection
    that is closed leaves the table, and its descriptor is closed.  Its event
    source is off from then on, so that [None] is only the early return of the
    code. *)
Definition line_client_event (fd : Z) (e : line_event) (sv : line_server) : cpp line_server :=
  match ls_clients sv !! fd with
  | None => mret sv
  | Some c =>
    c ← line_step c e;
    mret (if ln_open c then upd_line_clients (insert fd c) sv
          else add_line_gone fd c (close_fd fd (upd_line_clients (delete fd) sv)))
  end.

(** [close_client] of [stop]. *)
Definition close_line_client (fd : Z) (sv : line_server) : line_server :=
  close_fd fd (upd_line_clients (delete fd)
    (socket_log "debug" ("client disconnected: fd=" +:+ pretty fd) sv)).

(** [stop]; [order] are the clients in the order of the table. *)
Definition socket_stop (order : list Z) (sv : line_server) : line_server :=
  let sv := foldl (λ sv fd, close_line_client fd sv) sv order in
  match ls_listen sv with Some fd => upd_listen None (close_fd fd sv) | None => sv end.

(** ** Runs of the server *)

(** The kernel hands out descriptors that are not open. *)
Fixpoint fresh_accepts (accepts : list line_accept) (sv : line_server) : Prop :=
  match accepts with
  | [] => True
  | LineAcceptFailed _ :: accepts => fresh_accepts accepts sv
  | LineAccepted fd add_io :: accepts =>
    (fd ∉ ls_fds sv) ∧ fresh_accepts accepts (snd (accept_line_client fd add_io sv))
  end.

Inductive socket_reachable (path : bytes) (max_clients : Z) : line_server → Prop :=
| socket_started a sv :
    socket_start a (socket_server_new path max_clients) = (0, sv) →
    socket_reachable path max_clients sv
| socket_accepts accepts sv :
    socket_reachable path max_clients sv → fresh_accepts accepts sv →
    socket_reachable path max_clients (accept_line_clients accepts sv)
| socket_client fd e sv sv' :
    socket_reachable path max_clients sv → line_client_event fd e sv = Returns sv' →
    socket_reachable path max_clients sv'.

(** A connection and its run. *)
Definition line_runs (open : bool) (fd : Z) (c : line_conn) : Prop :=
  ∃ es, line_run (line_conn_new fd) es = Returns c ∧ ln_open c = open.

Record socket_inv (sv : line_server) : Prop := {
  si_fds : ls_fds sv = list_to_set (option_list (ls_listen sv)) ∪ dom (ls_clients sv);
  si_listen : ∀ fd, ls_listen sv = Some fd → fd ∉ dom (ls_clients sv);
  si_limit : Z.of_nat (size (ls_clients sv)) ≤ ls_max sv < 2^31;
  si_clients : map_Forall (line_runs true) (ls_clients sv);
  si_gone : Forall (λ q, line_runs false (fst q) (snd q)) (ls_gone sv);
}.

Lemma line_run_app c c' es es' :
  line_run c es = Returns c' → line_run c (es ++ es') = line_run c' es'.
Proof.
  revert c. induction es as [|e es IH]; intros c; cbn [line_run app]; [by intros [= ->]|].
  destruct (line_step c e); cbn [mbind cpp_bind]; [apply IH|done..].
Qed.

(** An event of a connection that is open leads to another one. *)
Lemma line_runs_step fd c e :
  line_runs true fd c → ∃ c', line_step c e = Returns c' ∧ line_runs (ln_open c') fd c'.
Proof.
  intros (es & Hes & _). destruct (line_run_inv [] es _ _ _ (line_inv_new fd)) as (c0 & qs & rest & Hc & _ & Hi).
  rewrite Hes in Hc. injection Hc as <-.
  destruct (line_inv_step _ c e qs rest Hi) as (c' & _ & _ & Hc' & _). exists c'. split; [done|].
  exists (es ++ [e]). split; [|done]. rewrite (line_run_app _ _ _ _ Hes). cbn [line_run]. by rewrite Hc'.
Qed.

Lemma line_client_event_inv fd e sv :
  socket_inv sv → ∃ sv', line_client_event fd e sv = Returns sv' ∧ socket_inv sv'.
Proof.
  intros Hsv. destruct Hsv as [Hfds Hlis Hlim Hcl Hgone]. unfold line_client_event.
  destruct (ls_clients sv !! fd) as [c|] eqn:Hc; [|eexists; split; [done|by split]].
  destruct (line_runs_step fd c e (Hcl _ _ Hc)) as (c' & -> & Hc'). cbn [mbind cpp_bind].
  assert (fd ∈ dom (ls_clients sv)) as Hin by by apply elem_of_dom.
  eexists. split; [done|]. destruct (ln_open c').
  - split; cbn.
    + rewrite dom_insert_lookup_L by done. done.
    + rewrite dom_insert_lookup_L by done. done.
    + by rewrite map_size_insert_Some.
    + by apply map_Forall_insert_2.
    + done.
  - assert (∀ x, ls_listen sv = Some x → x ≠ fd) as Hne by (intros x Hx ->; by apply (Hlis fd Hx)).
    split; cbn.
    + rewrite dom_delete_L, Hfds. destruct (ls_listen sv) as [x|]; cbn; [|set_solver].
      specialize (Hne x eq_refl). set_solver.
    + rewrite dom_delete_L. set_solver.
    + rewrite map_size_delete_Some by done. lia.
    + by apply map_Forall_delete.
    + apply Forall_app. split; [done|]. by constructor.
Qed.

Lemma set_log_inv l sv : socket_inv sv → socket_inv (set_log l sv).
Proof. intros []. by split. Qed.

(** A descriptor that is opened and closed again. *)
Lemma close_fresh fd l sv :
  fd ∉ ls_fds sv → socket_inv sv → socket_inv (close_fd fd (set_log l (open_fd fd sv))).
Proof. intros Hfd []. split; cbn; [set_solver|done..]. Qed.

Lemma accept_line_client_inv fd add_io sv :
  socket_inv sv → fd ∉ ls_fds sv → socket_inv (snd (accept_line_client fd add_io sv)).
Proof.
  intros Hsv Hfd. unfold accept_line_client. cbn [ls_max open_fd upd_fds ls_clients].
  assert (i32 (Z.of_nat (size (ls_clients sv))) = Z.of_nat (size (ls_clients sv))) as ->.
  { pose proof (si_limit sv Hsv). unfold i32. rewrite Z.mod_small; lia. }
  destruct (Z.leb_spec (ls_max sv) (Z.of_nat (size (ls_clients sv)))); [by apply close_fresh|].
  destruct (add_io <? 0); [by apply close_fresh|].
  destruct Hsv as [Hfds Hlis Hlim Hcl Hgone].
  assert (ls_clients sv !! fd = None) as Hnone by (apply not_elem_of_dom; set_solver).
  split; cbn.
  - rewrite dom_insert_L, Hfds. set_solver.
  - intros x Hx. rewrite dom_insert_L, elem_of_union, elem_of_singleton. intros [->|Hin]; [|by apply (Hlis x)].
    apply Hfd. rewrite Hfds, Hx. set_solver.
  - rewrite map_size_insert_None by done. lia.
  - apply map_Forall_insert_2; [by exists []|done].
  - done.
Qed.

Lemma accept_line_clients_inv accepts sv :
  socket_inv sv → fresh_accepts accepts sv → socket_inv (accept_line_clients accepts sv).
Proof.
  revert sv. induction accepts as [|[fd add_io|errno] accepts IH]; intros sv Hsv Hfresh;
    cbn [accept_line_clients fresh_accepts] in *; [done| |].
  - destruct Hfresh as [Hfd Hfresh]. pose proof (accept_line_client_inv fd add_io sv Hsv Hfd) as H1.
    destruct (accept_line_client fd add_io sv) as [[] sv1]; [by apply IH|done].
  - repeat case_match; [done|by apply IH|by apply set_log_inv].
Qed.

(** Whether it starts or not, the server holds its listening socket or nothing. *)
Lemma socket_start_spec a path max_clients :
  let sv := snd (socket_start a (socket_server_new path max_clients)) in
  ls_clients sv = ∅ ∧ ls_gone sv = [] ∧ ls_max sv = (if 0 <? max_clients then max_clients else 64) ∧
  ls_fds sv = list_to_set (option_list (ls_listen sv)).
Proof.
  unfold socket_start, bind_and_listen, socket_server_new, listening_step. cbn [ls_listen ls_path].
  pose proof (listen_on_holds path a) as Hl.
  destruct (listen_on path a) as [[[r listening] fds] log]. destruct Hl as [Hl _].
  cbn [ls_listen upd_listen upd_fds set_log ls_fds]. destruct listening as [fd|]; [|done].
  pose proof (watch_listener_holds a fd) as Hw.
  destruct (watch_listener a fd) as [[[r' listening'] fds'] log']. destruct Hw as [Hw _].
  cbn. repeat split. rewrite Hl. cbn. by rewrite union_empty_r_L.
Qed.

Lemma socket_reachable_inv path max_clients sv :
  max_clients < 2^31 → socket_reachable path max_clients sv → socket_inv sv.
Proof.
  intros Hmax. induction 1 as [a sv Hstart|accepts sv _ IH Hfresh|fd e sv sv' _ IH Hstep].
  - pose proof (socket_start_spec a path max_clients) as Hs. rewrite Hstart in Hs.
    destruct Hs as (Hc & Hg & Hm & Hf). cbn [snd] in *. split; rewrite ?Hc, ?Hg.
    + rewrite Hf, dom_empty_L. set_solver.
    + set_solver.
    + rewrite map_size_empty, Hm. destruct (Z.ltb_spec 0 max_clients); lia.
    + apply map_Forall_empty.
    + done.
  - by apply accept_line_clients_inv.
  - destruct (line_client_event_inv fd e sv IH) as (sv1 & Hsv1 & Hi). congruence.
Qed.

Lemma socket_stop_clients order sv :
  let sv' := foldl (λ sv fd, close_line_client fd sv) sv order in
  ls_listen sv' = ls_listen sv ∧ ls_fds sv' = ls_fds sv ∖ list_to_set order ∧
  dom (ls_clients sv') = dom (ls_clients sv) ∖ list_to_set order.
Proof.
  revert sv. induction order as [|fd order IH]; intros sv; cbn; [set_solver|].
  destruct (IH (close_line_client fd sv)) as (-> & -> & ->). cbn. rewrite dom_delete_L. set_solver.
Qed.

(** C39: The server of the line protocol never fails and never leaks a
    descriptor.  In every state that it reaches from a start, by accepting what
    the kernel offers and by the events of its connections, the descriptors it
    holds are its listening socket and those of the connections in its table;
    the table stays within the limit; every connection that it has, and every
    one that it closed, has gone through a run of the line protocol of its own;
    whatever happens to a connection is handled; and [stop] closes every
    descriptor, in whatever order it finds the connections. *)
Theorem line_server_keeps_descriptors path max_clients sv :
  max_clients < 2^31 → socket_reachable path max_clients sv →
  ls_fds sv = list_to_set (option_list (ls_listen sv)) ∪ dom (ls_clients sv) ∧
  Z.of_nat (size (ls_clients sv)) ≤ ls_max sv ∧
  map_Forall (line_runs true) (ls_clients sv) ∧
  Forall (λ q, line_runs false (fst q) (snd q)) (ls_gone sv) ∧
  (∀ fd c e, ls_clients sv !! fd = Some c → ∃ sv', line_client_event fd e sv = Returns sv') ∧
  ∀ order, list_to_set order = dom (ls_clients sv) →
    ls_fds (socket_stop order sv) = ∅ ∧ ls_clients (socket_stop order sv) = ∅.
Proof.
  intros Hmax Hr. pose proof (socket_reachable_inv _ _ _ Hmax Hr) as Hsv.
  destruct (Hsv) as [Hfds Hlis [Hlim _] Hcl Hgone].
  do 4 (split; [assumption|]). split.
  { intros fd c e _. destruct (line_client_event_inv fd e sv Hsv) as (sv' & Hsv' & _). by exists sv'. }
  intros order Horder. unfold socket_stop.
  destruct (socket_stop_clients order sv) as (Hl & Hf & Hd).
  set (sv' := foldl _ sv order) in *. rewrite Horder, difference_diag_L in Hd.
  assert (ls_clients sv' = ∅) as Hempty by by apply dom_empty_inv_L.
  rewrite Hl. destruct (ls_listen sv) as [x|]; cbn; rewrite Hf, Horder, Hfds; cbn; (split; [set_solver|done]).
Qed.
End line_socket.

(** ** A run *)

(** One client that says ping and then quit, a second one that a limit of one
    rejects. *)
Definition run_input : bytes := chars "ping" ++ [newline] ++ chars "quit" ++ [newline].
Definition run_status : bytes := chars "ok".
Definition run_server : line_server :=
  accept_line_clients [LineAccepted 5 0; LineAccepted 6 0]
    (snd (socket_start (SocketAnswers (inl 3) None None 0) (socket_server_new (chars "s") 1))).

Lemma run_server_reachable : socket_reachable (chars "s") 1 run_server.
Proof.
  apply socket_accepts.
  - by apply (socket_started _ _ (SocketAnswers (inl 3) None None 0)).
  - split; [|split]; [| |done]; vm_compute; intros Hin; inversion Hin.
Qed.

Lemma line_server_keeps_descriptors_witness :
  socket_reachable (chars "s") 1 run_server ∧
  elements (dom (ls_clients run_server)) = [5] ∧
  ls_fds run_server = list_to_set (option_list (ls_listen run_server)) ∪ dom (ls_clients run_server).
Proof.
  split; [exact run_server_reachable|]. split; [by vm_compute|].
  exact (proj1 (line_server_keeps_descriptors (chars "s") 1 run_server eq_refl run_server_reachable)).
Defined.

(** A quit whose answers the socket does not take yet closes the connection all
    the same: the pong is lost, though the comment at [handle_client_io] says
    that what is queued before a quit is flushed. *)
Lemma quit_drops_replies :
  (λ r, match r with Returns (closed, sent, _, _) => Some (closed, sent) | _ => None end)
    (handle_client_io EPOLLIN run_input [Ready 4096] [SendFailed EAGAIN] [run_status] (line_client_new 5))
  = Some (true, []).
Proof. vm_compute. reflexivity. Qed.

(** With a socket that takes them, they are sent. *)
Example quit_sends_replies :
  (λ r, match r with Returns (closed, sent, _, _) => Some (closed, sent) | _ => None end)
    (handle_client_io EPOLLIN run_input [Ready 4096] [Accepted 4096] [run_status] (line_client_new 5))
  = Some (true, chars "pong" ++ [newline]).
Proof. vm_compute. reflexivity. Qed.
