(* ===== verification/Launcher.v ===== *)
(** * run.py: building, starting and following the service

    The script runs commands and stops the service on its way out.  A command
    of [run] is an action with its answer: it exits, its program is missing, or
    one of the two signals arrives while the script waits for it, which the
    handler turns into a [KeyboardInterrupt].  [launching] is the monad of code
    that may raise; [la_answers] are the answers still to come, and none left is
    a command that succeeds. *)
From Stdlib Require Import Ascii.
From S2P Require Export Prelude.

#[local] Open Scope Z_scope.

Definition UNIT_NAME : string := "kwin-api-server.service".

(** What the script finds: its directory, the home directory, whether the build
    has staged the unit, [XDG_RUNTIME_DIR] and the user. *)
Record launch_env := LaunchEnv {
  ROOT : string;
  home_dir : string;
  unit_is_file : bool;
  runtime_dir : option string;
  launch_uid : Z;
}.

Inductive exec_answer := Exited (code : Z) | ProgramMissing | Interrupted.

#[export] Instance exec_answer_eq : EqDecision exec_answer.
Proof. solve_decision. Defined.

Inductive launch_action :=
| Says (line : string)
| Complains (line : string)
| Runs (cmd : list string) (cwd : option string) (answer : exec_answer).

Inductive launch_exn :=
| KeyboardInterrupt
| CalledProcessError (cmd : list string) (returncode : Z)
| FileNotFoundError (program : string)
| SystemExit (code : Z).

Record launch := Launch { la_answers : list exec_answer; la_trace : list launch_action }.

Definition launching (A : Type) : Type := launch → (A + launch_exn) * launch.
#[export] Instance launching_ret : MRet launching := λ A a l, (inl a, l).
#[export] Instance launching_bind : MBind launching := λ A B k m l,
  match m l with (inl a, l) => k a l | (inr e, l) => (inr e, l) end.

Definition raise {A} (e : launch_exn) : launching A := λ l, (inr e, l).
Definition perform_action (a : launch_action) : launching () := λ l,
  (inl (), Launch (la_answers l) (la_trace l ++ [a])).
Definition say (line : string) : launching () := perform_action (Says line).
Definition complain (line : string) : launching () := perform_action (Complains line).

(** [try: body finally: cleanup]: what the cleanup raises replaces the rest. *)
Definition try_finally {A} (body : launching A) (cleanup : launching ()) : launching A := λ l,
  let '(r, l) := body l in
  let '(r', l) := cleanup l in
  (match r' with inl _ => r | inr e => inr e end, l).

(** [os.path.join], and [/] of [pathlib]. *)
Definition join_path (dir name : string) : string :=
  if decide (dir = "") then name
  else if decide (last (String.list_ascii_of_string dir) = Some "/"%char) then dir +:+ name
  else dir +:+ "/" +:+ name.

Definition join_words (words : list string) : string := String.concat " " words.

Definition command_ends (cmd : list string) (check : bool) (answer : exec_answer) : option launch_exn :=
  match answer with
  | Exited code => if check && negb (code =? 0) then Some (CalledProcessError cmd code) else None
  | ProgramMissing => Some (FileNotFoundError (default "" (head cmd)))
  | Interrupted => Some KeyboardInterrupt
  end.

Definition next_answer (answers : list exec_answer) : exec_answer := default (Exited 0) (head answers).

(** [subprocess.run (cmd, check=check, cwd=cwd)] *)
Definition execute (cmd : list string) (check : bool) (cwd : option string) : launching () := λ l,
  let answer := next_answer (la_answers l) in
  (match command_ends cmd check answer with Some e => inr e | None => inl () end,
   Launch (tail (la_answers l)) (la_trace l ++ [Runs cmd cwd answer])).

Definition run (cmd : list string) (check : bool) (cwd : option string) : launching () :=
  say ("+ " +:+ join_words cmd);; execute cmd check cwd.

Definition systemctl (args : list string) (check : bool) : launching () :=
  run (["systemctl"; "--user"] ++ args) check None.

Definition stop_service : launching () := systemctl ["stop"; UNIT_NAME] false.

Definition start_service : launching () := systemctl ["start"; UNIT_NAME] true.

Definition follow_logs : launching () :=
  run ["journalctl"; "--user"; "-f"; "-u"; "kwin-api-server"] true None.

Section launcher.
Context (env : launch_env).

Definition STAGED_UNIT : string := join_path (ROOT env) ("stage/lib/systemd/user/" +:+ UNIT_NAME).
Definition LINKED_UNIT : string := join_path (home_dir env) (".config/systemd/user/" +:+ UNIT_NAME).

Definition build_and_install : launching () :=
  run ["xmake"; "f"; "-m"; "release"] true (Some (ROOT env));;
  run ["xmake"] true (Some (ROOT env));;
  run ["xmake"; "install"; "-o"; "stage"] true (Some (ROOT env)).

Definition link_unit : launching () :=
  (if unit_is_file env then mret ()
   else
     complain ("error: staged unit not found: " +:+ STAGED_UNIT);;
     complain "       run with --build first, or check whether the install step succeeded";;
     raise (SystemExit 1));;
  systemctl ["link"; STAGED_UNIT] true;;
  systemctl ["daemon-reload"] true.

Definition print_removal_hint : launching () :=
  say "";;
  say "Service stopped.";;
  say "Note: the unit file created by `systemctl link` is still present:";;
  say ("    " +:+ LINKED_UNIT);;
  say "To remove it completely later, run manually:";;
  say ("    rm " +:+ LINKED_UNIT).

Definition socket_location : string :=
  join_path (default ("/run/user/" +:+ pretty (launch_uid env)) (runtime_dir env))
    "kwin-api-server/service.socket".

(** [main], from the parsed flags on. *)
Definition launch_main (build no_follow : bool) : launching Z :=
  try_finally
    (say "==> stopping the currently running service";;
     stop_service;;
     (if build then
        say "==> building and staged-installing (xmake install -o stage)";;
        build_and_install;;
        say "==> linking the generated unit and reloading systemd";;
        link_unit
      else mret ());;
     say ("==> starting " +:+ UNIT_NAME);;
     start_service;;
     if no_follow then
       say ("==> service running; socket: " +:+ socket_location);;
       say ("    (leave it running; stop it later with `systemctl --user stop " +:+ UNIT_NAME +:+ "`)");;
       mret 0
     else
       say "==> following logs (Ctrl+C to stop)";;
       follow_logs;;
       mret 0)
    (if no_follow then mret ()
     else
       say "==> stopping the service";;
       stop_service;;
       print_removal_hint).

(** The script: its exit code, and what it has done.  A missing program is an
    exception that nothing catches, for which Python exits with 1. *)
Definition launch_script (build no_follow : bool) (answers : list exec_answer)
    : Z * list launch_action :=
  let '(r, l) := launch_main build no_follow (Launch answers []) in
  match r with
  | inl code => (code, la_trace l)
  | inr (SystemExit code) => (code, la_trace l)
  | inr KeyboardInterrupt => (130, la_trace l ++ [Says ""])
  | inr (CalledProcessError cmd code) =>
    (1, la_trace l ++ [Complains ("error: command failed: " +:+ join_words cmd +:+ " (exit "
      +:+ pretty code +:+ ")")])
  | inr (FileNotFoundError _) => (1, la_trace l)
  end.

(** ** What a run leaves behind *)

(** The commands of a run, with their answers. *)
Definition executed (trace : list launch_action) : list (list string * exec_answer) :=
  omap (λ a, match a with Runs cmd _ answer => Some (cmd, answer) | _ => None end) trace.

(** Whether the service may be running: until it is stopped successfully, and
    from any attempt to start it. *)
Definition may_run (running : bool) (c : list string * exec_answer) : bool :=
  if decide (fst c = ["systemctl"; "--user"; "start"; UNIT_NAME]) then
    match snd c with ProgramMissing => running | _ => true end
  else if decide (c = (["systemctl"; "--user"; "stop"; UNIT_NAME], Exited 0)) then false
  else running.

Definition ctl (args : list string) : list string := ["systemctl"; "--user"] ++ args.

(** The commands of [main], and whether they must succeed. *)
Definition launch_plan (build no_follow : bool) : list (list string * bool) :=
  [(ctl ["stop"; UNIT_NAME], false)] ++
  (if build then
     [(["xmake"; "f"; "-m"; "release"], true); (["xmake"], true);
      (["xmake"; "install"; "-o"; "stage"], true)] else []) ++
  (if build && negb (unit_is_file env) then [] else
     (if build then [(ctl ["link"; STAGED_UNIT], true); (ctl ["daemon-reload"], true)] else []) ++
     [(ctl ["start"; UNIT_NAME], true)] ++
     (if no_follow then [] else [(["journalctl"; "--user"; "-f"; "-u"; "kwin-api-server"], true)])).

(** The commands up to the first that ends the script, how it does, and the
    answers that are left. *)
Fixpoint executes (plan : list (list string * bool)) (answers : list exec_answer)
    : list (list string * exec_answer) * option launch_exn * list exec_answer :=
  match plan with
  | [] => ([], None, answers)
  | (cmd, check) :: plan =>
    match command_ends cmd check (next_answer answers) with
    | Some e => ([(cmd, next_answer answers)], Some e, tail answers)
    | None =>
      let '(ran, e, rest) := executes plan (tail answers) in
      ((cmd, next_answer answers) :: ran, e, rest)
    end
  end.

(** [m] executes the plan, and ends with [r] if no command ends it earlier. *)
Definition performs {A} (m : launching A) (plan : list (list string * bool)) (r : A + launch_exn) : Prop :=
  ∀ l, let '(ran, e, rest) := executes plan (la_answers l) in
    ∃ out, m l = (match e with Some e => inr e | None => r end, Launch rest (la_trace l ++ out)) ∧
      executed out = ran.

Lemma executes_app plan plan' answers :
  executes (plan ++ plan') answers =
    let '(ran, e, rest) := executes plan answers in
    match e with
    | Some e => (ran, Some e, rest)
    | None => let '(ran', e', rest') := executes plan' rest in (ran ++ ran', e', rest')
    end.
Proof.
  revert answers. induction plan as [|[cmd check] plan IH]; intros answers; cbn [executes app].
  { by destruct (executes plan' answers) as [[? ?] ?]. }
  destruct (command_ends cmd check (next_answer answers)); [done|]. rewrite IH.
  destruct (executes plan (tail answers)) as [[? []] rest]; [done|].
  by destruct (executes plan' rest) as [[? ?] ?].
Qed.

Lemma performs_ret {A} (a : A) : performs (mret a) [] (inl a).
Proof. intros [answers trace]. exists []. by rewrite app_nil_r. Qed.

Lemma performs_raise {A} e : performs (raise (A := A) e) [] (inr e).
Proof. intros [answers trace]. exists []. by rewrite app_nil_r. Qed.

Lemma performs_say line : performs (say line) [] (inl ()).
Proof. intros [answers trace]. by eexists [_]. Qed.

Lemma performs_complain line : performs (complain line) [] (inl ()).
Proof. intros [answers trace]. by eexists [_]. Qed.

Lemma performs_run cmd check cwd : performs (run cmd check cwd) [(cmd, check)] (inl ()).
Proof.
  intros [answers trace]. cbn [executes la_answers].
  assert (run cmd check cwd (Launch answers trace) = (
    match command_ends cmd check (next_answer answers) with Some e => inr e | None => inl () end,
    Launch (tail answers) (trace ++ [Says ("+ " +:+ join_words cmd); Runs cmd cwd (next_answer answers)])))
    as ->.
  { unfold run, mbind, launching_bind, say, perform_action, execute. cbn [la_answers la_trace]. by rewrite <- app_assoc. }
  destruct (command_ends cmd check (next_answer answers)); by eexists [_; _].
Qed.

Lemma performs_bind {A B} (m : launching A) (k : A → launching B) plan plan' a r :
  performs m plan (inl a) → performs (k a) plan' r → performs (m ≫= k) (plan ++ plan') r.
Proof.
  intros Hm Hk l. specialize (Hm l). rewrite executes_app.
  destruct (executes plan (la_answers l)) as [[ran e] rest]. destruct Hm as (out & Hm & Hout).
  unfold mbind, launching_bind. rewrite Hm. destruct e as [e|]; [by exists out|].
  specialize (Hk (Launch rest (la_trace l ++ out))). cbn [la_answers la_trace] in Hk.
  destruct (executes plan' rest) as [[ran' e'] rest']. destruct Hk as (out' & -> & Hout').
  exists (out ++ out'). rewrite app_assoc. split; [done|].
  unfold executed in *. rewrite omap_app. congruence.
Qed.

Lemma performs_bind_raise {A B} (m : launching A) (k : A → launching B) plan e :
  performs m plan (inr e) → performs (m ≫= k) plan (inr e).
Proof.
  intros Hm l. specialize (Hm l). destruct (executes plan (la_answers l)) as [[ran e'] rest].
  destruct Hm as (out & Hm & Hout). exists out. unfold mbind, launching_bind. rewrite Hm.
  by destruct e'.
Qed.

Lemma performs_after_say {A} line (k : () → launching A) plan r :
  performs (k ()) plan r → performs (say line ≫= k) plan r.
Proof. apply (performs_bind _ _ [] plan () r (performs_say line)). Qed.

Lemma performs_after_complain {A} line (k : () → launching A) plan r :
  performs (k ()) plan r → performs (complain line ≫= k) plan r.
Proof. apply (performs_bind _ _ [] plan () r (performs_complain line)). Qed.

Lemma performs_after_run {A} cmd check cwd (k : () → launching A) plan r :
  performs (k ()) plan r → performs (run cmd check cwd ≫= k) ((cmd, check) :: plan) r.
Proof. apply (performs_bind _ _ [_] plan () r (performs_run cmd check cwd)). Qed.

Ltac perform := repeat first
  [ apply performs_run | apply performs_after_run | apply performs_after_say
  | apply performs_after_complain | apply performs_say | apply performs_ret | apply performs_raise ].

Lemma performs_build : performs build_and_install
  [(["xmake"; "f"; "-m"; "release"], true); (["xmake"], true); (["xmake"; "install"; "-o"; "stage"], true)]
  (inl ()).
Proof. unfold build_and_install. perform. Qed.

Lemma performs_link : performs link_unit
  (if unit_is_file env then [(ctl ["link"; STAGED_UNIT], true); (ctl ["daemon-reload"], true)] else [])
  (if unit_is_file env then inl () else inr (SystemExit 1)).
Proof.
  unfold link_unit, systemctl. destruct (unit_is_file env).
  - apply (performs_bind _ _ [] _ () _ (performs_ret ())). perform.
  - apply performs_bind_raise. perform.
Qed.

Lemma performs_cleanup : performs (say "==> stopping the service";; stop_service;; print_removal_hint)
  [(ctl ["stop"; UNIT_NAME], false)] (inl ()).
Proof. unfold stop_service, systemctl, print_removal_hint. perform. Qed.

Lemma performs_body (build no_follow : bool) (k : launching Z) :
  performs k (if no_follow then [] else [(["journalctl"; "--user"; "-f"; "-u"; "kwin-api-server"], true)]) (inl 0) →
  performs
    (say "==> stopping the currently running service";;
     stop_service;;
     (if build then
        say "==> building and staged-installing (xmake install -o stage)";;
        build_and_install;;
        say "==> linking the generated unit and reloading systemd";;
        link_unit
      else mret ());;
     say ("==> starting " +:+ UNIT_NAME);;
     start_service;;
     k)
    (launch_plan build no_follow)
    (if build && negb (unit_is_file env) then inr (SystemExit 1) else inl 0).
Proof.
  intros Hk. unfold launch_plan. apply performs_after_say, performs_after_run.
  destruct build; cbn [andb].
  - pose proof performs_link as Hl. destruct (unit_is_file env) eqn:Hf; cbn [negb].
    + apply (performs_bind _ _ ([(["xmake"; "f"; "-m"; "release"], true); (["xmake"], true);
        (["xmake"; "install"; "-o"; "stage"], true)] ++
        [(ctl ["link"; STAGED_UNIT], true); (ctl ["daemon-reload"], true)]) _ ()).
      * apply performs_after_say. eapply performs_bind; [apply performs_build|].
        by apply performs_after_say.
      * apply performs_after_say. by apply performs_after_run.
    + apply performs_bind_raise. apply performs_after_say.
      eapply performs_bind; [apply performs_build|]. by apply performs_after_say.
  - apply (performs_bind _ _ [] _ () _ (performs_ret ())). apply performs_after_say.
    by apply performs_after_run.
Qed.

(** How the script ends: with a code of its own, or by an exception. *)
Definition exit_code (r : Z + launch_exn) : Z :=
  match r with
  | inl code | inr (SystemExit code) => code
  | inr KeyboardInterrupt => 130
  | inr _ => 1
  end.

Definition final_end (build no_follow : bool) (answers : list exec_answer)
    : list (list string * exec_answer) * (Z + launch_exn) :=
  let '(ran, e, rest) := executes (launch_plan build no_follow) answers in
  let r := match e with
           | Some e => inr e
           | None => if build && negb (unit_is_file env) then inr (SystemExit 1) else inl 0
           end in
  if no_follow then (ran, r)
  else
    (ran ++ [(ctl ["stop"; UNIT_NAME], next_answer rest)],
     match command_ends (ctl ["stop"; UNIT_NAME]) false (next_answer rest) with
     | Some e => inr e
     | None => r
     end).

Lemma launch_main_spec (build no_follow : bool) answers :
  let '(ran, r) := final_end build no_follow answers in
  ∃ l, launch_main build no_follow (Launch answers []) = (r, l) ∧ executed (la_trace l) = ran.
Proof.
  unfold final_end, launch_main, try_finally.
  pose proof (performs_body build no_follow
    (if no_follow then
       say ("==> service running; socket: " +:+ socket_location);;
       say ("    (leave it running; stop it later with `systemctl --user stop " +:+ UNIT_NAME +:+ "`)");;
       mret 0
     else say "==> following logs (Ctrl+C to stop)";; follow_logs;; mret 0)) as Hb.
  assert (performs _ _ _) as Hbody by (apply Hb; destruct no_follow; unfold follow_logs; perform). clear Hb.
  specialize (Hbody (Launch answers [])). cbn [la_answers la_trace] in Hbody.
  destruct (executes (launch_plan build no_follow) answers) as [[ran e] rest].
  destruct Hbody as (out & -> & Hout). rewrite app_nil_l.
  destruct no_follow; [by eexists|].
  pose proof (performs_cleanup (Launch rest out)) as Hc. cbn [la_answers la_trace executes] in Hc.
  destruct (command_ends (ctl ["stop"; UNIT_NAME]) false (next_answer rest)) as [e'|];
    destruct Hc as (out' & -> & Hout'); eexists; (split; [done|]);
    unfold executed in *; cbn [la_trace]; rewrite omap_app; congruence.
Qed.

Lemma command_must_succeed cmd a : command_ends cmd true a = None ↔ a = Exited 0.
Proof.
  destruct a as [code| |]; cbn; [|done..]. destruct (Z.eqb_spec code 0); cbn; [by subst|]. naive_solver.
Qed.

Lemma executes_plan plan answers ran e rest :
  executes plan answers = (ran, e, rest) → map fst ran `prefix_of` map fst plan.
Proof.
  revert answers ran. induction plan as [|[cmd check] plan IH]; intros answers ran; cbn [executes].
  { intros [= <- _ _]. apply prefix_nil. }
  destruct (command_ends cmd check (next_answer answers)).
  { intros [= <- _ _]. cbn. apply prefix_cons, prefix_nil. }
  destruct (executes plan (tail answers)) as [[ran' e'] rest'] eqn:He. intros [= <- -> ->]. cbn.
  apply prefix_cons, (IH _ _ He).
Qed.

(** A plan ends well when its last command was reached and succeeded. *)
Lemma executes_last plan cmd answers ran e rest :
  cmd ∉ map fst plan → executes (plan ++ [(cmd, true)]) answers = (ran, e, rest) →
  e = None ↔ (cmd, Exited 0) ∈ ran.
Proof.
  intros Hcmd. rewrite executes_app. destruct (executes plan answers) as [[ran1 e1] rest1] eqn:H1.
  assert (∀ a, (cmd, a) ∉ ran1) as Hnot.
  { intros a Hin. apply Hcmd. apply executes_plan in H1 as [k Hk]. rewrite Hk. apply elem_of_app. left.
    apply list_elem_of_fmap. by exists (cmd, a). }
  destruct e1 as [e1|]; [intros [= <- <- _]; split; [done|intros Hin; by apply Hnot in Hin]|].
  cbn [executes]. pose proof (command_must_succeed cmd (next_answer rest1)) as Hs.
  destruct (command_ends cmd true (next_answer rest1)) as [e2|]; intros [= <- <- _];
    rewrite elem_of_app, list_elem_of_singleton; split; try done.
  - intros [Hin|[= Ha]]; [by apply Hnot in Hin|]. symmetry in Ha. by apply Hs in Ha.
  - intros _. right. by rewrite (proj1 Hs eq_refl).
Qed.

Lemma executes_exit plan answers ran e rest :
  executes plan answers = (ran, Some e, rest) → exit_code (inr e) ≠ 0.
Proof.
  revert answers ran. induction plan as [|[cmd check] plan IH]; intros answers ran; cbn [executes]; [done|].
  destruct (command_ends cmd check (next_answer answers)) as [e'|] eqn:He'.
  - intros [= _ <- _]. unfold command_ends in He'. repeat case_match; simplify_eq; cbn; lia.
  - destruct (executes plan (tail answers)) as [[? ?] ?] eqn:He. intros [= _ -> ->]. apply (IH _ _ He).
Qed.

(** Without following, the script answers 0 exactly when the service started. *)
Lemma final_end_started (build : bool) answers :
  let '(ran, r) := final_end build true answers in
  exit_code r = 0 ↔ (ctl ["start"; UNIT_NAME], Exited 0) ∈ ran.
Proof.
  unfold final_end. destruct (executes (launch_plan build true) answers) as [[ran e] rest] eqn:He.
  destruct (build && negb (unit_is_file env)) eqn:Hunit.
  - apply executes_plan in He as Hran. unfold launch_plan in Hran. rewrite Hunit in Hran.
    apply andb_true_iff in Hunit as [-> _].
    split; [destruct e as [e|]; [intros Hx; by apply executes_exit in He|done]|]. intros Hin.
    destruct Hran as [k Hk]. assert (ctl ["start"; UNIT_NAME] ∈ map fst ran ++ k) as Hs.
    { apply elem_of_app. left. apply list_elem_of_fmap. by exists (ctl ["start"; UNIT_NAME], Exited 0). }
    rewrite <- Hk in Hs. cbn in Hs. by repeat (apply elem_of_cons in Hs as [Hs|Hs]; [done|]); apply elem_of_nil in Hs.
  - assert (∃ front, launch_plan build true = front ++ [(ctl ["start"; UNIT_NAME], true)] ∧
      ctl ["start"; UNIT_NAME] ∉ map fst front) as (front & Hplan & Hfront).
    { unfold launch_plan. rewrite Hunit, app_nil_r, !app_assoc. eexists. split; [done|].
      destruct build; cbn; rewrite !elem_of_cons, elem_of_nil; naive_solver. }
    rewrite Hplan in He. rewrite <- (executes_last _ _ _ _ _ _ Hfront He).
    destruct e as [e|]; [|done]. split; [intros Hx; by apply executes_exit in He|done].
Qed.

(** C40: run.py stops the service that it started.  Whatever its commands
    answer, and whether they fail, are missing or are interrupted, the script
    executes its plan up to the first command that fails, and exits with the
    code that belongs to that end: 0, 1, or 130 after a signal.  When it follows
    the logs, the last command is a stop of the service on every path, so that
    the service is not running when that stop succeeds.  With --no-follow there
    is no such stop, and the code is 0 exactly when the service was started. *)
Theorem launcher_stops_the_service (build no_follow : bool) answers :
  let '(code, trace) := launch_script build no_follow answers in
  let '(ran, r) := final_end build no_follow answers in
  executed trace = ran ∧ code = exit_code r ∧
  if no_follow then code = 0 ↔ (ctl ["start"; UNIT_NAME], Exited 0) ∈ executed trace
  else ∃ front a, executed trace = front ++ [(ctl ["stop"; UNIT_NAME], a)] ∧
    (a = Exited 0 → foldl may_run true (executed trace) = false).
Proof.
  pose proof (launch_main_spec build no_follow answers) as Hmain. unfold launch_script.
  assert (∀ trace a, executed (trace ++ [Says a]) = executed trace ∧
    executed (trace ++ [Complains a]) = executed trace) as Hlines.
  { intros trace a. unfold executed. by rewrite !omap_app, !app_nil_r. }
  pose proof (final_end_started build answers) as Hstart.
  assert (no_follow = false → ∃ front a,
    fst (final_end build no_follow answers) = front ++ [(ctl ["stop"; UNIT_NAME], a)]) as Hstop.
  { intros ->. unfold final_end. destruct (executes _ answers) as [[front e] rest]. by eexists front, _. }
  destruct (final_end build no_follow answers) as [ran r] eqn:Hend.
  destruct Hmain as (l & -> & Hran).
  assert (∀ code trace, executed trace = ran → code = exit_code r →
    executed trace = ran ∧ code = exit_code r ∧
    if no_follow then code = 0 ↔ (ctl ["start"; UNIT_NAME], Exited 0) ∈ executed trace
    else ∃ front a, executed trace = front ++ [(ctl ["stop"; UNIT_NAME], a)] ∧
      (a = Exited 0 → foldl may_run true (executed trace) = false)) as Hfinish.
  { intros code trace -> ->. do 2 (split; [done|]). destruct no_follow; [by rewrite Hend in Hstart|].
    destruct (Hstop eq_refl) as (front & a & Hf). cbn [fst] in Hf. rewrite Hf. exists front, a. split; [done|]. intros ->.
    by rewrite foldl_app. }
  destruct r as [code|[| | |code]]; apply Hfinish; rewrite ?(proj1 (Hlines _ _)), ?(proj2 (Hlines _ _)); done.
Qed.
End launcher.

(** A second signal, while the service is being stopped, ends the cleanup: the
    service may go on running, and the hint is not printed. *)
Lemma second_signal_skips_cleanup env :
  let '(code, trace) := launch_script env false false [Exited 0; Exited 0; Interrupted; Interrupted] in
  code = 130 ∧ foldl may_run true (executed trace) = true ∧ Says "Service stopped." ∉ trace.
Proof.
  vm_compute. split; [done|]. split; [done|]. intros Hin.
  by repeat (apply elem_of_cons in Hin as [Hin|Hin]; [discriminate|]); apply elem_of_nil in Hin.
Qed.
